(* ===== verification/_CoqProject ===== *)
-Q . S2P
Prelude.v
RustStr.v
PatchParser.v
PatchGrammar.v
StreamingPatch.v
SeekSequence.v
PatchApply.v
AbsPath.v
PatchFs.v
TurnDiff.v
HeadTail.v
Models.v
Truncate.v
Fragments.v
Normalize.v
History.v
ExecPolicy.v
PolicyBuilder.v
Amend.v
StreamText.v
TaggedLines.v
Utf8Stream.v
Permissions.v
BashScript.v
CommandSafety.v
Approval.v
PolicyManager.v
Orchestrator.v
NetworkApproval.v
PermissionTransforms.v
PermissionGrants.v
PatchInvocation.v
PatchSafety.v
Compact.v
HostPolicy.v
NetworkProxy.v
TextArea.v
TextAreaVim.v
RolloutReplay.v
RolloutSession.v
