(* ===== verification/Prelude.v ===== *)
(** * Verification of the Codex agent's core logic

    The repository is a coding agent: a model proposes tool calls, the agent
    checks them, asks where it must, runs them in a sandbox, edits files and feeds
    the results back to the model.  The Rust workspace is [codex-rs/]; this library
    models the parts of it that decide and transform, and leaves the services
    around them (terminal, network, processes, persistence) aside.

    ** The program and the files that model it

    - Editing files, [apply-patch/]: a patch text is parsed ([parser.rs]:
      [PatchParser], with its concrete grammar in [PatchGrammar]; piece by piece
      while it arrives, [streaming_parser.rs]: [StreamingPatch]), the lines an
      update talks about are located in the file ([seek_sequence.rs]:
      [SeekSequence]), the replacements are computed and applied ([lib.rs]:
      [PatchApply]), and the hunks are run against a filesystem while a delta of
      the changes is recorded ([lib.rs] with the trait of [file-system/]:
      [PatchFs]).  Command lines that carry a patch are recognised and turned into
      an action ([invocation.rs]: [PatchInvocation]), and whether that is applied
      without asking is decided by [core/src/safety.rs] ([PatchSafety]).  Paths are
      those of [utils/absolute-path] ([AbsPath]).
    - Reporting what a turn changed, [core/src/turn_diff_tracker.rs]:
      [TurnDiff] consumes the deltas of [PatchFs] and renders a unified diff.
    - Output of commands: [core/src/unified_exec/head_tail_buffer.rs]
      ([HeadTail]) keeps the head and the tail of a stream; [utils/string] and
      [utils/output-truncation] ([Truncate]) cut texts and tool outputs to a
      budget.
    - Text of the model, [utils/stream-parser/]: hidden tags and citations
      ([StreamText]), plan blocks that take whole lines ([TaggedLines]), the text
      of the assistant and bytes that arrive in chunks ([Utf8Stream]); the trait
      of these parsers is a class with its laws.
    - The conversation: the items of [protocol/src/models.rs] ([Models]), the
      recognition of injected context ([context-fragments/], [core/src/context],
      [core/src/event_mapping.rs]: [Fragments]), the normalisation of a history
      before it is sent ([core/src/context_manager/normalize.rs]: [Normalize]),
      the context manager that owns the history
      ([core/src/context_manager/history.rs]: [History]) and its compaction to the
      messages of the user and a summary ([core/src/compact.rs]: [Compact]).
    - The log of a thread: the history and the metadata of a thread are rebuilt
      from its rollout ([core/src/session/rollout_reconstruction.rs]:
      [RolloutReplay]) when a session is resumed, forked or rolled back
      ([core/src/session/mod.rs], [handlers.rs]), and a fork cuts the rollout at a
      turn ([core/src/thread_rollout_truncation.rs]: [RolloutSession]).
    - Permission to run commands: rules, policies and decisions of [execpolicy/]
      ([decision.rs], [rule.rs], [policy.rs], [executable_name.rs]: [ExecPolicy]),
      the policy files that declare them ([parser.rs]: [PolicyBuilder]) and the
      lines that are appended to them ([amend.rs]: [Amend]); the commands in a
      shell script ([shell-command/src/bash.rs]: [BashScript]) and the lists of
      safe and dangerous ones ([command_safety/]: [CommandSafety]); what approval a
      call needs ([core/src/exec_policy.rs]: [Approval]) and the policy of a
      session with its managed rules and amendments ([PolicyManager]).
    - Permission to touch files: the filesystem policy of
      [protocol/src/permissions.rs] and the roots it hands to the sandbox
      ([Permissions]), requests for more and their intersection with what was
      granted ([sandboxing/src/policy_transforms.rs]: [PermissionTransforms]), and
      the grants of a turn and of a session ([core/src/session],
      [core/src/tools/handlers]: [PermissionGrants]).
    - Running a tool, [core/src/tools/orchestrator.rs] and [sandboxing.rs]:
      [Orchestrator] asks, attempts in the sandbox and escalates, over any tool
      runtime with the laws of its trait.
    - Network access: concurrent requests for approval of a host
      ([core/src/tools/network_approval.rs]: [NetworkApproval]); the addresses,
      hosts and domain patterns of [network-proxy/src/policy.rs] ([HostPolicy]) and
      the policy of the proxy with its managed constraints ([config.rs],
      [state.rs], [runtime.rs], [network_policy.rs]: [NetworkProxy]).
    - Typing a request, [tui/src/bottom_pane/textarea.rs]: the edit buffer with its
      cursor, atomic elements and kill buffer ([TextArea]), and the keys that edit
      it, with the modes, operators and text objects of Vim ([textarea/vim.rs],
      [key_hint.rs]: [TextAreaVim]).
    - [Prelude] (this file) and [RustStr] hold what they share: results with
      panics, machine integers, vectors and Rust's string operations.

    Definitions keep the source's names; where two methods share a name the
    type is put in front ([builder_new], [hunk_path]).  Each file opens with the
    source files it models.

    ** Modelling conventions

    - A Rust [Result] is [res E A]: [Ok], [Err], [Panic] for an unwinding panic
      (index, slice, [expect]) and [NoFuel] for a loop that ran out of fuel.
      [let? x := e in k] is the question mark operator.
    - Strings are lists of code points, so a value is always valid text; byte
      lengths and byte slices are computed from the UTF-8 lengths and slicing off
      a character boundary panics.  Paths are lists of components, Unix only.
    - [usize], [u64] and [i64] values whose overflow matters are in [Z] with the
      saturating or wrapping operation written out; sizes bounded by a list's
      length are in [nat].
    - Loops that consume a list are structural.  The parser loops that skip a
      computed part of their input take fuel, the length of what is left; each
      iteration consumes something, so it suffices, and the totality theorems show
      that [NoFuel] and [Panic] never come out.  The loop of a compaction takes the
      streams of the model as a list and needs at most [max_retries + 1] of them
      for each item of the history and two more, as its theorem shows.  The loop
      that widens a range to whole elements takes one more than their number: each
      pass that changes the range takes in another element.
    - State is passed explicitly: the filesystem through [apply_hunk_loop], the
      tracker, the buffer, the manager and the builder through their operations.
      A failing operation returns the state it leaves behind.  Where tasks share
      state, each section under a lock is a step of a relation
      ([NetworkApproval.step], [NetworkProxy.step], the events of a session in
      [PermissionGrants]), and theorems quantify over all interleavings.  A request
      for network approval can also be dropped at any await with its connection.
    - What is not in the repository is a parameter with its documented behaviour
      as laws: the filesystem ([FsLaws], with an in-memory instance; [FsFrame]
      says that a write reaches only paths of the same file, links included), the
      text differ of [similar] and SHA-1, the iteration order of hash maps (any
      permutation), the multimap of rules ([MultiMap], with an instance), shell
      splitting, the tree-sitter grammar (the syntax tree it returns), the Starlark
      interpreter (the sequence of builtin calls a file makes), globs
      ([GlobLaws], with an instance), the host parser of [url] ([UrlHostLaws], with
      an instance), Unicode segmentation and display widths ([SegmentationLaws],
      with an instance), name resolution, serialised lengths and image decoding, the
      XML reader of hook prompts, the home and working directories, environment
      variables, answers of users, hooks and the thread store, streams of the model
      and whether debug assertions are on.

    ** What the theorems show

    - Patches.  Printing a well-formed patch and parsing it gives it back, also
      inside a heredoc, and parsing it while it arrives gives the same hunks;
      parsing never panics or runs out of fuel and yields well-formed hunks;
      [seek_sequence] finds the first match of the strictest pass that matches;
      the replacements computed for an update are where its contexts and old lines
      are found, and turn the file into the lines between them interleaved with
      the new lines; running a patch always returns; and when the delta it reports
      is exact and no file is moved onto itself, replaying the delta from the old
      contents of the files gives the new ones.  A verified action is the patch
      that was passed, and one that is applied without asking changes only files
      the policy lets be written, up to links, provided it names each path once.
      Flaws that are recorded: additions without context that are lost, a move
      onto itself that deletes the file, a repeated path that hides a move from
      the safety check, an end-of-file search that does not fall back, and
      contexts that the streaming parser trims.
    - Turn diffs.  The diff shows exactly the files whose contents at the end of
      the turn differ from those at its start, proved for the tracker against the
      history of [PatchFs] and end to end for runs of [apply_patch]; an inexact
      delta suppresses it.
    - Output and text.  However output is chunked, the buffer holds the first and
      last bytes within its budget and counts the rest; truncation keeps the
      longest prefix and suffix that fit and never slices inside a character.
      However the text of the model is cut, also inside a character, the parsers
      give the text without its tags, the tags in order and the plan blocks, and
      refuse a chunk exactly when it cannot be text.
    - Conversation.  A normalised history pairs calls and outputs and is a fixed
      point; recording, rolling back, removing and replacing items do what the
      contract says and keep the pairing; the token total is the reported usage
      and the estimates of what came after it; rendered context is recognised.  A
      compaction always settles (in release builds, as debug assertions may stop
      the normalisation): it records what the streams sent, and then replaces the
      history by the newest messages of the user within the budget and the summary
      or leaves it at that; messages survive repeated compactions.
    - Threads.  Rebuilding a history from its last surviving checkpoint gives what
      replaying the whole log gives; the settings, the context and the checkpoint
      that are recovered are those of the newest turns left on a stack of turns
      after the rollbacks; a rollback and a later resume agree; a fork before a
      message of a log without compactions rebuilds exactly the messages before
      it.  Recorded flaws: the rollback of a turn that compacted loses the
      history, and the rollback of a turn of another agent hides a message of the
      user.
    - Commands.  The decision on a batch of commands is the strictest that bears
      on any of them (rules first, then rules for the base name, then heuristics);
      merging and amending change exactly the intended decisions; parsed files
      satisfy their examples; commands are read from a script only when its syntax
      tree is plain; the approval requirement is the strictest decision on the
      commands of a call; managed rules govern every session; accepted amendments
      settle a call; appending a line never damages a file.
    - Files.  The most specific entry decides; the writable roots of the sandbox
      open nothing that the policy does not (without symbolic links);
      intersections and recorded grants let nothing be read or written that was
      not both asked for and granted; what counts as preapproved was granted.
      Recorded flaws: a preapproval that fails open, an intersection that drops
      read-only entries, and nested roots of which the outer one opens protected
      metadata.
    - Tools.  Every run of a tool has the consent its requirement asks for, at
      most one escalation, and never leaves the sandbox when reads are denied.
    - Network.  Of the requests for one host at most one asks, and none waits for
      ever unless the one that asks is dropped; the classification of addresses is
      a list of intervals; managed constraints hold in every interleaving of the
      proxy's tasks; managed denials are final, managed allowlists that may not be
      extended bound what passes, and nothing passes that is denied or resolves to
      a local address.  Recorded flaws: entries with a port or a wildcard that
      escape the managed list, a blocked request that a concurrent change forgets,
      addresses that are not routable and count as public, and an owner
      dropped while it asks that strands its host.
    - Editing.  Whatever is typed, and called within the conditions of [allowed],
      the edit buffer does not panic, its positions stay on character boundaries
      and its elements in order and apart; a replacement takes elements whole and
      leaves the others as they were; a kill comes back with a yank in its place;
      a saved draft is restored.  Recorded flaws: overlapping elements that lead
      to a panic, lines cut by a vertical motion that are pasted inside a line,
      and Escape that can stop inside an element.

    ** What is left out

    Tracing, serialisation formats and the text of derived [Debug] output;
    Windows paths and executable suffixes; accessors that return a field.  The
    services around the modelled core (session loop, tool runtimes, platform
    sandboxes, servers, user interface, persistence, configuration) are mostly
    I/O over third-party libraries.  Planned next, in this order: the hooks of the
    TLS interception, the composer of the terminal interface around its edit
    buffer, and the layers of the configuration. *)

(** ** Shared vocabulary

    Rust results with panics, the saturating arithmetic of machine integers,
    vectors with the panicking operations of [Vec], and the list lemmas the
    components use. *)

From stdpp Require Export prelude gmap list strings sorting.
From Stdlib Require Export ZArith Lia.

(** ** Outcomes of Rust code

    [Ok] and [Err] are the two constructors of [Result]; [Panic] is an
    unwinding panic (slice out of range, [expect] on [None], ...);
    [NoFuel] marks a loop whose fuel ran out.  Totality theorems show that
    the last two never happen. *)
Inductive res (E A : Type) : Type :=
| Ok (a : A)
| Err (e : E)
| Panic
| NoFuel.
Arguments Ok {E A} a.
Arguments Err {E A} e.
Arguments Panic {E A}.
Arguments NoFuel {E A}.

Definition res_bind {E A B} (m : res E A) (k : A -> res E B) : res E B :=
  match m with
  | Ok a => k a
  | Err e => Err e
  | Panic => Panic
  | NoFuel => NoFuel
  end.

Declare Scope rust_scope.
Delimit Scope rust_scope with rust.
Open Scope rust_scope.

(** [let? x := e in k] is Rust's [let x = e?; k]. *)
Notation "'let?' x ':=' e 'in' k" := (res_bind e (fun x => k))
  (at level 10, x binder, e at level 200, k at level 200,
   format "'[v' 'let?'  x  ':='  e  'in' '/' k ']'") : rust_scope.

(** The outcome is a Rust [Result] value: neither a panic nor a divergence. *)
Definition returns {E A} (m : res E A) : Prop :=
  match m with
  | Ok _ | Err _ => True
  | Panic | NoFuel => False
  end.

Definition is_ok {E A} (m : res E A) : bool :=
  match m with Ok _ => true | _ => false end.

Definition from_opt {E A} (o : option A) : res E A :=
  match o with Some a => Ok a | None => Panic end.

Lemma returns_bind {E A B} (m : res E A) (k : A -> res E B) :
  returns m -> (forall a, m = Ok a -> returns (k a)) -> returns (res_bind m k).
Proof. destruct m; simpl; auto. Qed.

Lemma bind_Ok {E A B} (m : res E A) (k : A -> res E B) b :
  res_bind m k = Ok b -> exists a, m = Ok a /\ k a = Ok b.
Proof. destruct m; simpl; try discriminate; eauto. Qed.

(** ** Machine integers *)

Definition USIZE_MAX : Z := 2 ^ 64 - 1.
Definition I64_MAX : Z := 2 ^ 63 - 1.
Definition I64_MIN : Z := - 2 ^ 63.

(** [usize::saturating_add] and its siblings, on [Z]. *)
Definition usat_add (a b : Z) : Z := Z.min USIZE_MAX (a + b).
Definition usat_sub (a b : Z) : Z := Z.max 0 (a - b).
Definition usat_mul (a b : Z) : Z := Z.min USIZE_MAX (a * b).

(** [i64::saturating_add], [i64::saturating_sub]. *)
Definition i64_clamp (z : Z) : Z := Z.max I64_MIN (Z.min I64_MAX z).
Definition i64_sat_add (a b : Z) : Z := i64_clamp (a + b).
Definition i64_sat_sub (a b : Z) : Z := i64_clamp (a - b).

(** ** Vectors *)

(** [Vec::remove] panics when the index is not below the length. *)
Definition vec_remove {A} (l : list A) (i : nat) : option (list A) :=
  if decide (i < length l) then Some (take i l ++ drop (S i) l) else None.

(** [Vec::insert] panics when the index is above the length. *)
Definition vec_insert {A} (l : list A) (i : nat) (x : A) : option (list A) :=
  if decide (i <= length l) then Some (take i l ++ x :: drop i l) else None.

(** The slice [l[a..b]] panics unless [a <= b <= l.len()]. *)
Definition slice {A} (l : list A) (a b : nat) : option (list A) :=
  if decide (a <= b /\ b <= length l) then Some (take (b - a) (drop a l)) else None.

(** [Vec::dedup] *)
Fixpoint dedup {A} `{EqDecision A} (l : list A) : list A :=
  match l with
  | x :: (y :: _) as l' => if decide (x = y) then dedup l' else x :: dedup l'
  | _ => l
  end.

(** ** Automation *)

Create HintDb codex discriminated.

Ltac inv H := inversion H; subst; clear H.

(** Case analysis on the scrutinee of a [match] or [if] of the goal or of a
    hypothesis, remembering the equation. *)
Ltac split_match :=
  match goal with
  | |- context [match ?x with _ => _ end] => destruct x eqn:?
  | H : context [match ?x with _ => _ end] |- _ => destruct x eqn:?
  end.

Ltac res_inv :=
  repeat match goal with
  | H : res_bind _ _ = Ok _ |- _ => apply bind_Ok in H as (? & ? & ?)
  | H : Ok _ = Ok _ |- _ => injection H as H
  | H : Err _ = Ok _ |- _ => discriminate H
  | H : Panic = Ok _ |- _ => discriminate H
  | H : NoFuel = Ok _ |- _ => discriminate H
  | H : from_opt ?o = Ok _ |- _ => destruct o eqn:?; simpl in H
  end.

(** ** Lists *)

Section lists.
Context {A : Type}.
Implicit Types l k : list A.

Lemma slice_full l a : a <= length l -> slice l a (length l) = Some (drop a l).
Proof.
  intros H. unfold slice. rewrite decide_True by lia.
  f_equal. apply take_ge. rewrite length_drop. lia.
Qed.

Lemma slice_mid l x k y :
  l = x :: k ++ [y] -> slice l 1 (length l - 1) = Some k.
Proof.
  intros ->. unfold slice. simpl. rewrite length_app. simpl.
  rewrite decide_True by lia. f_equal.
  replace (length k + 1 - 0 - 1) with (length k) by lia. rewrite drop_0.
  apply take_app_length.
Qed.

Lemma head_last_app l : 2 <= length l -> exists x k y, l = x :: k ++ [y].
Proof.
  destruct l as [|x l]; simpl; [lia|]. intros H.
  destruct l as [|y k] using rev_ind; simpl in H; [lia|]. eauto.
Qed.

Lemma vec_insert_app l k x :
  vec_insert (l ++ k) (length l) x = Some (l ++ x :: k).
Proof.
  unfold vec_insert. rewrite decide_True by (rewrite length_app; lia).
  by rewrite take_app_length, drop_app_length.
Qed.

Lemma vec_remove_app l k x :
  vec_remove (l ++ x :: k) (length l) = Some (l ++ k).
Proof.
  unfold vec_remove. rewrite decide_True by (rewrite length_app; simpl; lia).
  rewrite take_app_length, cons_middle, app_assoc, drop_app_length'; [done|].
  rewrite length_app. simpl. lia.
Qed.

Lemma vec_remove_end l i : length l <= i -> vec_remove l i = None.
Proof. intros. unfold vec_remove. by rewrite decide_False by lia. Qed.
End lists.

Lemma dedup_elem {A} `{EqDecision A} (x : A) l : x ∈ dedup l <-> x ∈ l.
Proof.
  induction l as [|y [|z l] IH]; [done|done|].
  cbn [dedup]. destruct (decide (y = z)) as [->|]; rewrite ?elem_of_cons, IH; set_solver.
Qed.
