(* ===== verification/RustStr.v ===== *)
(** * Rust strings

    A [char] is a Unicode scalar value, a [str] the list of its characters.
    This file holds the [str] methods of the Rust standard library that the
    modelled code calls, with their laws. *)

From S2P Require Export Prelude.
From stdpp Require Export pretty.

Notation char := N (only parsing).
Notation str := (list N) (only parsing).

(** ASCII literals.  Non-ASCII literals are written as code points. *)
Definition lit (s : string) : str :=
  (fun a => Ascii.N_of_ascii a) <$> String.list_ascii_of_string s.
Arguments lit s : simpl never.

Definition NL : char := 10%N.
Definition CR : char := 13%N.
Definition SPACE : char := 32%N.
Definition DQUOTE : char := 34%N.
Definition PLUS : char := 43%N.
Definition MINUS : char := 45%N.
Definition STAR : char := 42%N.
Definition DOT : char := 46%N.
Definition COLON : char := 58%N.

Definition str_eqb (a b : str) : bool := bool_decide (a = b).

(** [format!("{n}")] for an unsigned integer. *)
Definition dec (n : nat) : str := lit (pretty (N.of_nat n)).

(** [char::is_whitespace]: the Unicode property [White_Space]. *)
Definition is_whitespace (c : char) : bool :=
  ((9 <=? c) && (c <=? 13) || (c =? 32) || (c =? 133) || (c =? 160)
   || (c =? 5760) || ((8192 <=? c) && (c <=? 8202)) || (c =? 8232)
   || (c =? 8233) || (c =? 8239) || (c =? 8287) || (c =? 12288))%N.

Fixpoint trim_start (s : str) : str :=
  match s with
  | [] => []
  | c :: s' => if is_whitespace c then trim_start s' else s
  end.

Definition trim_end (s : str) : str := reverse (trim_start (reverse s)).
Definition trim (s : str) : str := trim_start (trim_end s).

Fixpoint strip_prefix (p s : str) : option str :=
  match p, s with
  | [], _ => Some s
  | _ :: _, [] => None
  | a :: p', b :: s' => if (a =? b)%N then strip_prefix p' s' else None
  end.

Definition starts_with (p s : str) : bool :=
  match strip_prefix p s with Some _ => true | None => false end.

Definition strip_suffix (p s : str) : option str :=
  reverse <$> strip_prefix (reverse p) (reverse s).

Definition ends_with (p s : str) : bool :=
  match strip_suffix p s with Some _ => true | None => false end.

(** [s.split(c)]: never empty. *)
Fixpoint split (c : char) (s : str) : list str :=
  match s with
  | [] => [[]]
  | a :: s' =>
    if (a =? c)%N then [] :: split c s'
    else match split c s' with
         | h :: t => (a :: h) :: t
         | [] => [[a]]
         end
  end.

Fixpoint join (sep : str) (ls : list str) : str :=
  match ls with
  | [] => []
  | [l] => l
  | l :: ls' => l ++ sep ++ join sep ls'
  end.

(** A line loses one carriage return that precedes its newline. *)
Definition chomp_cr (s : str) : str :=
  match strip_suffix [CR] s with Some s' => s' | None => s end.

Fixpoint lines_of (parts : list str) : list str :=
  match parts with
  | [] => []
  | [p] => match p with [] => [] | _ :: _ => [p] end
  | p :: ps => chomp_cr p :: lines_of ps
  end.

(** [str::lines]. *)
Definition lines (s : str) : list str := lines_of (split NL s).

(** Length in UTF-8 bytes, [str::len]. *)
Definition len_utf8 (c : char) : nat :=
  if (c <? 128)%N then 1
  else if (c <? 2048)%N then 2
  else if (c <? 65536)%N then 3
  else 4.

Definition str_len (s : str) : nat := sum_list (len_utf8 <$> s).

(** Byte lengths as [usize] values. *)
Definition zlen_utf8 (c : char) : Z := Z.of_nat (len_utf8 c).
Definition zlen (s : str) : Z := Z.of_nat (str_len s).

(** Splitting at a byte offset; [None] when the offset is out of range or not
    on a character boundary ([str::get], and a panic for [&s[..n]]). *)
Fixpoint byte_split (s : str) (n : Z) : option (str * str) :=
  if (n =? 0)%Z then Some ([], s)
  else match s with
       | [] => None
       | c :: s' =>
         if (n <? zlen_utf8 c)%Z then None
         else match byte_split s' (n - zlen_utf8 c) with
              | Some (a, b) => Some (c :: a, b)
              | None => None
              end
       end.

(** [format!("{n}")] for a machine integer. *)
Definition decz (z : Z) : str := lit (pretty (Z.to_N z)).

(** The UTF-8 encoding of a character and of a string ([as_bytes]). *)
Definition utf8_char (c : char) : list N :=
  (if c <? 128 then [c]
   else if c <? 2048 then [192 + c / 64; 128 + c mod 64]
   else if c <? 65536 then [224 + c / 4096; 128 + (c / 64) mod 64; 128 + c mod 64]
   else [240 + c / 262144; 128 + (c / 4096) mod 64; 128 + (c / 64) mod 64; 128 + c mod 64])%N.

Definition as_bytes (s : str) : list N := s ≫= utf8_char.

(** The order of [String]: lexicographic on bytes, which for UTF-8 is
    lexicographic on code points. *)
Fixpoint str_leb (a b : str) : bool :=
  match a, b with
  | [], _ => true
  | _ :: _, [] => false
  | x :: a', y :: b' => if (x <? y)%N then true else if (x =? y)%N then str_leb a' b' else false
  end.

(** [s.split_once(p)] for a non-empty pattern. *)
Fixpoint split_once (p s : str) : option (str * str) :=
  match strip_prefix p s with
  | Some rest => Some ([], rest)
  | None =>
    match s with
    | [] => None
    | c :: s' =>
      match split_once p s' with Some (a, b) => Some (c :: a, b) | None => None end
    end
  end.

(** [s.find(p)] as an index in characters. *)
Fixpoint find (p s : str) : option nat :=
  if starts_with p s then Some 0
  else match s with
       | [] => None
       | _ :: s' => S <$> find p s'
       end.

Definition contains (p s : str) : bool :=
  match find p s with Some _ => true | None => false end.

(** [s.bytes().filter(|b| *b == c).count()] for an ASCII character *)
Definition count_char (c : char) (s : str) : nat := length (base.filter (fun a => a = c) s).

Definition to_ascii_lowercase (s : str) : str :=
  (fun c => if ((65 <=? c) && (c <=? 90))%N then (c + 32)%N else c) <$> s.

Definition is_ascii_digit (c : char) : bool := ((48 <=? c) && (c <=? 57))%N.

(** ** Prefixes and suffixes *)

Lemma str_eqb_eq a b : str_eqb a b = true <-> a = b.
Proof. unfold str_eqb. by rewrite bool_decide_eq_true. Qed.

Lemma str_eqb_refl a : str_eqb a a = true.
Proof. by apply str_eqb_eq. Qed.

Lemma str_eqb_ne a b : a <> b -> str_eqb a b = false.
Proof. unfold str_eqb. by rewrite bool_decide_eq_false. Qed.

Lemma strip_prefix_Some p s r : strip_prefix p s = Some r <-> s = p ++ r.
Proof.
  revert s. induction p as [|a p IH]; intros s; simpl; [naive_solver|].
  destruct s as [|b s]; [naive_solver|].
  destruct (N.eqb_spec a b) as [->|Hne].
  - rewrite IH. naive_solver.
  - naive_solver.
Qed.

Lemma strip_prefix_app p r : strip_prefix p (p ++ r) = Some r.
Proof. by apply strip_prefix_Some. Qed.

Lemma starts_with_true p s : starts_with p s = true <-> exists r, s = p ++ r.
Proof.
  unfold starts_with. destruct (strip_prefix p s) eqn:E.
  - apply strip_prefix_Some in E. naive_solver.
  - split; [done|]. intros [r Hr]. apply strip_prefix_Some in Hr. congruence.
Qed.

Lemma strip_prefix_None_head a p b s :
  a <> b -> strip_prefix (a :: p) (b :: s) = None.
Proof. intros H. simpl. by destruct (N.eqb_spec a b). Qed.

(** Two strings differ at a position both have. *)
Fixpoint diverge (a b : str) : bool :=
  match a, b with
  | x :: a', y :: b' => if (x =? y)%N then diverge a' b' else true
  | _, _ => false
  end.

Lemma diverge_strip_prefix a b r : diverge a b = true -> strip_prefix a (b ++ r) = None.
Proof.
  revert b. induction a as [|x a IH]; intros [|y b]; simpl; try done.
  destruct (x =? y)%N; [apply IH|done].
Qed.

Lemma diverge_ne a b r : diverge a b = true -> b ++ r <> a.
Proof.
  intros H E. apply (diverge_strip_prefix a b r) in H.
  assert (strip_prefix a (b ++ r) = Some []) as H'
    by (apply strip_prefix_Some; by rewrite app_nil_r).
  congruence.
Qed.

Lemma split_once_first c p a b :
  c ∉ a -> split_once (c :: p) (a ++ (c :: p) ++ b) = Some (a, b).
Proof.
  induction a as [|x a IH]; intros Hc.
  - cbn [app]. unfold split_once. fold split_once.
    change (c :: p ++ b) with ((c :: p) ++ b). by rewrite strip_prefix_app.
  - apply not_elem_of_cons in Hc as [Hx Ha]. rewrite <- app_comm_cons. cbn [split_once].
    rewrite strip_prefix_None_head by done. by rewrite IH.
Qed.

Lemma split_once_parts p s a b : split_once p s = Some (a, b) -> s = a ++ p ++ b.
Proof.
  revert a b. induction s as [|c s IH]; intros a b; simpl.
  - destruct (strip_prefix p []) eqn:E; [|done]. intros [= <- <-]. by apply strip_prefix_Some in E.
  - destruct (strip_prefix p (c :: s)) eqn:E.
    + intros [= <- <-]. by apply strip_prefix_Some in E.
    + destruct (split_once p s) as [[a' b']|]; [|done]. intros [= <- <-]. simpl. by rewrite (IH a' b').
Qed.

Lemma strip_suffix_Some p s r : strip_suffix p s = Some r <-> s = r ++ p.
Proof.
  unfold strip_suffix. rewrite fmap_Some. split.
  - intros (x & Hx & ->). apply strip_prefix_Some in Hx.
    rewrite <- (reverse_involutive s), Hx, reverse_app. by rewrite reverse_involutive.
  - intros ->. exists (reverse r). rewrite reverse_app, reverse_involutive.
    by rewrite strip_prefix_app.
Qed.

(** ** Trimming *)

Lemma trim_start_id c s : is_whitespace c = false -> trim_start (c :: s) = c :: s.
Proof. simpl. by intros ->. Qed.

Lemma trim_start_suffix s : exists w, s = w ++ trim_start s /\ Forall (fun c => is_whitespace c = true) w.
Proof.
  induction s as [|c s (w & Hw & Hall)]; simpl; [by exists []|].
  destruct (is_whitespace c) eqn:E; [|by exists []].
  exists (c :: w). simpl. split; [congruence|by constructor].
Qed.

Lemma trim_end_prefix s :
  exists w, s = trim_end s ++ w /\ Forall (fun c => is_whitespace c = true) w.
Proof.
  destruct (trim_start_suffix (reverse s)) as (w & Hw & Hall). exists (reverse w).
  split; [|by apply Forall_reverse]. unfold trim_end.
  apply (f_equal reverse) in Hw. by rewrite reverse_involutive, reverse_app in Hw.
Qed.

Lemma trim_end_head s : head (trim_end s) = None \/ head (trim_end s) = head s.
Proof.
  destruct (trim_end_prefix s) as (w & E & _). destruct (trim_end s) as [|c t]; [by left|right].
  by rewrite E.
Qed.

Lemma trim_start_head s : (forall c, head s = Some c -> is_whitespace c = false) -> trim_start s = s.
Proof. destruct s as [|c s]; [done|]. intros H. apply trim_start_id. by apply H. Qed.

Lemma trim_end_id s c : is_whitespace c = false -> trim_end (s ++ [c]) = s ++ [c].
Proof.
  intros H. unfold trim_end. rewrite reverse_app. simpl.
  rewrite H. simpl. by rewrite reverse_cons, reverse_involutive.
Qed.

Lemma trim_end_nil : trim_end [] = [].
Proof. done. Qed.

(** A string whose ends are not whitespace. *)
Definition edges_solid (s : str) : Prop :=
  (forall c, head s = Some c -> is_whitespace c = false) /\
  (forall c, last s = Some c -> is_whitespace c = false).

Lemma trim_end_solid s :
  (forall c, last s = Some c -> is_whitespace c = false) -> trim_end s = s.
Proof.
  intros H. destruct s as [|c s] using rev_ind; [done|].
  apply trim_end_id, H. by rewrite last_snoc.
Qed.

Lemma trim_solid s : edges_solid s -> trim s = s.
Proof.
  intros [Hh Hl]. unfold trim. rewrite trim_end_solid by done.
  destruct s as [|c s]; [done|]. apply trim_start_id. by apply Hh.
Qed.

Lemma trim_nonempty c l : is_whitespace c = false -> trim (c :: l) <> [].
Proof.
  intros Hc. unfold trim, trim_end.
  intros E. destruct (trim_start_suffix (reverse (c :: l))) as (w & Hw & Hall).
  apply (f_equal reverse) in Hw. rewrite reverse_involutive, reverse_app in Hw.
  set (r := reverse (trim_start (reverse (c :: l)))) in *.
  destruct r as [|x r]; simpl in *.
  - apply Forall_reverse in Hall. rewrite <- Hw in Hall. inversion Hall. congruence.
  - injection Hw as <- _. simpl in E. by rewrite Hc in E.
Qed.

(** ** Splitting and joining *)

Lemma split_ne_nil c s : split c s <> [].
Proof. destruct s as [|a s]; simpl; [done|]. by repeat case_match. Qed.

Lemma split_cons_other c a s :
  a <> c -> exists h t, split c s = h :: t /\ split c (a :: s) = (a :: h) :: t.
Proof.
  intros H. destruct (split c s) as [|h t] eqn:E; [by apply split_ne_nil in E|].
  exists h, t. simpl. rewrite E. by destruct (N.eqb_spec a c).
Qed.

Lemma split_app c a s :
  c ∉ a -> exists h t, split c s = h :: t /\ split c (a ++ s) = (a ++ h) :: t.
Proof.
  induction a as [|x a IH]; intros Ha; simpl.
  - destruct (split c s) as [|h t] eqn:E; [by apply split_ne_nil in E|]. eauto.
  - apply not_elem_of_cons in Ha as [Hx Ha].
    destruct (IH Ha) as (h & t & E & ->). exists h, t. split; [done|].
    by destruct (N.eqb_spec x c).
Qed.

Lemma split_no_sep c a : c ∉ a -> split c a = [a].
Proof.
  intros H. destruct (split_app c a [] H) as (h & t & E & E').
  simpl in E. injection E as <- <-. by rewrite !app_nil_r in E'.
Qed.

Lemma split_app_sep c a s : c ∉ a -> split c (a ++ c :: s) = a :: split c s.
Proof.
  intros H. destruct (split_app c a (c :: s) H) as (h & t & E & ->).
  simpl in E. rewrite N.eqb_refl in E. injection E as <- <-. by rewrite app_nil_r.
Qed.

Lemma split_join c ls :
  ls <> [] -> Forall (fun l => c ∉ l) ls -> split c (join [c] ls) = ls.
Proof.
  intros Hne Hall. induction Hall as [|l ls Hl Hls IH]; [done|].
  destruct ls as [|l' ls]; [by apply split_no_sep|].
  change (join [c] (l :: l' :: ls)) with (l ++ c :: join [c] (l' :: ls)).
  rewrite split_app_sep by done. f_equal. by apply IH.
Qed.

Lemma join_split c s : join [c] (split c s) = s.
Proof.
  induction s as [|a s IH]; [done|]. simpl.
  destruct (split c s) as [|h t] eqn:E; [by apply split_ne_nil in E|].
  destruct (N.eqb_spec a c) as [->|Hne].
  - change (c :: join [c] (h :: t) = c :: s). by rewrite IH.
  - destruct t; simpl in *; by rewrite IH.
Qed.

Lemma split_parts_no_sep c s : Forall (fun l => c ∉ l) (split c s).
Proof.
  induction s as [|a s IH]; simpl.
  - constructor; [apply not_elem_of_nil|constructor].
  - destruct (N.eqb_spec a c) as [->|Hne].
    + constructor; [apply not_elem_of_nil|done].
    + destruct (split c s) as [|h t]; [by constructor; [set_solver|]|].
      inv IH. constructor; [|done]. apply not_elem_of_cons. naive_solver.
Qed.

Lemma join_snoc_nil sep ls :
  ls <> [] -> join sep (ls ++ [[]]) = join sep ls ++ sep.
Proof.
  induction ls as [|l ls IH]; [done|]. intros _.
  destruct ls as [|l' ls]; simpl; [by rewrite app_nil_r|].
  simpl in IH. rewrite IH by done. by rewrite !app_assoc.
Qed.

Lemma join_ends sep x k y : exists m, join sep (x :: k ++ [y]) = x ++ m ++ y.
Proof.
  revert x. induction k as [|z k IH]; intros x; [by exists sep|].
  destruct (IH z) as [m Hm]. exists (sep ++ z ++ m).
  change (x ++ sep ++ join sep (z :: k ++ [y]) = x ++ (sep ++ z ++ m) ++ y).
  by rewrite Hm, <- !app_assoc.
Qed.

(** ** Lines *)

(** A line that survives printing and re-reading: no newline, and no
    carriage return at its end. *)
Definition line_ok (l : str) : Prop := NL ∉ l /\ last l <> Some CR.

Lemma chomp_cr_id l : last l <> Some CR -> chomp_cr l = l.
Proof.
  intros H. unfold chomp_cr. destruct (strip_suffix [CR] l) as [r|] eqn:E; [|done].
  apply strip_suffix_Some in E as ->. by rewrite last_snoc in H.
Qed.

Lemma lines_of_id ls :
  Forall line_ok ls -> last ls <> Some [] -> lines_of ls = ls.
Proof.
  intros Hall Hlast. induction Hall as [|l ls [Hnl Hcr] Hls IH]; [done|].
  destruct ls as [|l' ls].
  - simpl. destruct l; [by simpl in Hlast|done].
  - change (chomp_cr l :: lines_of (l' :: ls) = l :: l' :: ls).
    rewrite chomp_cr_id by done. f_equal. by apply IH.
Qed.

Lemma lines_join ls :
  Forall line_ok ls -> last ls <> Some [] -> lines (join [NL] ls) = ls.
Proof.
  intros Hall Hlast. destruct (decide (ls = [])) as [->|Hne]; [done|].
  unfold lines. rewrite split_join; [by apply lines_of_id|done|].
  eapply Forall_impl; [done|]. by intros l [??].
Qed.

(** ** Byte lengths *)

Lemma zlen_utf8_pos c : (1 <= zlen_utf8 c <= 4)%Z.
Proof. unfold zlen_utf8, len_utf8. repeat case_match; lia. Qed.

Lemma zlen_nonneg s : (0 <= zlen s)%Z.
Proof. unfold zlen. lia. Qed.

Lemma zlen_nil : zlen [] = 0%Z.
Proof. done. Qed.

Lemma zlen_cons c s : zlen (c :: s) = (zlen_utf8 c + zlen s)%Z.
Proof.
  unfold zlen, zlen_utf8. change (str_len (c :: s)) with (len_utf8 c + str_len s)%nat. lia.
Qed.

Lemma zlen_app a b : zlen (a ++ b) = (zlen a + zlen b)%Z.
Proof. induction a as [|c a IH]; simpl; rewrite ?zlen_cons, ?IH, ?zlen_nil; lia. Qed.

Lemma byte_split_app a b : byte_split (a ++ b) (zlen a) = Some (a, b).
Proof.
  induction a as [|c a IH]; [by destruct b|].
  cbn [app byte_split]. rewrite zlen_cons.
  pose proof (zlen_utf8_pos c). pose proof (zlen_nonneg a).
  rewrite (proj2 (Z.eqb_neq _ _)), (proj2 (Z.ltb_ge _ _)) by lia.
  replace (zlen_utf8 c + zlen a - zlen_utf8 c)%Z with (zlen a) by lia. by rewrite IH.
Qed.

Lemma byte_split_sound s : forall n a b,
  byte_split s n = Some (a, b) -> s = a ++ b /\ n = zlen a.
Proof.
  induction s as [|c s IH]; intros n a b; cbn [byte_split];
    (destruct (Z.eqb_spec n 0) as [->|]; [by intros [= <- <-]|]); [done|].
  destruct (n <? zlen_utf8 c)%Z; [done|].
  destruct (byte_split s (n - zlen_utf8 c)) as [[a' b']|] eqn:E; [|done].
  intros [= <- <-]. apply IH in E as [-> E]. rewrite zlen_cons. split; [done|lia].
Qed.
