(* ===== verification/PatchParser.v ===== *)
(** * The patch parser ([apply-patch/src/parser.rs])

    A patch text is split into lines, its boundary markers are checked
    (strictly, or with the lenient heredoc exception), the optional
    environment preamble is read and the rest is parsed hunk by hunk.  Paths
    are kept as the strings the patch spells. *)

From S2P Require Export RustStr.

Definition BEGIN_PATCH_MARKER : str := lit "*** Begin Patch".
Definition ENVIRONMENT_ID_MARKER : str := lit "*** Environment ID: ".
Definition END_PATCH_MARKER : str := lit "*** End Patch".
Definition ADD_FILE_MARKER : str := lit "*** Add File: ".
Definition DELETE_FILE_MARKER : str := lit "*** Delete File: ".
Definition UPDATE_FILE_MARKER : str := lit "*** Update File: ".
Definition MOVE_TO_MARKER : str := lit "*** Move to: ".
Definition EOF_MARKER : str := lit "*** End of File".
Definition CHANGE_CONTEXT_MARKER : str := lit "@@ ".
Definition EMPTY_CHANGE_CONTEXT_MARKER : str := lit "@@".
Definition PARSE_IN_STRICT_MODE : bool := false.

Inductive ParseError :=
| InvalidPatchError (message : str)
| InvalidHunkError (message : str) (line_number : nat).

Record UpdateFileChunk := mk_chunk {
  change_context : option str;
  old_lines : list str;
  new_lines : list str;
  is_end_of_file : bool
}.

Inductive Hunk :=
| AddFile (path : str) (contents : str)
| DeleteFile (path : str)
| UpdateFile (path : str) (move_path : option str) (chunks : list UpdateFileChunk).

(** [Hunk::path]: the move destination for rename hunks. *)
Definition hunk_path (h : Hunk) : str :=
  match h with
  | AddFile path _ => path
  | DeleteFile path => path
  | UpdateFile _ (Some path) _ => path
  | UpdateFile path None _ => path
  end.

Record ApplyPatchArgs := mk_args {
  patch : str;
  hunks : list Hunk;
  workdir : option str;
  environment_id : option str
}.

Inductive ParseMode := Strict | Lenient.

(** ** Update chunks *)

Definition push_both (chunk : UpdateFileChunk) (l : str) : UpdateFileChunk :=
  mk_chunk (change_context chunk) (old_lines chunk ++ [l]) (new_lines chunk ++ [l])
    (is_end_of_file chunk).
Definition push_new (chunk : UpdateFileChunk) (l : str) : UpdateFileChunk :=
  mk_chunk (change_context chunk) (old_lines chunk) (new_lines chunk ++ [l])
    (is_end_of_file chunk).
Definition push_old (chunk : UpdateFileChunk) (l : str) : UpdateFileChunk :=
  mk_chunk (change_context chunk) (old_lines chunk ++ [l]) (new_lines chunk)
    (is_end_of_file chunk).
Definition set_eof (chunk : UpdateFileChunk) : UpdateFileChunk :=
  mk_chunk (change_context chunk) (old_lines chunk) (new_lines chunk) true.

Definition no_lines_message : str := lit "Update hunk does not contain any lines".
Definition unexpected_line_message (line : str) : str :=
  lit "Unexpected line found in update hunk: '" ++ line ++
  lit "'. Every line should start with ' ' (context line), '+' (added line), or '-' (removed line)".
Definition expected_context_message (line : str) : str :=
  lit "Expected update hunk to start with a @@ context marker, got: '" ++ line ++ lit "'".
Definition bad_header_message (line : str) : str :=
  lit "'" ++ line ++
  lit "' is not a valid hunk header. Valid hunk headers: '*** Add File: {path}', '*** Delete File: {path}', '*** Update File: {path}'".
Definition empty_update_message (path : str) : str :=
  lit "Update file hunk for path '" ++ path ++ lit "' is empty".

(** The [for line in &lines[start_index..]] loop; a break returns. *)
Fixpoint chunk_loop (line_number : nat) (ls : list str) (chunk : UpdateFileChunk)
    (parsed_lines : nat) : res ParseError (UpdateFileChunk * nat) :=
  match ls with
  | [] => Ok (chunk, parsed_lines)
  | line :: rest =>
    if str_eqb line EOF_MARKER then
      if parsed_lines =? 0
      then Err (InvalidHunkError no_lines_message (line_number + 1))
      else Ok (set_eof chunk, S parsed_lines)
    else
      match line with
      | [] => chunk_loop line_number rest (push_both chunk []) (S parsed_lines)
      | c :: text =>
        if (c =? SPACE)%N then
          chunk_loop line_number rest (push_both chunk text) (S parsed_lines)
        else if (c =? PLUS)%N then
          chunk_loop line_number rest (push_new chunk text) (S parsed_lines)
        else if (c =? MINUS)%N then
          chunk_loop line_number rest (push_old chunk text) (S parsed_lines)
        else if parsed_lines =? 0 then
          Err (InvalidHunkError (unexpected_line_message line) (line_number + 1))
        else Ok (chunk, parsed_lines)
      end
  end.

Definition parse_update_file_chunk (lines : list str) (line_number : nat)
    (allow_missing_context : bool) : res ParseError (UpdateFileChunk * nat) :=
  match lines with
  | [] => Err (InvalidHunkError no_lines_message line_number)
  | first :: _ =>
    let? start :=
      (if str_eqb first EMPTY_CHANGE_CONTEXT_MARKER then Ok (None, 1)
       else match strip_prefix CHANGE_CONTEXT_MARKER first with
            | Some context => Ok (Some context, 1)
            | None =>
              if negb allow_missing_context
              then Err (InvalidHunkError (expected_context_message first) line_number)
              else Ok (None, 0)
            end) in
    let '(change_context, start_index) := start in
    if length lines <=? start_index
    then Err (InvalidHunkError no_lines_message (line_number + 1))
    else
      let? body := from_opt (slice lines start_index (length lines)) in
      let? r := chunk_loop line_number body (mk_chunk change_context [] [] false) 0 in
      let '(chunk, parsed_lines) := r in
      Ok (chunk, parsed_lines + start_index)
  end.

(** ** Hunks *)

(** The [for add_line in &lines[1..]] loop of an add hunk. *)
Fixpoint add_loop (ls : list str) (contents : str) (parsed_lines : nat) : str * nat :=
  match ls with
  | [] => (contents, parsed_lines)
  | add_line :: rest =>
    match strip_prefix [PLUS] add_line with
    | Some line_to_add => add_loop rest (contents ++ line_to_add ++ [NL]) (S parsed_lines)
    | None => (contents, parsed_lines)
    end
  end.

(** The [while !remaining_lines.is_empty()] loop of an update hunk. *)
Fixpoint update_loop (fuel : nat) (line_number : nat) (remaining_lines : list str)
    (parsed_lines : nat) (chunks : list UpdateFileChunk)
    : res ParseError (list UpdateFileChunk * nat) :=
  match fuel with
  | 0 => NoFuel
  | S fuel' =>
    match remaining_lines with
    | [] => Ok (chunks, parsed_lines)
    | first :: rest =>
      if str_eqb (trim first) [] then
        update_loop fuel' line_number rest (S parsed_lines) chunks
      else if starts_with [STAR] first then Ok (chunks, parsed_lines)
      else
        let? r := parse_update_file_chunk remaining_lines (line_number + parsed_lines)
                    (match chunks with [] => true | _ => false end) in
        let '(chunk, chunk_lines) := r in
        let? remaining' :=
          from_opt (slice remaining_lines chunk_lines (length remaining_lines)) in
        update_loop fuel' line_number remaining' (parsed_lines + chunk_lines)
          (chunks ++ [chunk])
    end
  end.

Definition parse_one_hunk (lines : list str) (line_number : nat)
    : res ParseError (Hunk * nat) :=
  match lines with
  | [] => Panic
  | first :: tail =>
    let first_line := trim first in
    match strip_prefix ADD_FILE_MARKER first_line with
    | Some path =>
      let '(contents, parsed_lines) := add_loop tail [] 1 in
      Ok (AddFile path contents, parsed_lines)
    | None =>
    match strip_prefix DELETE_FILE_MARKER first_line with
    | Some path => Ok (DeleteFile path, 1)
    | None =>
    match strip_prefix UPDATE_FILE_MARKER first_line with
    | Some path =>
      let move_path := head tail ≫= strip_prefix MOVE_TO_MARKER in
      let '(remaining_lines, parsed_lines) :=
        match move_path with
        | Some _ => (drop 1 tail, 2)
        | None => (tail, 1)
        end in
      let? r := update_loop (S (length remaining_lines)) line_number remaining_lines
                  parsed_lines [] in
      let '(chunks, parsed_lines) := r in
      match chunks with
      | [] => Err (InvalidHunkError (empty_update_message path) line_number)
      | _ => Ok (UpdateFile path move_path chunks, parsed_lines)
      end
    | None => Err (InvalidHunkError (bad_header_message first_line) line_number)
    end
    end
    end
  end.

(** ** Boundaries and preamble *)

Definition first_line_message : str :=
  lit "The first line of the patch must be '*** Begin Patch'".
Definition last_line_message : str :=
  lit "The last line of the patch must be '*** End Patch'".

Definition check_start_and_end_lines_strict (first_line last_line : option str)
    : res ParseError unit :=
  let first_line := trim <$> first_line in
  let last_line := trim <$> last_line in
  match first_line, last_line with
  | Some f, Some l =>
    if str_eqb f BEGIN_PATCH_MARKER && str_eqb l END_PATCH_MARKER then Ok tt
    else if negb (str_eqb f BEGIN_PATCH_MARKER)
    then Err (InvalidPatchError first_line_message)
    else Err (InvalidPatchError last_line_message)
  | Some f, None =>
    if negb (str_eqb f BEGIN_PATCH_MARKER)
    then Err (InvalidPatchError first_line_message)
    else Err (InvalidPatchError last_line_message)
  | None, _ => Err (InvalidPatchError last_line_message)
  end.

(** The two slices returned are [lines] and [&lines[1..lines.len() - 1]]. *)
Definition check_patch_boundaries_strict (lines : list str)
    : res ParseError (list str * list str) :=
  let? _ := check_start_and_end_lines_strict (head lines) (last lines) in
  let? inner := from_opt (slice lines 1 (length lines - 1)) in
  Ok (lines, inner).

Definition heredoc_openers : list str :=
  [lit "<<EOF"; lit "<<'EOF'"; lit "<<" ++ [DQUOTE] ++ lit "EOF" ++ [DQUOTE]].

Definition check_patch_boundaries_lenient (original_lines : list str)
    : res ParseError (list str * list str) :=
  match check_patch_boundaries_strict original_lines with
  | Err original_parse_error =>
    match original_lines with
    | first :: _ :: _ =>
      match last original_lines with
      | Some l =>
        if existsb (str_eqb first) heredoc_openers && ends_with (lit "EOF") l
           && (4 <=? length original_lines)
        then let? inner_lines :=
               from_opt (slice original_lines 1 (length original_lines - 1)) in
             check_patch_boundaries_strict inner_lines
        else Err original_parse_error
      | None => Err original_parse_error
      end
    | _ => Err original_parse_error
    end
  | r => r
  end.

Definition empty_environment_message : str :=
  lit "apply_patch environment_id cannot be empty".

Definition parse_environment_id_preamble (hunk_lines : list str)
    : res ParseError (option str * list str * nat) :=
  match hunk_lines with
  | [] => Ok (None, hunk_lines, 2)
  | first_line :: rest =>
    match strip_prefix ENVIRONMENT_ID_MARKER (trim_start first_line) with
    | None => Ok (None, hunk_lines, 2)
    | Some environment_id =>
      let environment_id := trim environment_id in
      if str_eqb environment_id []
      then Err (InvalidPatchError empty_environment_message)
      else Ok (Some environment_id, rest, 3)
    end
  end.

(** ** The whole patch *)

(** The [while !remaining_lines.is_empty()] loop over hunks. *)
Fixpoint hunk_loop (fuel : nat) (remaining_lines : list str) (line_number : nat)
    (hunks : list Hunk) : res ParseError (list Hunk) :=
  match fuel with
  | 0 => NoFuel
  | S fuel' =>
    match remaining_lines with
    | [] => Ok hunks
    | _ =>
      let? r := parse_one_hunk remaining_lines line_number in
      let '(hunk, hunk_lines) := r in
      let? remaining' :=
        from_opt (slice remaining_lines hunk_lines (length remaining_lines)) in
      hunk_loop fuel' remaining' (line_number + hunk_lines) (hunks ++ [hunk])
    end
  end.

Definition parse_patch_text (patch : str) (mode : ParseMode)
    : res ParseError ApplyPatchArgs :=
  let lines := lines (trim patch) in
  let? bounds :=
    match mode with
    | Strict => check_patch_boundaries_strict lines
    | Lenient => check_patch_boundaries_lenient lines
    end in
  let '(patch_lines, hunk_lines) := bounds in
  let? pre := parse_environment_id_preamble hunk_lines in
  let '(environment_id, remaining_lines, line_number) := pre in
  let? hunks := hunk_loop (S (length remaining_lines)) remaining_lines line_number [] in
  Ok (mk_args (join [NL] patch_lines) hunks None environment_id).

Definition parse_patch (patch : str) : res ParseError ApplyPatchArgs :=
  parse_patch_text patch (if PARSE_IN_STRICT_MODE then Strict else Lenient).

(** ** Evaluation on a concrete patch *)

Definition sample_patch : str :=
  join [NL] [lit "*** Begin Patch"; lit "*** Add File: a.txt"; lit "+hi";
             lit "*** Update File: b.txt"; lit "@@ fn main"; lit " x"; lit "-y"; lit "+z";
             lit "*** End Patch"].

Example parse_sample :
  parse_patch sample_patch =
  Ok (mk_args sample_patch
        [AddFile (lit "a.txt") (lit "hi" ++ [NL]);
         UpdateFile (lit "b.txt") None
           [mk_chunk (Some (lit "fn main")) [lit "x"; lit "y"] [lit "x"; lit "z"] false]]
        None None).
Proof. vm_compute. reflexivity. Qed.

(** ** Every loop consumes lines: the parser always returns a [Result] *)

Lemma chunk_loop_returns ln ls c n : returns (chunk_loop ln ls c n).
Proof.
  revert c n. induction ls as [|l ls IH]; intros c n; simpl; [done|].
  repeat case_match; simpl; auto.
Qed.

Lemma chunk_loop_count ln ls c n c' n' :
  chunk_loop ln ls c n = Ok (c', n') ->
  n <= n' <= n + length ls /\ (ls <> [] -> 1 <= n').
Proof.
  revert c n. induction ls as [|l ls IH]; intros c n; simpl.
  - intros [= -> ->]. split; [lia|done].
  - repeat case_match; intros Hr; try discriminate;
      repeat match goal with H : (_ =? _) = false |- _ => apply Nat.eqb_neq in H end;
      try (apply IH in Hr as [? ?]); try (injection Hr as <- <-); split; intros; lia.
Qed.

Lemma parse_update_file_chunk_returns ls ln b : returns (parse_update_file_chunk ls ln b).
Proof.
  destruct ls as [|l ls]; [done|]. unfold parse_update_file_chunk.
  apply returns_bind; [by repeat case_match|].
  intros [ctx start] _. destruct (_ <=? _) eqn:Hle; [done|].
  apply Nat.leb_gt in Hle. rewrite slice_full by lia. simpl.
  apply returns_bind; [apply chunk_loop_returns|]. by intros [??].
Qed.

Lemma parse_update_file_chunk_count ls ln b c n :
  parse_update_file_chunk ls ln b = Ok (c, n) -> 1 <= n <= length ls.
Proof.
  destruct ls as [|l ls]; [done|]. unfold parse_update_file_chunk. intros H.
  apply bind_Ok in H as ([ctx start] & Hs & H).
  destruct (_ <=? _) eqn:Hle; [done|]. apply Nat.leb_gt in Hle.
  rewrite slice_full in H by lia. simpl in H.
  apply bind_Ok in H as ([c' n'] & Hc & [= -> <-]).
  apply chunk_loop_count in Hc as [Hc1 Hc2]. rewrite length_drop in Hc1.
  assert (start = 0 \/ start = 1) as [-> | ->] by (repeat case_match; naive_solver).
  - rewrite drop_0 in Hc2. simpl in *. specialize (Hc2 ltac:(done)). lia.
  - simpl in *. lia.
Qed.

Lemma update_loop_returns fuel ln rem p cs :
  length rem < fuel -> returns (update_loop fuel ln rem p cs).
Proof.
  revert rem p cs. induction fuel as [|fuel IH]; intros rem p cs Hlt; [lia|].
  destruct rem as [|l rem]; [done|]. cbn [update_loop].
  repeat case_match; try done; try (apply IH; simpl in Hlt; lia).
  all: apply returns_bind; [apply parse_update_file_chunk_returns|];
    intros [c n] Hc; apply parse_update_file_chunk_count in Hc;
    rewrite slice_full by lia; simpl; apply IH; rewrite length_drop; simpl in *; lia.
Qed.

Lemma update_loop_count fuel ln rem p cs cs' p' :
  update_loop fuel ln rem p cs = Ok (cs', p') -> p <= p' <= p + length rem.
Proof.
  revert rem p cs. induction fuel as [|fuel IH]; intros rem p cs; [done|].
  destruct rem as [|l rem]; [intros [= -> ->]; lia|]. cbn [update_loop].
  case_match; [intros H'; apply IH in H'; simpl; lia|].
  case_match; [intros [= -> ->]; lia|].
  intros H'. apply bind_Ok in H' as ([c n] & Hc & H').
  apply parse_update_file_chunk_count in Hc. rewrite slice_full in H' by lia.
  simpl in H'. apply IH in H'. rewrite length_drop in H'. simpl in *. lia.
Qed.

Lemma add_loop_count ls c n : n <= (add_loop ls c n).2 <= n + length ls.
Proof.
  revert c n. induction ls as [|l ls IH]; intros c n; simpl; [lia|].
  case_match; simpl; [|lia]. specialize (IH (c ++ l0 ++ [NL]) (S n)). lia.
Qed.

Lemma parse_one_hunk_returns ls ln : ls <> [] -> returns (parse_one_hunk ls ln).
Proof.
  destruct ls as [|l ls]; [done|]. intros _. unfold parse_one_hunk.
  repeat case_match; try done.
  all: apply returns_bind; [apply update_loop_returns; lia|].
  all: intros [cs k] _; by destruct cs.
Qed.

Lemma parse_one_hunk_count ls ln h n :
  parse_one_hunk ls ln = Ok (h, n) -> 1 <= n <= length ls.
Proof.
  destruct ls as [|l ls]; [done|]. unfold parse_one_hunk.
  case_match; [destruct (add_loop ls [] 1) as [cts k] eqn:E|].
  { intros [= _ <-]. pose proof (add_loop_count ls [] 1). rewrite E in *. simpl in *. lia. }
  case_match; [intros [= _ <-]; simpl; lia|].
  case_match; [|done]. intros H'.
  destruct (head ls ≫= strip_prefix MOVE_TO_MARKER) eqn:Hm.
  all: apply bind_Ok in H' as ([cs k] & Hu & H'); apply update_loop_count in Hu;
    destruct cs; [done|]; injection H' as <- <-.
  - destruct ls; [done|]. simpl in *. rewrite ?drop_0 in *. lia.
  - simpl. lia.
Qed.

Lemma hunk_loop_returns fuel rem ln hs :
  length rem < fuel -> returns (hunk_loop fuel rem ln hs).
Proof.
  revert rem ln hs. induction fuel as [|fuel IH]; intros rem ln hs Hlt; [lia|].
  destruct rem as [|l rem]; [done|]. cbn [hunk_loop].
  apply returns_bind; [by apply parse_one_hunk_returns|].
  intros [h n] Hh. apply parse_one_hunk_count in Hh. rewrite slice_full by lia.
  simpl. apply IH. rewrite length_drop. simpl in *. lia.
Qed.

Lemma check_start_and_end_returns f l : returns (check_start_and_end_lines_strict f l).
Proof. unfold check_start_and_end_lines_strict. by repeat case_match. Qed.

(** One line cannot be both markers, so the slice between them exists. *)
Lemma check_start_and_end_two ls :
  check_start_and_end_lines_strict (head ls) (last ls) = Ok tt -> 2 <= length ls.
Proof.
  unfold check_start_and_end_lines_strict.
  destruct ls as [|a [|b ls]]; simpl; [done| |lia].
  destruct (str_eqb (trim a) BEGIN_PATCH_MARKER) eqn:E; simpl; [|done].
  apply str_eqb_eq in E as ->. done.
Qed.

Lemma check_strict_returns ls : returns (check_patch_boundaries_strict ls).
Proof.
  unfold check_patch_boundaries_strict.
  apply returns_bind; [apply check_start_and_end_returns|]. intros [] H.
  apply check_start_and_end_two, head_last_app in H as (x & k & y & ->).
  by erewrite slice_mid by done.
Qed.

Lemma check_lenient_returns ls : returns (check_patch_boundaries_lenient ls).
Proof.
  unfold check_patch_boundaries_lenient.
  pose proof (check_strict_returns ls) as Hr.
  destruct (check_patch_boundaries_strict ls); try done.
  destruct ls as [|a [|b ls]]; try done.
  destruct (head_last_app (a :: b :: ls)) as (x & k & y & E); [simpl; lia|].
  rewrite E, slice_mid with (x := x) (k := k) (y := y) by done. simpl.
  repeat case_match; try done; apply check_strict_returns.
Qed.

Lemma preamble_returns ls : returns (parse_environment_id_preamble ls).
Proof. unfold parse_environment_id_preamble. by repeat case_match. Qed.

Lemma parse_patch_returns (text : str) : returns (parse_patch text).
Proof.
  unfold parse_patch, parse_patch_text.
  apply returns_bind; [apply check_lenient_returns|]. intros [pl hl] _.
  apply returns_bind; [apply preamble_returns|]. intros [[env rem] ln] _.
  apply returns_bind; [apply hunk_loop_returns; lia|]. done.
Qed.

(** [parse_patch] is total: on every text it returns [Ok] or a
    [ParseError].  No index or slice of the parser is ever out of range (the
    one-line patch included) and both [while] loops terminate. *)
Theorem parse_patch_total (text : str) : returns (parse_patch text).
Proof. apply parse_patch_returns. Qed.

(** ** Shape of the parsed hunks *)

Definition chunk_nonempty (c : UpdateFileChunk) : Prop :=
  old_lines c <> [] \/ new_lines c <> [].

(** What the rest of the crate may assume of a parsed hunk: the contents of
    an added file are newline-terminated lines; an update has chunks and each
    of them has lines. *)
Definition hunk_wf (h : Hunk) : Prop :=
  match h with
  | AddFile _ contents => contents = [] \/ last contents = Some NL
  | DeleteFile _ => True
  | UpdateFile _ _ chunks => chunks <> [] /\ Forall chunk_nonempty chunks
  end.

Lemma push_nonempty c l :
  chunk_nonempty (push_both c l) /\ chunk_nonempty (push_new c l) /\
  chunk_nonempty (push_old c l).
Proof.
  unfold chunk_nonempty. simpl. split_and!.
  - left. by destruct (old_lines c).
  - right. by destruct (new_lines c).
  - left. by destruct (old_lines c).
Qed.

Lemma chunk_loop_nonempty ln ls c n c' n' :
  (n <> 0 -> chunk_nonempty c) -> (n <> 0 \/ ls <> []) ->
  chunk_loop ln ls c n = Ok (c', n') -> chunk_nonempty c'.
Proof.
  revert c n. induction ls as [|l ls IH]; intros c n Hc Hne; cbn [chunk_loop].
  - intros [= <- <-]. apply Hc. naive_solver.
  - pose proof (push_nonempty c) as Hp.
    repeat case_match; intros Hr; try discriminate;
      repeat match goal with H : (_ =? _) = false |- _ => apply Nat.eqb_neq in H end;
      try (eapply IH in Hr; [done|naive_solver|lia]); injection Hr as <- <-; by apply Hc.
Qed.

Lemma parse_chunk_nonempty ls ln b c n :
  parse_update_file_chunk ls ln b = Ok (c, n) -> chunk_nonempty c.
Proof.
  destruct ls as [|l ls]; [done|]. unfold parse_update_file_chunk. intros H.
  apply bind_Ok in H as ([ctx start] & Hs & H).
  destruct (_ <=? _) eqn:Hle; [done|]. apply Nat.leb_gt in Hle.
  rewrite slice_full in H by lia. cbn [from_opt res_bind] in H.
  apply bind_Ok in H as ([c' n'] & Hc & [= -> <-]).
  eapply chunk_loop_nonempty in Hc; [done|done|]. right.
  intros E%(f_equal length). rewrite length_drop in E. simpl in *. lia.
Qed.

Lemma update_loop_nonempty fuel ln rem p cs cs' p' :
  Forall chunk_nonempty cs -> update_loop fuel ln rem p cs = Ok (cs', p') ->
  Forall chunk_nonempty cs'.
Proof.
  revert rem p cs. induction fuel as [|fuel IH]; intros rem p cs Hcs; [done|].
  destruct rem as [|l rem]; [by intros [= <- _]|]. cbn [update_loop].
  case_match; [by apply IH|]. case_match; [by intros [= <- _]|].
  intros Hr. apply bind_Ok in Hr as ([c n] & Hc & Hr).
  apply bind_Ok in Hr as (rem' & _ & Hr). eapply IH in Hr; [done|].
  apply Forall_app. split; [done|]. constructor; [by eapply parse_chunk_nonempty|done].
Qed.

Lemma add_loop_newline ls c n :
  (c = [] \/ last c = Some NL) ->
  (add_loop ls c n).1 = [] \/ last (add_loop ls c n).1 = Some NL.
Proof.
  revert c n. induction ls as [|l ls IH]; intros c n Hc; simpl; [done|].
  case_match; [|done]. apply IH. right. by rewrite app_assoc, last_snoc.
Qed.

Lemma parse_one_hunk_wf ls ln h n : parse_one_hunk ls ln = Ok (h, n) -> hunk_wf h.
Proof.
  destruct ls as [|l ls]; [done|]. unfold parse_one_hunk.
  case_match; [destruct (add_loop ls [] 1) as [cts k] eqn:E|].
  { intros [= <- _]. pose proof (add_loop_newline ls [] 1) as Ha. rewrite E in Ha. by apply Ha; left. }
  case_match; [by intros [= <- _]|]. case_match; [|done].
  destruct (head ls ≫= strip_prefix MOVE_TO_MARKER); intros Hr;
    apply bind_Ok in Hr as ([cs k] & Hu & Hr);
    (eapply update_loop_nonempty in Hu; [|constructor]);
    destruct cs; [done| |done|]; by injection Hr as <- _.
Qed.

Lemma hunk_loop_wf fuel rem ln hs hs' :
  Forall hunk_wf hs -> hunk_loop fuel rem ln hs = Ok hs' -> Forall hunk_wf hs'.
Proof.
  revert rem ln hs. induction fuel as [|fuel IH]; intros rem ln hs Hhs; [done|].
  destruct rem as [|l rem]; [by intros [= <-]|]. cbn [hunk_loop]. intros Hr.
  apply bind_Ok in Hr as ([h n] & Hh & Hr). apply bind_Ok in Hr as (rem' & _ & Hr).
  eapply IH in Hr; [done|]. apply Forall_app. split; [done|].
  constructor; [by eapply parse_one_hunk_wf|done].
Qed.

(** Every hunk of a successfully parsed patch is well formed: an added
    file's contents are empty or end in a newline, an update hunk has at
    least one chunk and no chunk is empty. *)
Theorem parse_patch_hunks_wf (text : str) (args : ApplyPatchArgs) :
  parse_patch text = Ok args -> Forall hunk_wf (hunks args).
Proof.
  unfold parse_patch, parse_patch_text. intros H.
  apply bind_Ok in H as ([pl hl] & _ & H). apply bind_Ok in H as ([[env rem] ln] & _ & H).
  apply bind_Ok in H as (hs & Hl & [= <-]). by eapply hunk_loop_wf.
Qed.

Lemma parse_patch_hunks_wf_witness :
  exists args, parse_patch sample_patch = Ok args /\ Forall hunk_wf (hunks args).
Proof.
  eexists. split; [apply parse_sample|].
  apply (parse_patch_hunks_wf sample_patch). apply parse_sample.
Defined.
