(* ===== verification/PatchGrammar.v ===== *)
(** * The documented patch grammar and the parser

    The module comment of [apply-patch/src/parser.rs] gives a Lark grammar of
    the patch format.  This file states that grammar as syntax trees with a
    printer and a denotation into [Hunk]s, and proves that the parser reads
    every printed tree back as its denotation. *)

From S2P Require Export PatchParser.

(** ** Syntax trees *)

Inductive change_line :=
| Keep (text : str)
| Insert (text : str)
| Remove (text : str).

Inductive chunk_header :=
| NoHeader
| EmptyHeader
| ContextHeader (text : str).

Record chunk_tree := mk_chunk_tree {
  header : chunk_header;
  body : list change_line;
  at_eof : bool
}.

Inductive hunk_tree :=
| TAdd (path : str) (content : list str)
| TDelete (path : str)
| TUpdate (path : str) (move_to : option str) (chunks : list chunk_tree).

Record patch_tree := mk_patch_tree {
  environment : option str;
  hunk_trees : list hunk_tree
}.

(** ** Printing *)

Definition change_text (l : change_line) : str :=
  match l with Keep t | Insert t | Remove t => t end.

Definition print_change (l : change_line) : str :=
  match l with
  | Keep t => SPACE :: t
  | Insert t => PLUS :: t
  | Remove t => MINUS :: t
  end.

Definition print_header (h : chunk_header) : list str :=
  match h with
  | NoHeader => []
  | EmptyHeader => [EMPTY_CHANGE_CONTEXT_MARKER]
  | ContextHeader t => [CHANGE_CONTEXT_MARKER ++ t]
  end.

Definition print_eof (b : bool) : list str := if b then [EOF_MARKER] else [].

Definition print_chunk (c : chunk_tree) : list str :=
  print_header (header c) ++ (print_change <$> body c) ++ print_eof (at_eof c).

Definition print_move (m : option str) : list str :=
  match m with Some p => [MOVE_TO_MARKER ++ p] | None => [] end.

Definition print_hunk (h : hunk_tree) : list str :=
  match h with
  | TAdd p ls => (ADD_FILE_MARKER ++ p) :: ((fun l => PLUS :: l) <$> ls)
  | TDelete p => [DELETE_FILE_MARKER ++ p]
  | TUpdate p m cs => (UPDATE_FILE_MARKER ++ p) :: print_move m ++ (cs ≫= print_chunk)
  end.

Definition print_environment (e : option str) : list str :=
  match e with Some id => [ENVIRONMENT_ID_MARKER ++ id] | None => [] end.

Definition print_patch_lines (t : patch_tree) : list str :=
  BEGIN_PATCH_MARKER ::
  (print_environment (environment t) ++ (hunk_trees t ≫= print_hunk)) ++
  [END_PATCH_MARKER].

Definition print_patch (t : patch_tree) : str := join [NL] (print_patch_lines t).

(** ** Denotation *)

Definition old_of (b : list change_line) : list str :=
  omap (fun l => match l with Keep t | Remove t => Some t | Insert _ => None end) b.
Definition new_of (b : list change_line) : list str :=
  omap (fun l => match l with Keep t | Insert t => Some t | Remove _ => None end) b.

Definition header_context (h : chunk_header) : option str :=
  match h with ContextHeader t => Some t | _ => None end.

Definition denote_chunk (c : chunk_tree) : UpdateFileChunk :=
  mk_chunk (header_context (header c)) (old_of (body c)) (new_of (body c)) (at_eof c).

Definition denote_hunk (h : hunk_tree) : Hunk :=
  match h with
  | TAdd p ls => AddFile p (ls ≫= (fun l => l ++ [NL]))
  | TDelete p => DeleteFile p
  | TUpdate p m cs => UpdateFile p m (denote_chunk <$> cs)
  end.

(** ** Well-formed trees *)

(** A file name: one line, not empty, not ending in whitespace. *)
Definition path_ok (p : str) : Prop :=
  NL ∉ p /\ exists c, last p = Some c /\ is_whitespace c = false.

Definition chunk_ok (first : bool) (c : chunk_tree) : Prop :=
  Forall (fun l => line_ok (change_text l)) (body c) /\
  match header c, body c with
  | _, [] => False
  | NoHeader, l :: _ => first = true /\ trim (print_change l) <> []
  | EmptyHeader, _ => True
  | ContextHeader t, _ => line_ok t
  end.

Definition chunks_ok (cs : list chunk_tree) : Prop :=
  match cs with
  | [] => False
  | c :: cs' => chunk_ok true c /\ Forall (chunk_ok false) cs'
  end.

Definition hunk_ok (h : hunk_tree) : Prop :=
  match h with
  | TAdd p ls => path_ok p /\ Forall line_ok ls
  | TDelete p => path_ok p
  | TUpdate p m cs => path_ok p /\ (forall q, m = Some q -> path_ok q) /\ chunks_ok cs
  end.

Definition patch_ok (t : patch_tree) : Prop :=
  (forall id, environment t = Some id -> id <> [] /\ edges_solid id /\ NL ∉ id) /\
  Forall hunk_ok (hunk_trees t).

(** ** Lines that end a chunk or a hunk *)

#[local] Opaque BEGIN_PATCH_MARKER ENVIRONMENT_ID_MARKER END_PATCH_MARKER
  ADD_FILE_MARKER DELETE_FILE_MARKER UPDATE_FILE_MARKER MOVE_TO_MARKER EOF_MARKER
  CHANGE_CONTEXT_MARKER EMPTY_CHANGE_CONTEXT_MARKER.

(** A marker that starts with a star and is told apart from the end-of-file
    marker. *)
Definition star_marker (m : str) : Prop :=
  head m = Some STAR /\ diverge EOF_MARKER m = true.

Ltac marker := by vm_compute.

Lemma markers_star :
  star_marker ADD_FILE_MARKER /\ star_marker DELETE_FILE_MARKER /\
  star_marker UPDATE_FILE_MARKER /\ star_marker END_PATCH_MARKER.
Proof. split_and!; split; marker. Qed.

(** [rest] is empty or starts with a hunk header or the end marker. *)
Definition star_stop (rest : list str) : Prop :=
  match rest with
  | [] => True
  | l :: _ => exists t, l = STAR :: t /\ l <> EOF_MARKER
  end.

(** [rest] does not continue a chunk. *)
Definition chunk_stop (rest : list str) : Prop :=
  match rest with
  | [] => True
  | l :: _ => exists c t, l = c :: t /\ c <> SPACE /\ c <> PLUS /\ c <> MINUS /\ l <> EOF_MARKER
  end.

Lemma star_chunk_stop rest : star_stop rest -> chunk_stop rest.
Proof. destruct rest; simpl; [done|]. intros (t & -> & ?). exists STAR, t. done. Qed.

Lemma marker_star_stop m p rest : star_marker m -> star_stop ((m ++ p) :: rest).
Proof.
  intros [Hh Hd]. destruct m as [|c m]; [done|]. injection Hh as ->.
  exists (m ++ p). split; [done|]. by apply (diverge_ne EOF_MARKER (STAR :: m)).
Qed.

Lemma print_hunk_star h rest : star_stop (print_hunk h ++ rest).
Proof. destruct markers_star as (? & ? & ? & ?). by destruct h; apply marker_star_stop. Qed.

Lemma print_hunks_star hs : star_stop (hs ≫= print_hunk).
Proof. destruct hs; [done|]. apply print_hunk_star. Qed.

Lemma context_markers :
  EMPTY_CHANGE_CONTEXT_MARKER = [64; 64]%N /\ CHANGE_CONTEXT_MARKER = [64; 64; 32]%N.
Proof. split; marker. Qed.

Lemma print_chunk_stop c rest :
  chunk_ok false c -> chunk_stop (print_chunk c ++ rest).
Proof.
  intros [_ H]. unfold print_chunk. destruct context_markers as [E1 E2].
  destruct (header c) as [| |t]; destruct (body c) as [|l b]; try done; [naive_solver|..].
  - simpl. rewrite E1. exists 64%N, [64%N]. split_and!; done.
  - simpl. rewrite E2. exists 64%N, (64%N :: 32%N :: t). split_and!; done.
Qed.

(** ** Chunks *)

Lemma chunk_loop_stop ln rest c n :
  chunk_stop rest -> n <> 0 -> chunk_loop ln rest c n = Ok (c, n).
Proof.
  destruct rest as [|l rest]; [done|].
  intros (x & t & -> & H1 & H2 & H3 & Heof) Hn. cbn [chunk_loop].
  rewrite str_eqb_ne by done.
  apply N.eqb_neq in H1 as ->. apply N.eqb_neq in H2 as ->. apply N.eqb_neq in H3 as ->.
  by apply Nat.eqb_neq in Hn as ->.
Qed.

Lemma chunk_loop_change ln l rest c n :
  chunk_loop ln (print_change l :: rest) c n =
  chunk_loop ln rest
    (match l with Keep t => push_both c t | Insert t => push_new c t | Remove t => push_old c t end)
    (S n).
Proof.
  assert (head EOF_MARKER = Some STAR) as Hh by marker.
  cbn [chunk_loop]. rewrite str_eqb_ne; [by destruct l|].
  intros E. rewrite <- E in Hh. by destruct l.
Qed.

Lemma chunk_loop_body ln b rest c n :
  chunk_loop ln ((print_change <$> b) ++ rest) c n =
  chunk_loop ln rest
    (mk_chunk (change_context c) (old_lines c ++ old_of b) (new_lines c ++ new_of b)
       (is_end_of_file c))
    (n + length b).
Proof.
  revert c n. induction b as [|l b IH]; intros c n.
  - simpl. rewrite !app_nil_r, Nat.add_0_r. by destruct c.
  - cbn [fmap list_fmap app]. rewrite chunk_loop_change, IH.
    destruct l; simpl; rewrite <- ?(assoc_L (++)); simpl; f_equal; lia.
Qed.

Lemma chunk_loop_print ln b e rest ctx :
  b <> [] -> chunk_stop rest ->
  chunk_loop ln ((print_change <$> b) ++ print_eof e ++ rest) (mk_chunk ctx [] [] false) 0 =
  Ok (mk_chunk ctx (old_of b) (new_of b) e, length b + length (print_eof e)).
Proof.
  intros Hb Hstop. rewrite chunk_loop_body. simpl.
  assert (length b <> 0) as Hlen by (by destruct b).
  destruct e; simpl.
  - rewrite str_eqb_refl. apply Nat.eqb_neq in Hlen as ->. unfold set_eof. simpl.
    do 2 f_equal. lia.
  - rewrite chunk_loop_stop by done. by rewrite Nat.add_0_r.
Qed.

Lemma print_chunk_length c :
  length (print_chunk c) =
  length (print_header (header c)) + (length (body c) + length (print_eof (at_eof c))).
Proof. unfold print_chunk. by rewrite !length_app, length_fmap. Qed.

(** What follows the header decides the chunk. *)
Lemma parse_chunk_after_header ln hd bl ctx :
  bl <> [] ->
  (if length (hd ++ bl) <=? length hd
   then Err (InvalidHunkError no_lines_message (ln + 1))
   else
     let? body := from_opt (slice (hd ++ bl) (length hd) (length (hd ++ bl))) in
     let? r := chunk_loop ln body (mk_chunk ctx [] [] false) 0 in
     let '(chunk, parsed_lines) := r in
     Ok (chunk, parsed_lines + length hd)) =
  let? r := chunk_loop ln bl (mk_chunk ctx [] [] false) 0 in
  let '(chunk, parsed_lines) := r in
  Ok (chunk, parsed_lines + length hd).
Proof.
  intros Hb. rewrite (proj2 (Nat.leb_gt _ _))
    by (rewrite length_app; destruct bl; simpl in *; [done|lia]).
  rewrite slice_full by (rewrite length_app; lia). by rewrite drop_app_length.
Qed.

Lemma parse_chunk_print first ln c rest :
  chunk_ok first c -> chunk_stop rest ->
  parse_update_file_chunk (print_chunk c ++ rest) ln first =
  Ok (denote_chunk c, length (print_chunk c)).
Proof.
  intros [_ Hok] Hstop. rewrite print_chunk_length.
  assert (body c <> []) as Hb by (intros E; rewrite E in Hok; by destruct (header c)).
  destruct context_markers as [E1 E2].
  pose proof (chunk_loop_print ln (body c) (at_eof c) rest (header_context (header c)) Hb Hstop)
    as Hloop.
  set (bl := (print_change <$> body c) ++ print_eof (at_eof c) ++ rest) in *.
  assert (bl <> []) as Hbl by (subst bl; by destruct (body c)).
  assert (print_chunk c ++ rest = print_header (header c) ++ bl) as ->
    by (unfold print_chunk; by rewrite <- !app_assoc).
  pose proof (parse_chunk_after_header ln (print_header (header c)) bl
                (header_context (header c)) Hbl) as Htail.
  rewrite Hloop in Htail. cbn [res_bind] in Htail. rewrite Nat.add_comm. unfold denote_chunk.
  rewrite <- Htail. clear Htail Hloop.
  destruct (header c) as [| |t]; cbn [print_header app].
  - destruct (body c) as [|l b] eqn:Eb; [done|]. destruct Hok as [-> _].
    subst bl. cbn [fmap list_fmap app] in *. unfold parse_update_file_chunk.
    rewrite str_eqb_ne by (rewrite E1; by destruct l).
    assert (strip_prefix CHANGE_CONTEXT_MARKER (print_change l) = None) as ->
      by (rewrite E2; by destruct l). done.
  - unfold parse_update_file_chunk. by rewrite str_eqb_refl.
  - unfold parse_update_file_chunk. rewrite strip_prefix_app.
    rewrite str_eqb_ne; [done|]. by rewrite E1, E2.
Qed.

(** ** Hunks *)

Lemma update_loop_stop fuel ln rest p cs :
  star_stop rest -> fuel <> 0 -> update_loop fuel ln rest p cs = Ok (cs, p).
Proof.
  destruct fuel as [|fuel]; [done|]. intros Hstop _.
  destruct rest as [|l rest]; [done|]. destruct Hstop as (t & -> & _).
  cbn [update_loop]. rewrite str_eqb_ne by (by apply trim_nonempty). done.
Qed.

Lemma chunk_first_line first c :
  chunk_ok first c ->
  exists l tl, print_chunk c = l :: tl /\ trim l <> [] /\ head l <> Some STAR.
Proof.
  intros [_ Hok]. unfold print_chunk. destruct context_markers as [E1 E2].
  destruct (header c) as [| |t]; cbn [print_header].
  - destruct (body c) as [|l b]; [done|]. destruct Hok as [_ Hne].
    eexists _, _. split; [reflexivity|]. split; [done|]. by destruct l.
  - eexists _, _. split; [reflexivity|]. rewrite E1. split; [by apply trim_nonempty|done].
  - eexists _, _. split; [reflexivity|]. rewrite E2. split; [by apply trim_nonempty|done].
Qed.

Lemma update_loop_chunk fuel ln c rest p acc :
  chunk_ok (match acc with [] => true | _ => false end) c -> chunk_stop rest ->
  update_loop (S fuel) ln (print_chunk c ++ rest) p acc =
  update_loop fuel ln rest (p + length (print_chunk c)) (acc ++ [denote_chunk c]).
Proof.
  intros Hok Hstop. destruct (chunk_first_line _ _ Hok) as (l & tl & E & Hblank & Hstar).
  pose proof (parse_chunk_print _ (ln + p) c rest Hok Hstop) as Hparse.
  rewrite E in *. cbn [update_loop app] in *.
  rewrite str_eqb_ne by done.
  assert (starts_with [STAR] l = false) as ->.
  { destruct l as [|x l]; [done|]. unfold starts_with.
    rewrite strip_prefix_None_head; [done|]. intros <-. by apply Hstar. }
  rewrite Hparse. cbn [res_bind].
  rewrite slice_full by (rewrite app_comm_cons, length_app; lia).
  rewrite app_comm_cons, drop_app_length. done.
Qed.

Lemma update_loop_chunks fuel ln cs rest p acc :
  acc <> [] -> Forall (chunk_ok false) cs -> star_stop rest -> length cs < fuel ->
  update_loop fuel ln ((cs ≫= print_chunk) ++ rest) p acc =
  Ok (acc ++ (denote_chunk <$> cs), p + length (cs ≫= print_chunk)).
Proof.
  intros Hacc Hall Hstop. revert fuel p acc Hacc.
  induction Hall as [|c cs Hc Hcs IH]; intros fuel p acc Hacc Hf.
  - simpl. rewrite update_loop_stop by (done || lia). by rewrite app_nil_r, Nat.add_0_r.
  - destruct fuel as [|fuel]; [simpl in Hf; lia|].
    cbn [mbind list_bind]. rewrite <- app_assoc, update_loop_chunk.
    + cbn [mbind list_bind] in IH. rewrite IH by (done || (by destruct acc) || (simpl in Hf; lia)).
      rewrite length_app, <- app_assoc. do 2 f_equal. lia.
    + by destruct acc.
    + destruct cs as [|c' cs]; [by apply star_chunk_stop|].
      cbn [mbind list_bind]. rewrite <- app_assoc. apply print_chunk_stop. by inversion Hcs.
Qed.

(** Every chunk prints at least one line, so the line count bounds the fuel. *)
Lemma chunks_print_length first cs :
  Forall (chunk_ok first) cs -> length cs <= length (cs ≫= print_chunk).
Proof.
  induction 1 as [|c cs Hc _ IH]; [done|]. cbn [mbind list_bind].
  destruct (chunk_first_line _ _ Hc) as (l & tl & -> & _).
  rewrite length_app. simpl in *. lia.
Qed.

Lemma update_loop_print ln cs rest p :
  chunks_ok cs -> star_stop rest ->
  update_loop (S (length ((cs ≫= print_chunk) ++ rest))) ln ((cs ≫= print_chunk) ++ rest) p [] =
  Ok (denote_chunk <$> cs, p + length (cs ≫= print_chunk)).
Proof.
  intros Hok Hstop. destruct cs as [|c cs]; [done|]. destruct Hok as [Hc Hcs].
  cbn [mbind list_bind]. rewrite <- app_assoc, update_loop_chunk; [|done|].
  - rewrite update_loop_chunks; try done.
    + cbn [mbind list_bind fmap list_fmap app]. rewrite length_app. do 2 f_equal. lia.
    + destruct (chunk_first_line _ _ Hc) as (l & tl & -> & _).
      pose proof (chunks_print_length _ _ Hcs). rewrite !length_app. simpl.
      cbn [mbind list_bind] in *. lia.
  - destruct cs as [|c' cs]; [by apply star_chunk_stop|].
    cbn [mbind list_bind]. rewrite <- app_assoc. apply print_chunk_stop. by inversion Hcs.
Qed.

Lemma add_loop_print ls rest c n :
  star_stop rest ->
  add_loop (((fun l => PLUS :: l) <$> ls) ++ rest) c n =
  (c ++ (ls ≫= (fun l => l ++ [NL])), n + length ls).
Proof.
  intros Hstop. revert c n. induction ls as [|l ls IH]; intros c n.
  - simpl. rewrite app_nil_r, Nat.add_0_r. destruct rest as [|r rest]; [done|].
    by destruct Hstop as (t & -> & _).
  - cbn [fmap list_fmap app add_loop]. change (PLUS :: l) with ([PLUS] ++ l).
    rewrite strip_prefix_app. cbn [fmap list_fmap] in IH. rewrite IH.
    cbn [mbind list_bind]. rewrite <- app_assoc. simpl. f_equal. lia.
Qed.

Lemma marker_trim m p : head m = Some STAR -> path_ok p -> trim (m ++ p) = m ++ p.
Proof.
  intros Hm (_ & c & Hc & Hw). apply trim_solid. destruct m as [|x m]; [done|].
  injection Hm as ->. split; intros d.
  - by intros [= <-].
  - destruct p as [|y p] using rev_ind; [done|].
    rewrite last_snoc in Hc. injection Hc as ->.
    rewrite app_assoc, last_snoc. by intros [= <-].
Qed.

Lemma hunk_markers_diverge :
  diverge ADD_FILE_MARKER DELETE_FILE_MARKER = true /\
  diverge ADD_FILE_MARKER UPDATE_FILE_MARKER = true /\
  diverge DELETE_FILE_MARKER UPDATE_FILE_MARKER = true.
Proof. split_and!; marker. Qed.

(** An update hunk without a move does not start with a move line. *)
Lemma chunks_no_move cs rest :
  chunks_ok cs -> head ((cs ≫= print_chunk) ++ rest) ≫= strip_prefix MOVE_TO_MARKER = None.
Proof.
  destruct cs as [|c cs]; [done|]. intros [Hc _]. cbn [mbind list_bind].
  destruct (chunk_first_line _ _ Hc) as (l & tl & -> & _ & Hstar). simpl.
  assert (head MOVE_TO_MARKER = Some STAR) as Hm by marker.
  destruct MOVE_TO_MARKER as [|x m]; [done|]. injection Hm as ->.
  destruct l as [|y l]; [done|]. rewrite strip_prefix_None_head; [done|].
  intros <-. by apply Hstar.
Qed.

Lemma parse_one_hunk_print h rest ln :
  hunk_ok h -> star_stop rest ->
  parse_one_hunk (print_hunk h ++ rest) ln = Ok (denote_hunk h, length (print_hunk h)).
Proof.
  intros Hok Hstop. destruct markers_star as ([Ha _] & [Hd _] & [Hu _] & _).
  destruct hunk_markers_diverge as (D1 & D2 & D3).
  destruct h as [p ls|p|p m cs]; cbn [print_hunk app parse_one_hunk].
  - destruct Hok as [Hp _]. rewrite marker_trim, strip_prefix_app by done.
    rewrite add_loop_print by done. cbn [length]. by rewrite length_fmap.
  - rewrite marker_trim by done. rewrite (diverge_strip_prefix _ _ _ D1), strip_prefix_app. done.
  - destruct Hok as (Hp & Hm & Hcs). rewrite marker_trim by done.
    rewrite (diverge_strip_prefix _ _ _ D2), (diverge_strip_prefix _ _ _ D3), strip_prefix_app.
    destruct m as [q|]; cbn [print_move app head].
    + cbn [mbind option_bind]. rewrite strip_prefix_app. cbn [drop].
      rewrite drop_0, update_loop_print by done. destruct cs; [done|]. done.
    + rewrite chunks_no_move by done. rewrite update_loop_print by done. by destruct cs.
Qed.

Lemma print_hunk_length h : 1 <= length (print_hunk h).
Proof. destruct h; simpl; lia. Qed.

Lemma hunk_loop_print fuel hs ln acc :
  Forall hunk_ok hs -> length (hs ≫= print_hunk) < fuel ->
  hunk_loop fuel (hs ≫= print_hunk) ln acc = Ok (acc ++ (denote_hunk <$> hs)).
Proof.
  intros Hall. revert fuel ln acc.
  induction Hall as [|h hs Hh Hhs IH]; intros fuel ln acc Hf; (destruct fuel as [|fuel]; [lia|]).
  - simpl. by rewrite app_nil_r.
  - cbn [mbind list_bind] in *. rewrite length_app in Hf.
    pose proof (print_hunk_length h). pose proof (print_hunks_star hs) as Hstop.
    pose proof (parse_one_hunk_print h _ ln Hh Hstop) as Hparse.
    destruct (print_hunk h ++ mbind print_hunk hs) as [|l ls] eqn:E;
      [by destruct h|]. cbn [hunk_loop]. rewrite Hparse. cbn [res_bind].
    rewrite <- E, slice_full by (rewrite length_app; lia).
    rewrite drop_app_length. cbn [from_opt res_bind]. rewrite IH by lia.
    by rewrite <- app_assoc.
Qed.

(** ** Whole patches *)

Lemma line_ok_cons c l : c <> NL -> c <> CR -> line_ok l -> line_ok (c :: l).
Proof.
  intros H1 H2 [H3 H4]. split; [by apply not_elem_of_cons|].
  destruct l; [simpl; congruence|done].
Qed.

Lemma line_ok_marker m p :
  forallb (fun c => negb (c =? NL)%N && negb (c =? CR)%N) m = true ->
  line_ok p -> line_ok (m ++ p).
Proof.
  induction m as [|c m IH]; [done|]. simpl.
  rewrite !andb_true_iff, !negb_true_iff, !N.eqb_neq. intros [[??]?] ?.
  apply line_ok_cons; auto.
Qed.

Lemma path_line_ok p : path_ok p -> line_ok p.
Proof.
  intros (H1 & c & H2 & H3). split; [done|]. rewrite H2. intros [= ->]. done.
Qed.

Lemma print_chunk_lines_ok first c : chunk_ok first c -> Forall line_ok (print_chunk c).
Proof.
  intros [Hb Hh]. unfold print_chunk. apply Forall_app; split; [|apply Forall_app; split].
  - destruct (header c); simpl; [constructor|..]; (constructor; [|constructor]).
    + rewrite <- (app_nil_r EMPTY_CHANGE_CONTEXT_MARKER). apply line_ok_marker; [marker|].
      split; [apply not_elem_of_nil|done].
    + apply line_ok_marker; [marker|]. by destruct (body c).
  - apply Forall_fmap. eapply Forall_impl; [done|]. intros [t|t|t] ?; simpl;
      (apply line_ok_cons; [done..|assumption]).
  - destruct (at_eof c); constructor; [|constructor].
    rewrite <- (app_nil_r EOF_MARKER). apply line_ok_marker; [marker|].
    split; [apply not_elem_of_nil|done].
Qed.

Lemma print_chunks_lines_ok cs : chunks_ok cs -> Forall line_ok (cs ≫= print_chunk).
Proof.
  destruct cs as [|c cs]; [done|]. intros [Hc Hcs]. apply Forall_bind.
  constructor; [by eapply print_chunk_lines_ok|].
  eapply Forall_impl; [done|]. intros. by eapply print_chunk_lines_ok.
Qed.

Lemma print_hunk_lines_ok h : hunk_ok h -> Forall line_ok (print_hunk h).
Proof.
  destruct h as [p ls|p|p m cs]; simpl.
  - intros [Hp Hls]. constructor; [apply line_ok_marker; [marker|by apply path_line_ok]|].
    apply Forall_fmap. eapply Forall_impl; [done|]. intros l ?. by apply line_ok_cons.
  - intros Hp. constructor; [apply line_ok_marker; [marker|by apply path_line_ok]|done].
  - intros (Hp & Hm & Hcs). constructor; [apply line_ok_marker; [marker|by apply path_line_ok]|].
    apply Forall_app; split; [|by apply print_chunks_lines_ok].
    destruct m as [q|]; constructor; [|done].
    apply line_ok_marker; [marker|]. by apply path_line_ok, Hm.
Qed.

Lemma bare_marker_ok m :
  forallb (fun c => negb (c =? NL)%N && negb (c =? CR)%N) m = true -> line_ok m.
Proof.
  intros H. rewrite <- (app_nil_r m). apply line_ok_marker; [done|].
  split; [apply not_elem_of_nil|done].
Qed.

Lemma print_patch_lines_ok t : patch_ok t -> Forall line_ok (print_patch_lines t).
Proof.
  intros [He Hh]. unfold print_patch_lines. constructor; [apply bare_marker_ok; marker|].
  apply Forall_app; split; [apply Forall_app; split|].
  - destruct (environment t) as [id|]; [|constructor]. constructor; [|constructor].
    destruct (He _ eq_refl) as (_ & [_ Hl] & Hn). apply line_ok_marker; [marker|].
    split; [done|]. intros E. by apply Hl in E.
  - apply Forall_bind. eapply Forall_impl; [done|]. apply print_hunk_lines_ok.
  - constructor; [apply bare_marker_ok; marker|done].
Qed.

Lemma print_patch_solid t : trim (print_patch t) = print_patch t.
Proof.
  unfold print_patch, print_patch_lines.
  destruct (join_ends [NL] BEGIN_PATCH_MARKER
    (print_environment (environment t) ++ (hunk_trees t ≫= print_hunk)) END_PATCH_MARKER)
    as [m ->].
  assert (head BEGIN_PATCH_MARKER = Some STAR) as Hb by marker.
  assert (exists i, END_PATCH_MARKER = i ++ [104%N]) as [i ->] by (by exists (lit "*** End Patc")).
  apply trim_solid. split; intros c.
  - destruct BEGIN_PATCH_MARKER; [done|]. simpl in *. by intros [= <-]; injection Hb as ->.
  - rewrite !app_assoc, last_snoc. by intros [= <-].
Qed.

Lemma boundaries_print k :
  check_patch_boundaries_strict (BEGIN_PATCH_MARKER :: k ++ [END_PATCH_MARKER]) =
  Ok (BEGIN_PATCH_MARKER :: k ++ [END_PATCH_MARKER], k).
Proof.
  unfold check_patch_boundaries_strict.
  rewrite app_comm_cons, last_snoc, <- app_comm_cons. cbn [head].
  assert (check_start_and_end_lines_strict (Some BEGIN_PATCH_MARKER) (Some END_PATCH_MARKER)
    = Ok tt) as -> by marker.
  by erewrite slice_mid by done.
Qed.

Lemma preamble_print e rest :
  (forall id, e = Some id -> id <> [] /\ edges_solid id /\ NL ∉ id) ->
  (rest = [] \/ exists h r, rest = print_hunk h ++ r) ->
  exists ln, parse_environment_id_preamble (print_environment e ++ rest) = Ok (e, rest, ln).
Proof.
  intros He Hrest. assert (head ENVIRONMENT_ID_MARKER = Some STAR) as Hh by marker.
  destruct e as [id|]; cbn [print_environment app].
  - destruct (He id eq_refl) as (Hne & Hsolid & _). exists 3. cbn [parse_environment_id_preamble].
    assert (trim_start (ENVIRONMENT_ID_MARKER ++ id) = ENVIRONMENT_ID_MARKER ++ id) as ->
      by (by destruct ENVIRONMENT_ID_MARKER; [|injection Hh as ->]).
    rewrite strip_prefix_app, trim_solid, str_eqb_ne by done. done.
  - exists 2. destruct Hrest as [->|(h & r & ->)]; [done|].
    assert (forall m p tl, head m = Some STAR -> diverge ENVIRONMENT_ID_MARKER m = true ->
      parse_environment_id_preamble ((m ++ p) :: tl) = Ok (None, (m ++ p) :: tl, 2)) as Hmk.
    { intros m p tl Hm Hd. cbn [parse_environment_id_preamble].
      assert (trim_start (m ++ p) = m ++ p) as -> by (by destruct m; [|injection Hm as ->]).
      by rewrite diverge_strip_prefix. }
    destruct h; cbn [print_hunk app]; apply Hmk; marker.
Qed.

Lemma print_patch_last t : last (print_patch_lines t) <> Some [].
Proof.
  unfold print_patch_lines. rewrite app_comm_cons, last_snoc. by intros [= ?%(f_equal head)].
Qed.

(** Once the boundaries are found, the printed hunks are read back. *)
Lemma parse_from_boundaries t text :
  patch_ok t ->
  check_patch_boundaries_lenient (lines (trim text)) =
    Ok (print_patch_lines t,
        print_environment (environment t) ++ (hunk_trees t ≫= print_hunk)) ->
  parse_patch text =
  Ok (mk_args (print_patch t) (denote_hunk <$> hunk_trees t) None (environment t)).
Proof.
  intros [He Hh] Hb. unfold parse_patch, parse_patch_text. cbn [PARSE_IN_STRICT_MODE].
  rewrite Hb. cbn [res_bind].
  destruct (preamble_print (environment t) (hunk_trees t ≫= print_hunk) He) as [ln ->].
  { destruct (hunk_trees t) as [|h hs]; [by left|right]. eexists h, _. reflexivity. }
  cbn [res_bind]. by rewrite hunk_loop_print by (done || lia).
Qed.

Lemma lenient_print t :
  check_patch_boundaries_lenient (print_patch_lines t) =
  Ok (print_patch_lines t, print_environment (environment t) ++ (hunk_trees t ≫= print_hunk)).
Proof.
  unfold check_patch_boundaries_lenient, print_patch_lines. by rewrite boundaries_print.
Qed.

Lemma parse_print_args (t : patch_tree) :
  patch_ok t ->
  parse_patch (print_patch t) =
  Ok (mk_args (print_patch t) (denote_hunk <$> hunk_trees t) None (environment t)).
Proof.
  intros Hok. apply parse_from_boundaries; [done|].
  rewrite print_patch_solid. unfold print_patch at 1.
  rewrite lines_join; [apply lenient_print|by apply print_patch_lines_ok|apply print_patch_last].
Qed.

(** C2: the parser accepts the documented grammar.  For every well-formed
    syntax tree, parsing its printed text succeeds and returns the tree's
    denotation: every hunk with its path, move target, contents and chunks,
    the environment id, and the patch text itself. *)
Theorem parse_print (t : patch_tree) :
  patch_ok t ->
  parse_patch (print_patch t) =
  Ok (mk_args (print_patch t) (denote_hunk <$> hunk_trees t) None (environment t)).
Proof. apply parse_print_args. Qed.

Definition sample_tree : patch_tree :=
  mk_patch_tree (Some (lit "remote"))
    [TAdd (lit "a.txt") [lit "hi"; []];
     TUpdate (lit "b.txt") (Some (lit "c.txt"))
       [mk_chunk_tree (ContextHeader (lit "fn main")) [Keep (lit "x"); Remove (lit "y"); Insert (lit "z")] false;
        mk_chunk_tree EmptyHeader [Insert (lit "last")] true]].

Lemma sample_tree_ok : patch_ok sample_tree.
Proof.
  split.
  - intros id [= <-]. split_and!; [done| |by apply (bool_decide_unpack _)].
    by split; intros c [= <-].
  - apply Forall_cons; split; [|apply Forall_singleton].
    + split; [split; [by apply (bool_decide_unpack _)|by eexists]|].
      repeat constructor; (by apply (bool_decide_unpack _)) || done.
    + split_and!; [split; [by apply (bool_decide_unpack _)|by eexists]| |].
      * intros q [= <-]. split; [by apply (bool_decide_unpack _)|by eexists].
      * repeat constructor; (by apply (bool_decide_unpack _)) || done.
Qed.

Lemma parse_print_witness :
  patch_ok sample_tree /\ is_ok (parse_patch (print_patch sample_tree)) = true.
Proof. split; [apply sample_tree_ok|]. rewrite (parse_print sample_tree sample_tree_ok). done. Defined.

(** The patch text wrapped as an unevaluated heredoc. *)
Definition heredoc (opener : str) (t : patch_tree) : str :=
  join [NL] (opener :: print_patch_lines t ++ [lit "EOF"]).

Lemma heredoc_opener_facts o :
  o ∈ heredoc_openers ->
  line_ok o /\ existsb (str_eqb o) heredoc_openers = true /\
  trim o <> BEGIN_PATCH_MARKER /\ head o = Some 60%N.
Proof.
  intros Ho. unfold heredoc_openers in Ho. rewrite !elem_of_cons in Ho.
  destruct Ho as [->|[->|[->|Ho]]]; [..|by apply elem_of_nil in Ho];
    (split_and!; [apply bare_marker_ok; marker|marker| |marker]);
    (intros E%str_eqb_eq; vm_compute in E; discriminate E).
Qed.

Lemma lenient_heredoc o t :
  o ∈ heredoc_openers ->
  check_patch_boundaries_lenient (o :: print_patch_lines t ++ [lit "EOF"]) =
  check_patch_boundaries_strict (print_patch_lines t).
Proof.
  intros (_ & Hin & Htrim & _)%heredoc_opener_facts.
  assert (exists e, check_patch_boundaries_strict (o :: print_patch_lines t ++ [lit "EOF"]) = Err e)
    as [e He].
  { unfold check_patch_boundaries_strict, check_start_and_end_lines_strict.
    rewrite app_comm_cons, last_snoc. simpl. rewrite str_eqb_ne by done. simpl. by eexists. }
  assert (2 <= length (print_patch_lines t)) as Hlen
    by (unfold print_patch_lines; simpl; rewrite !length_app; simpl; lia).
  destruct (print_patch_lines t) as [|a ls]; [simpl in Hlen; lia|].
  unfold check_patch_boundaries_lenient. rewrite He. cbn [app].
  assert (last (o :: a :: ls ++ [lit "EOF"]) = Some (lit "EOF")) as ->
    by (by rewrite !app_comm_cons, last_snoc).
  assert (ends_with (lit "EOF") (lit "EOF") = true) as -> by marker.
  rewrite Hin, (proj2 (Nat.leb_le _ _)) by (simpl in *; rewrite length_app; simpl; lia).
  by rewrite slice_mid with (x := o) (k := a :: ls) (y := lit "EOF").
Qed.

(** Lenient mode is only a wrapper.  A well-formed patch passed as an
    unevaluated heredoc (opened by [<<EOF], bare or quoted) parses to exactly
    what the bare patch parses to. *)
Theorem heredoc_transparent (t : patch_tree) (opener : str) :
  patch_ok t -> opener ∈ heredoc_openers ->
  parse_patch (heredoc opener t) =
  Ok (mk_args (print_patch t) (denote_hunk <$> hunk_trees t) None (environment t)).
Proof.
  intros Hok Ho. apply parse_from_boundaries; [done|].
  destruct (heredoc_opener_facts opener Ho) as (Hline & _ & _ & Hhead).
  rewrite trim_solid.
  - unfold heredoc. rewrite lines_join.
    + rewrite lenient_heredoc by done. unfold print_patch_lines. by rewrite boundaries_print.
    + constructor; [done|]. apply Forall_app. split; [by apply print_patch_lines_ok|].
      constructor; [apply bare_marker_ok; marker|done].
    + by rewrite app_comm_cons, last_snoc.
  - unfold heredoc. destruct (join_ends [NL] opener (print_patch_lines t) (lit "EOF")) as [m ->].
    split; intros c.
    + destruct opener; [done|]. injection Hhead as ->. by intros [= <-].
    + change (lit "EOF") with ([69; 79]%N ++ [70%N]). rewrite !app_assoc, last_snoc.
      by intros [= <-].
Qed.

Lemma heredoc_transparent_witness :
  patch_ok sample_tree /\ is_ok (parse_patch (heredoc (lit "<<'EOF'") sample_tree)) = true.
Proof.
  split; [apply sample_tree_ok|].
  rewrite (heredoc_transparent sample_tree (lit "<<'EOF'") sample_tree_ok); [done|].
  apply (bool_decide_unpack _). by vm_compute.
Defined.
