(* ===== verification/StreamingPatch.v ===== *)
(** * The streaming patch parser ([apply-patch/src/streaming_parser.rs])

    The parser that previews a patch while the model is still writing it: it
    takes text in arbitrary pieces, works line by line and returns the hunks
    read so far.  The main theorem shows that it agrees with the batch parser
    of [PatchParser] on every printed patch, however the text is cut. *)

From S2P Require Export PatchGrammar.

(** ** State *)

Inductive StreamingParserMode :=
| NotStarted
| StartedPatch
| InAddFile
| InDeleteFile
| InUpdateFile (hunk_line_number : nat)
| EndedPatch.

Record StreamingPatchParser := mk_streaming {
  line_buffer : str;
  mode : StreamingParserMode;
  stream_hunks : list Hunk;
  stream_line_number : nat
}.

(** [StreamingPatchParser::default()] *)
Definition streaming_default : StreamingPatchParser := mk_streaming [] NotStarted [] 0.

Definition set_mode (p : StreamingPatchParser) (m : StreamingParserMode) : StreamingPatchParser :=
  mk_streaming (line_buffer p) m (stream_hunks p) (stream_line_number p).

Definition set_hunks (p : StreamingPatchParser) (hs : list Hunk) : StreamingPatchParser :=
  mk_streaming (line_buffer p) (mode p) hs (stream_line_number p).

Definition push_hunk (p : StreamingPatchParser) (h : Hunk) (m : StreamingParserMode)
    : StreamingPatchParser :=
  mk_streaming (line_buffer p) m (stream_hunks p ++ [h]) (stream_line_number p).

(** Assignment through [last_mut()]. *)
Definition set_last {A} (l : list A) (x : A) : list A := take (length l - 1) l ++ [x].

(** [std::mem::take(&mut self.line_buffer)] and [self.line_number += 1] *)
Definition take_line (p : StreamingPatchParser) : StreamingPatchParser :=
  mk_streaming [] (mode p) (stream_hunks p) (S (stream_line_number p)).

Definition is_environment_id_preamble_line (line : str) : bool :=
  starts_with ENVIRONMENT_ID_MARKER line.

Definition chunk_is_empty (c : UpdateFileChunk) : bool :=
  match old_lines c, new_lines c with [], [] => true | _, _ => false end.

(** [chunks.last().is_some_and(|chunk| ..is_empty() && ..is_empty())] *)
Definition last_chunk_is_empty (chunks : list UpdateFileChunk) : bool :=
  match last chunks with Some c => chunk_is_empty c | None => false end.

Definition ensure_update_hunk_is_not_empty (p : StreamingPatchParser) (line : str)
    : res ParseError unit :=
  match last (stream_hunks p) with
  | Some (UpdateFile path _ chunks) =>
    match chunks, mode p with
    | [], InUpdateFile hunk_line_number =>
      Err (InvalidHunkError (empty_update_message path) hunk_line_number)
    | _, _ =>
      if last_chunk_is_empty chunks then
        if str_eqb line END_PATCH_MARKER
        then Err (InvalidHunkError no_lines_message (stream_line_number p))
        else Err (InvalidHunkError (unexpected_line_message line) (stream_line_number p))
      else Ok tt
    end
  | _ => Ok tt
  end.

(** [Some] is the returned [true] with the new state. *)
Definition handle_hunk_headers_and_end_patch (p : StreamingPatchParser) (trimmed : str)
    : res ParseError (option StreamingPatchParser) :=
  if str_eqb trimmed END_PATCH_MARKER then
    let? _ := ensure_update_hunk_is_not_empty p trimmed in
    Ok (Some (set_mode p EndedPatch))
  else
  match strip_prefix ADD_FILE_MARKER trimmed with
  | Some path =>
    let? _ := ensure_update_hunk_is_not_empty p trimmed in
    Ok (Some (push_hunk p (AddFile path []) InAddFile))
  | None =>
  match strip_prefix DELETE_FILE_MARKER trimmed with
  | Some path =>
    let? _ := ensure_update_hunk_is_not_empty p trimmed in
    Ok (Some (push_hunk p (DeleteFile path) InDeleteFile))
  | None =>
  match strip_prefix UPDATE_FILE_MARKER trimmed with
  | Some path =>
    let? _ := ensure_update_hunk_is_not_empty p trimmed in
    Ok (Some (push_hunk p (UpdateFile path None []) (InUpdateFile (stream_line_number p))))
  | None => Ok None
  end
  end
  end.

Definition empty_chunk (context : option str) : UpdateFileChunk := mk_chunk context [] [] false.

(** [if chunks.is_empty() { chunks.push(..) }] followed by an update of the
    last chunk. *)
Definition update_last_chunk (chunks : list UpdateFileChunk)
    (f : UpdateFileChunk -> UpdateFileChunk) : list UpdateFileChunk :=
  let chunks := match chunks with [] => [empty_chunk None] | _ => chunks end in
  match last chunks with Some c => set_last chunks (f c) | None => chunks end.

Definition invalid_header (p : StreamingPatchParser) (trimmed : str) : ParseError :=
  InvalidHunkError (bad_header_message trimmed) (stream_line_number p).

(** The new chunks of the last hunk for a line of an update hunk. *)
Definition process_change_line (line update_line : str) (line_number : nat)
    (chunks : list UpdateFileChunk) : res ParseError (list UpdateFileChunk) :=
  if (str_eqb update_line EMPTY_CHANGE_CONTEXT_MARKER
      || starts_with CHANGE_CONTEXT_MARKER update_line) && last_chunk_is_empty chunks
  then Err (InvalidHunkError (unexpected_line_message line) line_number)
  else if str_eqb update_line EMPTY_CHANGE_CONTEXT_MARKER then Ok (chunks ++ [empty_chunk None])
  else
  match strip_prefix CHANGE_CONTEXT_MARKER update_line with
  | Some change_context => Ok (chunks ++ [empty_chunk (Some change_context)])
  | None =>
  if str_eqb update_line EOF_MARKER then
    if last_chunk_is_empty chunks
    then Err (InvalidHunkError no_lines_message line_number)
    else Ok (match last chunks with Some c => set_last chunks (set_eof c) | None => chunks end)
  else
  match line with
  | [] => Ok (update_last_chunk chunks (fun c => push_both c []))
  | _ =>
  match strip_prefix [SPACE] line with
  | Some line_to_add => Ok (update_last_chunk chunks (fun c => push_both c line_to_add))
  | None =>
  match strip_prefix [PLUS] line with
  | Some line_to_add => Ok (update_last_chunk chunks (fun c => push_new c line_to_add))
  | None =>
  match strip_prefix [MINUS] line with
  | Some line_to_remove => Ok (update_last_chunk chunks (fun c => push_old c line_to_remove))
  | None =>
    match last chunks with
    | Some c =>
      if negb (chunk_is_empty c)
      then Err (InvalidHunkError (expected_context_message line) line_number)
      else Err (InvalidHunkError (unexpected_line_message line) line_number)
    | None => Err (InvalidHunkError (unexpected_line_message line) line_number)
    end
  end
  end
  end
  end
  end.

Definition process_update_line (p : StreamingPatchParser) (line update_line : str)
    : res ParseError StreamingPatchParser :=
  match last (stream_hunks p) with
  | Some (UpdateFile path move_path chunks) =>
    match chunks, move_path, strip_prefix MOVE_TO_MARKER update_line with
    | [], None, Some move_to_path =>
      Ok (set_hunks p (set_last (stream_hunks p) (UpdateFile path (Some move_to_path) chunks)))
    | _, _, _ =>
      let? chunks := process_change_line line update_line (stream_line_number p) chunks in
      Ok (set_hunks p (set_last (stream_hunks p) (UpdateFile path move_path chunks)))
    end
  | _ => Err (InvalidHunkError (unexpected_line_message line) (stream_line_number p))
  end.

(** No path of [process_line] changes the state and then fails. *)
Definition process_line (p : StreamingPatchParser) (line : str)
    : res ParseError StreamingPatchParser :=
  let trimmed := trim line in
  match mode p with
  | NotStarted =>
    if str_eqb trimmed BEGIN_PATCH_MARKER then Ok (set_mode p StartedPatch)
    else Err (InvalidPatchError first_line_message)
  | StartedPatch =>
    if is_environment_id_preamble_line line then Ok p
    else
      let? handled := handle_hunk_headers_and_end_patch p trimmed in
      match handled with
      | Some p => Ok p
      | None => Err (invalid_header p trimmed)
      end
  | InAddFile =>
    let? handled := handle_hunk_headers_and_end_patch p trimmed in
    match handled with
    | Some p => Ok p
    | None =>
      match strip_prefix [PLUS] line, last (stream_hunks p) with
      | Some line_to_add, Some (AddFile path contents) =>
        Ok (set_hunks p (set_last (stream_hunks p) (AddFile path (contents ++ line_to_add ++ [NL]))))
      | _, _ => Err (invalid_header p trimmed)
      end
    end
  | InDeleteFile =>
    let? handled := handle_hunk_headers_and_end_patch p trimmed in
    match handled with
    | Some p => Ok p
    | None => Err (invalid_header p trimmed)
    end
  | InUpdateFile _ =>
    let update_line := trim_end line in
    let? handled := handle_hunk_headers_and_end_patch p update_line in
    match handled with
    | Some p => Ok p
    | None => process_update_line p line update_line
    end
  | EndedPatch => Ok p
  end.

(** The loop of [push_delta]; a failing line ends it and the rest of the piece
    is dropped. *)
Fixpoint push_chars (p : StreamingPatchParser) (delta : str)
    : StreamingPatchParser * res ParseError unit :=
  match delta with
  | [] => (p, Ok tt)
  | ch :: delta =>
    if (ch =? NL)%N then
      let line := chomp_cr (line_buffer p) in
      let p := take_line p in
      match process_line p line with
      | Ok p => push_chars p delta
      | Err e => (p, Err e)
      | Panic => (p, Panic)
      | NoFuel => (p, NoFuel)
      end
    else
      push_chars
        (mk_streaming (line_buffer p ++ [ch]) (mode p) (stream_hunks p) (stream_line_number p)) delta
  end.

Definition push_delta (p : StreamingPatchParser) (delta : str)
    : StreamingPatchParser * res ParseError (list Hunk) :=
  let '(p, r) := push_chars p delta in
  (p, let? _ := r in Ok (stream_hunks p)).

Definition streaming_finish (p : StreamingPatchParser)
    : StreamingPatchParser * res ParseError (list Hunk) :=
  let '(p, r) :=
    match line_buffer p with
    | [] => (p, Ok tt)
    | line =>
      let p := take_line p in
      if str_eqb (trim line) END_PATCH_MARKER then
        match ensure_update_hunk_is_not_empty p (trim line) with
        | Ok _ => (set_mode p EndedPatch, Ok tt)
        | r => (p, r)
        end
      else
        match process_line p line with
        | Ok p => (p, Ok tt)
        | Err e => (p, Err e)
        | Panic => (p, Panic)
        | NoFuel => (p, NoFuel)
        end
    end in
  (p, let? _ := r in
      match mode p with
      | EndedPatch => Ok (stream_hunks p)
      | _ => Err (InvalidPatchError last_line_message)
      end).

(** Feeding pieces until one fails. *)
Fixpoint push_all (p : StreamingPatchParser) (deltas : list str)
    : StreamingPatchParser * res ParseError unit :=
  match deltas with
  | [] => (p, Ok tt)
  | d :: deltas =>
    match push_delta p d with
    | (p, Ok _) => push_all p deltas
    | (p, Err e) => (p, Err e)
    | (p, Panic) => (p, Panic)
    | (p, NoFuel) => (p, NoFuel)
    end
  end.

Example streaming_examples :
  (push_delta streaming_default
     (lit "*** Begin Patch" ++ [NL] ++ lit "*** Add File: a" ++ [NL] ++ lit "+x" ++ [NL] ++ lit "+y")).2
    = Ok [AddFile (lit "a") (lit "x" ++ [NL])] /\
  (push_delta streaming_default (lit "bad" ++ [NL])).2 = Err (InvalidPatchError first_line_message) /\
  (streaming_finish (push_delta streaming_default sample_patch).1).2 =
    match parse_patch sample_patch with Ok a => Ok (hunks a) | _ => NoFuel end.
Proof. vm_compute. done. Qed.

(** ** Pieces do not matter *)

Lemma push_chars_app p a b :
  push_chars p (a ++ b) =
  match push_chars p a with (p', Ok _) => push_chars p' b | failed => failed end.
Proof.
  revert p. induction a as [|c a IH]; intros p; [done|]. cbn [app push_chars].
  destruct (c =? NL)%N; [|apply IH]. by destruct (process_line _ _).
Qed.

Lemma push_all_chars p deltas : push_all p deltas = push_chars p (concat deltas).
Proof.
  revert p. induction deltas as [|d deltas IH]; intros p; [done|]. cbn [push_all concat].
  rewrite push_chars_app. unfold push_delta. destruct (push_chars p d) as [p' [[]|e| |]]; try done.
  apply IH.
Qed.

(** ** Lines *)

(** The parser reads whole lines, each accepted. *)
Inductive reads : StreamingPatchParser -> list str -> StreamingPatchParser -> Prop :=
| reads_nil p : reads p [] p
| reads_cons p l p1 ls p2 :
    process_line (take_line p) l = Ok p1 -> reads p1 ls p2 -> reads p (l :: ls) p2.

Lemma reads_one p l p' : process_line (take_line p) l = Ok p' -> reads p [l] p'.
Proof. intros. econstructor; [done|constructor]. Qed.

Lemma reads_app p ls p1 ls' p2 : reads p ls p1 -> reads p1 ls' p2 -> reads p (ls ++ ls') p2.
Proof. induction 1; [done|]. intros. econstructor; eauto. Qed.

Lemma handle_buffer p s p' :
  handle_hunk_headers_and_end_patch p s = Ok (Some p') -> line_buffer p' = line_buffer p.
Proof.
  unfold handle_hunk_headers_and_end_patch. repeat case_match; intros; res_inv; by simplify_eq.
Qed.

Lemma process_line_buffer p l p' : process_line p l = Ok p' -> line_buffer p' = line_buffer p.
Proof.
  unfold process_line, process_update_line.
  destruct (mode p); intros H; repeat (case_match || (progress res_inv) || simplify_eq); subst;
    try done; by eapply handle_buffer.
Qed.

Lemma push_chars_text p l :
  NL ∉ l ->
  push_chars p l = (mk_streaming (line_buffer p ++ l) (mode p) (stream_hunks p) (stream_line_number p), Ok tt).
Proof.
  revert p. induction l as [|c l IH]; intros p Hl; simpl.
  { rewrite app_nil_r. by destruct p. }
  apply not_elem_of_cons in Hl as [Hc Hl]. rewrite (proj2 (N.eqb_neq c NL)) by done.
  rewrite IH by done. simpl. by rewrite <- app_assoc.
Qed.

Lemma push_chars_line p l rest p' :
  line_buffer p = [] -> line_ok l -> process_line (take_line p) l = Ok p' ->
  push_chars p (l ++ NL :: rest) = push_chars p' rest.
Proof.
  intros Hb [Hn Hcr] Hp. rewrite push_chars_app, push_chars_text by done. cbn [push_chars].
  rewrite N.eqb_refl, Hb. cbn [app line_buffer]. rewrite chomp_cr_id by done.
  unfold take_line in *. cbn [mode stream_hunks stream_line_number]. by rewrite Hp.
Qed.

Lemma push_chars_lines p ls p' rest :
  reads p ls p' -> line_buffer p = [] -> Forall line_ok ls ->
  push_chars p (concat ((fun l => l ++ [NL]) <$> ls) ++ rest) = push_chars p' rest /\
  line_buffer p' = [].
Proof.
  induction 1 as [p|p l p1 ls p2 Hp _ IH]; intros Hb Hok; [done|]. inv Hok.
  cbn [fmap list_fmap concat]. rewrite <- !app_assoc. cbn [app].
  rewrite (push_chars_line _ _ _ p1) by done. apply IH; [|done].
  rewrite (process_line_buffer _ _ _ Hp). done.
Qed.

(** ** Reading printed hunks *)

#[local] Opaque BEGIN_PATCH_MARKER ENVIRONMENT_ID_MARKER END_PATCH_MARKER
  ADD_FILE_MARKER DELETE_FILE_MARKER UPDATE_FILE_MARKER MOVE_TO_MARKER EOF_MARKER
  CHANGE_CONTEXT_MARKER EMPTY_CHANGE_CONTEXT_MARKER.

(** A context that the parser keeps as it is printed. *)
Definition context_ok (c : chunk_tree) : Prop :=
  match header c with ContextHeader t => path_ok t | _ => True end.

Definition contexts_ok (h : hunk_tree) : Prop :=
  match h with TUpdate _ _ cs => Forall context_ok cs | _ => True end.

(** The state between two hunks. *)
Definition ready (m : StreamingParserMode) (hs : list Hunk) : Prop :=
  match m with
  | StartedPatch => hs = []
  | InAddFile => exists p c, last hs = Some (AddFile p c)
  | InDeleteFile => exists p, last hs = Some (DeleteFile p)
  | InUpdateFile _ => exists p mv cs c,
      last hs = Some (UpdateFile p mv (cs ++ [c])) /\ chunk_is_empty c = false
  | _ => False
  end.

Lemma ready_ensure m hs n line :
  ready m hs -> ensure_update_hunk_is_not_empty (mk_streaming [] m hs n) line = Ok tt.
Proof.
  unfold ensure_update_hunk_is_not_empty, last_chunk_is_empty. destruct m; simpl; try done.
  - by intros ->.
  - by intros (p & c & ->).
  - by intros (p & ->).
  - intros (p & mv & cs & c & -> & Hc). rewrite last_snoc, Hc. by destruct cs.
Qed.

Lemma handle_plain p s : head s <> Some STAR -> handle_hunk_headers_and_end_patch p s = Ok None.
Proof.
  intros Hs. unfold handle_hunk_headers_and_end_patch.
  assert (forall m, head m = Some STAR -> strip_prefix m s = None /\ s <> m) as Hm.
  { intros m Hm. destruct m as [|c m]; [done|]. injection Hm as ->.
    destruct s as [|d s]; [done|]. split; [|by intros [= -> ->]].
    apply strip_prefix_None_head. by intros <-. }
  destruct (Hm ADD_FILE_MARKER) as [-> _]; [marker|].
  destruct (Hm DELETE_FILE_MARKER) as [-> _]; [marker|].
  destruct (Hm UPDATE_FILE_MARKER) as [-> _]; [marker|].
  rewrite str_eqb_ne; [done|]. apply Hm. marker.
Qed.

(** The three header lines. *)
Inductive headed : str -> Hunk -> nat -> StreamingParserMode -> Prop :=
| headed_add p n : headed (ADD_FILE_MARKER ++ p) (AddFile p []) n InAddFile
| headed_delete p n : headed (DELETE_FILE_MARKER ++ p) (DeleteFile p) n InDeleteFile
| headed_update p n : headed (UPDATE_FILE_MARKER ++ p) (UpdateFile p None []) n (InUpdateFile n).

Lemma handle_header l h n m' m hs :
  headed l h n m' -> ready m hs ->
  handle_hunk_headers_and_end_patch (mk_streaming [] m hs n) l =
  Ok (Some (mk_streaming [] m' (hs ++ [h]) n)).
Proof.
  intros Hh Hr. unfold handle_hunk_headers_and_end_patch. rewrite !ready_ensure by done.
  destruct hunk_markers_diverge as (D1 & D2 & D3).
  assert (diverge END_PATCH_MARKER ADD_FILE_MARKER = true /\ diverge END_PATCH_MARKER DELETE_FILE_MARKER = true
    /\ diverge END_PATCH_MARKER UPDATE_FILE_MARKER = true) as (E1 & E2 & E3) by (split_and!; marker).
  destruct Hh as [p n|p n|p n].
  - by rewrite (str_eqb_ne _ _ (diverge_ne _ _ p E1)), strip_prefix_app.
  - by rewrite (str_eqb_ne _ _ (diverge_ne _ _ p E2)), (diverge_strip_prefix _ _ _ D1), strip_prefix_app.
  - by rewrite (str_eqb_ne _ _ (diverge_ne _ _ p E3)), (diverge_strip_prefix _ _ _ D2),
      (diverge_strip_prefix _ _ _ D3), strip_prefix_app.
Qed.

Lemma process_handled l m hs n p' :
  ready m hs -> trim l = l -> trim_end l = l -> is_environment_id_preamble_line l = false ->
  handle_hunk_headers_and_end_patch (mk_streaming [] m hs n) l = Ok (Some p') ->
  process_line (mk_streaming [] m hs n) l = Ok p'.
Proof.
  intros Hr Ht Hte He Hh. unfold process_line. cbn [mode]. rewrite Ht, Hte.
  destruct m; try done; rewrite ?He, Hh; done.
Qed.

Lemma marker_trim_end m p : head m = Some STAR -> path_ok p -> trim_end (m ++ p) = m ++ p.
Proof.
  intros Hm (_ & c & Hc & Hw). apply trim_end_solid. intros d.
  rewrite last_app, Hc. by intros [= <-].
Qed.

Lemma environment_diverge m p :
  diverge ENVIRONMENT_ID_MARKER m = true -> is_environment_id_preamble_line (m ++ p) = false.
Proof.
  intros Hd. unfold is_environment_id_preamble_line, starts_with. by rewrite diverge_strip_prefix.
Qed.

Lemma read_header mk p h m' m hs n :
  head mk = Some STAR -> diverge ENVIRONMENT_ID_MARKER mk = true -> path_ok p ->
  headed (mk ++ p) h (S n) m' -> ready m hs ->
  reads (mk_streaming [] m hs n) [mk ++ p] (mk_streaming [] m' (hs ++ [h]) (S n)).
Proof.
  intros Hs Hd Hp Hh Hr. apply reads_one. apply process_handled; [done|..].
  - by apply marker_trim.
  - by apply marker_trim_end.
  - by apply environment_diverge.
  - by apply handle_header.
Qed.

(** ** Bodies of hunks *)

Lemma set_last_snoc {A} (l : list A) x y : set_last (l ++ [x]) y = l ++ [y].
Proof.
  unfold set_last. rewrite length_app. simpl. rewrite Nat.add_sub. by rewrite take_app_length.
Qed.

Lemma read_add_line p c l hs n :
  reads (mk_streaming [] InAddFile (hs ++ [AddFile p c]) n) [PLUS :: l]
    (mk_streaming [] InAddFile (hs ++ [AddFile p (c ++ l ++ [NL])]) (S n)).
Proof.
  apply reads_one. unfold process_line, take_line. cbn [mode stream_hunks stream_line_number].
  rewrite handle_plain.
  - cbn [res_bind]. change (PLUS :: l) with ([PLUS] ++ l).
    rewrite strip_prefix_app, last_snoc. unfold set_hunks. simpl. by rewrite set_last_snoc.
  - unfold trim. destruct (trim_end_head (PLUS :: l)) as [E|E]; rewrite trim_start_head;
      rewrite ?E; try done; by intros ? [= <-].
Qed.

Lemma read_add_lines p c ls hs n :
  reads (mk_streaming [] InAddFile (hs ++ [AddFile p c]) n) ((fun l => PLUS :: l) <$> ls)
    (mk_streaming [] InAddFile (hs ++ [AddFile p (c ++ (ls ≫= (fun l => l ++ [NL])))]) (n + length ls)).
Proof.
  revert c n. induction ls as [|l ls IH]; intros c n.
  - simpl. rewrite app_nil_r, Nat.add_0_r. constructor.
  - cbn [fmap list_fmap mbind list_bind length]. rewrite <- Nat.add_succ_comm.
    eapply (reads_app _ [_]); [apply read_add_line|].
    specialize (IH (c ++ l ++ [NL]) (S n)). rewrite <- app_assoc in IH. exact IH.
Qed.

(** A step of an update hunk that only changes its chunks. *)
Definition update_state (p : str) (mv : option str) (hs : list Hunk) (k n : nat)
    (cs : list UpdateFileChunk) : StreamingPatchParser :=
  mk_streaming [] (InUpdateFile k) (hs ++ [UpdateFile p mv cs]) n.

Lemma read_change p mv hs k n cs cs' l :
  handle_hunk_headers_and_end_patch (update_state p mv hs k (S n) cs) (trim_end l) = Ok None ->
  strip_prefix MOVE_TO_MARKER (trim_end l) = None ->
  process_change_line l (trim_end l) (S n) cs = Ok cs' ->
  reads (update_state p mv hs k n cs) [l] (update_state p mv hs k (S n) cs').
Proof.
  intros Hh Hm Hc. apply reads_one. unfold process_line, update_state, take_line in *.
  cbn [mode stream_hunks stream_line_number] in *. rewrite Hh. cbn [res_bind].
  unfold process_update_line. cbn [stream_hunks stream_line_number]. rewrite last_snoc, Hm, Hc.
  cbn [res_bind]. unfold set_hunks. cbn [line_buffer mode stream_hunks stream_line_number].
  rewrite set_last_snoc. by destruct cs, mv.
Qed.

Definition stream_change (l : change_line) (c : UpdateFileChunk) : UpdateFileChunk :=
  match l with Keep t => push_both c t | Insert t => push_new c t | Remove t => push_old c t end.

Lemma change_head l c : head (print_change l) = Some c -> c = SPACE \/ c = PLUS \/ c = MINUS.
Proof. destruct l; intros [= <-]; auto. Qed.

Lemma change_trim_head l :
  head (trim_end (print_change l)) <> Some STAR /\ head (trim_end (print_change l)) <> Some 64%N.
Proof.
  destruct (trim_end_head (print_change l)) as [-> | ->]; [done|].
  split; intros [E|[E|E]]%change_head; discriminate E.
Qed.

Lemma strip_prefix_head_ne m c s :
  head m = Some c -> head s <> Some c -> strip_prefix m s = None /\ str_eqb s m = false.
Proof.
  intros Hm Hs. destruct m as [|d m]; [done|]. injection Hm as ->. destruct s as [|e s]; [done|]. cbn [head] in Hs.
  split; [apply strip_prefix_None_head; congruence|apply str_eqb_ne; congruence].
Qed.

Lemma process_change_plain l n cs :
  process_change_line (print_change l) (trim_end (print_change l)) n cs =
  Ok (update_last_chunk cs (stream_change l)).
Proof.
  destruct (change_trim_head l) as [Hs Ha]. unfold process_change_line, starts_with.
  destruct (strip_prefix_head_ne EMPTY_CHANGE_CONTEXT_MARKER 64%N (trim_end (print_change l))) as [_ ->];
    [marker|done|].
  destruct (strip_prefix_head_ne CHANGE_CONTEXT_MARKER 64%N (trim_end (print_change l))) as [-> _];
    [marker|done|].
  destruct (strip_prefix_head_ne EOF_MARKER STAR (trim_end (print_change l))) as [_ ->]; [marker|done|].
  by destruct l.
Qed.

Lemma update_last_snoc cs c f : update_last_chunk (cs ++ [c]) f = cs ++ [f c].
Proof.
  unfold update_last_chunk. assert (cs ++ [c] <> []) as Hne by (by destruct cs).
  destruct (cs ++ [c]) as [|x l] eqn:E; [done|]. rewrite <- E, last_snoc. by rewrite set_last_snoc.
Qed.

Lemma read_change_line p mv hs k n cs l :
  reads (update_state p mv hs k n cs) [print_change l]
    (update_state p mv hs k (S n) (update_last_chunk cs (stream_change l))).
Proof.
  destruct (change_trim_head l) as [Hs Ha]. apply read_change.
  - by apply handle_plain.
  - eapply strip_prefix_head_ne; [marker|done].
  - apply process_change_plain.
Qed.

Lemma read_change_lines p mv hs k n cs c b :
  reads (update_state p mv hs k n (cs ++ [c])) (print_change <$> b)
    (update_state p mv hs k (n + length b)
       (cs ++ [mk_chunk (change_context c) (old_lines c ++ old_of b) (new_lines c ++ new_of b)
                 (is_end_of_file c)])).
Proof.
  revert c n. induction b as [|l b IH]; intros c n.
  - simpl. rewrite !app_nil_r, Nat.add_0_r. destruct c. constructor.
  - cbn [fmap list_fmap length]. rewrite <- Nat.add_succ_comm.
    eapply (reads_app _ [_]); [apply read_change_line|]. rewrite update_last_snoc.
    specialize (IH (stream_change l c) (S n)).
    destruct l; cbn [stream_change push_both push_new push_old change_context old_lines new_lines
      is_end_of_file old_of new_of omap list_omap] in *; rewrite <- ?app_assoc in IH; exact IH.
Qed.

Lemma read_eof p mv hs k n cs c e :
  chunk_is_empty c = false -> is_end_of_file c = false ->
  reads (update_state p mv hs k n (cs ++ [c])) (print_eof e)
    (update_state p mv hs k (n + length (print_eof e))
       (cs ++ [mk_chunk (change_context c) (old_lines c) (new_lines c) e])).
Proof.
  intros Hc He. destruct e; simpl; [rewrite Nat.add_1_r|rewrite Nat.add_0_r].
  2:{ destruct c. simpl in *. subst. constructor. }
  assert (trim_end EOF_MARKER = EOF_MARKER) as Ht by marker.
  apply read_change; rewrite Ht.
  - rewrite <- (app_nil_r EOF_MARKER). unfold handle_hunk_headers_and_end_patch.
    rewrite (str_eqb_ne _ _ (diverge_ne END_PATCH_MARKER EOF_MARKER [] ltac:(marker))).
    by rewrite !diverge_strip_prefix by marker.
  - rewrite <- (app_nil_r EOF_MARKER). by rewrite diverge_strip_prefix by marker.
  - unfold process_change_line, starts_with, last_chunk_is_empty.
    destruct (strip_prefix_head_ne EMPTY_CHANGE_CONTEXT_MARKER 64%N EOF_MARKER) as [_ ->];
      [marker|assert (head EOF_MARKER = Some STAR) as -> by marker; done|].
    destruct (strip_prefix_head_ne CHANGE_CONTEXT_MARKER 64%N EOF_MARKER) as [-> _];
      [marker|assert (head EOF_MARKER = Some STAR) as -> by marker; done|].
    rewrite str_eqb_refl, last_snoc, Hc. cbn [orb andb]. by rewrite set_last_snoc.
Qed.

Lemma context_header_line h :
  context_ok (mk_chunk_tree h [] false) -> forall l, print_header h = [l] ->
  trim_end l = l /\ head l = Some 64%N.
Proof.
  unfold context_ok. destruct context_markers as [E1 E2].
  destruct h as [| |t]; simpl; [done| |]; intros Hc l [= <-].
  - rewrite E1. done.
  - destruct Hc as (_ & c & Hc & Hw). split; [|by rewrite E2].
    apply trim_end_solid. intros d. rewrite last_app, Hc. by intros [= <-].
Qed.

Lemma read_chunk_header p mv hs k n cs h :
  h <> NoHeader -> context_ok (mk_chunk_tree h [] false) -> last_chunk_is_empty cs = false ->
  reads (update_state p mv hs k n cs) (print_header h)
    (update_state p mv hs k (n + length (print_header h)) (cs ++ [empty_chunk (header_context h)])).
Proof.
  intros Hne Hc Hl. pose proof (context_header_line h Hc) as Hline.
  assert (exists l, print_header h = [l]) as [l El] by (destruct h; eauto; done).
  destruct (Hline l El) as [Ht Hh]. rewrite El. simpl. rewrite Nat.add_1_r.
  destruct context_markers as [E1 E2].
  apply read_change; rewrite Ht.
  - apply handle_plain. by rewrite Hh.
  - eapply strip_prefix_head_ne; [marker|by rewrite Hh].
  - unfold process_change_line. rewrite Hl, andb_false_r. destruct h as [| |t]; [done|..].
    + injection El as <-. by rewrite str_eqb_refl.
    + injection El as <-. rewrite str_eqb_ne by (rewrite E1, E2; done).
      by rewrite strip_prefix_app.
Qed.

Lemma denote_nonempty c : body c <> [] -> chunk_is_empty (denote_chunk c) = false.
Proof. unfold denote_chunk, chunk_is_empty. destruct (body c) as [|[t|t|t] b]; simpl; [done|..]; by repeat case_match. Qed.

Lemma chunk_is_empty_eof c e :
  chunk_is_empty (mk_chunk (change_context c) (old_lines c) (new_lines c) e) = chunk_is_empty c.
Proof. done. Qed.

Lemma read_chunk p mv hs k n cs c first :
  chunk_ok first c -> context_ok c -> last_chunk_is_empty cs = false -> (header c = NoHeader -> cs = []) ->
  reads (update_state p mv hs k n cs) (print_chunk c)
    (update_state p mv hs k (n + length (print_chunk c)) (cs ++ [denote_chunk c])).
Proof.
  intros [_ Hok] Hctx Hl Hno. rewrite print_chunk_length. unfold print_chunk.
  assert (body c <> []) as Hb by (intros E; rewrite E in Hok; by destruct (header c)).
  assert (forall n', reads (update_state p mv hs k n' (cs ++ [empty_chunk (header_context (header c))]))
    ((print_change <$> body c) ++ print_eof (at_eof c))
    (update_state p mv hs k (n' + (length (body c) + length (print_eof (at_eof c)))) (cs ++ [denote_chunk c])))
    as Hrest.
  { intros n'. eapply reads_app; [apply read_change_lines|]. simpl. rewrite Nat.add_assoc.
    apply (read_eof _ _ _ _ _ cs (mk_chunk _ (old_of (body c)) (new_of (body c)) false)); [|done].
    by apply denote_nonempty. }
  destruct (header c) as [| |t] eqn:Eh.
  - specialize (Hno eq_refl) as ->. destruct (body c) as [|l b] eqn:Eb; [done|].
    cbn [print_header app length fmap list_fmap Nat.add].
    eapply (reads_app _ [_]); [apply read_change_line|].
    specialize (Hrest n). cbn [app fmap list_fmap] in Hrest. inv Hrest.
    pose proof (read_change_line p mv hs k n [empty_chunk None] l) as Hl1. inv Hl1.
    rename select (reads _ [] _) into Hn. inv Hn.
    cbn [header_context] in *. simplify_eq.
    match goal with H1 : process_line _ _ = Ok ?a, H2 : process_line _ _ = Ok ?b |- _ =>
      rewrite H1 in H2; injection H2 as -> end.
    done.
  - eapply reads_app; [apply read_chunk_header; [done| |done]|].
    + done.
    + rewrite Nat.add_assoc. apply Hrest.
  - eapply reads_app; [apply read_chunk_header; [done| |done]|].
    + unfold context_ok in *. by rewrite Eh in Hctx.
    + rewrite Nat.add_assoc. apply Hrest.
Qed.

Lemma denote_last cs c :
  body c <> [] -> last_chunk_is_empty (cs ++ [denote_chunk c]) = false.
Proof. intros. unfold last_chunk_is_empty. rewrite last_snoc. by apply denote_nonempty. Qed.

Lemma chunk_ok_body first c : chunk_ok first c -> body c <> [].
Proof. intros [_ H] E. rewrite E in H. by destruct (header c). Qed.

Lemma read_chunks p mv hs k n acc cs :
  Forall (chunk_ok false) cs -> Forall context_ok cs -> last_chunk_is_empty acc = false ->
  reads (update_state p mv hs k n acc) (cs ≫= print_chunk)
    (update_state p mv hs k (n + length (cs ≫= print_chunk)) (acc ++ (denote_chunk <$> cs))).
Proof.
  intros Hok Hctx. revert n acc. induction Hok as [|c cs Hc Hok IH]; intros n acc Hl.
  - simpl. rewrite app_nil_r, Nat.add_0_r. constructor.
  - inv Hctx. cbn [mbind list_bind fmap list_fmap]. rewrite length_app, Nat.add_assoc.
    eapply reads_app.
    + apply (read_chunk _ _ _ _ _ acc c false); [done..|].
      destruct Hc as [_ Hh]. intros E. rewrite E in Hh. by destruct (body c) as [|? ?], Hh.
    + specialize (IH H2 (n + length (print_chunk c)) (acc ++ [denote_chunk c])).
      rewrite <- app_assoc in IH. apply IH. by eapply denote_last, chunk_ok_body.
Qed.

Lemma read_update_body p mv hs k n cs :
  chunks_ok cs -> Forall context_ok cs ->
  reads (update_state p mv hs k n []) (cs ≫= print_chunk)
    (update_state p mv hs k (n + length (cs ≫= print_chunk)) (denote_chunk <$> cs)).
Proof.
  destruct cs as [|c cs]; [done|]. intros [Hc Hcs] Hctx. inv Hctx.
  cbn [mbind list_bind fmap list_fmap]. rewrite length_app, Nat.add_assoc. eapply reads_app.
  - by apply (read_chunk _ _ _ _ _ [] c true).
  - apply (read_chunks _ _ _ _ _ [denote_chunk c] cs); [done..|].
    by eapply (denote_last []), chunk_ok_body.
Qed.

Lemma read_move p q hs k n :
  path_ok q ->
  reads (update_state p None hs k n []) [MOVE_TO_MARKER ++ q] (update_state p (Some q) hs k (S n) []).
Proof.
  intros Hq. apply reads_one. unfold process_line, update_state, take_line.
  cbn [mode stream_hunks stream_line_number].
  rewrite marker_trim_end by (marker || done). unfold handle_hunk_headers_and_end_patch.
  rewrite (str_eqb_ne _ _ (diverge_ne END_PATCH_MARKER MOVE_TO_MARKER q ltac:(marker))).
  rewrite !diverge_strip_prefix by marker. cbn [res_bind]. unfold process_update_line.
  cbn [stream_hunks]. rewrite last_snoc, strip_prefix_app. unfold set_hunks.
  cbn [line_buffer mode stream_hunks stream_line_number]. by rewrite set_last_snoc.
Qed.

Lemma ready_update p mv hs k cs :
  chunks_ok cs -> ready (InUpdateFile k) (hs ++ [UpdateFile p mv (denote_chunk <$> cs)]).
Proof.
  intros Hok. assert (cs <> [] /\ Forall (fun c => body c <> []) cs) as [Hne Hb].
  { destruct cs as [|c cs]; [done|]. destruct Hok as [Hc Hcs]. split; [done|].
    constructor; [by eapply chunk_ok_body|]. eapply Forall_impl; [done|].
    intros. by eapply chunk_ok_body. }
  destruct cs as [|c cs _] using rev_ind; [done|]. apply Forall_app in Hb as [_ Hc]. inv Hc.
  exists p, mv, (denote_chunk <$> cs), (denote_chunk c).
  rewrite last_snoc, fmap_app. split; [done|]. by apply denote_nonempty.
Qed.

Lemma read_hunk h m hs n :
  hunk_ok h -> contexts_ok h -> ready m hs ->
  exists m' n', reads (mk_streaming [] m hs n) (print_hunk h)
    (mk_streaming [] m' (hs ++ [denote_hunk h]) n') /\ ready m' (hs ++ [denote_hunk h]).
Proof.
  intros Hok Hctx Hr. destruct h as [p ls|p|p mv cs]; cbn [print_hunk denote_hunk].
  - destruct Hok as [Hp _]. exists InAddFile. eexists. split.
    + eapply (reads_app _ [_]); [|apply (read_add_lines p [])].
      eapply read_header; [marker|marker|done|constructor|done].
    + eexists _, _. by rewrite last_snoc.
  - exists InDeleteFile. eexists. split.
    + eapply read_header; [marker|marker|done|constructor|done].
    + eexists. by rewrite last_snoc.
  - destruct Hok as (Hp & Hm & Hcs).
    assert (reads (mk_streaming [] m hs n) [UPDATE_FILE_MARKER ++ p] (update_state p None hs (S n) (S n) []))
      as Hhead by (eapply read_header; [marker|marker|done|constructor|done]).
    assert (exists n1, reads (update_state p None hs (S n) (S n) []) (print_move mv)
      (update_state p mv hs (S n) n1 [])) as [n1 Hmove].
    { destruct mv as [q|]; eexists; [apply read_move; by apply Hm|constructor]. }
    exists (InUpdateFile (S n)). eexists. split; [|by apply ready_update].
    eapply (reads_app _ [_]); [exact Hhead|]. eapply reads_app; [exact Hmove|].
    by apply read_update_body.
Qed.

Lemma read_hunks hts m hs n :
  Forall hunk_ok hts -> Forall contexts_ok hts -> ready m hs ->
  exists m' n', reads (mk_streaming [] m hs n) (hts ≫= print_hunk)
    (mk_streaming [] m' (hs ++ (denote_hunk <$> hts)) n') /\ ready m' (hs ++ (denote_hunk <$> hts)).
Proof.
  intros Hok. revert m hs n. induction Hok as [|h hts Hh Hok IH]; intros m hs n Hctx Hr.
  - exists m, n. cbn [fmap list_fmap]. rewrite app_nil_r. split; [constructor|done].
  - inv Hctx. destruct (read_hunk h m hs n) as (m1 & n1 & Hrd1 & Hr1); [done..|].
    destruct (IH m1 (hs ++ [denote_hunk h]) n1) as (m2 & n2 & Hr2 & Hready); [done..|].
    rewrite <- app_assoc in Hr2, Hready. exists m2, n2. split; [|done].
    cbn [mbind list_bind]. by eapply reads_app.
Qed.

(** Everything before the end marker. *)
Lemma read_patch t :
  patch_ok t -> Forall contexts_ok (hunk_trees t) ->
  exists m n, reads streaming_default
    (BEGIN_PATCH_MARKER :: print_environment (environment t) ++ (hunk_trees t ≫= print_hunk))
    (mk_streaming [] m (denote_hunk <$> hunk_trees t) n) /\ ready m (denote_hunk <$> hunk_trees t).
Proof.
  intros [He Hh] Hctx.
  assert (exists n, reads streaming_default (BEGIN_PATCH_MARKER :: print_environment (environment t))
    (mk_streaming [] StartedPatch [] n)) as [n Hbegin].
  { assert (process_line (take_line streaming_default) BEGIN_PATCH_MARKER =
      Ok (mk_streaming [] StartedPatch [] 1)) as Hb by marker.
    destruct (environment t) as [id|]; cbn [print_environment].
    - exists 2. econstructor; [exact Hb|]. apply reads_one. unfold process_line, take_line.
      cbn [mode]. unfold is_environment_id_preamble_line.
      by rewrite (proj2 (starts_with_true _ _)) by (by eexists).
    - exists 1. by apply reads_one. }
  destruct (read_hunks (hunk_trees t) StartedPatch [] n Hh Hctx eq_refl) as (m & n' & Hr & Hready).
  exists m, n'. split; [|done]. rewrite app_comm_cons. by eapply reads_app.
Qed.

Lemma join_lines ls l : join [NL] (ls ++ [l]) = concat ((fun l => l ++ [NL]) <$> ls) ++ l.
Proof.
  induction ls as [|x ls IH]; [done|]. rewrite fmap_cons. cbn [app concat].
  rewrite <- app_assoc, <- IH. destruct (ls ++ [l]) eqn:E; [by destruct ls|].
  cbn [join]. by rewrite <- app_assoc.
Qed.

(** C13: however a well-formed patch is cut into pieces, the streaming parser
    accepts every piece and finishes with exactly the hunks the batch parser
    reads from the whole text, provided that no context of an update chunk is
    empty or ends in white space, which the streaming parser drops:
    [streaming_trims_context] below. *)
Theorem streaming_agrees_with_parser (t : patch_tree) (deltas : list str) :
  patch_ok t -> Forall contexts_ok (hunk_trees t) -> concat deltas = print_patch t ->
  exists p args,
    push_all streaming_default deltas = (p, Ok tt) /\
    parse_patch (print_patch t) = Ok args /\
    (streaming_finish p).2 = Ok (hunks args).
Proof.
  intros Hok Hctx Hd. destruct (read_patch t Hok Hctx) as (m & n & Hr & Hready).
  rewrite push_all_chars, Hd. unfold print_patch. unfold print_patch_lines at 1.
  rewrite app_comm_cons, join_lines.
  pose proof (print_patch_lines_ok t Hok) as Hlines. unfold print_patch_lines in Hlines.
  rewrite app_comm_cons, Forall_app in Hlines. destruct Hlines as [Hlines Hend]. inv Hend.
  destruct (push_chars_lines _ _ _ END_PATCH_MARKER Hr eq_refl Hlines) as [-> Hb].
  rewrite push_chars_text by (by destruct H1). eexists _, _. split; [done|].
  split; [by apply parse_print_args|]. unfold streaming_finish. cbn [line_buffer app hunks].
  assert (exists c s, END_PATCH_MARKER = c :: s) as (c & s & E) by (eexists _, _; marker).
  rewrite E at 1. rewrite <- E. assert (trim END_PATCH_MARKER = END_PATCH_MARKER) as -> by marker.
  rewrite str_eqb_refl. unfold take_line. cbn [mode stream_hunks stream_line_number].
  by rewrite ready_ensure.
Qed.

(** One character at a time. *)
Definition sample_deltas : list str := (fun c => [c]) <$> print_patch sample_tree.

Lemma streaming_agrees_with_parser_witness :
  exists p args,
    push_all streaming_default sample_deltas = (p, Ok tt) /\
    parse_patch (print_patch sample_tree) = Ok args /\
    (streaming_finish p).2 = Ok (hunks args).
Proof.
  apply (streaming_agrees_with_parser sample_tree sample_deltas).
  - apply sample_tree_ok.
  - constructor; [exact I|]. constructor; [|constructor]. constructor; [|constructor; [exact I|constructor]].
    split; [by apply (bool_decide_unpack _)|by eexists].
  - vm_compute. reflexivity.
Defined.

(** The context [f ] of a chunk, which the batch parser keeps as it is written,
    loses its final space in the streaming parser. *)
Definition spaced_context : patch_tree :=
  mk_patch_tree None
    [TUpdate (lit "a") None [mk_chunk_tree (ContextHeader (lit "f ")) [Insert (lit "x")] false]].

Example streaming_trims_context :
  patch_ok spaced_context /\
  (exists args c, parse_patch (print_patch spaced_context) = Ok args /\
     hunks args = [UpdateFile (lit "a") None [c]] /\ change_context c = Some (lit "f ")) /\
  exists p c, push_all streaming_default [print_patch spaced_context] = (p, Ok tt) /\
    (streaming_finish p).2 = Ok [UpdateFile (lit "a") None [c]] /\
    change_context c = Some (lit "f").
Proof.
  split_and!.
  - split; [done|]. apply Forall_singleton.
    split_and!; [split; [by apply (bool_decide_unpack _)|by eexists]|done|].
    repeat constructor; (by apply (bool_decide_unpack _)) || done.
  - eexists _, _. split; [vm_compute; reflexivity|]. split; reflexivity.
  - eexists _, _. split; [vm_compute; reflexivity|]. split; reflexivity.
Qed.

(** ** The preview only grows *)

(** [b] has at least the hunks of [a], all but the last of [a] unchanged. *)
Definition extends (a b : list Hunk) : Prop :=
  length a <= length b /\ take (length a - 1) a `prefix_of` b.

#[export] Instance extends_preorder : PreOrder extends.
Proof.
  split.
  - intros a. split; [done|]. exists (drop (length a - 1) a). by rewrite take_drop.
  - intros a b c [Hab [k Hb]] [Hbc [k' Hc]]. split; [lia|].
    assert (take (length a - 1) a = take (length a - 1) b) as ->.
    { rewrite Hb. rewrite take_app_length'; [done|]. rewrite length_take. lia. }
    exists (drop (length a - 1) c). rewrite <- (take_drop (length a - 1) c) at 1. f_equal.
    rewrite Hc, take_app_le by (rewrite length_take; lia). rewrite take_take. f_equal. lia.
Qed.

Lemma extends_snoc hs h : extends hs (hs ++ [h]).
Proof.
  split; [rewrite length_app; lia|]. exists (drop (length hs - 1) hs ++ [h]).
  by rewrite app_assoc, take_drop.
Qed.

Lemma extends_set_last hs h x : last hs = Some x -> extends hs (set_last hs h).
Proof.
  intros Hl. assert (hs <> []) by (by intros ->). unfold set_last. split; [|by eexists].
  rewrite length_app, length_take. simpl. destruct hs; [done|]. simpl. lia.
Qed.

Lemma handle_extends p s p' :
  handle_hunk_headers_and_end_patch p s = Ok (Some p') ->
  extends (stream_hunks p) (stream_hunks p').
Proof.
  unfold handle_hunk_headers_and_end_patch. repeat case_match; intros; res_inv; simplify_eq; simpl;
    (reflexivity || apply extends_snoc).
Qed.

Lemma process_line_extends p l p' :
  process_line p l = Ok p' -> extends (stream_hunks p) (stream_hunks p').
Proof.
  unfold process_line, process_update_line.
  destruct (mode p); intros Hp; repeat (case_match || (progress res_inv) || simplify_eq); subst; simpl;
    try reflexivity; try (by eapply handle_extends); by eapply extends_set_last.
Qed.

Lemma ensure_returns p l : returns (ensure_update_hunk_is_not_empty p l).
Proof. unfold ensure_update_hunk_is_not_empty. by repeat case_match. Qed.

Lemma handle_returns p s : returns (handle_hunk_headers_and_end_patch p s).
Proof.
  unfold handle_hunk_headers_and_end_patch.
  repeat (case_match || (apply returns_bind; [apply ensure_returns|by intros])); done.
Qed.

Lemma process_line_returns p l : returns (process_line p l).
Proof.
  unfold process_line. destruct (mode p); repeat case_match; try done;
    (apply returns_bind; [apply handle_returns|]); intros [] _; cbn beta iota; try done.
  unfold process_update_line.
  assert (forall cs, returns (process_change_line l (trim_end l) (stream_line_number p) cs)) as Hc.
  { intros cs. unfold process_change_line. by repeat case_match. }
  repeat case_match; try done; (apply returns_bind; [apply Hc|done]).
Qed.

(** The preview is stable.  Pushing any text returns a result (never a
    panic), never removes a hunk and never changes a hunk that is followed by
    another one. *)
Theorem streaming_preview_grows (p : StreamingPatchParser) (delta : str) :
  returns (push_delta p delta).2 /\ extends (stream_hunks p) (stream_hunks (push_delta p delta).1).
Proof.
  assert (returns (push_chars p delta).2 /\
    extends (stream_hunks p) (stream_hunks (push_chars p delta).1)) as [Hr He].
  { revert p. induction delta as [|c delta IH]; intros p; cbn [push_chars]; [done|].
    destruct (c =? NL)%N; [|apply (IH (mk_streaming _ _ _ _))].
    pose proof (process_line_returns (take_line p) (chomp_cr (line_buffer p))) as Hr.
    destruct (process_line _ _) as [p1| | |] eqn:E; try done.
    apply process_line_extends in E. destruct (IH p1) as [? ?]. split; [done|]. by etrans. }
  unfold push_delta. destruct (push_chars p delta) as [p' r]. split; [|done].
  apply returns_bind; [done|by intros].
Qed.
