(* ===== verification/SeekSequence.v ===== *)
(** * Locating context lines ([apply-patch/src/seek_sequence.rs])

    [seek_sequence] looks for a block of lines in a file in four passes of
    decreasing strictness.  Indexing and slicing can panic in Rust, so the
    passes are in the [res] type; the main theorem shows that they never do
    and characterises the index found. *)

From S2P Require Export RustStr.

(** The [normalise] helper of the last pass. *)
Definition normalise_char (c : char) : char :=
  if existsb (N.eqb c) [0x2010; 0x2011; 0x2012; 0x2013; 0x2014; 0x2015; 0x2212]%N
  then 45%N
  else if existsb (N.eqb c) [0x2018; 0x2019; 0x201A; 0x201B]%N then 39%N
  else if existsb (N.eqb c) [0x201C; 0x201D; 0x201E; 0x201F]%N then 34%N
  else if existsb (N.eqb c)
       [0x00A0; 0x2002; 0x2003; 0x2004; 0x2005; 0x2006; 0x2007; 0x2008; 0x2009;
        0x200A; 0x202F; 0x205F; 0x3000]%N
  then 32%N
  else c.

Definition normalise (s : str) : str := normalise_char <$> trim s.

Section seek.
Context {E : Type}.

(** [lines[i..i + pattern.len()] == *pattern] *)
Definition exact_at (lines pattern : list str) (i : nat) : res E bool :=
  let? window := from_opt (slice lines i (i + length pattern)) in
  Ok (bool_decide (window = pattern)).

(** The inner [for (p_idx, pat) in pattern.iter().enumerate()] loop. *)
Fixpoint lenient_at (norm : str -> str) (lines : list str) (i p_idx : nat)
    (pattern : list str) : res E bool :=
  match pattern with
  | [] => Ok true
  | pat :: rest =>
    let? line := from_opt (lines !! (i + p_idx)) in
    if negb (str_eqb (norm line) (norm pat)) then Ok false
    else lenient_at norm lines i (S p_idx) rest
  end.

(** [for i in lo..=hi] as [count] iterations from [i]. *)
Fixpoint pass (test : nat -> res E bool) (i count : nat) : res E (option nat) :=
  match count with
  | 0 => Ok None
  | S count' =>
    let? ok := test i in
    if (ok : bool) then Ok (Some i) else pass test (S i) count'
  end.

Definition or_else (r : option nat) (k : res E (option nat)) : res E (option nat) :=
  match r with Some i => Ok (Some i) | None => k end.

(** The four passes over [search_start..=lines.len() - pattern.len()]. *)
Definition passes (lines pattern : list str) (search_start : nat) : res E (option nat) :=
  let count := S (length lines - length pattern) - search_start in
  let? r := pass (exact_at lines pattern) search_start count in
  or_else r (
  let? r := pass (fun i => lenient_at trim_end lines i 0 pattern) search_start count in
  or_else r (
  let? r := pass (fun i => lenient_at trim lines i 0 pattern) search_start count in
  or_else r (
  pass (fun i => lenient_at normalise lines i 0 pattern) search_start count))).

Definition seek_sequence (lines pattern : list str) (start : nat) (eof : bool)
    : res E (option nat) :=
  match pattern with
  | [] => Ok (Some start)
  | _ =>
    if length lines <? length pattern then Ok None
    else
      let search_start :=
        if eof && (length pattern <=? length lines)
        then length lines - length pattern else start in
      passes lines pattern search_start
  end.
End seek.

Example seek_examples :
  seek_sequence (E:=Empty_set) [lit "foo"; lit "bar"; lit "baz"] [lit "bar"; lit "baz"] 0 false = Ok (Some 1) /\
  seek_sequence (E:=Empty_set) [lit "foo   "; lit "bar "] [lit "foo"; lit "bar"] 0 false = Ok (Some 0) /\
  seek_sequence (E:=Empty_set) [lit "just one line"] [lit "too"; lit "many"] 0 false = Ok None.
Proof. vm_compute. done. Qed.

(** ** Specification *)

(** The passes, strictest first. *)
Definition tiers : list (str -> str) := [id; trim_end; trim; normalise].

(** The block at [i] equals the pattern up to [norm]. *)
Definition block_at (norm : str -> str) (lines pattern : list str) (i : nat) : Prop :=
  norm <$> take (length pattern) (drop i lines) = norm <$> pattern.

#[export] Instance block_at_dec norm lines pattern i :
  Decision (block_at norm lines pattern i).
Proof. unfold block_at. apply _. Defined.

Definition in_range (lines pattern : list str) (lo i : nat) : Prop :=
  lo <= i /\ i + length pattern <= length lines.

(** [i] is the first match of the strictest tier that matches at all. *)
Definition best_match (lines pattern : list str) (lo i : nat) : Prop :=
  exists k norm,
    tiers !! k = Some norm /\ in_range lines pattern lo i /\
    block_at norm lines pattern i /\
    (forall j, lo <= j < i -> ~ block_at norm lines pattern j) /\
    (forall k' norm' j, k' < k -> tiers !! k' = Some norm' ->
       in_range lines pattern lo j -> ~ block_at norm' lines pattern j).

Definition search_start (lines pattern : list str) (start : nat) (eof : bool) : nat :=
  if eof then length lines - length pattern else start.

(** ** Proof *)

Section proofs.
Context {E : Type}.
Implicit Types lines pattern : list str.

Lemma block_at_cons norm lines pat pattern i l :
  lines !! i = Some l ->
  block_at norm lines (pat :: pattern) i <->
  norm l = norm pat /\ block_at norm lines pattern (S i).
Proof.
  intros Hl. unfold block_at. rewrite (drop_S _ _ _ Hl).
  cbn [length firstn fmap list_fmap]. split; [by intros [= ??]|by intros [-> ->]].
Qed.

Lemma lenient_at_block norm lines i p pattern :
  i + p + length pattern <= length lines ->
  lenient_at (E:=E) norm lines i p pattern =
  Ok (bool_decide (block_at norm lines pattern (i + p))).
Proof.
  revert p. induction pattern as [|pat pattern IH]; intros p Hle; simpl in *; [done|].
  destruct (lookup_lt_is_Some_2 lines (i + p)) as [l Hl]; [lia|].
  rewrite Hl. cbn [from_opt res_bind].
  rewrite (bool_decide_ext _ _ (block_at_cons norm _ pat pattern _ _ Hl)).
  unfold str_eqb. destruct (decide (norm l = norm pat)) as [Hn|Hn].
  - rewrite (bool_decide_true (norm l = norm pat)) by done. cbn [negb].
    rewrite IH, Nat.add_succ_r by lia. f_equal. apply bool_decide_ext. naive_solver.
  - rewrite !bool_decide_false by naive_solver. done.
Qed.

Lemma exact_at_block lines i pattern :
  i + length pattern <= length lines ->
  exact_at (E:=E) lines pattern i = Ok (bool_decide (block_at id lines pattern i)).
Proof.
  intros Hle. unfold exact_at, slice. rewrite decide_True by lia.
  cbn [from_opt res_bind]. f_equal. apply bool_decide_ext. unfold block_at.
  replace (i + length pattern - i) with (length pattern) by lia.
  by rewrite !list_fmap_id.
Qed.

(** A pass whose test decides [P] finds the first index that satisfies it. *)
Lemma pass_first (test : nat -> res E bool) (P : nat -> Prop) `{!forall i, Decision (P i)} i count :
  (forall j, i <= j < i + count -> test j = Ok (bool_decide (P j))) ->
  exists r, pass test i count = Ok r /\
    match r with
    | Some j => i <= j < i + count /\ P j /\ forall j', i <= j' < j -> ~ P j'
    | None => forall j, i <= j < i + count -> ~ P j
    end.
Proof.
  revert i. induction count as [|count IH]; intros i Ht.
  - exists None. split; [done|]. lia.
  - cbn [pass]. rewrite Ht by lia. cbn [res_bind].
    case_bool_decide as Hp.
    + exists (Some i). split; [done|]. split_and!; [lia|lia|done|lia].
    + destruct (IH (S i)) as (r & Hr & Hpost); [intros; apply Ht; lia|].
      exists r. split; [done|]. destruct r as [j|].
      * destruct Hpost as (? & ? & Hmin). split_and!; [lia|lia|done|].
        intros j' ?. destruct (decide (j' = i)) as [->|]; [done|]. apply Hmin. lia.
      * intros j ?. destruct (decide (j = i)) as [->|]; [done|]. apply Hpost. lia.
Qed.
End proofs.

Lemma tier_weaken k norm lines pattern i :
  tiers !! k = Some norm -> block_at norm lines pattern i ->
  block_at normalise lines pattern i.
Proof.
  assert (forall f, (forall s, normalise s = f (norm s)) ->
    block_at norm lines pattern i -> block_at normalise lines pattern i) as Hcomp.
  { intros f Hf. unfold block_at. intros H%(f_equal (fmap f)).
    rewrite <- !list_fmap_compose in H.
    by rewrite !(list_fmap_ext normalise (f ∘ norm)) by (intros; apply Hf). }
  destruct k as [|[|[|[|k]]]]; [intros [= <-]..|done].
  - by apply (Hcomp normalise).
  - apply (Hcomp (fun s => normalise_char <$> trim_start s)). done.
  - apply (Hcomp (fmap normalise_char)). done.
  - done.
Qed.

(** What the passes promise. *)
Definition passes_post (lines pattern : list str) (lo : nat) (r : option nat) : Prop :=
  match r with
  | Some i => best_match lines pattern lo i
  | None => forall j, in_range lines pattern lo j -> ~ block_at normalise lines pattern j
  end.

(** One pass of the cascade, given that the earlier tiers failed. *)
Lemma cascade_step {E} (test : nat -> res E bool) k norm lines pattern lo rest :
  tiers !! k = Some norm -> length pattern <= length lines ->
  (forall i, in_range lines pattern lo i -> test i = Ok (bool_decide (block_at norm lines pattern i))) ->
  (forall k' norm' j, k' < k -> tiers !! k' = Some norm' ->
     in_range lines pattern lo j -> ~ block_at norm' lines pattern j) ->
  ((forall j, in_range lines pattern lo j -> ~ block_at norm lines pattern j) ->
   exists r, rest = Ok r /\ passes_post lines pattern lo r) ->
  exists r,
    res_bind (pass test lo (S (length lines - length pattern) - lo)) (fun o => or_else o rest) = Ok r /\
    passes_post lines pattern lo r.
Proof.
  intros Hk Hlen Ht Hprev Hrest.
  destruct (pass_first test (block_at norm lines pattern) lo
              (S (length lines - length pattern) - lo)) as (r & Hr & Hpost).
  { intros j Hj. apply Ht. unfold in_range. lia. }
  rewrite Hr. cbn [res_bind]. destruct r as [i|]; cbn [or_else].
  - exists (Some i). split; [done|]. destruct Hpost as (Hi & Hb & Hmin).
    exists k, norm. split_and!; try done; unfold in_range; lia.
  - apply Hrest. intros j [Hj1 Hj2]. apply Hpost. lia.
Qed.

Lemma passes_correct {E} lines pattern lo :
  length pattern <= length lines ->
  exists r, passes (E:=E) lines pattern lo = Ok r /\ passes_post lines pattern lo r.
Proof.
  intros Hlen. unfold passes.
  assert (forall norm i, in_range lines pattern lo i -> lenient_at (E:=E) norm lines i 0 pattern =
    Ok (bool_decide (block_at norm lines pattern i))) as Hlenient.
  { intros norm i [??]. rewrite lenient_at_block, Nat.add_0_r by lia. done. }
  apply (cascade_step _ 0 id); [done..| |lia|].
  { intros i [??]. by apply exact_at_block. }
  intros H0. apply (cascade_step _ 1 trim_end); [by auto..| |].
  { intros k' norm' j Hk Hn. destruct k' as [|k']; [|lia]. injection Hn as <-. apply H0. }
  intros H1. apply (cascade_step _ 2 trim); [by auto..| |].
  { intros k' norm' j Hk Hn.
    destruct k' as [|[|k']]; [injection Hn as <-..|lia]; [apply H0|apply H1]. }
  intros H2.
  destruct (cascade_step (E:=E) (fun i => lenient_at normalise lines i 0 pattern) 3 normalise
              lines pattern lo (Ok None)) as (r & Hr & Hpost); [by auto..| | |].
  { intros k' norm' j Hk Hn.
    destruct k' as [|[|[|k']]]; [injection Hn as <-..|lia]; [apply H0|apply H1|apply H2]. }
  { intros Hno. by exists None. }
  exists r. split; [|done]. destruct (pass _ _ _) as [[i|]| | |]; done.
Qed.

(** The facts clients need of a search. *)
Lemma seek_total {E} lines pattern start eof :
  exists r, seek_sequence (E:=E) lines pattern start eof = Ok r.
Proof.
  unfold seek_sequence. destruct pattern as [|p ps]; [by eexists|].
  destruct (_ <? _) eqn:Hlt; [by eexists|]. apply Nat.ltb_ge in Hlt.
  destruct (passes_correct (E:=E) lines (p :: ps)
    (if eof && (length (p :: ps) <=? length lines)
     then length lines - length (p :: ps) else start) Hlt) as (r & Hr & _).
  by exists r.
Qed.

Lemma seek_found {E} lines pattern start eof i :
  pattern <> [] -> seek_sequence (E:=E) lines pattern start eof = Ok (Some i) ->
  in_range lines pattern (search_start lines pattern start eof) i /\
  block_at normalise lines pattern i.
Proof.
  intros Hne. unfold seek_sequence. destruct pattern as [|p ps]; [done|].
  destruct (_ <? _) eqn:Hlt; [done|]. apply Nat.ltb_ge in Hlt.
  rewrite (proj2 (Nat.leb_le _ _)), andb_true_r by done.
  fold (search_start lines (p :: ps) start eof). intros Hp.
  destruct (passes_correct (E:=E) lines (p :: ps) (search_start lines (p :: ps) start eof) Hlt)
    as (r & Hr & Hpost).
  rewrite Hr in Hp. injection Hp as ->. destruct Hpost as (k & norm & Hk & Hi & Hb & _).
  split; [done|]. by eapply tier_weaken.
Qed.

(** What a search returns, on every branch: the start index for an empty
    pattern, otherwise the best match of the search range, and [None] only when
    no pass matches there. *)
Definition seek_post (lines pattern : list str) (start : nat) (eof : bool) (r : option nat) : Prop :=
  match pattern, r with
  | [], _ => r = Some start
  | _, Some i => best_match lines pattern (search_start lines pattern start eof) i
  | _, None => forall k norm i, tiers !! k = Some norm ->
               in_range lines pattern (search_start lines pattern start eof) i ->
               ~ block_at norm lines pattern i
  end.

Lemma seek_returns {E} (lines pattern : list str) (start : nat) (eof : bool) :
  exists r, seek_sequence (E:=E) lines pattern start eof = Ok r /\
    seek_post lines pattern start eof r.
Proof.
  destruct pattern as [|p0 ps]; [by exists (Some start)|]. unfold seek_sequence, seek_post.
  destruct (_ <? _) eqn:Hlt.
  { exists None. split; [done|]. apply Nat.ltb_lt in Hlt. unfold in_range. lia. }
  apply Nat.ltb_ge in Hlt. rewrite (proj2 (Nat.leb_le _ _)), andb_true_r by done.
  fold (search_start lines (p0 :: ps) start eof).
  destruct (passes_correct (E:=E) lines (p0 :: ps) (search_start lines (p0 :: ps) start eof) Hlt)
    as (r & Hr & Hpost).
  exists r. split; [done|]. destruct r; [done|].
  intros k norm i Hk Hi Hb. by eapply Hpost, tier_weaken.
Qed.

Lemma seek_at_end {E} (lines pattern : list str) (start k : nat) norm :
  pattern <> [] -> tiers !! k = Some norm -> length pattern <= length lines ->
  block_at norm lines pattern (length lines - length pattern) ->
  seek_sequence (E:=E) lines pattern start true = Ok (Some (length lines - length pattern)).
Proof.
  intros Hne Hk Hlen Hb. destruct (seek_returns (E:=E) lines pattern start true) as ([i|] & -> & Hp);
    destruct pattern as [|p ps]; try done; unfold seek_post, search_start in Hp.
  - destruct Hp as (_ & _ & _ & [Hlo Hhi] & _). do 2 f_equal. lia.
  - exfalso. eapply Hp; [done| |done]. unfold in_range. lia.
Qed.

(** C5: [seek_sequence] never indexes out of range.  Searching from [start], it
    returns the start index for an empty pattern; otherwise the first index of
    the strictest of the four passes (exact, trailing whitespace ignored,
    surrounding whitespace ignored, typographic characters normalised) that
    matches anywhere from [start] on; and [None] only when no pass matches, in
    particular when the pattern is longer than the file.  With [eof] set it
    returns as well, and where a pass matches the end of the file it is the
    end that is returned; that it does not fall back to [start] where none
    does is [seek_eof_only_at_end]. *)
Theorem seek_sequence_correct {E} (lines pattern : list str) (start : nat) :
  (exists r, seek_sequence (E:=E) lines pattern start false = Ok r /\
     match pattern, r with
     | [], _ => r = Some start
     | _, Some i => best_match lines pattern start i
     | _, None => forall k norm i, tiers !! k = Some norm -> in_range lines pattern start i ->
                  ~ block_at norm lines pattern i
     end) /\
  (exists r, seek_sequence (E:=E) lines pattern start true = Ok r) /\
  (forall k norm, pattern <> [] -> tiers !! k = Some norm -> length pattern <= length lines ->
     block_at norm lines pattern (length lines - length pattern) ->
     seek_sequence (E:=E) lines pattern start true = Ok (Some (length lines - length pattern))).
Proof.
  split_and!; [apply seek_returns|apply seek_total|]. intros k norm. apply seek_at_end.
Qed.

Lemma seek_sequence_correct_witness :
  seek_sequence (E:=Empty_set) [lit "b"; lit "a"; lit "b "] [lit "b"] 0 true = Ok (Some 2).
Proof.
  by apply (seek_sequence_correct (E:=Empty_set) [lit "b"; lit "a"; lit "b "] [lit "b"] 0)
    with (k := 1) (norm := trim_end); vm_compute; lia || done.
Defined.

(** With [eof] set, a block is only ever found flush with the end of the
    file; the search never falls back to [start], contrary to what the
    function's comment announces. *)
Theorem seek_eof_only_at_end {E} (lines pattern : list str) (start i : nat) :
  pattern <> [] ->
  seek_sequence (E:=E) lines pattern start true = Ok (Some i) ->
  i + length pattern = length lines.
Proof.
  intros Hne Hs. unfold seek_sequence in Hs.
  destruct pattern as [|p0 pattern0]; [done|]. remember (p0 :: pattern0) as pattern.
  destruct (length lines <? length pattern) eqn:Hlt; [done|].
  apply Nat.ltb_ge in Hlt. rewrite (proj2 (Nat.leb_le _ _)) in Hs by done.
  cbn [andb] in Hs. unfold passes in Hs.
  replace (S (length lines - length pattern) - (length lines - length pattern)) with 1 in Hs by lia.
  cbn [pass] in Hs.
  repeat match type of Hs with
    | context [res_bind (res_bind ?m _) _] =>
        destruct m as [[]| | |]; cbn [res_bind or_else] in Hs; try discriminate
    | context [res_bind ?m _] =>
        destruct m as [[]| | |]; cbn [res_bind or_else] in Hs; try discriminate
    end; injection Hs as <-; lia.
Qed.

Lemma seek_eof_only_at_end_witness :
  seek_sequence (E:=Empty_set) [lit "a"; lit "b"] [lit "b"] 0 true = Ok (Some 1) /\
  1 + length [lit "b"] = length [lit "a"; lit "b"].
Proof.
  split; [by vm_compute|].
  by apply (seek_eof_only_at_end (E:=Empty_set) [lit "a"; lit "b"] [lit "b"] 0 1); vm_compute.
Defined.

Example seek_eof_no_fallback :
  seek_sequence (E:=Empty_set) [lit "a"; lit "b"] [lit "a"] 0 false = Ok (Some 0) /\
  seek_sequence (E:=Empty_set) [lit "a"; lit "b"] [lit "a"] 0 true = Ok None.
Proof. by vm_compute. Qed.
