(* ===== verification/PatchApply.v ===== *)
(** * Applying update chunks to a file's text ([apply-patch/src/lib.rs])

    [compute_replacements] locates every chunk in the original lines,
    [apply_replacements] edits the lines from the last replacement to the
    first, and [derive_new_contents] does both on a file's text. *)

From S2P Require Export PatchParser SeekSequence.

Inductive ErrorKind := NotFound | InvalidInput | InvalidData | OtherKind.

Record io_error := mk_io_error { kind : ErrorKind; io_message : str }.

Record IoError := mk_IoError { context : str; source : io_error }.

Inductive ApplyPatchError :=
| PatchParseError (e : ParseError)
| PatchIoError (e : IoError)
| ComputeReplacements (message : str)
| ImplicitInvocation.

(** [(start_index, old_len, new_lines)] *)
Notation replacement := (nat * nat * list str)%type (only parsing).

Definition last_is_empty (ls : list str) : bool :=
  match last ls with Some [] => true | _ => false end.

(** [&v[..v.len() - 1]] *)
Definition without_last {A} (l : list A) : list A := take (length l - 1) l.

Definition context_not_found (ctx_line path : str) : str :=
  lit "Failed to find context '" ++ ctx_line ++ lit "' in " ++ path.
Definition lines_not_found (path : str) (old : list str) : str :=
  lit "Failed to find expected lines in " ++ path ++ lit ":" ++ [NL] ++ join [NL] old.

Definition insertion_index (original_lines : list str) : nat :=
  if last_is_empty original_lines then length original_lines - 1
  else length original_lines.

(** The search for the chunk's change context. *)
Definition seek_context (original_lines : list str) (path : str)
    (chunk : UpdateFileChunk) (line_index : nat) : res ApplyPatchError nat :=
  match change_context chunk with
  | None => Ok line_index
  | Some ctx_line =>
    let? r := seek_sequence original_lines [ctx_line] line_index false in
    match r with
    | Some idx => Ok (idx + 1)
    | None => Err (ComputeReplacements (context_not_found ctx_line path))
    end
  end.

(** The search for the chunk's old lines, retried without a trailing empty
    line; yields the replacement and the next line index. *)
Definition seek_old_lines (original_lines : list str) (path : str)
    (chunk : UpdateFileChunk) (line_index : nat)
    : res ApplyPatchError (replacement * nat) :=
  let pattern := old_lines chunk in
  let new_slice := new_lines chunk in
  let? found := seek_sequence original_lines pattern line_index (is_end_of_file chunk) in
  let? retried :=
    (if (match found with None => true | Some _ => false end) && last_is_empty pattern then
       let pattern := without_last pattern in
       let new_slice := if last_is_empty new_slice then without_last new_slice else new_slice in
       let? found := seek_sequence original_lines pattern line_index (is_end_of_file chunk) in
       Ok (found, pattern, new_slice)
     else Ok (found, pattern, new_slice)) in
  let '(found, pattern, new_slice) := retried in
  match found with
  | Some start_idx =>
    Ok ((start_idx, length pattern, new_slice), start_idx + length pattern)
  | None => Err (ComputeReplacements (lines_not_found path (old_lines chunk)))
  end.

(** The [for chunk in chunks] loop. *)
Fixpoint compute_loop (original_lines : list str) (path : str)
    (chunks : list UpdateFileChunk) (line_index : nat) (replacements : list replacement)
    : res ApplyPatchError (list replacement) :=
  match chunks with
  | [] => Ok replacements
  | chunk :: rest =>
    let? line_index := seek_context original_lines path chunk line_index in
    match old_lines chunk with
    | [] =>
      compute_loop original_lines path rest line_index
        (replacements ++ [(insertion_index original_lines, 0, new_lines chunk)])
    | _ =>
      let? r := seek_old_lines original_lines path chunk line_index in
      let '(replacement, line_index) := r in
      compute_loop original_lines path rest line_index (replacements ++ [replacement])
    end
  end.

(** [sort_by_key(|(index, _, _)| *index)]: a stable sort. *)
Fixpoint insert_by_index (x : replacement) (l : list replacement) : list replacement :=
  match l with
  | [] => [x]
  | y :: l' => if x.1.1 <=? y.1.1 then x :: l else y :: insert_by_index x l'
  end.

Definition sort_by_index (l : list replacement) : list replacement :=
  foldr insert_by_index [] l.

Definition compute_replacements (original_lines : list str) (path : str)
    (chunks : list UpdateFileChunk) : res ApplyPatchError (list replacement) :=
  let? replacements := compute_loop original_lines path chunks 0 [] in
  Ok (sort_by_index replacements).

(** [for _ in 0..old_len { if start_idx < lines.len() { lines.remove(start_idx); } }] *)
Fixpoint remove_loop (n : nat) (lines : list str) (start_idx : nat) : option (list str) :=
  match n with
  | 0 => Some lines
  | S n' =>
    if start_idx <? length lines
    then lines' ← vec_remove lines start_idx; remove_loop n' lines' start_idx
    else remove_loop n' lines start_idx
  end.

(** [for (offset, new_line) in new_segment.iter().enumerate() { lines.insert(..) }] *)
Fixpoint insert_loop (segment : list str) (lines : list str) (start_idx offset : nat)
    : option (list str) :=
  match segment with
  | [] => Some lines
  | new_line :: rest =>
    lines' ← vec_insert lines (start_idx + offset) new_line;
    insert_loop rest lines' start_idx (S offset)
  end.

Definition apply_one (lines : list str) (r : replacement) : option (list str) :=
  let '(start_idx, old_len, new_segment) := r in
  lines ← remove_loop old_len lines start_idx;
  insert_loop new_segment lines start_idx 0.

(** The loop over [replacements.iter().rev()]; [None] is a panic. *)
Definition apply_replacements (lines : list str) (replacements : list replacement)
    : option (list str) :=
  foldl (fun acc r => acc ≫= (fun l => apply_one l r)) (Some lines) (reverse replacements).

Definition original_lines_of (contents : str) : list str :=
  let ls := split NL contents in
  if last_is_empty ls then without_last ls else ls.

(** The text part of [derive_new_contents_from_chunks]. *)
Definition derive_new_contents (original_contents : str) (path : str)
    (chunks : list UpdateFileChunk) : res ApplyPatchError str :=
  let original_lines := original_lines_of original_contents in
  let? replacements := compute_replacements original_lines path chunks in
  let? new_lines := from_opt (apply_replacements original_lines replacements) in
  let new_lines := if last_is_empty new_lines then new_lines else new_lines ++ [[]] in
  Ok (join [NL] new_lines).

(** ** Evaluation *)

Definition text (ls : list string) : str := join [NL] ((lit <$> ls) ++ [[]]).

Example derive_sample :
  derive_new_contents (text ["foo"; "bar"; "baz"]%string) (lit "f")
    [mk_chunk None [lit "bar"] [lit "BAR"; lit "new"] false;
     mk_chunk None [] [lit "tail"] false] =
  Ok (text ["foo"; "BAR"; "new"; "baz"; "tail"]%string).
Proof. vm_compute. reflexivity. Qed.

(** ** One replacement is a splice *)

Definition splice (lines : list str) (r : replacement) : list str :=
  let '(s, n, seg) := r in take s lines ++ seg ++ drop (s + n) lines.

Lemma remove_loop_splice n lines s :
  remove_loop n lines s = Some (take s lines ++ drop (s + n) lines).
Proof.
  revert lines. induction n as [|n IH]; intros lines; simpl.
  - by rewrite Nat.add_0_r, take_drop.
  - destruct (s <? length lines) eqn:Hlt.
    + apply Nat.ltb_lt in Hlt. unfold vec_remove. rewrite decide_True by done. simpl.
      rewrite IH. f_equal.
      rewrite take_app_le, take_take, Nat.min_id by (rewrite length_take; lia).
      rewrite drop_app_ge by (rewrite length_take; lia).
      rewrite length_take, drop_drop. do 2 f_equal. lia.
    + apply Nat.ltb_ge in Hlt. rewrite IH. by rewrite !drop_ge by lia.
Qed.

Lemma insert_loop_splice seg lines s k :
  s + k <= length lines ->
  insert_loop seg lines s k = Some (take (s + k) lines ++ seg ++ drop (s + k) lines).
Proof.
  revert lines k. induction seg as [|x seg IH]; intros lines k Hle; simpl.
  - by rewrite take_drop.
  - unfold vec_insert. rewrite decide_True by done. simpl. rewrite IH.
    + rewrite Nat.add_succ_r. f_equal.
      rewrite take_app_ge, drop_app_ge by (rewrite length_take; lia).
      rewrite length_take, Nat.min_l by done.
      replace (S (s + k) - (s + k)) with 1 by lia. simpl. by rewrite drop_0, <- app_assoc.
    + rewrite length_app, length_take. simpl. rewrite length_drop. lia.
Qed.

Lemma apply_one_splice lines r :
  r.1.1 <= length lines -> apply_one lines r = Some (splice lines r).
Proof.
  destruct r as [[s n] seg]. simpl. intros Hle. rewrite remove_loop_splice. simpl.
  rewrite insert_loop_splice by (rewrite length_app, length_take; lia).
  rewrite Nat.add_0_r. f_equal. rewrite take_app_le, drop_app_ge by (rewrite length_take; lia).
  rewrite length_take, take_take, Nat.min_id, Nat.min_l, Nat.sub_diag by done.
  by rewrite drop_0.
Qed.

Lemma splice_length lines r : r.1.1 <= length lines -> r.1.1 <= length (splice lines r).
Proof.
  destruct r as [[s n] seg]. simpl. intros. rewrite length_app, length_take. lia.
Qed.

Lemma apply_replacements_cons lines r rs :
  apply_replacements lines (r :: rs) =
  apply_replacements lines rs ≫= (fun l => apply_one l r).
Proof. unfold apply_replacements. by rewrite reverse_cons, foldl_app. Qed.

(** ** Separated replacements weave the new lines between the kept ones *)

Definition before (r1 r2 : replacement) : Prop := r1.1.1 + r1.1.2 <= r2.1.1.

Fixpoint separated (pos : nat) (rs : list replacement) (len : nat) : Prop :=
  match rs with
  | [] => True
  | (s, n, _) :: rs' => pos <= s /\ s + n <= len /\ separated (s + n) rs' len
  end.

(** The reference result: [lines] are the original lines from position [pos]
    on; between two replacements they are copied unchanged. *)
Fixpoint weave (pos : nat) (lines : list str) (rs : list replacement) : list str :=
  match rs with
  | [] => lines
  | (s, n, seg) :: rs' =>
    take (s - pos) lines ++ seg ++ weave (s + n) (drop (s + n - pos) lines) rs'
  end.

Lemma weave_prefix lines rs p q :
  p <= q -> separated q rs (length lines) ->
  weave p (drop p lines) rs = take (q - p) (drop p lines) ++ weave q (drop q lines) rs.
Proof.
  intros Hpq. destruct rs as [|[[s n] seg] rs]; simpl.
  - intros _. replace (drop q lines) with (drop (q - p) (drop p lines))
      by (rewrite drop_drop; f_equal; lia).
    by rewrite take_drop.
  - intros (Hq & Hlen & _). rewrite !drop_drop.
    replace (p + (s + n - p)) with (s + n) by lia.
    replace (q + (s + n - q)) with (s + n) by lia.
    rewrite (app_assoc (take (q - p) _)). f_equal.
    replace (drop q lines) with (drop (q - p) (drop p lines))
      by (rewrite drop_drop; f_equal; lia).
    rewrite take_take_drop. f_equal. lia.
Qed.

Lemma apply_replacements_weave lines rs :
  separated 0 rs (length lines) -> apply_replacements lines rs = Some (weave 0 lines rs).
Proof.
  enough (forall p, separated p rs (length lines) ->
    apply_replacements lines rs = Some (weave 0 lines rs)) as H by apply H.
  induction rs as [|[[s n] seg] rs IH]; intros p; [done|].
  simpl separated. intros (Hp & Hlen & Hsep). rewrite apply_replacements_cons, (IH _ Hsep).
  cbn [mbind option_bind].
  pose proof (weave_prefix lines rs 0 (s + n)) as Hw. rewrite drop_0, Nat.sub_0_r in Hw.
  rewrite Hw by (done || lia).
  rewrite apply_one_splice by (simpl; rewrite length_app, length_take; lia).
  f_equal. simpl. rewrite !Nat.sub_0_r.
  rewrite take_app_le, drop_app_ge by (rewrite length_take; lia).
  rewrite take_take, Nat.min_l, length_take, Nat.min_l, Nat.sub_diag by lia.
  by rewrite drop_0.
Qed.

(** ** No replacement list in range makes the edit panic *)

Definition start_sorted (rs : list replacement) : Prop :=
  StronglySorted (fun r1 r2 => r1.1.1 <= r2.1.1) rs.

Lemma apply_replacements_no_panic lines rs :
  start_sorted rs -> Forall (fun r => r.1.1 <= length lines) rs ->
  exists out, apply_replacements lines rs = Some out /\
    Forall (fun r => r.1.1 <= length out) (take 1 rs) /\
    (rs = [] -> out = lines).
Proof.
  induction 1 as [|r rs Hs IH Hr]; intros Hall; [by exists lines|].
  inversion Hall as [|? ? Hb Hbs]; subst.
  destruct (IH Hbs) as (out & Hout & Hhd & Hnil).
  assert (r.1.1 <= length out) as Hle.
  { destruct rs as [|r' rs]; [by rewrite Hnil|]. inversion Hhd; subst.
    inversion Hr; subst. lia. }
  exists (splice out r). rewrite apply_replacements_cons, Hout. cbn [mbind option_bind].
  split_and!; [by apply apply_one_splice| |done].
  simpl. constructor; [by apply splice_length|constructor].
Qed.

(** ** Sorting by start index *)

Lemma insert_by_index_perm x l : insert_by_index x l ≡ₚ x :: l.
Proof.
  induction l as [|y l IH]; simpl; [done|]. case_match; [done|].
  rewrite IH. by constructor.
Qed.

Lemma sort_by_index_perm l : sort_by_index l ≡ₚ l.
Proof.
  induction l as [|x l IH]; simpl; [done|]. rewrite insert_by_index_perm. by f_equiv.
Qed.

Lemma insert_by_index_sorted x l : start_sorted l -> start_sorted (insert_by_index x l).
Proof.
  induction 1 as [|y l Hl IH Hy]; simpl; [by repeat constructor|].
  destruct (_ <=? _) eqn:Hle.
  - apply Nat.leb_le in Hle. constructor; [by constructor|]. constructor; [done|].
    eapply Forall_impl; [done|]. simpl. lia.
  - apply Nat.leb_gt in Hle. constructor; [done|].
    rewrite insert_by_index_perm. constructor; [lia|done].
Qed.

Lemma sort_by_index_sorted l : start_sorted (sort_by_index l).
Proof. induction l; simpl; [constructor|by apply insert_by_index_sorted]. Qed.

(** ** What one chunk contributes *)

(** The block [pattern] is found at [s], searching from line [li]: at the first
    position of the strictest comparison that matches at all, flush with the
    end of the file if [eof] is set; an empty block is found at once. *)
Definition found_at (original pattern : list str) (li : nat) (eof : bool) (s : nat) : Prop :=
  match pattern with
  | [] => s = li
  | _ => best_match original pattern (search_start original pattern li eof) s
  end.

(** No comparison finds the block. *)
Definition nowhere (original pattern : list str) (li : nat) (eof : bool) : Prop :=
  pattern <> [] /\
  forall k norm i, tiers !! k = Some norm ->
    in_range original pattern (search_start original pattern li eof) i ->
    ~ block_at norm original pattern i.

(** The change context of a chunk, if it has one, is found from line [li] on,
    and the chunk goes on after it. *)
Definition context_at (original : list str) (li : nat) (chunk : UpdateFileChunk) (li' : nat) : Prop :=
  match change_context chunk with
  | None => li' = li
  | Some ctx => exists i, found_at original [ctx] li false i /\ li' = S i
  end.

(** The place of a chunk when its context is passed: a chunk without old lines
    inserts at the end of the file, before a final empty line; otherwise its
    old lines are found and replaced; where they are found nowhere and end in
    an empty line, which stands for the final newline, they are found without
    it, and it is not inserted either. *)
Inductive places (original : list str) (li : nat) (chunk : UpdateFileChunk) : replacement -> nat -> Prop :=
| places_insertion i :
    old_lines chunk = [] ->
    (last original = Some [] /\ S i = length original) \/
    (last original <> Some [] /\ i = length original) ->
    places original li chunk (i, 0, new_lines chunk) li
| places_block s :
    old_lines chunk <> [] ->
    found_at original (old_lines chunk) li (is_end_of_file chunk) s ->
    places original li chunk (s, length (old_lines chunk), new_lines chunk)
      (s + length (old_lines chunk))
| places_without_newline s old new :
    old_lines chunk = old ++ [[]] ->
    nowhere original (old_lines chunk) li (is_end_of_file chunk) ->
    found_at original old li (is_end_of_file chunk) s ->
    new_lines chunk = new ++ [[]] \/ (last (new_lines chunk) <> Some [] /\ new = new_lines chunk) ->
    places original li chunk (s, length old, new) (s + length old).

(** The chunks of an update, each searched for after the one before it. *)
Inductive placed (original : list str) : nat -> list UpdateFileChunk -> list replacement -> Prop :=
| placed_nil li : placed original li [] []
| placed_cons li li1 li2 chunk chunks r rs :
    context_at original li chunk li1 -> places original li1 chunk r li2 ->
    placed original li2 chunks rs -> placed original li (chunk :: chunks) (r :: rs).

Lemma last_is_empty_spec ls : last_is_empty ls = true <-> last ls = Some [].
Proof. unfold last_is_empty. repeat case_match; naive_solver. Qed.

Lemma last_is_empty_split ls : last_is_empty ls = true -> ls = without_last ls ++ [[]].
Proof.
  intros H%last_is_empty_spec. destruct ls as [|x ls] using rev_ind; [done|].
  rewrite last_snoc in H. injection H as ->. unfold without_last.
  rewrite length_app. simpl. rewrite Nat.add_sub. by rewrite take_app_length.
Qed.

Lemma insertion_index_le original : insertion_index original <= length original.
Proof. unfold insertion_index. case_match; lia. Qed.

Lemma seek_Some {E} original pattern li eof i :
  seek_sequence (E:=E) original pattern li eof = Ok (Some i) -> found_at original pattern li eof i.
Proof.
  destruct (seek_returns (E:=E) original pattern li eof) as (r & -> & Hp). intros [= ->].
  destruct pattern; [by injection Hp|done].
Qed.

Lemma seek_None {E} original pattern li eof :
  seek_sequence (E:=E) original pattern li eof = Ok None -> nowhere original pattern li eof.
Proof.
  destruct (seek_returns (E:=E) original pattern li eof) as (r & -> & Hp). intros [= ->].
  by destruct pattern.
Qed.

Lemma found_at_range original pattern li eof s :
  li <= length original -> found_at original pattern li eof s ->
  s + length pattern <= length original /\ (eof = false -> li <= s).
Proof.
  unfold found_at. destruct pattern as [|p ps]; [intros ? ->; simpl; lia|].
  intros _ (k & norm & _ & [Hlo Hhi] & _). split; [done|]. intros ->. done.
Qed.

Lemma seek_context_ok original path chunk li li' :
  li <= length original -> seek_context original path chunk li = Ok li' ->
  context_at original li chunk li' /\ li <= li' <= length original.
Proof.
  unfold seek_context, context_at. intros Hli.
  destruct (change_context chunk) as [ctx|]; [|by intros [= <-]].
  intros H. apply bind_Ok in H as ([idx|] & Hs & [= <-]). apply seek_Some in Hs.
  destruct (found_at_range _ _ _ _ _ Hli Hs) as [Hhi Hlo]. simpl in Hhi. specialize (Hlo eq_refl).
  split; [|lia]. exists idx. split; [done|lia].
Qed.

Lemma seek_context_returns original path chunk li :
  returns (seek_context original path chunk li).
Proof.
  unfold seek_context. case_match; [|done].
  destruct (seek_total (E:=ApplyPatchError) original [l] li false) as [[idx|] ->]; done.
Qed.

Lemma seek_old_lines_returns original path chunk li :
  returns (seek_old_lines original path chunk li).
Proof.
  unfold seek_old_lines.
  destruct (seek_total (E:=ApplyPatchError) original (old_lines chunk) li (is_end_of_file chunk))
    as [[i|] ->]; [done|]. simpl.
  destruct (last_is_empty (old_lines chunk)); [|done].
  destruct (seek_total (E:=ApplyPatchError) original (without_last (old_lines chunk)) li
    (is_end_of_file chunk)) as [[i|] ->]; done.
Qed.

Lemma places_range original li chunk r li' :
  li <= length original -> places original li chunk r li' ->
  r.1.1 + r.1.2 <= length original /\ li' <= length original /\
  (old_lines chunk <> [] -> li' = r.1.1 + r.1.2) /\
  (old_lines chunk = [] -> li' = li /\ r.1.2 = 0 /\
     (last original <> Some [] -> r.1.1 = length original)) /\
  (is_end_of_file chunk = false -> old_lines chunk <> [] -> li <= r.1.1).
Proof.
  intros Hli [i Ho Hi|s Ho Hf|s old new Ho _ Hf _]; simpl.
  - destruct Hi as [[? ?]|[? ?]]; split_and!; try done; lia.
  - destruct (found_at_range _ _ _ _ _ Hli Hf). naive_solver.
  - destruct (found_at_range _ _ _ _ _ Hli Hf).
    assert (old_lines chunk <> []) by (rewrite Ho; by destruct old). naive_solver.
Qed.

Lemma trimmed_new (ls : list str) :
  ls = (if last_is_empty ls then without_last ls else ls) ++ [[]] \/
  (last ls <> Some [] /\ (if last_is_empty ls then without_last ls else ls) = ls).
Proof.
  destruct (last_is_empty ls) eqn:E; [left; by apply last_is_empty_split|].
  right. split; [|done]. rewrite <- last_is_empty_spec. congruence.
Qed.

Lemma seek_old_lines_ok original path chunk li r li' :
  old_lines chunk <> [] -> seek_old_lines original path chunk li = Ok (r, li') ->
  places original li chunk r li'.
Proof.
  intros Hne H. unfold seek_old_lines in H. apply bind_Ok in H as ([i|] & Hs & H); simpl in H.
  - injection H as <- <-. apply places_block; [done|]. by eapply seek_Some.
  - destruct (last_is_empty (old_lines chunk)) eqn:Hl; [|done].
    apply last_is_empty_split in Hl. apply bind_Ok in H as ([[o p] ns] & H1 & H2).
    apply bind_Ok in H1 as ([i|] & Hs' & [= <- <- <-]); [|done]. injection H2 as <- <-.
    apply seek_None in Hs. apply seek_Some in Hs'.
    eapply places_without_newline; [done..|]. apply trimmed_new.
Qed.

Lemma insertion_index_spec original :
  (last original = Some [] /\ S (insertion_index original) = length original) \/
  (last original <> Some [] /\ insertion_index original = length original).
Proof.
  unfold insertion_index. destruct (last_is_empty original) eqn:E.
  - left. pose proof E as E'. apply last_is_empty_spec in E. split; [done|].
    destruct original; [done|]. simpl. lia.
  - right. split; [|done]. rewrite <- last_is_empty_spec. congruence.
Qed.

(** ** All chunks *)

(** In file order, every replacement lies before the later ones, except the
    insertions at the end of the file. *)
Fixpoint ordered (len : nat) (rs : list replacement) : Prop :=
  match rs with
  | [] => True
  | r :: rs' => (Forall (before r) rs' \/ r.1.1 = len /\ r.1.2 = 0) /\ ordered len rs'
  end.

(** No chunk is anchored at the end of the file, and no chunk inserts before
    a final empty line. *)
Definition plain_chunks (original : list str) (chunks : list UpdateFileChunk) : Prop :=
  Forall (fun c => is_end_of_file c = false /\
                   (last original = Some [] -> old_lines c <> [])) chunks.

Lemma compute_loop_returns original path chunks li acc :
  returns (compute_loop original path chunks li acc).
Proof.
  revert li acc. induction chunks as [|c cs IH]; intros li acc; [done|]. cbn [compute_loop].
  apply returns_bind; [apply seek_context_returns|]. intros li1 _.
  destruct (old_lines c); [apply IH|].
  apply returns_bind; [apply seek_old_lines_returns|]. intros [r li2] _. apply IH.
Qed.

Lemma compute_loop_ok original path chunks li acc rs :
  li <= length original -> compute_loop original path chunks li acc = Ok rs ->
  exists new, rs = acc ++ new /\ placed original li chunks new.
Proof.
  revert li acc. induction chunks as [|c cs IH]; intros li acc Hli H; cbn [compute_loop] in H.
  { injection H as <-. exists []. rewrite app_nil_r. split; constructor. }
  apply bind_Ok in H as (li1 & Hctx & H). apply seek_context_ok in Hctx as [Hctx Hli1]; [|done].
  destruct (old_lines c) as [|o os] eqn:Ho.
  - apply IH in H as (new & -> & Hp); [|lia]. rewrite <- app_assoc.
    eexists (_ :: new). split; [done|]. econstructor; [done| |done].
    constructor; [done|apply insertion_index_spec].
  - apply bind_Ok in H as ([r li2] & Hold & H).
    apply seek_old_lines_ok in Hold; [|congruence].
    destruct (places_range _ _ _ _ _ (proj2 Hli1) Hold) as (_ & Hle & _).
    apply IH in H as (new & -> & Hp); [|done]. rewrite <- app_assoc.
    exists (r :: new). split; [done|]. by econstructor.
Qed.

Lemma context_at_range original li chunk li' :
  li <= length original -> context_at original li chunk li' -> li <= li' <= length original.
Proof.
  unfold context_at. destruct (change_context chunk) as [ctx|]; [|intros ? ->; lia].
  intros Hli (i & Hf & ->). destruct (found_at_range _ _ _ _ _ Hli Hf) as [Hhi Hlo].
  specialize (Hlo eq_refl). simpl in Hhi. lia.
Qed.

Lemma placed_bounds original li chunks rs :
  li <= length original -> placed original li chunks rs ->
  Forall (fun r => r.1.1 + r.1.2 <= length original) rs.
Proof.
  intros Hli Hp. induction Hp as [|li li1 li2 c cs r rs Hc Hr _ IH]; constructor;
    destruct (context_at_range _ _ _ _ Hli Hc) as [_ H1];
    destruct (places_range _ _ _ _ _ H1 Hr) as (? & ? & _); auto.
Qed.

Lemma placed_ordered original li chunks rs :
  li <= length original -> placed original li chunks rs -> plain_chunks original chunks ->
  ordered (length original) rs /\ Forall (fun r => li <= r.1.1) rs.
Proof.
  intros Hli Hp. induction Hp as [|li li1 li2 c cs r rs Hc Hr _ IH]; intros Hpl;
    [split; [exact I|constructor]|].
  inversion Hpl as [|? ? [Heof Hlast] Hpl']; subst.
  destruct (context_at_range _ _ _ _ Hli Hc) as [Hle H1].
  destruct (places_range _ _ _ _ _ H1 Hr) as (Hb & H2 & Hnext & Hins & Hlow).
  destruct (IH H2 Hpl') as [Hord Hge]. destruct (decide (old_lines c = [])) as [Ho|Ho].
  - destruct (Hins Ho) as (-> & Hn & Hend).
    assert (r.1.1 = length original) as He by naive_solver.
    split; [split; [by right|done]|]. constructor; [lia|].
    eapply Forall_impl; [done|]. simpl. lia.
  - specialize (Hnext Ho). specialize (Hlow Heof Ho). subst li2.
    split; [split; [by left|done]|]. constructor; [lia|].
    eapply Forall_impl; [done|]. simpl. lia.
Qed.

Lemma separated_raise p q rs len :
  separated p rs len -> Forall (fun r => q <= r.1.1) (take 1 rs) -> separated q rs len.
Proof. destruct rs as [|[[s n] seg] rs]; simpl; [done|]. intros ? H. inversion H. naive_solver. Qed.

Lemma insert_front x l : Forall (before x) l -> insert_by_index x l = x :: l.
Proof.
  destruct l as [|y l]; [done|]. intros H. inversion H as [|? ? Hb _]; subst. simpl.
  unfold before in Hb. by rewrite (proj2 (Nat.leb_le _ _)) by lia.
Qed.

Lemma insert_at_end x l p len :
  x.1.1 = len -> x.1.2 = 0 -> p <= len -> separated p l len ->
  separated p (insert_by_index x l) len.
Proof.
  destruct x as [[s n] seg]. simpl. intros -> -> . revert p.
  induction l as [|[[s' n'] seg'] l IH]; intros p Hp; simpl; [lia|].
  intros (H1 & H2 & H3). destruct (_ <=? _) eqn:Hle; simpl.
  - apply Nat.leb_le in Hle. split_and!; try lia. done.
  - split_and!; [lia|lia|]. apply IH; [lia|done].
Qed.

Lemma sort_separated rs len :
  Forall (fun r => r.1.1 + r.1.2 <= len) rs -> ordered len rs ->
  separated 0 (sort_by_index rs) len.
Proof.
  induction rs as [|x rs IH]; [done|]. intros Hb [Hx Hord].
  inversion Hb as [|? ? Hbx Hbrs]; subst. specialize (IH Hbrs Hord).
  cbn [sort_by_index foldr]. fold (sort_by_index rs). destruct Hx as [Hx|[Hs Hn]].
  - assert (Forall (before x) (sort_by_index rs)) as Hx' by (by rewrite sort_by_index_perm).
    rewrite insert_front by done. destruct x as [[s n] seg]. simpl in *.
    split_and!; [lia|done|]. eapply separated_raise; [done|].
    by apply Forall_take.
  - apply insert_at_end; [done|done|lia|done].
Qed.


Definition witness_lines : list str :=
  lit <$> ["fn a"; "  x"; "fn b"; "  x"; "end"]%string.
Definition witness_chunks : list UpdateFileChunk :=
  [mk_chunk None [] [lit "tail"] false;
   mk_chunk (Some (lit "fn b")) [lit "  x"] [lit "  y"] false].


(** The engine never panics. *)
Lemma derive_new_contents_returns (contents path : str) (chunks : list UpdateFileChunk) :
  returns (derive_new_contents contents path chunks).
Proof.
  unfold derive_new_contents, compute_replacements.
  pose proof (compute_loop_returns (original_lines_of contents) path chunks 0 []) as Hret.
  destruct (compute_loop (original_lines_of contents) path chunks 0 []) as [l| | |] eqn:Hl;
    try done.
  apply compute_loop_ok in Hl as (new & -> & Hb); [|lia]. apply placed_bounds in Hb; [|lia].
  cbn [app res_bind].
  destruct (apply_replacements_no_panic (original_lines_of contents) (sort_by_index new))
    as (out & -> & _); [apply sort_by_index_sorted| |done].
  rewrite sort_by_index_perm. eapply Forall_impl; [done|]. simpl. lia.
Qed.

(** Whatever the original ended in, the new text of an updated file is
    empty or ends in a newline. *)
Theorem derive_ends_with_newline (contents path new : str) (chunks : list UpdateFileChunk) :
  derive_new_contents contents path chunks = Ok new ->
  new = [] \/ last new = Some NL.
Proof.
  unfold derive_new_contents. intros H. apply bind_Ok in H as (rs & _ & H).
  apply bind_Ok in H as (ls & _ & [= <-]).
  assert (exists k, (if last_is_empty ls then ls else ls ++ [[]]) = k ++ [[]]) as [k ->].
  { destruct (last_is_empty ls) eqn:E; [|by eexists].
    apply last_is_empty_split in E. by eexists. }
  destruct (decide (k = [])) as [->|Hk]; [by left|right].
  rewrite join_snoc_nil by done. by rewrite last_snoc.
Qed.

Lemma derive_ends_with_newline_witness :
  exists new, derive_new_contents (lit "a") (lit "f") [mk_chunk None [lit "a"] [lit "b"] false] = Ok new
    /\ (new = [] \/ last new = Some NL).
Proof.
  eexists. split; [by vm_compute|].
  apply (derive_ends_with_newline (lit "a") (lit "f") _ [mk_chunk None [lit "a"] [lit "b"] false]).
  by vm_compute.
Defined.

(** The patch: replace line [a] and the empty line after it, then append [c]. *)
Definition lost_patch : str :=
  join [NL] [lit "*** Begin Patch"; lit "*** Update File: f"; lit "@@"; lit "-a"; lit "+b";
             lit " "; lit "@@"; lit "+c"; lit "*** End Patch"].

(** An accepted edit can be lost.  When the file ends in an empty line,
    a chunk that only adds lines is placed before that line, inside the region
    a previous chunk replaces, and its lines vanish from the result: the patch
    asks for [c] to be added, applies without error, and [c] is not there. *)
Theorem pure_addition_lost :
  exists chunks,
    parse_patch lost_patch =
      Ok (mk_args lost_patch [UpdateFile (lit "f") None chunks] None None) /\
    (exists c, c ∈ chunks /\ new_lines c = [lit "c"]) /\
    derive_new_contents (text ["a"; ""]%string) (lit "f") chunks =
      Ok (text ["b"; ""]%string).
Proof.
  eexists. split; [by vm_compute|]. split; [|by vm_compute].
  exists (mk_chunk None [] [lit "c"] false). split; [|done]. right. left.
Qed.
