(* ===== verification/AbsPath.v ===== *)
(** * Absolute paths ([utils/absolute-path])

    Unix paths.  A [PathBuf] is modelled by its components, which is what
    Rust compares and hashes; an [AbsolutePathBuf] is a normalised path below
    the root.  The home directory is a parameter. *)

From S2P Require Export RustStr.

Definition SLASH : char := 47%N.
Definition TILDE : char := 126%N.

(** [std::path::Component], without the Windows prefix. *)
Inductive component :=
| RootDir
| CurDir
| ParentDir
| Normal (name : str).

#[export] Instance component_eq_dec : EqDecision component.
Proof. solve_decision. Defined.

Definition component_code (c : component) : nat * str :=
  match c with
  | RootDir => (0, [])
  | CurDir => (1, [])
  | ParentDir => (2, [])
  | Normal name => (3, name)
  end.

Definition component_of_code (p : nat * str) : component :=
  match p.1 with
  | 0 => RootDir
  | 1 => CurDir
  | 2 => ParentDir
  | _ => Normal p.2
  end.

#[export] Instance component_countable : Countable component.
Proof. apply (inj_countable' component_code component_of_code). by intros []. Defined.

Notation path := (list component) (only parsing).

(** [Path::components]: repeated and trailing slashes and inner dots vanish. *)
Definition classify (piece : str) : option component :=
  if str_eqb piece [] then None
  else if str_eqb piece (lit ".") then None
  else if str_eqb piece (lit "..") then Some ParentDir
  else Some (Normal piece).

Definition components (s : str) : path :=
  let pieces := split SLASH s in
  (if starts_with [SLASH] s then [RootDir]
   else if str_eqb (default [] (head pieces)) (lit ".") then [CurDir] else [])
  ++ omap classify pieces.

Definition is_absolute (p : path) : bool :=
  match p with RootDir :: _ => true | _ => false end.

(** [PathBuf::pop] does nothing at the root and on the empty path. *)
Definition pop (p : path) : path :=
  match last p with
  | None | Some RootDir => p
  | Some _ => take (length p - 1) p
  end.

(** [Path::join] with a path that is already split. *)
Definition path_join (base p : path) : path :=
  if is_absolute p then p else base ++ p.

Definition normalize_step (normalized : path) (c : component) : path :=
  match c with
  | CurDir => normalized
  | ParentDir => pop normalized
  | RootDir => [RootDir]
  | Normal _ => normalized ++ [c]
  end.

Definition normalize_path (p : path) : path :=
  match foldl normalize_step [] p with
  | [] => [CurDir]
  | normalized => normalized
  end.

Definition path_with_base (p base_path : path) : path :=
  if is_absolute p then p else path_join base_path p.

Definition absolutize_from (p base_path : path) : path :=
  normalize_path (path_with_base p base_path).

Fixpoint trim_start_matches (c : char) (s : str) : str :=
  match s with
  | [] => []
  | a :: s' => if (a =? c)%N then trim_start_matches c s' else s
  end.

(** [str::trim_end_matches] with a character *)
Definition trim_end_matches (c : char) (s : str) : str :=
  reverse (trim_start_matches c (reverse s)).

Section resolve.
(** [dirs::home_dir()] *)
Variable home_dir : option path.

Definition maybe_expand_home_directory (s : str) : path :=
  match home_dir, strip_prefix [TILDE] s with
  | Some home, Some rest =>
    match rest with
    | [] => home
    | _ =>
      match strip_prefix [SLASH] rest with
      | Some rest => path_join home (components (trim_start_matches SLASH rest))
      | None => components s
      end
    end
  | _, _ => components s
  end.

Definition resolve_path_against_base (s : str) (base_path : path) : path :=
  absolutize_from (maybe_expand_home_directory s) base_path.

(** [std::env::current_dir()]; [None] is its error. *)
Variable current_dir : option path.

Definition absolutize (p : path) : option path :=
  if is_absolute p then Some (normalize_path p)
  else absolutize_from p <$> current_dir.

(** [AbsolutePathBuf::from_absolute_path], which is also [try_from]. *)
Definition from_absolute_path (s : str) : option path :=
  absolutize (maybe_expand_home_directory s).
End resolve.

(** [Path::file_name] *)
Definition file_name (p : path) : option str :=
  match last p with Some (Normal name) => Some name | _ => None end.

(** [AbsolutePathBuf::parent]: none for the root. *)
Definition parent (p : path) : option path :=
  match last p with
  | None | Some RootDir => None
  | Some _ => Some (take (length p - 1) p)
  end.

Definition component_name (c : component) : str :=
  match c with
  | RootDir => []
  | CurDir => lit "."
  | ParentDir => lit ".."
  | Normal name => name
  end.

(** [Path::display] of a path that is valid UTF-8. *)
Definition display (p : path) : str :=
  match p with
  | [RootDir] => [SLASH]
  | _ => join [SLASH] (component_name <$> p)
  end.

Example resolve_examples :
  let base := [RootDir; Normal (lit "base"); Normal (lit "cwd")] in
  resolve_path_against_base None (lit "../path/./to//123/") base =
    [RootDir; Normal (lit "base"); Normal (lit "path"); Normal (lit "to"); Normal (lit "123")] /\
  resolve_path_against_base None (lit "/a/../../b") base = [RootDir; Normal (lit "b")] /\
  resolve_path_against_base None [] base = base /\
  resolve_path_against_base (Some [RootDir; Normal (lit "root")]) (lit "~/x") base =
    [RootDir; Normal (lit "root"); Normal (lit "x")] /\
  display base = lit "/base/cwd".
Proof. vm_compute. done. Qed.

(** ** Absolute, normalised paths *)

Definition name_ok (name : str) : Prop :=
  SLASH ∉ name /\ name <> [] /\ name <> lit "." /\ name <> lit "..".

(** The invariant of [AbsolutePathBuf]: a root followed by plain names. *)
Definition absolute (p : path) : Prop :=
  exists names, p = RootDir :: (Normal <$> names) /\ Forall name_ok names.

Definition component_ok (c : component) : Prop :=
  match c with Normal name => name_ok name | _ => True end.

Lemma classify_ok piece c :
  SLASH ∉ piece -> classify piece = Some c -> component_ok c /\ c <> RootDir.
Proof.
  unfold classify, str_eqb. intros Hs.
  repeat case_bool_decide; intros [= <-]; simpl; unfold name_ok; naive_solver.
Qed.

Lemma components_ok s : Forall component_ok (components s).
Proof.
  unfold components. apply Forall_app; split; [repeat case_match; repeat constructor|].
  pose proof (split_parts_no_sep SLASH s) as Hparts.
  induction Hparts as [|p ps Hp _ IH]; simpl; [constructor|].
  destruct (classify p) eqn:E; [|done]. constructor; [by eapply classify_ok|done].
Qed.

Lemma pop_absolute p : absolute p -> absolute (pop p).
Proof.
  intros (names & -> & Hall). unfold pop.
  destruct names as [|n names] using rev_ind; [by exists []|].
  apply Forall_app in Hall as [Hall _].
  rewrite fmap_app. simpl fmap. rewrite app_comm_cons, last_snoc.
  exists names. split; [|done]. rewrite take_app_le by (rewrite length_app; simpl; lia).
  apply take_ge. rewrite length_app. simpl. lia.
Qed.

Lemma normalize_absolute p rest :
  absolute p -> Forall component_ok rest -> absolute (foldl normalize_step p rest).
Proof.
  revert p. induction rest as [|c rest IH]; intros p Hp Hr; [done|].
  inversion Hr as [|? ? Hc Hrest]; subst. apply IH; [|done].
  destruct c as [| | |n]; simpl.
  - by exists [].
  - done.
  - by apply pop_absolute.
  - destruct Hp as (names & -> & Hn). exists (names ++ [n]).
    split; [by rewrite fmap_app|]. apply Forall_app. split; [done|by constructor].
Qed.

Lemma absolute_components p : absolute p -> Forall component_ok p.
Proof.
  intros (names & -> & Hn). constructor; [done|]. apply Forall_fmap. by eapply Forall_impl.
Qed.

Lemma absolute_nonempty p : absolute p -> p <> [].
Proof. by intros (names & -> & _). Qed.

Lemma normalize_rooted p :
  is_absolute p = true -> Forall component_ok p -> absolute (normalize_path p).
Proof.
  destruct p as [|[| | |n] p]; try done. intros _ H. inversion H; subst.
  unfold normalize_path. simpl.
  assert (absolute (foldl normalize_step [RootDir] p)) as Ha
    by (apply normalize_absolute; [by exists []|done]).
  pose proof (absolute_nonempty _ Ha). by destruct (foldl _ _ _).
Qed.

Lemma is_absolute_join base p :
  is_absolute base = true -> is_absolute (path_join base p) = true.
Proof.
  unfold path_join. destruct (is_absolute p) eqn:E; [done|]. by destruct base as [|[]].
Qed.

Lemma normalize_idem p : absolute p -> normalize_path p = p.
Proof.
  intros (names & -> & _). unfold normalize_path. simpl.
  assert (forall acc, foldl normalize_step acc (Normal <$> names) = acc ++ (Normal <$> names)) as Hf.
  { induction names as [|n names IH]; intros acc; simpl; [by rewrite app_nil_r|].
    by rewrite IH, <- app_assoc. }
  by rewrite Hf.
Qed.

Lemma components_slash names :
  Forall name_ok names -> components (SLASH :: join [SLASH] names) = RootDir :: (Normal <$> names).
Proof.
  intros Hall. unfold components. simpl. f_equal.
  destruct names as [|n names]; [done|].
  rewrite split_join; [|done|]; [|eapply Forall_impl; [done|]; by intros ? [? _]].
  induction Hall as [|x xs (_ & H1 & H2 & H3) _ IH]; [done|]. simpl.
  assert (classify x = Some (Normal x)) as -> by (unfold classify; by rewrite !str_eqb_ne).
  f_equal. apply IH.
Qed.

Lemma display_absolute names :
  names <> [] -> display (RootDir :: (Normal <$> names)) = SLASH :: join [SLASH] names.
Proof.
  intros Hne. destruct names as [|n names]; [done|]. simpl.
  rewrite <- list_fmap_compose. by rewrite list_fmap_id.
Qed.

Lemma resolve_absolute (home_dir : option path) (s : str) (base : path) :
  absolute base -> (forall h, home_dir = Some h -> absolute h) ->
  absolute (resolve_path_against_base home_dir s base).
Proof.
  intros Hbase Hhome.
  unfold resolve_path_against_base, absolutize_from, path_with_base.
  assert (Forall component_ok (maybe_expand_home_directory home_dir s)) as He.
  { unfold maybe_expand_home_directory, path_join.
    repeat case_match; auto using components_ok; subst.
    - by apply absolute_components, Hhome.
    - apply Forall_app; split; [by apply absolute_components, Hhome|apply components_ok]. }
  assert (is_absolute base = true) as Hb by (by destruct Hbase as (? & -> & _)).
  destruct (is_absolute (maybe_expand_home_directory home_dir s)) eqn:Ea.
  - by apply normalize_rooted.
  - apply normalize_rooted; [by apply is_absolute_join|]. unfold path_join. rewrite Ea.
    apply Forall_app. split; [by apply absolute_components|done].
Qed.

(** *** What resolution means

    An absolute path is the list of its names; walking along the pieces of a
    text between slashes skips empty pieces and dots, goes up at two dots (not
    above the root) and down otherwise. *)

Definition rooted (names : list str) : path := RootDir :: (Normal <$> names).

Fixpoint walk (at_names : list str) (pieces : list str) : list str :=
  match pieces with
  | [] => at_names
  | piece :: rest =>
    if decide (piece = [] \/ piece = [46%N]) then walk at_names rest
    else if decide (piece = [46%N; 46%N]) then walk (take (length at_names - 1) at_names) rest
    else walk (at_names ++ [piece]) rest
  end.

(** From the root for a text that starts with a slash, from the home directory,
    if there is one, for [~] alone or before a slash, and else from the base. *)
Definition walk_from (home : option (list str)) (base : list str) (s : str) : list str :=
  if decide (head s = Some SLASH) then walk [] (split SLASH s)
  else
    match home with
    | Some h =>
      if decide (s = [TILDE]) then h
      else if decide (take 2 s = [TILDE; SLASH]) then walk h (split SLASH (drop 2 s))
      else walk base (split SLASH s)
    | None => walk base (split SLASH s)
    end.

Lemma pop_rooted names : pop (rooted names) = rooted (take (length names - 1) names).
Proof.
  unfold pop, rooted. destruct names as [|x names _] using rev_ind; [done|].
  rewrite fmap_app. cbn [fmap list_fmap]. rewrite app_comm_cons, last_snoc. f_equal.
  rewrite !length_app. cbn [length]. rewrite !Nat.add_sub. rewrite take_app_length.
  change (RootDir :: (Normal <$> names) ++ [Normal x]) with ((RootDir :: (Normal <$> names)) ++ [Normal x]).
  rewrite take_app_le by (cbn; rewrite !length_fmap; lia).
  rewrite take_ge; [done|]. cbn. rewrite !length_fmap. lia.
Qed.

Lemma normalize_walk pieces : forall names,
  foldl normalize_step (rooted names) (omap classify pieces) = rooted (walk names pieces).
Proof.
  induction pieces as [|x pieces IH]; intros names; [done|]. cbn [omap list_omap walk].
  unfold classify at 1, str_eqb. change (lit ".") with [46%N]. change (lit "..") with [46%N; 46%N].
  case_bool_decide as H1; [by rewrite decide_True by (by left)|].
  case_bool_decide as H2; [by rewrite decide_True by (by right)|].
  rewrite decide_False by (by intros [?|?]). case_bool_decide as H3.
  - rewrite decide_True by done. cbn [foldl normalize_step]. by rewrite pop_rooted, IH.
  - rewrite decide_False by done. cbn [foldl normalize_step]. rewrite <- IH. f_equal.
    unfold rooted. by rewrite fmap_app.
Qed.

Lemma foldl_rooted names l :
  foldl normalize_step [] (rooted names ++ l) = foldl normalize_step (rooted names) l.
Proof.
  rewrite foldl_app. f_equal. unfold rooted. cbn [foldl normalize_step].
  assert (forall acc, foldl normalize_step acc (Normal <$> names) = acc ++ (Normal <$> names)) as ->; [|done].
  induction names as [|n names IH]; intros acc; cbn; [by rewrite app_nil_r|]. by rewrite IH, <- app_assoc.
Qed.

Lemma normalize_path_walk names pieces :
  normalize_path (rooted names ++ omap classify pieces) = rooted (walk names pieces).
Proof. unfold normalize_path. by rewrite foldl_rooted, normalize_walk. Qed.

Lemma components_relative s :
  head s <> Some SLASH -> exists pre, components s = pre ++ omap classify (split SLASH s) /\
    (pre = [] \/ pre = [CurDir]) /\ is_absolute (components s) = false.
Proof.
  intros Hh. unfold components.
  assert (starts_with [SLASH] s = false) as ->.
  { unfold starts_with. destruct (strip_prefix [SLASH] s) eqn:E; [|done].
    apply strip_prefix_Some in E as ->. done. }
  assert (is_absolute (omap classify (split SLASH s)) = false) as Hna.
  { pose proof (split_parts_no_sep SLASH s) as Hp. induction Hp as [|x l Hx _ IH]; [done|].
    cbn. destruct (classify x) as [c|] eqn:Ec; [|done]. destruct (classify_ok _ _ Hx Ec) as [_ Hr]. by destruct c. }
  case_match; [exists [CurDir]|exists []]; (split; [done|]); split; try done; naive_solver.
Qed.

Lemma resolve_relative names s :
  head s <> Some SLASH -> normalize_path (rooted names ++ components s) = rooted (walk names (split SLASH s)).
Proof.
  intros Hh. destruct (components_relative s Hh) as (pre & -> & Hpre & _).
  rewrite <- normalize_path_walk. unfold normalize_path. rewrite !foldl_rooted, foldl_app.
  by destruct Hpre as [->| ->].
Qed.

Lemma walk_trim names s : walk names (split SLASH (trim_start_matches SLASH s)) = walk names (split SLASH s).
Proof.
  induction s as [|c s IH]; [done|]. cbn [trim_start_matches]. destruct (N.eqb_spec c SLASH) as [->|]; [|done].
  by rewrite IH.
Qed.

Lemma trim_no_slash s : head (trim_start_matches SLASH s) <> Some SLASH.
Proof.
  induction s as [|c s IH]; [done|]. cbn [trim_start_matches].
  destruct (N.eqb_spec c SLASH) as [->|]; [done|]. cbn. congruence.
Qed.

Lemma expand_plain home s :
  (head s = Some SLASH \/ home = None \/ (s <> [TILDE] /\ take 2 s <> [TILDE; SLASH])) ->
  maybe_expand_home_directory (rooted <$> home) s = components s.
Proof.
  intros Hs. unfold maybe_expand_home_directory. destruct home as [h|]; [|done]. cbn [fmap option_fmap option_map].
  destruct (strip_prefix [TILDE] s) as [rest|] eqn:E; [|done]. apply strip_prefix_Some in E as ->.
  destruct Hs as [Hs|[Hs|[H1 H2]]]; [done..|]. destruct rest as [|c rest]; [done|].
  destruct (strip_prefix [SLASH] (c :: rest)) as [r|] eqn:E; [|done].
  apply strip_prefix_Some in E. injection E as -> ->. done.
Qed.

Lemma resolve_components home base s :
  maybe_expand_home_directory (rooted <$> home) s = components s ->
  resolve_path_against_base (rooted <$> home) s (rooted base) =
  rooted (walk (if decide (head s = Some SLASH) then [] else base) (split SLASH s)).
Proof.
  intros E. unfold resolve_path_against_base, absolutize_from, path_with_base. rewrite E.
  destruct (decide (head s = Some SLASH)) as [Hh|Hh].
  - destruct s as [|c s]; [done|]. injection Hh as ->.
    assert (components (SLASH :: s) = rooted [] ++ omap classify (split SLASH (SLASH :: s))) as ->.
    { unfold components. by cbn. }
    cbn [is_absolute rooted app]. apply (normalize_path_walk []).
  - destruct (components_relative s Hh) as (pre & _ & _ & Hna). rewrite Hna.
    unfold path_join. rewrite Hna. by apply resolve_relative.
Qed.

Lemma resolve_home h base :
  resolve_path_against_base (Some (rooted h)) [TILDE] (rooted base) = rooted h.
Proof.
  unfold resolve_path_against_base, absolutize_from, path_with_base. cbn [maybe_expand_home_directory].
  pose proof (normalize_path_walk h []) as Hn. cbn [omap list_omap walk] in Hn.
  by rewrite app_nil_r in Hn.
Qed.

Lemma resolve_walk home base s :
  resolve_path_against_base (rooted <$> home) s (rooted base) = rooted (walk_from home base s).
Proof.
  unfold walk_from. destruct (decide (head s = Some SLASH)) as [Hh|Hh].
  { rewrite resolve_components by (apply expand_plain; by left). by rewrite decide_True. }
  destruct home as [h|].
  2: { rewrite resolve_components by (apply expand_plain; by right; left). by rewrite decide_False. }
  destruct (decide (s = [TILDE])) as [->|H1]; [apply resolve_home|].
  destruct (decide (take 2 s = [TILDE; SLASH])) as [H2|H2].
  2: { rewrite resolve_components by (apply expand_plain; by right; right). by rewrite decide_False. }
  assert (s = [TILDE; SLASH] ++ drop 2 s) as Hs by (rewrite <- H2; by rewrite take_drop).
  set (r := drop 2 s) in *. rewrite Hs. rewrite <- (walk_trim h r).
  unfold resolve_path_against_base, absolutize_from, path_with_base, maybe_expand_home_directory.
  cbn [fmap option_fmap option_map app strip_prefix N.eqb TILDE SLASH Pos.eqb].
  pose proof (trim_no_slash r) as Ht. destruct (components_relative _ Ht) as (pre & _ & _ & Hna).
  unfold path_join. rewrite Hna. cbn [rooted app is_absolute]. by apply (resolve_relative h).
Qed.

Lemma walk_ok pieces : forall names,
  Forall (fun x => SLASH ∉ x) pieces -> Forall name_ok names -> Forall name_ok (walk names pieces).
Proof.
  induction pieces as [|x pieces IH]; intros names Hp Hn; [done|]. inversion Hp; subst. cbn [walk].
  repeat case_decide; [by apply IH|apply IH; [done|by apply Forall_take]|apply IH; [done|]].
  apply Forall_app. split; [done|]. constructor; [|constructor]. unfold name_ok. naive_solver.
Qed.

Lemma walk_names names : Forall name_ok names -> forall at_names, walk at_names names = at_names ++ names.
Proof.
  induction 1 as [|x names (Hs & H1 & H2 & H3) _ IH]; intros at_names; cbn [walk]; [by rewrite app_nil_r|].
  rewrite !decide_False by naive_solver. by rewrite IH, <- app_assoc.
Qed.

(** C25: resolving a path against a base.  For an absolute base and an absolute
    home directory, if there is one, resolution walks along the text of the
    path piece by piece: from the root if it starts with a slash, from the home
    directory if it is [~] or starts with [~/], and from the base otherwise; it
    skips empty pieces and dots, goes up one directory at two dots, not above
    the root, and down at a name.  The result is absolute, without dots or empty
    names, and the displayed form of an absolute path resolves to that path. *)
Theorem resolve_path_absolute (home : option (list str)) (base : list str) (s : str) :
  Forall name_ok base -> (forall h, home = Some h -> Forall name_ok h) ->
  resolve_path_against_base (rooted <$> home) s (rooted base) = rooted (walk_from home base s) /\
  Forall name_ok (walk_from home base s) /\
  forall names, Forall name_ok names ->
    resolve_path_against_base (rooted <$> home) (display (rooted names)) (rooted base) = rooted names.
Proof.
  intros Hb Hh. split_and!; [apply resolve_walk|..].
  - unfold walk_from. pose proof (fun t => split_parts_no_sep SLASH t) as Hparts.
    repeat case_match; try (by apply walk_ok; [apply Hparts|auto]); auto.
  - intros names Hn. rewrite resolve_walk. f_equal.
    destruct (decide (names = [])) as [->|Hne]; [done|]. unfold rooted. rewrite display_absolute by done.
    unfold walk_from. rewrite decide_True by done.
    change (split SLASH (SLASH :: join [SLASH] names)) with ([] :: split SLASH (join [SLASH] names)).
    cbn [walk].
    rewrite decide_True by (by left). rewrite split_join; [|done|].
    + by apply walk_names.
    + eapply Forall_impl; [done|]. by intros ? [? _].
Qed.

Lemma resolve_path_absolute_witness :
  resolve_path_against_base (Some (rooted [lit "home"; lit "u"])) (lit "~/a/.././../x") (rooted [lit "w"]) =
    rooted [lit "home"; lit "x"] /\
  resolve_path_against_base (Some (rooted [lit "home"; lit "u"])) (lit "../../b//c") (rooted [lit "w"]) =
    rooted [lit "b"; lit "c"].
Proof.
  assert (forall s : string, name_ok (lit s) -> Forall name_ok [lit s]) as H1 by (by constructor).
  assert (name_ok (lit "w") /\ name_ok (lit "home") /\ name_ok (lit "u")) as (Hw & Hh & Hu)
    by (split_and!; by apply (bool_decide_unpack _)).
  split;
    (refine (eq_trans (proj1 (resolve_path_absolute (Some [lit "home"; lit "u"]) [lit "w"] _ (H1 _ Hw) _)) _);
     [intros h [= <-]; by constructor; [|constructor]|by vm_compute]).
Defined.

