(* ===== verification/PatchFs.v ===== *)
(** * Applying a patch to a filesystem ([apply-patch/src/lib.rs])

    The [ExecutorFileSystem] trait is a class of operations; the functions of
    the crate thread the filesystem state, the committed delta and the output
    writers explicitly.  The sandbox context is the same in every call and is
    part of the filesystem. *)

From S2P Require Export PatchApply AbsPath.

(** ** The filesystem interface *)

Record FileMetadata := mk_metadata {
  is_directory : bool;
  is_file : bool;
  is_symlink : bool;
  created_at_ms : Z;
  modified_at_ms : Z
}.

Record RemoveOptions := mk_remove_options { recursive : bool; force : bool }.

(** The operations of the trait that the crate calls.  File contents are
    texts: [write_file] receives the bytes of a [String], and
    [read_file_text] decodes them. *)
Class ExecutorFileSystem (fs : Type) := {
  read_file_text : fs -> path -> io_error + str;
  get_metadata : fs -> path -> io_error + FileMetadata;
  write_file : fs -> path -> str -> fs * (io_error + unit);
  create_directory : fs -> path -> bool -> fs * (io_error + unit);
  remove : fs -> path -> RemoveOptions -> fs * (io_error + unit)
}.

(** ** Committed changes *)

Inductive AppliedPatchFileChange :=
| Add (content : str) (overwritten_content : option str)
| Delete (content : str)
| Update (move_path : option path) (old_content : str)
    (overwritten_move_content : option str) (new_content : str).

Record AppliedPatchChange := mk_change {
  change_path : path;
  change : AppliedPatchFileChange
}.

Record AppliedPatchDelta := mk_delta {
  changes : list AppliedPatchChange;
  exact : bool
}.

Definition delta_empty : AppliedPatchDelta := mk_delta [] true.

(** [AppliedPatchDelta::append] *)
Definition delta_append (d other : AppliedPatchDelta) : AppliedPatchDelta :=
  mk_delta (changes d ++ changes other) (exact d && exact other).

Definition push_change (d : AppliedPatchDelta) (p : path) (c : AppliedPatchFileChange)
    : AppliedPatchDelta :=
  mk_delta (changes d ++ [mk_change p c]) (exact d).

Definition set_exact (d : AppliedPatchDelta) (b : bool) : AppliedPatchDelta :=
  mk_delta (changes d) b.

Record AffectedPaths := mk_affected {
  added : list str;
  modified : list str;
  deleted : list str
}.

(** ** Errors *)

(** An [anyhow::Error]: an I/O error (with the context attached to it, if
    any), a crate error, or a message. *)
Inductive anyhow_error :=
| AnyIo (ctx : option str) (e : io_error)
| AnyApply (e : ApplyPatchError)
| AnyMessage (message : str).

Definition show_parse_error (e : ParseError) : str :=
  match e with
  | InvalidPatchError message => lit "invalid patch: " ++ message
  | InvalidHunkError message line_number =>
    lit "invalid hunk at line " ++ dec line_number ++ lit ", " ++ message
  end.

Definition show_apply_error (e : ApplyPatchError) : str :=
  match e with
  | PatchParseError e => show_parse_error e
  | PatchIoError e => context e ++ lit ": " ++ io_message (source e)
  | ComputeReplacements message => message
  | ImplicitInvocation =>
    lit "patch detected without explicit call to apply_patch. Rerun as [" ++ [DQUOTE] ++
    lit "apply_patch" ++ [DQUOTE] ++ lit ", " ++ [DQUOTE] ++ lit "<patch>" ++ [DQUOTE] ++ lit "]"
  end.

Definition show_anyhow (e : anyhow_error) : str :=
  match e with
  | AnyIo (Some ctx) _ => ctx
  | AnyIo None e => io_message e
  | AnyApply e => show_apply_error e
  | AnyMessage message => message
  end.

(** [From<std::io::Error> for ApplyPatchError] *)
Definition apply_error_of_io (e : io_error) : ApplyPatchError :=
  PatchIoError (mk_IoError (lit "I/O error") e).

Record ApplyPatchFailure := mk_failure {
  error : ApplyPatchError;
  delta : AppliedPatchDelta
}.

(** ** Output writers *)

(** What was written, and how many more writes succeed ([None]: all). *)
Record writer := mk_writer { written : str; budget : option nat }.

Definition broken_pipe : io_error := mk_io_error OtherKind (lit "write failed").

Definition writeln (w : writer) (s : str) : writer * (io_error + unit) :=
  match budget w with
  | Some 0 => (w, inl broken_pipe)
  | b => (mk_writer (written w ++ s ++ [NL]) (pred <$> b), inr tt)
  end.

Fixpoint writelns (w : writer) (ls : list str) : writer * (io_error + unit) :=
  match ls with
  | [] => (w, inr tt)
  | l :: ls' =>
    match writeln w l with
    | (w, inr tt) => writelns w ls'
    | (w, inl e) => (w, inl e)
    end
  end.

Definition print_summary (affected : AffectedPaths) (out : writer)
    : writer * (io_error + unit) :=
  writelns out
    (lit "Success. Updated the following files:"
     :: ((fun p => lit "A " ++ p) <$> added affected)
     ++ ((fun p => lit "M " ++ p) <$> modified affected)
     ++ ((fun p => lit "D " ++ p) <$> deleted affected)).

(** ** Operations on the filesystem *)

Section apply.
Context {fs : Type} `{ExecutorFileSystem fs}.
Variable home_dir : option path.

Definition hunk_resolve_path (h : Hunk) (cwd : path) : path :=
  let p := match h with
           | UpdateFile p _ _ => p
           | AddFile _ _ | DeleteFile _ => hunk_path h
           end in
  resolve_path_against_base home_dir p cwd.

Definition ensure_not_directory (f : fs) (p : path) : io_error + unit :=
  match get_metadata f p with
  | inl e => inl e
  | inr metadata =>
    if is_directory metadata
    then inl (mk_io_error InvalidInput (lit "path is a directory"))
    else inr tt
  end.

Definition remove_failure_was_side_effect_free (f : fs) (p : path)
    (expected_content : option str) : bool :=
  match expected_content with
  | Some expected_content =>
    match read_file_text f p with
    | inr content => str_eqb content expected_content
    | inl _ => false
    end
  | None => false
  end.

(** The new value of [*exact]. *)
Definition note_existing_path_delta_support (f : fs) (p : path) (exact : bool) : bool :=
  match get_metadata f p with
  | inr metadata => if is_file metadata && negb (is_symlink metadata) then exact else false
  | inl e => match kind e with NotFound => exact | _ => false end
  end.

Definition read_optional_file_text_for_delta (f : fs) (p : path) (exact : bool)
    : option str * bool :=
  let exact := note_existing_path_delta_support f p exact in
  match read_file_text f p with
  | inr content => (Some content, exact)
  | inl e => match kind e with NotFound => (None, exact) | _ => (None, false) end
  end.

Definition failed_to_write (p : path) : str := lit "Failed to write file " ++ display p.

Definition write_file_with_missing_parent_retry (f : fs) (path_abs : path) (contents : str)
    : fs * (anyhow_error + unit) :=
  match write_file f path_abs contents with
  | (f, inr tt) => (f, inr tt)
  | (f, inl err) =>
    match kind err with
    | NotFound =>
      let '(f, created) :=
        match parent path_abs with
        | Some parent_abs => create_directory f parent_abs true
        | None => (f, inr tt)
        end in
      match created with
      | inl e =>
        (f, inl (AnyIo (Some (lit "Failed to create parent directories for " ++ display path_abs)) e))
      | inr _ =>
        match write_file f path_abs contents with
        | (f, inr tt) => (f, inr tt)
        | (f, inl e) => (f, inl (AnyIo (Some (failed_to_write path_abs)) e))
        end
      end
    | _ => (f, inl (AnyIo (Some (failed_to_write path_abs)) err))
    end
  end.

(** Returns the original and the new contents. *)
Definition derive_new_contents_from_chunks (f : fs) (path_abs : path)
    (chunks : list UpdateFileChunk) : res ApplyPatchError (str * str) :=
  match read_file_text f path_abs with
  | inl err =>
    Err (PatchIoError
           (mk_IoError (lit "Failed to read file to update " ++ display path_abs) err))
  | inr original_contents =>
    let? new_contents := derive_new_contents original_contents (display path_abs) chunks in
    Ok (original_contents, new_contents)
  end.

Definition plain_remove : RemoveOptions := mk_remove_options false false.

(** What one iteration of the hunk loop leaves behind. *)
Definition step_result : Type := fs * AppliedPatchDelta * res anyhow_error AffectedPaths.

Definition apply_add_hunk (f : fs) (d : AppliedPatchDelta) (a : AffectedPaths)
    (affected_path : str) (path_abs : path) (contents : str) : step_result :=
  let '(overwritten_content, ex) := read_optional_file_text_for_delta f path_abs (exact d) in
  let d := set_exact d ex in
  match write_file_with_missing_parent_retry f path_abs contents with
  | (f, inl e) => (f, set_exact d false, Err e)
  | (f, inr _) =>
    (f, push_change d path_abs (Add contents overwritten_content),
     Ok (mk_affected (added a ++ [affected_path]) (modified a) (deleted a)))
  end.

Definition failed_to_delete (p : path) : str := lit "Failed to delete file " ++ display p.

Definition apply_delete_hunk (f : fs) (d : AppliedPatchDelta) (a : AffectedPaths)
    (affected_path : str) (path_abs : path) : step_result :=
  let d := set_exact d (note_existing_path_delta_support f path_abs (exact d)) in
  let deleted_content :=
    match read_file_text f path_abs with inr content => Some content | inl _ => None end in
  let d := match deleted_content with None => set_exact d false | Some _ => d end in
  match ensure_not_directory f path_abs with
  | inl e => (f, d, Err (AnyIo (Some (failed_to_delete path_abs)) e))
  | inr _ =>
    match remove f path_abs plain_remove with
    | (f, inl e) =>
      (f, set_exact d (exact d && remove_failure_was_side_effect_free f path_abs deleted_content),
       Err (AnyIo (Some (failed_to_delete path_abs)) e))
    | (f, inr _) =>
      (f, match deleted_content with
          | Some content => push_change d path_abs (Delete content)
          | None => d
          end,
       Ok (mk_affected (added a) (modified a) (deleted a ++ [affected_path])))
    end
  end.

Definition failed_to_remove (p : path) : str := lit "Failed to remove original " ++ display p.

(** The move branch of an update hunk: write the destination, remove the
    original, then turn the recorded write into a rename. *)
Definition apply_move (f : fs) (d : AppliedPatchDelta) (a : AffectedPaths)
    (affected_path : str) (path_abs dest_abs : path) (original_contents new_contents : str)
    : step_result :=
  let '(overwritten_move_content, ex) :=
    read_optional_file_text_for_delta f dest_abs (exact d) in
  let d := set_exact d ex in
  match write_file_with_missing_parent_retry f dest_abs new_contents with
  | (f, inl e) => (f, set_exact d false, Err e)
  | (f, inr _) =>
    let dest_write_change_index := length (changes d) in
    let d := push_change d dest_abs (Add new_contents overwritten_move_content) in
    match ensure_not_directory f path_abs with
    | inl e => (f, d, Err (AnyIo (Some (failed_to_remove path_abs)) e))
    | inr _ =>
      match remove f path_abs plain_remove with
      | (f, inl e) =>
        (f, set_exact d (exact d && remove_failure_was_side_effect_free f path_abs
                                      (Some original_contents)),
         Err (AnyIo (Some (failed_to_remove path_abs)) e))
      | (f, inr _) =>
        (f, mk_delta
              (<[dest_write_change_index :=
                   mk_change path_abs
                     (Update (Some dest_abs) original_contents overwritten_move_content
                        new_contents)]> (changes d))
              (exact d),
         Ok (mk_affected (added a) (modified a ++ [affected_path]) (deleted a)))
      end
    end
  end.

Definition apply_update_hunk (f : fs) (d : AppliedPatchDelta) (a : AffectedPaths)
    (affected_path : str) (cwd path_abs : path) (move_path : option str)
    (chunks : list UpdateFileChunk) : step_result :=
  let d := set_exact d (note_existing_path_delta_support f path_abs (exact d)) in
  match derive_new_contents_from_chunks f path_abs chunks with
  | Err e => (f, d, Err (AnyApply e))
  | Panic => (f, d, Panic)
  | NoFuel => (f, d, NoFuel)
  | Ok (original_contents, new_contents) =>
    match move_path with
    | Some dest =>
      apply_move f d a affected_path path_abs (resolve_path_against_base home_dir dest cwd)
        original_contents new_contents
    | None =>
      match write_file f path_abs new_contents with
      | (f, inl e) => (f, set_exact d false, Err (AnyIo (Some (failed_to_write path_abs)) e))
      | (f, inr _) =>
        (f, push_change d path_abs (Update None original_contents None new_contents),
         Ok (mk_affected (added a) (modified a ++ [affected_path]) (deleted a)))
      end
    end
  end.

Definition apply_hunk (cwd : path) (f : fs) (d : AppliedPatchDelta) (a : AffectedPaths)
    (hunk : Hunk) : step_result :=
  let affected_path := hunk_path hunk in
  let path_abs := hunk_resolve_path hunk cwd in
  match hunk with
  | AddFile _ contents => apply_add_hunk f d a affected_path path_abs contents
  | DeleteFile _ => apply_delete_hunk f d a affected_path path_abs
  | UpdateFile _ move_path chunks =>
    apply_update_hunk f d a affected_path cwd path_abs move_path chunks
  end.

Fixpoint apply_hunk_loop (cwd : path) (f : fs) (d : AppliedPatchDelta) (a : AffectedPaths)
    (hunks : list Hunk) : step_result :=
  match hunks with
  | [] => (f, d, Ok a)
  | hunk :: rest =>
    match apply_hunk cwd f d a hunk with
    | (f, d, Ok a) => apply_hunk_loop cwd f d a rest
    | r => r
    end
  end.

Definition apply_hunks_to_files (hunks : list Hunk) (cwd : path) (f : fs)
    (d : AppliedPatchDelta) : step_result :=
  match hunks with
  | [] => (f, d, Err (AnyMessage (lit "No files were modified.")))
  | _ => apply_hunk_loop cwd f d (mk_affected [] [] []) hunks
  end.

(** The filesystem, the two writers and the [Result]. *)
Definition apply_result : Type :=
  fs * writer * writer * res ApplyPatchFailure AppliedPatchDelta.

Definition apply_hunks (hunks : list Hunk) (cwd : path) (stdout stderr : writer) (f : fs)
    : apply_result :=
  match apply_hunks_to_files hunks cwd f delta_empty with
  | (f, d, Ok affected_paths) =>
    match print_summary affected_paths stdout with
    | (stdout, inl e) => (f, stdout, stderr, Err (mk_failure (apply_error_of_io e) d))
    | (stdout, inr _) => (f, stdout, stderr, Ok d)
    end
  | (f, d, Err e) =>
    let msg := show_anyhow e in
    match writeln stderr msg with
    | (stderr, inl e) => (f, stdout, stderr, Err (mk_failure (apply_error_of_io e) d))
    | (stderr, inr _) =>
      let error :=
        match e with
        | AnyIo _ io => apply_error_of_io io
        | _ => PatchIoError (mk_IoError msg (mk_io_error OtherKind msg))
        end in
      (f, stdout, stderr, Err (mk_failure error d))
    end
  | (f, _, Panic) => (f, stdout, stderr, Panic)
  | (f, _, NoFuel) => (f, stdout, stderr, NoFuel)
  end.

Definition apply_patch (patch : str) (cwd : path) (stdout stderr : writer) (f : fs)
    : apply_result :=
  match parse_patch patch with
  | Ok args => apply_hunks (hunks args) cwd stdout stderr f
  | Err e =>
    let line :=
      match e with
      | InvalidPatchError message => lit "Invalid patch: " ++ message
      | InvalidHunkError message line_number =>
        lit "Invalid patch hunk on line " ++ dec line_number ++ lit ": " ++ message
      end in
    match writeln stderr line with
    | (stderr, inl io) =>
      (f, stdout, stderr, Err (mk_failure (apply_error_of_io io) delta_empty))
    | (stderr, inr _) =>
      (f, stdout, stderr, Err (mk_failure (PatchParseError e) delta_empty))
    end
  | Panic => (f, stdout, stderr, Panic)
  | NoFuel => (f, stdout, stderr, NoFuel)
  end.
End apply.

(** ** Committed deltas describe what happened

    The text of every file, as the observable content of a filesystem. *)

Definition view : Type := path -> option str.

Definition view_eq : relation view := pointwise_relation path eq.

#[export] Instance view_equivalence : Equivalence view_eq.
Proof. unfold view_eq. apply _. Qed.

Definition upd (v : view) (p : path) (o : option str) : view :=
  fun q => if decide (q = p) then o else v q.

(** The effect a recorded change claims. *)
Definition replay_change (v : view) (c : AppliedPatchChange) : view :=
  match change c with
  | Add content _ => upd v (change_path c) (Some content)
  | Delete _ => upd v (change_path c) None
  | Update None _ _ new_content => upd v (change_path c) (Some new_content)
  | Update (Some dest) _ _ new_content =>
    upd (upd v dest (Some new_content)) (change_path c) None
  end.

(** The old contents a recorded change claims. *)
Definition faithful (v : view) (c : AppliedPatchChange) : Prop :=
  match change c with
  | Add _ overwritten => v (change_path c) = overwritten
  | Delete content => v (change_path c) = Some content
  | Update None old_content overwritten _ =>
    v (change_path c) = Some old_content /\ overwritten = None
  | Update (Some dest) old_content overwritten _ =>
    v (change_path c) = Some old_content /\ v dest = overwritten /\ dest <> change_path c
  end.

(** [history v cs v']: replayed from [v], the changes report the right old
    contents at every step and end in [v']. *)
Fixpoint history (v : view) (cs : list AppliedPatchChange) (v' : view) : Prop :=
  match cs with
  | [] => view_eq v v'
  | c :: cs' => faithful v c /\ history (replay_change v c) cs' v'
  end.

#[export] Instance upd_proper : Proper (view_eq ==> eq ==> eq ==> view_eq) upd.
Proof. intros v w E ? p -> ? o -> q. unfold upd. by destruct (decide _). Qed.

#[export] Instance replay_change_proper : Proper (view_eq ==> eq ==> view_eq) replay_change.
Proof.
  intros v w E ? c ->. unfold replay_change.
  destruct (change c) as [| |[]]; by repeat apply upd_proper.
Qed.

#[export] Instance faithful_proper : Proper (view_eq ==> eq ==> iff) faithful.
Proof.
  intros v w E ? c ->. unfold faithful.
  destruct (change c) as [| |[]]; by rewrite !(E _).
Qed.

#[export] Instance history_proper : Proper (view_eq ==> eq ==> view_eq ==> iff) history.
Proof.
  intros v w E ? cs -> v' w' E'. revert v w E.
  induction cs as [|c cs IH]; intros v w E; simpl; [by rewrite E, E'|].
  rewrite (IH (replay_change v c) (replay_change w c)); by rewrite E.
Qed.

Lemma history_app v cs1 w cs2 v' :
  history v cs1 w -> history w cs2 v' -> history v (cs1 ++ cs2) v'.
Proof.
  revert v. induction cs1 as [|c cs1 IH]; intros v; simpl.
  - by intros ->.
  - intros [? ?] ?. split; [done|]. by apply IH.
Qed.

Lemma upd_same v p o : v p = o -> view_eq (upd v p o) v.
Proof. intros <- q. unfold upd. by destruct (decide _) as [->|]. Qed.

(** ** No panic *)

Section totality.
Context {fs : Type} `{ExecutorFileSystem fs}.
Variable home_dir : option path.

Lemma apply_hunk_returns cwd (f : fs) d a h : returns (apply_hunk home_dir cwd f d a h).2.
Proof.
  destruct h as [p contents|p|p mv chunks]; simpl.
  - unfold apply_add_hunk. repeat case_match; simplify_eq; done.
  - unfold apply_delete_hunk. repeat case_match; simplify_eq; done.
  - unfold apply_update_hunk, apply_move.
    assert (returns (derive_new_contents_from_chunks f
              (resolve_path_against_base home_dir p cwd) chunks)) as Hr.
    { unfold derive_new_contents_from_chunks. case_match; [done|].
      apply returns_bind; [apply derive_new_contents_returns|by intros]. }
    unfold hunk_resolve_path. destruct (derive_new_contents_from_chunks _ _ _) as [[]| | |];
      repeat case_match; simplify_eq; done.
Qed.

Lemma apply_hunk_loop_returns cwd hs : forall (f : fs) d a,
  returns (apply_hunk_loop home_dir cwd f d a hs).2.
Proof.
  induction hs as [|h hs IH]; intros f d a; simpl; [done|].
  pose proof (apply_hunk_returns cwd f d a h) as Hr.
  destruct (apply_hunk home_dir cwd f d a h) as [[f1 d1] [| | |]]; auto.
Qed.

Lemma apply_patch_returns patch cwd out err (f : fs) :
  returns (apply_patch home_dir patch cwd out err f).2.
Proof.
  unfold apply_patch. pose proof (parse_patch_returns patch) as Hp.
  destruct (parse_patch patch) as [args|e| |]; try done.
  2: by repeat case_match.
  unfold apply_hunks, apply_hunks_to_files.
  assert (returns (apply_hunks_to_files home_dir (hunks args) cwd f delta_empty).2) as Hr.
  { unfold apply_hunks_to_files. destruct (hunks args); [done|]. apply apply_hunk_loop_returns. }
  revert Hr. unfold apply_hunks_to_files.
  destruct (match hunks args with [] => _ | _ => _ end) as [[f1 d1] [| | |]]; simpl;
    intros Hr; try done; repeat case_match; simplify_eq; done.
Qed.

(** C7: applying a patch always ends with a [Result].  For every patch text,
    working directory, filesystem and output writer (failing operations
    included), [apply_patch] neither panics nor diverges: none of the index
    operations of the parser and of the replacement engine is ever out of
    range. *)
Theorem apply_patch_total patch cwd out err (f : fs) :
  returns (apply_patch home_dir patch cwd out err f).2.
Proof. apply apply_patch_returns. Qed.
End totality.

Section exactness.
Context {fs : Type} `{ExecutorFileSystem fs}.

Definition text_at (f : fs) : view :=
  fun p => match read_file_text f p with inr content => Some content | inl _ => None end.

(** A path at which the crate considers a delta exact: a regular file that
    is not a symbolic link, or nothing. *)
Definition plain (f : fs) (p : path) : Prop :=
  note_existing_path_delta_support f p true = true.

Lemma note_existing f p b :
  note_existing_path_delta_support f p b = true <-> b = true /\ plain f p.
Proof.
  unfold plain, note_existing_path_delta_support.
  destruct (get_metadata f p) as [e|[? [] [] ? ?]]; simpl; try tauto.
  1: destruct (kind e). all: naive_solver.
Qed.
End exactness.

(** What the crate relies on: a filesystem in which distinct paths do not
    alias.  Failing operations other than a write reported as [NotFound] and
    a removal may do anything. *)
Class FsLaws (fs : Type) `{ExecutorFileSystem fs} := {
  write_ok : forall f p c f', plain f p -> write_file f p c = (f', inr tt) ->
    view_eq (text_at f') (upd (text_at f) p (Some c)) /\
    forall q, q = p \/ text_at f q <> None -> plain f q -> plain f' q;
  write_not_found : forall f p c f' e, write_file f p c = (f', inl e) -> kind e = NotFound ->
    view_eq (text_at f') (text_at f) /\ forall q, plain f q -> plain f' q;
  create_ok : forall f dir f', create_directory f dir true = (f', inr tt) ->
    view_eq (text_at f') (text_at f) /\
    forall q, ~ q `prefix_of` dir \/ text_at f q <> None -> plain f q -> plain f' q;
  remove_ok : forall f p f', plain f p -> remove f p plain_remove = (f', inr tt) ->
    view_eq (text_at f') (upd (text_at f) p None);
  remove_err : forall f p f' e, plain f p -> remove f p plain_remove = (f', inl e) ->
    forall q, q <> p -> text_at f' q = text_at f q
}.

Section exact_delta.
Context {fs : Type} `{FsLaws fs}.
Variable home_dir : option path.
Implicit Types (f : fs) (d : AppliedPatchDelta) (h : Hunk).

(** The hunk does not move a file onto itself. *)
Definition no_self_move (cwd : path) h : Prop :=
  match h with
  | UpdateFile p (Some dest) _ =>
    resolve_path_against_base home_dir dest cwd <> resolve_path_against_base home_dir p cwd
  | _ => True
  end.

Lemma parent_not_prefix (p dir : path) : parent p = Some dir -> ~ p `prefix_of` dir.
Proof.
  intros E Hp%prefix_length. unfold parent in E.
  destruct p as [|c p]; [done|].
  assert (dir = take (length (c :: p) - 1) (c :: p)) as ->
    by (destruct (last _) as [[]|]; congruence).
  rewrite length_take in Hp. simpl in Hp. lia.
Qed.

Lemma text_at_Some f p c : text_at f p = Some c <-> read_file_text f p = inr c.
Proof. unfold text_at. destruct (read_file_text f p); naive_solver. Qed.

(** A write that ends well, with or without the retry. *)
Lemma write_retry_ok f p c f' :
  plain f p -> write_file_with_missing_parent_retry f p c = (f', inr tt) ->
  view_eq (text_at f') (upd (text_at f) p (Some c)) /\
  forall q, q = p \/ text_at f q <> None -> plain f q -> plain f' q.
Proof.
  unfold write_file_with_missing_parent_retry. intros Hp E.
  destruct (write_file f p c) as [f1 [e|[]]] eqn:E1.
  2: { simplify_eq. by apply write_ok. }
  destruct (kind e) eqn:Hk; try discriminate.
  destruct (write_not_found _ _ _ _ _ E1 Hk) as [T1 P1].
  assert (exists f2, (match parent p with Some dir => create_directory f1 dir true
                       | None => (f1, inr tt) end) = (f2, inr tt) /\
            write_file f2 p c = (f', inr tt)) as (f2 & E2 & E3).
  { revert E. destruct (match parent p with Some _ => _ | None => _ end) as [f2 [|[]]]; [done|].
    destruct (write_file f2 p c) as [f3 [|[]]] eqn:E3; [done|]. intros [= <-]. by exists f2. }
  assert (plain f2 p /\ view_eq (text_at f2) (text_at f1) /\
    forall q, text_at f1 q <> None -> plain f1 q -> plain f2 q) as (Hp2 & T2 & P2).
  { destruct (parent p) as [dir|] eqn:Ep; [|by simplify_eq; split_and!; auto].
    destruct (create_ok _ _ _ E2) as [T2 P2]. split_and!; [|done|by auto].
    apply P2; [left; by apply parent_not_prefix|by apply P1]. }
  destruct (write_ok _ _ _ _ Hp2 E3) as [T3 P3]. split.
  - by rewrite T3, T2, T1.
  - intros q [->|Ht] Hpl; [by apply P3; [left|]|]. rewrite <- (T1 q) in Ht.
    apply P3; [right; by rewrite (T2 q)|]. apply P2; [done|by apply P1].
Qed.

(** What a step of the hunk loop guarantees. *)
Definition step_exact f d f' d' : Prop :=
  exact d' = true ->
  exact d = true /\
  exists cs, changes d' = changes d ++ cs /\ history (text_at f) cs (text_at f').

Lemma step_exact_refl f d d' :
  changes d' = changes d -> (exact d' = true -> exact d = true) -> step_exact f d f d'.
Proof.
  intros Ec Ee He. split; [auto|]. exists []. rewrite app_nil_r. by split.
Qed.

Lemma step_exact_inexact f d f' d' : exact d' = false -> step_exact f d f' d'.
Proof. unfold step_exact. congruence. Qed.

Lemma step_exact_one f d f' d' c :
  changes d' = changes d ++ [c] ->
  (exact d' = true -> exact d = true /\ faithful (text_at f) c /\
     view_eq (replay_change (text_at f) c) (text_at f')) ->
  step_exact f d f' d'.
Proof.
  intros Ec Ee He. destruct (Ee He) as (? & ? & ?). split; [done|]. exists [c]. by simpl.
Qed.

Lemma read_optional_exact f p b o :
  read_optional_file_text_for_delta f p b = (o, true) ->
  b = true /\ plain f p /\ text_at f p = o.
Proof.
  unfold read_optional_file_text_for_delta, text_at. intros E.
  destruct (read_file_text f p) as [e|c].
  - destruct (kind e); try discriminate. injection E as <- E.
    apply note_existing in E. naive_solver.
  - injection E as <- E. apply note_existing in E. naive_solver.
Qed.

Lemma apply_add_exact f d a s p contents f' d' r :
  apply_add_hunk f d a s p contents = (f', d', r) -> step_exact f d f' d'.
Proof.
  unfold apply_add_hunk. intros E.
  destruct (read_optional_file_text_for_delta f p (exact d)) as [o ex] eqn:Er.
  destruct (write_file_with_missing_parent_retry f p contents) as [f1 [e|[]]] eqn:Ew;
    simplify_eq; [by apply step_exact_inexact|].
  eapply step_exact_one; [done|]. simpl. intros ->.
  apply read_optional_exact in Er as (? & Hp & Ho). split_and!; [done|done|].
  destruct (write_retry_ok _ _ _ _ Hp Ew) as [T _]. by rewrite T.
Qed.

(** A failed removal that left the file as it was left the view as it was. *)
Lemma remove_failed f p f' e c :
  plain f p -> remove f p plain_remove = (f', inl e) -> text_at f p = Some c ->
  remove_failure_was_side_effect_free f' p (Some c) = true ->
  view_eq (text_at f) (text_at f').
Proof.
  intros Hp Er Ht Hs q. destruct (decide (q = p)) as [->|Hq].
  - revert Hs. unfold remove_failure_was_side_effect_free. rewrite Ht. symmetry.
    apply text_at_Some. destruct (read_file_text f' p); [done|].
    by apply str_eqb_eq in Hs as ->.
  - symmetry. by eapply remove_err.
Qed.

Lemma apply_delete_exact f d a s p f' d' r :
  apply_delete_hunk f d a s p = (f', d', r) -> step_exact f d f' d'.
Proof.
  unfold apply_delete_hunk. fold (text_at f p). intros E.
  destruct (text_at f p) as [c|] eqn:Ht; simpl in E.
  - destruct (ensure_not_directory f p); simplify_eq.
    { apply step_exact_refl; [done|]. simpl. by intros [? _]%note_existing. }
    destruct (remove f p plain_remove) as [f1 [e|[]]] eqn:Er; simplify_eq.
    + intros Hex. cbn [exact set_exact] in Hex. apply andb_true_iff in Hex as [Hn Hs].
      apply note_existing in Hn as [? Hp]. split; [done|]. exists []. rewrite app_nil_r.
      split; [done|]. by eapply remove_failed.
    + eapply step_exact_one; [done|]. simpl. intros [? Hp]%note_existing.
      split_and!; [done|done|]. by rewrite (remove_ok _ _ _ Hp Er).
  - apply step_exact_inexact. repeat case_match; simplify_eq; done.
Qed.

Lemma apply_move_exact f d a s p dest old new f' d' r :
  plain f p -> text_at f p = Some old -> dest <> p ->
  apply_move f d a s p dest old new = (f', d', r) -> step_exact f d f' d'.
Proof.
  unfold apply_move. intros Hp Ht Hne E.
  destruct (read_optional_file_text_for_delta f dest (exact d)) as [o ex] eqn:Er.
  destruct ex; [apply read_optional_exact in Er as (? & Hpd & Ho)|].
  2: { apply step_exact_inexact. repeat case_match; by simplify_eq. }
  destruct (write_file_with_missing_parent_retry f dest new) as [f1 [e|[]]] eqn:Ew;
    simplify_eq; [by apply step_exact_inexact|].
  destruct (write_retry_ok _ _ _ _ Hpd Ew) as [T P].
  assert (text_at f1 p = Some old) as Ht1.
  { rewrite (T p). unfold upd. by rewrite decide_False. }
  assert (plain f1 p) as Hp1 by (apply P; [right|]; congruence).
  destruct (ensure_not_directory f1 p); simplify_eq.
  { eapply step_exact_one; [done|]. intros _. by rewrite T. }
  destruct (remove f1 p plain_remove) as [f2 [e|[]]] eqn:Erm; simplify_eq.
  - eapply step_exact_one; [done|]. intros [_ Hs]%andb_true_iff. split_and!; [done|done|].
    rewrite <- (remove_failed _ _ _ _ _ Hp1 Erm Ht1 Hs). by rewrite T.
  - eapply step_exact_one; [simpl; by rewrite insert_app_r_alt, Nat.sub_diag by lia|].
    intros _. split_and!; [done|done|]. rewrite (remove_ok _ _ _ Hp1 Erm). simpl. by rewrite T.
Qed.

Lemma apply_move_inexact f d a s p dest old new f' d' r :
  exact d = false -> apply_move f d a s p dest old new = (f', d', r) -> exact d' = false.
Proof.
  unfold apply_move. intros Hd E.
  destruct (read_optional_file_text_for_delta f dest (exact d)) as [o []] eqn:Er.
  - apply read_optional_exact in Er. naive_solver congruence.
  - repeat case_match; by simplify_eq.
Qed.

Lemma derive_reads f p chunks old new :
  derive_new_contents_from_chunks f p chunks = Ok (old, new) -> text_at f p = Some old.
Proof.
  unfold derive_new_contents_from_chunks. rewrite text_at_Some.
  destruct (read_file_text f p); [done|]. intros (? & _ & [= -> _])%bind_Ok. done.
Qed.

Lemma apply_update_exact f d a s cwd p mv chunks f' d' r :
  (forall dest, mv = Some dest -> resolve_path_against_base home_dir dest cwd <> p) ->
  apply_update_hunk home_dir f d a s cwd p mv chunks = (f', d', r) -> step_exact f d f' d'.
Proof.
  unfold apply_update_hunk. intros Hmv E.
  destruct (derive_new_contents_from_chunks f p chunks) as [[old new]| | |] eqn:Ed; simplify_eq.
  2-4: by apply step_exact_refl; [|intros [? _]%note_existing].
  apply derive_reads in Ed.
  destruct (note_existing_path_delta_support f p (exact d)) eqn:Hn.
  - apply note_existing in Hn as [Hd Hp]. destruct mv as [dest|].
    + destruct d as [cs ?]; simpl in Hd; subst. eapply apply_move_exact in E; eauto.
    + destruct (write_file f p new) as [f1 [e|[]]] eqn:Ew; simplify_eq;
        [by apply step_exact_inexact|].
      eapply step_exact_one; [done|]. intros _. split_and!; [done|done|].
      destruct (write_ok _ _ _ _ Hp Ew) as [T _]. by rewrite T.
  - apply step_exact_inexact. destruct mv as [dest|].
    + by eapply apply_move_inexact in E.
    + repeat case_match; by simplify_eq.
Qed.

Lemma apply_hunk_exact cwd f d a h f' d' r :
  no_self_move cwd h -> apply_hunk home_dir cwd f d a h = (f', d', r) -> step_exact f d f' d'.
Proof.
  destruct h as [p contents|p|p mv chunks]; simpl; intros Hs E.
  - by eapply apply_add_exact.
  - by eapply apply_delete_exact.
  - eapply apply_update_exact; [|done]. by intros dest ->.
Qed.

Lemma apply_hunk_loop_exact cwd hs : forall f d a f' d' r,
  Forall (no_self_move cwd) hs ->
  apply_hunk_loop home_dir cwd f d a hs = (f', d', r) -> step_exact f d f' d'.
Proof.
  induction hs as [|h hs IH]; simpl; intros f d a f' d' r Hs E.
  { simplify_eq. by apply step_exact_refl. }
  inv Hs. destruct (apply_hunk home_dir cwd f d a h) as [[f1 d1] r1] eqn:E1.
  pose proof (apply_hunk_exact _ _ _ _ _ _ _ _ ltac:(done) E1) as S1.
  destruct r1 as [a1| | |]; simplify_eq; try done.
  intros Hex. destruct (IH _ _ _ _ _ _ ltac:(done) E Hex) as (Hex1 & cs2 & Ec2 & H2).
  destruct (S1 Hex1) as (Hd & cs1 & Ec1 & H1). split; [done|].
  exists (cs1 ++ cs2). split; [by rewrite app_assoc, <- Ec1|]. by eapply history_app.
Qed.

(** The delta that [apply_patch] reports, on success or in the failure. *)
Definition reported_delta (r : res ApplyPatchFailure AppliedPatchDelta)
    : option AppliedPatchDelta :=
  match r with
  | Ok d => Some d
  | Err failure => Some (delta failure)
  | Panic | NoFuel => None
  end.

Lemma apply_hunks_reports hunks cwd out err f f' out' err' r d :
  apply_hunks home_dir hunks cwd out err f = (f', out', err', r) ->
  reported_delta r = Some d ->
  exists r', apply_hunks_to_files home_dir hunks cwd f delta_empty = (f', d, r').
Proof.
  unfold apply_hunks. intros E Hd.
  destruct (apply_hunks_to_files home_dir hunks cwd f delta_empty) as [[f1 d1] r1].
  repeat case_match; simplify_eq/=; eauto.
Qed.

Lemma exact_delta_history patch cwd out err f f' out' err' r d :
  (forall args, parse_patch patch = Ok args -> Forall (no_self_move cwd) (hunks args)) ->
  apply_patch home_dir patch cwd out err f = (f', out', err', r) ->
  reported_delta r = Some d -> exact d = true ->
  history (text_at f) (changes d) (text_at f').
Proof.
  unfold apply_patch. intros Hs E Hd Hex.
  destruct (parse_patch patch) as [args|e| |]; simplify_eq/=.
  - destruct (apply_hunks_reports _ _ _ _ _ _ _ _ _ _ E Hd) as [r' E'].
    unfold apply_hunks_to_files in E'. specialize (Hs _ eq_refl).
    destruct (hunks args) eqn:Eh; [by simplify_eq|]. rewrite <- Eh in *.
    destruct (apply_hunk_loop_exact _ _ _ _ _ _ _ _ Hs E' Hex) as (_ & cs & -> & ?). done.
  - repeat case_match; by simplify_eq/=.
Qed.

(** C1: exact deltas are faithful.  Whenever [apply_patch], given a patch in
    which no update moves a file onto itself, reports a delta whose [exact]
    flag is set, on success or with an error half-way, the recorded changes
    replay from the files before the call to the files after it, and every old
    content they carry is the content the file had at that point.  Distinct
    paths name distinct files ([FsLaws]: no links).  Self-moves are left out
    because they delete the file: [self_move_deletes_file] below. *)
Theorem exact_delta_is_history patch cwd out err f f' out' err' r d :
  (forall args, parse_patch patch = Ok args -> Forall (no_self_move cwd) (hunks args)) ->
  apply_patch home_dir patch cwd out err f = (f', out', err', r) ->
  reported_delta r = Some d -> exact d = true ->
  history (text_at f) (changes d) (text_at f').
Proof. apply exact_delta_history. Qed.

(** Moving a file onto itself deletes it.  When the move target of an
    update hunk resolves to the updated path itself, a hunk that is reported
    as applied has removed the file, while the recorded change still says
    that the new contents are at that path. *)
Theorem self_move_deletes_file cwd f d a p dest chunks f' d' a' :
  resolve_path_against_base home_dir dest cwd = resolve_path_against_base home_dir p cwd ->
  plain f (resolve_path_against_base home_dir p cwd) ->
  apply_hunk home_dir cwd f d a (UpdateFile p (Some dest) chunks) = (f', d', Ok a') ->
  text_at f' (resolve_path_against_base home_dir p cwd) = None /\
  exists old new, last (changes d') =
    Some (mk_change (resolve_path_against_base home_dir p cwd)
            (Update (Some (resolve_path_against_base home_dir p cwd)) old (Some old) new)).
Proof.
  unfold apply_hunk, hunk_resolve_path, apply_update_hunk. intros -> Hp E.
  set (q := resolve_path_against_base home_dir p cwd) in *.
  destruct (derive_new_contents_from_chunks f q chunks) as [[old new]| | |] eqn:Ed; simplify_eq.
  apply derive_reads in Ed. unfold apply_move, read_optional_file_text_for_delta in E.
  rewrite (proj1 (text_at_Some _ _ _) Ed) in E.
  destruct (write_file_with_missing_parent_retry f q new) as [f1 [|[]]] eqn:Ew; [done|].
  destruct (write_retry_ok _ _ _ _ Hp Ew) as [_ P].
  destruct (ensure_not_directory f1 q); [done|].
  destruct (remove f1 q plain_remove) as [f2 [|[]]] eqn:Er; simplify_eq.
  rewrite (remove_ok _ _ _ (P q (or_introl eq_refl) Hp) Er q). unfold upd.
  rewrite decide_True by done. split; [done|]. exists old, new. simpl.
  rewrite insert_app_r_alt, Nat.sub_diag by lia. simpl. by rewrite last_snoc.
Qed.
End exact_delta.

(** ** An in-memory filesystem

    A model of the interface: a tree of directories and texts without links. *)

Inductive node := File (content : str) | Dir.

Notation mem := (gmap path node) (only parsing).

Definition not_found : io_error := mk_io_error NotFound (lit "No such file or directory").
Definition io_other : io_error := mk_io_error OtherKind (lit "Input/output error").

Definition prefixes (p : path) : list path := (fun n => take n p) <$> seq 1 (length p).

Definition mem_metadata (m : mem) (p : path) : io_error + FileMetadata :=
  match m !! p with
  | Some (File _) => inr (mk_metadata false true false 0 0)
  | Some Dir => inr (mk_metadata true false false 0 0)
  | None => inl not_found
  end.

Definition mem_read (m : mem) (p : path) : io_error + str :=
  match m !! p with
  | Some (File content) => inr content
  | Some Dir => inl io_other
  | None => inl not_found
  end.

Definition mem_write (m : mem) (p : path) (c : str) : mem * (io_error + unit) :=
  match m !! p, parent p with
  | Some Dir, _ => (m, inl io_other)
  | _, Some dir =>
    match m !! dir with
    | Some Dir => (<[p := File c]> m, inr tt)
    | Some (File _) => (m, inl io_other)
    | None => (m, inl not_found)
    end
  | _, None => (m, inl io_other)
  end.

Definition mem_add_dir (m : mem) (p : path) : mem :=
  match m !! p with None => <[p := Dir]> m | Some _ => m end.

Definition is_dir_or_absent (m : mem) (p : path) : bool :=
  match m !! p with Some (File _) => false | _ => true end.

Definition mem_mkdir (m : mem) (p : path) (recursive : bool) : mem * (io_error + unit) :=
  if forallb (is_dir_or_absent m) (prefixes p)
  then (foldl mem_add_dir m (prefixes p), inr tt)
  else (m, inl io_other).

Definition mem_remove (m : mem) (p : path) (_ : RemoveOptions) : mem * (io_error + unit) :=
  match m !! p with
  | Some (File _) => (delete p m, inr tt)
  | Some Dir => (m, inl io_other)
  | None => (m, inl not_found)
  end.

#[export] Instance mem_fs : ExecutorFileSystem mem := {|
  read_file_text := mem_read;
  get_metadata := mem_metadata;
  write_file := mem_write;
  create_directory := mem_mkdir;
  remove := mem_remove
|}.

Lemma mem_text (m : mem) p :
  text_at m p = match m !! p with Some (File c) => Some c | _ => None end.
Proof. unfold text_at, read_file_text. simpl. unfold mem_read. by destruct (m !! p) as [[]|]. Qed.

Lemma mem_plain (m : mem) p : plain m p <-> m !! p <> Some Dir.
Proof.
  unfold plain, note_existing_path_delta_support, get_metadata. simpl. unfold mem_metadata.
  destruct (m !! p) as [[]|]; simpl; naive_solver.
Qed.

Lemma mem_add_dirs ps : forall (m : mem) q,
  foldl mem_add_dir m ps !! q =
  match m !! q with Some n => Some n | None => if decide (q ∈ ps) then Some Dir else None end.
Proof.
  induction ps as [|p ps IH]; intros m q; cbn [foldl].
  { destruct (m !! q); [done|]. by rewrite decide_False by apply not_elem_of_nil. }
  rewrite IH. unfold mem_add_dir. destruct (decide (q = p)) as [->|Hq].
  - rewrite (decide_True (P := p ∈ p :: ps)) by left.
    destruct (m !! p) eqn:E; [by rewrite E|by rewrite lookup_insert_eq].
  - assert ((match m !! p with Some _ => m | None => <[p:=Dir]> m end) !! q = m !! q) as ->.
    { destruct (m !! p); [done|]. by rewrite lookup_insert_ne. }
    destruct (m !! q); [done|]. destruct (decide (q ∈ ps)), (decide (q ∈ p :: ps)); set_solver.
Qed.

Lemma prefixes_prefix (q p : path) : q ∈ prefixes p -> q `prefix_of` p.
Proof. unfold prefixes. intros (n & -> & _)%list_elem_of_fmap. apply prefix_take. Qed.

#[export] Instance mem_laws : FsLaws mem.
Proof.
  split; unfold write_file, create_directory, remove; simpl.
  - intros m p c m' Hp E. apply mem_plain in Hp.
    assert (m' = <[p := File c]> m) as ->.
    { unfold mem_write in E. repeat case_match; by simplify_eq. }
    split.
    + intros q. unfold upd. rewrite !mem_text. destruct (decide (q = p)) as [->|];
        [by rewrite lookup_insert_eq|by rewrite lookup_insert_ne].
    + intros q _. rewrite !mem_plain. destruct (decide (q = p)) as [->|];
        [by rewrite lookup_insert_eq|by rewrite lookup_insert_ne].
  - intros m p c m' e E _. assert (m' = m) as ->; [|done].
    unfold mem_write in E. repeat case_match; by simplify_eq.
  - intros m dir m' E. unfold mem_mkdir in E.
    destruct (forallb _ _); simplify_eq. split.
    + intros q. rewrite !mem_text, mem_add_dirs. repeat case_match; by simplify_eq.
    + intros q Hq. rewrite !mem_plain, mem_add_dirs. rewrite mem_text in Hq.
      destruct (m !! q) eqn:Em; [done|]. destruct (decide _) as [Hin%prefixes_prefix|]; naive_solver.
  - intros m p m' Hp E q. apply mem_plain in Hp.
    assert (m' = delete p m) as ->. { unfold mem_remove in E. repeat case_match; by simplify_eq. }
    unfold upd. rewrite !mem_text. destruct (decide (q = p)) as [->|];
      [by rewrite lookup_delete_eq|by rewrite lookup_delete_ne].
  - intros m p m' e Hp E q Hq. assert (m' = m) as ->; [|done].
    unfold mem_remove in E. repeat case_match; by simplify_eq.
Qed.

(** ** Concrete runs *)

Definition demo_cwd : path := components (lit "/w").

Definition demo_fs : mem :=
  <[components (lit "/") := Dir]> (<[demo_cwd := Dir]>
    (<[components (lit "/w/a.txt") := File (text ["one"; "two"]%string)]> ∅)).

Definition silent : writer := mk_writer [] None.

Definition demo_patch : str := join [NL]
  [lit "*** Begin Patch";
   lit "*** Add File: sub/n.txt"; lit "+hello";
   lit "*** Update File: a.txt"; lit "*** Move to: sub/b.txt";
   lit "@@"; lit " one"; lit "-two"; lit "+three";
   lit "*** Delete File: sub/n.txt";
   lit "*** End Patch"].

Lemma exact_delta_is_history_witness :
  match apply_patch None demo_patch demo_cwd silent silent demo_fs with
  | (f', _, _, Ok d) =>
    exact d = true /\ length (changes d) = 3 /\
    history (text_at demo_fs) (changes d) (text_at f')
  | _ => False
  end.
Proof.
  assert (match (apply_patch None demo_patch demo_cwd silent silent demo_fs).2 with
          | Ok d => exact d = true /\ length (changes d) = 3
          | _ => False
          end) as Hr by (by vm_compute).
  destruct (apply_patch None demo_patch demo_cwd silent silent demo_fs)
    as [[[f' out'] err'] r] eqn:E. cbn [snd] in Hr.
  destruct r as [d| | |]; [|done..]. destruct Hr as [Hex Hl]. split_and!; [done|done|].
  eapply (exact_delta_is_history None demo_patch); [|exact E|done|done].
  intros args Ha. vm_compute in Ha. injection Ha as <-. repeat constructor.
  by vm_compute.
Defined.

Lemma self_move_deletes_file_witness :
  match apply_hunk None demo_cwd demo_fs delta_empty (mk_affected [] [] [])
          (UpdateFile (lit "a.txt") (Some (lit "./a.txt"))
             [mk_chunk None [lit "two"] [lit "three"] false]) with
  | (f', d, Ok _) => exact d = true /\ text_at f' (components (lit "/w/a.txt")) = None
  | _ => False
  end.
Proof.
  assert (match apply_hunk None demo_cwd demo_fs delta_empty (mk_affected [] [] [])
                  (UpdateFile (lit "a.txt") (Some (lit "./a.txt"))
                     [mk_chunk None [lit "two"] [lit "three"] false]) with
          | (_, d, Ok _) => exact d = true
          | _ => False
          end) as Hr by (by vm_compute).
  destruct (apply_hunk _ _ _ _ _ _) as [[f' d] r] eqn:E.
  destruct r as [a'| | |]; [|done..]. split; [done|].
  apply (self_move_deletes_file None demo_cwd demo_fs _ _ (lit "a.txt") (lit "./a.txt")
           _ _ _ _ ltac:(by vm_compute) ltac:(by vm_compute) E).
Defined.
