(* ===== verification/TurnDiff.v ===== *)
(** * The per-turn diff tracker ([core/src/turn_diff_tracker.rs])

    The tracker folds committed deltas into a baseline and a current content
    per path, and renders the net change of a turn.  The iteration order of
    [HashMap]s, the [similar] crate and the SHA-1 digest are parameters. *)

From S2P Require Import PatchFs.

Notation TrackedPath := (str * path)%type (only parsing).

Definition ZERO_OID : str := lit "0000000000000000000000000000000000000000".
Definition DEV_NULL : str := lit "/dev/null".
Definition REGULAR_FILE_MODE : str := lit "100644".

Record TurnDiffTracker := mk_tracker {
  valid : bool;
  display_roots_by_environment : gmap str path;
  baseline_by_path : gmap TrackedPath str;
  current_by_path : gmap TrackedPath str;
  origin_by_current_path : gmap TrackedPath TrackedPath
}.

Definition tracker_default : TurnDiffTracker := mk_tracker true ∅ ∅ ∅ ∅.

(** Collecting pairs into a [HashMap]: a later pair replaces an earlier one. *)
Definition collect {K V} `{Countable K} (l : list (K * V)) : gmap K V :=
  foldl (fun m kv => <[kv.1 := kv.2]> m) ∅ l.

Definition with_environment_display_roots (display_roots : list (str * path)) : TurnDiffTracker :=
  mk_tracker true (collect display_roots) ∅ ∅ ∅.

Definition invalidate (t : TurnDiffTracker) : TurnDiffTracker :=
  mk_tracker false (display_roots_by_environment t) (baseline_by_path t) (current_by_path t)
    (origin_by_current_path t).

Definition contains_key {V} (m : gmap TrackedPath V) (p : TrackedPath) : bool :=
  match m !! p with Some _ => true | None => false end.

(** The guarded insertion into the baseline. *)
Definition seed_baseline (baseline current : gmap TrackedPath str) (p : TrackedPath)
    (content : option str) : gmap TrackedPath str :=
  if negb (contains_key current p) && negb (contains_key baseline p)
  then match content with Some c => <[p := c]> baseline | None => baseline end
  else baseline.

Definition apply_add (t : TurnDiffTracker) (p : TrackedPath) (content : str)
    (overwritten_content : option str) : TurnDiffTracker :=
  mk_tracker (valid t) (display_roots_by_environment t)
    (seed_baseline (baseline_by_path t) (current_by_path t) p overwritten_content)
    (<[p := content]> (current_by_path t))
    (delete p (origin_by_current_path t)).

Definition apply_delete (t : TurnDiffTracker) (p : TrackedPath) (content : str)
    : TurnDiffTracker :=
  mk_tracker (valid t) (display_roots_by_environment t)
    (seed_baseline (baseline_by_path t) (current_by_path t) p (Some content))
    (delete p (current_by_path t))
    (delete p (origin_by_current_path t)).

Definition apply_update (t : TurnDiffTracker) (source_path : TrackedPath)
    (move_path : option TrackedPath) (old_content : str)
    (overwritten_move_content : option str) (new_content : str) : TurnDiffTracker :=
  let baseline :=
    seed_baseline (baseline_by_path t) (current_by_path t) source_path (Some old_content) in
  match move_path with
  | Some dest_path =>
    let baseline := seed_baseline baseline (current_by_path t) dest_path overwritten_move_content in
    let origin := default source_path (origin_by_current_path t !! source_path) in
    let origins := delete dest_path (delete source_path (origin_by_current_path t)) in
    mk_tracker (valid t) (display_roots_by_environment t) baseline
      (<[dest_path := new_content]> (delete source_path (current_by_path t)))
      (if bool_decide (dest_path = origin) then origins else <[dest_path := origin]> origins)
  | None =>
    mk_tracker (valid t) (display_roots_by_environment t) baseline
      (<[source_path := new_content]> (current_by_path t))
      (origin_by_current_path t)
  end.

Definition apply_change (t : TurnDiffTracker) (environment_id : str) (c : AppliedPatchChange)
    : TurnDiffTracker :=
  let source_path := (environment_id, change_path c) in
  match change c with
  | Add content overwritten_content => apply_add t source_path content overwritten_content
  | Delete content => apply_delete t source_path content
  | Update move_path old_content overwritten_move_content new_content =>
    apply_update t source_path (pair environment_id <$> move_path) old_content
      overwritten_move_content new_content
  end.

Definition track_delta (t : TurnDiffTracker) (environment_id : str) (d : AppliedPatchDelta)
    : TurnDiffTracker :=
  if negb (exact d) then invalidate t
  else foldl (fun t c => apply_change t environment_id c) t (changes d).

(** ** Rendering *)

(** Stable insertion sort by a string key. *)
Fixpoint insert_by_key {A} (key : A -> str) (x : A) (l : list A) : list A :=
  match l with
  | [] => [x]
  | y :: l' => if str_leb (key x) (key y) then x :: l else y :: insert_by_key key x l'
  end.

Definition sort_by_key {A} (key : A -> str) (l : list A) : list A :=
  foldr (insert_by_key key) [] l.

(** [Path::strip_prefix] *)
Fixpoint path_strip_prefix (root p : path) : option path :=
  match root, p with
  | [], _ => Some p
  | c :: root', c' :: p' => if decide (c = c') then path_strip_prefix root' p' else None
  | _ :: _, [] => None
  end.

Definition BACKSLASH : char := 92%N.

Definition display_path (t : TurnDiffTracker) (p : TrackedPath) : str :=
  let shown :=
    match display_roots_by_environment t !! p.1 with
    | Some root => default p.2 (path_strip_prefix root p.2)
    | None => p.2
    end in
  let shown := (fun c => if (c =? BACKSLASH)%N then SLASH else c) <$> display shown in
  if (1 <? size (display_roots_by_environment t)) && negb (str_eqb p.1 [])
  then p.1 ++ [SLASH] ++ shown
  else shown.

Section render.
(** The order in which a [HashMap] yields its entries. *)
Context (hash_order : forall A, list A -> list A).
(** [similar]: left and right text, old and new header. *)
Variable similar_unified_diff : str -> str -> str -> str -> str.
(** The hexadecimal SHA-1 digest of some bytes. *)
Variable sha1_hex : list N -> str.

Definition git_blob_oid (content : str) : str :=
  let data := as_bytes content in
  sha1_hex (as_bytes (lit "blob " ++ dec (length data)) ++ [0%N] ++ data).

Definition rename_candidate (t : TurnDiffTracker) (e : TrackedPath * TrackedPath)
    : option (TrackedPath * TrackedPath) :=
  let '(dest_path, origin_path) := e in
  if bool_decide (dest_path = origin_path)
     || contains_key (current_by_path t) origin_path
     || negb (contains_key (current_by_path t) dest_path)
     || negb (contains_key (baseline_by_path t) origin_path)
     || contains_key (baseline_by_path t) dest_path
  then None
  else Some (origin_path, dest_path).

Definition rename_pairs (t : TurnDiffTracker) : gmap TrackedPath TrackedPath :=
  collect (omap (rename_candidate t) (hash_order _ (map_to_list (origin_by_current_path t)))).

Definition render_diff (t : TurnDiffTracker) (left_path : TrackedPath) (left_content : option str)
    (right_path : TrackedPath) (right_content : option str) : option str :=
  if bool_decide (left_content = right_content) then None
  else
    let left_display := display_path t left_path in
    let right_display := display_path t right_path in
    let left_oid := match left_content with None => ZERO_OID | Some c => git_blob_oid c end in
    let right_oid := match right_content with None => ZERO_OID | Some c => git_blob_oid c end in
    let diff := lit "diff --git a/" ++ left_display ++ lit " b/" ++ right_display ++ [NL] in
    match
      match left_content, right_content with
      | None, Some _ => Some (diff ++ lit "new file mode " ++ REGULAR_FILE_MODE ++ [NL])
      | Some _, None => Some (diff ++ lit "deleted file mode " ++ REGULAR_FILE_MODE ++ [NL])
      | Some _, Some _ => Some diff
      | None, None => None
      end
    with
    | None => None
    | Some diff =>
      let old_header :=
        match left_content with Some _ => lit "a/" ++ left_display | None => DEV_NULL end in
      let new_header :=
        match right_content with Some _ => lit "b/" ++ right_display | None => DEV_NULL end in
      Some (diff ++ lit "index " ++ left_oid ++ lit ".." ++ right_oid ++ [NL] ++
            similar_unified_diff (default [] left_content) (default [] right_content)
              old_header new_header)
    end.

Definition render_rename_diff (t : TurnDiffTracker) (source_path dest_path : TrackedPath)
    : option str :=
  render_diff t source_path (baseline_by_path t !! source_path)
    dest_path (current_by_path t !! dest_path).

Definition render_path_diff (t : TurnDiffTracker) (p : TrackedPath) : option str :=
  render_diff t p (baseline_by_path t !! p) p (current_by_path t !! p).

Definition push_diff (aggregated : str) (diff : option str) : str :=
  match diff with
  | Some diff =>
    let aggregated := aggregated ++ diff in
    if ends_with [NL] aggregated then aggregated else aggregated ++ [NL]
  | None => aggregated
  end.

(** The loop of [get_unified_diff] over the sorted paths. *)
Fixpoint diff_loop (t : TurnDiffTracker) (pairs : gmap TrackedPath TrackedPath)
    (destinations : gset TrackedPath) (paths : list TrackedPath)
    (handled : gset TrackedPath) (aggregated : str) : str :=
  match paths with
  | [] => aggregated
  | p :: rest =>
    if bool_decide (p ∈ handled) then diff_loop t pairs destinations rest handled aggregated
    else
      let handled := {[p]} ∪ handled in
      if bool_decide (p ∈ destinations)
      then diff_loop t pairs destinations rest handled aggregated
      else
        match pairs !! p with
        | Some dest =>
          diff_loop t pairs destinations rest ({[dest]} ∪ handled)
            (push_diff aggregated (render_rename_diff t p dest))
        | None =>
          diff_loop t pairs destinations rest handled
            (push_diff aggregated (render_path_diff t p))
        end
  end.

Definition paired_destinations (pairs : gmap TrackedPath TrackedPath) : gset TrackedPath :=
  list_to_set (map_to_list pairs).*2.

Definition diff_paths (t : TurnDiffTracker) : list TrackedPath :=
  dedup (sort_by_key (display_path t)
    (hash_order _ (map_to_list (baseline_by_path t)).*1 ++
     hash_order _ (map_to_list (current_by_path t)).*1)).

Definition get_unified_diff (t : TurnDiffTracker) : option str :=
  if negb (valid t) then None
  else
    let pairs := rename_pairs t in
    let aggregated := diff_loop t pairs (paired_destinations pairs) (diff_paths t) ∅ [] in
    match aggregated with [] => None | _ => Some aggregated end.
End render.

(** ** The tracker knows the first and the last content of every path

    A world gives the text of every path of every environment. *)

Definition world : Type := TrackedPath -> option str.

Definition at_env (w : world) (e : str) : view := fun p => w (e, p).

Definition wupd (w : world) (e : str) (v : view) : world :=
  fun p => if decide (p.1 = e) then v p.2 else w p.

(** [tracks w0 w t]: every tracked path has its content in [w0] as the
    baseline and its content in [w] as the current one, and every other path
    is unchanged. *)
Definition tracks (w0 w : world) (t : TurnDiffTracker) : Prop :=
  forall p,
    (baseline_by_path t !! p = w0 p /\ current_by_path t !! p = w p) \/
    (baseline_by_path t !! p = None /\ current_by_path t !! p = None /\ w p = w0 p).

(** What [tracks] says at one path. *)
Definition entry_ok (b0 c0 : option str) (b c : option str) : Prop :=
  (b = b0 /\ c = c0) \/ (b = None /\ c = None /\ c0 = b0).

(** The baseline of a path after seeding, from its baseline and current
    content. *)
Definition seeded_with (b c o : option str) : option str :=
  match b, c with None, None => o | _, _ => b end.

Lemma seed_baseline_same b c p o :
  seed_baseline b c p o !! p =
  seeded_with (b !! p) (c !! p) o.
Proof.
  unfold seed_baseline, contains_key.
  destruct (b !! p) eqn:Hb, (c !! p) eqn:Hc; simpl; rewrite ?Hb; try done.
  simpl. destruct o; [by rewrite lookup_insert_eq|done].
Qed.

Lemma seed_baseline_other b c p q o : q <> p -> seed_baseline b c p o !! q = b !! q.
Proof.
  intros. unfold seed_baseline. destruct (_ && _); [|done].
  destruct o; [by rewrite lookup_insert_ne|done].
Qed.

(** Seeding with the content the path has now keeps the invariant and makes
    the path tracked, or leaves an absent path untracked. *)
Lemma entry_seed b0 c0 (b c : option str) :
  entry_ok b0 c0 b c ->
  seeded_with b c c0 = b0.
Proof. intros [[-> ->]|(-> & -> & ->)]; [|done]. destruct b0, c0; done. Qed.

Definition world_eq : relation world := pointwise_relation TrackedPath eq.

#[export] Instance world_equivalence : Equivalence world_eq.
Proof. unfold world_eq. apply _. Qed.

Definition wset (w : world) (p : TrackedPath) (o : option str) : world :=
  fun q => if decide (q = p) then o else w q.

#[export] Instance tracks_proper : Proper (world_eq ==> world_eq ==> eq ==> iff) tracks.
Proof.
  intros w0 w0' E0 w w' E ? t ->. unfold tracks.
  split; intros Ht p; specialize (Ht p); by rewrite ?(E0 p), ?(E p) in *.
Qed.

Lemma wset_same w p o : wset w p o p = o.
Proof. unfold wset. by rewrite decide_True. Qed.

Lemma wset_other w p q o : q <> p -> wset w p o q = w q.
Proof. intros. unfold wset. by rewrite decide_False. Qed.

Section steps.
Context (w0 w : world) (t : TurnDiffTracker) (Ht : tracks w0 w t).

Lemma seeded p o :
  w p = o -> seed_baseline (baseline_by_path t) (current_by_path t) p o !! p = w0 p.
Proof. intros <-. rewrite seed_baseline_same. apply entry_seed, (Ht p). Qed.

Lemma tracks_add p content :
  tracks w0 (wset w p (Some content)) (apply_add t p content (w p)).
Proof.
  intros q. simpl. destruct (decide (q = p)) as [->|Hq].
  - left. by rewrite seeded, lookup_insert_eq, wset_same.
  - rewrite seed_baseline_other, lookup_insert_ne, wset_other by done. apply Ht.
Qed.

Lemma tracks_delete p content :
  w p = Some content -> tracks w0 (wset w p None) (apply_delete t p content).
Proof.
  intros Hp q. simpl. destruct (decide (q = p)) as [->|Hq].
  - left. by rewrite seeded, lookup_delete_eq, wset_same.
  - rewrite seed_baseline_other, lookup_delete_ne, wset_other by done. apply Ht.
Qed.

Lemma tracks_update p old new ow :
  w p = Some old -> tracks w0 (wset w p (Some new)) (apply_update t p None old ow new).
Proof.
  intros Hp q. simpl. destruct (decide (q = p)) as [->|Hq].
  - left. by rewrite seeded, lookup_insert_eq, wset_same.
  - rewrite seed_baseline_other, lookup_insert_ne, wset_other by done. apply Ht.
Qed.

Lemma tracks_move p dest old new :
  w p = Some old -> dest <> p ->
  tracks w0 (wset (wset w dest (Some new)) p None)
    (apply_update t p (Some dest) old (w dest) new).
Proof.
  intros Hp Hd q. simpl. destruct (decide (q = p)) as [->|Hq].
  - left. rewrite seed_baseline_other by done.
    by rewrite seeded, lookup_insert_ne, lookup_delete_eq, wset_same.
  - rewrite (wset_other _ p) by done. destruct (decide (q = dest)) as [->|Hqd].
    + left. rewrite seed_baseline_same, seed_baseline_other, lookup_insert_eq, wset_same by done.
      split; [|done]. apply entry_seed, (Ht dest).
    + rewrite !seed_baseline_other, lookup_insert_ne, lookup_delete_ne, wset_other by done.
      apply Ht.
Qed.
End steps.

Lemma at_env_set w e p o : view_eq (at_env (wset w (e, p) o) e) (upd (at_env w e) p o).
Proof.
  intros q. unfold at_env, wset, upd.
  destruct (decide (q = p)) as [->|]; [by rewrite decide_True|by rewrite decide_False by congruence].
Qed.

(** The world after a recorded change. *)
Definition replay_world (w : world) (e : str) (c : AppliedPatchChange) : world :=
  match change c with
  | Add content _ => wset w (e, change_path c) (Some content)
  | Delete _ => wset w (e, change_path c) None
  | Update None _ _ new_content => wset w (e, change_path c) (Some new_content)
  | Update (Some dest) _ _ new_content =>
    wset (wset w (e, dest) (Some new_content)) (e, change_path c) None
  end.

Lemma replay_world_env w e c :
  view_eq (at_env (replay_world w e c) e) (replay_change (at_env w e) c).
Proof.
  unfold replay_world, replay_change.
  destruct (change c) as [| |[]]; by rewrite !at_env_set.
Qed.

Lemma replay_world_other w e c q : q.1 <> e -> replay_world w e c q = w q.
Proof.
  intros Hq. unfold replay_world.
  destruct (change c) as [| |[]]; rewrite ?wset_other; try done; by intros ->.
Qed.

Lemma tracks_change w0 w t e c :
  tracks w0 w t -> faithful (at_env w e) c -> tracks w0 (replay_world w e c) (apply_change t e c).
Proof.
  intros Ht. unfold faithful, replay_world, apply_change, at_env.
  destruct (change c) as [content ow|content|[dest|] old ow new].
  - intros <-. by apply tracks_add.
  - intros. by apply tracks_delete.
  - intros (? & <- & ?). apply tracks_move; [done|done|congruence].
  - intros [? _]. by apply tracks_update.
Qed.

Lemma tracks_changes w0 e cs : forall w t v,
  tracks w0 w t -> history (at_env w e) cs v ->
  tracks w0 (wupd w e v) (foldl (fun t c => apply_change t e c) t cs).
Proof.
  induction cs as [|c cs IH]; simpl; intros w t v Ht Hh.
  - assert (world_eq (wupd w e v) w) as ->; [|done].
    intros [e' p]. unfold wupd. simpl. destruct (decide (e' = e)) as [->|]; [|done].
    symmetry. apply (Hh p).
  - destruct Hh as [Hf Hh].
    assert (world_eq (wupd w e v) (wupd (replay_world w e c) e v)) as ->.
    { intros q. unfold wupd. destruct (decide (q.1 = e)); [done|].
      by rewrite replay_world_other. }
    apply IH; [by apply tracks_change|]. by rewrite replay_world_env.
Qed.

(** The deltas of a turn, each recorded in its environment, lead from [w] to
    [w']. *)
Fixpoint session (w : world) (ds : list (str * AppliedPatchDelta)) (w' : world) : Prop :=
  match ds with
  | [] => world_eq w w'
  | (e, d) :: ds' =>
    exists v, history (at_env w e) (changes d) v /\ session (wupd w e v) ds' w'
  end.

Definition track_all (t : TurnDiffTracker) (ds : list (str * AppliedPatchDelta))
    : TurnDiffTracker :=
  foldl (fun t ed => track_delta t ed.1 ed.2) t ds.

Lemma foldl_apply_valid e cs : forall t,
  valid (foldl (fun t c => apply_change t e c) t cs) = valid t.
Proof.
  induction cs as [|c cs IH]; intros t; simpl; [done|]. rewrite IH.
  unfold apply_change. destruct (change c) as [| |[]]; done.
Qed.

Lemma track_all_tracks w0 ds : forall w t w',
  tracks w0 w t -> valid t = true -> Forall (fun ed => exact ed.2 = true) ds ->
  session w ds w' ->
  tracks w0 w' (track_all t ds) /\ valid (track_all t ds) = true.
Proof.
  induction ds as [|[e d] ds IH]; simpl; intros w t w' Ht Hv Hex Hs.
  - by rewrite <- Hs.
  - destruct Hs as (v & Hh & Hs). inv Hex.
    apply (IH (wupd w e v)); try done.
    + unfold track_delta. simpl in *. rewrite H1. by apply tracks_changes.
    + unfold track_delta. simpl in *. rewrite H1. simpl. by rewrite foldl_apply_valid.
Qed.

Lemma tracks_init w roots : tracks w w (with_environment_display_roots roots).
Proof. intros p. right. simpl. by rewrite lookup_empty. Qed.

(** ** The rendered diff *)

Lemma insert_by_key_perm {A} (key : A -> str) x l : insert_by_key key x l ≡ₚ x :: l.
Proof.
  induction l as [|y l IH]; simpl; [done|]. destruct (str_leb _ _); [done|].
  rewrite IH. apply Permutation_swap.
Qed.

Lemma sort_by_key_perm {A} (key : A -> str) l : sort_by_key key l ≡ₚ l.
Proof. induction l as [|x l IH]; simpl; [done|]. by rewrite insert_by_key_perm, IH. Qed.

Lemma collect_elem {K V} `{Countable K} (l : list (K * V)) k v :
  collect l !! k = Some v -> (k, v) ∈ l.
Proof.
  unfold collect. induction l as [|[k' v'] l IH] using rev_ind; simpl; [done|].
  rewrite foldl_app. simpl. destruct (decide (k = k')) as [->|].
  - rewrite lookup_insert_eq. set_solver.
  - rewrite lookup_insert_ne by done. set_solver.
Qed.

(** The pairs of paths the loop renders, in order. *)
Fixpoint entries (pairs : gmap TrackedPath TrackedPath) (destinations : gset TrackedPath)
    (paths : list TrackedPath) (handled : gset TrackedPath)
    : list (TrackedPath * TrackedPath) :=
  match paths with
  | [] => []
  | p :: rest =>
    if bool_decide (p ∈ handled) then entries pairs destinations rest handled
    else
      let handled := {[p]} ∪ handled in
      if bool_decide (p ∈ destinations) then entries pairs destinations rest handled
      else
        match pairs !! p with
        | Some dest => (p, dest) :: entries pairs destinations rest ({[dest]} ∪ handled)
        | None => (p, p) :: entries pairs destinations rest handled
        end
  end.

(** [touches e q]: the entry [e] is about [q]. *)
Definition touches (e : TrackedPath * TrackedPath) (q : TrackedPath) : Prop :=
  e.1 = q \/ e.2 = q.

Lemma entries_sources pairs dests paths : forall handled,
  (forall o d, pairs !! o = Some d -> d ∈ dests) ->
  NoDup (entries pairs dests paths handled).*1 /\
  (forall p, p ∈ (entries pairs dests paths handled).*1 <->
     p ∈ paths /\ p ∉ dests /\ p ∉ handled) /\
  (forall e, e ∈ entries pairs dests paths handled -> e.2 = default e.1 (pairs !! e.1)).
Proof.
  induction paths as [|p paths IH]; intros handled Hd; cbn [entries].
  { split_and!; [constructor|set_solver|set_solver]. }
  assert (forall extra, extra ⊆ dests ∪ {[p]} -> p ∉ dests -> p ∉ handled ->
    forall d, d = default p (pairs !! p) ->
    let l := (p, d) :: entries pairs dests paths (extra ∪ ({[p]} ∪ handled)) in
    NoDup l.*1 /\
    (forall q, q ∈ l.*1 <-> q ∈ p :: paths /\ q ∉ dests /\ q ∉ handled) /\
    (forall e, e ∈ l -> e.2 = default e.1 (pairs !! e.1))) as Hstep.
  { intros extra Hex Hp Hh d Ed l. unfold l. clear l.
    destruct (IH (extra ∪ ({[p]} ∪ handled)) Hd) as (I1 & I2 & I3). split_and!.
    - cbn [fmap list_fmap fst]. apply NoDup_cons. split; [|done].
      rewrite I2. intros (_ & _ & Hn). apply Hn. clear. set_solver.
    - intros q. cbn [fmap list_fmap fst]. rewrite !elem_of_cons, I2.
      clear -Hex Hp Hh. destruct (decide (q = p)) as [->|]; set_solver.
    - intros e [->|He]%elem_of_cons; [done|by apply I3]. }
  destruct (bool_decide_reflect (p ∈ handled)) as [Hh|Hh].
  { destruct (IH handled Hd) as (I1 & I2 & I3). split_and!; [done| |done].
    intros q. rewrite I2, elem_of_cons. clear -Hh. set_solver. }
  destruct (bool_decide_reflect (p ∈ dests)) as [Hp|Hp].
  { destruct (IH ({[p]} ∪ handled) Hd) as (I1 & I2 & I3). split_and!; [done| |done].
    intros q. rewrite I2, elem_of_cons. clear -Hh Hp. set_solver. }
  destruct (pairs !! p) as [d|] eqn:Ep.
  - apply (Hstep {[d]}); [|done..]. apply Hd in Ep. clear -Ep. set_solver.
  - specialize (Hstep ∅). rewrite union_empty_l_L in Hstep. by apply Hstep; [clear; set_solver|..].
Qed.

Section net_diff.
Context (hash_order : forall A, list A -> list A).
Context (similar_unified_diff : str -> str -> str -> str -> str) (sha1_hex : list N -> str).
Hypothesis hash_order_perm : forall A (l : list A), hash_order A l ≡ₚ l.

Lemma contains_key_true {V} (m : gmap TrackedPath V) p :
  contains_key m p = true <-> m !! p <> None.
Proof. unfold contains_key. destruct (m !! p); naive_solver. Qed.

Lemma contains_key_false {V} (m : gmap TrackedPath V) p :
  contains_key m p = false <-> m !! p = None.
Proof. unfold contains_key. destruct (m !! p); naive_solver. Qed.

(** A rename pair links a deleted baseline path and a path that is new. *)
Lemma rename_pairs_spec t o d :
  rename_pairs hash_order t !! o = Some d ->
  origin_by_current_path t !! d = Some o /\ d <> o /\
  current_by_path t !! o = None /\ current_by_path t !! d <> None /\
  baseline_by_path t !! o <> None /\ baseline_by_path t !! d = None.
Proof.
  intros Hp%collect_elem. apply list_elem_of_omap in Hp as ([d' o'] & Hin & Hc).
  rewrite hash_order_perm in Hin. apply elem_of_map_to_list in Hin.
  unfold rename_candidate in Hc.
  destruct (bool_decide_reflect (d' = o')); [done|]. simpl in Hc.
  destruct (contains_key (current_by_path t) o') eqn:E1; [done|].
  destruct (contains_key (current_by_path t) d') eqn:E2; [|done].
  destruct (contains_key (baseline_by_path t) o') eqn:E3; [|done].
  destruct (contains_key (baseline_by_path t) d') eqn:E4; [done|].
  simpl in Hc. simplify_eq. rewrite contains_key_true in E2, E3.
  rewrite contains_key_false in E1, E4. done.
Qed.

Lemma destinations_spec pairs d :
  d ∈ paired_destinations pairs <-> exists o, pairs !! o = Some d.
Proof.
  unfold paired_destinations. rewrite elem_of_list_to_set, list_elem_of_fmap. split.
  - intros ([o d'] & -> & Hin%elem_of_map_to_list). by exists o.
  - intros [o Ho]. exists (o, d). by rewrite elem_of_map_to_list.
Qed.

Lemma diff_paths_spec t p :
  p ∈ diff_paths hash_order t <->
  baseline_by_path t !! p <> None \/ current_by_path t !! p <> None.
Proof.
  unfold diff_paths. rewrite dedup_elem, sort_by_key_perm, !hash_order_perm, elem_of_app,
    !list_elem_of_fmap.
  assert (forall m : gmap TrackedPath str,
    (exists y, p = y.1 /\ y ∈ map_to_list m) <-> m !! p <> None) as Hm; [|by rewrite !Hm].
  intros m. split.
  - intros ([q c] & -> & Hin%elem_of_map_to_list). simpl. by rewrite Hin.
  - destruct (m !! p) as [c|] eqn:E; [|done]. intros _. exists (p, c).
    by rewrite elem_of_map_to_list.
Qed.

(** The entries of a tracker. *)
Definition diff_entries (t : TurnDiffTracker) : list (TrackedPath * TrackedPath) :=
  let pairs := rename_pairs hash_order t in
  entries pairs (paired_destinations pairs) (diff_paths hash_order t) ∅.

Lemma diff_entries_spec t :
  let pairs := rename_pairs hash_order t in
  NoDup (diff_entries t).*1 /\
  (forall p, p ∈ (diff_entries t).*1 <->
     (baseline_by_path t !! p <> None \/ current_by_path t !! p <> None) /\
     p ∉ paired_destinations pairs) /\
  (forall e, e ∈ diff_entries t -> e.2 = default e.1 (pairs !! e.1)).
Proof.
  intros pairs. destruct (entries_sources pairs (paired_destinations pairs)
    (diff_paths hash_order t) ∅) as (I1 & I2 & I3).
  { intros o d Ho. apply destinations_spec. by exists o. }
  split_and!; [done| |done]. intros p. unfold diff_entries. fold pairs.
  rewrite I2, diff_paths_spec. split; [naive_solver|]. intros [? ?].
  split_and!; [done|done|apply not_elem_of_empty].
Qed.

Lemma diff_loop_entries t pairs dests paths : forall handled agg,
  diff_loop similar_unified_diff sha1_hex t pairs dests paths handled agg =
  foldl (fun agg e => push_diff agg (render_rename_diff similar_unified_diff sha1_hex t e.1 e.2))
    agg (entries pairs dests paths handled).
Proof.
  induction paths as [|p paths IH]; intros handled agg; cbn [diff_loop entries]; [done|].
  destruct (bool_decide _); [done|]. destruct (bool_decide _); [done|].
  by destruct (pairs !! p); rewrite IH.
Qed.

Lemma tracks_tracked w0 w t p :
  tracks w0 w t -> baseline_by_path t !! p <> None \/ current_by_path t !! p <> None ->
  baseline_by_path t !! p = w0 p /\ current_by_path t !! p = w p.
Proof. intros Ht Hp. destruct (Ht p) as [|(? & ? & _)]; naive_solver. Qed.

(** What one entry says of the two worlds. *)
Lemma entry_contents w0 w t e :
  tracks w0 w t -> e ∈ diff_entries t ->
  baseline_by_path t !! e.1 = w0 e.1 /\ current_by_path t !! e.2 = w e.2 /\
  (e.1 <> e.2 -> w e.1 = None /\ w0 e.2 = None).
Proof.
  intros Ht He. destruct (diff_entries_spec t) as (_ & I2 & I3).
  destruct (proj1 (I2 e.1)) as [Htr _]; [by apply list_elem_of_fmap_2|].
  destruct (tracks_tracked _ _ _ _ Ht Htr) as [Eb Ec]. rewrite (I3 _ He).
  destruct (rename_pairs hash_order t !! e.1) as [d|] eqn:Ep; simpl; [|by split_and!].
  destruct (rename_pairs_spec _ _ _ Ep) as (_ & _ & H1 & H2 & H3 & H4).
  destruct (tracks_tracked _ _ _ d Ht) as [Ed1 Ed2]; [by right|]. split_and!; [done|done|].
  intros _. by rewrite <- Ec, <- Ed1.
Qed.

Lemma entries_disjoint t e e' q :
  e ∈ diff_entries t -> e' ∈ diff_entries t -> touches e q -> touches e' q -> e = e'.
Proof.
  intros He He' Hq Hq'. destruct (diff_entries_spec t) as (I1 & I2 & I3).
  pose proof (I3 _ He) as E2. pose proof (I3 _ He') as E2'.
  destruct (proj1 (I2 e.1)) as [_ Hnd]; [by apply list_elem_of_fmap_2|].
  destruct (proj1 (I2 e'.1)) as [_ Hnd']; [by apply list_elem_of_fmap_2|].
  rewrite destinations_spec in Hnd, Hnd'.
  assert (e.1 = e'.1) as E1.
  { unfold touches in *.
    destruct (rename_pairs hash_order t !! e.1) as [d|] eqn:Ep,
      (rename_pairs hash_order t !! e'.1) as [d'|] eqn:Ep'; simpl in E2, E2'.
    1: destruct (rename_pairs_spec _ _ _ Ep) as [Ho _],
         (rename_pairs_spec _ _ _ Ep') as [Ho' _].
    all: destruct Hq, Hq'; try congruence; exfalso;
      first [apply Hnd; exists e'.1; congruence | apply Hnd'; exists e.1; congruence]. }
  destruct e as [a b], e' as [a' b']; simpl in *. subst. congruence.
Qed.

Lemma entries_cover w0 w t q :
  tracks w0 w t -> (forall e, e ∈ diff_entries t -> ~ touches e q) -> w q = w0 q.
Proof.
  intros Ht Hno. destruct (diff_entries_spec t) as (_ & I2 & I3).
  destruct (Ht q) as [[Hb Hc]|(_ & _ & ?)]; [|done].
  destruct (decide (baseline_by_path t !! q = None /\ current_by_path t !! q = None))
    as [[? ?]|Hn]; [congruence|].
  assert (forall p, p ∈ (diff_entries t).*1 -> exists e, e ∈ diff_entries t /\ e.1 = p) as Hfst.
  { intros p (e & -> & ?)%list_elem_of_fmap. eauto. }
  exfalso. destruct (decide (q ∈ paired_destinations (rename_pairs hash_order t))) as [Hd|Hd].
  - apply destinations_spec in Hd as [o Ho].
    destruct (rename_pairs_spec _ _ _ Ho) as (Horg & _ & Hco & _ & Hbo & _).
    destruct (Hfst o) as (e & He & E1).
    { apply I2. split; [by left|]. rewrite destinations_spec. intros [o' Ho'].
      destruct (rename_pairs_spec _ _ _ Ho') as (_ & _ & _ & ? & _ & ?). congruence. }
    apply (Hno _ He). right. rewrite (I3 _ He), E1, Ho. done.
  - destruct (Hfst q) as (e & He & E1).
    { apply I2. split; [|done]. destruct (baseline_by_path t !! q), (current_by_path t !! q);
        naive_solver. }
    apply (Hno _ He). by left.
Qed.

(** The diff of one file in the format of git, from the displayed name [l] and
    the content before to the displayed name [r] and the content after: nothing
    when the content is the same (also under a new name), otherwise the header
    with the names, the mode of a created or deleted file and the blob ids, and
    the unified diff of the two texts. *)
Definition blob_id (content : str) : str :=
  sha1_hex (as_bytes (lit "blob " ++ dec (length (as_bytes content))) ++ [0%N] ++ as_bytes content).

Definition header (ls : list str) : str := concat ((fun l => l ++ [NL]) <$> ls).

Inductive file_diff (l r : str) : option str -> option str -> option str -> Prop :=
| diff_same c : file_diff l r c c None
| diff_created new :
    file_diff l r None (Some new) (Some (header
      [lit "diff --git a/" ++ l ++ lit " b/" ++ r;
       lit "new file mode 100644";
       lit "index 0000000000000000000000000000000000000000.." ++ blob_id new] ++
      similar_unified_diff [] new (lit "/dev/null") (lit "b/" ++ r)))
| diff_deleted old :
    file_diff l r (Some old) None (Some (header
      [lit "diff --git a/" ++ l ++ lit " b/" ++ r;
       lit "deleted file mode 100644";
       lit "index " ++ blob_id old ++ lit "..0000000000000000000000000000000000000000"] ++
      similar_unified_diff old [] (lit "a/" ++ l) (lit "/dev/null")))
| diff_modified old new :
    old <> new ->
    file_diff l r (Some old) (Some new) (Some (header
      [lit "diff --git a/" ++ l ++ lit " b/" ++ r;
       lit "index " ++ blob_id old ++ lit ".." ++ blob_id new] ++
      similar_unified_diff old new (lit "a/" ++ l) (lit "b/" ++ r))).

Lemma render_diff_spec t p c q d :
  file_diff (display_path t p) (display_path t q) c d
    (render_diff similar_unified_diff sha1_hex t p c q d).
Proof.
  unfold render_diff. case_bool_decide as Hcd; [subst; constructor|].
  destruct c as [c|], d as [d|]; try done.
  1: refine (eq_ind _ (file_diff _ _ _ _) (diff_modified _ _ c d _) _ _); [congruence|].
  2: refine (eq_ind _ (file_diff _ _ _ _) (diff_deleted _ _ c) _ _).
  3: refine (eq_ind _ (file_diff _ _ _ _) (diff_created _ _ d) _ _).
  all: f_equal; unfold header; cbn [fmap list_fmap concat]; by rewrite <- !app_assoc.
Qed.

(** The diffs one after the other, each with a final newline. *)
Definition terminated (d : str) : str := if decide (last d = Some NL) then d else d ++ [NL].

Definition joined (diffs : list (option str)) : str := concat (terminated <$> omap id diffs).

Lemma ends_with_newline (d : str) c : ends_with [NL] (d ++ [c]) = bool_decide (c = NL).
Proof.
  unfold ends_with, strip_suffix. rewrite reverse_snoc. change (reverse [NL]) with [NL].
  cbn [strip_prefix]. destruct (N.eqb_spec NL c) as [<-|Hc].
  - by rewrite bool_decide_true.
  - by rewrite bool_decide_false by congruence.
Qed.

Lemma push_diff_joined agg d : d <> Some [] -> push_diff agg d = agg ++ joined [d].
Proof.
  unfold push_diff, joined. destruct d as [d|]; simpl; [|by rewrite app_nil_r].
  intros Hd. rewrite app_nil_r. unfold terminated.
  destruct d as [|c d _] using rev_ind; [done|].
  rewrite last_snoc, app_assoc, ends_with_newline.
  destruct (decide (c = NL)) as [->|Hc].
  - rewrite bool_decide_true, decide_True by done. by rewrite <- app_assoc.
  - rewrite bool_decide_false, decide_False by congruence. by rewrite <- !app_assoc.
Qed.

Lemma joined_cons d ds : joined (d :: ds) = joined [d] ++ joined ds.
Proof. unfold joined. by destruct d; simpl; rewrite ?app_nil_r. Qed.

Lemma push_diffs_joined ds : forall agg,
  Forall (fun d => d <> Some []) ds -> foldl push_diff agg ds = agg ++ joined ds.
Proof.
  induction ds as [|d ds IH]; intros agg Hd; [by rewrite app_nil_r|]. cbn [foldl].
  inversion Hd; subst. rewrite IH, push_diff_joined by done.
  by rewrite <- app_assoc, <- joined_cons.
Qed.

Lemma render_diff_nonempty t p c q d :
  render_diff similar_unified_diff sha1_hex t p c q d <> Some [].
Proof. pose proof (render_diff_spec t p c q d) as Hd. by inversion Hd. Qed.

(** What the rendered diff of [t] says of the change from [w0] to [w]: it is
    the diffs of a list of entries (l, r), each from the content of [l] before
    to that of [r] after; no path belongs to two entries, an entry of two
    distinct paths is a rename, and other paths have not changed. *)
Definition shows_net_change (w0 w : world) (t : TurnDiffTracker) (diff : option str)
    (es : list (TrackedPath * TrackedPath)) : Prop :=
  (exists diffs,
     Forall2 (fun e d =>
       file_diff (display_path t e.1) (display_path t e.2) (w0 e.1) (w e.2) d) es diffs /\
     diff = match joined diffs with [] => None | agg => Some agg end) /\
  NoDup es /\
  (forall e e' q, e ∈ es -> e' ∈ es -> touches e q -> touches e' q -> e = e') /\
  (forall e, e ∈ es -> e.1 <> e.2 -> w e.1 = None /\ w0 e.2 = None) /\
  (forall q, (forall e, e ∈ es -> ~ touches e q) -> w q = w0 q).

Lemma diff_loop_joined w0 w t :
  tracks w0 w t -> exists diffs,
    Forall2 (fun e d =>
      file_diff (display_path t e.1) (display_path t e.2) (w0 e.1) (w e.2) d) (diff_entries t) diffs /\
    diff_loop similar_unified_diff sha1_hex t (rename_pairs hash_order t)
      (paired_destinations (rename_pairs hash_order t)) (diff_paths hash_order t) ∅ [] = joined diffs.
Proof.
  intros Ht. exists ((fun e => render_rename_diff similar_unified_diff sha1_hex t e.1 e.2) <$> diff_entries t).
  split.
  - apply Forall2_fmap_r, Forall_Forall2_diag, Forall_forall. intros e He.
    destruct (entry_contents _ _ _ e Ht He) as (<- & <- & _). apply render_diff_spec.
  - rewrite diff_loop_entries. fold (diff_entries t).
    rewrite <- (app_nil_l (joined _)), <- push_diffs_joined.
    + by rewrite foldl_fmap.
    + apply Forall_fmap, Forall_forall. intros e _. apply render_diff_nonempty.
Qed.

Lemma tracked_diff w0 w t :
  tracks w0 w t -> valid t = true ->
  shows_net_change w0 w t (get_unified_diff hash_order similar_unified_diff sha1_hex t)
    (diff_entries t).
Proof.
  intros Ht Hv. split_and!.
  - unfold get_unified_diff. rewrite Hv. cbn [negb].
    destruct (diff_loop_joined w0 w t Ht) as (diffs & Hd & ->). exists diffs. by destruct (joined diffs).
  - destruct (diff_entries_spec t) as [I1 _]. by apply NoDup_fmap_1 in I1.
  - intros e e' q. apply entries_disjoint.
  - intros e He Hne. by apply (entry_contents _ _ _ e Ht He).
  - intros q. by apply entries_cover.
Qed.

(** The turn diff is the net change.  When every delta of a turn was
    exact, the text of [get_unified_diff] is the concatenation of the diffs of
    a list of entries (l, r), each rendered from the content of [l] before the
    turn to the content of [r] after it; no path belongs to two entries, an
    entry of two distinct paths is a rename (the source is gone, the target
    is new), and every path outside the entries has the same content before
    and after the turn. *)
Theorem turn_diff_is_net_change roots w0 ds w :
  session w0 ds w -> Forall (fun ed => exact ed.2 = true) ds ->
  let t := track_all (with_environment_display_roots roots) ds in
  exists es,
    shows_net_change w0 w t (get_unified_diff hash_order similar_unified_diff sha1_hex t) es.
Proof.
  intros Hs Hex t.
  destruct (track_all_tracks w0 ds w0 (with_environment_display_roots roots) w)
    as [Ht Hv]; [apply tracks_init|done..|].
  eexists. by apply tracked_diff.
Qed.

(** A delta that is not exact suppresses the diff of the whole turn,
    whatever was tracked before and after it. *)
Theorem inexact_delta_suppresses_diff t ds1 e d ds2 :
  exact d = false ->
  get_unified_diff hash_order similar_unified_diff sha1_hex
    (track_all t (ds1 ++ (e, d) :: ds2)) = None.
Proof.
  intros Hd. unfold get_unified_diff, track_all. rewrite foldl_app. cbn [foldl].
  set (t1 := foldl _ t ds1). unfold track_delta at 2. simpl. rewrite Hd. simpl.
  enough (forall t', valid t' = false -> valid (foldl (fun t ed => track_delta t ed.1 ed.2) t' ds2) = false)
    as Hf by (by rewrite Hf).
  clear. induction ds2 as [|[e d] ds2 IH]; intros t' Hv; simpl; [done|]. apply IH.
  unfold track_delta. destruct (exact d); simpl; [by rewrite foldl_apply_valid|done].
Qed.
End net_diff.

(** ** A turn of patches on one filesystem *)

Section turn.
Context {fs : Type} `{FsLaws fs}.
Variable home_dir : option path.
Variable cwd : path.

(** Apply patches one after the other and collect the reported deltas. *)
Fixpoint run_turn (patches : list str) (f : fs) : fs * list AppliedPatchDelta :=
  match patches with
  | [] => (f, [])
  | patch :: rest =>
    let '(f1, _, _, r) :=
      apply_patch home_dir patch cwd (mk_writer [] None) (mk_writer [] None) f in
    let '(f2, ds) := run_turn rest f1 in
    (f2, default delta_empty (reported_delta r) :: ds)
  end.

Definition no_self_moves (patch : str) : Prop :=
  forall args, parse_patch patch = Ok args -> Forall (no_self_move home_dir cwd) (hunks args).

(** The world that consists of environment [e] with the files of [f]. *)
Definition fs_world (e : str) (f : fs) : world :=
  fun p => if decide (p.1 = e) then text_at f p.2 else None.

Lemma at_env_fs_world e f : view_eq (at_env (fs_world e f) e) (text_at f).
Proof. intros p. unfold at_env, fs_world. by rewrite decide_True. Qed.

#[export] Instance session_proper : Proper (world_eq ==> eq ==> eq ==> iff) session.
Proof.
  intros w w' E ? ds -> ? w2 ->. revert w w' E.
  induction ds as [|[e d] ds IH]; intros w w' E; simpl; [by rewrite E|].
  assert (view_eq (at_env w e) (at_env w' e)) as Ev by (intros p; apply E).
  split; intros (v & Hh & Hs); exists v.
  - rewrite <- Ev. split; [done|]. eapply IH; [|done]. intros p. unfold wupd. by rewrite E.
  - rewrite Ev. split; [done|]. eapply IH; [|done]. intros p. unfold wupd. by rewrite E.
Qed.

Lemma run_turn_session e patches : forall f f' ds,
  Forall no_self_moves patches -> run_turn patches f = (f', ds) ->
  Forall (fun d => exact d = true) ds ->
  session (fs_world e f) (pair e <$> ds) (fs_world e f').
Proof.
  induction patches as [|patch patches IH]; simpl; intros f f' ds Hn E Hex.
  { by simplify_eq. }
  inv Hn.
  pose proof (apply_patch_returns home_dir patch cwd (mk_writer [] None) (mk_writer [] None) f)
    as Hret.
  destruct (apply_patch home_dir patch cwd _ _ f) as [[[f1 out] err] r] eqn:Ea.
  destruct (run_turn patches f1) as [f2 ds2] eqn:Er. simplify_eq. inv Hex.
  assert (exists d, reported_delta r = Some d) as [d Hd] by (destruct r; simpl in *; eauto; done).
  rewrite Hd in *. cbn [default fmap list_fmap session]. simpl in *.
  exists (text_at f1). split.
  - rewrite at_env_fs_world. by eapply exact_delta_history.
  - assert (world_eq (wupd (fs_world e f) e (text_at f1)) (fs_world e f1)) as ->; [|by eapply IH].
    intros p. unfold wupd, fs_world. by destruct (decide _).
Qed.

(** C6: end to end.  After any sequence of patches that parse or not, succeed
    or fail half-way, none of which moves a file onto itself, if every reported
    delta is exact then the diff the tracker shows, whatever the order of its
    hash maps, is the net change between the files before the first patch and
    the files after the last one: the git diff of each changed file, a rename
    where the source is gone and the target new, nothing for files with the
    same content.  Distinct paths name distinct files ([FsLaws]). *)
Theorem turn_diff_end_to_end hash_order similar sha1 roots e patches f f' ds :
  (forall A (l : list A), hash_order A l ≡ₚ l) ->
  Forall no_self_moves patches -> run_turn patches f = (f', ds) ->
  Forall (fun d => exact d = true) ds ->
  let t := track_all (with_environment_display_roots roots) (pair e <$> ds) in
  exists es,
    shows_net_change similar sha1 (fs_world e f) (fs_world e f') t
      (get_unified_diff hash_order similar sha1 t) es.
Proof.
  intros Ho Hn Hr Hex t. eexists. apply tracked_diff; [done|..];
    eapply (track_all_tracks (fs_world e f) (pair e <$> ds) (fs_world e f)
              (with_environment_display_roots roots));
    try apply tracks_init; try done; try by eapply run_turn_session.
  all: by rewrite Forall_fmap.
Qed.
End turn.

(** ** A concrete turn *)

Definition demo_changes : list AppliedPatchChange :=
  [mk_change (components (lit "/w/a")) (Update None (lit "1") None (lit "2"));
   mk_change (components (lit "/w/a")) (Update (Some (components (lit "/w/b"))) (lit "2") None (lit "3"));
   mk_change (components (lit "/w/n")) (Add (lit "n") None)].

Definition demo_world : world :=
  fun p => if decide (p = (lit "", components (lit "/w/a"))) then Some (lit "1") else None.

Definition demo_world' : world :=
  wset (wset (wset demo_world (lit "", components (lit "/w/b")) (Some (lit "3")))
          (lit "", components (lit "/w/a")) None)
    (lit "", components (lit "/w/n")) (Some (lit "n")).

(** A stand-in for [similar] that shows both texts. *)
Definition show_both (l r oh nh : str) : str := oh ++ [NL] ++ nh ++ [NL] ++ l ++ [NL] ++ r ++ [NL].

Definition demo_deltas : list (str * AppliedPatchDelta) := [(lit "", mk_delta demo_changes true)].

Lemma turn_diff_is_net_change_witness :
  exists es,
    shows_net_change show_both (fun _ => lit "oid") demo_world demo_world'
      (track_all (with_environment_display_roots []) demo_deltas)
      (get_unified_diff (fun _ l => l) show_both (fun _ => lit "oid")
         (track_all (with_environment_display_roots []) demo_deltas)) es.
Proof.
  destruct (turn_diff_is_net_change (fun _ l => l) show_both (fun _ => lit "oid")
              (fun _ l => Permutation_refl l) [] demo_world demo_deltas demo_world')
    as (es & E).
  - simpl. eexists. split.
    + split; [by vm_compute|]. split; [by vm_compute|]. split; [by vm_compute|]. reflexivity.
    + intros [e p]. unfold wupd, demo_world', wset. cbn [fst snd].
      destruct (decide (e = lit "")) as [->|He].
      * unfold replay_change, upd, at_env, demo_changes. cbn [change change_path].
        repeat (destruct (decide _); simplify_eq); try done.
      * by rewrite !decide_False by congruence.
  - by repeat constructor.
  - exact (ex_intro _ es E).
Defined.

Lemma inexact_delta_suppresses_diff_witness :
  exact (mk_delta demo_changes false) = false /\
  get_unified_diff (fun _ l => l) show_both (fun _ => lit "oid")
    (track_all (with_environment_display_roots [])
       (demo_deltas ++ [(lit "", mk_delta demo_changes false)])) = None.
Proof.
  split; [done|].
  exact (inexact_delta_suppresses_diff (fun _ l => l) show_both (fun _ => lit "oid")
           (with_environment_display_roots []) demo_deltas (lit "")
           (mk_delta demo_changes false) [] eq_refl).
Defined.

Lemma turn_diff_end_to_end_witness :
  let '(f', ds) := run_turn None demo_cwd [demo_patch] demo_fs in
  let t := track_all (with_environment_display_roots []) (pair (lit "") <$> ds) in
  exists es,
    shows_net_change show_both (fun _ => lit "oid") (fs_world (lit "") demo_fs)
      (fs_world (lit "") f') t
      (get_unified_diff (fun _ l => l) show_both (fun _ => lit "oid") t) es.
Proof.
  assert (Forall (fun d => exact d = true) (run_turn None demo_cwd [demo_patch] demo_fs).2) as Hex.
  { vm_compute. repeat constructor. }
  destruct (run_turn None demo_cwd [demo_patch] demo_fs) as [f' ds] eqn:E.
  apply (turn_diff_end_to_end None demo_cwd (fun _ l => l) show_both (fun _ => lit "oid") []
           (lit "") [demo_patch] demo_fs f' ds (fun _ l => Permutation_refl l)); [|exact E|exact Hex].
  constructor; [|constructor]. intros args Ha. vm_compute in Ha. injection Ha as <-.
  repeat constructor. by vm_compute.
Defined.
