(* ===== verification/HeadTail.v ===== *)
(** * The capped output buffer ([core/src/unified_exec/head_tail_buffer.rs])

    The buffer that keeps the first and the last bytes of a process's output.
    Sizes are [usize] values in [Z] with their saturating operations; chunks
    are byte vectors. *)

From S2P Require Import Prelude.

Open Scope Z_scope.

Notation bytes := (list N) (only parsing).

Definition blen (c : bytes) : Z := Z.of_nat (length c).

Record HeadTailBuffer := mk_buffer {
  max_bytes : Z;
  head_budget : Z;
  tail_budget : Z;
  head : list bytes;
  tail : list bytes;
  head_bytes : Z;
  tail_bytes : Z;
  omitted_bytes : Z
}.

(** [HeadTailBuffer::new] *)
Definition new (max_bytes : Z) : HeadTailBuffer :=
  let head_budget := max_bytes / 2 in
  let tail_budget := usat_sub max_bytes head_budget in
  mk_buffer max_bytes head_budget tail_budget [] [] 0 0 0.

Definition retained_bytes (b : HeadTailBuffer) : Z := usat_add (head_bytes b) (tail_bytes b).

Definition omit (b : HeadTailBuffer) (n : Z) : HeadTailBuffer :=
  mk_buffer (max_bytes b) (head_budget b) (tail_budget b) (head b) (tail b)
    (head_bytes b) (tail_bytes b) (usat_add (omitted_bytes b) n).

Definition set_tail (b : HeadTailBuffer) (t : list bytes) (n om : Z) : HeadTailBuffer :=
  mk_buffer (max_bytes b) (head_budget b) (tail_budget b) (head b) t (head_bytes b) n om.

Definition push_head (b : HeadTailBuffer) (chunk : bytes) : HeadTailBuffer :=
  mk_buffer (max_bytes b) (head_budget b) (tail_budget b) (head b ++ [chunk]) (tail b)
    (usat_add (head_bytes b) (blen chunk)) (tail_bytes b) (omitted_bytes b).

(** The [while] loop of [trim_tail_to_budget]. *)
Fixpoint trim_loop (excess : Z) (t : list bytes) (tb om : Z) : list bytes * Z * Z :=
  if 0 <? excess then
    match t with
    | front :: rest =>
      if blen front <=? excess
      then trim_loop (excess - blen front) rest (usat_sub tb (blen front)) (usat_add om (blen front))
      else (drop (Z.to_nat excess) front :: rest, usat_sub tb excess, usat_add om excess)
    | [] => ([], tb, om)
    end
  else (t, tb, om).

Definition trim_tail_to_budget (b : HeadTailBuffer) : HeadTailBuffer :=
  let excess := usat_sub (tail_bytes b) (tail_budget b) in
  let '(t, tb, om) := trim_loop excess (tail b) (tail_bytes b) (omitted_bytes b) in
  set_tail b t tb om.

Definition push_to_tail (b : HeadTailBuffer) (chunk : bytes) : HeadTailBuffer :=
  if tail_budget b =? 0 then omit b (blen chunk)
  else if tail_budget b <=? blen chunk then
    let start := usat_sub (blen chunk) (tail_budget b) in
    let kept := drop (Z.to_nat start) chunk in
    let dropped := usat_sub (blen chunk) (blen kept) in
    set_tail b [kept] (blen kept) (usat_add (usat_add (omitted_bytes b) (tail_bytes b)) dropped)
  else
    trim_tail_to_budget
      (set_tail b (tail b ++ [chunk]) (usat_add (tail_bytes b) (blen chunk)) (omitted_bytes b)).

Definition push_chunk (b : HeadTailBuffer) (chunk : bytes) : HeadTailBuffer :=
  if max_bytes b =? 0 then omit b (blen chunk)
  else if head_bytes b <? head_budget b then
    let remaining_head := usat_sub (head_budget b) (head_bytes b) in
    if blen chunk <=? remaining_head then push_head b chunk
    else
      let head_part := take (Z.to_nat remaining_head) chunk in
      let tail_part := drop (Z.to_nat remaining_head) chunk in
      let b := match head_part with [] => b | _ => push_head b head_part end in
      push_to_tail b tail_part
  else push_to_tail b chunk.

Definition snapshot_chunks (b : HeadTailBuffer) : list bytes := head b ++ tail b.

Definition to_bytes (b : HeadTailBuffer) : bytes := concat (head b) ++ concat (tail b).

Definition drain_chunks (b : HeadTailBuffer) : HeadTailBuffer * list bytes :=
  (mk_buffer (max_bytes b) (head_budget b) (tail_budget b) [] [] 0 0 0, head b ++ tail b).

Definition ten : bytes := [1; 2; 3; 4; 5; 6; 7; 8; 9; 10]%N.

Example push_examples :
  to_bytes (push_chunk (new 5) ten) = [1; 2; 8; 9; 10]%N /\
  omitted_bytes (push_chunk (new 5) ten) = 5 /\
  to_bytes (foldl push_chunk (new 6) [[1; 2]; [3; 4]; [5; 6]; [7]]%N) = [1; 2; 3; 5; 6; 7]%N /\
  to_bytes (push_chunk (new 0) ten) = [].
Proof. vm_compute. done. Qed.

(** ** The reference behaviour *)

(** The last [n] elements. *)
Definition lastn (n : nat) (l : bytes) : bytes := drop (length l - n) l.

Lemma lastn_length n l : length (lastn n l) = Nat.min n (length l).
Proof. unfold lastn. rewrite length_drop. lia. Qed.

Lemma lastn_app_short n l c :
  (n <= length c)%nat -> lastn n (l ++ c) = lastn n c.
Proof.
  intros Hn. unfold lastn. rewrite length_app, drop_app_ge by lia. f_equal. lia.
Qed.

Lemma lastn_app n l c : lastn n (lastn n l ++ c) = lastn n (l ++ c).
Proof.
  unfold lastn. rewrite !length_app, length_drop.
  destruct (decide (length l <= n)%nat).
  - replace (length l - n)%nat with 0%nat by lia. rewrite drop_0. f_equal. lia.
  - rewrite <- drop_app_le, drop_drop by lia. f_equal. lia.
Qed.

Lemma lastn_all n l : (length l <= n)%nat -> lastn n l = l.
Proof. intros. unfold lastn. by replace (length l - n)%nat with 0%nat by lia. Qed.

(** What the buffer of capacity [m] holds after the bytes [s]: the first half
    of the capacity from the front, the rest of it from the back, and the
    number of bytes in between. *)
Record holds (m : Z) (s : bytes) (b : HeadTailBuffer) : Prop := {
  holds_max : max_bytes b = m;
  holds_head_budget : head_budget b = m / 2;
  holds_tail_budget : tail_budget b = m - m / 2;
  holds_head : concat (head b) = take (Z.to_nat (m / 2)) s;
  holds_tail : concat (tail b) = lastn (Z.to_nat (m - m / 2)) (drop (Z.to_nat (m / 2)) s);
  holds_head_bytes : head_bytes b = blen (concat (head b));
  holds_tail_bytes : tail_bytes b = blen (concat (tail b));
  holds_omitted :
    omitted_bytes b = Z.min USIZE_MAX (blen s - head_bytes b - tail_bytes b)
}.

Lemma blen_nonneg c : 0 <= blen c.
Proof. unfold blen. lia. Qed.

Lemma blen_app c1 c2 : blen (c1 ++ c2) = blen c1 + blen c2.
Proof. unfold blen. rewrite length_app. lia. Qed.

Lemma blen_drop n c : blen (drop n c) = Z.max 0 (blen c - Z.of_nat n).
Proof. unfold blen. rewrite length_drop. lia. Qed.

Lemma trim_loop_spec t : forall excess tb om,
  0 <= excess <= blen (concat t) -> tb = blen (concat t) ->
  exists t', trim_loop excess t tb om = (t', tb - excess,
    if 0 <? excess then Z.min USIZE_MAX (om + excess) else om) /\
    concat t' = drop (Z.to_nat excess) (concat t).
Proof.
  induction t as [|front rest IH]; intros excess tb om He ->; cbn [trim_loop concat].
  { simpl in He. replace excess with 0 by (unfold blen in *; simpl in *; lia). by exists []. }
  destruct (Z.ltb_spec 0 excess) as [Hpos|].
  2: { replace excess with 0 by lia. exists (front :: rest). rewrite Z.sub_0_r. done. }
  cbn [concat] in He. rewrite blen_app in He.
  destruct (Z.leb_spec (blen front) excess) as [Hf|Hf].
  - destruct (IH (excess - blen front) (blen (concat rest)) (usat_add om (blen front)))
      as (t' & Et & Ec); [lia|done|].
    replace (usat_sub (blen (front ++ concat rest)) (blen front)) with (blen (concat rest))
      by (rewrite blen_app; unfold usat_sub; pose proof (blen_nonneg (concat rest)); lia).
    exists t'. rewrite Et. split.
    + rewrite blen_app. f_equal; [f_equal; lia|].
      pose proof (blen_nonneg front). unfold usat_add.
      destruct (Z.ltb_spec 0 (excess - blen front)); [|replace excess with (blen front)]; lia.
    + rewrite Ec. rewrite drop_app_ge by (unfold blen in *; lia). f_equal. unfold blen. lia.
  - exists (drop (Z.to_nat excess) front :: rest). split.
    + rewrite blen_app. unfold usat_sub, usat_add. pose proof (blen_nonneg (concat rest)).
      by rewrite Z.max_r by lia.
    + cbn [concat]. by rewrite drop_app_le by (unfold blen in *; lia).
Qed.

(** Pushing onto a tail that holds the end of [l] leaves the end of [l ++ c],
    and counts what it drops. *)
Lemma push_to_tail_spec m b l c om :
  0 <= m <= USIZE_MAX -> tail_budget b = m - m / 2 ->
  concat (tail b) = lastn (Z.to_nat (m - m / 2)) l ->
  tail_bytes b = blen (concat (tail b)) ->
  0 <= om -> omitted_bytes b = Z.min USIZE_MAX om ->
  exists t',
    push_to_tail b c = set_tail b t' (blen (concat t'))
      (Z.min USIZE_MAX (om + tail_bytes b + blen c - blen (concat t'))) /\
    concat t' = lastn (Z.to_nat (m - m / 2)) (l ++ c).
Proof.
  intros Hm Hb Ht Htb Hom Ho. unfold push_to_tail. rewrite Hb.
  assert (m / 2 <= m) as Hhalf by (apply Z.div_le_upper_bound; lia).
  assert (m - m / 2 <= 2 ^ 63) as Hcap 
    by (unfold USIZE_MAX in Hm; Z.to_euclidean_division_equations; lia).
  assert (0 <= m - m / 2) as HT0 by lia. set (T := m - m / 2) in *. clearbody T.
  pose proof (blen_nonneg c) as Hc.
  pose proof (lastn_length (Z.to_nat T) l) as Hlast. rewrite <- Ht in Hlast.
  destruct (Z.eqb_spec T 0) as [->|HT].
  { exists (tail b). split; [|by rewrite Ht; unfold lastn; rewrite !drop_ge by lia].
    unfold omit, set_tail. rewrite <- Htb, Ho. f_equal. unfold usat_add. lia. }
  destruct (Z.leb_spec T (blen c)) as [Hbig|Hsmall].
  - set (kept := drop _ c). exists [kept]. cbn [concat]. rewrite app_nil_r.
    assert (blen kept = T) as Hk by (unfold kept; rewrite blen_drop; unfold usat_sub; lia).
    split.
    + f_equal. rewrite Ho, Hk. unfold usat_add, usat_sub.
      pose proof (blen_nonneg (concat (tail b))). lia.
    + rewrite lastn_app_short by (unfold blen in *; lia). unfold kept, lastn. f_equal.
      unfold usat_sub, blen in *. lia.
  - unfold trim_tail_to_budget. cbn [tail tail_bytes tail_budget omitted_bytes set_tail].
    assert (usat_add (tail_bytes b) (blen c) = blen (concat (tail b ++ [c]))) as ->.
    { rewrite concat_app, blen_app, Htb. cbn [concat]. rewrite app_nil_r.
      unfold usat_add, USIZE_MAX, blen in *. lia. }
    set (full := concat (tail b ++ [c])).
    assert (full = lastn (Z.to_nat T) l ++ c) as Hfull.
    { unfold full. rewrite concat_app, Ht. cbn [concat]. by rewrite app_nil_r. }
    destruct (trim_loop_spec (tail b ++ [c]) (usat_sub (blen full) T) (blen full)
                (omitted_bytes b)) as (t' & Et & Ec); [|done|].
    { fold full. unfold usat_sub. pose proof (blen_nonneg full). lia. }
    fold full in Ec. rewrite Hb, Et. exists t'. rewrite Ec.
    assert (blen full = blen (concat (tail b)) + blen c) as Hlen
      by (rewrite Hfull, blen_app, <- Ht; done).
    split.
    + unfold set_tail. cbn. pose proof (blen_nonneg full).
      f_equal; [rewrite blen_drop; unfold usat_sub; lia|].
      rewrite blen_drop, Ho, Htb. unfold usat_sub in *.
      destruct (Z.ltb_spec 0 (Z.max 0 (blen full - T))); lia.
    + rewrite <- lastn_app, <- Hfull. unfold lastn. f_equal. unfold usat_sub, blen. lia.
Qed.

Lemma holds_new m : 0 <= m <= USIZE_MAX -> holds m [] (new m).
Proof.
  intros Hm. assert (m / 2 <= m) by (apply Z.div_le_upper_bound; lia).
  split; simpl; try done; unfold usat_sub, USIZE_MAX, lastn, blen; simpl;
    rewrite ?take_nil, ?drop_nil; lia || done.
Qed.

(** Bytes pushed once the head is full go to the tail. *)
Lemma holds_tail_push m s b c :
  0 <= m <= USIZE_MAX -> holds m s b -> m / 2 <= blen s -> holds m (s ++ c) (push_to_tail b c).
Proof.
  intros Hm [E1 E2 E3 E4 E5 E6 E7 E8] Hs.
  assert (0 <= m / 2 <= m) as Hhalf
    by (split; [apply Z.div_pos|apply Z.div_le_upper_bound]; lia).
  pose proof (blen_nonneg c) as Hc.
  assert (0 <= blen s - head_bytes b - tail_bytes b) as Hom.
  { rewrite E6, E7, E4, E5. unfold blen. rewrite length_take, lastn_length, length_drop. lia. }
  destruct (push_to_tail_spec m b _ c _ Hm E3 E5 E7 Hom E8) as (t' & -> & Et).
  split; simpl; try done.
  - by rewrite E4, take_app_le by (unfold blen in Hs; lia).
  - rewrite Et, drop_app_le by (unfold blen in Hs; lia). done.
  - rewrite blen_app. f_equal. lia.
Qed.

Lemma holds_head_push m s b c :
  0 <= m <= USIZE_MAX -> holds m s b -> blen s + blen c <= m / 2 ->
  holds m (s ++ c) (push_head b c).
Proof.
  intros Hm [E1 E2 E3 E4 E5 E6 E7 E8] Hs. pose proof (blen_nonneg c) as Hc.
  assert (m / 2 <= m) by (apply Z.div_le_upper_bound; lia).
  assert (concat (head b) = s) as Eh by (rewrite E4, take_ge; [done|unfold blen in *; lia]).
  assert (head_bytes b = blen s) as Eb by (by rewrite E6, Eh).
  assert (usat_add (head_bytes b) (blen c) = blen (s ++ c)) as Ea.
  { rewrite blen_app, Eb. unfold usat_add. lia. }
  split; cbn [push_head max_bytes head_budget tail_budget head tail head_bytes tail_bytes
                omitted_bytes]; try done.
  - rewrite concat_app, Eh. cbn [concat]. rewrite app_nil_r, take_ge; [done|].
    rewrite length_app. unfold blen in *. lia.
  - rewrite E5, !drop_ge; [done|rewrite length_app|]; unfold blen in *; lia.
  - rewrite Ea, concat_app, Eh. cbn [concat]. by rewrite app_nil_r.
  - rewrite Ea, E8, Eb. f_equal. lia.
Qed.

(** The step of the refinement: one more chunk. *)
Lemma holds_push m s b c :
  0 <= m <= USIZE_MAX -> holds m s b -> holds m (s ++ c) (push_chunk b c).
Proof.
  intros Hm Hh. pose proof Hh as [E1 E2 E3 E4 E5 E6 E7 E8].
  assert (0 <= m / 2 <= m) as Hhalf
    by (split; [apply Z.div_pos|apply Z.div_le_upper_bound]; lia).
  pose proof (blen_nonneg c) as Hc. pose proof (blen_nonneg s) as Hs0.
  assert (head_bytes b = Z.min (m / 2) (blen s)) as Hhb.
  { rewrite E6, E4. unfold blen in *. rewrite length_take. lia. }
  unfold push_chunk. rewrite E1.
  destruct (Z.eqb_spec m 0) as [->|Hm0].
  { replace (omit b (blen c)) with (push_to_tail b c)
      by (unfold push_to_tail; by rewrite E3).
    apply holds_tail_push; [lia|done|]. change (0 / 2) with 0. lia. }
  rewrite E2. destruct (Z.ltb_spec (head_bytes b) (m / 2)) as [Hroom|Hfull].
  2: { apply holds_tail_push; [lia|done|lia]. }
  assert (usat_sub (m / 2) (head_bytes b) = m / 2 - blen s) as -> by (unfold usat_sub; lia).
  destruct (Z.leb_spec (blen c) (m / 2 - blen s)); [apply holds_head_push; (done || lia)|].
  set (k := Z.to_nat (m / 2 - blen s)).
  assert (blen (take k c) = m / 2 - blen s) as Hk.
  { unfold k, blen in *. rewrite length_take. lia. }
  rewrite <- (take_drop k c) at 1. rewrite app_assoc. apply holds_tail_push; [lia| |].
  - assert (holds m (s ++ take k c) (push_head b (take k c))) as Hp
      by (apply holds_head_push; (done || lia)).
    destruct (take k c); [change (blen []) with 0 in Hk; lia|done].
  - rewrite blen_app. lia.
Qed.

Lemma holds_run m chunks :
  0 <= m <= USIZE_MAX -> holds m (concat chunks) (foldl push_chunk (new m) chunks).
Proof.
  intros Hm. induction chunks as [|c chunks IH] using rev_ind; [by apply holds_new|].
  rewrite foldl_app, concat_app. simpl. rewrite app_nil_r. by apply holds_push.
Qed.

(** C11: the buffer keeps the first and the last bytes.  However the output is
    cut into chunks, the retained bytes are the first half of the capacity
    followed by the last bytes of the rest, and the omitted count is the
    number of bytes missing in between (up to saturation). *)
Theorem head_tail_refines m chunks :
  0 <= m <= USIZE_MAX ->
  let s := concat chunks in
  let b := foldl push_chunk (new m) chunks in
  let half := Z.to_nat (m / 2) in
  to_bytes b = take half s ++ lastn (Z.to_nat m - half) (drop half s) /\
  concat (snapshot_chunks b) = to_bytes b /\
  retained_bytes b = Z.min m (blen s) /\
  omitted_bytes b = Z.min USIZE_MAX (Z.max 0 (blen s - m)).
Proof.
  intros Hm s b half. destruct (holds_run m chunks Hm) as [E1 E2 E3 E4 E5 E6 E7 E8].
  fold b s in E1, E2, E3, E4, E5, E6, E7, E8. fold half in E4, E5.
  assert (0 <= m / 2 <= m) as Hhalf
    by (split; [apply Z.div_pos|apply Z.div_le_upper_bound]; lia).
  assert (head_bytes b = Z.min (m / 2) (blen s)) as Hh.
  { rewrite E6, E4. unfold half, blen. rewrite length_take. lia. }
  assert (tail_bytes b = Z.min (m - m / 2) (Z.max 0 (blen s - m / 2))) as Ht.
  { rewrite E7, E5. unfold half, blen. rewrite lastn_length, length_drop. lia. }
  pose proof (blen_nonneg s). split_and!.
  - unfold to_bytes. rewrite E4, E5. do 2 f_equal. unfold half. lia.
  - unfold snapshot_chunks, to_bytes. by rewrite concat_app.
  - unfold retained_bytes, usat_add. rewrite Hh, Ht. lia.
  - rewrite E8, Hh, Ht. lia.
Qed.

Lemma head_tail_refines_witness :
  (0 <= 5 <= USIZE_MAX) /\
  to_bytes (foldl push_chunk (new 5) [ten; [11%N]; ten]) = [1; 2; 8; 9; 10]%N.
Proof.
  assert (0 <= 5 <= USIZE_MAX) as Hm by (unfold USIZE_MAX; lia). split; [done|].
  rewrite (proj1 (head_tail_refines 5 [ten; [11%N]; ten] Hm)). by vm_compute.
Defined.

(** Draining returns every retained chunk in order and leaves a buffer
    that behaves like a new one. *)
Theorem drain_resets m chunks later :
  0 <= m <= USIZE_MAX ->
  let b := foldl push_chunk (new m) chunks in
  let '(b', out) := drain_chunks b in
  concat out = to_bytes b /\
  foldl push_chunk b' later = foldl push_chunk (new m) later.
Proof.
  intros Hm b. destruct (holds_run m chunks Hm) as [E1 E2 E3 _ _ _ _ _].
  fold b in E1, E2, E3. assert (m / 2 <= m) by (apply Z.div_le_upper_bound; lia).
  split; [unfold to_bytes; by rewrite concat_app|]. f_equal.
  unfold new. rewrite E1, E2, E3. f_equal. unfold usat_sub. lia.
Qed.

Lemma drain_resets_witness :
  (0 <= 4 <= USIZE_MAX) /\
  let '(b', out) := drain_chunks (foldl push_chunk (new 4) [ten]) in
  concat out = [1; 2; 9; 10]%N /\
  foldl push_chunk b' [[7%N]] = foldl push_chunk (new 4) [[7%N]].
Proof.
  assert (0 <= 4 <= USIZE_MAX) as Hm by (unfold USIZE_MAX; lia). split; [done|].
  exact (drain_resets 4 [ten] [[7%N]] Hm).
Defined.
