(* ===== verification/Models.v ===== *)
(** * Conversation items ([protocol/src/models.rs])

    The data types of the model protocol that the context manager stores and
    rewrites.  Fields that no modelled code inspects are kept abstract: a JSON
    value, a reasoning summary, a shell action and a web-search action are
    opaque payloads. *)

From S2P Require Export RustStr.

(** Payloads of other modules, as serialised text. *)
Notation opaque := (list N) (only parsing).

Inductive ImageDetail := DetailAuto | DetailLow | DetailHigh | DetailOriginal.

#[export] Instance ImageDetail_eq_dec : EqDecision ImageDetail.
Proof. solve_decision. Defined.

Inductive ContentItem :=
| InputText (text : str)
| InputImage (image_url : str) (detail : option ImageDetail)
| OutputText (text : str).

#[export] Instance ContentItem_eq_dec : EqDecision ContentItem.
Proof. solve_decision. Defined.

Inductive AgentMessageInputContent := AgentEncryptedContent (encrypted_content : str).

Inductive FunctionCallOutputContentItem :=
| FInputText (text : str)
| FInputImage (image_url : str) (detail : option ImageDetail)
| FEncryptedContent (encrypted_content : str).

#[export] Instance FunctionCallOutputContentItem_eq_dec :
  EqDecision FunctionCallOutputContentItem.
Proof. solve_decision. Defined.

Inductive FunctionCallOutputBody :=
| TextBody (text : str)
| ContentItems (items : list FunctionCallOutputContentItem).

Record FunctionCallOutputPayload := mk_payload {
  body : FunctionCallOutputBody;
  success : option bool
}.

Definition from_text (content : str) : FunctionCallOutputPayload :=
  mk_payload (TextBody content) None.

(** Every constructor of [ResponseItem], with the fields in source order. *)
Inductive ResponseItem :=
| Message (id : option str) (role : str) (content : list ContentItem) (phase : option opaque)
| AgentMessage (author recipient : str) (content : list AgentMessageInputContent)
| Reasoning (id : str) (summary content : opaque) (encrypted_content : option str)
| LocalShellCall (id call_id : option str) (status action : opaque)
| FunctionCall (id : option str) (name : str) (namespace : option str) (arguments call_id : str)
| ToolSearchCall (id call_id status : option str) (execution : str) (arguments : opaque)
| FunctionCallOutput (call_id : str) (output : FunctionCallOutputPayload)
| CustomToolCall (id status : option str) (call_id name input : str)
| CustomToolCallOutput (call_id : str) (name : option str) (output : FunctionCallOutputPayload)
| ToolSearchOutput (call_id : option str) (status execution : str) (tools : list opaque)
| WebSearchCall (id status : option str) (action : option opaque)
| ImageGenerationCall (id status : str) (revised_prompt : option str) (result : str)
| Compaction (encrypted_content : str)
| CompactionTrigger
| ContextCompaction (encrypted_content : option str)
| OtherItem.

(** [TruncationPolicy] of [protocol/src/protocol.rs]. *)
Inductive TruncationPolicy := Bytes (bytes : Z) | Tokens (tokens : Z).
