(* ===== verification/Truncate.v ===== *)
(** * Output truncation ([utils/string/src/truncate.rs],
      [utils/output-truncation/src/lib.rs])

    Truncation of large outputs around a marker in the middle, on character
    boundaries, with byte and token budgets. *)

From S2P Require Export Models.

Open Scope Z_scope.

Definition APPROX_BYTES_PER_TOKEN : Z := 4.
Definition ELLIPSIS : char := 8230%N.

Definition approx_token_count (text : str) : Z :=
  usat_add (zlen text) (usat_sub APPROX_BYTES_PER_TOKEN 1) / APPROX_BYTES_PER_TOKEN.

Definition approx_bytes_for_tokens (tokens : Z) : Z := usat_mul tokens APPROX_BYTES_PER_TOKEN.

Definition approx_tokens_from_byte_count (bytes : Z) : Z :=
  usat_add bytes (usat_sub APPROX_BYTES_PER_TOKEN 1) / APPROX_BYTES_PER_TOKEN.

(** State of the loop of [split_string]. *)
Record split_state := mk_split {
  prefix_end : Z;
  suffix_start : Z;
  removed_chars : Z;
  suffix_started : bool
}.

(** [for (idx, ch) in s.char_indices()] *)
Fixpoint split_loop (s : str) (idx beginning_bytes tail_start_target : Z) (st : split_state)
    : split_state :=
  match s with
  | [] => st
  | ch :: s' =>
    let char_end := idx + zlen_utf8 ch in
    let st :=
      if char_end <=? beginning_bytes then
        mk_split char_end (suffix_start st) (removed_chars st) (suffix_started st)
      else if tail_start_target <=? idx then
        if negb (suffix_started st)
        then mk_split (prefix_end st) idx (removed_chars st) true
        else st
      else
        mk_split (prefix_end st) (suffix_start st) (usat_add (removed_chars st) 1)
          (suffix_started st) in
    split_loop s' char_end beginning_bytes tail_start_target st
  end.

(** The slices panic off a character boundary. *)
Definition split_string (s : str) (beginning_bytes end_bytes : Z) : res unit (Z * str * str) :=
  match s with
  | [] => Ok (0, [], [])
  | _ =>
    let len := zlen s in
    let tail_start_target := usat_sub len end_bytes in
    let st := split_loop s 0 beginning_bytes tail_start_target (mk_split 0 len 0 false) in
    let suffix_start :=
      if suffix_start st <? prefix_end st then prefix_end st else suffix_start st in
    let? before := from_opt (byte_split s (prefix_end st)) in
    let? after := from_opt (byte_split s suffix_start) in
    Ok (removed_chars st, before.1, after.2)
  end.

Definition split_budget (budget : Z) : Z * Z :=
  let left := budget / 2 in (left, budget - left).

Definition format_truncation_marker (use_tokens : bool) (removed_count : Z) : str :=
  if use_tokens
  then [ELLIPSIS] ++ decz removed_count ++ lit " tokens truncated" ++ [ELLIPSIS]
  else [ELLIPSIS] ++ decz removed_count ++ lit " chars truncated" ++ [ELLIPSIS].

Definition removed_units (use_tokens : bool) (removed_bytes removed_chars : Z) : Z :=
  if use_tokens then approx_tokens_from_byte_count removed_bytes else removed_chars.

Definition assemble_truncated_output (prefix suffix marker : str) : str :=
  prefix ++ marker ++ suffix.

Definition truncate_with_byte_estimate (s : str) (max_bytes : Z) (use_tokens : bool)
    : res unit str :=
  match s with
  | [] => Ok []
  | _ =>
    let total_chars := Z.of_nat (length s) in
    if max_bytes =? 0 then
      Ok (format_truncation_marker use_tokens (removed_units use_tokens (zlen s) total_chars))
    else if zlen s <=? max_bytes then Ok s
    else
      let total_bytes := zlen s in
      let '(left_budget, right_budget) := split_budget max_bytes in
      let? r := split_string s left_budget right_budget in
      let '(removed_chars, before, after) := r in
      let marker := format_truncation_marker use_tokens
                      (removed_units use_tokens (usat_sub total_bytes max_bytes) removed_chars) in
      Ok (assemble_truncated_output before after marker)
  end.

Definition truncate_middle_chars (s : str) (max_bytes : Z) : res unit str :=
  truncate_with_byte_estimate s max_bytes false.

Definition truncate_middle_with_token_budget (s : str) (max_tokens : Z)
    : res unit (str * option Z) :=
  match s with
  | [] => Ok ([], None)
  | _ =>
    if (0 <? max_tokens) && (zlen s <=? approx_bytes_for_tokens max_tokens) then Ok (s, None)
    else
      let? truncated := truncate_with_byte_estimate s (approx_bytes_for_tokens max_tokens) true in
      let total_tokens := approx_token_count s in
      Ok (if str_eqb truncated s then (truncated, None) else (truncated, Some total_tokens))
  end.

(** ** Budgets and policies *)

Definition token_budget (policy : TruncationPolicy) : Z :=
  match policy with
  | Bytes bytes => approx_tokens_from_byte_count bytes
  | Tokens tokens => tokens
  end.

Definition byte_budget (policy : TruncationPolicy) : Z :=
  match policy with
  | Bytes bytes => bytes
  | Tokens tokens => approx_bytes_for_tokens tokens
  end.

Definition truncate_text (content : str) (policy : TruncationPolicy) : res unit str :=
  match policy with
  | Bytes bytes => truncate_middle_chars content bytes
  | Tokens tokens =>
    let? r := truncate_middle_with_token_budget content tokens in Ok r.1
  end.

Definition formatted_truncate_text (content : str) (policy : TruncationPolicy) : res unit str :=
  if zlen content <=? byte_budget policy then Ok content
  else
    let total_lines := length (lines content) in
    let? result := truncate_text content policy in
    Ok (lit "Total output lines: " ++ dec total_lines ++ [NL; NL] ++ result).

Definition text_of (item : FunctionCallOutputContentItem) : option str :=
  match item with FInputText text => Some text | _ => None end.

Definition is_text (item : FunctionCallOutputContentItem) : bool :=
  match item with FInputText _ => true | _ => false end.

Definition combine_step (combined text : str) : str :=
  (match combined with [] => [] | _ => combined ++ [NL] end) ++ text.

Definition formatted_truncate_text_content_items_with_policy
    (items : list FunctionCallOutputContentItem) (policy : TruncationPolicy)
    : res unit (list FunctionCallOutputContentItem * option Z) :=
  match omap text_of items with
  | [] => Ok (items, None)
  | text_segments =>
    let combined := foldl combine_step [] text_segments in
    if zlen combined <=? byte_budget policy then Ok (items, None)
    else
      let? text := formatted_truncate_text combined policy in
      Ok (FInputText text :: base.filter (fun item => is_text item = false) items,
          Some (approx_token_count combined))
  end.

(** State of the loop of [truncate_function_output_items_with_policy]. *)
Record items_state := mk_items {
  out : list FunctionCallOutputContentItem;
  remaining_budget : Z;
  omitted_text_items : Z
}.

Definition item_cost (policy : TruncationPolicy) (text : str) : Z :=
  match policy with Bytes _ => zlen text | Tokens _ => approx_token_count text end.

Definition with_budget (policy : TruncationPolicy) (n : Z) : TruncationPolicy :=
  match policy with Bytes _ => Bytes n | Tokens _ => Tokens n end.

Definition items_step (policy : TruncationPolicy) (st : items_state)
    (item : FunctionCallOutputContentItem) : res unit items_state :=
  match item with
  | FInputText text =>
    if remaining_budget st =? 0 then
      Ok (mk_items (out st) (remaining_budget st) (omitted_text_items st + 1))
    else
      let cost := item_cost policy text in
      if cost <=? remaining_budget st then
        Ok (mk_items (out st ++ [FInputText text]) (usat_sub (remaining_budget st) cost)
              (omitted_text_items st))
      else
        let? snippet := truncate_text text (with_budget policy (remaining_budget st)) in
        Ok (match snippet with
            | [] => mk_items (out st) 0 (omitted_text_items st + 1)
            | _ => mk_items (out st ++ [FInputText snippet]) 0 (omitted_text_items st)
            end)
  | FInputImage _ _ | FEncryptedContent _ =>
    Ok (mk_items (out st ++ [item]) (remaining_budget st) (omitted_text_items st))
  end.

Fixpoint items_loop (policy : TruncationPolicy) (items : list FunctionCallOutputContentItem)
    (st : items_state) : res unit items_state :=
  match items with
  | [] => Ok st
  | item :: items' => let? st := items_step policy st item in items_loop policy items' st
  end.

Definition omitted_marker (n : Z) : str := lit "[omitted " ++ decz n ++ lit " text items ...]".

Definition truncate_function_output_items_with_policy
    (items : list FunctionCallOutputContentItem) (policy : TruncationPolicy)
    : res unit (list FunctionCallOutputContentItem) :=
  let budget := match policy with
                | Bytes _ => byte_budget policy
                | Tokens _ => token_budget policy
                end in
  let? st := items_loop policy items (mk_items [] budget 0) in
  Ok (if 0 <? omitted_text_items st
      then out st ++ [FInputText (omitted_marker (omitted_text_items st))]
      else out st).

Definition approx_tokens_from_byte_count_i64 (bytes : Z) : Z :=
  if bytes <=? 0 then 0 else Z.min I64_MAX (approx_tokens_from_byte_count bytes).

Definition long_text : str := lit "example output".

Example truncate_examples :
  truncate_middle_chars long_text 6 =
    Ok (lit "exa" ++ [ELLIPSIS] ++ lit "8 chars truncated" ++ [ELLIPSIS] ++ lit "put") /\
  truncate_middle_with_token_budget long_text 1 =
    Ok (lit "ex" ++ [ELLIPSIS] ++ lit "3 tokens truncated" ++ [ELLIPSIS] ++ lit "ut", Some 4) /\
  truncate_function_output_items_with_policy
    [FInputText (lit "abcd"); FInputImage (lit "u") None; FInputText (lit "efghij"); FInputText (lit "k")]
    (Bytes 6) =
    Ok [FInputText (lit "abcd"); FInputImage (lit "u") None;
        FInputText (lit "e" ++ [ELLIPSIS] ++ lit "4 chars truncated" ++ [ELLIPSIS] ++ lit "j");
        FInputText (lit "[omitted 1 text items ...]")].
Proof. vm_compute. done. Qed.

(** ** Splitting a string *)

Section split.
Context (beg tgt : Z).

(** The character at [idx] does not fit in the prefix. *)
Definition past_prefix (s : str) (idx : Z) : Prop :=
  match s with [] => True | c :: _ => beg < idx + zlen_utf8 c end.

Lemma past_prefix_next s idx c : past_prefix (c :: s) idx -> past_prefix s (idx + zlen_utf8 c).
Proof.
  destruct s as [|c' s]; simpl; [done|]. pose proof (zlen_utf8_pos c'). lia.
Qed.

Lemma split_loop_suffix s : forall idx st,
  suffix_started st = true -> tgt <= idx -> past_prefix s idx ->
  split_loop s idx beg tgt st = st.
Proof.
  induction s as [|c s IH]; intros idx st Hst Hidx Hp; cbn [split_loop]; [done|].
  pose proof (zlen_utf8_pos c). simpl in Hp.
  rewrite (proj2 (Z.leb_gt _ _)), (proj2 (Z.leb_le _ _)), Hst by lia. simpl.
  apply IH; [done|lia|by apply past_prefix_next].
Qed.

(** After the prefix: characters before the target are removed, the suffix
    starts at the first one at or after it. *)
Lemma split_loop_middle s : forall idx st,
  suffix_started st = false -> suffix_start st = idx + zlen s -> past_prefix s idx ->
  exists mid rest started,
    s = mid ++ rest /\
    split_loop s idx beg tgt st =
      mk_split (prefix_end st) (idx + zlen mid)
        (match mid with [] => removed_chars st
         | _ => Z.min USIZE_MAX (removed_chars st + Z.of_nat (length mid)) end) started /\
    (rest <> [] -> tgt <= idx + zlen mid) /\
    (forall m c, mid = m ++ [c] -> idx + zlen m < tgt).
Proof.
  induction s as [|c s IH]; intros idx st Hst Hss Hp.
  { exists [], [], false. destruct st; simpl in *. rewrite zlen_nil in *. subst.
    split_and!; try done. by intros []. }
  cbn [split_loop]. pose proof (zlen_utf8_pos c). rewrite zlen_cons in Hss. simpl in Hp.
  rewrite (proj2 (Z.leb_gt (idx + zlen_utf8 c) beg)) by lia.
  destruct (Z.leb_spec tgt idx) as [Ht|Ht].
  - exists [], (c :: s), true. rewrite Hst. cbn [negb].
    rewrite split_loop_suffix by (try done; try lia; by apply past_prefix_next).
    rewrite zlen_nil, Z.add_0_r. split_and!; try done. by intros [].
  - destruct (IH (idx + zlen_utf8 c)
      (mk_split (prefix_end st) (suffix_start st) (usat_add (removed_chars st) 1)
         (suffix_started st))) as (mid & rest & b & -> & -> & Hr & Hm); simpl; try done.
    { rewrite Hss. lia. }
    { by apply past_prefix_next. }
    exists (c :: mid), rest, b. rewrite zlen_cons. split_and!; [done| | |].
    + f_equal; [lia|]. unfold usat_add. destruct mid; simpl length; lia.
    + intros ?. specialize (Hr ltac:(done)). lia.
    + intros m c' E. destruct m as [|c'' m]; simplify_eq/=; [rewrite zlen_nil; lia|].
      specialize (Hm m c' eq_refl). rewrite zlen_cons. lia.
Qed.

Lemma split_loop_prefix s : forall idx st,
  prefix_end st = idx -> idx <= beg ->
  exists left rest,
    s = left ++ rest /\ idx + zlen left <= beg /\ past_prefix rest (idx + zlen left) /\
    split_loop s idx beg tgt st =
      split_loop rest (idx + zlen left) beg tgt
        (mk_split (idx + zlen left) (suffix_start st) (removed_chars st) (suffix_started st)).
Proof.
  induction s as [|c s IH]; intros idx st Hpe Hb.
  { exists [], []. rewrite zlen_nil, Z.add_0_r. simpl. destruct st; simpl in *. by subst. }
  destruct (Z.leb_spec (idx + zlen_utf8 c) beg) as [Hc|Hc].
  - destruct (IH (idx + zlen_utf8 c) (mk_split (idx + zlen_utf8 c) (suffix_start st)
      (removed_chars st) (suffix_started st))) as (l & rest & -> & Hl & Hp & E); [done|lia|].
    exists (c :: l), rest. rewrite zlen_cons, Z.add_assoc. split_and!; try done.
    cbn [split_loop app]. rewrite (proj2 (Z.leb_le _ _)) by lia. by rewrite E.
  - exists [], (c :: s). rewrite zlen_nil, Z.add_0_r. split_and!; try done.
    destruct st; simpl in *. by subst.
Qed.
End split.

(** The two ends of [s] that fit in their budgets, as long as possible. *)
Record best_split (s : str) (beg fin : Z) (before mid after : str) : Prop := {
  bs_parts : s = before ++ mid ++ after;
  bs_before : zlen before <= beg;
  bs_after : zlen after <= fin;
  bs_before_max : forall c m, mid = c :: m -> beg < zlen (before ++ [c]);
  bs_after_max : forall m c, mid = m ++ [c] -> fin < zlen ([c] ++ after)
}.

Lemma split_string_spec s beg fin :
  0 <= beg -> 0 <= fin -> zlen s <= USIZE_MAX ->
  exists before mid after,
    split_string s beg fin = Ok (Z.of_nat (length mid), before, after) /\
    best_split s beg fin before mid after.
Proof.
  intros Hb Hf Hs. destruct (decide (s = [])) as [->|Hne].
  { exists [], [], []. by split; [|split; rewrite ?zlen_nil; try done; intros []]. }
  unfold split_string. destruct s as [|c s']; [done|]. set (s := c :: s') in *. clearbody s.
  set (tgt := usat_sub (zlen s) fin).
  destruct (split_loop_prefix beg tgt s 0 (mk_split 0 (zlen s) 0 false))
    as (left & rest & E1 & Hl & Hp & El); [done|done|].
  destruct (split_loop_middle beg tgt rest (0 + zlen left)
    (mk_split (0 + zlen left) (zlen s) 0 false))
    as (mid & after & b & E2 & Em & Hr & Hm); [done|simpl; rewrite E1, zlen_app; lia|done|].
  rewrite El. cbn [suffix_start removed_chars suffix_started] in *. rewrite Em. clear El Em.
  cbn [prefix_end suffix_start removed_chars]. rewrite !Z.add_0_l in *.
  pose proof (zlen_nonneg mid). pose proof (zlen_nonneg left). pose proof (zlen_nonneg after).
  assert (zlen s = zlen left + zlen mid + zlen after) as Hlen
    by (subst s rest; rewrite !zlen_app; lia).
  rewrite (proj2 (Z.ltb_ge _ _)) by lia.
  assert (byte_split s (zlen left) = Some (left, rest)) as -> by (rewrite E1; apply byte_split_app).
  assert (byte_split s (zlen left + zlen mid) = Some (left ++ mid, after)) as ->.
  { rewrite E1, E2, app_assoc, <- zlen_app. apply byte_split_app. }
  exists left, mid, after. split.
  - cbn. do 3 f_equal. destruct mid; [done|].
    rewrite Z.min_r; [done|].
    assert (forall x : str, Z.of_nat (length x) <= zlen x) as Hle.
    { induction x as [|y x IHx]; [done|]. rewrite zlen_cons. pose proof (zlen_utf8_pos y).
      cbn [length]. lia. }
    specialize (Hle (n :: mid)). cbn [length] in *. lia.
  - unfold tgt, usat_sub in *. split.
    + by rewrite E1, E2.
    + done.
    + destruct after as [|a after]; [rewrite zlen_nil; lia|]. specialize (Hr ltac:(done)). lia.
    + intros c0 m ->. rewrite E2 in Hp. simpl in Hp. rewrite zlen_app, zlen_cons, zlen_nil. lia.
    + intros m c0 ->. specialize (Hm m c0 eq_refl). simpl. rewrite zlen_cons.
      rewrite zlen_app, zlen_cons, zlen_nil in Hlen. pose proof (zlen_nonneg m). lia.
Qed.

(** ** Truncating text *)

(** What truncation to [max_bytes] produces. *)
Definition truncated_as (s : str) (max_bytes : Z) (use_tokens : bool) (result : str) : Prop :=
  (max_bytes = 0 \/ max_bytes < zlen s -> s <> [] ->
   exists before mid after,
     best_split s (max_bytes / 2) (max_bytes - max_bytes / 2) before mid after /\ mid <> [] /\
     result = before ++ format_truncation_marker use_tokens
       (if use_tokens then approx_tokens_from_byte_count (zlen s - max_bytes)
        else Z.of_nat (length mid)) ++ after) /\
  (s = [] \/ (max_bytes <> 0 /\ zlen s <= max_bytes) -> result = s).

Lemma best_split_mid s m before mid after :
  best_split s (m / 2) (m - m / 2) before mid after -> m < zlen s -> mid <> [].
Proof.
  intros [-> H1 H2 _ _] Hm ->. rewrite !zlen_app, zlen_nil in Hm. lia.
Qed.

Lemma zlen_pos s : s <> [] -> 0 < zlen s.
Proof.
  destruct s as [|c s]; [done|]. rewrite zlen_cons. pose proof (zlen_utf8_pos c).
  pose proof (zlen_nonneg s). lia.
Qed.

Lemma best_split_zero s : s <> [] -> best_split s 0 0 [] s [].
Proof.
  intros Hs. split; rewrite ?app_nil_r; try done.
  - intros c m _. apply zlen_pos. done.
  - intros m c _. apply zlen_pos. done.
Qed.

Lemma truncate_estimate_spec s m use_tokens :
  0 <= m -> zlen s <= USIZE_MAX ->
  exists r, truncate_with_byte_estimate s m use_tokens = Ok r /\ truncated_as s m use_tokens r.
Proof.
  intros Hm Hs. destruct (decide (s = [])) as [->|Hne].
  { exists []. by split; [|split]. }
  unfold truncate_with_byte_estimate. destruct s as [|c s']; [done|].
  set (s := c :: s') in *. clearbody s. pose proof (zlen_pos s Hne) as Hpos.
  destruct (Z.eqb_spec m 0) as [->|Hm0].
  { eexists. split; [done|]. split; [|intros [|[]]; done]. intros _ _.
    exists [], s, []. split_and!; [by apply best_split_zero|done|].
    rewrite app_nil_r, Z.sub_0_r. by destruct use_tokens. }
  destruct (Z.leb_spec (zlen s) m) as [Hfit|Hbig].
  { exists s. split; [done|]. split; [lia|done]. }
  cbn [split_budget]. assert (m / 2 <= m) by (apply Z.div_le_upper_bound; lia).
  assert (0 <= m / 2) by (apply Z.div_pos; lia).
  destruct (split_string_spec s (m / 2) (m - m / 2)) as (before & mid & after & E & Hb);
    [lia|lia|done|].
  rewrite E. cbn [res_bind]. eexists. split; [done|]. split; [|intros [|[]]; [done|lia]].
  intros _ _. exists before, mid, after.
  split_and!; [done|by eapply best_split_mid|].
  unfold assemble_truncated_output, removed_units, usat_sub. destruct use_tokens; [|done].
  by rewrite Z.max_r by lia.
Qed.

Definition counts_tokens (policy : TruncationPolicy) : bool :=
  match policy with Bytes _ => false | Tokens _ => true end.

Definition policy_budget (policy : TruncationPolicy) : Z :=
  match policy with Bytes n => n | Tokens n => n end.

Lemma truncate_text_returns content policy :
  0 <= policy_budget policy -> zlen content <= USIZE_MAX ->
  exists r, truncate_text content policy = Ok r /\
    truncated_as content (byte_budget policy) (counts_tokens policy) r.
Proof.
  intros Hp Hs. destruct policy as [n|n]; simpl in *.
  { by apply truncate_estimate_spec. }
  assert (0 <= approx_bytes_for_tokens n) as Hn.
  { unfold approx_bytes_for_tokens, usat_mul, APPROX_BYTES_PER_TOKEN, USIZE_MAX. lia. }
  destruct (truncate_estimate_spec content _ true Hn Hs) as (r & E & Hr).
  destruct (decide (content = [])) as [->|Hne].
  { exists []. by split; [|split]. }
  unfold truncate_middle_with_token_budget. destruct content as [|c s']; [done|].
  set (s := c :: s') in *. clearbody s.
  destruct (Z.ltb_spec 0 n); [destruct (Z.leb_spec (zlen s) (approx_bytes_for_tokens n))|];
    cbn [andb res_bind].
  - exists s. split; [done|]. split; [|done].
    intros [Hz|?]; [|lia]. pose proof (zlen_pos s Hne). lia.
  - rewrite E. cbn [res_bind]. exists r. split; [|done]. by destruct (str_eqb r s).
  - rewrite E. cbn [res_bind]. exists r. split; [|done]. by destruct (str_eqb r s).
Qed.

(** C12: truncated text.  A text within the byte budget is returned unchanged;
    a longer one becomes its beginning and its end, cut on character
    boundaries, each as long as its half of the budget allows, around a marker
    that counts what was removed.  The slices never panic. *)
Theorem truncate_text_spec content policy :
  0 <= policy_budget policy -> zlen content <= USIZE_MAX ->
  exists r, truncate_text content policy = Ok r /\
    truncated_as content (byte_budget policy) (counts_tokens policy) r.
Proof. apply truncate_text_returns. Qed.

(** A text with a two-byte and a three-byte character at the cuts. *)
Definition wide_text : str := lit "ab" ++ [233%N] ++ lit "cdef" ++ [ELLIPSIS] ++ lit "g".

Lemma truncate_text_spec_witness :
  0 <= policy_budget (Bytes 6) /\ zlen wide_text <= USIZE_MAX /\
  exists r, truncate_text wide_text (Bytes 6) = Ok r /\
    r = lit "ab" ++ [ELLIPSIS] ++ lit "6 chars truncated" ++ [ELLIPSIS] ++ lit "g".
Proof.
  assert (0 <= policy_budget (Bytes 6)) as H1 by (simpl; lia).
  assert (zlen wide_text <= USIZE_MAX) as H2 by (vm_compute; discriminate).
  split_and!; [done|done|].
  destruct (truncate_text_spec wide_text (Bytes 6) H1 H2) as (r & E & _).
  exists r. split; [done|]. vm_compute in E. injection E as <-. by vm_compute.
Defined.

(** ** Truncating the items of a tool output *)

Notation texts := (omap text_of) (only parsing).
Notation others := (base.filter (fun item => is_text item = false)) (only parsing).

Definition cost_of (policy : TruncationPolicy) (ts : list str) : Z :=
  foldr (fun t n => item_cost policy t + n) 0 ts.

Lemma item_cost_nonneg policy t : 0 <= item_cost policy t.
Proof.
  destruct policy; simpl; [apply zlen_nonneg|]. unfold approx_token_count.
  apply Z.div_pos; [|done]. unfold usat_add, usat_sub, USIZE_MAX, APPROX_BYTES_PER_TOKEN.
  pose proof (zlen_nonneg t). lia.
Qed.

Lemma item_cost_pos policy t : 0 < item_cost policy t -> t <> [].
Proof. intros Hc ->. destruct policy; simpl in Hc; vm_compute in Hc; done. Qed.

Lemma texts_snoc l t : texts (l ++ [FInputText t]) = texts l ++ [t].
Proof. by rewrite omap_app. Qed.

Lemma others_snoc_text l t : others (l ++ [FInputText t]) = others l.
Proof. rewrite filter_app. simpl. by rewrite app_nil_r. Qed.

(** Once the budget is used up, texts are only counted. *)
Lemma items_loop_exhausted policy items : forall st,
  remaining_budget st = 0 ->
  exists st', items_loop policy items st = Ok st' /\
    texts (out st') = texts (out st) /\ others (out st') = others (out st) ++ others items /\
    omitted_text_items st' = omitted_text_items st + Z.of_nat (length (texts items)).
Proof.
  induction items as [|item items IH]; intros st Hst; cbn [items_loop].
  { exists st. rewrite app_nil_r. simpl. split_and!; try done; lia. }
  destruct item as [t|u d|e]; cbn [items_step]; rewrite ?Hst; cbn [Z.eqb res_bind].
  - destruct (IH (mk_items (out st) 0 (omitted_text_items st + 1)))
      as (st' & E & H1 & H2 & H3); [done|].
    exists st'. rewrite E. split_and!; try done. rewrite H3. cbn. lia.
  - destruct (IH (mk_items (out st ++ [FInputImage u d]) 0 (omitted_text_items st)))
      as (st' & E & H1 & H2 & H3); [done|]. exists st'. rewrite E, H1, H2, H3. cbn [out].
    rewrite omap_app, filter_app, <- app_assoc. cbn. by rewrite app_nil_r.
  - destruct (IH (mk_items (out st ++ [FEncryptedContent e]) 0 (omitted_text_items st)))
      as (st' & E & H1 & H2 & H3); [done|]. exists st'. rewrite E, H1, H2, H3. cbn [out].
    rewrite omap_app, filter_app, <- app_assoc. cbn. by rewrite app_nil_r.
Qed.

(** The texts of the output and the number of omitted ones: as many texts as
    fit are kept, the next one is cut down to what is left of the budget, and
    the rest is omitted. *)
Definition texts_cut (policy : TruncationPolicy) (budget : Z) (ts shown : list str)
    (omitted : Z) : Prop :=
  exists kept rest,
    ts = kept ++ rest /\ cost_of policy kept <= budget /\
    ((rest = [] /\ shown = kept /\ omitted = 0) \/
     (rest <> [] /\ cost_of policy kept = budget /\ shown = kept /\
        omitted = Z.of_nat (length rest)) \/
     (exists t ts' snippet,
        rest = t :: ts' /\ cost_of policy kept < budget < cost_of policy kept + item_cost policy t /\
        truncate_text t (with_budget policy (budget - cost_of policy kept)) = Ok snippet /\
        shown = kept ++ [snippet] /\ omitted = Z.of_nat (length ts'))).

Lemma texts_cut_cons policy budget t ts shown omitted :
  item_cost policy t <= budget ->
  texts_cut policy (budget - item_cost policy t) ts shown omitted ->
  texts_cut policy budget (t :: ts) (t :: shown) omitted.
Proof.
  intros Hc (kept & rest & -> & Hk & Hcase). exists (t :: kept), rest. cbn [cost_of foldr].
  fold (cost_of policy kept). split_and!; [done|lia|].
  destruct Hcase as [(-> & -> & ->)|[(? & ? & -> & ->)|(t' & ts' & sn & -> & ? & E & -> & ->)]].
  - by left.
  - right; left. split_and!; try done; lia.
  - right; right. exists t', ts', sn. split_and!; try done; try lia.
    rewrite <- E. f_equal. f_equal. lia.
Qed.

(** A text that is cut does not become empty. *)
Lemma snippet_nonempty t policy snippet :
  0 <= policy_budget policy -> zlen t <= USIZE_MAX -> t <> [] ->
  truncate_text t policy = Ok snippet -> snippet <> [].
Proof.
  intros Hp Ht Hne E. destruct (truncate_text_returns t policy Hp Ht) as (r & E' & H1 & H2).
  rewrite E in E'. injection E' as <-.
  destruct (decide (byte_budget policy = 0 \/ byte_budget policy < zlen t)) as [Hc|Hc].
  - destruct (H1 Hc Hne) as (b & m & a & _ & _ & ->). unfold format_truncation_marker.
    destruct b, (counts_tokens policy); done.
  - rewrite H2; [done|]. right. lia.
Qed.

Lemma items_loop_spec policy items : forall st,
  0 <= remaining_budget st -> Forall (fun t => zlen t <= USIZE_MAX) (texts items) ->
  exists st' shown n, items_loop policy items st = Ok st' /\
    texts (out st') = texts (out st) ++ shown /\
    others (out st') = others (out st) ++ others items /\
    omitted_text_items st' = omitted_text_items st + n /\
    texts_cut policy (remaining_budget st) (texts items) shown n.
Proof.
  induction items as [|item items IH]; intros st Hst Hlen.
  { exists st, [], 0. rewrite !app_nil_r. split_and!; try done; [lia|].
    exists [], []. split_and!; [done|done|by left]. }
  destruct (decide (remaining_budget st = 0)) as [Hz|Hz].
  { destruct (items_loop_exhausted policy (item :: items) st Hz) as (st' & E & H1 & H2 & H3).
    exists st', [], (Z.of_nat (length (texts (item :: items)))).
    rewrite app_nil_r. split_and!; try done. exists [], (texts (item :: items)).
    rewrite Hz. split_and!; [done|done|].
    destruct (texts (item :: items)); [by left|]. right; left. by split_and!. }
  cbn [items_loop]. destruct item as [t|u d|e]; cbn [items_step];
    rewrite ?(proj2 (Z.eqb_neq _ _) Hz); cbn [res_bind].
  - apply Forall_cons in Hlen as [Ht Hlen].
    destruct (Z.leb_spec (item_cost policy t) (remaining_budget st)) as [Hc|Hc].
    + set (st1 := mk_items (out st ++ [FInputText t]) _ _).
      pose proof (item_cost_nonneg policy t).
      assert (remaining_budget st1 = remaining_budget st - item_cost policy t) as Hr
        by (cbn; unfold usat_sub; lia).
      destruct (IH st1) as (st' & shown & n & E & H1 & H2 & H3 & H4); [lia|done|].
      exists st', (t :: shown), n. cbn [res_bind]. rewrite E, H1, H2, H3. cbn [out st1].
      rewrite texts_snoc, others_snoc_text, <- app_assoc. split_and!; try done.
      rewrite Hr in H4. by apply texts_cut_cons.
    + assert (0 <= policy_budget (with_budget policy (remaining_budget st))) as Hp
        by (destruct policy; simpl; lia).
      destruct (truncate_text_returns t _ Hp Ht) as (sn & Es & _). rewrite Es. cbn [res_bind].
      assert (sn <> []) as Hsn
        by (eapply snippet_nonempty; [exact Hp|done| |exact Es]; apply (item_cost_pos policy); lia).
      assert (match sn with [] => mk_items (out st) 0 (omitted_text_items st + 1)
              | _ => mk_items (out st ++ [FInputText sn]) 0 (omitted_text_items st) end =
              mk_items (out st ++ [FInputText sn]) 0 (omitted_text_items st)) as ->
        by (by destruct sn).
      destruct (items_loop_exhausted policy items
        (mk_items (out st ++ [FInputText sn]) 0 (omitted_text_items st)))
        as (st' & E & H1 & H2 & H3); [done|].
      exists st', [sn], (Z.of_nat (length (texts items))). rewrite E, H1, H2, H3. cbn [out].
      rewrite texts_snoc, others_snoc_text. split_and!; try done.
      exists [], (t :: texts items). cbn [cost_of foldr]. split_and!; [done|lia|].
      right; right. exists t, (texts items), sn. rewrite Z.sub_0_r. split_and!; try done; lia.
  - destruct (IH (mk_items (out st ++ [FInputImage u d]) (remaining_budget st)
      (omitted_text_items st))) as (st' & shown & n & E & H1 & H2 & H3 & H4); [done|done|].
    exists st', shown, n. rewrite E, H1, H2, H3. cbn [out].
    rewrite omap_app, filter_app. cbn. by rewrite app_nil_r, <- app_assoc.
  - destruct (IH (mk_items (out st ++ [FEncryptedContent e]) (remaining_budget st)
      (omitted_text_items st))) as (st' & shown & n & E & H1 & H2 & H3 & H4); [done|done|].
    exists st', shown, n. rewrite E, H1, H2, H3. cbn [out].
    rewrite omap_app, filter_app. cbn. by rewrite app_nil_r, <- app_assoc.
Qed.

Lemma truncate_items_returns items policy :
  0 <= policy_budget policy -> Forall (fun t => zlen t <= USIZE_MAX) (texts items) ->
  exists r shown n,
    truncate_function_output_items_with_policy items policy = Ok r /\
    others r = others items /\
    texts r = shown ++ (if 0 <? n then [omitted_marker n] else []) /\
    texts_cut policy (policy_budget policy) (texts items) shown n.
Proof.
  intros Hp Hlen. unfold truncate_function_output_items_with_policy.
  assert (match policy with Bytes _ => byte_budget policy | Tokens _ => token_budget policy end =
          policy_budget policy) as -> by (by destruct policy).
  destruct (items_loop_spec policy items (mk_items [] (policy_budget policy) 0))
    as (st' & shown & n & E & H1 & H2 & H3 & H4); [done|done|].
  cbn [out omitted_text_items remaining_budget] in *. rewrite Z.add_0_l in H3.
  rewrite E. cbn [res_bind]. rewrite H3. eexists _, shown, n. split; [done|].
  destruct (0 <? n); rewrite ?texts_snoc, ?others_snoc_text, H1, H2, ?app_nil_r; by split_and!.
Qed.

(** Truncated tool outputs.  Images and encrypted items survive in order.
    Of the texts, as many as fit in the budget are kept unchanged, the next
    one is cut down to what is left, and the number of the others is reported
    in a final item. *)
Theorem truncate_items_spec items policy :
  0 <= policy_budget policy -> Forall (fun t => zlen t <= USIZE_MAX) (texts items) ->
  exists r shown n,
    truncate_function_output_items_with_policy items policy = Ok r /\
    others r = others items /\
    texts r = shown ++ (if 0 <? n then [omitted_marker n] else []) /\
    texts_cut policy (policy_budget policy) (texts items) shown n.
Proof. apply truncate_items_returns. Qed.

Definition demo_items : list FunctionCallOutputContentItem :=
  [FInputText (lit "abcd"); FInputImage (lit "u") None; FInputText (lit "efghij");
   FInputText (lit "k")].

Lemma truncate_items_spec_witness :
  0 <= policy_budget (Bytes 6) /\ Forall (fun t => zlen t <= USIZE_MAX) (texts demo_items) /\
  exists r shown n,
    truncate_function_output_items_with_policy demo_items (Bytes 6) = Ok r /\
    length r = 4%nat /\ texts_cut (Bytes 6) 6 (texts demo_items) shown n.
Proof.
  assert (0 <= policy_budget (Bytes 6)) as H1 by (simpl; lia).
  assert (Forall (fun t => zlen t <= USIZE_MAX) (texts demo_items)) as H2
    by (repeat constructor; vm_compute; discriminate).
  split_and!; [done|done|].
  destruct (truncate_items_spec demo_items (Bytes 6) H1 H2) as (r & shown & n & E & _ & _ & Hc).
  exists r, shown, n. split_and!; [done| |done]. vm_compute in E. by injection E as <-.
Defined.
