(* ===== verification/Fragments.v ===== *)
(** * Injected context fragments ([context-fragments], [core/src/context],
      [core/src/event_mapping.rs])

    Context that the agent injects into the conversation is recognised later by
    its markers.  The XML parser used for hook prompts is a parameter. *)

From S2P Require Export Models Truncate.

(** ** String helpers *)

Definition eq_ignore_ascii_case (a b : str) : bool :=
  str_eqb (to_ascii_lowercase a) (to_ascii_lowercase b).

(** [s.get(..n)] and [s.get(n..)] *)
Definition get_to (s : str) (n : Z) : option str := fst <$> byte_split s n.
Definition get_from (s : str) (n : Z) : option str := snd <$> byte_split s n.

Definition is_some_and (o : option str) (p : str -> bool) : bool :=
  match o with Some x => p x | None => false end.

(** ** Marked fragments ([context-fragments/src/fragment.rs]) *)

Definition matches_marked_text (start_marker end_marker text : str) : bool :=
  if str_eqb start_marker [] || str_eqb end_marker [] then false
  else
    let trimmed := trim_start text in
    let starts_with_marker :=
      is_some_and (get_to trimmed (zlen start_marker))
        (fun candidate => eq_ignore_ascii_case candidate start_marker) in
    let trimmed := trim_end trimmed in
    let ends_with_marker :=
      is_some_and (get_from trimmed (usat_sub (zlen trimmed) (zlen end_marker)))
        (fun candidate => eq_ignore_ascii_case candidate end_marker) in
    starts_with_marker && ends_with_marker.

Definition render_marked (start_marker end_marker body : str) : str :=
  if str_eqb start_marker [] && str_eqb end_marker [] then body
  else start_marker ++ body ++ end_marker.

(** The registered fragments that use the default matching. *)
Inductive MarkedFragment :=
| UserInstructions
| EnvironmentContext
| SkillInstructions
| UserShellCommand
| TurnAborted
| SubagentNotification.

Definition type_markers (f : MarkedFragment) : str * str :=
  match f with
  | UserInstructions => (lit "# AGENTS.md instructions for ", lit "</INSTRUCTIONS>")
  | EnvironmentContext => (lit "<environment_context>", lit "</environment_context>")
  | SkillInstructions => (lit "<skill>", lit "</skill>")
  | UserShellCommand => (lit "<user_shell_command>", lit "</user_shell_command>")
  | TurnAborted => (lit "<turn_aborted>", lit "</turn_aborted>")
  | SubagentNotification => (lit "<subagent_notification>", lit "</subagent_notification>")
  end.

Definition marked_matches (f : MarkedFragment) (text : str) : bool :=
  let '(start_marker, end_marker) := type_markers f in
  matches_marked_text start_marker end_marker text.

(** ** Additional context ([context-fragments/src/additional_context.rs]) *)

Definition MAX_ADDITIONAL_CONTEXT_VALUE_TOKENS : Z := 1000.
Definition ADDITIONAL_CONTEXT_END_MARKER_SUFFIX : str := lit ">".
Definition ADDITIONAL_CONTEXT_START_MARKER_PREFIX : str := lit "<external_".

Definition additional_matches (text : str) : bool :=
  match strip_prefix ADDITIONAL_CONTEXT_START_MARKER_PREFIX (trim text) with
  | None => false
  | Some rest =>
    match split_once ADDITIONAL_CONTEXT_END_MARKER_SUFFIX rest with
    | None => false
    | Some (key, value_and_close) =>
      ends_with (lit "</external_" ++ key ++ lit ">") value_and_close
    end
  end.

Definition additional_context_body (key value : str) : res unit str :=
  let? r := truncate_middle_with_token_budget value MAX_ADDITIONAL_CONTEXT_VALUE_TOKENS in
  Ok (key ++ lit ">" ++ r.1 ++ lit "</external_" ++ key).

Definition additional_render (key value : str) : res unit str :=
  let? body := additional_context_body key value in
  Ok (render_marked ADDITIONAL_CONTEXT_START_MARKER_PREFIX
        ADDITIONAL_CONTEXT_END_MARKER_SUFFIX body).

(** ** Internal model context ([core/src/context/internal_model_context.rs]) *)

Definition CONTEXT_START_MARKER : str := lit "<codex_internal_context".
Definition CONTEXT_END_MARKER : str := lit "</codex_internal_context>".
Definition LEGACY_GOAL_CONTEXT_START_MARKER : str := lit "<goal_context>".
Definition LEGACY_GOAL_CONTEXT_END_MARKER : str := lit "</goal_context>".
Definition SOURCE_ATTR_START : str := lit " source=" ++ [DQUOTE].
Definition SOURCE_ATTR_END : str := [DQUOTE] ++ lit ">".

Definition is_ascii_lowercase (c : char) : bool := ((97 <=? c) && (c <=? 122))%N.

Definition is_valid_source (source : str) : bool :=
  match source with
  | [] => false
  | first :: chars =>
    is_ascii_lowercase first &&
    forallb (fun ch => is_ascii_lowercase ch || is_ascii_digit ch || (ch =? 95)%N) chars
  end.

Definition matches_legacy_goal_context (text : str) : bool :=
  starts_with LEGACY_GOAL_CONTEXT_START_MARKER text &&
  ends_with LEGACY_GOAL_CONTEXT_END_MARKER text.

Definition internal_matches (text : str) : bool :=
  let trimmed := trim text in
  if matches_legacy_goal_context trimmed then true
  else
    match strip_prefix CONTEXT_START_MARKER trimmed with
    | None => false
    | Some rest =>
      match strip_prefix SOURCE_ATTR_START rest with
      | None => false
      | Some rest =>
        match split_once SOURCE_ATTR_END rest with
        | None => false
        | Some (source, body_and_close) =>
          is_valid_source source && ends_with CONTEXT_END_MARKER body_and_close
        end
      end
    end.

Definition internal_body (source body : str) : str :=
  lit " source=" ++ [DQUOTE] ++ source ++ [DQUOTE] ++ lit ">" ++ [NL] ++ body ++ [NL].

Definition internal_render (source body : str) : str :=
  render_marked CONTEXT_START_MARKER CONTEXT_END_MARKER (internal_body source body).

(** [InternalContextSource::new] *)
Definition internal_source_new (source : str) : option str :=
  if is_valid_source source then Some source else None.

(** ** Legacy warnings *)

Definition legacy_exec_limit_matches (text : str) : bool :=
  starts_with (lit "Warning: The maximum number of unified exec processes you can keep open is")
    (trim text).

Definition legacy_apply_patch_matches (text : str) : bool :=
  let trimmed := trim text in
  starts_with (lit "Warning: apply_patch was requested via ") trimmed &&
  ends_with (lit "Use the apply_patch tool instead of exec_command.") trimmed.

Definition legacy_model_mismatch_matches (text : str) : bool :=
  starts_with
    (lit "Warning: Your account was flagged for potentially high-risk cyber activity") (trim text).

(** ** Classification of messages *)

Definition is_standard_contextual_user_text (text : str) : bool :=
  marked_matches UserInstructions text
  || marked_matches EnvironmentContext text
  || additional_matches text
  || marked_matches SkillInstructions text
  || marked_matches UserShellCommand text
  || marked_matches TurnAborted text
  || marked_matches SubagentNotification text
  || internal_matches text
  || legacy_exec_limit_matches text
  || legacy_apply_patch_matches text
  || legacy_model_mismatch_matches text.

Definition CONTEXTUAL_DEVELOPER_PREFIXES : list str :=
  [lit "<permissions instructions>"; lit "<model_switch>"; lit "<collaboration_mode>";
   lit "<realtime_conversation>"; lit "<personality_spec>"].

Definition is_contextual_dev_fragment (content_item : ContentItem) : bool :=
  match content_item with
  | InputText text =>
    let trimmed := trim_start text in
    existsb (fun prefix =>
      is_some_and (get_to trimmed (zlen prefix))
        (fun candidate => eq_ignore_ascii_case candidate prefix))
      CONTEXTUAL_DEVELOPER_PREFIXES
  | _ => false
  end.

Definition is_contextual_dev_message_content (message : list ContentItem) : bool :=
  existsb is_contextual_dev_fragment message.

Definition has_non_contextual_dev_message_content (message : list ContentItem) : bool :=
  existsb (fun content_item => negb (is_contextual_dev_fragment content_item)) message.

Section user_fragments.
(** [quick_xml]: the hook run id and the text of a hook prompt element. *)
Variable from_xml_str : str -> option (str * str).

Definition parse_hook_prompt_fragment (text : str) : option (str * str) :=
  match from_xml_str (trim text) with
  | Some (hook_run_id, text) =>
    if str_eqb (trim hook_run_id) [] then None else Some (text, hook_run_id)
  | None => None
  end.

Definition is_contextual_user_fragment (content_item : ContentItem) : bool :=
  match content_item with
  | InputText text =>
    (match parse_hook_prompt_fragment text with Some _ => true | None => false end)
    || is_standard_contextual_user_text text
  | _ => false
  end.

Definition is_contextual_user_message_content (message : list ContentItem) : bool :=
  existsb is_contextual_user_fragment message.
End user_fragments.

Example fragment_examples :
  is_standard_contextual_user_text (lit " <ENVIRONMENT_CONTEXT>x</environment_context> ") = true /\
  is_standard_contextual_user_text (lit "<external_k>v</external_k>") = true /\
  is_standard_contextual_user_text (internal_render (lit "goal") (lit "b")) = true /\
  is_standard_contextual_user_text (lit "hello") = false.
Proof. vm_compute. done. Qed.

(** ** Rendered fragments are recognised *)

Lemma ends_with_app p s : ends_with p (s ++ p) = true.
Proof. unfold ends_with. by rewrite (proj2 (strip_suffix_Some p (s ++ p) s) eq_refl). Qed.

Lemma eq_ignore_ascii_case_refl s : eq_ignore_ascii_case s s = true.
Proof. apply str_eqb_refl. Qed.

(** A non-empty text with solid ends on both sides of anything. *)
Definition solid_markers (s e : str) : Prop :=
  (exists c s', s = c :: s' /\ is_whitespace c = false) /\
  (exists c e', e = e' ++ [c] /\ is_whitespace c = false).

Lemma solid_markers_edges s e x : solid_markers s e -> edges_solid (s ++ x ++ e).
Proof.
  intros [(c & s' & -> & Hc) (d & e' & -> & Hd)]. split; simpl.
  - by intros ? [= <-].
  - intros y. rewrite !app_assoc, app_comm_cons, last_snoc. by intros [= <-].
Qed.

Lemma matches_marked_render s e x :
  solid_markers s e -> matches_marked_text s e (render_marked s e x) = true.
Proof.
  intros Hm. pose proof (solid_markers_edges s e x Hm) as [Hh Hl].
  destruct Hm as [(c & s' & Es & Hc) (d & e' & Ee & Hd)].
  assert (str_eqb s [] = false) as Hs by (apply str_eqb_ne; by subst).
  assert (str_eqb e [] = false) as He by (apply str_eqb_ne; subst; by destruct e').
  unfold matches_marked_text, render_marked. rewrite Hs, He. cbn [andb orb].
  assert (trim_start (s ++ x ++ e) = s ++ x ++ e) as ->
    by (rewrite Es; cbn [app]; by apply trim_start_id).
  rewrite trim_end_solid by done. unfold get_to, get_from. rewrite byte_split_app.
  assert (usat_sub (zlen (s ++ x ++ e)) (zlen e) = zlen (s ++ x)) as ->.
  { rewrite !zlen_app. unfold usat_sub. pose proof (zlen_nonneg s). pose proof (zlen_nonneg x). lia. }
  rewrite app_assoc, byte_split_app. simpl. by rewrite !eq_ignore_ascii_case_refl.
Qed.

Lemma type_markers_solid f : solid_markers (type_markers f).1 (type_markers f).2.
Proof.
  split.
  - destruct f; eexists _, _; (split; [vm_compute; reflexivity|reflexivity]).
  - assert (forall e c, last e = Some c -> is_whitespace c = false ->
      exists c e', e = e' ++ [c] /\ is_whitespace c = false) as Hlast.
    { intros e c Hl Hc. apply last_Some in Hl as [e' ->]. by exists c, e'. }
    destruct f; eapply Hlast; by vm_compute.
Qed.

Lemma solid_pair (s e : str) c d :
  head s = Some c -> is_whitespace c = false ->
  last e = Some d -> is_whitespace d = false -> solid_markers s e.
Proof.
  intros Hs Hc [e' ->]%last_Some Hd. destruct s as [|c' s']; simplify_eq/=.
  split; [by eexists _, _|by exists d, e'].
Qed.

Definition GT : char := 62%N.

Lemma additional_matches_render key v :
  GT ∉ key ->
  additional_matches (render_marked ADDITIONAL_CONTEXT_START_MARKER_PREFIX
    ADDITIONAL_CONTEXT_END_MARKER_SUFFIX (key ++ lit ">" ++ v ++ lit "</external_" ++ key)) = true.
Proof.
  intros Hk. unfold additional_matches, render_marked. cbn [str_eqb].
  assert (solid_markers ADDITIONAL_CONTEXT_START_MARKER_PREFIX
            ADDITIONAL_CONTEXT_END_MARKER_SUFFIX) as Hm by (eapply solid_pair; by vm_compute).
  replace (str_eqb ADDITIONAL_CONTEXT_START_MARKER_PREFIX [] &&
           str_eqb ADDITIONAL_CONTEXT_END_MARKER_SUFFIX []) with false by (by vm_compute).
  rewrite trim_solid by (by apply solid_markers_edges). rewrite strip_prefix_app.
  rewrite <- !app_assoc. change (lit ">") with [GT].
  change ADDITIONAL_CONTEXT_END_MARKER_SUFFIX with [GT].
  rewrite split_once_first by done.
  replace (v ++ lit "</external_" ++ key ++ [GT]) with (v ++ (lit "</external_" ++ key ++ [GT]))
    by done. apply ends_with_app.
Qed.

Lemma valid_source_no_quote source : is_valid_source source = true -> DQUOTE ∉ source.
Proof.
  destruct source as [|c s]; [done|]. cbn [is_valid_source].
  intros [Hc Hs]%andb_true_iff Hin. rewrite forallb_forall in Hs.
  apply elem_of_cons in Hin as [<-|Hin]; [by vm_compute in Hc|].
  apply list_elem_of_In, Hs in Hin. by vm_compute in Hin.
Qed.

Lemma internal_matches_render source x :
  is_valid_source source = true -> internal_matches (internal_render source x) = true.
Proof.
  intros Hs. unfold internal_matches, internal_render, render_marked.
  assert (solid_markers CONTEXT_START_MARKER CONTEXT_END_MARKER) as Hm
    by (eapply solid_pair; by vm_compute).
  replace (str_eqb CONTEXT_START_MARKER [] && str_eqb CONTEXT_END_MARKER []) with false
    by (by vm_compute).
  rewrite trim_solid by (by apply solid_markers_edges).
  destruct (matches_legacy_goal_context _); [done|]. rewrite strip_prefix_app.
  unfold internal_body. rewrite <- !app_assoc. rewrite (app_assoc (lit " source=")).
  fold SOURCE_ATTR_START. rewrite strip_prefix_app.
  replace (source ++ [DQUOTE] ++ lit ">" ++ [NL] ++ x ++ [NL] ++ CONTEXT_END_MARKER)
    with (source ++ SOURCE_ATTR_END ++ ([NL] ++ x ++ [NL]) ++ CONTEXT_END_MARKER)
    by (unfold SOURCE_ATTR_END; by rewrite <- !app_assoc).
  change SOURCE_ATTR_END with (DQUOTE :: [GT]).
  rewrite split_once_first by (by apply valid_source_no_quote).
  by rewrite Hs, ends_with_app.
Qed.

(** The context fragments the agent injects into user messages. *)
Inductive injected :=
| Marked (f : MarkedFragment) (body : str)
| Additional (key value : str)
| Internal (source body : str).

Definition injected_render (i : injected) : res unit str :=
  match i with
  | Marked f body => Ok (render_marked (type_markers f).1 (type_markers f).2 body)
  | Additional key value => additional_render key value
  | Internal source body => Ok (internal_render source body)
  end.

Definition injected_wf (i : injected) : Prop :=
  match i with
  | Marked _ _ => True
  | Additional key value => GT ∉ key /\ (zlen value <= USIZE_MAX)%Z
  | Internal source _ => internal_source_new source = Some source
  end.

(** Injected context is recognised.  Whatever its body, every fragment
    that the agent renders into a user message is later classified as
    contextual, so that it is neither shown as a user message nor counted as
    the start of a turn. *)
Theorem injected_context_recognised from_xml_str i :
  injected_wf i ->
  exists text, injected_render i = Ok text /\
    is_contextual_user_message_content from_xml_str [InputText text] = true.
Proof.
  intros Hwf.
  assert (exists text, injected_render i = Ok text /\
            is_standard_contextual_user_text text = true) as (text & E & Ht).
  { destruct i as [f x|key value|source x].
    - eexists. split; [done|]. unfold is_standard_contextual_user_text.
      assert (marked_matches f (render_marked (type_markers f).1 (type_markers f).2 x) = true) as Hf.
      { unfold marked_matches. destruct (type_markers f) as [s e] eqn:Ef.
        apply matches_marked_render. pose proof (type_markers_solid f) as Hsol. by rewrite Ef in Hsol. }
      destruct f; rewrite Hf, ?orb_true_r; done.
    - destruct Hwf as [Hk Hv].
      destruct (truncate_text_returns value (Tokens MAX_ADDITIONAL_CONTEXT_VALUE_TOKENS))
        as (r & E & _); [done|done|]. cbn [truncate_text] in E. apply bind_Ok in E as (p & E & _).
      eexists. unfold injected_render, additional_render, additional_context_body.
      rewrite E. cbn [res_bind]. split; [done|].
      unfold is_standard_contextual_user_text.
      by rewrite additional_matches_render, !orb_true_r by done.
    - eexists. split; [done|]. unfold is_standard_contextual_user_text.
      simpl in Hwf. unfold internal_source_new in Hwf. destruct (is_valid_source source) eqn:Es; [|done].
      by rewrite internal_matches_render, !orb_true_r by done. }
  exists text. split; [done|]. simpl. by rewrite Ht, !orb_true_r.
Qed.

Lemma injected_context_recognised_witness :
  injected_wf (Additional (lit "selection") (lit "text with <b>")) /\
  exists text, injected_render (Additional (lit "selection") (lit "text with <b>")) = Ok text /\
    is_contextual_user_message_content (fun _ => None) [InputText text] = true.
Proof.
  assert (injected_wf (Additional (lit "selection") (lit "text with <b>"))) as Hwf.
  { split; [|by vm_compute]. by apply (bool_decide_unpack _). }
  split; [exact Hwf|]. exact (injected_context_recognised (fun _ => None) _ Hwf).
Defined.
