(* ===== verification/Normalize.v ===== *)
(** * History normalisation ([core/src/context_manager/normalize.rs])

    The passes that make a recorded conversation acceptable to the model API:
    every call has an output, every output has a call, and images are dropped
    for models that do not read them. *)

From S2P Require Export Models.

Inductive InputModality := ModalityText | ModalityImage.

#[export] Instance InputModality_eq_dec : EqDecision InputModality.
Proof. solve_decision. Defined.

Definition IMAGE_CONTENT_OMITTED_PLACEHOLDER : str :=
  lit "image content omitted because you do not support image input".

(** ** Missing outputs *)

Definition is_function_output (call_id : str) (i : ResponseItem) : bool :=
  match i with FunctionCallOutput existing _ => str_eqb existing call_id | _ => false end.

Definition is_search_output (call_id : str) (i : ResponseItem) : bool :=
  match i with ToolSearchOutput (Some existing) _ _ _ => str_eqb existing call_id | _ => false end.

Definition is_custom_output (call_id : str) (i : ResponseItem) : bool :=
  match i with CustomToolCallOutput existing _ _ => str_eqb existing call_id | _ => false end.

Definition aborted : FunctionCallOutputPayload := from_text (lit "aborted").

(** The synthetic output for a call without one, and whether its absence is
    reported through [error_or_panic]. *)
Definition missing_output (items : list ResponseItem) (item : ResponseItem)
    : option (ResponseItem * bool) :=
  match item with
  | FunctionCall _ _ _ _ call_id =>
    if existsb (is_function_output call_id) items then None
    else Some (FunctionCallOutput call_id aborted, false)
  | ToolSearchCall _ (Some call_id) _ _ _ =>
    if existsb (is_search_output call_id) items then None
    else Some (ToolSearchOutput (Some call_id) (lit "completed") (lit "client") [], false)
  | CustomToolCall _ _ call_id _ _ =>
    if existsb (is_custom_output call_id) items then None
    else Some (CustomToolCallOutput call_id None aborted, true)
  | LocalShellCall _ (Some call_id) _ _ =>
    if existsb (is_function_output call_id) items then None
    else Some (FunctionCallOutput call_id aborted, true)
  | _ => None
  end.

Section passes.
(** [cfg!(debug_assertions)]: [error_or_panic] panics in debug builds and only
    logs in release builds. *)
Variable debug_assertions : bool.

Definition error_or_panic {A} (k : res unit A) : res unit A :=
  if debug_assertions then Panic else k.

Fixpoint collect_missing (all : list ResponseItem) (idx : nat) (items : list ResponseItem)
    : res unit (list (nat * ResponseItem)) :=
  match items with
  | [] => Ok []
  | item :: rest =>
    match missing_output all item with
    | None => collect_missing all (S idx) rest
    | Some (output, report) =>
      let continue := let? l := collect_missing all (S idx) rest in Ok ((idx, output) :: l) in
      if report then error_or_panic continue else continue
    end
  end.

(** [for (idx, item) in missing.into_iter().rev() { items.insert(idx + 1, item) }] *)
Fixpoint insert_all (items : list ResponseItem) (missing_rev : list (nat * ResponseItem))
    : res unit (list ResponseItem) :=
  match missing_rev with
  | [] => Ok items
  | (idx, output_item) :: rest =>
    let? items := from_opt (vec_insert items (idx + 1) output_item) in
    insert_all items rest
  end.

Definition ensure_call_outputs_present (items : list ResponseItem)
    : res unit (list ResponseItem) :=
  let? missing_outputs_to_insert := collect_missing items 0 items in
  insert_all items (reverse missing_outputs_to_insert).

(** ** Orphan outputs *)

Definition function_call_id (i : ResponseItem) : option str :=
  match i with FunctionCall _ _ _ _ call_id => Some call_id | _ => None end.

Definition tool_search_call_id (i : ResponseItem) : option str :=
  match i with ToolSearchCall _ (Some call_id) _ _ _ => Some call_id | _ => None end.

Definition local_shell_call_id (i : ResponseItem) : option str :=
  match i with LocalShellCall _ (Some call_id) _ _ => Some call_id | _ => None end.

Definition custom_tool_call_id (i : ResponseItem) : option str :=
  match i with CustomToolCall _ _ call_id _ _ => Some call_id | _ => None end.

Definition id_set (f : ResponseItem -> option str) (items : list ResponseItem) : gset str :=
  list_to_set (omap f items).

(** The closure of [retain]. *)
Definition keeps_output (items : list ResponseItem) (item : ResponseItem) : bool :=
  match item with
  | FunctionCallOutput call_id _ =>
    bool_decide (call_id ∈ id_set function_call_id items)
    || bool_decide (call_id ∈ id_set local_shell_call_id items)
  | CustomToolCallOutput call_id _ _ => bool_decide (call_id ∈ id_set custom_tool_call_id items)
  | ToolSearchOutput call_id _ execution _ =>
    if str_eqb execution (lit "server") then true
    else match call_id with
         | Some call_id => bool_decide (call_id ∈ id_set tool_search_call_id items)
         | None => true
         end
  | _ => true
  end.

Fixpoint retain_outputs (all items : list ResponseItem) : res unit (list ResponseItem) :=
  match items with
  | [] => Ok []
  | item :: rest =>
    if keeps_output all item
    then let? rest := retain_outputs all rest in Ok (item :: rest)
    else error_or_panic (retain_outputs all rest)
  end.

Definition remove_orphan_outputs (items : list ResponseItem) : res unit (list ResponseItem) :=
  retain_outputs items items.

(** ** Images *)

Definition strip_content_item (c : ContentItem) : ContentItem :=
  match c with InputImage _ _ => InputText IMAGE_CONTENT_OMITTED_PLACEHOLDER | _ => c end.

Definition strip_output_item (c : FunctionCallOutputContentItem) : FunctionCallOutputContentItem :=
  match c with FInputImage _ _ => FInputText IMAGE_CONTENT_OMITTED_PLACEHOLDER | _ => c end.

Definition strip_payload (p : FunctionCallOutputPayload) : FunctionCallOutputPayload :=
  match body p with
  | ContentItems items => mk_payload (ContentItems (strip_output_item <$> items)) (success p)
  | TextBody _ => p
  end.

Definition strip_item (item : ResponseItem) : ResponseItem :=
  match item with
  | Message id role content phase => Message id role (strip_content_item <$> content) phase
  | FunctionCallOutput call_id output => FunctionCallOutput call_id (strip_payload output)
  | CustomToolCallOutput call_id name output =>
    CustomToolCallOutput call_id name (strip_payload output)
  | ImageGenerationCall id status revised_prompt _ =>
    ImageGenerationCall id status revised_prompt []
  | _ => item
  end.

Definition strip_images_when_unsupported (input_modalities : list InputModality)
    (items : list ResponseItem) : list ResponseItem :=
  if bool_decide (ModalityImage ∈ input_modalities) then items else strip_item <$> items.

(** [ContextManager::normalize_history] *)
Definition normalize_history (input_modalities : list InputModality) (items : list ResponseItem)
    : res unit (list ResponseItem) :=
  let? items := ensure_call_outputs_present items in
  let? items := remove_orphan_outputs items in
  Ok (strip_images_when_unsupported input_modalities items).
End passes.

(** ** Removing the counterpart of an item *)

Fixpoint remove_first_matching (p : ResponseItem -> bool) (items : list ResponseItem)
    : list ResponseItem :=
  match items with
  | [] => []
  | i :: rest => if p i then rest else i :: remove_first_matching p rest
  end.

Definition id_is (f : ResponseItem -> option str) (call_id : str) (i : ResponseItem) : bool :=
  match f i with Some existing => str_eqb existing call_id | None => false end.

Definition remove_corresponding_for (items : list ResponseItem) (item : ResponseItem)
    : list ResponseItem :=
  match item with
  | FunctionCall _ _ _ _ call_id => remove_first_matching (is_function_output call_id) items
  | FunctionCallOutput call_id _ =>
    if existsb (id_is function_call_id call_id) items
    then remove_first_matching (id_is function_call_id call_id) items
    else remove_first_matching (id_is local_shell_call_id call_id) items
  | ToolSearchCall _ (Some call_id) _ _ _ =>
    remove_first_matching (is_search_output call_id) items
  | ToolSearchOutput (Some call_id) _ _ _ =>
    remove_first_matching (id_is tool_search_call_id call_id) items
  | CustomToolCall _ _ call_id _ _ => remove_first_matching (is_custom_output call_id) items
  | CustomToolCallOutput call_id _ _ =>
    remove_first_matching (id_is custom_tool_call_id call_id) items
  | LocalShellCall _ (Some call_id) _ _ =>
    remove_first_matching (is_function_output call_id) items
  | _ => items
  end.

Definition call (id : str) : ResponseItem := FunctionCall None (lit "tool") None (lit "{}") id.
Definition answer (id : str) : ResponseItem := FunctionCallOutput id (from_text (lit "ok")).

Example normalize_examples :
  normalize_history false [ModalityText]
    [call (lit "1"); call (lit "2"); answer (lit "2"); answer (lit "3")] =
  Ok [call (lit "1"); FunctionCallOutput (lit "1") aborted; call (lit "2"); answer (lit "2")].
Proof. vm_compute. done. Qed.

(** ** Calls and outputs *)

(** What pairs a call with its output. *)
Inductive key := KFunction (call_id : str) | KSearch (call_id : str) | KCustom (call_id : str).

#[export] Instance key_eq_dec : EqDecision key.
Proof. solve_decision. Defined.

Definition call_key (i : ResponseItem) : option key :=
  match i with
  | FunctionCall _ _ _ _ call_id => Some (KFunction call_id)
  | LocalShellCall _ (Some call_id) _ _ => Some (KFunction call_id)
  | ToolSearchCall _ (Some call_id) _ _ _ => Some (KSearch call_id)
  | CustomToolCall _ _ call_id _ _ => Some (KCustom call_id)
  | _ => None
  end.

Definition output_key (i : ResponseItem) : option key :=
  match i with
  | FunctionCallOutput call_id _ => Some (KFunction call_id)
  | ToolSearchOutput (Some call_id) _ _ _ => Some (KSearch call_id)
  | CustomToolCallOutput call_id _ _ => Some (KCustom call_id)
  | _ => None
  end.

(** Results of searches the server ran need no call of their own. *)
Definition server_search (i : ResponseItem) : bool :=
  match i with ToolSearchOutput _ _ execution _ => str_eqb execution (lit "server") | _ => false end.

Definition calls_answered (items : list ResponseItem) : Prop :=
  forall c k, c ∈ items -> call_key c = Some k -> exists o, o ∈ items /\ output_key o = Some k.

Definition outputs_called (items : list ResponseItem) : Prop :=
  forall o k, o ∈ items -> output_key o = Some k -> server_search o = false ->
    exists c, c ∈ items /\ call_key c = Some k.

Lemma existsb_elem {A} (p : A -> bool) l : existsb p l = true <-> exists x, x ∈ l /\ p x = true.
Proof. rewrite existsb_exists. by setoid_rewrite <- list_elem_of_In. Qed.

Lemma is_function_output_key id i :
  is_function_output id i = true <-> output_key i = Some (KFunction id).
Proof.
  destruct i as [| | | | | | | | |[]| | | | | |]; simpl; rewrite ?str_eqb_eq; naive_solver.
Qed.

Lemma is_search_output_key id i :
  is_search_output id i = true <-> output_key i = Some (KSearch id).
Proof.
  destruct i as [| | | | | | | | |[]| | | | | |]; simpl; rewrite ?str_eqb_eq; naive_solver.
Qed.

Lemma is_custom_output_key id i :
  is_custom_output id i = true <-> output_key i = Some (KCustom id).
Proof.
  destruct i as [| | | | | | | | |[]| | | | | |]; simpl; rewrite ?str_eqb_eq; naive_solver.
Qed.

Definition answered_in (items : list ResponseItem) (k : key) : Prop :=
  exists o, o ∈ items /\ output_key o = Some k.

(** The test a call of key [k] makes. *)
Definition has_output (items : list ResponseItem) (k : key) : bool :=
  match k with
  | KFunction id => existsb (is_function_output id) items
  | KSearch id => existsb (is_search_output id) items
  | KCustom id => existsb (is_custom_output id) items
  end.

Lemma has_output_true items k : has_output items k = true <-> answered_in items k.
Proof.
  unfold answered_in. destruct k; simpl; rewrite existsb_elem.
  - by setoid_rewrite is_function_output_key.
  - by setoid_rewrite is_search_output_key.
  - by setoid_rewrite is_custom_output_key.
Qed.

Lemma missing_output_spec items i :
  match missing_output items i with
  | None => forall k, call_key i = Some k -> answered_in items k
  | Some (o, _) =>
    exists k, call_key i = Some k /\ output_key o = Some k /\ call_key o = None /\
      server_search o = false /\ ~ answered_in items k
  end.
Proof.
  assert (forall k (mk : ResponseItem * bool), call_key i = Some k ->
    missing_output items i = (if has_output items k then None else Some mk) ->
    output_key mk.1 = Some k -> call_key mk.1 = None -> server_search mk.1 = false ->
    match missing_output items i with
    | None => forall k, call_key i = Some k -> answered_in items k
    | Some (o, _) =>
      exists k, call_key i = Some k /\ output_key o = Some k /\ call_key o = None /\
        server_search o = false /\ ~ answered_in items k
    end) as Hgen.
  { intros k [o b] Hk -> Ho Hc Hsv. destruct (has_output items k) eqn:E.
    - intros k' Hk'. simplify_eq. by apply has_output_true.
    - exists k. split_and!; try done. rewrite <- has_output_true, E. done. }
  destruct i as [| | |? [id|]| |? [id|]| | | | | | | | | |]; simpl;
    try (intros; discriminate); by eapply Hgen.
Qed.

(** The outputs that are inserted, with the index of their calls. *)
Definition missing_item (all : list ResponseItem) (i : ResponseItem) : list ResponseItem :=
  match missing_output all i with Some (o, _) => [o] | None => [] end.

Fixpoint missing_list (all : list ResponseItem) (idx : nat) (items : list ResponseItem)
    : list (nat * ResponseItem) :=
  match items with
  | [] => []
  | i :: rest => (pair idx <$> missing_item all i) ++ missing_list all (S idx) rest
  end.

(** The history with every missing output right after its call. *)
Definition complete (all items : list ResponseItem) : list ResponseItem :=
  items ≫= fun i => i :: missing_item all i.

Lemma collect_missing_release all items : forall idx,
  collect_missing false all idx items = Ok (missing_list all idx items).
Proof.
  induction items as [|i items IH]; intros idx; simpl; [done|].
  unfold missing_item. destruct (missing_output all i) as [[o []]|]; by rewrite IH.
Qed.

Lemma missing_list_app all l1 : forall idx l2,
  missing_list all idx (l1 ++ l2) =
  missing_list all idx l1 ++ missing_list all (idx + length l1) l2.
Proof.
  induction l1 as [|i l1 IH]; intros idx l2; simpl; [by rewrite Nat.add_0_r|].
  rewrite IH, <- app_assoc. do 3 f_equal. lia.
Qed.

Lemma insert_all_complete all l : forall suf,
  insert_all (l ++ suf) (reverse (missing_list all 0 l)) = Ok (complete all l ++ suf).
Proof.
  induction l as [|x l IH] using rev_ind; intros suf; [done|].
  rewrite missing_list_app, reverse_app. cbn [missing_list]. rewrite app_nil_r, Nat.add_0_l.
  unfold complete. rewrite bind_app. cbn [mbind list_bind]. fold (complete all l).
  rewrite <- !app_assoc. destruct (missing_item all x) as [|o [|o' os]] eqn:E.
  - cbn [fmap list_fmap reverse rev_append app]. by rewrite IH.
  - cbn [fmap list_fmap]. rewrite reverse_singleton. cbn [app insert_all].
    rewrite cons_middle, app_assoc.
    replace (length l + 1)%nat with (length (l ++ [x])) by (rewrite length_app; done).
    rewrite vec_insert_app. cbn [from_opt res_bind]. rewrite <- app_assoc. by rewrite IH.
  - unfold missing_item in E. destruct (missing_output all x) as [[]|]; done.
Qed.

Lemma ensure_release items :
  ensure_call_outputs_present false items = Ok (complete items items).
Proof.
  unfold ensure_call_outputs_present. rewrite collect_missing_release. cbn [res_bind].
  pose proof (insert_all_complete items items []) as E. by rewrite !app_nil_r in E.
Qed.

Lemma retain_release all items :
  retain_outputs false all items = Ok (base.filter (fun i => keeps_output all i = true) items).
Proof.
  induction items as [|i items IH]; [done|]. cbn [retain_outputs]. rewrite IH. cbn [res_bind].
  rewrite filter_cons. destruct (keeps_output all i) eqn:E.
  - by rewrite decide_True.
  - by rewrite decide_False by congruence.
Qed.

(** ** Keeping exactly the outputs that answer a call *)

Lemma elem_id_set f items id : id ∈ id_set f items <-> exists i, i ∈ items /\ f i = Some id.
Proof. unfold id_set. by rewrite elem_of_list_to_set, list_elem_of_omap. Qed.

Lemma keeps_output_spec items o k :
  output_key o = Some k ->
  keeps_output items o = true <->
  server_search o = true \/ exists c, c ∈ items /\ call_key c = Some k.
Proof.
  assert (forall f id k, (forall i, f i = Some id -> call_key i = Some k) ->
    id ∈ id_set f items -> exists c, c ∈ items /\ call_key c = Some k) as Hin.
  { intros f id k' Hf (i & Hi & E)%elem_id_set. eauto. }
  destruct o as [| | | | | |id p| |id n p|[id|] st ex ts| | | | | |]; try discriminate;
    intros [= <-]; cbn [keeps_output server_search]; rewrite ?orb_true_iff, ?bool_decide_eq_true.
  - split.
    + intros [H|H]; right; (eapply Hin; [|exact H]).
      * by intros []; simpl; intros; simplify_eq.
      * by intros [| | |? [] | | | | | | | | | | | |]; simpl; intros; simplify_eq.
    + intros [|(c & Hc & E)]; [done|]. rewrite !elem_id_set.
      destruct c as [| | |? [] | |? []| | | | | | | | | |]; simplify_eq/=; [right|left]; eauto.
  - split.
    + intros H. right. eapply Hin; [|exact H]. by intros []; simpl; intros; simplify_eq.
    + intros [|(c & Hc & E)]; [done|]. rewrite elem_id_set.
      destruct c as [| | |? [] | |? []| | | | | | | | | |]; simplify_eq/=; eauto.
  - destruct (str_eqb ex (lit "server")); [naive_solver|]. rewrite bool_decide_eq_true. split.
    + intros H. right. eapply Hin; [|exact H].
      by intros [| | |? [] | |? []| | | | | | | | | |]; simpl; intros; simplify_eq.
    + intros [|(c & Hc & E)]; [done|]. rewrite elem_id_set.
      destruct c as [| | |? [] | |? []| | | | | | | | | |]; simplify_eq/=; eauto.
Qed.

Lemma keeps_other items o : output_key o = None -> keeps_output items o = true.
Proof.
  destruct o as [| | | | | | | | |[]| | | | | |]; try done. intros _. simpl. by case_match.
Qed.

Lemma call_not_output c k : call_key c = Some k -> output_key c = None.
Proof. by destruct c as [| | |? []| |? []| | | |[]| | | | | |]. Qed.

Lemma elem_complete items i :
  i ∈ complete items items <-> i ∈ items \/ exists c, c ∈ items /\ i ∈ missing_item items c.
Proof.
  unfold complete. rewrite list_elem_of_bind. split.
  - intros (c & [->|H]%elem_of_cons & Hc); eauto.
  - intros [H|(c & Hc & H)].
    + exists i. split; [by left|done].
    + exists c. split; [by right|done].
Qed.

Lemma missing_item_elem items c o :
  o ∈ missing_item items c ->
  exists k, call_key c = Some k /\ output_key o = Some k /\ call_key o = None /\
    server_search o = false.
Proof.
  pose proof (missing_output_spec items c) as Hs. unfold missing_item.
  destruct (missing_output items c) as [[o' b]|]; [|by intros ?%elem_of_nil].
  intros ->%list_elem_of_singleton. naive_solver.
Qed.

Lemma complete_answered items : calls_answered (complete items items).
Proof.
  intros c k Hc Hk. assert (c ∈ items) as Hin.
  { apply elem_complete in Hc as [|(c' & _ & Hm)]; [done|].
    apply missing_item_elem in Hm as (? & _ & _ & ? & _). congruence. }
  pose proof (missing_output_spec items c) as Hs.
  destruct (missing_output items c) as [[o b]|] eqn:E.
  - destruct Hs as (k' & Hk' & Ho & _). exists o. simplify_eq. split; [|done].
    apply elem_complete. right. exists c. unfold missing_item. rewrite E. split; [done|by left].
  - destruct (Hs k Hk) as (o & Ho & ?). exists o. rewrite elem_complete. auto.
Qed.

(** The history after the first two passes. *)
Definition balanced (items : list ResponseItem) : list ResponseItem :=
  let c := complete items items in base.filter (fun i => keeps_output c i = true) c.

Lemma balanced_answered items : calls_answered (balanced items).
Proof.
  intros c k [_ Hc]%list_elem_of_filter Hk.
  destruct (complete_answered items c k Hc Hk) as (o & Ho & Eo).
  exists o. split; [|done]. apply list_elem_of_filter. split; [|done].
  apply (keeps_output_spec _ _ _ Eo). right. eauto.
Qed.

Lemma balanced_called items : outputs_called (balanced items).
Proof.
  intros o k [Hk Ho]%list_elem_of_filter Eo Hsv.
  apply (keeps_output_spec _ _ _ Eo) in Hk as [|(c & Hc & Ec)]; [congruence|].
  exists c. split; [|done]. apply list_elem_of_filter. split; [|done].
  apply keeps_other. by eapply call_not_output.
Qed.

(** A history in which calls and outputs match is left alone by both passes,
    in debug builds too. *)
Lemma answered_no_missing items i :
  calls_answered items -> i ∈ items -> missing_output items i = None.
Proof.
  intros Hc Hi. pose proof (missing_output_spec items i) as Hs.
  destruct (missing_output items i) as [[o b]|]; [|done].
  destruct Hs as (k & Hk & _ & _ & _ & Hn). destruct Hn. by apply (Hc i k).
Qed.

Lemma collect_missing_none dbg all items : forall idx,
  Forall (fun i => missing_output all i = None) items ->
  collect_missing dbg all idx items = Ok [].
Proof.
  induction items as [|i items IH]; intros idx Hf; [done|]. inv Hf.
  cbn [collect_missing]. rewrite H1. by apply IH.
Qed.

Lemma retain_all dbg all items :
  Forall (fun i => keeps_output all i = true) items -> retain_outputs dbg all items = Ok items.
Proof.
  induction items as [|i items IH]; intros Hf; [done|]. inv Hf.
  cbn [retain_outputs]. rewrite H1, IH by done. done.
Qed.

Lemma matched_fixpoint dbg items :
  calls_answered items -> outputs_called items ->
  ensure_call_outputs_present dbg items = Ok items /\ remove_orphan_outputs dbg items = Ok items.
Proof.
  intros Hc Ho. split.
  - unfold ensure_call_outputs_present. rewrite collect_missing_none; [done|].
    apply Forall_forall. intros i Hi. by apply answered_no_missing.
  - apply retain_all. apply Forall_forall. intros i Hi.
    destruct (output_key i) as [k|] eqn:Ek; [|by apply keeps_other].
    apply (keeps_output_spec _ _ _ Ek). destruct (server_search i) eqn:Es; [by left|right].
    by apply (Ho i k).
Qed.

(** ** The normalised history *)

Definition shown (mods : list InputModality) (i : ResponseItem) : ResponseItem :=
  if bool_decide (ModalityImage ∈ mods) then i else strip_item i.

Definition image_free (i : ResponseItem) : Prop :=
  match i with
  | Message _ _ content _ => forall u d, InputImage u d ∉ content
  | FunctionCallOutput _ p | CustomToolCallOutput _ _ p =>
    match body p with
    | ContentItems items => forall u d, FInputImage u d ∉ items
    | TextBody _ => True
    end
  | ImageGenerationCall _ _ _ result => result = []
  | _ => True
  end.

Lemma shown_keys mods i :
  call_key (shown mods i) = call_key i /\ output_key (shown mods i) = output_key i /\
  server_search (shown mods i) = server_search i.
Proof. unfold shown. case_bool_decide; [done|]. by destruct i. Qed.

Lemma strip_images_shown mods items :
  strip_images_when_unsupported mods items = shown mods <$> items.
Proof.
  unfold strip_images_when_unsupported, shown. case_bool_decide; [|done].
  by rewrite list_fmap_id.
Qed.

Lemma strip_image_free i : image_free (strip_item i).
Proof.
  destruct i as [? ? content| | | | | |? [[]]| |? ? [[]]| | | | | | |]; simpl; try done.
  - intros u d ([] & ? & _)%list_elem_of_fmap; discriminate.
  - intros u d ([] & ? & _)%list_elem_of_fmap; discriminate.
  - intros u d ([] & ? & _)%list_elem_of_fmap; discriminate.
Qed.

Lemma image_free_strip i : image_free i -> strip_item i = i.
Proof.
  assert (forall {A} (f : A -> A) (l : list A), (forall x, x ∈ l -> f x = x) -> f <$> l = l) as Hid.
  { intros A f l Hf. rewrite <- (list_fmap_id l) at 2. apply list_fmap_ext.
    intros k x Hx. apply Hf. by eapply list_elem_of_lookup_2. }
  destruct i as [? ? content| | | | | |? [[]]| |? ? [[]]| | |? ? ? result| | | |]; simpl; try done;
    intros Hf; unfold strip_payload; simpl.
  - f_equal. apply Hid. intros [] Hx; try done. by destruct (Hf image_url detail).
  - do 3 f_equal. apply Hid. intros [] Hx; try done. by destruct (Hf image_url detail).
  - do 3 f_equal. apply Hid. intros [] Hx; try done. by destruct (Hf image_url detail).
  - by subst.
Qed.

Lemma shown_calls_answered mods items :
  calls_answered items -> calls_answered (shown mods <$> items).
Proof.
  intros Hc c' k (c & -> & Hin)%list_elem_of_fmap Hk.
  rewrite (proj1 (shown_keys mods c)) in Hk. destruct (Hc c k Hin Hk) as (o & Ho & Eo).
  exists (shown mods o). split; [by apply list_elem_of_fmap_2|].
  by rewrite (proj1 (proj2 (shown_keys mods o))).
Qed.

Lemma shown_outputs_called mods items :
  outputs_called items -> outputs_called (shown mods <$> items).
Proof.
  intros Hc c' k (c & -> & Hin)%list_elem_of_fmap Hk Hsv.
  destruct (shown_keys mods c) as (_ & E1 & E2). rewrite E1 in Hk. rewrite E2 in Hsv.
  destruct (Hc c k Hin Hk Hsv) as (o & Ho & Eo).
  exists (shown mods o). split; [by apply list_elem_of_fmap_2|].
  by rewrite (proj1 (shown_keys mods o)).
Qed.

Notation non_outputs := (base.filter (fun i => output_key i = None)) (only parsing).

Lemma balanced_non_outputs items : non_outputs (balanced items) = non_outputs items.
Proof.
  unfold balanced. set (c := complete items items).
  assert (forall l : list ResponseItem, non_outputs (base.filter (fun i => keeps_output c i = true) l) = non_outputs l)
    as Hkeep.
  { induction l as [|i l IH]; [done|]. rewrite !filter_cons.
    destruct (output_key i) as [k|] eqn:E.
    - rewrite (decide_False (P := Some k = None)) by done.
      destruct (decide (keeps_output c i = true)); [|done].
      by rewrite filter_cons, E, decide_False by done.
    - rewrite (decide_True (P := keeps_output c i = true)) by (by apply keeps_other).
      rewrite filter_cons, E, !(decide_True (P := @None key = None)) by done. by rewrite IH. }
  rewrite Hkeep. unfold c, complete. clear Hkeep c. generalize items at 1 as all.
  induction items as [|i items IH]; intros all; [done|].
  cbn [mbind list_bind]. rewrite filter_app, IH, !filter_cons.
  assert (non_outputs (missing_item all i) = []) as ->.
  { unfold missing_item. pose proof (missing_output_spec all i) as Hs.
    destruct (missing_output all i) as [[o b]|]; [|done].
    destruct Hs as (k & _ & Ho & _). by rewrite filter_cons, Ho, decide_False by done. }
  by case_decide.
Qed.

Lemma normalize_release mods items :
  normalize_history false mods items = Ok (shown mods <$> balanced items).
Proof.
  unfold normalize_history, remove_orphan_outputs. rewrite ensure_release. cbn [res_bind].
  rewrite retain_release. cbn [res_bind]. by rewrite strip_images_shown.
Qed.

(** In a debug build a pass gives the same result or panics. *)
Definition panics_or {A} (debug release : res unit A) : Prop := debug = Panic \/ debug = release.

Lemma panics_or_bind {A B} (d r : res unit A) (f g : A -> res unit B) :
  panics_or d r -> (forall x, panics_or (f x) (g x)) -> panics_or (res_bind d f) (res_bind r g).
Proof. intros [->| ->] Hf; [by left|]. destruct r; simpl; [apply Hf|by right..]. Qed.

Lemma collect_missing_debug all items : forall idx,
  panics_or (collect_missing true all idx items) (collect_missing false all idx items).
Proof.
  induction items as [|i items IH]; intros idx; cbn [collect_missing]; [by right|].
  destruct (missing_output all i) as [[o []]|]; [by left| |apply IH].
  apply panics_or_bind; [apply IH|by right].
Qed.

Lemma retain_debug all items : panics_or (retain_outputs true all items) (retain_outputs false all items).
Proof.
  induction items as [|i items IH]; cbn [retain_outputs]; [by right|].
  destruct (keeps_output all i); [|by left]. apply panics_or_bind; [apply IH|by right].
Qed.

Lemma normalize_debug mods items :
  panics_or (normalize_history true mods items) (normalize_history false mods items).
Proof.
  unfold normalize_history, ensure_call_outputs_present, remove_orphan_outputs.
  repeat (apply panics_or_bind; [|intros ?]);
    [apply collect_missing_debug|by right|apply retain_debug|by right].
Qed.

Lemma normalize_matched dbg mods items :
  calls_answered items -> outputs_called items ->
  normalize_history dbg mods items = normalize_history false mods items.
Proof.
  intros Hc Ho. unfold normalize_history.
  destruct (matched_fixpoint dbg items Hc Ho) as [-> E1]. cbn [res_bind]. rewrite E1.
  destruct (matched_fixpoint false items Hc Ho) as [-> E2]. cbn [res_bind]. by rewrite E2.
Qed.

(** C8: the normalised history is well formed.  In a release build
    normalisation of any history succeeds; in its result every call has an
    output, every output (but results of server-side searches) has a call, all
    other items survive in order, every recorded output whose call is recorded
    survives, and no image is left for a model that does not read images.  In
    a debug build, where the consistency checks panic, it panics or gives that
    same result, and it gives it for every history whose calls and outputs
    match. *)
Theorem normalize_history_wf mods items :
  exists out,
    normalize_history false mods items = Ok out /\
    calls_answered out /\ outputs_called out /\
    non_outputs out = shown mods <$> non_outputs items /\
    (forall o c k, o ∈ items -> c ∈ items -> output_key o = Some k -> call_key c = Some k ->
       shown mods o ∈ out) /\
    (ModalityImage ∉ mods -> Forall image_free out) /\
    (normalize_history true mods items = Panic \/ normalize_history true mods items = Ok out) /\
    (calls_answered items -> outputs_called items -> normalize_history true mods items = Ok out).
Proof.
  exists (shown mods <$> balanced items). rewrite normalize_release. split_and!; [done|..].
  - apply shown_calls_answered, balanced_answered.
  - apply shown_outputs_called, balanced_called.
  - rewrite <- (balanced_non_outputs items). generalize (balanced items) as l.
    induction l as [|i l IH]; [done|]. cbn [fmap list_fmap]. rewrite !filter_cons.
    rewrite (proj1 (proj2 (shown_keys mods i))).
    case_decide; [|exact IH]. cbn [fmap list_fmap]. f_equal. exact IH.
  - intros o c k Ho Hc Eo Ec. apply list_elem_of_fmap_2, list_elem_of_filter.
    split; [|apply elem_complete; by left]. apply (keeps_output_spec _ _ _ Eo). right.
    exists c. split; [apply elem_complete; by left|done].
  - intros Hm. apply Forall_fmap, Forall_forall. intros i _. unfold compose, shown.
    rewrite bool_decide_false by done. apply strip_image_free.
  - rewrite <- normalize_release. apply normalize_debug.
  - intros Hc Ho. by rewrite normalize_matched, normalize_release.
Qed.

(** Normalisation is idempotent, and a normalised history never trips
    the consistency checks that panic in debug builds. *)
Theorem normalize_idempotent dbg mods items out :
  normalize_history false mods items = Ok out -> normalize_history dbg mods out = Ok out.
Proof.
  rewrite normalize_release. intros [= <-].
  destruct (matched_fixpoint dbg (shown mods <$> balanced items)) as [E1 E2].
  { apply shown_calls_answered, balanced_answered. }
  { apply shown_outputs_called, balanced_called. }
  unfold normalize_history. rewrite E1. cbn [res_bind]. rewrite E2. cbn [res_bind].
  rewrite strip_images_shown, <- list_fmap_compose. f_equal. apply list_fmap_ext.
  intros ? i _. unfold compose, shown. case_bool_decide; [done|].
  apply image_free_strip, strip_image_free.
Qed.

Definition demo_history : list ResponseItem :=
  [Message None (lit "user") [InputImage (lit "u") None] None;
   call (lit "1"); call (lit "2"); answer (lit "2"); answer (lit "3")].

Lemma normalize_idempotent_witness :
  exists out, normalize_history false [ModalityText] demo_history = Ok out /\ length out = 5%nat /\
    normalize_history true [ModalityText] out = Ok out.
Proof.
  eexists. split; [vm_compute; reflexivity|]. split; [done|].
  apply (normalize_idempotent true [ModalityText] demo_history). by vm_compute.
Defined.

(** ** Dropping the oldest item together with its counterpart *)

(** Calls and outputs match one to one. *)
Record paired (items : list ResponseItem) : Prop := {
  paired_calls : NoDup (omap call_key items);
  paired_outputs : NoDup (omap output_key items);
  paired_answered : calls_answered items;
  paired_called : outputs_called items
}.

(** [l'] is [l] without one item whose key under [f] is [k], if there is any. *)
Definition removes_one (f : ResponseItem -> option key) (k : key) (l l' : list ResponseItem)
    : Prop :=
  (exists l1 x l2, l = l1 ++ x :: l2 /\ f x = Some k /\ l' = l1 ++ l2) \/
  (l' = l /\ forall x, x ∈ l -> f x <> Some k).

Lemma remove_first_split (p : ResponseItem -> bool) l :
  (exists l1 x l2, l = l1 ++ x :: l2 /\ p x = true /\ remove_first_matching p l = l1 ++ l2) \/
  (remove_first_matching p l = l /\ forall x, x ∈ l -> p x = false).
Proof.
  induction l as [|i l IH]; simpl; [right; split; [done|set_solver]|].
  destruct (p i) eqn:Ei.
  - left. by exists [], i, l.
  - destruct IH as [(l1 & x & l2 & -> & Hx & ->)|[-> Hn]].
    + left. by exists (i :: l1), x, l2.
    + right. split; [done|]. intros x [->|?]%elem_of_cons; auto.
Qed.

Lemma remove_first_key (f : ResponseItem -> option key) k p l :
  (forall x, p x = true <-> f x = Some k) -> removes_one f k l (remove_first_matching p l).
Proof.
  intros Hp. destruct (remove_first_split p l) as [(l1 & x & l2 & -> & Hx & ->)|[-> Hn]].
  - left. exists l1, x, l2. by rewrite <- Hp.
  - right. split; [done|]. intros x Hx. rewrite <- Hp. specialize (Hn x Hx). congruence.
Qed.

Lemma id_is_true f id i : id_is f id i = true <-> f i = Some id.
Proof. unfold id_is. destruct (f i); rewrite ?str_eqb_eq; naive_solver. Qed.

Lemma remove_for_call l i k :
  call_key i = Some k -> removes_one output_key k l (remove_corresponding_for l i).
Proof.
  destruct i as [| | |? [id|]|? ? ? ? id|? [id|]| |? ? id| | | | | | | |]; intros [= <-]; simpl;
    apply remove_first_key; intros x;
    [apply is_function_output_key|apply is_function_output_key|apply is_search_output_key
    |apply is_custom_output_key].
Qed.

Lemma remove_for_output l i k :
  output_key i = Some k -> removes_one call_key k l (remove_corresponding_for l i).
Proof.
  destruct i as [| | | | | |id| |id|[id|]| | | | | |]; intros [= <-]; cbn [remove_corresponding_for].
  - destruct (remove_first_split (id_is function_call_id id) l)
      as [(l1 & x & l2 & -> & Hx & E)|[E Hn]].
    + assert (existsb (id_is function_call_id id) (l1 ++ x :: l2) = true) as ->.
      { apply existsb_elem. exists x. split; [set_solver|done]. }
      left. exists l1, x, l2. split_and!; try done. apply id_is_true in Hx.
      destruct x; simplify_eq/=. done.
    + assert (existsb (id_is function_call_id id) l = false) as ->.
      { apply not_true_is_false. rewrite existsb_elem. intros (x & Hx & Hid).
        by rewrite Hn in Hid. }
      destruct (remove_first_split (id_is local_shell_call_id id) l)
        as [(l1 & x & l2 & -> & Hx & ->)|[-> Hn']].
      * left. exists l1, x, l2. split_and!; try done. apply id_is_true in Hx.
        destruct x as [| | |? []| | | | | | | | | | | |]; simplify_eq/=. done.
      * right. split; [done|]. intros x Hx E'. specialize (Hn x Hx). specialize (Hn' x Hx).
        unfold id_is in Hn, Hn'.
        destruct x as [| | |? []| |? []| | | | | | | | | |]; simplify_eq/=;
          by rewrite str_eqb_refl in *.
  - apply remove_first_key. intros x. rewrite id_is_true.
    destruct x as [| | |? []| |? []| | | | | | | | | |]; naive_solver.
  - apply remove_first_key. intros x. rewrite id_is_true.
    destruct x as [| | |? []| |? []| | | | | | | | | |]; naive_solver.
Qed.

Lemma output_not_call o k : output_key o = Some k -> call_key o = None.
Proof. by destruct o as [| | |? []| |? []| | | |[]| | | | | |]. Qed.

Lemma remove_for_other l i :
  call_key i = None -> output_key i = None -> remove_corresponding_for l i = l.
Proof. by destruct i as [| | |? []| |? []| | | |[]| | | | | |]. Qed.

Lemma omap_remove {A B} (f : A -> option B) l1 x l2 y :
  f x = Some y -> omap f (l1 ++ x :: l2) ≡ₚ y :: omap f (l1 ++ l2).
Proof.
  intros E. rewrite !omap_app. cbn [omap list_omap]. rewrite E.
  by rewrite Permutation_middle.
Qed.

Lemma omap_remove_none {A B} (f : A -> option B) l1 x l2 :
  f x = None -> omap f (l1 ++ x :: l2) = omap f (l1 ++ l2).
Proof. intros E. rewrite !omap_app. cbn [omap list_omap]. by rewrite E. Qed.

(** Removing matching entries from both sides of a pairing.  [f] is the key
    of the removed front item, [g] that of its counterpart. *)
Lemma key_elsewhere (f : ResponseItem -> option key) l1 x l2 y k :
  y ∈ l1 ++ x :: l2 -> f y = Some k -> f x <> Some k -> y ∈ l1 ++ l2.
Proof. intros Hy E Hx. assert (y <> x) by congruence. set_solver. Qed.

Lemma paired_remove_call i l k :
  call_key i = Some k -> paired (i :: l) -> paired (remove_corresponding_for l i).
Proof.
  intros Ek [Hc Ho Ha Hd]. pose proof (call_not_output _ _ Ek) as En.
  cbn [omap list_omap] in Hc, Ho. rewrite Ek in Hc. rewrite En in Ho.
  apply NoDup_cons in Hc as [Hk Hc].
  destruct (remove_for_call l i k Ek) as [(l1 & x & l2 & -> & Hx & ->)|[_ Hn]].
  2: { destruct (Ha i k) as (o & [->|Hin]%elem_of_cons & E); [by left|done|congruence|].
       by destruct (Hn o). }
  pose proof (output_not_call _ _ Hx) as Exc.
  rewrite (omap_remove_none call_key) in Hc, Hk by done.
  rewrite (omap_remove output_key _ _ _ k) in Ho by done. apply NoDup_cons in Ho as [Hko Ho].
  rewrite list_elem_of_omap in Hk, Hko. split; [done|done|..].
  - intros c k' Hin E. destruct (Ha c k') as (o & [->|Hin']%elem_of_cons & E'); [set_solver|done| |].
    { congruence. }
    exists o. split; [|done]. eapply key_elsewhere; [done|done|]. rewrite Hx.
    intros [= <-]. eauto.
  - intros o k' Hin E Hs. destruct (Hd o k') as (c & [->|Hin']%elem_of_cons & E'); [set_solver|done..| |].
    { exfalso. simplify_eq. eauto. }
    exists c. split; [|done]. eapply key_elsewhere; [done|done|]. by rewrite Exc.
Qed.

Lemma paired_remove_output i l k :
  output_key i = Some k -> paired (i :: l) -> paired (remove_corresponding_for l i).
Proof.
  intros Ek [Hc Ho Ha Hd]. pose proof (output_not_call _ _ Ek) as En.
  cbn [omap list_omap] in Hc, Ho. rewrite En in Hc. rewrite Ek in Ho.
  apply NoDup_cons in Ho as [Hk Ho]. rewrite list_elem_of_omap in Hk.
  destruct (remove_for_output l i k Ek) as [(l1 & x & l2 & -> & Hx & ->)|[-> Hn]].
  - pose proof (call_not_output _ _ Hx) as Exo.
    rewrite (omap_remove_none output_key) in Ho by done.
    rewrite (omap_remove call_key _ _ _ k) in Hc by done. apply NoDup_cons in Hc as [Hkc Hc].
    rewrite list_elem_of_omap in Hkc. split; [done|done|..].
    + intros c k' Hin E. destruct (Ha c k') as (o & [->|Hin']%elem_of_cons & E'); [set_solver|done| |].
      { exfalso. simplify_eq. eauto. }
      exists o. split; [|done]. eapply key_elsewhere; [done|done|]. by rewrite Exo.
    + intros o k' Hin E Hs.
      destruct (Hd o k') as (c & [->|Hin']%elem_of_cons & E'); [set_solver|done..| |].
      { congruence. }
      exists c. split; [|done]. eapply key_elsewhere; [done|done|]. rewrite Hx.
      intros [= <-]. apply Hk. exists o. split; [set_solver|done].
  - split; [done|done|..].
    + intros c k' Hin E. destruct (Ha c k') as (o & [->|Hin']%elem_of_cons & E'); [set_solver|done| |eauto].
      simplify_eq. by destruct (Hn c).
    + intros o k' Hin E Hs.
      destruct (Hd o k') as (c & [->|Hin']%elem_of_cons & E'); [set_solver|done..| |eauto]. congruence.
Qed.

(** Dropping the front item and its counterpart keeps the pairing. *)
Lemma paired_remove_first i l : paired (i :: l) -> paired (remove_corresponding_for l i).
Proof.
  intros Hp. destruct (call_key i) as [k|] eqn:Ec; [by eapply paired_remove_call|].
  destruct (output_key i) as [k|] eqn:Eo; [by eapply paired_remove_output|].
  rewrite remove_for_other by done. destruct Hp as [Hc Ho Ha Hd].
  cbn [omap list_omap] in Hc, Ho. rewrite Ec in Hc. rewrite Eo in Ho. split; [done|done|..].
  - intros c k Hin E. destruct (Ha c k) as (o & [->|?]%elem_of_cons & ?); [set_solver|done|congruence|eauto].
  - intros o k Hin E Hs.
    destruct (Hd o k) as (c & [->|?]%elem_of_cons & ?); [set_solver|done..|congruence|eauto].
Qed.
