(* ===== verification/History.v ===== *)
(** * The context manager ([core/src/context_manager/history.rs])

    The transcript of a thread and the operations on it: recording with
    truncation, preparation for a prompt, rollback of turns, removal of the
    oldest item, token estimates, and the compaction of superseded
    diagnostics.  JSON serialisation and parsing, XML parsing and image
    decoding are parameters. *)

From S2P Require Export Normalize Fragments Truncate.

Open Scope Z_scope.

(** ** Machine arithmetic *)

(** Two's complement wrap-around of [i64] ([+] and [-] in a release build). *)
Definition i64_wrap (z : Z) : Z := (z - I64_MIN) mod 2 ^ 64 + I64_MIN.

Definition U64_MAX : Z := 2 ^ 64 - 1.
Definition u64_sat_succ (z : Z) : Z := Z.min U64_MAX (z + 1).

(** A non-negative double [mant * 2 ^ exp], and rounding to 53 bits, ties to
    even. *)
Record f64 := mk_f64 { mant : Z; exp : Z }.

Definition round_f64 (m e : Z) : f64 :=
  let s := Z.log2 m + 1 - 53 in
  if s <=? 0 then mk_f64 m e
  else
    let q := m / 2 ^ s in
    let r := m mod 2 ^ s in
    let half := 2 ^ (s - 1) in
    let up := (half <? r) || ((half =? r) && Z.odd q) in
    mk_f64 (if up then q + 1 else q) (e + s).

Definition f64_of_usize (n : Z) : f64 := round_f64 n 0.
Definition f64_mul (a b : f64) : f64 := round_f64 (mant a * mant b) (exp a + exp b).

(** [x.ceil() as usize] *)
Definition f64_ceil_usize (x : f64) : Z :=
  Z.min USIZE_MAX
    (if 0 <=? exp x then mant x * 2 ^ exp x else - ((- mant x) / 2 ^ (- exp x))).

(** The double nearest to 1.2. *)
Definition f64_1_2 : f64 := mk_f64 5404319552844595 (-52).

(** [policy * 1.2] *)
Definition policy_mul_1_2 (policy : TruncationPolicy) : TruncationPolicy :=
  match policy with
  | Bytes bytes => Bytes (f64_ceil_usize (f64_mul (f64_of_usize bytes) f64_1_2))
  | Tokens tokens => Tokens (f64_ceil_usize (f64_mul (f64_of_usize tokens) f64_1_2))
  end.

Example policy_mul_examples :
  policy_mul_1_2 (Bytes 10) = Bytes 12 /\ policy_mul_1_2 (Bytes 10000) = Bytes 12000 /\
  policy_mul_1_2 (Tokens 1) = Tokens 2 /\ policy_mul_1_2 (Bytes 0) = Bytes 0.
Proof. vm_compute. done. Qed.

(** ** Token usage ([protocol/src/protocol.rs]) *)

Record TokenUsage := mk_usage {
  input_tokens : Z;
  cached_input_tokens : Z;
  output_tokens : Z;
  reasoning_output_tokens : Z;
  total_tokens : Z
}.

Definition usage_default : TokenUsage := mk_usage 0 0 0 0 0.

Definition usage_add_assign (a b : TokenUsage) : TokenUsage :=
  mk_usage (i64_wrap (input_tokens a + input_tokens b))
    (i64_wrap (cached_input_tokens a + cached_input_tokens b))
    (i64_wrap (output_tokens a + output_tokens b))
    (i64_wrap (reasoning_output_tokens a + reasoning_output_tokens b))
    (i64_wrap (total_tokens a + total_tokens b)).

Record TokenUsageInfo := mk_info {
  total_token_usage : TokenUsage;
  last_token_usage : TokenUsage;
  model_context_window : option Z
}.

Definition append_last_usage (info : TokenUsageInfo) (last : TokenUsage) : TokenUsageInfo :=
  mk_info (usage_add_assign (total_token_usage info) last) last (model_context_window info).

Definition new_or_append (info : option TokenUsageInfo) (last : option TokenUsage)
    (window : option Z) : option TokenUsageInfo :=
  match info, last with
  | None, None => None
  | _, _ =>
    let info := default (mk_info usage_default usage_default window) info in
    let info := match last with Some last => append_last_usage info last | None => info end in
    Some (match window with
          | Some w => mk_info (total_token_usage info) (last_token_usage info) (Some w)
          | None => info
          end)
  end.

Definition fill_to_context_window (info : TokenUsageInfo) (context_window : Z) : TokenUsageInfo :=
  let previous_total := total_tokens (total_token_usage info) in
  let delta := Z.max (i64_wrap (context_window - previous_total)) 0 in
  mk_info (mk_usage 0 0 0 0 context_window) (mk_usage 0 0 0 0 delta) (Some context_window).

Definition full_context_window (context_window : Z) : TokenUsageInfo :=
  fill_to_context_window (mk_info usage_default usage_default (Some context_window)) context_window.

(** ** Items *)

Definition truncate_function_output_payload (output : FunctionCallOutputPayload)
    (policy : TruncationPolicy) : res unit FunctionCallOutputPayload :=
  match body output with
  | TextBody content =>
    let? content := truncate_text content policy in
    Ok (mk_payload (TextBody content) (success output))
  | ContentItems items =>
    let? items := truncate_function_output_items_with_policy items policy in
    Ok (mk_payload (ContentItems items) (success output))
  end.

Definition process_item (item : ResponseItem) (policy : TruncationPolicy)
    : res unit ResponseItem :=
  let policy_with_serialization_budget := policy_mul_1_2 policy in
  match item with
  | FunctionCallOutput call_id output =>
    let? output := truncate_function_output_payload output policy_with_serialization_budget in
    Ok (FunctionCallOutput call_id output)
  | CustomToolCallOutput call_id name output =>
    let? output := truncate_function_output_payload output policy_with_serialization_budget in
    Ok (CustomToolCallOutput call_id name output)
  | _ => Ok item
  end.

Definition is_api_message (message : ResponseItem) : bool :=
  match message with
  | Message _ role _ _ => negb (str_eqb role (lit "system"))
  | CompactionTrigger | OtherItem => false
  | _ => true
  end.

Definition is_model_generated_item (item : ResponseItem) : bool :=
  match item with
  | Message _ role _ _ => str_eqb role (lit "assistant")
  | Reasoning _ _ _ _ | FunctionCall _ _ _ _ _ | ToolSearchCall _ _ _ _ _
  | WebSearchCall _ _ _ | ImageGenerationCall _ _ _ _ | CustomToolCall _ _ _ _ _
  | LocalShellCall _ _ _ _ | Compaction _ | ContextCompaction _ => true
  | _ => false
  end.

(** [Iterator::rposition] *)
Definition rposition {A} (p : A -> bool) (l : list A) : option nat :=
  foldl (fun acc '(i, x) => if p x then Some i else acc) None (imap pair l).

(** ** Token estimates *)

Definition COMMA : char := 44%N.
Definition SEMICOLON : char := 59%N.

Definition RESIZED_IMAGE_BYTES_ESTIMATE : Z := 7373.
Definition ORIGINAL_IMAGE_PATCH_SIZE : Z := 32.
Definition ORIGINAL_IMAGE_MAX_PATCHES : Z := 10000.

Definition i64_of_usize (n : Z) : Z := Z.min I64_MAX n.

Definition estimate_reasoning_length (encoded_len : Z) : Z :=
  usat_sub (usat_mul encoded_len 3 / 4) 650.

(** [div_ceil] *)
Definition estimate_encrypted_function_output_length (encoded_len : Z) : Z :=
  (usat_mul encoded_len 9 + 15) / 16.

(** The payload of an inline base64 image.  The slice after [data:] is in
    range because the prefix was checked. *)
Definition parse_base64_image_data_url (url : str) : option str :=
  if negb (is_some_and (get_to url (zlen (lit "data:")))
             (fun prefix => eq_ignore_ascii_case prefix (lit "data:")))
  then None
  else
    match split_once [COMMA] url with
    | None => None
    | Some (metadata, payload) =>
      match get_from metadata (zlen (lit "data:")) with
      | None => None
      | Some metadata_without_scheme =>
        let metadata_parts := split SEMICOLON metadata_without_scheme in
        let mime_type := default [] (head metadata_parts) in
        let has_base64_marker :=
          existsb (fun part => eq_ignore_ascii_case part (lit "base64")) (drop 1 metadata_parts) in
        if negb (is_some_and (get_to mime_type (zlen (lit "image/")))
                   (fun prefix => eq_ignore_ascii_case prefix (lit "image/")))
        then None
        else if negb has_base64_marker then None
        else Some payload
      end
    end.

Definition i64_sat_mul (a b : Z) : Z := i64_clamp (a * b).

Section context.
(** [serde_json::to_string(item)]: its length in bytes, if it succeeds. *)
Variable json_len : ResponseItem -> option Z.
(** The string field [file_path] of a JSON object. *)
Variable json_file_path : str -> option str.
(** Width and height of a base64-encoded image, if it decodes. *)
Variable decode_image : str -> option (Z * Z).
(** The hook prompt XML parser. *)
Variable from_xml_str : str -> option (str * str).
(** Whether a text parses as a JSON [InterAgentCommunication]. *)
Variable is_inter_agent_json : str -> bool.
(** [cfg!(debug_assertions)] *)
Variable debug_assertions : bool.
(** The environment variable [CODEX_COMPACT_SUPERSEDED_DIAGNOSTICS]. *)
Variable compact_var : option str.
Context {TurnContextItem : Type}.

Definition estimate_original_image_bytes (image_url : str) : option Z :=
  match parse_base64_image_data_url image_url with
  | None => None
  | Some payload =>
    match decode_image payload with
    | None => None
    | Some (width, height) =>
      let patch_size := ORIGINAL_IMAGE_PATCH_SIZE in
      let patches_wide := i64_sat_add width (i64_sat_sub patch_size 1) / patch_size in
      let patches_high := i64_sat_add height (i64_sat_sub patch_size 1) / patch_size in
      let patch_count := i64_sat_mul patches_wide patches_high in
      let patch_count := Z.min patch_count ORIGINAL_IMAGE_MAX_PATCHES in
      Some (i64_of_usize (approx_bytes_for_tokens patch_count))
    end
  end.

(** The [accumulate] closure. *)
Definition accumulate (acc : Z * Z) (image_url : str) (detail : option ImageDetail) : Z * Z :=
  match parse_base64_image_data_url image_url with
  | None => acc
  | Some payload =>
    (i64_sat_add acc.1 (i64_of_usize (zlen payload)),
     i64_sat_add acc.2
       (match detail with
        | Some DetailOriginal =>
          default RESIZED_IMAGE_BYTES_ESTIMATE (estimate_original_image_bytes image_url)
        | _ => RESIZED_IMAGE_BYTES_ESTIMATE
        end))
  end.

Definition image_data_url_estimate_adjustment (item : ResponseItem) : Z * Z :=
  match item with
  | Message _ _ content _ =>
    foldl (fun acc c => match c with InputImage u d => accumulate acc u d | _ => acc end)
      (0, 0) content
  | FunctionCallOutput _ output | CustomToolCallOutput _ _ output =>
    match body output with
    | ContentItems items =>
      foldl (fun acc c => match c with FInputImage u d => accumulate acc u d | _ => acc end)
        (0, 0) items
    | TextBody _ => (0, 0)
    end
  | _ => (0, 0)
  end.

Definition encrypted_function_output_estimate_adjustment (item : ResponseItem) : Z * Z :=
  match item with
  | FunctionCallOutput _ output =>
    match body output with
    | ContentItems items =>
      foldl (fun acc c =>
        match c with
        | FEncryptedContent e =>
          (i64_sat_add acc.1 (i64_of_usize (zlen e)),
           i64_sat_add acc.2
             (i64_of_usize (estimate_encrypted_function_output_length (zlen e))))
        | _ => acc
        end) (0, 0) items
    | TextBody _ => (0, 0)
    end
  | _ => (0, 0)
  end.

Definition estimate_serialized (item : ResponseItem) : Z :=
  let raw := default 0 (i64_of_usize <$> json_len item) in
  let '(image_payload_bytes, image_replacement_bytes) :=
    image_data_url_estimate_adjustment item in
  let '(encrypted_payload_bytes, encrypted_replacement_bytes) :=
    encrypted_function_output_estimate_adjustment item in
  let raw := i64_sat_add (i64_sat_sub raw image_payload_bytes) image_replacement_bytes in
  i64_sat_add (i64_sat_sub raw encrypted_payload_bytes) encrypted_replacement_bytes.

Definition estimate_response_item_model_visible_bytes (item : ResponseItem) : Z :=
  match item with
  | Reasoning _ _ _ (Some content) | Compaction content | ContextCompaction (Some content) =>
    i64_of_usize (estimate_reasoning_length (zlen content))
  | _ => estimate_serialized item
  end.

Definition estimate_item_token_count (item : ResponseItem) : Z :=
  approx_tokens_from_byte_count_i64 (estimate_response_item_model_visible_bytes item).

Definition sum_i64 (f : ResponseItem -> Z) (items : list ResponseItem) : Z :=
  foldl (fun acc item => i64_sat_add acc (f item)) 0 items.

(** ** Turn boundaries *)

Definition is_inter_agent_instruction_content (content : list ContentItem) : bool :=
  match content with
  | [InputText text] | [OutputText text] => is_inter_agent_json text
  | _ => false
  end.

Definition is_user_turn_boundary (item : ResponseItem) : bool :=
  match item with
  | AgentMessage _ _ _ => true
  | Message _ role content _ =>
    (str_eqb role (lit "user") && negb (is_contextual_user_message_content from_xml_str content))
    || (str_eqb role (lit "assistant") && is_inter_agent_instruction_content content)
  | _ => false
  end.

Definition user_message_positions (items : list ResponseItem) : list nat :=
  omap (fun '(idx, item) => if is_user_turn_boundary item then Some idx else None)
    (imap pair items).

(** ** Compaction of superseded diagnostics *)

Definition superseded_diagnostic_compaction_enabled : bool :=
  match compact_var with
  | Some v => str_eqb v (lit "1") || str_eqb v (lit "true")
  | None => false
  end.

(** [name.rsplit("__").next()] *)
Definition short_name (name : str) : str :=
  match split_once (lit "__") (reverse name) with
  | Some (last, _) => reverse last
  | None => name
  end.

Definition EM_DASH : char := 8212%N.

Definition build_key : str * str :=
  (lit "build",
   lit "[superseded build output " ++ [EM_DASH] ++ lit " project rebuilt on a later turn]").

Definition superseded_diagnostic_key (name arguments : str) : option (str * str) :=
  let short := short_name name in
  if str_eqb short (lit "lean_diagnostic_messages") then
    match json_file_path arguments with
    | None => None
    | Some file =>
      Some (lit "diag:" ++ file,
            lit "[superseded diagnostics for " ++ file ++ lit " " ++ [EM_DASH] ++
            lit " file re-checked on a later turn]")
    end
  else if str_eqb short (lit "lean_build") then Some build_key
  else if (str_eqb short (lit "shell") || str_eqb short (lit "exec_command"))
          && contains (lit "lake build") arguments
  then Some build_key
  else None.

(** call id -> (key, stub) for diagnostic-like calls. *)
Definition keyed_calls (items : list ResponseItem) : gmap str (str * str) :=
  foldl (fun m item =>
    match item with
    | FunctionCall _ name _ arguments call_id =>
      match superseded_diagnostic_key name arguments with
      | Some ks => <[call_id := ks]> m
      | None => m
      end
    | _ => m
    end) ∅ items.

Definition output_diagnostic (keyed : gmap str (str * str)) (item : ResponseItem)
    : option (str * str) :=
  match item with FunctionCallOutput call_id _ => keyed !! call_id | _ => None end.

(** key -> index of the last output carrying that key. *)
Definition last_indices (keyed : gmap str (str * str)) (items : list ResponseItem)
    : gmap str nat :=
  foldl (fun m '(idx, item) =>
    match output_diagnostic keyed item with
    | Some (key, _) => <[key := idx]> m
    | None => m
    end) ∅ (imap pair items).

Definition stub_item (item : ResponseItem) (stub : str) : ResponseItem :=
  match item with
  | FunctionCallOutput call_id output =>
    FunctionCallOutput call_id (mk_payload (TextBody stub) (success output))
  | _ => item
  end.

Definition compact_superseded_diagnostics (items : list ResponseItem) : list ResponseItem :=
  let keyed := keyed_calls items in
  if bool_decide (keyed = ∅) then items
  else
    let last_index := last_indices keyed items in
    imap (fun idx item =>
      match output_diagnostic keyed item with
      | Some (key, stub) =>
        if bool_decide (last_index !! key = Some idx) then item else stub_item item stub
      | None => item
      end) items.

(** ** The context manager *)

Record ContextManager := mk_context {
  items : list ResponseItem;
  history_version : Z;
  token_info : option TokenUsageInfo;
  reference_context_item : option TurnContextItem
}.

Definition context_new : ContextManager := mk_context [] 0 (new_or_append None None None) None.

Definition set_token_info (m : ContextManager) (info : option TokenUsageInfo) : ContextManager :=
  mk_context (items m) (history_version m) info (reference_context_item m).

Definition set_reference_context_item (m : ContextManager) (item : option TurnContextItem)
    : ContextManager :=
  mk_context (items m) (history_version m) (token_info m) item.

Definition set_token_usage_full (m : ContextManager) (context_window : Z) : ContextManager :=
  set_token_info m
    (Some (match token_info m with
           | Some info => fill_to_context_window info context_window
           | None => full_context_window context_window
           end)).

Definition set_items (m : ContextManager) (l : list ResponseItem) : ContextManager :=
  mk_context l (history_version m) (token_info m) (reference_context_item m).

Fixpoint record_items (m : ContextManager) (l : list ResponseItem) (policy : TruncationPolicy)
    : res unit ContextManager :=
  match l with
  | [] => Ok m
  | item :: rest =>
    if negb (is_api_message item) then record_items m rest policy
    else
      let? processed := process_item item policy in
      record_items (set_items m (items m ++ [processed])) rest policy
  end.

Definition for_prompt (m : ContextManager) (input_modalities : list InputModality)
    : res unit (list ResponseItem) :=
  let? l := normalize_history debug_assertions input_modalities (items m) in
  Ok (if superseded_diagnostic_compaction_enabled then compact_superseded_diagnostics l else l).

Definition estimate_token_count_with_base_instructions (m : ContextManager)
    (base_instructions : str) : option Z :=
  let base_tokens := i64_of_usize (approx_token_count base_instructions) in
  let items_tokens :=
    sum_i64 estimate_item_token_count (items m) in
  Some (i64_sat_add base_tokens items_tokens).

Definition remove_first_item (m : ContextManager) : ContextManager :=
  match items m with
  | [] => m
  | removed :: rest => set_items m (remove_corresponding_for rest removed)
  end.

Definition replace (m : ContextManager) (l : list ResponseItem) : ContextManager :=
  mk_context l (u64_sat_succ (history_version m)) (token_info m) (reference_context_item m).

Definition is_image (c : FunctionCallOutputContentItem) : bool :=
  match c with FInputImage _ _ => true | _ => false end.

Definition is_output_or_boundary (item : ResponseItem) : bool :=
  match item with
  | FunctionCallOutput _ _ => true
  | _ => is_user_turn_boundary item
  end.

Definition replace_last_turn_images (m : ContextManager) (placeholder : str)
    : ContextManager * bool :=
  match rposition is_output_or_boundary (items m) with
  | None => (m, false)
  | Some index =>
    match items m !! index with
    | Some (FunctionCallOutput call_id output) =>
      match body output with
      | TextBody _ => (m, false)
      | ContentItems content_items =>
        let replaced := existsb is_image content_items in
        let content_items :=
          (fun c => if is_image c then FInputText placeholder else c) <$> content_items in
        let l := <[index := FunctionCallOutput call_id
                     (mk_payload (ContentItems content_items) (success output))]> (items m) in
        (if replaced then replace m l else set_items m l, replaced)
      end
    | _ => (m, false)
    end
  end.

Definition clear_reference (m : ContextManager) : ContextManager :=
  set_reference_context_item m None.

(** The [while] loop walks down from [cut_idx]; the snapshot index panics out
    of range. *)
Fixpoint trim_pre_turn_context_updates (m : ContextManager) (snapshot : list ResponseItem)
    (first_instruction_turn_idx cut_idx : nat) : res unit (ContextManager * nat) :=
  match cut_idx with
  | O => Ok (m, O)
  | S previous =>
    if (first_instruction_turn_idx <? cut_idx)%nat then
      match snapshot !! previous with
      | None => Panic
      | Some (Message _ role content _) =>
        if str_eqb role (lit "developer") && is_contextual_dev_message_content content then
          let m := if has_non_contextual_dev_message_content content then clear_reference m else m in
          trim_pre_turn_context_updates m snapshot first_instruction_turn_idx previous
        else if str_eqb role (lit "user")
                && is_contextual_user_message_content from_xml_str content then
          trim_pre_turn_context_updates m snapshot first_instruction_turn_idx previous
        else Ok (m, cut_idx)
      | Some _ => Ok (m, cut_idx)
      end
    else Ok (m, cut_idx)
  end.

Definition drop_last_n_user_turns (m : ContextManager) (num_turns : Z)
    : res unit ContextManager :=
  if num_turns =? 0 then Ok m
  else
    let snapshot := items m in
    let user_positions := user_message_positions snapshot in
    match head user_positions with
    | None => Ok (replace m snapshot)
    | Some first_instruction_turn_idx =>
      let? cut_idx :=
        if Z.of_nat (length user_positions) <=? num_turns then Ok first_instruction_turn_idx
        else from_opt (user_positions !! (length user_positions - Z.to_nat num_turns)%nat) in
      let? r := trim_pre_turn_context_updates m snapshot first_instruction_turn_idx cut_idx in
      let '(m, cut_idx) := r in
      let? kept := from_opt (slice snapshot 0 cut_idx) in
      Ok (replace m kept)
    end.

Definition update_token_info (m : ContextManager) (usage : TokenUsage) (window : option Z)
    : ContextManager :=
  set_token_info m (new_or_append (token_info m) (Some usage) window).

Definition is_encrypted_reasoning (item : ResponseItem) : bool :=
  match item with Reasoning _ _ _ (Some _) => true | _ => false end.

Definition get_non_last_reasoning_items_tokens (m : ContextManager) : Z :=
  match rposition is_user_turn_boundary (items m) with
  | None => 0
  | Some last_user_index =>
    sum_i64 estimate_item_token_count
      (base.filter (fun i => is_encrypted_reasoning i = true) (take last_user_index (items m)))
  end.

Definition items_after_last_model_generated_item (m : ContextManager) : list ResponseItem :=
  let start := match rposition is_model_generated_item (items m) with
               | Some index => S index
               | None => length (items m)
               end in
  drop start (items m).

Definition get_total_token_usage (m : ContextManager) (server_reasoning_included : bool) : Z :=
  let last_tokens :=
    match token_info m with Some info => total_tokens (last_token_usage info) | None => 0 end in
  let after :=
    sum_i64 estimate_item_token_count
      (items_after_last_model_generated_item m) in
  if server_reasoning_included then i64_sat_add last_tokens after
  else i64_sat_add (i64_sat_add last_tokens (get_non_last_reasoning_items_tokens m)) after.

Record TotalTokenUsageBreakdown := mk_breakdown {
  last_api_response_total_tokens : Z;
  all_history_items_model_visible_bytes : Z;
  estimated_tokens_of_items_added_since_last_successful_api_response : Z;
  estimated_bytes_of_items_added_since_last_successful_api_response : Z
}.

Definition get_total_token_usage_breakdown (m : ContextManager) : TotalTokenUsageBreakdown :=
  let last_usage :=
    match token_info m with Some info => last_token_usage info | None => usage_default end in
  let after := items_after_last_model_generated_item m in
  let bytes := estimate_response_item_model_visible_bytes in
  mk_breakdown (total_tokens last_usage) (sum_i64 bytes (items m))
    (sum_i64 estimate_item_token_count after) (sum_i64 bytes after).
End context.

(** ** Rolling back turns *)

Section rollback.
Context (from_xml_str : str -> option (str * str)) (is_inter_agent_json : str -> bool).
Context {TurnContextItem : Type}.

#[local] Notation boundary := (is_user_turn_boundary from_xml_str is_inter_agent_json).
#[local] Notation positions := (user_message_positions from_xml_str is_inter_agent_json).
#[local] Notation manager := (@ContextManager TurnContextItem).

(** The number of turns of a history. *)
Definition turns (l : list ResponseItem) : nat := length (positions l).

(** Context updates that belong to the turn that follows them. *)
Definition trimmable (i : ResponseItem) : bool :=
  match i with
  | Message _ role content _ =>
    (str_eqb role (lit "developer") && is_contextual_dev_message_content content)
    || (str_eqb role (lit "user") && is_contextual_user_message_content from_xml_str content)
  | _ => false
  end.

(** A developer bundle that also holds persistent text. *)
Definition mixed (i : ResponseItem) : bool :=
  match i with
  | Message _ role content _ =>
    str_eqb role (lit "developer") && is_contextual_dev_message_content content
    && has_non_contextual_dev_message_content content
  | _ => false
  end.

Lemma positions_snoc l x :
  positions (l ++ [x]) = positions l ++ (if boundary x then [length l] else []).
Proof.
  unfold user_message_positions. rewrite imap_app, omap_app. f_equal.
  cbn [imap omap list_omap]. unfold compose. rewrite Nat.add_0_r. by destruct (boundary x).
Qed.

Lemma turns_snoc l x : turns (l ++ [x]) = (turns l + if boundary x then 1 else 0)%nat.
Proof. unfold turns. rewrite positions_snoc, length_app. by destruct (boundary x). Qed.

Lemma turns_app l1 l2 : turns (l1 ++ l2) = (turns l1 + turns l2)%nat.
Proof.
  induction l2 as [|x l2 IH] using rev_ind; [unfold turns at 3; simpl; rewrite app_nil_r; lia|].
  rewrite app_assoc, !turns_snoc, IH. lia.
Qed.

(** The [k]-th position is that of a boundary with [k] turns before it. *)
Lemma positions_lookup l k p :
  positions l !! k = Some p ->
  exists l1 x l2, l = l1 ++ x :: l2 /\ length l1 = p /\ boundary x = true /\ turns l1 = k.
Proof.
  induction l as [|y l IH] using rev_ind; [done|]. rewrite positions_snoc.
  intros [Hk|[Hge Hk]]%lookup_app_Some.
  - destruct (IH Hk) as (l1 & x & l2 & -> & ? & ? & ?). exists l1, x, (l2 ++ [y]).
    rewrite <- app_assoc. by split_and!.
  - destruct (boundary y) eqn:Ey; [|done].
    destruct (k - length (positions l))%nat eqn:Ek; [|done]. simplify_eq/=.
    exists l, y, []. split_and!; try done. unfold turns. lia.
Qed.

Lemma trimmable_not_boundary i : trimmable i = true -> boundary i = false.
Proof.
  destruct i as [? role content ?| | | | | | | | | | | | | | |]; simpl; try done.
  destruct (str_eqb role (lit "user")) eqn:Eu.
  - apply str_eqb_eq in Eu as ->. simpl. intros E.
    replace (str_eqb (lit "user") (lit "developer")) with false in E by (by vm_compute).
    replace (str_eqb (lit "user") (lit "assistant")) with false by (by vm_compute).
    simpl in *. by rewrite E.
  - simpl. rewrite orb_false_r. intros [E _]%andb_true_iff. apply str_eqb_eq in E as ->.
    by replace (str_eqb (lit "developer") (lit "assistant")) with false by (by vm_compute).
Qed.

Lemma turns_trimmable l : Forall (fun i => trimmable i = true) l -> turns l = 0%nat.
Proof.
  induction l as [|x l IH] using rev_ind; intros Hf; [done|].
  apply Forall_app in Hf as [Hl Hx]. inv Hx. rewrite turns_snoc, IH, trimmable_not_boundary; done.
Qed.

Definition clear_if (b : bool) (m : manager) : manager := if b then clear_reference m else m.

Lemma clear_if_or b1 b2 m : clear_if b1 (clear_if b2 m) = clear_if (b1 || b2) m.
Proof. by destruct b1, b2. Qed.

Lemma trim_step m snapshot first n x :
  (first < S n)%nat -> snapshot !! n = Some x ->
  trim_pre_turn_context_updates from_xml_str m snapshot first (S n) =
  if trimmable x
  then trim_pre_turn_context_updates from_xml_str (clear_if (mixed x) m) snapshot first n
  else Ok (m, S n).
Proof.
  intros Hlt Hx. cbn [trim_pre_turn_context_updates].
  rewrite (proj2 (Nat.ltb_lt _ _) Hlt), Hx.
  destruct x as [? role content ?| | | | | | | | | | | | | | |]; try done. cbn [trimmable mixed].
  by destruct (str_eqb role (lit "developer") && _), (str_eqb role (lit "user") && _),
    (has_non_contextual_dev_message_content content).
Qed.

(** The walk trims the context updates right above the cut. *)
Lemma trim_spec (first : nat) snapshot : forall (kept : list ResponseItem) rest (m : manager),
  snapshot = kept ++ rest -> (first <= length kept)%nat ->
  exists kept' ctx,
    kept = kept' ++ ctx /\ (first <= length kept')%nat /\
    Forall (fun i => trimmable i = true) ctx /\
    (length kept' = first \/ forall l x, kept' = l ++ [x] -> trimmable x = false) /\
    trim_pre_turn_context_updates from_xml_str m snapshot first (length kept) =
      Ok (clear_if (existsb mixed ctx) m, length kept').
Proof.
  induction kept as [|x kept IH] using rev_ind; intros rest m Es Hf.
  { exists [], []. split_and!; try done. right. by intros []. }
  rewrite length_app in *. cbn [length] in *. rewrite Nat.add_1_r in *.
  destruct (decide (first = S (length kept))) as [Efirst|Hne].
  { exists (kept ++ [x]), []. rewrite app_nil_r, length_app. simpl.
    split_and!; try done; [lia|left; lia|]. rewrite (proj2 (Nat.ltb_ge _ _)) by lia.
    do 2 f_equal. lia. }
  rewrite (trim_step _ _ _ _ x); [|lia|by rewrite Es, <- app_assoc, lookup_app_r, Nat.sub_diag by lia].
  destruct (trimmable x) eqn:Ex.
  - destruct (IH (x :: rest) (clear_if (mixed x) m)) as (kept' & ctx & -> & H1 & H2 & H3 & H4);
      [by rewrite Es, <- app_assoc|lia|].
    exists kept', (ctx ++ [x]). rewrite app_assoc. split_and!; [done|done| |done|].
    + apply Forall_app. by repeat constructor.
    + rewrite H4, clear_if_or, existsb_app. simpl. by rewrite orb_false_r.
  - exists (kept ++ [x]), []. rewrite app_nil_r, length_app. simpl.
    split_and!; try done; [lia| |do 2 f_equal; lia].
    right. intros l y [-> ->]%app_inj_tail. done.
Qed.

(** What dropping [n] turns does to the items [before]. *)
Record rolled_back (n : nat) (before kept ctx dropped : list ResponseItem) : Prop := {
  rb_split : before = kept ++ ctx ++ dropped;
  rb_ctx : Forall (fun i => trimmable i = true) ctx;
  rb_kept : turns kept = (turns before - n)%nat;
  rb_dropped : turns dropped = Nat.min n (turns before);
  rb_boundary : forall x l, dropped = x :: l -> boundary x = true;
  rb_trimmed : forall l x, kept = l ++ [x] -> trimmable x = true -> turns kept = 0%nat;
  rb_prefix : forall pre x l, before = pre ++ x :: l -> boundary x = true -> turns pre = 0%nat ->
    pre `prefix_of` kept
}.

Lemma turns_cons_boundary x l : boundary x = true -> turns (x :: l) = S (turns l).
Proof.
  intros Hx. change (x :: l) with ([x] ++ l). rewrite turns_app.
  pose proof (turns_snoc [] x) as Hs. rewrite Hx in Hs. simpl in Hs. lia.
Qed.

Lemma first_boundary_unique l1 x l2 l1' x' l2' :
  l1 ++ x :: l2 = l1' ++ x' :: l2' -> boundary x = true -> boundary x' = true ->
  turns l1 = 0%nat -> turns l1' = 0%nat -> l1 = l1'.
Proof.
  intros E Hx Hx' H1 H2.
  destruct (app_eq_app _ _ _ _ E) as [k [(E1 & E2)|(E1 & E2)]]; destruct k as [|y k];
    rewrite ?app_nil_r in *; try done; exfalso; simplify_eq/=.
  - rewrite turns_app, turns_cons_boundary in H1 by done. lia.
  - rewrite turns_app, turns_cons_boundary in H2 by done. lia.
Qed.

(** What dropping turns leaves. *)
Lemma drop_last_n_drops (m : manager) (n : Z) :
  0 < n -> turns (items m) <> 0%nat ->
  exists m' kept ctx dropped,
    drop_last_n_user_turns from_xml_str is_inter_agent_json m n = Ok m' /\
    items m' = kept /\ rolled_back (Z.to_nat n) (items m) kept ctx dropped /\
    history_version m' = u64_sat_succ (history_version m) /\
    token_info m' = token_info m /\
    reference_context_item m' = if existsb mixed ctx then None else reference_context_item m.
Proof.
  intros Hn Ht. unfold drop_last_n_user_turns. cbv zeta.
  rewrite (proj2 (Z.eqb_neq _ _)) by lia.
  assert (exists p, positions (items m) !! 0%nat = Some p /\ head (positions (items m)) = Some p)
    as (p & H0 & ->).
  { unfold turns in Ht. destruct (positions (items m)) as [|p ps]; [done|]. by exists p. }
  fold (turns (items m)). destruct (positions_lookup _ _ _ H0)
    as (pre & x0 & post & Eitems & Hlen & Hx0 & Hpre).
  set (k := (turns (items m) - Z.to_nat n)%nat).
  assert (exists c, positions (items m) !! k = Some c) as [c Hc].
  { apply lookup_lt_is_Some. unfold k, turns in *. lia. }
  assert ((if Z.of_nat (turns (items m)) <=? n then Ok p
           else from_opt (positions (items m) !! k)) = @Ok unit _ c) as ->.
  { rewrite Hc. destruct (Z.leb_spec (Z.of_nat (turns (items m))) n); [|done].
    assert (k = 0%nat) as E0 by (unfold k; lia). rewrite E0, H0 in Hc. by injection Hc as ->. }
  cbn [res_bind]. destruct (positions_lookup _ _ _ Hc) as (l1 & x & l2 & E1 & <- & Hx & Hl1).
  assert (p <= length l1)%nat as Hple.
  { destruct (app_eq_app _ _ _ _ (eq_trans (eq_sym E1) Eitems)) as [q [(Eq & _)|(Eq & Eq2)]].
    - rewrite Eq, length_app. lia.
    - destruct q as [|y q]; [rewrite app_nil_r in Eq; subst; lia|]. exfalso. simplify_eq/=.
      rewrite turns_app, turns_cons_boundary in Hpre by done. lia. }
  destruct (trim_spec p (items m) l1 (x :: l2) m E1 Hple)
    as (kept & ctx & -> & Hpk & Hctx & Hmax & ->). cbn [res_bind].
  assert (items m = kept ++ ctx ++ x :: l2) as Esplit by (by rewrite E1, <- app_assoc).
  assert (slice (items m) 0 (length kept) = Some kept) as ->.
  { unfold slice. rewrite decide_True by (rewrite Esplit, length_app; lia).
    rewrite Esplit, drop_0, Nat.sub_0_r. by rewrite take_app_length. }
  cbn [from_opt res_bind]. exists (replace (clear_if (existsb mixed ctx) m) kept), kept, ctx, (x :: l2).
  assert (turns (items m) = turns kept + turns (x :: l2))%nat as Htot
    by (rewrite Esplit, !turns_app, (turns_trimmable ctx) by done; lia).
  assert (turns kept = k) as Hk by (rewrite turns_app, (turns_trimmable ctx) in Hl1 by done; lia).
  split_and!; try done; try (by destruct (existsb mixed ctx)).
  split; try done.
  - unfold k in Hk. lia.
  - by intros ? ? [= <- <-].
  - intros l y El Hy. destruct Hmax as [Hmax|Hmax]; [|by rewrite (Hmax _ _ El) in Hy].
    assert (kept = pre) as ->; [|done].
    apply (app_inj_1 kept pre (ctx ++ x :: l2) (x0 :: post)); [lia|congruence].
  - intros pre' x' l' E' Hx' Hp'.
    assert (pre' = pre) as -> by (eapply first_boundary_unique; [by rewrite <- E', <- Eitems|done..]).
    exists (drop (length pre) kept).
    assert (take (length pre) (items m) = pre) as Ht1 by (rewrite Eitems; by rewrite take_app_length).
    rewrite Esplit, take_app_le in Ht1 by lia. rewrite <- Ht1 at 1. by rewrite take_drop.
Qed.

(** C10: rolling back turns.  [drop_last_n_user_turns] never panics.  It drops
    exactly the last [n] turns (all of them if there are fewer) together with
    the context updates right before them, keeps everything that precedes the
    first turn, bumps the history version, and clears the reference context
    exactly when it trimmed a bundle that also held persistent text. *)
Theorem drop_last_n_user_turns_spec (m : manager) (n : Z) :
  0 < n -> turns (items m) <> 0%nat ->
  exists m' kept ctx dropped,
    drop_last_n_user_turns from_xml_str is_inter_agent_json m n = Ok m' /\
    items m' = kept /\ rolled_back (Z.to_nat n) (items m) kept ctx dropped /\
    history_version m' = u64_sat_succ (history_version m) /\
    token_info m' = token_info m /\
    reference_context_item m' = if existsb mixed ctx then None else reference_context_item m.
Proof. exact (drop_last_n_drops m n). Qed.
End rollback.

Definition user (s : string) : ResponseItem :=
  Message None (lit "user") [InputText (lit s)] None.

Definition demo_thread : list ResponseItem :=
  [Message None (lit "developer") [InputText (lit "be brief")] None; user "one"; call (lit "1");
   answer (lit "1");
   Message None (lit "developer") [InputText (lit "<model_switch>x"); InputText (lit "keep")] None;
   user "two"; user "three"].

Definition demo_manager : @ContextManager unit := mk_context demo_thread 7 None (Some tt).

Lemma drop_last_n_user_turns_spec_witness :
  exists m' kept ctx dropped,
    drop_last_n_user_turns (fun _ => None) (fun _ => false) demo_manager 2 = Ok m' /\
    items m' = kept /\ length kept = 4%nat /\ reference_context_item m' = None /\
    rolled_back (fun _ => None) (fun _ => false) 2 demo_thread kept ctx dropped.
Proof.
  assert (0 < 2) as H1 by lia.
  assert (turns (fun _ => None) (fun _ => false) (items demo_manager) <> 0%nat) as H2
    by (vm_compute; discriminate).
  destruct (drop_last_n_user_turns_spec (fun _ => None) (fun _ => false) demo_manager 2 H1 H2)
    as (m' & kept & ctx & dropped & E & Ek & Hr & _).
  exists m', kept, ctx, dropped. vm_compute in E. injection E as <-. simpl in Ek. subst kept.
  by split_and!.
Defined.

(** ** Superseded diagnostics *)

Section compaction.
Context (json_file_path : str -> option str).

#[local] Notation compact := (compact_superseded_diagnostics json_file_path).
#[local] Notation keyed := (keyed_calls json_file_path).

Lemma last_indices_snoc kd l x :
  last_indices kd (l ++ [x]) =
  match output_diagnostic kd x with
  | Some (key, _) => <[key := length l]> (last_indices kd l)
  | None => last_indices kd l
  end.
Proof.
  unfold last_indices. rewrite imap_app, foldl_app. cbn [imap foldl]. unfold compose.
  by rewrite Nat.add_0_r.
Qed.

(** An output of diagnostic key [key] at index [i]. *)
Definition diagnostic_at (kd : gmap str (str * str)) (l : list ResponseItem) (i : nat) (key : str)
    : Prop :=
  exists item stub, l !! i = Some item /\ output_diagnostic kd item = Some (key, stub).

Lemma diagnostic_at_snoc kd l x i key :
  diagnostic_at kd (l ++ [x]) i key <->
  diagnostic_at kd l i key \/
  (i = length l /\ exists stub, output_diagnostic kd x = Some (key, stub)).
Proof.
  unfold diagnostic_at. split.
  - intros (item & stub & Hl & E). apply lookup_snoc_Some in Hl as [[? ?]|[-> <-]]; [left|right]; eauto.
  - intros [(item & stub & Hl & E)|[-> [stub E]]].
    + exists item, stub. split; [by apply lookup_app_l_Some|done].
    + exists x, stub. split; [by apply list_lookup_middle|done].
Qed.

Lemma last_indices_spec kd l key :
  match last_indices kd l !! key with
  | Some j => diagnostic_at kd l j key /\ forall j', diagnostic_at kd l j' key -> (j' <= j)%nat
  | None => forall j', ~ diagnostic_at kd l j' key
  end.
Proof.
  assert (forall l j, diagnostic_at kd l j key -> (j < length l)%nat) as Hlt.
  { intros l' j (? & ? & Hl & _). by eapply lookup_lt_Some. }
  induction l as [|x l IH] using rev_ind.
  { unfold last_indices. simpl. rewrite lookup_empty. by intros j' ?%Hlt%Nat.nlt_0_r. }
  rewrite last_indices_snoc. pose proof (fun j => diagnostic_at_snoc kd l x j key) as Hs.
  assert (forall o, match o with Some (key', _) => key' <> key | None => True end ->
    output_diagnostic kd x = o ->
    match last_indices kd l !! key with
    | Some j => diagnostic_at kd (l ++ [x]) j key /\
        forall j', diagnostic_at kd (l ++ [x]) j' key -> (j' <= j)%nat
    | None => forall j', ~ diagnostic_at kd (l ++ [x]) j' key
    end) as Hother.
  { intros o Ho Eo. destruct (last_indices kd l !! key) as [j|].
    - destruct IH as [IH1 IH2]. split; [apply Hs; by left|].
      intros j' [?|[_ [? E]]]%Hs; [auto|]. exfalso. rewrite <- Eo, E in Ho. exact (Ho eq_refl).
    - intros j' [?|[_ [? E]]]%Hs; [by eapply IH|]. exfalso. rewrite <- Eo, E in Ho. exact (Ho eq_refl). }
  destruct (output_diagnostic kd x) as [[key' stub]|] eqn:Ex; [|by apply (Hother None)].
  destruct (decide (key' = key)) as [->|Hne].
  - rewrite lookup_insert_eq. split; [apply Hs; right; eauto|].
    intros j' [Hj%Hlt|[-> _]]%Hs; lia.
  - rewrite lookup_insert_ne by done. by apply (Hother (Some (key', stub))).
Qed.

Lemma diagnostic_empty item : output_diagnostic ∅ item = None.
Proof. by destruct item. Qed.

(** What compaction does at one index. *)
Lemma compact_lookup l i item :
  l !! i = Some item ->
  compact l !! i =
  Some (match output_diagnostic (keyed l) item with
        | Some (key, stub) =>
          if bool_decide (last_indices (keyed l) l !! key = Some i) then item
          else stub_item item stub
        | None => item
        end).
Proof.
  intros Hi. unfold compact_superseded_diagnostics. case_bool_decide as He.
  - by rewrite He, diagnostic_empty.
  - rewrite list_lookup_imap, Hi. done.
Qed.

(** Only the latest diagnostic of each kind stays.  Compaction keeps the
    number and the positions of items; it replaces the text of an output by
    its stub exactly when the output answers a diagnostic-like call and a
    later output carries the same key, and it leaves every other item
    untouched. *)
Theorem compact_keeps_latest l i item :
  l !! i = Some item ->
  length (compact l) = length l /\
  match output_diagnostic (keyed l) item with
  | None => compact l !! i = Some item
  | Some (key, stub) =>
    ((exists j, (i < j)%nat /\ diagnostic_at (keyed l) l j key) ->
       compact l !! i = Some (stub_item item stub)) /\
    ((forall j, (i < j)%nat -> ~ diagnostic_at (keyed l) l j key) -> compact l !! i = Some item)
  end.
Proof.
  intros Hi. split.
  { unfold compact_superseded_diagnostics. case_bool_decide; [done|]. by rewrite length_imap. }
  rewrite (compact_lookup _ _ _ Hi).
  destruct (output_diagnostic (keyed l) item) as [[key stub]|] eqn:E; [|done].
  assert (diagnostic_at (keyed l) l i key) as Hd by (by exists item, stub).
  pose proof (last_indices_spec (keyed l) l key) as Hl. split.
  - intros (j & Hj & Hdj). rewrite bool_decide_false; [done|]. intros El. rewrite El in Hl.
    destruct Hl as [_ Hmax]. specialize (Hmax j Hdj). lia.
  - intros Hno. rewrite bool_decide_true; [done|].
    destruct (last_indices (keyed l) l !! key) as [j|]; [|by destruct (Hl i)].
    destruct Hl as [Hdj Hmax]. f_equal. specialize (Hmax i Hd).
    destruct (decide (i < j)%nat); [by destruct (Hno j)|lia].
Qed.

Lemma stub_item_keys item stub :
  call_key (stub_item item stub) = call_key item /\
  output_key (stub_item item stub) = output_key item /\
  server_search (stub_item item stub) = server_search item.
Proof. by destruct item. Qed.

(** Compaction changes no call and no output key. *)
Lemma compact_elem l x :
  x ∈ compact l -> exists y, y ∈ l /\ call_key x = call_key y /\ output_key x = output_key y /\
    server_search x = server_search y.
Proof.
  intros [i Hi]%list_elem_of_lookup.
  assert (exists y, l !! i = Some y) as [y Hy].
  { apply lookup_lt_is_Some. apply lookup_lt_Some in Hi. revert Hi.
    unfold compact_superseded_diagnostics. case_bool_decide; [done|]. by rewrite length_imap. }
  rewrite (compact_lookup _ _ _ Hy) in Hi. injection Hi as <-. exists y.
  split; [by eapply list_elem_of_lookup_2|].
  repeat case_match; try done; apply stub_item_keys.
Qed.

Lemma compact_elem_2 l y :
  y ∈ l -> exists x, x ∈ compact l /\ call_key x = call_key y /\ output_key x = output_key y.
Proof.
  intros [i Hi]%list_elem_of_lookup. pose proof (compact_lookup _ _ _ Hi) as Hc.
  eexists. split; [by eapply list_elem_of_lookup_2|].
  repeat case_match; try done; split; apply stub_item_keys.
Qed.

Lemma compact_matched l :
  calls_answered l -> outputs_called l -> calls_answered (compact l) /\ outputs_called (compact l).
Proof.
  intros Ha Hc. split.
  - intros c k (y & Hy & E1 & _)%compact_elem Hk. rewrite E1 in Hk.
    destruct (Ha y k Hy Hk) as (o & (x & Hx & _ & E)%compact_elem_2 & Ho). exists x. by rewrite E.
  - intros o k (y & Hy & _ & E1 & E2)%compact_elem Hk Hs. rewrite E1 in Hk. rewrite E2 in Hs.
    destruct (Hc y k Hy Hk Hs) as (c & (x & Hx & E & _)%compact_elem_2 & Ho). exists x. by rewrite E.
Qed.
End compaction.

Definition lean_build (id : string) : ResponseItem :=
  FunctionCall None (lit "mcp__lean__lean_build") None (lit "{}") (lit id).

Definition demo_builds : list ResponseItem :=
  [lean_build "1"; answer (lit "1"); lean_build "2"; answer (lit "2")].

Lemma compact_keeps_latest_witness :
  demo_builds !! 1%nat = Some (answer (lit "1")) /\
  compact_superseded_diagnostics (fun _ => None) demo_builds !! 1%nat =
    Some (FunctionCallOutput (lit "1") (from_text build_key.2)).
Proof.
  split; [done|].
  destruct (compact_keeps_latest (fun _ => None) demo_builds 1 (answer (lit "1")) eq_refl)
    as [_ H]. vm_compute in H. apply H. exists 3%nat. split; [lia|].
  eexists _, _. by split.
Defined.

(** ** The manager *)

Section manager.
Context (json_file_path : str -> option str) (compact_var : option str).
Context {TurnContextItem : Type}.
#[local] Notation manager := (@ContextManager TurnContextItem).

(** What is sent to the model is well formed, with the compaction of
    diagnostics enabled or not: preparing the prompt succeeds in a release
    build, every call has an output and every output a call. *)
Theorem for_prompt_matched (m : manager) mods :
  exists out, for_prompt json_file_path false compact_var m mods = Ok out /\
    calls_answered out /\ outputs_called out.
Proof.
  unfold for_prompt. rewrite normalize_release. cbn [res_bind].
  pose proof (shown_calls_answered mods _ (balanced_answered (items m))) as Ha.
  pose proof (shown_outputs_called mods _ (balanced_called (items m))) as Hc.
  eexists. split; [done|].
  destruct (superseded_diagnostic_compaction_enabled compact_var); [|done].
  by apply compact_matched.
Qed.

Lemma remove_first_step (m : manager) : paired (items m) -> paired (items (remove_first_item m)).
Proof.
  destruct m as [[|i l] v ti rc]; [done|]. apply paired_remove_first.
Qed.

(** Removing the oldest item keeps calls and outputs matched.  When calls
    and outputs match one to one, they still do after [remove_first_item],
    however often it runs, without a normalisation pass. *)
Theorem remove_first_item_paired (m : manager) (n : nat) :
  paired (items m) -> paired (items (Nat.iter n remove_first_item m)).
Proof.
  intros Hp. induction n as [|n IH]; [done|]. by apply remove_first_step.
Qed.

(** ** Recording *)

(** Texts are Rust strings. *)
Definition payload_fits (p : FunctionCallOutputPayload) : Prop :=
  match body p with
  | TextBody t => zlen t <= USIZE_MAX
  | ContentItems its => Forall (fun t => zlen t <= USIZE_MAX) (omap text_of its)
  end.

Definition item_fits (i : ResponseItem) : Prop :=
  match i with
  | FunctionCallOutput _ p | CustomToolCallOutput _ _ p => payload_fits p
  | _ => True
  end.

(** [p'] is the payload [p] cut down to [policy]. *)
Definition payload_cut (policy : TruncationPolicy) (p p' : FunctionCallOutputPayload) : Prop :=
  success p' = success p /\
  match body p with
  | TextBody t => exists t', body p' = TextBody t' /\
      truncated_as t (byte_budget policy) (counts_tokens policy) t'
  | ContentItems its => exists its' shown n, body p' = ContentItems its' /\
      base.filter (fun c => is_text c = false) its' = base.filter (fun c => is_text c = false) its /\
      omap text_of its' = shown ++ (if 0 <? n then [omitted_marker n] else []) /\
      texts_cut policy (policy_budget policy) (omap text_of its) shown n
  end.

Definition recorded_as (policy : TruncationPolicy) (i i' : ResponseItem) : Prop :=
  match i with
  | FunctionCallOutput call_id p =>
    exists p', i' = FunctionCallOutput call_id p' /\ payload_cut (policy_mul_1_2 policy) p p'
  | CustomToolCallOutput call_id name p =>
    exists p', i' = CustomToolCallOutput call_id name p' /\
      payload_cut (policy_mul_1_2 policy) p p'
  | _ => i' = i
  end.

Lemma round_f64_nonneg m e : 0 <= m -> 0 <= mant (round_f64 m e).
Proof.
  intros Hm. unfold round_f64. case_match; simpl; [done|].
  assert (0 <= m / 2 ^ (Z.log2 m + 1 - 53)).
  { apply Z.div_pos; [done|]. apply Z.pow_pos_nonneg; lia. }
  case_match; lia.
Qed.

Lemma f64_ceil_nonneg x : 0 <= mant x -> 0 <= f64_ceil_usize x.
Proof.
  intros Hm. unfold f64_ceil_usize. apply Z.min_glb; [done|].
  destruct (Z.leb_spec 0 (exp x)).
  - apply Z.mul_nonneg_nonneg; [done|]. by apply Z.pow_nonneg.
  - assert ((- mant x) / 2 ^ (- exp x) <= 0); [|lia].
    apply Z.div_le_upper_bound; [apply Z.pow_pos_nonneg; lia|lia].
Qed.

Lemma policy_mul_nonneg policy :
  0 <= policy_budget policy -> 0 <= policy_budget (policy_mul_1_2 policy).
Proof.
  destruct policy as [n|n]; simpl; intros Hn; apply f64_ceil_nonneg, round_f64_nonneg,
    Z.mul_nonneg_nonneg; (done || by apply round_f64_nonneg).
Qed.

Lemma truncate_payload_spec p policy :
  0 <= policy_budget policy -> payload_fits p ->
  exists p', truncate_function_output_payload p policy = Ok p' /\ payload_cut policy p p'.
Proof.
  intros Hp Hf. unfold truncate_function_output_payload, payload_fits, payload_cut in *.
  destruct (body p) as [t|its].
  - destruct (truncate_text_returns t policy Hp Hf) as (r & -> & Hr). simpl.
    eexists. split; [done|]. split; [done|]. by exists r.
  - destruct (truncate_items_returns its policy Hp Hf) as (r & sh & n & -> & ? & ? & ?).
    simpl. eexists. split; [done|]. split; [done|]. by exists r, sh, n.
Qed.

Lemma process_item_spec i policy :
  0 <= policy_budget policy -> item_fits i ->
  exists i', process_item i policy = Ok i' /\ recorded_as policy i i'.
Proof.
  intros Hp%policy_mul_nonneg Hf. destruct i as [| | | | | |id p| |id nm p| | | | | | |]; simpl; eauto;
    destruct (truncate_payload_spec p _ Hp Hf) as (p' & -> & Hc); simpl; eauto.
Qed.

(** Recording.  [record_items] never panics; it appends, in order, the
    items that are API messages, tool outputs cut down to 1.2 times the
    truncation policy and every other item unchanged, and it touches nothing
    else of the manager. *)
Theorem record_items_spec (m : manager) l policy :
  0 <= policy_budget policy -> Forall item_fits l ->
  exists m' l', record_items m l policy = Ok m' /\ items m' = items m ++ l' /\
    Forall2 (recorded_as policy) (base.filter (fun i => is_api_message i = true) l) l' /\
    history_version m' = history_version m /\ token_info m' = token_info m /\
    reference_context_item m' = reference_context_item m.
Proof.
  intros Hp Hf. revert m. induction Hf as [|i l Hi Hf IH]; intros m.
  { exists m, []. rewrite app_nil_r. by split_and!. }
  cbn [record_items]. rewrite filter_cons.
  destruct (is_api_message i) eqn:Ea; cbn [negb].
  - rewrite decide_True by done.
    destruct (process_item_spec i policy Hp Hi) as (i' & -> & Hr). cbn [res_bind].
    destruct (IH (set_items m (items m ++ [i']))) as (m' & l' & E & Ei & Hl & ?).
    exists m', (i' :: l'). rewrite Ei. cbn [items set_items]. rewrite <- app_assoc.
    split_and!; try done; [by constructor|naive_solver..].
  - rewrite decide_False by congruence. apply IH.
Qed.
End manager.

Lemma remove_first_item_paired_witness :
  paired demo_builds /\
  paired (items (Nat.iter 2 remove_first_item (mk_context (TurnContextItem := unit) demo_builds 0 None None))).
Proof.
  assert (paired demo_builds) as Hp.
  { split.
    - apply (bool_decide_unpack _). by vm_compute.
    - apply (bool_decide_unpack _). by vm_compute.
    - intros c k Hc Hk. unfold demo_builds in *. set_unfold.
      destruct Hc as [->|[->|[->|[->|[]]]]]; vm_compute in Hk; simplify_eq;
        [exists (answer (lit "1"))|exists (answer (lit "2"))]; (split; [set_solver|done]).
    - intros c k Hc Hk _. unfold demo_builds in *. set_unfold.
      destruct Hc as [->|[->|[->|[->|[]]]]]; vm_compute in Hk; simplify_eq;
        [exists (lean_build "1")|exists (lean_build "2")]; (split; [set_solver|done]). }
  split; [exact Hp|].
  exact (remove_first_item_paired (mk_context demo_builds 0 None None) 2 Hp).
Defined.

Lemma record_items_spec_witness :
  0 <= policy_budget (Bytes 4) /\ Forall item_fits [answer (lit "1"); OtherItem] /\
  exists m' l', record_items (context_new (TurnContextItem := unit)) [answer (lit "1"); OtherItem]
      (Bytes 4) = Ok m' /\ items m' = [] ++ l' /\ length l' = 1%nat.
Proof.
  assert (0 <= policy_budget (Bytes 4)) as H1 by (simpl; lia).
  assert (Forall item_fits [answer (lit "1"); OtherItem]) as H2
    by (repeat constructor; vm_compute; discriminate).
  split_and!; [done|done|].
  destruct (record_items_spec (context_new (TurnContextItem := unit)) _ _ H1 H2)
    as (m' & l' & E & Ei & Hl & _).
  exists m', l'. split_and!; [done|done|]. by apply Forall2_length in Hl.
Defined.

(** ** Images of the last turn *)

Lemma rposition_snoc {A} (p : A -> bool) l x :
  rposition p (l ++ [x]) = if p x then Some (length l) else rposition p l.
Proof.
  unfold rposition. rewrite imap_app, foldl_app. cbn [imap foldl]. unfold compose.
  by rewrite Nat.add_0_r.
Qed.

(** The last element that satisfies [p]. *)
Lemma rposition_spec {A} (p : A -> bool) l :
  match rposition p l with
  | Some i => exists l1 x l2, l = l1 ++ x :: l2 /\ length l1 = i /\ p x = true /\
      Forall (fun y => p y = false) l2
  | None => Forall (fun y => p y = false) l
  end.
Proof.
  induction l as [|x l IH] using rev_ind; [constructor|]. rewrite rposition_snoc.
  destruct (p x) eqn:Ex; [by exists l, x, []|].
  destruct (rposition p l) as [i|].
  - destruct IH as (l1 & y & l2 & -> & ? & ? & ?). exists l1, y, (l2 ++ [x]).
    rewrite <- app_assoc. split_and!; try done. apply Forall_app. by repeat constructor.
  - apply Forall_app. by repeat constructor.
Qed.

Section last_images.
Context (from_xml_str : str -> option (str * str)) (is_inter_agent_json : str -> bool).
Context {TurnContextItem : Type}.
#[local] Notation manager := (@ContextManager TurnContextItem).
#[local] Notation stop := (is_output_or_boundary from_xml_str is_inter_agent_json).

(** The tool output of the last turn, if the turn ends with one. *)
Definition last_output (l l1 : list ResponseItem) (call_id : str)
    (p : FunctionCallOutputPayload) (l2 : list ResponseItem) : Prop :=
  l = l1 ++ FunctionCallOutput call_id p :: l2 /\ Forall (fun i => stop i = false) l2.

Lemma map_no_image ph its :
  existsb is_image its = false -> (fun c => if is_image c then FInputText ph else c) <$> its = its.
Proof.
  induction its as [|c its IH]; [done|]. cbn [existsb fmap list_fmap].
  intros [Hc Hi]%orb_false_iff. rewrite Hc. f_equal. by apply IH.
Qed.

(** Replacing the images of the last turn.  The call returns true exactly
    when the last item that is a tool output or starts a turn is a tool output
    with an image.  Then all its images are replaced by the placeholder and
    the version is bumped; otherwise the history is unchanged. *)
Theorem replace_last_turn_images_spec (m : manager) ph :
  let '(m', replaced) := replace_last_turn_images from_xml_str is_inter_agent_json m ph in
  if replaced then
    exists l1 call_id p its l2,
      last_output (items m) l1 call_id p l2 /\ body p = ContentItems its /\
      existsb is_image its = true /\
      items m' = l1 ++ FunctionCallOutput call_id
        (mk_payload (ContentItems ((fun c => if is_image c then FInputText ph else c) <$> its))
           (success p)) :: l2 /\
      history_version m' = u64_sat_succ (history_version m)
  else
    m' = m /\
    forall l1 call_id p its l2, last_output (items m) l1 call_id p l2 ->
      body p = ContentItems its -> existsb is_image its = false.
Proof.
  unfold replace_last_turn_images. pose proof (rposition_spec stop (items m)) as Hr.
  assert (forall l1 x l2, items m = l1 ++ x :: l2 -> stop x = true ->
    Forall (fun y => stop y = false) l2 ->
    forall l1' id p l2', last_output (items m) l1' id p l2' ->
      l1' = l1 /\ FunctionCallOutput id p = x /\ l2' = l2) as Huniq.
  { intros l1 x l2 E Hx Hl2 l1' id p l2' [E' Hl2']. rewrite E in E'.
    destruct (app_eq_app _ _ _ _ E') as [k [(E1 & E2)|(E1 & E2)]]; destruct k as [|y k];
      rewrite ?app_nil_r in *; simplify_eq/=; try done; exfalso.
    - apply Forall_app in Hl2' as [_ Hl2']. inv Hl2'. congruence.
    - apply Forall_app in Hl2 as [_ Hl2]. by inv Hl2. }
  destruct (rposition stop (items m)) as [i|].
  2: { split; [done|]. intros l1 id p its l2 [E _]. rewrite E in Hr.
       apply Forall_app in Hr as [_ Hr]. by inv Hr. }
  destruct Hr as (l1 & x & l2 & E & <- & Hx & Hl2).
  assert (items m !! length l1 = Some x) as -> by (rewrite E; by apply list_lookup_middle).
  pose proof (Huniq l1 x l2 E Hx Hl2) as Hu.
  assert ((forall id p, x <> FunctionCallOutput id p) ->
    forall l1 id p its l2, last_output (items m) l1 id p l2 ->
      body p = ContentItems its -> existsb is_image its = false) as Hnot.
  { intros Hn l1' id p its l2' Hlo _. destruct (Hu _ _ _ _ Hlo) as (_ & Ex & _). by destruct (Hn id p). }
  destruct x as [| | | | | |id p| | | | | | | | |]; try (split; [done|by apply Hnot]).
  destruct (body p) as [t|its] eqn:Eb.
  { split; [done|]. intros l1' id' p' its l2' Hlo Eb'.
    destruct (Hu _ _ _ _ Hlo) as (_ & [= -> ->] & _). congruence. }
  destruct (existsb is_image its) eqn:Ei.
  - exists l1, id, p, its, l2. split_and!; try done. cbn [items replace].
    rewrite E. by rewrite insert_app_r_alt, Nat.sub_diag by lia.
  - split.
    + rewrite map_no_image by done. destruct m as [its0 v ti rc]. cbn [set_items items] in *.
      unfold set_items. cbn. f_equal. rewrite E, insert_app_r_alt, Nat.sub_diag by lia. cbn.
      by destruct p; simpl in *; subst.
    + intros l1' id' p' its' l2' Hlo Eb'.
      destruct (Hu _ _ _ _ Hlo) as (_ & [= -> ->] & _). congruence.
Qed.
End last_images.

(** ** Token usage *)

Lemma sum_i64_nonneg f l : (forall i, 0 <= f i) -> 0 <= sum_i64 f l.
Proof.
  intros Hf. unfold sum_i64. assert (forall acc, 0 <= acc ->
    0 <= foldl (fun acc item => i64_sat_add acc (f item)) acc l) as Hgen; [|by apply Hgen].
  induction l as [|i l IH]; intros acc Ha; [done|]. simpl. apply IH.
  specialize (Hf i). unfold i64_sat_add, i64_clamp, I64_MIN, I64_MAX. lia.
Qed.

Lemma approx_tokens_i64_nonneg n : 0 <= approx_tokens_from_byte_count_i64 n.
Proof.
  unfold approx_tokens_from_byte_count_i64, approx_tokens_from_byte_count.
  destruct (Z.leb_spec n 0); [done|]. apply Z.min_glb; [done|].
  apply Z.div_pos; [|done]. unfold usat_add, usat_sub, USIZE_MAX, APPROX_BYTES_PER_TOKEN. lia.
Qed.

(** The exact sum of an estimate, without machine arithmetic. *)
Definition total (f : ResponseItem -> Z) (l : list ResponseItem) : Z := foldr (fun i acc => f i + acc) 0 l.

Lemma total_nonneg f l : (forall i, 0 <= f i) -> 0 <= total f l.
Proof. intros Hf. induction l as [|i l IH]; cbn; [done|]. specialize (Hf i). unfold total in IH. lia. Qed.

(** A saturating sum of estimates is the exact one, cut at the largest number. *)
Lemma sum_i64_total f l : (forall i, 0 <= f i) -> sum_i64 f l = Z.min I64_MAX (total f l).
Proof.
  intros Hf. unfold sum_i64. assert (forall acc, 0 <= acc <= I64_MAX ->
    foldl (fun acc item => i64_sat_add acc (f item)) acc l = Z.min I64_MAX (acc + total f l)) as Hgen.
  { induction l as [|i l IH]; intros acc Ha; cbn [foldl total foldr]; [unfold I64_MAX in *; lia|].
    pose proof (Hf i). pose proof (total_nonneg f l Hf). fold (total f l).
    rewrite IH; unfold i64_sat_add, i64_clamp, I64_MIN, I64_MAX in *; lia. }
  rewrite Hgen; unfold I64_MAX; [f_equal; lia|lia].
Qed.

(** The items at the end of a history, after its last item of the model; none
    when the model has not produced an item. *)
Definition since_model (l new : list ResponseItem) : Prop :=
  (exists before last, l = before ++ last :: new /\ is_model_generated_item last = true /\
     Forall (fun i => is_model_generated_item i = false) new) \/
  (Forall (fun i => is_model_generated_item i = false) l /\ new = []).

(** The encrypted reasoning before the last turn boundary. *)
Definition past_reasoning (boundary : ResponseItem -> bool) (l old : list ResponseItem) : Prop :=
  (exists before last after, l = before ++ last :: after /\ boundary last = true /\
     Forall (fun i => boundary i = false) after /\
     old = base.filter (fun i => is_encrypted_reasoning i = true) before) \/
  (Forall (fun i => boundary i = false) l /\ old = []).

Lemma since_model_found {T : Type} (m : @ContextManager T) :
  since_model (items m) (items_after_last_model_generated_item m).
Proof.
  unfold items_after_last_model_generated_item. pose proof (rposition_spec is_model_generated_item (items m)) as Hr.
  destruct (rposition _ _) as [i|].
  - left. destruct Hr as (b & x & a & E & Hl & Hx & Ha). exists b, x. rewrite E.
    rewrite drop_app_ge by lia. replace (S i - length b)%nat with 1%nat by lia. split_and!; [done..|]. done.
  - right. split; [done|]. by rewrite drop_all.
Qed.

Lemma past_reasoning_found json_len decode_image from_xml_str is_inter_agent_json {T : Type} (m : @ContextManager T) :
  exists old, past_reasoning (is_user_turn_boundary from_xml_str is_inter_agent_json) (items m) old /\
    get_non_last_reasoning_items_tokens json_len decode_image from_xml_str is_inter_agent_json m =
    Z.min I64_MAX (total (estimate_item_token_count json_len decode_image) old).
Proof.
  unfold get_non_last_reasoning_items_tokens, past_reasoning.
  pose proof (rposition_spec (is_user_turn_boundary from_xml_str is_inter_agent_json) (items m)) as Hr.
  destruct (rposition _ _) as [i|]; [|by exists []; split; [right|]].
  destruct Hr as (b & x & a & E & Hl & Hx & Ha). eexists. split.
  - left. by exists b, x, a.
  - rewrite E, take_app_length' by done. apply sum_i64_total. intros. apply approx_tokens_i64_nonneg.
Qed.

(** C26: the total token usage.  It is the usage that the server reported last
    plus the estimates of all items after the last item of the model and, where
    the server does not count reasoning, of the encrypted reasoning before the
    last turn boundary: exactly that sum, cut at the range of [i64] after each
    part.  (A history without items of the model has none after the last.) *)
Theorem total_token_usage_exact json_len decode_image from_xml_str is_inter_agent_json
    {TurnContextItem : Type} (m : @ContextManager TurnContextItem) :
  let usage := get_total_token_usage json_len decode_image from_xml_str is_inter_agent_json m in
  let estimate := total (estimate_item_token_count json_len decode_image) in
  let reported := default 0 ((fun info => total_tokens (last_token_usage info)) <$> token_info m) in
  exists new old,
    since_model (items m) new /\
    past_reasoning (is_user_turn_boundary from_xml_str is_inter_agent_json) (items m) old /\
    usage true = i64_clamp (reported + Z.min I64_MAX (estimate new)) /\
    usage false = i64_clamp (i64_clamp (reported + Z.min I64_MAX (estimate old)) +
                             Z.min I64_MAX (estimate new)) /\
    (0 <= reported ->
     usage true = Z.min I64_MAX (reported + estimate new) /\
     usage false = Z.min I64_MAX (reported + estimate old + estimate new)).
Proof.
  intros usage estimate reported.
  assert (forall i, 0 <= estimate_item_token_count json_len decode_image i) as Hn
    by (intros; apply approx_tokens_i64_nonneg).
  destruct (past_reasoning_found json_len decode_image from_xml_str is_inter_agent_json m) as (old & Hold & Eold).
  exists (items_after_last_model_generated_item m), old.
  pose proof (total_nonneg _ (items_after_last_model_generated_item m) Hn) as H1.
  pose proof (total_nonneg _ old Hn) as H2. fold estimate in H1, H2, Eold.
  assert (usage true = i64_clamp (reported + Z.min I64_MAX (estimate (items_after_last_model_generated_item m))) /\
    usage false = i64_clamp (i64_clamp (reported + Z.min I64_MAX (estimate old)) +
      Z.min I64_MAX (estimate (items_after_last_model_generated_item m)))) as [Et Ef].
  { unfold usage, get_total_token_usage. rewrite sum_i64_total, Eold by done.
    unfold i64_sat_add, reported, estimate. by destruct (token_info m). }
  split_and!; [apply since_model_found|done|done|done|].
  intros Hr. rewrite Et, Ef. clearbody reported estimate.
  revert H1 H2 Hr. clear. unfold i64_clamp, I64_MIN, I64_MAX. lia.
Qed.

Lemma total_token_usage_exact_witness :
  let m := set_token_usage_full (TurnContextItem := unit) demo_manager 1000 in
  let usage := get_total_token_usage (fun _ => Some 40) (fun _ => None) (fun _ => None) (fun _ => false) m in
  exists new, since_model demo_thread new /\
    usage true = Z.min I64_MAX (1000 + total (estimate_item_token_count (fun _ => Some 40) (fun _ => None)) new).
Proof.
  destruct (total_token_usage_exact (fun _ => Some 40) (fun _ => None) (fun _ => None) (fun _ => false)
    (set_token_usage_full (TurnContextItem := unit) demo_manager 1000)) as (new & old & Hs & _ & _ & _ & Hu).
  exists new. split; [exact Hs|]. apply Hu. vm_compute. discriminate.
Defined.

