(* ===== verification/ExecPolicy.v ===== *)
(** * The execution policy ([execpolicy/src])

    Rules that allow, prompt for or forbid commands by their leading tokens,
    and network rules by host: [decision.rs], [rule.rs], [policy.rs] and
    [executable_name.rs] on Unix.  The multimap of rules is a third-party
    container and stands behind the interface [MultiMap]; the shell quoting of
    examples, the home directory and the working directory are parameters. *)

From S2P Require Export AbsPath.

(** ** Decisions ([decision.rs]) *)

Inductive Decision := Allow | Prompt | Forbidden.

#[export] Instance Decision_eq_dec : EqDecision Decision.
Proof. solve_decision. Defined.

Record TextPosition := mk_position { line : nat; column : nat }.
Record TextRange := mk_range { range_start : TextPosition; range_end : TextPosition }.
Record ErrorLocation := mk_location { location_path : str; range : TextRange }.

Inductive Error :=
| InvalidDecision (raw : str)
| InvalidPattern (message : str)
| InvalidExample (message : str)
| InvalidRule (message : str)
| ExampleDidNotMatch (rules examples : list str) (location : option ErrorLocation)
| ExampleDidMatch (rule example : str) (location : option ErrorLocation)
| Starlark (message : str).

Definition with_location (e : Error) (location : ErrorLocation) : Error :=
  match e with
  | ExampleDidNotMatch rules examples None => ExampleDidNotMatch rules examples (Some location)
  | ExampleDidMatch rule example None => ExampleDidMatch rule example (Some location)
  | other => other
  end.

Definition decision_parse (raw : str) : res Error Decision :=
  if str_eqb raw (lit "allow") then Ok Allow
  else if str_eqb raw (lit "prompt") then Ok Prompt
  else if str_eqb raw (lit "forbidden") then Ok Forbidden
  else Err (InvalidDecision raw).

(** The derived [Ord]. *)
Definition rank (d : Decision) : nat :=
  match d with Allow => 0 | Prompt => 1 | Forbidden => 2 end.

Definition decision_max (a b : Decision) : Decision := if rank a <=? rank b then b else a.

(** [Iterator::max] *)
Definition iter_max (l : list Decision) : option Decision :=
  match l with [] => None | d :: l => Some (foldl decision_max d l) end.

(** ** Rules ([rule.rs]) *)

Inductive PatternToken :=
| Single (expected : str)
| Alts (alternatives : list str).

Definition token_matches (t : PatternToken) (token : str) : bool :=
  match t with
  | Single expected => str_eqb expected token
  | Alts alternatives => existsb (fun alt => str_eqb alt token) alternatives
  end.

Definition alternatives (t : PatternToken) : list str :=
  match t with Single expected => [expected] | Alts alternatives => alternatives end.

Record PrefixPattern := mk_pattern { first : str; rest : list PatternToken }.

(** The length test keeps the index and both slices in range. *)
Definition matches_prefix (p : PrefixPattern) (cmd : list str) : option (list str) :=
  let pattern_length := length (rest p) + 1 in
  if (length cmd <? pattern_length) || negb (bool_decide (cmd !! 0 = Some (first p))) then None
  else if forallb (fun '(pattern_token, cmd_token) => token_matches pattern_token cmd_token)
            (zip (rest p) (take (pattern_length - 1) (drop 1 cmd)))
  then Some (take pattern_length cmd)
  else None.

Inductive RuleMatch :=
| PrefixRuleMatch (matched_prefix : list str) (decision : Decision)
    (resolved_program : option path) (justification : option str)
| HeuristicsRuleMatch (command : list str) (decision : Decision).

Definition match_decision (m : RuleMatch) : Decision :=
  match m with PrefixRuleMatch _ d _ _ => d | HeuristicsRuleMatch _ d => d end.

Definition with_resolved_program (m : RuleMatch) (program : path) : RuleMatch :=
  match m with
  | PrefixRuleMatch matched_prefix decision _ justification =>
    PrefixRuleMatch matched_prefix decision (Some program) justification
  | other => other
  end.

(** The only implementation of the trait [Rule]. *)
Record PrefixRule := mk_rule {
  pattern : PrefixPattern;
  rule_decision : Decision;
  rule_justification : option str
}.

Definition program (r : PrefixRule) : str := first (pattern r).

Definition rule_matches (r : PrefixRule) (cmd : list str) : option RuleMatch :=
  (fun matched_prefix =>
     PrefixRuleMatch matched_prefix (rule_decision r) None (rule_justification r))
  <$> matches_prefix (pattern r) cmd.

Inductive NetworkRuleProtocol := Http | Https | Socks5Tcp | Socks5Udp.

Definition protocol_parse (raw : str) : res Error NetworkRuleProtocol :=
  if str_eqb raw (lit "http") then Ok Http
  else if existsb (str_eqb raw) [lit "https"; lit "https_connect"; lit "http-connect"] then Ok Https
  else if str_eqb raw (lit "socks5_tcp") then Ok Socks5Tcp
  else if str_eqb raw (lit "socks5_udp") then Ok Socks5Udp
  else Err (InvalidRule
    (lit "network_rule protocol must be one of http, https, socks5_tcp, socks5_udp (got "
     ++ raw ++ lit ")")).

Definition as_policy_string (p : NetworkRuleProtocol) : str :=
  match p with
  | Http => lit "http"
  | Https => lit "https"
  | Socks5Tcp => lit "socks5_tcp"
  | Socks5Udp => lit "socks5_udp"
  end.

Record NetworkRule := mk_network_rule {
  host : str;
  protocol : NetworkRuleProtocol;
  network_decision : Decision;
  network_justification : option str
}.

Definition LBRACKET : char := 91%N.
Definition RBRACKET : char := 93%N.

(** [s.rsplit_once(c)] *)
Definition rsplit_once (c : char) (s : str) : option (str * str) :=
  match split_once [c] (reverse s) with
  | Some (port_rev, candidate_rev) => Some (reverse candidate_rev, reverse port_rev)
  | None => None
  end.

Definition is_empty (s : str) : bool := match s with [] => true | _ => false end.

Definition all_digits (s : str) : bool := forallb is_ascii_digit s.

Definition empty_host : Error := InvalidRule (lit "network_rule host cannot be empty").

(** The part between the trimmed input and the final normalisation: brackets
    and ports are taken off. *)
Definition strip_port (raw host : str) : res Error str :=
  match strip_prefix [LBRACKET] host with
  | Some stripped =>
    match split_once [RBRACKET] stripped with
    | None => Err (InvalidRule (lit "network_rule host has an invalid bracketed IPv6 literal"))
    | Some (inside, rest) =>
      let port_ok :=
        match strip_prefix [COLON] rest with
        | Some port => negb (is_empty port) && all_digits port
        | None => false
        end in
      if negb (is_empty rest) && negb port_ok
      then Err (InvalidRule (lit "network_rule host contains an unsupported suffix: " ++ raw))
      else Ok inside
    end
  | None =>
    if count_char COLON host =? 1 then
      match rsplit_once COLON host with
      | Some (candidate, port) =>
        if negb (is_empty candidate) && negb (is_empty port) && all_digits port
        then Ok candidate else Ok host
      | None => Ok host
      end
    else Ok host
  end.

Definition normalize_network_rule_host (raw : str) : res Error str :=
  let host := trim raw in
  if is_empty host then Err empty_host
  else if contains (lit "://") host || contains (lit "/") host || contains (lit "?") host
          || contains (lit "#") host
  then Err (InvalidRule
    (lit "network_rule host must be a hostname or IP literal (without scheme or path)"))
  else
    let? host := strip_port raw host in
    let normalized := to_ascii_lowercase (trim (trim_end_matches DOT host)) in
    if is_empty normalized then Err empty_host
    else if contains (lit "*") normalized
    then Err (InvalidRule
      (lit "network_rule host must be a specific host; wildcards are not allowed"))
    else if existsb is_whitespace normalized
    then Err (InvalidRule (lit "network_rule host cannot contain whitespace"))
    else Ok normalized.

(** ** The container of rules

    What the policy uses of [multimap::MultiMap<String, RuleRef>], with its
    documented behaviour: [insert] appends to the vector of the key, and
    [iter_all] visits every key once in some order. *)

Class MultiMap (M : Type) := {
  mm_new : M;
  mm_insert : M -> str -> PrefixRule -> M;
  mm_get_vec : M -> str -> option (list PrefixRule);
  mm_iter_all : M -> list (str * list PrefixRule)
}.

Class MultiMapLaws (M : Type) `{MultiMap M} := {
  mm_get_new k : mm_get_vec mm_new k = None;
  mm_get_insert m k r k' :
    mm_get_vec (mm_insert m k r) k' =
    if decide (k' = k) then Some (default [] (mm_get_vec m k) ++ [r]) else mm_get_vec m k';
  mm_iter_keys m : NoDup (mm_iter_all m).*1;
  mm_iter_get m k rs : (k, rs) ∈ mm_iter_all m <-> mm_get_vec m k = Some rs
}.

(** Finite maps of lists have this behaviour. *)
#[export] Instance gmap_multimap : MultiMap (gmap str (list PrefixRule)) := {
  mm_new := ∅;
  mm_insert m k r := <[k := default [] (m !! k) ++ [r]]> m;
  mm_get_vec m k := m !! k;
  mm_iter_all m := map_to_list m
}.

#[export] Instance gmap_multimap_laws : MultiMapLaws (gmap str (list PrefixRule)).
Proof.
  split; cbn.
  - intros. apply lookup_empty.
  - intros m k r k'. destruct (decide (k' = k)) as [->|].
    + by rewrite lookup_insert_eq.
    + by rewrite lookup_insert_ne.
  - intros. apply NoDup_fst_map_to_list.
  - intros. apply elem_of_map_to_list.
Qed.

(** ** Policies ([policy.rs]) *)

Record MatchOptions := mk_options { resolve_host_executables : bool }.

Definition default_options : MatchOptions := mk_options false.

Record Policy (M : Type) := mk_policy {
  rules_by_program : M;
  network_rules : list NetworkRule;
  host_executables_by_name : gmap str (list path)
}.
Arguments mk_policy {M}.
Arguments rules_by_program {M}.
Arguments network_rules {M}.
Arguments host_executables_by_name {M}.

Record Evaluation := mk_evaluation { decision : Decision; matched_rules : list RuleMatch }.

Definition executable_lookup_key (raw : str) : str := raw.

Definition executable_path_lookup_key (p : path) : option str :=
  executable_lookup_key <$> file_name p.

Definition upsert_domain (entries : list str) (host : str) : list str :=
  filter (fun entry => entry <> host) entries ++ [host].

Definition PIPE : char := 124%N.

Definition render_pattern_token (t : PatternToken) : str :=
  match t with
  | Single value => value
  | Alts alternatives => [LBRACKET] ++ join [PIPE] alternatives ++ [RBRACKET]
  end.

(** The order of [String] and of [Vec<String>]. *)
Fixpoint vec_leb (a b : list str) : bool :=
  match a, b with
  | [], _ => true
  | _ :: _, [] => false
  | x :: a', y :: b' => if str_eqb x y then vec_leb a' b' else str_leb x y
  end.

Fixpoint insert_sorted (x : list str) (l : list (list str)) : list (list str) :=
  match l with
  | [] => [x]
  | y :: l' => if vec_leb x y then x :: l else y :: insert_sorted x l'
  end.

(** [Vec::sort] *)
Definition sort (l : list (list str)) : list (list str) := foldr insert_sorted [] l.

(** The allow prefixes of the rules of one program. *)
Definition allowed_prefix (prefix_rule : PrefixRule) : option (list str) :=
  if decide (rule_decision prefix_rule = Allow)
  then Some (first (pattern prefix_rule) ::
             (render_pattern_token <$> rest (pattern prefix_rule)))
  else None.

(** One iteration of the loop of [compiled_network_domains]. *)
Definition domains_step (st : list str * list str) (rule : NetworkRule) : list str * list str :=
  let '(allowed, denied) := st in
  match network_decision rule with
  | Allow => (upsert_domain allowed (host rule), filter (fun e => e <> host rule) denied)
  | Forbidden => (filter (fun e => e <> host rule) allowed, upsert_domain denied (host rule))
  | Prompt => (allowed, denied)
  end.

(** [Evaluation::from_matches] panics without a match. *)
Definition from_matches (matched_rules : list RuleMatch) : res Empty_set Evaluation :=
  match iter_max (match_decision <$> matched_rules) with
  | Some decision => Ok (mk_evaluation decision matched_rules)
  | None => Panic
  end.

Definition is_match (e : Evaluation) : bool :=
  existsb (fun m => match m with HeuristicsRuleMatch _ _ => false | _ => true end)
    (matched_rules e).

Section policy.
Context {M : Type} `{MultiMap M}.
Context (home_dir current_dir : option path).
Implicit Types p : Policy M.

Definition policy_new (rules : M) : Policy M := mk_policy rules [] ∅.

Definition policy_empty : Policy M := policy_new mm_new.

Definition get_allowed_prefixes (p : Policy M) : list (list str) :=
  dedup (sort (mm_iter_all (rules_by_program p) ≫= (fun '(_, rules) => omap allowed_prefix rules))).

Definition add_prefix_rule (p : Policy M) (prefix : list str) (decision : Decision)
    : res Error (Policy M) :=
  match prefix with
  | [] => Err (InvalidPattern (lit "prefix cannot be empty"))
  | first_token :: rest =>
    let rule := mk_rule (mk_pattern first_token (Single <$> rest)) decision None in
    Ok (mk_policy (mm_insert (rules_by_program p) first_token rule) (network_rules p)
          (host_executables_by_name p))
  end.

Definition blank_justification (justification : option str) : bool :=
  match justification with Some raw => is_empty (trim raw) | None => false end.

Definition add_network_rule (p : Policy M) (host : str) (protocol : NetworkRuleProtocol)
    (decision : Decision) (justification : option str) : res Error (Policy M) :=
  let? host := normalize_network_rule_host host in
  if blank_justification justification
  then Err (InvalidRule (lit "justification cannot be empty"))
  else Ok (mk_policy (rules_by_program p)
             (network_rules p ++ [mk_network_rule host protocol decision justification])
             (host_executables_by_name p)).

Definition set_host_executable_paths (p : Policy M) (name : str) (paths : list path) : Policy M :=
  mk_policy (rules_by_program p) (network_rules p) (<[name := paths]> (host_executables_by_name p)).

(** The two nested loops over [overlay.rules_by_program.iter_all()]. *)
Definition insert_all_rules (m : M) (l : list (str * list PrefixRule)) : M :=
  foldl (fun m '(program, rules) => foldl (fun m r => mm_insert m program r) m rules) m l.

Definition merge_overlay (p overlay : Policy M) : Policy M :=
  mk_policy (insert_all_rules (rules_by_program p) (mm_iter_all (rules_by_program overlay)))
    (network_rules p ++ network_rules overlay)
    (host_executables_by_name overlay ∪ host_executables_by_name p).

Definition compiled_network_domains (p : Policy M) : list str * list str :=
  foldl domains_step ([], []) (network_rules p).

Definition match_exact_rules (p : Policy M) (cmd : list str) : option (list RuleMatch) :=
  match cmd with
  | [] => None
  | first :: _ =>
    Some (match mm_get_vec (rules_by_program p) first with
          | Some rules => omap (fun rule => rule_matches rule cmd) rules
          | None => []
          end)
  end.

Definition match_host_executable_rules (p : Policy M) (cmd : list str) : list RuleMatch :=
  match cmd with
  | [] => []
  | first :: args =>
    match from_absolute_path home_dir current_dir first with
    | None => []
    | Some program =>
      match executable_path_lookup_key program with
      | None => []
      | Some basename =>
        match mm_get_vec (rules_by_program p) basename with
        | None => []
        | Some rules =>
          let listed :=
            match host_executables_by_name p !! basename with
            | Some paths => existsb (fun path => bool_decide (path = program)) paths
            | None => true
            end in
          if listed then
            (fun m => with_resolved_program m program)
            <$> omap (fun rule => rule_matches rule (basename :: args)) rules
          else []
        end
      end
    end
  end.

(** [Option::filter] with [!matched_rules.is_empty()]. *)
Definition nonempty (o : option (list RuleMatch)) : option (list RuleMatch) :=
  match o with Some [] => None | o => o end.

Definition matches_for_command_with_options (p : Policy M) (cmd : list str)
    (heuristics_fallback : option (list str -> Decision)) (options : MatchOptions)
    : list RuleMatch :=
  let matched_rules :=
    match nonempty (match_exact_rules p cmd) with
    | Some matched_rules => matched_rules
    | None =>
      default []
        (nonempty (if resolve_host_executables options
                   then Some (match_host_executable_rules p cmd) else None))
    end in
  match matched_rules, heuristics_fallback with
  | [], Some heuristics_fallback => [HeuristicsRuleMatch cmd (heuristics_fallback cmd)]
  | _, _ => matched_rules
  end.

Definition matches_for_command (p : Policy M) (cmd : list str)
    (heuristics_fallback : option (list str -> Decision)) : list RuleMatch :=
  matches_for_command_with_options p cmd heuristics_fallback default_options.

Definition check_with_options (p : Policy M) (cmd : list str)
    (heuristics_fallback : list str -> Decision) (options : MatchOptions)
    : res Empty_set Evaluation :=
  from_matches (matches_for_command_with_options p cmd (Some heuristics_fallback) options).

Definition check (p : Policy M) (cmd : list str) (heuristics_fallback : list str -> Decision)
    : res Empty_set Evaluation :=
  from_matches
    (matches_for_command_with_options p cmd (Some heuristics_fallback) default_options).

Definition check_multiple_with_options (p : Policy M) (commands : list (list str))
    (heuristics_fallback : list str -> Decision) (options : MatchOptions)
    : res Empty_set Evaluation :=
  from_matches (commands ≫= (fun command =>
    matches_for_command_with_options p command (Some heuristics_fallback) options)).

Definition check_multiple (p : Policy M) (commands : list (list str))
    (heuristics_fallback : list str -> Decision) : res Empty_set Evaluation :=
  check_multiple_with_options p commands heuristics_fallback default_options.
End policy.

(** ** Decisions form a chain *)

#[export] Instance decision_le : SqSubsetEq Decision := fun a b => rank a <= rank b.

Lemma decision_max_l a b : a ⊑ decision_max a b.
Proof. by destruct a, b; cbv; lia. Qed.

Lemma decision_max_r a b : b ⊑ decision_max a b.
Proof. by destruct a, b; cbv; lia. Qed.

Lemma decision_max_cases a b : decision_max a b = a \/ decision_max a b = b.
Proof. destruct a, b; auto. Qed.

#[export] Instance decision_le_preorder : PreOrder (⊑@{Decision}).
Proof. split; [intros []|intros [] [] []]; cbv; lia. Qed.

Lemma decision_le_antisym (a b : Decision) : a ⊑ b -> b ⊑ a -> a = b.
Proof. destruct a, b; cbv; intros; auto; lia. Qed.

(** [d] is the strictest element of [l]. *)
Definition strictest (l : list Decision) (d : Decision) : Prop := d ∈ l /\ forall d', d' ∈ l -> d' ⊑ d.

Lemma foldl_max l d : strictest (d :: l) (foldl decision_max d l).
Proof.
  revert d. induction l as [|x l IH]; intros d; simpl.
  - split; [set_solver|]. intros d' ->%list_elem_of_singleton. done.
  - destruct (IH (decision_max d x)) as [Hin Hle]. split.
    + apply elem_of_cons in Hin as [->|]; [|set_solver].
      destruct (decision_max_cases d x) as [-> | ->]; set_solver.
    + intros d' Hd'. rewrite !elem_of_cons in Hd'. destruct Hd' as [->|[->|Hd']].
      * etrans; [apply (decision_max_l _ x)|]. apply Hle. set_solver.
      * etrans; [apply (decision_max_r d)|]. apply Hle. set_solver.
      * apply Hle. set_solver.
Qed.

Lemma iter_max_strictest l d : iter_max l = Some d <-> strictest l d.
Proof.
  destruct l as [|x l]; simpl; [split; [done|intros [[]%not_elem_of_nil _]]|].
  destruct (foldl_max l x) as [Hin Hle]. split.
  - intros [= <-]. by split.
  - intros [Hin' Hle']. f_equal. apply decision_le_antisym; auto.
Qed.

(** ** What it means for a rule to fit a command *)

(** The tokens of the pattern accept the leading tokens of the command. *)
Definition accepts (pat : PrefixPattern) (pre : list str) : Prop :=
  exists mid, pre = first pat :: mid /\ Forall2 (fun t c => c ∈ alternatives t) (rest pat) mid.

Definition fits (r : PrefixRule) (cmd : list str) : Prop :=
  exists pre extra, cmd = pre ++ extra /\ accepts (pattern r) pre.

Lemma token_matches_spec t c : token_matches t c = true <-> c ∈ alternatives t.
Proof.
  destruct t as [s|alts]; simpl.
  - rewrite str_eqb_eq, list_elem_of_singleton. naive_solver.
  - rewrite existsb_exists. setoid_rewrite str_eqb_eq. setoid_rewrite <- list_elem_of_In.
    naive_solver.
Qed.

Lemma forallb_zip ts cs :
  length ts = length cs ->
  forallb (fun '(t, c) => token_matches t c) (zip ts cs) = true <->
  Forall2 (fun t c => c ∈ alternatives t) ts cs.
Proof.
  revert cs. induction ts as [|t ts IH]; intros [|c cs] Hl; try done; simpl in *.
  rewrite andb_true_iff, token_matches_spec, Forall2_cons, IH by lia. done.
Qed.

Lemma matches_prefix_spec pat cmd pre :
  matches_prefix pat cmd = Some pre <-> accepts pat pre /\ exists extra, cmd = pre ++ extra.
Proof.
  unfold matches_prefix. rewrite Nat.add_sub. split.
  - destruct (Nat.ltb_spec (length cmd) (length (rest pat) + 1)); [done|].
    case_bool_decide as Hhd; [|done]. destruct cmd as [|c cmd]; [done|]. simplify_eq/=.
    rewrite drop_0. destruct (forallb _ _) eqn:Hf; [|done]. intros [= <-].
    rewrite forallb_zip in Hf by (rewrite length_take; lia).
    rewrite Nat.add_1_r. simpl. split.
    + by eexists.
    + exists (drop (length (rest pat)) cmd). by rewrite take_drop.
  - intros [(mid & -> & Hmid) [extra ->]]. pose proof (Forall2_length _ _ _ Hmid) as Hl.
    simpl. rewrite length_app. destruct (Nat.ltb_spec (S (length mid + length extra)) (length (rest pat) + 1)); [lia|].
    rewrite bool_decide_true by done. simpl. rewrite drop_0, take_app_length' by done.
    rewrite (proj2 (forallb_zip _ _ Hl)) by done.
    rewrite Nat.add_1_r. simpl. by rewrite take_app_length'.
Qed.

Lemma rule_matches_decision r cmd m :
  rule_matches r cmd = Some m ->
  exists pre, m = PrefixRuleMatch pre (rule_decision r) None (rule_justification r) /\
    accepts (pattern r) pre /\ exists extra, cmd = pre ++ extra.
Proof.
  unfold rule_matches. intros (pre & Hp & ->)%fmap_Some. exists pre.
  split; [done|]. by apply matches_prefix_spec.
Qed.

Lemma rule_matches_fits r cmd : is_Some (rule_matches r cmd) <-> fits r cmd.
Proof.
  unfold rule_matches, fits. rewrite fmap_is_Some. split.
  - intros [pre (Ha & extra & ->)%matches_prefix_spec]. eauto.
  - intros (pre & extra & -> & Ha). exists pre. apply matches_prefix_spec. eauto.
Qed.

#[export] Instance fits_dec r cmd : base.Decision (fits r cmd).
Proof.
  destruct (rule_matches r cmd) eqn:E; [left|right];
    [apply rule_matches_fits; by rewrite E|by rewrite <- rule_matches_fits, E; intros [? [=]]].
Defined.

(** ** The decision procedure *)

Section decide.
Context {M : Type} `{MultiMapLaws M}.
Context (home_dir current_dir : option path).
Implicit Types p : Policy M.

(** The rules filed under a program name. *)
Definition rules_for p (name : str) : list PrefixRule :=
  default [] (mm_get_vec (rules_by_program p) name).

(** A rule that fits the command as it is written. *)
Definition exact_rule p (cmd : list str) (r : PrefixRule) : Prop :=
  exists name args, cmd = name :: args /\ r ∈ rules_for p name /\ fits r cmd.

(** A rule that fits the command with its program replaced by its base name,
    where the policy lists the program or lists nothing for that name. *)
Definition host_rule p (cmd : list str) (program : path) (r : PrefixRule) : Prop :=
  exists raw args basename,
    cmd = raw :: args /\
    from_absolute_path home_dir current_dir raw = Some program /\
    file_name program = Some basename /\
    (forall paths, host_executables_by_name p !! basename = Some paths -> program ∈ paths) /\
    r ∈ rules_for p basename /\ fits r (basename :: args).

(** The decisions that bear on a command: exact rules first, then rules for
    the base name when that is asked for, the heuristics if no rule fits. *)
Inductive decides p (options : MatchOptions) (fallback : list str -> Decision) (cmd : list str)
    : Decision -> Prop :=
| decides_exact r :
    exact_rule p cmd r -> decides p options fallback cmd (rule_decision r)
| decides_host program r :
    resolve_host_executables options = true ->
    (forall r', ~ exact_rule p cmd r') ->
    host_rule p cmd program r -> decides p options fallback cmd (rule_decision r)
| decides_heuristics :
    (forall r', ~ exact_rule p cmd r') ->
    (resolve_host_executables options = true -> forall program r', ~ host_rule p cmd program r') ->
    decides p options fallback cmd (fallback cmd).

(** [m] reports the rule [r] on the command [cmd]. *)
Definition reports (cmd : list str) (resolved : option path) (r : PrefixRule) (m : RuleMatch) : Prop :=
  exists pre extra, m = PrefixRuleMatch pre (rule_decision r) resolved (rule_justification r) /\
    cmd = pre ++ extra /\ accepts (pattern r) pre.

Lemma omap_rule_matches cmd (rules : list PrefixRule) m :
  m ∈ omap (fun r => rule_matches r cmd) rules <->
  exists r, r ∈ rules /\ fits r cmd /\ reports cmd None r m.
Proof.
  rewrite list_elem_of_omap. split.
  - intros (r & Hr & (pre & -> & Ha & extra & ->)%rule_matches_decision).
    exists r. split_and!; [done|by exists pre, extra..].
  - intros (r & Hr & _ & pre & extra & -> & -> & Ha). exists r. split; [done|].
    unfold rule_matches.
    rewrite (proj2 (matches_prefix_spec (pattern r) (pre ++ extra) pre)); eauto.
Qed.

Lemma match_exact_spec p cmd m :
  m ∈ default [] (match_exact_rules p cmd) <->
  exists r, exact_rule p cmd r /\ reports cmd None r m.
Proof.
  unfold exact_rule, rules_for. destruct cmd as [|c args]; simpl.
  { split; [by intros []%not_elem_of_nil|naive_solver]. }
  destruct (mm_get_vec _ c) as [rules|] eqn:E; simpl.
  - rewrite omap_rule_matches. split.
    + intros (r & ? & ? & ?). exists r. split; [|done]. exists c, args. by rewrite E.
    + intros (r & (? & ? & [= <- <-] & Hr & ?) & ?). rewrite E in Hr. eauto.
  - split; [by intros []%not_elem_of_nil|].
    intros (r & (? & ? & [= <- <-] & Hr & ?) & ?). rewrite E in Hr. by apply not_elem_of_nil in Hr.
Qed.

Lemma match_host_spec p cmd m :
  m ∈ match_host_executable_rules home_dir current_dir p cmd <->
  exists program r base, host_rule p cmd program r /\ reports base (Some program) r m /\
    exists name, file_name program = Some name /\ base = name :: tail cmd.
Proof.
  unfold match_host_executable_rules, host_rule, executable_path_lookup_key, rules_for.
  destruct cmd as [|c args]; [split; [by intros []%not_elem_of_nil|naive_solver]|].
  destruct (from_absolute_path _ _ c) as [prog|] eqn:Ep;
    [|split; [by intros []%not_elem_of_nil|naive_solver]].
  destruct (file_name prog) as [name|] eqn:En; simpl;
    [|split; [by intros []%not_elem_of_nil|naive_solver]].
  unfold executable_lookup_key.
  destruct (mm_get_vec _ name) as [rules|] eqn:Er; simpl.
  2:{ split; [by intros []%not_elem_of_nil|].
      intros (? & r & ? & (raw & ? & base & [= <- <-] & Hp & Hb & _ & Hr & _) & _).
      simplify_eq. rewrite Er in Hr. by apply not_elem_of_nil in Hr. }
  set (listed := match host_executables_by_name p !! name with Some _ => _ | None => _ end).
  assert (listed = true <->
    forall paths, host_executables_by_name p !! name = Some paths -> prog ∈ paths) as Hl.
  { unfold listed. destruct (host_executables_by_name p !! name) as [paths|]; [|naive_solver].
    rewrite existsb_exists. setoid_rewrite bool_decide_eq_true.
    setoid_rewrite <- list_elem_of_In. naive_solver. }
  destruct listed eqn:El.
  - rewrite list_elem_of_fmap. split.
    + intros (m' & -> & (r & Hr & Hf & pre & extra & -> & Hc & Ha)%omap_rule_matches).
      exists prog, r, (name :: args). split_and!.
      * exists c, args, name. rewrite Er. split_and!; auto. by apply Hl.
      * by exists pre, extra.
      * by exists name.
    + intros (prog' & r & base & (raw & args' & base' & [= <- <-] & Hp & Hb & _ & Hr & Hf) & (pre & extra & -> & Hbase & Ha) & name' & Hn & ->).
      simplify_eq/=. rewrite Er in Hr.
      exists (PrefixRuleMatch pre (rule_decision r) None (rule_justification r)).
      split; [done|]. apply omap_rule_matches. exists r. split_and!; [done..|]. by exists pre, extra.
  - split; [by intros []%not_elem_of_nil|].
    intros (prog' & r & base & (raw & args' & base' & [= <- <-] & Hp & Hb & Hall & _) & _).
    simplify_eq. by apply Hl in Hall.
Qed.

Lemma fits_reports r cmd resolved : fits r cmd -> exists m, reports cmd resolved r m.
Proof. intros (pre & extra & -> & Ha). eexists. by exists pre, extra. Qed.

Lemma reports_decision cmd resolved r m : reports cmd resolved r m -> match_decision m = rule_decision r.
Proof. by intros (? & ? & -> & _). Qed.

(** The three sources of matches in their order. *)
Lemma matches_unfold p cmd fallback options :
  matches_for_command_with_options home_dir current_dir p cmd fallback options =
  match default [] (match_exact_rules p cmd) with
  | [] =>
    match (if resolve_host_executables options
           then match_host_executable_rules home_dir current_dir p cmd else []) with
    | [] => match fallback with Some f => [HeuristicsRuleMatch cmd (f cmd)] | None => [] end
    | l => l
    end
  | l => l
  end.
Proof.
  unfold matches_for_command_with_options, nonempty.
  destruct (match_exact_rules p cmd) as [[|]|]; simpl; try done;
    destruct (resolve_host_executables options), fallback; simpl; repeat case_match; naive_solver.
Qed.

Lemma exact_none p cmd :
  default [] (match_exact_rules p cmd) = [] <-> forall r, ~ exact_rule p cmd r.
Proof.
  split.
  - intros E r Hr. destruct (fits_reports r cmd None) as [m Hm]; [by destruct Hr as (?&?&?&?&?)|].
    assert (m ∈ default [] (match_exact_rules p cmd)) as Hin by (apply match_exact_spec; eauto).
    rewrite E in Hin. by apply not_elem_of_nil in Hin.
  - intros Hno. destruct (default _ _) as [|m l] eqn:E; [done|]. exfalso.
    destruct (proj1 (match_exact_spec p cmd m)) as (r & Hr & _); [rewrite E; set_solver|].
    by apply (Hno r).
Qed.

Lemma host_none p cmd :
  match_host_executable_rules home_dir current_dir p cmd = [] <->
  forall program r, ~ host_rule p cmd program r.
Proof.
  split.
  - intros E prog r Hr. pose proof Hr as (raw & args & base & -> & _ & Hb & _ & _ & Hf).
    destruct (fits_reports r _ (Some prog) Hf) as [m Hm].
    assert (m ∈ match_host_executable_rules home_dir current_dir p (raw :: args)) as Hin.
    { apply match_host_spec. exists prog, r, (base :: args). split_and!; eauto. }
    rewrite E in Hin. by apply not_elem_of_nil in Hin.
  - intros Hno. destruct (match_host_executable_rules _ _ p cmd) as [|m l] eqn:E; [done|]. exfalso.
    destruct (proj1 (match_host_spec p cmd m)) as (prog & r & _ & Hr & _); [rewrite E; set_solver|].
    by apply (Hno prog r).
Qed.

Lemma exact_decisions p cmd d :
  d ∈ match_decision <$> default [] (match_exact_rules p cmd) <->
  exists r, exact_rule p cmd r /\ d = rule_decision r.
Proof.
  rewrite list_elem_of_fmap. setoid_rewrite match_exact_spec. split.
  - intros (m & -> & r & Hr & Hm). exists r. by rewrite (reports_decision _ _ _ _ Hm).
  - intros (r & Hr & ->). destruct (fits_reports r cmd None) as [m Hm];
      [by destruct Hr as (?&?&?&?&?)|].
    exists m. split; [by rewrite (reports_decision _ _ _ _ Hm)|eauto].
Qed.

Lemma host_decisions p cmd d :
  d ∈ match_decision <$> match_host_executable_rules home_dir current_dir p cmd <->
  exists program r, host_rule p cmd program r /\ d = rule_decision r.
Proof.
  rewrite list_elem_of_fmap. setoid_rewrite match_host_spec. split.
  - intros (m & -> & prog & r & base & Hr & Hm & _). exists prog, r.
    by rewrite (reports_decision _ _ _ _ Hm).
  - intros (prog & r & Hr & ->). pose proof Hr as (raw & args & base & -> & _ & Hb & _ & _ & Hf).
    destruct (fits_reports r _ (Some prog) Hf) as [m Hm].
    exists m. split; [by rewrite (reports_decision _ _ _ _ Hm)|].
    exists prog, r, (base :: args). split_and!; eauto.
Qed.

Lemma matches_decides p cmd fallback options d :
  d ∈ match_decision <$>
        matches_for_command_with_options home_dir current_dir p cmd (Some fallback) options <->
  decides p options fallback cmd d.
Proof.
  rewrite matches_unfold. pose proof (exact_none p cmd) as Hex.
  pose proof (exact_decisions p cmd d) as Hexd.
  destruct (default [] (match_exact_rules p cmd)) as [|m l] eqn:Ex.
  2:{ rewrite Hexd. split.
      - intros (r & Hr & ->). by constructor.
      - assert (~ forall r, ~ exact_rule p cmd r) as Hn by (intros Hn; by apply Hex in Hn).
        intros [r Hr|? ? ? Hno|Hno]; [eauto|by destruct Hn..]. }
  destruct Hex as [Hex _]. specialize (Hex eq_refl).
  pose proof (host_none p cmd) as Hho. pose proof (host_decisions p cmd d) as Hhod.
  destruct (resolve_host_executables options) eqn:Er.
  - destruct (match_host_executable_rules _ _ p cmd) as [|m l] eqn:Eh.
    + simpl. rewrite list_elem_of_singleton. split.
      * intros ->. apply decides_heuristics; [done|]. intros _. by apply Hho.
      * intros [r Hr|prog r _ _ Hr|]; [by destruct (Hex r)| |done].
        by destruct (proj1 Hho eq_refl prog r).
    + rewrite Hhod. split.
      * intros (prog & r & Hr & ->). by eapply decides_host.
      * intros [r Hr|prog r _ _ Hr|_ Hno]; [by destruct (Hex r)|eauto|].
        specialize (Hno Er). by apply Hho in Hno.
  - simpl. rewrite list_elem_of_singleton. split.
    + intros ->. apply decides_heuristics; [done|]. by rewrite Er.
    + intros [r Hr|prog r Hr|]; [by destruct (Hex r)|by rewrite Er in Hr|done].
Qed.

Lemma from_matches_strictest ms ev :
  from_matches ms = Ok ev <->
  strictest (match_decision <$> ms) (decision ev) /\ matched_rules ev = ms.
Proof.
  unfold from_matches. destruct ev as [d l]. simpl.
  destruct (iter_max _) as [d'|] eqn:E; split.
  - intros [= <- <-]. split; [by apply iter_max_strictest|done].
  - intros [Hs ->]. apply iter_max_strictest in Hs. by simplify_eq.
  - done.
  - intros [Hs _]. apply iter_max_strictest in Hs. by simplify_eq.
Qed.

Lemma from_matches_Ok ms : ms <> [] -> exists ev, from_matches ms = Ok ev.
Proof. unfold from_matches. destruct ms; [done|]. simpl. eauto. Qed.

Lemma decides_inhabited p cmd fallback options : exists d, decides p options fallback cmd d.
Proof.
  setoid_rewrite <- matches_decides. rewrite matches_unfold.
  repeat case_match; eexists; simpl; apply elem_of_cons; by left.
Qed.
End decide.

(** ** Verdicts without host resolution *)

Lemma decision_max_assoc a b c : decision_max a (decision_max b c) = decision_max (decision_max a b) c.
Proof. by destruct a, b, c. Qed.

Lemma foldl_max_assoc a b l : foldl decision_max (decision_max a b) l = decision_max a (foldl decision_max b l).
Proof.
  revert b. induction l as [|x l IH]; intros b; simpl; [done|].
  by rewrite <- decision_max_assoc, IH.
Qed.

(** Two optional decisions, the stricter one if both are there. *)
Definition join_decisions (a b : option Decision) : option Decision :=
  match a, b with
  | Some x, Some y => Some (decision_max x y)
  | Some x, None => Some x
  | None, y => y
  end.

Lemma iter_max_app a b : iter_max (a ++ b) = join_decisions (iter_max a) (iter_max b).
Proof.
  destruct a as [|x a], b as [|y b]; simpl; [done..|by rewrite app_nil_r|].
  by rewrite foldl_app; simpl; rewrite foldl_max_assoc.
Qed.

(** The decision of the rules alone. *)
Definition ruled (ev : Evaluation) : option Decision :=
  if is_match ev then Some (decision ev) else None.

Section verdict.
Context {M : Type} `{MultiMapLaws M}.
Context (home_dir current_dir : option path).
Implicit Types p : Policy M.
Implicit Types m : M.

Definition exact_matches p (cmd : list str) : list RuleMatch := default [] (match_exact_rules p cmd).

Lemma exact_matches_rules p c args :
  exact_matches p (c :: args) = omap (fun r => rule_matches r (c :: args)) (rules_for p c).
Proof. unfold exact_matches, rules_for. simpl. by destruct (mm_get_vec _ c). Qed.

Lemma exact_matches_prefix p cmd :
  existsb (fun x => match x with HeuristicsRuleMatch _ _ => false | _ => true end)
    (exact_matches p cmd) = negb (bool_decide (exact_matches p cmd = [])).
Proof.
  pose proof (match_exact_spec p cmd) as Hs. fold (exact_matches p cmd) in Hs.
  destruct (exact_matches p cmd) as [|m l]; [done|]. rewrite bool_decide_false by done. simpl.
  destruct (proj1 (Hs m)) as (r & _ & ? & ? & -> & _); [set_solver|done].
Qed.

Lemma check_verdict p cmd fallback :
  exists ev, check home_dir current_dir p cmd fallback = Ok ev /\
    ruled ev = iter_max (match_decision <$> exact_matches p cmd) /\
    decision ev = default (fallback cmd) (ruled ev).
Proof.
  unfold check. rewrite matches_unfold. cbn [resolve_host_executables default_options].
  fold (exact_matches p cmd). pose proof (exact_matches_prefix p cmd) as Hm.
  destruct (exact_matches p cmd) as [|m l] eqn:E; [by eexists|].
  destruct (from_matches_Ok (m :: l)) as [ev Hev]; [done|]. exists ev. split; [done|].
  apply from_matches_strictest in Hev as [Hs Hl]. apply iter_max_strictest in Hs.
  unfold ruled, is_match. rewrite Hl, Hm, bool_decide_false by done. by rewrite Hs.
Qed.

(** ** The multimap of a merged policy *)

Lemma rules_insert m k r k' :
  default [] (mm_get_vec (mm_insert m k r) k') =
  default [] (mm_get_vec m k') ++ (if decide (k' = k) then [r] else []).
Proof. rewrite mm_get_insert. destruct (decide (k' = k)) as [->|]; simpl; by rewrite ?app_nil_r. Qed.

Lemma rules_insert_list m k rs k' :
  default [] (mm_get_vec (foldl (fun m r => mm_insert m k r) m rs) k') =
  default [] (mm_get_vec m k') ++ (if decide (k' = k) then rs else []).
Proof.
  revert m. induction rs as [|r rs IH]; intros m; simpl.
  - by destruct (decide _); rewrite app_nil_r.
  - rewrite IH, rules_insert, <- app_assoc. by destruct (decide _).
Qed.

Lemma rules_insert_all m l k :
  NoDup l.*1 ->
  default [] (mm_get_vec (insert_all_rules m l) k) =
  default [] (mm_get_vec m k) ++ default [] ((list_to_map l : gmap str (list PrefixRule)) !! k).
Proof.
  revert m. unfold insert_all_rules. induction l as [|[k' rs] l IH]; intros m Hnd; simpl.
  { by rewrite lookup_empty, app_nil_r. }
  apply NoDup_cons in Hnd as [Hk Hnd]. rewrite IH, rules_insert_list by done.
  destruct (decide (k = k')) as [->|].
  - rewrite lookup_insert_eq, (not_elem_of_list_to_map_1 l) by done. simpl. by rewrite app_nil_r.
  - rewrite lookup_insert_ne by done. by rewrite app_nil_r.
Qed.

Lemma iter_all_lookup m k :
  (list_to_map (mm_iter_all m) : gmap str (list PrefixRule)) !! k = mm_get_vec m k.
Proof.
  apply option_eq. intros rs. rewrite <- mm_iter_get.
  symmetry. apply elem_of_list_to_map, mm_iter_keys.
Qed.

Lemma rules_for_merge p overlay k :
  rules_for (merge_overlay p overlay) k = rules_for p k ++ rules_for overlay k.
Proof.
  unfold rules_for, merge_overlay. simpl.
  by rewrite rules_insert_all, iter_all_lookup by apply mm_iter_keys.
Qed.

Lemma exact_matches_merge p overlay cmd :
  exact_matches (merge_overlay p overlay) cmd = exact_matches p cmd ++ exact_matches overlay cmd.
Proof.
  destruct cmd as [|c args]; [done|].
  by rewrite !exact_matches_rules, rules_for_merge, omap_app.
Qed.

(** ** Network rules *)

(** The last rule that allows or denies the host. *)
Definition speaks (h : str) (r : NetworkRule) : Prop := host r = h /\ network_decision r <> Prompt.

#[export] Instance speaks_dec h r : base.Decision (speaks h r).
Proof. unfold speaks. apply _. Defined.

Definition last_word (h : str) (rules : list NetworkRule) : option Decision :=
  network_decision <$> last (filter (speaks h) rules).

Lemma last_word_app h l k :
  last_word h (l ++ k) = match last_word h k with Some d => Some d | None => last_word h l end.
Proof.
  unfold last_word. rewrite filter_app, last_app. by destruct (last (filter _ k)).
Qed.

Lemma last_word_snoc h l r :
  last_word h (l ++ [r]) =
  if decide (speaks h r) then Some (network_decision r) else last_word h l.
Proof.
  rewrite last_word_app. unfold last_word at 1. rewrite filter_cons. by destruct (decide _).
Qed.

Definition domains_ok (rules : list NetworkRule) (st : list str * list str) : Prop :=
  NoDup st.1 /\ NoDup st.2 /\
  (forall h, h ∈ st.1 <-> last_word h rules = Some Allow) /\
  (forall h, h ∈ st.2 <-> last_word h rules = Some Forbidden).

Lemma upsert_NoDup l h : NoDup l -> NoDup (upsert_domain l h).
Proof.
  intros Hl. unfold upsert_domain. apply NoDup_app. split_and!.
  - by apply NoDup_filter.
  - intros x Hx ->%list_elem_of_singleton. by apply list_elem_of_filter in Hx as [[] _].
  - apply NoDup_singleton.
Qed.

Lemma upsert_elem l h x : x ∈ upsert_domain l h <-> x = h \/ (x <> h /\ x ∈ l).
Proof.
  unfold upsert_domain. rewrite elem_of_app, list_elem_of_filter, list_elem_of_singleton.
  destruct (decide (x = h)); naive_solver.
Qed.

Lemma domains_step_ok rules st r :
  domains_ok rules st -> domains_ok (rules ++ [r]) (domains_step st r).
Proof.
  destruct st as [a d]. intros (Ha & Hd & Hal & Hde). unfold domains_step, domains_ok in *.
  setoid_rewrite last_word_snoc. simpl in *.
  destruct (network_decision r) eqn:E; simpl; split_and!;
    auto using upsert_NoDup, NoDup_filter; intros h;
    rewrite ?upsert_elem, ?list_elem_of_filter, ?Hal, ?Hde;
    destruct (decide (speaks h r)) as [[Hs Hp]|Hs]; unfold speaks in *; rewrite ?E in *;
    naive_solver.
Qed.

Lemma compiled_domains_ok p : domains_ok (network_rules p) (compiled_network_domains p).
Proof.
  unfold compiled_network_domains. generalize (network_rules p) as l. apply rev_ind.
  - split_and!; [constructor..|set_solver|set_solver].
  - intros r l IH. rewrite foldl_app. by apply domains_step_ok.
Qed.
End verdict.

(** ** Adding a rule for a literal prefix *)

Lemma accepts_literal f tokens pre :
  accepts (mk_pattern f (Single <$> tokens)) pre <-> pre = f :: tokens.
Proof.
  unfold accepts. simpl. split.
  - intros (mid & -> & Hm). f_equal. revert mid Hm.
    induction tokens as [|t tokens IH]; intros mid Hm; inv Hm; [done|].
    f_equal; [set_solver|eauto].
  - intros ->. exists tokens. split; [done|]. induction tokens; constructor; set_solver.
Qed.

Lemma literal_rule_matches f tokens d cmd :
  rule_matches (mk_rule (mk_pattern f (Single <$> tokens)) d None) cmd =
  if decide ((f :: tokens) `prefix_of` cmd) then Some (PrefixRuleMatch (f :: tokens) d None None)
  else None.
Proof.
  unfold rule_matches. cbn [pattern rule_decision rule_justification].
  destruct (matches_prefix _ cmd) as [pre|] eqn:E; simpl.
  - apply matches_prefix_spec in E as [->%accepts_literal Hp]. by rewrite decide_True.
  - rewrite decide_False; [done|]. intros Hp. apply eq_None_not_Some in E. apply E.
    exists (f :: tokens). apply matches_prefix_spec. split; [by apply accepts_literal|done].
Qed.

Section amend.
Context {M : Type} `{MultiMapLaws M}.
Implicit Types p : Policy M.

Lemma exact_matches_add p p' prefix d cmd :
  add_prefix_rule p prefix d = Ok p' ->
  exact_matches p' cmd =
  exact_matches p cmd ++
  (if decide (prefix `prefix_of` cmd) then [PrefixRuleMatch prefix d None None] else []).
Proof.
  destruct prefix as [|f tokens]; [done|]. cbn [add_prefix_rule]. intros [= <-].
  destruct cmd as [|c args].
  { rewrite decide_False; [done|]. by intros ?%prefix_nil_inv. }
  rewrite !exact_matches_rules. unfold rules_for. cbn [rules_by_program].
  rewrite rules_insert, omap_app. f_equal. destruct (decide (c = f)) as [->|Hne]; simpl.
  - rewrite literal_rule_matches. by destruct (decide _).
  - rewrite decide_False; [done|]. intros Hp. by apply prefix_cons_inv_1 in Hp.
Qed.

Lemma insert_sorted_perm x l : insert_sorted x l ≡ₚ x :: l.
Proof.
  induction l as [|y l IH]; simpl; [done|]. destruct (vec_leb x y); [done|].
  rewrite IH. constructor.
Qed.

Lemma sort_perm l : sort l ≡ₚ l.
Proof. induction l as [|x l IH]; simpl; [done|]. by rewrite insert_sorted_perm, IH. Qed.

Lemma allowed_prefixes_elem p prefix :
  prefix ∈ get_allowed_prefixes p <->
  exists name r, r ∈ rules_for p name /\ allowed_prefix r = Some prefix.
Proof.
  unfold get_allowed_prefixes, rules_for. rewrite dedup_elem, sort_perm, list_elem_of_bind.
  split.
  - intros ([name rules] & Hin & Hr). apply mm_iter_get in Hr.
    apply list_elem_of_omap in Hin as (r & Hr' & Ha). exists name, r. by rewrite Hr.
  - intros (name & r & Hr & Ha). destruct (mm_get_vec _ name) as [rules|] eqn:E;
      [|by apply not_elem_of_nil in Hr].
    exists (name, rules). split; [|by apply mm_iter_get]. apply list_elem_of_omap. by exists r.
Qed.

Lemma allowed_prefixes_add p p' prefix d :
  add_prefix_rule p prefix d = Ok p' ->
  forall q, q ∈ get_allowed_prefixes p' <->
    q ∈ get_allowed_prefixes p \/ (d = Allow /\ q = prefix).
Proof.
  destruct prefix as [|f tokens]; [done|]. cbn [add_prefix_rule]. intros [= <-] q.
  rewrite !allowed_prefixes_elem. unfold rules_for. cbn [rules_by_program].
  assert (forall d, allowed_prefix (mk_rule (mk_pattern f (Single <$> tokens)) d None) =
    if decide (d = Allow) then Some (f :: tokens) else None) as Hal.
  { intros d'. unfold allowed_prefix. simpl. rewrite <- list_fmap_compose.
    change (render_pattern_token ∘ Single) with (@id str). by rewrite list_fmap_id. }
  setoid_rewrite rules_insert. split.
  - intros (name & r & Hr & Ha). apply elem_of_app in Hr as [Hr|Hr]; [left; eauto|right].
    destruct (decide (name = f)); [|by apply not_elem_of_nil in Hr].
    apply list_elem_of_singleton in Hr as ->. rewrite Hal in Ha.
    destruct (decide (d = Allow)); naive_solver.
  - intros [(name & r & Hr & Ha)|[-> ->]].
    + exists name, r. split; [set_solver|done].
    + exists f. eexists. split; [apply elem_of_app; right; rewrite decide_True by done; by apply list_elem_of_singleton|].
      by rewrite Hal.
Qed.
End amend.

(** ** Hosts *)

Definition host_clean (h : str) : Prop :=
  h <> [] /\ forall c, c ∈ h ->
    is_whitespace c = false /\ c <> STAR /\ ~ (65 <= c <= 90)%N.

Lemma contains_char_elem c s : contains [c] s = true <-> c ∈ s.
Proof.
  unfold contains. induction s as [|a s IH]; simpl.
  { split; [done|by intros []%not_elem_of_nil]. }
  unfold starts_with. simpl. destruct (N.eqb_spec c a) as [->|Hne]; [set_solver|].
  rewrite elem_of_cons, <- IH. destruct (find [c] s); simpl; naive_solver.
Qed.

Lemma contains_subset p s : contains p s = true -> p ⊆ s.
Proof.
  unfold contains. induction s as [|a s IH]; simpl.
  - unfold starts_with. destruct (strip_prefix p []) as [r|] eqn:E; [|done].
    apply strip_prefix_Some in E. intros _. symmetry in E. by apply app_nil in E as [-> _].
  - destruct (starts_with p (a :: s)) eqn:E.
    + apply starts_with_true in E as [r ->]. intros _ x. set_solver.
    + destruct (find p s); [|done]. simpl. set_solver.
Qed.

Lemma contains_absent c p s : c ∈ p -> c ∉ s -> contains p s = false.
Proof. intros Hp Hs. destruct (contains p s) eqn:E; [|done]. by apply contains_subset in E; apply E in Hp. Qed.

Lemma trim_start_subset s : trim_start s ⊆ s.
Proof. destruct (trim_start_suffix s) as (w & E & _). rewrite E at 2. set_solver. Qed.

Lemma trim_subset s : trim s ⊆ s.
Proof.
  unfold trim, trim_end. etrans; [apply trim_start_subset|].
  intros x. rewrite elem_of_reverse. intros Hx%trim_start_subset. by apply elem_of_reverse.
Qed.

Lemma trim_start_matches_subset c s : trim_start_matches c s ⊆ s.
Proof. induction s as [|a s IH]; simpl; [done|]. destruct (a =? c)%N; set_solver. Qed.

Lemma trim_end_matches_subset c s : trim_end_matches c s ⊆ s.
Proof.
  unfold trim_end_matches. intros x. rewrite elem_of_reverse.
  intros Hx%trim_start_matches_subset. by apply elem_of_reverse.
Qed.

Lemma strip_port_subset raw s h : strip_port raw s = Ok h -> h ⊆ s.
Proof.
  unfold strip_port. destruct (strip_prefix [LBRACKET] s) as [stripped|] eqn:E.
  - apply strip_prefix_Some in E as ->.
    destruct (split_once [RBRACKET] stripped) as [[inside r]|] eqn:Es; [|done].
    apply split_once_parts in Es as ->. destruct (_ && _); [done|]. intros [= <-]. set_solver.
  - destruct (count_char COLON s =? 1); [|by intros [= <-]].
    unfold rsplit_once. destruct (split_once [COLON] (reverse s)) as [[a b]|] eqn:Es;
      [|by intros [= <-]].
    apply split_once_parts in Es. apply (f_equal reverse) in Es. rewrite reverse_involutive in Es.
    destruct (_ && _); intros [= <-]; [|done]. rewrite Es, !reverse_app. set_solver.
Qed.

Lemma lowercase_elem c s :
  c ∈ to_ascii_lowercase s -> ~ (65 <= c <= 90)%N /\ (c ∈ s \/ (97 <= c <= 122)%N).
Proof.
  unfold to_ascii_lowercase. rewrite list_elem_of_fmap. intros (a & -> & Ha).
  destruct (65 <=? a)%N eqn:E1, (a <=? 90)%N eqn:E2; simpl;
    rewrite ?N.leb_le, ?N.leb_gt in *; (split; [lia|]); [right; lia|by left..].
Qed.

(** Characters that make a host a URL. *)
Definition url_chars : list char := lit "/?#".

Lemma normalize_host_clean raw h :
  normalize_network_rule_host raw = Ok h ->
  host_clean h /\ forall c, c ∈ h -> c ∉ url_chars.
Proof.
  unfold normalize_network_rule_host. intros Hn.
  destruct (is_empty (trim raw)); [done|].
  destruct (contains (lit "://") _ || _ || _ || _) eqn:Ec; [done|].
  apply bind_Ok in Hn as (x & Hx%strip_port_subset & Hn).
  set (y := to_ascii_lowercase _) in Hn.
  destruct (is_empty y) eqn:Ee; [done|]. destruct (contains (lit "*") y) eqn:Es; [done|].
  destruct (existsb is_whitespace y) eqn:Ew; [done|]. injection Hn as <-.
  assert (forall c, c ∈ y -> ~ (65 <= c <= 90)%N /\ (c ∈ trim raw \/ (97 <= c <= 122)%N)) as Hy.
  { intros c [? [Hc|?]]%lowercase_elem; split; auto.
    left. by apply Hx, (trim_end_matches_subset DOT), trim_subset. }
  split.
  - split; [by intros E; rewrite E in Ee|]. intros c Hc. destruct (Hy c Hc) as [Hu _].
    split_and!; [|intros ->; apply contains_char_elem in Hc; change [STAR] with (lit "*") in Hc; congruence|done].
    destruct (is_whitespace c) eqn:E; [|done]. rewrite <- Ew. symmetry.
    apply existsb_exists. exists c. by rewrite <- list_elem_of_In.
  - intros c Hc Hu. apply orb_false_elim in Ec as [[[_ E1]%orb_false_elim E2]%orb_false_elim E3].
    change url_chars with [47; 63; 35]%N in Hu. change (lit "/") with [47%N] in E1.
    change (lit "?") with [63%N] in E2. change (lit "#") with [35%N] in E3.
    destruct (Hy c Hc) as [_ [Hin|Hr]].
    + apply contains_char_elem in Hin.
      apply elem_of_cons in Hu as [->|[->|[->|[]%not_elem_of_nil]%elem_of_cons]%elem_of_cons];
        congruence.
    + apply elem_of_cons in Hu as [->|[->|[->|[]%not_elem_of_nil]%elem_of_cons]%elem_of_cons]; lia.
Qed.

(** ** Spellings of one host *)

Definition blank (w : str) : Prop := Forall (fun c => is_whitespace c = true) w.

(** A plain host name. *)
Definition plain_host (h : str) : Prop :=
  h <> [] /\ last h <> Some DOT /\
  forall c, c ∈ h -> is_whitespace c = false /\ c ∉ lit "/?#*[]:".

Definition port_suffix (s : str) : Prop :=
  s = [] \/ exists digits, s = COLON :: digits /\ digits <> [] /\ Forall (fun c => is_ascii_digit c = true) digits.

Lemma is_whitespace_printable c : (33 <= c <= 126)%N -> is_whitespace c = false.
Proof.
  intros. unfold is_whitespace. rewrite !orb_false_iff, !andb_false_iff, !N.leb_gt, !N.eqb_neq. lia.
Qed.

Lemma trim_start_blank w s : blank w -> trim_start (w ++ s) = trim_start s.
Proof. induction 1 as [|c w Hc Hw IH]; simpl; [done|]. by rewrite Hc. Qed.

Lemma trim_end_blank s w : blank w -> trim_end (s ++ w) = trim_end s.
Proof.
  intros Hw. unfold trim_end. by rewrite reverse_app, trim_start_blank by (by apply Forall_reverse).
Qed.

Lemma trim_blank w1 s w2 :
  s <> [] -> blank w1 -> blank w2 -> edges_solid s -> trim (w1 ++ s ++ w2) = s.
Proof.
  intros Hne H1 H2 Hs. unfold trim. rewrite app_assoc, trim_end_blank by done.
  rewrite trim_end_solid.
  - rewrite trim_start_blank by done. pose proof (trim_solid s Hs) as Ht. unfold trim in Ht.
    by rewrite (trim_end_solid s) in Ht by apply Hs.
  - intros c. rewrite last_app. destruct (last s) as [c'|] eqn:E.
    + intros [= <-]. by apply Hs.
    + by apply last_None in E.
Qed.

Lemma trim_end_dots h n : last h <> Some DOT -> trim_end_matches DOT (h ++ replicate n DOT) = h.
Proof.
  intros Hl. unfold trim_end_matches. rewrite reverse_app, reverse_replicate.
  assert (trim_start_matches DOT (replicate n DOT ++ reverse h) = trim_start_matches DOT (reverse h)) as ->.
  { induction n as [|n IH]; simpl; [done|]. exact IH. }
  destruct h as [|c h] using rev_ind; [done|]. rewrite reverse_snoc. simpl.
  rewrite last_snoc in Hl. destruct (N.eqb_spec c DOT) as [->|]; [done|].
  by rewrite reverse_cons, reverse_involutive.
Qed.

Lemma filter_absent (c : char) (s : str) : c ∉ s -> filter (fun a => a = c) s = [].
Proof.
  induction s as [|a s IH]; [done|]. intros [Ha Hs]%not_elem_of_cons.
  rewrite filter_cons_False by congruence. auto.
Qed.

Lemma strip_port_plain raw h n port :
  plain_host h -> port_suffix port ->
  strip_port raw (h ++ replicate n DOT ++ port) = Ok (h ++ replicate n DOT).
Proof.
  intros (Hne & _ & Hc) Hp. unfold strip_port. set (x := h ++ replicate n DOT).
  assert (COLON ∉ x) as Hx.
  { unfold x. rewrite not_elem_of_app, elem_of_replicate. split; [|by intros [? _]].
    intros Hin. destruct (Hc _ Hin) as [_ []]. by apply (bool_decide_unpack _). }
  assert (x <> []) as Hxne by (intros [? _]%app_nil; done).
  assert (strip_prefix [LBRACKET] (x ++ port) = None) as Hb.
  { unfold x. destruct h as [|c h]; [done|]. apply strip_prefix_None_head. intros <-.
    destruct (Hc LBRACKET) as [_ []]; [set_solver|by apply (bool_decide_unpack _)]. }
  rewrite app_assoc. fold x. rewrite Hb. unfold count_char. rewrite filter_app, length_app.
  rewrite (filter_absent COLON x) by done.
  destruct Hp as [->|(digits & -> & Hd & Hall)]; [by rewrite app_nil_r|].
  assert (COLON ∉ digits) as Hcd.
  { intros Hin. rewrite Forall_forall in Hall. by specialize (Hall _ Hin). }
  assert (filter (fun a => a = COLON) (COLON :: digits) = [COLON]) as ->.
  { rewrite filter_cons_True by done. by rewrite filter_absent. }
  simpl. unfold rsplit_once. rewrite reverse_app, reverse_cons, <- app_assoc.
  rewrite split_once_first by (by rewrite elem_of_reverse). rewrite !reverse_involutive.
  destruct x as [|c x]; [done|]. destruct digits as [|d digits]; [done|].
  cbn [is_empty negb andb].
  assert (all_digits (d :: digits) = true) as ->; [|done].
  apply forallb_forall. intros c0 Hin%list_elem_of_In. rewrite Forall_forall in Hall. auto.
Qed.

Lemma normalize_plain_host h n port w1 w2 :
  plain_host h -> port_suffix port -> blank w1 -> blank w2 ->
  normalize_network_rule_host (w1 ++ (h ++ replicate n DOT ++ port) ++ w2) =
  Ok (to_ascii_lowercase h).
Proof.
  intros Hh Hp H1 H2. pose proof Hh as (Hne & Hdot & Hc).
  unfold normalize_network_rule_host. set (s := h ++ replicate n DOT ++ port).
  assert (forall c, c ∈ s -> is_whitespace c = false /\ c ∉ url_chars) as Hs.
  { intros c [Hin|[[-> _]%elem_of_replicate|Hin]%elem_of_app]%elem_of_app.
    - destruct (Hc c Hin) as [? Hn]. split; [done|]. intros Hu. apply Hn.
      change (c ∈ url_chars ++ lit "*[]:"). set_solver.
    - split; [done|]. by apply (bool_decide_unpack _).
    - destruct Hp as [->|(digits & -> & _ & Hall)]; [by apply not_elem_of_nil in Hin|].
      apply elem_of_cons in Hin as [->|Hin]; [split; [done|by apply (bool_decide_unpack _)]|].
      rewrite Forall_forall in Hall. specialize (Hall c Hin).
      apply andb_true_iff in Hall as [Ha Hb]. apply N.leb_le in Ha, Hb. split.
      + apply is_whitespace_printable. lia.
      + change url_chars with [47; 63; 35]%N. rewrite !not_elem_of_cons. split_and!; [lia..|].
        apply not_elem_of_nil. }
  assert (s <> []) as Hsne by (intros [? _]%app_nil; done).
  rewrite trim_blank; [|done..|].
  2:{ split; intros c Hin; apply Hs; [by apply head_Some_elem_of|by apply last_Some_elem_of]. }
  assert (is_empty s = false) as -> by (by destruct s).
  assert (forall c p, c ∈ p -> c ∈ url_chars -> contains p s = false) as Hno.
  { intros c p Hcp Hcu. eapply contains_absent; [done|]. intros Hin. by apply Hs in Hin as [_ []]. }
  rewrite !(Hno 47%N), (Hno 63%N), (Hno 35%N) by (by apply (bool_decide_unpack _)).
  cbn [orb]. unfold s. rewrite strip_port_plain by done. cbn [res_bind].
  rewrite trim_end_dots, trim_solid by
    (done || (split; intros c Hin; apply Hc; [by apply head_Some_elem_of|by apply last_Some_elem_of])).
  set (y := to_ascii_lowercase h).
  assert (is_empty y = false) as -> by (unfold y; by destruct h).
  assert (forall c, c ∈ y -> c <> STAR /\ is_whitespace c = false) as Hy.
  { intros c [_ [Hin|Hr]]%lowercase_elem.
    - destruct (Hc c Hin) as [? Hn]. split; [|done]. intros ->. apply Hn. by apply (bool_decide_unpack _).
    - split; [unfold STAR; lia|]. apply is_whitespace_printable. lia. }
  rewrite (contains_absent STAR); [|by apply (bool_decide_unpack _)|by intros [[] _]%Hy].
  destruct (existsb is_whitespace y) eqn:E; [|done].
  apply existsb_exists in E as (c & Hin%list_elem_of_In & Hw). apply Hy in Hin as [_ ?]. congruence.
Qed.

(** ** Properties *)

(** ** The documented rule of decision *)

Section documented_rules.
Context {M : Type} `{MultiMapLaws M}.
Context (home_dir current_dir : option path).
Implicit Types p : Policy M.

(** A program named by an absolute path, or by a bare name that is looked up
    in the search path. *)
Definition absolute_or_bare (program : str) : Prop :=
  (exists rest, program = SLASH :: rest) \/ (name_ok program /\ program <> [TILDE]).

(** A rule for the base name of a program given by an absolute path, where the
    policy lists that path under the name or has no list for the name. *)
Definition base_name_rule p (cmd : list str) (r : PrefixRule) : Prop :=
  exists rest args basename,
    cmd = (SLASH :: rest) :: args /\
    file_name (normalize_path (components (SLASH :: rest))) = Some basename /\
    (forall paths, host_executables_by_name p !! basename = Some paths ->
       normalize_path (components (SLASH :: rest)) ∈ paths) /\
    r ∈ rules_for p basename /\ fits r (basename :: args).

(** What decides on a command: the rules that fit it as it is written; only
    where there is none and host resolution is on, the rules for the base name
    of its absolute program; only where no rule applies, the heuristics. *)
Inductive documented p (options : MatchOptions) (fallback : list str -> Decision)
    (cmd : list str) : Decision -> Prop :=
| documented_exact r :
    exact_rule p cmd r -> documented p options fallback cmd (rule_decision r)
| documented_base r :
    resolve_host_executables options = true ->
    (forall r', ~ exact_rule p cmd r') ->
    base_name_rule p cmd r -> documented p options fallback cmd (rule_decision r)
| documented_heuristics :
    (forall r', ~ exact_rule p cmd r') ->
    (resolve_host_executables options = true -> forall r', ~ base_name_rule p cmd r') ->
    documented p options fallback cmd (fallback cmd).

Lemma components_bare name : name_ok name -> components name = [Normal name].
Proof.
  intros (Hs & Hne & Hd & Hdd). unfold components. rewrite split_no_sep by done.
  assert (starts_with [SLASH] name = false) as ->.
  { unfold starts_with. destruct (strip_prefix [SLASH] name) eqn:E; [|done].
    apply strip_prefix_Some in E as ->. set_solver. }
  simpl. unfold classify.
  by rewrite (str_eqb_ne name []), (str_eqb_ne name (lit ".")), (str_eqb_ne name (lit "..")).
Qed.

Lemma normalize_snoc l name : normalize_path (l ++ [Normal name]) = foldl normalize_step [] l ++ [Normal name].
Proof.
  unfold normalize_path. rewrite foldl_app. simpl. by destruct (foldl normalize_step [] l).
Qed.

(** A bare name resolves to a file of that name, an absolute path to itself. *)
Lemma from_bare name program :
  name_ok name -> name <> [TILDE] ->
  from_absolute_path home_dir current_dir name = Some program -> file_name program = Some name.
Proof.
  intros Hn Ht. unfold from_absolute_path.
  assert (maybe_expand_home_directory home_dir name = [Normal name]) as ->.
  { rewrite <- components_bare by done. unfold maybe_expand_home_directory.
    destruct home_dir; [|done]. destruct (strip_prefix [TILDE] name) as [rest|] eqn:E; [|done].
    apply strip_prefix_Some in E as ->. destruct rest as [|c rest]; [done|].
    destruct (strip_prefix [SLASH] (c :: rest)) as [r|] eqn:E'; [|done].
    apply strip_prefix_Some in E'. rewrite E' in Hn. destruct Hn as [Hs _]. set_solver. }
  unfold absolutize. simpl. intros (cwd & _ & ->)%fmap_Some.
  unfold absolutize_from, path_with_base, path_join. simpl.
  rewrite normalize_snoc. unfold file_name. by rewrite last_snoc.
Qed.

Lemma from_slash rest :
  from_absolute_path home_dir current_dir (SLASH :: rest) =
  Some (normalize_path (components (SLASH :: rest))).
Proof. unfold from_absolute_path, maybe_expand_home_directory. by destruct home_dir. Qed.

Lemma host_rule_documented p cmd program r :
  (forall first args, cmd = first :: args -> absolute_or_bare first) ->
  host_rule home_dir current_dir p cmd program r ->
  exact_rule p cmd r \/ base_name_rule p cmd r.
Proof.
  intros Hc (raw & args & base & -> & Hf & Hb & Hl & Hr & Hfit).
  destruct (Hc raw args eq_refl) as [[rest ->]|[Hn Ht]].
  - right. rewrite from_slash in Hf. simplify_eq. by exists rest, args, base.
  - left. rewrite (from_bare _ _ Hn Ht Hf) in Hb. simplify_eq. by exists base, args.
Qed.

Lemma base_rule_host p cmd r :
  base_name_rule p cmd r -> exists program, host_rule home_dir current_dir p cmd program r.
Proof.
  intros (rest & args & base & -> & Hb & Hl & Hr & Hf). eexists.
  exists (SLASH :: rest), args, base. by rewrite from_slash.
Qed.

Lemma decides_documented p options fallback cmd d :
  (resolve_host_executables options = true ->
   forall first args, cmd = first :: args -> absolute_or_bare first) ->
  decides home_dir current_dir p options fallback cmd d <-> documented p options fallback cmd d.
Proof.
  intros Hc. split.
  - intros [r Hr|program r Ho Hno Hr|Hno Hho]; [by constructor| |].
    + destruct (host_rule_documented _ _ _ _ (Hc Ho) Hr) as [Hx|Hx]; [by destruct (Hno r)|].
      by constructor.
    + constructor; [done|]. intros Ho r (program & Hr)%base_rule_host. by apply (Hho Ho program r).
  - intros [r Hr|r Ho Hno Hr|Hno Hho]; [by constructor| |].
    + destruct (base_rule_host _ _ _ Hr) as [program Hh]. by eapply decides_host.
    + constructor; [done|]. intros Ho program r Hr.
      destruct (host_rule_documented _ _ _ _ (Hc Ho) Hr) as [Hx|Hx];
        [by destruct (Hno r)|by apply (Hho Ho r)].
Qed.
End documented_rules.

Section claims.
Context {M : Type} `{MultiMapLaws M}.
Context (home_dir current_dir : option path).
Implicit Types p : Policy M.

Lemma check_strictest p commands fallback options :
  commands <> [] ->
  exists ev,
    check_multiple_with_options home_dir current_dir p commands fallback options = Ok ev /\
    (exists cmd, cmd ∈ commands /\ decides home_dir current_dir p options fallback cmd (decision ev)) /\
    (forall cmd d, cmd ∈ commands -> decides home_dir current_dir p options fallback cmd d ->
       d ⊑ decision ev).
Proof.
  intros Hne. unfold check_multiple_with_options.
  set (f := fun command => matches_for_command_with_options home_dir current_dir p command
    (Some fallback) options).
  assert (forall d, d ∈ match_decision <$> (commands ≫= f) <->
    exists cmd, cmd ∈ commands /\ decides home_dir current_dir p options fallback cmd d) as Hd.
  { intros d. rewrite list_elem_of_fmap. setoid_rewrite list_elem_of_bind. split.
    - intros (m & -> & cmd & Hm & Hc). exists cmd. split; [done|].
      apply matches_decides, list_elem_of_fmap. by exists m.
    - intros (cmd & Hc & (m & -> & Hm)%matches_decides%list_elem_of_fmap). exists m. eauto. }
  destruct (from_matches_Ok (commands ≫= f)) as [ev Hev].
  { destruct commands as [|cmd commands]; [done|]. intros E.
    destruct (decides_inhabited home_dir current_dir p cmd fallback options) as [d Hdd].
    assert (d ∈ match_decision <$> ((cmd :: commands) ≫= f)) as Hin
      by (apply Hd; exists cmd; split; [set_solver|done]).
    rewrite E in Hin. by apply not_elem_of_nil in Hin. }
  exists ev. split; [done|]. apply from_matches_strictest in Hev as [[Hin Hle] _]. split.
  - by apply Hd.
  - intros cmd d Hc Hdd. apply Hle, Hd. eauto.
Qed.

(** C3: checking a non-empty batch of commands always returns, and its decision
    is the strictest one that bears on any of its commands: on a command bear
    the rules that fit it as it is written; only if there is none and host
    resolution is on, the rules for the base name of its absolute program,
    where the policy lists that program or has no list for the name; and only
    if no rule applies, the heuristics.  With host resolution on, every program
    is an absolute path or a bare name (a relative path like [./git] is
    resolved against the working directory instead, see
    [relative_program_uses_basename_rule]).  An empty batch panics. *)
Theorem check_takes_strictest p commands fallback options :
  check_multiple_with_options home_dir current_dir p [] fallback options = Panic /\
  (commands <> [] ->
   (resolve_host_executables options = true ->
    forall program args, program :: args ∈ commands -> absolute_or_bare program) ->
   exists ev,
     check_multiple_with_options home_dir current_dir p commands fallback options = Ok ev /\
     (exists cmd, cmd ∈ commands /\ documented p options fallback cmd (decision ev)) /\
     (forall cmd d, cmd ∈ commands -> documented p options fallback cmd d -> d ⊑ decision ev)).
Proof.
  split; [done|]. intros Hne Hb.
  destruct (check_strictest p commands fallback options Hne)
    as (ev & Hev & (cmd & Hc & Hd) & Hle).
  assert (forall cmd d, cmd ∈ commands -> decides home_dir current_dir p options fallback cmd d <->
    documented p options fallback cmd d) as Hdoc.
  { intros c d Hin. apply decides_documented. intros Ho first args ->. by eapply Hb. }
  exists ev. split_and!; [done| |].
  - exists cmd. split; [done|]. by apply Hdoc.
  - intros c d Hin Hx. apply (Hle c); [done|]. by apply Hdoc.
Qed.

(** A policy merged with an overlay decides by the rules of both: on every
    command its rules say the stricter of what the two policies' rules say
    (what one says where the other is silent, the heuristics where both are);
    the hosts either policy settles are settled by the overlay first; and the
    overlay's list of executables for a name replaces the other. *)
Theorem merge_overlay_combines p overlay cmd fallback :
  exists ev evp evo,
    check home_dir current_dir (merge_overlay p overlay) cmd fallback = Ok ev /\
    check home_dir current_dir p cmd fallback = Ok evp /\
    check home_dir current_dir overlay cmd fallback = Ok evo /\
    ruled ev = join_decisions (ruled evp) (ruled evo) /\
    decision ev = default (fallback cmd) (ruled ev) /\
    (forall h, last_word h (network_rules (merge_overlay p overlay)) =
       match last_word h (network_rules overlay) with
       | Some d => Some d | None => last_word h (network_rules p) end) /\
    (forall name, host_executables_by_name (merge_overlay p overlay) !! name =
       match host_executables_by_name overlay !! name with
       | Some paths => Some paths | None => host_executables_by_name p !! name end).
Proof.
  destruct (check_verdict home_dir current_dir (merge_overlay p overlay) cmd fallback)
    as (ev & Hev & Hr & Hd).
  destruct (check_verdict home_dir current_dir p cmd fallback) as (evp & Hevp & Hrp & _).
  destruct (check_verdict home_dir current_dir overlay cmd fallback) as (evo & Hevo & Hro & _).
  exists ev, evp, evo. split_and!; [done..| |done| |].
  - by rewrite Hr, Hrp, Hro, exact_matches_merge, fmap_app, iter_max_app.
  - intros h. apply last_word_app.
  - intros name. cbn [merge_overlay host_executables_by_name]. rewrite lookup_union.
    by destruct (_ !! name), (_ !! name).
Qed.

(** Adding a rule for a non-empty literal prefix always succeeds; afterwards
    every command that starts with the prefix is decided by the stricter of
    the new decision and of what the rules said before, every other command as
    before, and the prefixes reported as allowed are the old ones and, for an
    allow rule, the new one.  An empty prefix is refused. *)
Theorem add_prefix_rule_spec p prefix d :
  add_prefix_rule p [] d = Err (InvalidPattern (lit "prefix cannot be empty")) /\
  (prefix <> [] ->
   exists p', add_prefix_rule p prefix d = Ok p' /\
   (forall cmd fallback, exists ev ev',
      check home_dir current_dir p cmd fallback = Ok ev /\
      check home_dir current_dir p' cmd fallback = Ok ev' /\
      ruled ev' = join_decisions (ruled ev) (if decide (prefix `prefix_of` cmd) then Some d else None) /\
      decision ev' = default (fallback cmd) (ruled ev')) /\
   (forall q, q ∈ get_allowed_prefixes p' <->
      q ∈ get_allowed_prefixes p \/ (d = Allow /\ q = prefix))).
Proof.
  split; [done|]. intros Hne.
  assert (exists p', add_prefix_rule p prefix d = Ok p') as [p' Hp'] by (destruct prefix; [done|eauto]).
  exists p'. split_and!; [done| |by apply allowed_prefixes_add].
  intros cmd fallback.
  destruct (check_verdict home_dir current_dir p cmd fallback) as (ev & Hev & Hr & _).
  destruct (check_verdict home_dir current_dir p' cmd fallback) as (ev' & Hev' & Hr' & Hd').
  exists ev, ev'. split_and!; [done..| |done].
  rewrite Hr', Hr, (exact_matches_add _ _ _ _ _ Hp'), fmap_app, iter_max_app.
  by destruct (decide (prefix `prefix_of` cmd)).
Qed.

(** The compiled domain lists never repeat a host; a host is on the allowed
    list exactly when the last allow or deny rule for it allows, and on the
    denied list exactly when that rule denies, so the lists are disjoint and
    prompt rules leave them alone. *)
Theorem network_last_rule_wins p :
  NoDup (compiled_network_domains p).1 /\ NoDup (compiled_network_domains p).2 /\
  (forall h, h ∈ (compiled_network_domains p).1 <-> last_word h (network_rules p) = Some Allow) /\
  (forall h, h ∈ (compiled_network_domains p).2 <-> last_word h (network_rules p) = Some Forbidden).
Proof. apply compiled_domains_ok. Qed.

(** A normalised host is not empty and holds no white space, wildcard, upper
    case letter or URL delimiter, and all spellings of a plain host (any case,
    trailing dots, a port, surrounding white space) normalise to the same
    host, its lower case. *)
Theorem network_hosts_canonical raw h name n port w1 w2 :
  (normalize_network_rule_host raw = Ok h ->
   host_clean h /\ forall c, c ∈ h -> c ∉ url_chars) /\
  (plain_host name -> port_suffix port -> blank w1 -> blank w2 ->
   normalize_network_rule_host (w1 ++ (name ++ replicate n DOT ++ port) ++ w2) =
   Ok (to_ascii_lowercase name)).
Proof. split; [apply normalize_host_clean|by apply normalize_plain_host]. Qed.
End claims.

(** ** Relative programs *)

Lemma from_relative home_dir cwd name :
  absolute cwd -> name_ok name ->
  from_absolute_path home_dir (Some cwd) (lit "./" ++ name) = Some (cwd ++ [Normal name]).
Proof.
  intros Hcwd Hn. pose proof Hn as (Hs & Hne & Hd & Hdd).
  assert (components (lit "./" ++ name) = [CurDir; Normal name]) as Hc.
  { unfold components. change (lit "./" ++ name) with (lit "." ++ SLASH :: name).
    rewrite split_app_sep, split_no_sep by (done || by apply (bool_decide_unpack _)).
    simpl. unfold classify.
    by rewrite (str_eqb_ne name []), (str_eqb_ne name (lit ".")), (str_eqb_ne name (lit "..")). }
  unfold from_absolute_path, absolutize.
  assert (maybe_expand_home_directory home_dir (lit "./" ++ name) = [CurDir; Normal name]) as ->.
  { unfold maybe_expand_home_directory. destruct home_dir; by rewrite <- Hc. }
  simpl. f_equal. unfold absolutize_from, path_with_base, path_join. simpl.
  unfold normalize_path. rewrite foldl_app.
  pose proof (normalize_idem cwd Hcwd) as Hi. unfold normalize_path in Hi.
  destruct Hcwd as (names & -> & _).
  destruct (foldl normalize_step [] (RootDir :: (Normal <$> names))) as [|x l] eqn:E; [done|].
  rewrite Hi. simpl. done.
Qed.

(** With host resolution a program named by a relative path is resolved
    against the working directory: [./name] falls back to the base-name rules
    for [name] like an absolute path does, and an allow rule for the name lets
    a file of the working directory run. *)
Theorem relative_program_uses_basename_rule home_dir cwd name args extra d fallback :
  absolute cwd -> name_ok name ->
  exists p : Policy (gmap str (list PrefixRule)),
    add_prefix_rule policy_empty (name :: args) d = Ok p /\
    check_with_options home_dir (Some cwd) p ((lit "./" ++ name) :: args ++ extra) fallback
      (mk_options true) =
    Ok (mk_evaluation d [PrefixRuleMatch (name :: args) d (Some (cwd ++ [Normal name])) None]).
Proof.
  intros Hcwd Hn. eexists. split; [done|]. unfold check_with_options. rewrite matches_unfold.
  assert (name <> lit "./" ++ name) as Hne.
  { intros E. apply (f_equal length) in E. rewrite length_app in E. simpl in E. lia. }
  unfold match_exact_rules. cbn [rules_by_program]. rewrite mm_get_insert, decide_False by done.
  cbn [policy_empty policy_new rules_by_program]. rewrite mm_get_new.
  cbn [default resolve_host_executables].
  unfold match_host_executable_rules. rewrite from_relative by done.
  unfold executable_path_lookup_key, file_name. rewrite last_snoc.
  cbn [fmap option_fmap option_map rules_by_program]. unfold executable_lookup_key.
  rewrite mm_get_insert, decide_True by done.
  cbn [policy_new policy_empty rules_by_program host_executables_by_name].
  rewrite mm_get_new, lookup_empty. cbn [default app omap list_omap].
  rewrite literal_rule_matches, decide_True by (by eexists). done.
Qed.

(** ** Witnesses *)

Definition words (s : string) : list str := split SPACE (lit s).

Definition demo_rules (l : list (list str * Decision)) : Policy (gmap str (list PrefixRule)) :=
  foldl (fun p '(prefix, d) =>
    match add_prefix_rule p prefix d with Ok p' => p' | _ => p end) policy_empty l.

Definition demo_policy : Policy (gmap str (list PrefixRule)) :=
  demo_rules [(words "git status", Allow); (words "git push", Prompt)].

Definition demo_overlay : Policy (gmap str (list PrefixRule)) :=
  mk_policy (rules_by_program (demo_rules [(words "git push --force", Forbidden)]))
    [mk_network_rule (lit "a.com") Https Forbidden None;
     mk_network_rule (lit "a.com") Https Prompt None;
     mk_network_rule (lit "b.com") Http Forbidden None;
     mk_network_rule (lit "b.com") Http Allow None] ∅.

Definition ask (_ : list str) : Decision := Prompt.

Example policy_examples :
  decision <$> (match check None None demo_policy (words "git status -s") ask with Ok e => Some e | _ => None end) = Some Allow /\
  get_allowed_prefixes demo_policy = [words "git status"] /\
  compiled_network_domains demo_overlay = ([lit "b.com"], [lit "a.com"]) /\
  normalize_network_rule_host (lit " [2001:DB8::1]:443 ") = Ok (lit "2001:db8::1").
Proof. vm_compute. done. Qed.

Lemma check_takes_strictest_witness :
  exists ev, check_multiple_with_options None None demo_policy
      [words "git status"; words "/usr/bin/git push"] ask (mk_options true) = Ok ev /\
    Prompt ⊑ decision ev.
Proof.
  destruct (check_takes_strictest None None demo_policy
    [words "git status"; words "/usr/bin/git push"] ask (mk_options true)) as [_ Hc].
  destruct Hc as (ev & Hev & _ & Hle); [done| |].
  { intros _ program args Hin. apply elem_of_cons in Hin as [E|Hin].
    - vm_compute in E. injection E as -> _. right. split; [|done].
      repeat split; by apply (bool_decide_unpack _).
    - apply list_elem_of_singleton in Hin. vm_compute in Hin. injection Hin as -> _.
      left. by eexists. }
  exists ev. split; [done|].
  apply (Hle (words "/usr/bin/git push")); [by apply (bool_decide_unpack _)|].
  apply (decides_documented None None).
  - intros _ first args E. vm_compute in E. injection E as <- _. left. by eexists.
  - apply matches_decides. vm_compute. by constructor.
Defined.

Lemma merge_overlay_combines_witness :
  exists ev, check None None (merge_overlay demo_policy demo_overlay)
      (words "git push --force") ask = Ok ev /\ ruled ev = Some Forbidden.
Proof.
  destruct (merge_overlay_combines None None demo_policy demo_overlay
    (words "git push --force") ask) as (ev & evp & evo & Hev & Hp & Ho & Hr & _).
  exists ev. split; [exact Hev|]. rewrite Hr.
  vm_compute in Hp. vm_compute in Ho. injection Hp as <-. injection Ho as <-. reflexivity.
Defined.

Lemma add_prefix_rule_spec_witness :
  exists p', add_prefix_rule demo_policy (words "git push") Allow = Ok p' /\
    words "git push" ∈ get_allowed_prefixes p'.
Proof.
  destruct (add_prefix_rule_spec None None demo_policy (words "git push") Allow) as [_ Hc].
  destruct Hc as (p' & Hp' & _ & Hal); [done|]. exists p'. split; [done|]. apply Hal. by right.
Defined.

Lemma network_last_rule_wins_witness :
  lit "b.com" ∈ (compiled_network_domains demo_overlay).1 /\
  lit "a.com" ∉ (compiled_network_domains demo_overlay).1.
Proof.
  split; [|intros Hin];
    destruct (network_last_rule_wins demo_overlay) as (_ & _ & Ha & _).
  - apply Ha. reflexivity.
  - apply Ha in Hin. discriminate Hin.
Defined.

Lemma network_hosts_canonical_witness :
  normalize_network_rule_host (lit " Api.GitHub.com.:443") = Ok (lit "api.github.com").
Proof.
  apply (proj2 (network_hosts_canonical (lit "x") (lit "x") (lit "Api.GitHub.com") 1 (lit ":443")
    (lit " ") [])).
  - split_and!; [done|done|].
    assert (Forall (fun c => is_whitespace c = false /\ c ∉ lit "/?#*[]:") (lit "Api.GitHub.com")) as HF
      by (apply (bool_decide_unpack _); vm_compute; reflexivity).
    intros c Hc. exact (proj1 (Forall_forall _ _) HF c Hc).
  - right. exists (lit "443"). split_and!; [done|done|].
    apply (bool_decide_unpack _). vm_compute. reflexivity.
  - by repeat constructor.
  - constructor.
Defined.

Lemma relative_program_uses_basename_rule_witness :
  exists p : Policy (gmap str (list PrefixRule)),
    add_prefix_rule policy_empty (words "git status") Allow = Ok p /\
    check_with_options None (Some [RootDir; Normal (lit "w")]) p (words "./git status") ask
      (mk_options true) =
    Ok (mk_evaluation Allow [PrefixRuleMatch (words "git status") Allow
      (Some [RootDir; Normal (lit "w"); Normal (lit "git")]) None]).
Proof.
  apply (relative_program_uses_basename_rule None [RootDir; Normal (lit "w")] (lit "git")
    [lit "status"] [] Allow ask).
  - exists [lit "w"]. split; [done|]. constructor; [|constructor].
    split_and!; by apply (bool_decide_unpack _).
  - split_and!; by apply (bool_decide_unpack _).
Defined.
