(* ===== verification/PolicyBuilder.v ===== *)
(** * Policy files ([execpolicy/src/parser.rs], examples of [rule.rs])

    The builtins a policy file calls, the builder they fill and the check of
    the examples.  The Starlark evaluator is a third-party interpreter: a run
    of a module is the sequence of builtin calls it makes and the error it
    may end with, both parameters.  So are shell splitting and quoting, the
    [Debug] rendering of rules and the environment. *)

From S2P Require Export ExecPolicy.

(** ** Starlark values *)

(** The values the builtins tell apart; any other value is its type's name. *)
Inductive Value :=
| VStr (s : str)
| VList (content : list Value)
| VOther (type_name : str).

Definition unpack_str (v : Value) : option str := match v with VStr s => Some s | _ => None end.

Definition get_type (v : Value) : str :=
  match v with VStr _ => lit "string" | VList _ => lit "list" | VOther t => t end.

(** [iter.map(f).collect::<Result<_>>()] *)
Fixpoint collect {A B} (f : A -> res Error B) (l : list A) : res Error (list B) :=
  match l with
  | [] => Ok []
  | x :: l =>
    let? y := f x in
    let? ys := collect f l in
    Ok (y :: ys)
  end.

(** [value.unpack_str().ok_or_else(..)] *)
Definition expect_str (e : Value -> Error) (v : Value) : res Error str :=
  match unpack_str v with Some s => Ok s | None => Err (e v) end.

Definition bad_alternative (v : Value) : Error :=
  InvalidPattern (lit "pattern alternative must be a string (got " ++ get_type v ++ lit ")").

Definition parse_pattern_token (value : Value) : res Error PatternToken :=
  match value with
  | VStr s => Ok (Single s)
  | VList content =>
    let? tokens := collect (expect_str bad_alternative) content in
    match tokens with
    | [] => Err (InvalidPattern (lit "pattern alternatives cannot be empty"))
    | [single] => Ok (Single single)
    | _ => Ok (Alts tokens)
    end
  | VOther _ =>
    Err (InvalidPattern
      (lit "pattern element must be a string or list of strings (got " ++ get_type value ++ lit ")"))
  end.

Definition parse_pattern (pattern : list Value) : res Error (list PatternToken) :=
  let? tokens := collect parse_pattern_token pattern in
  match tokens with
  | [] => Err (InvalidPattern (lit "pattern cannot be empty"))
  | _ => Ok tokens
  end.

Definition bad_example_token (v : Value) : Error :=
  InvalidExample (lit "example tokens must be strings (got " ++ get_type v ++ lit ")").

Definition parse_list_example (content : list Value) : res Error (list str) :=
  let? tokens := collect (expect_str bad_example_token) content in
  match tokens with
  | [] => Err (InvalidExample (lit "example cannot be an empty list"))
  | _ => Ok tokens
  end.

Definition validate_host_executable_name (name : str) : res Error unit :=
  match name with
  | [] => Err (InvalidRule (lit "host_executable name cannot be empty"))
  | _ =>
    let path := components name in
    if negb (length path =? 1) || negb (bool_decide (file_name path = Some name))
    then Err (InvalidRule
      (lit "host_executable name must be a bare executable name (got " ++ name ++ lit ")"))
    else Ok tt
  end.

Definition parse_network_rule_decision (raw : str) : res Error Decision :=
  if str_eqb raw (lit "deny") then Ok Forbidden else decision_parse raw.

Definition attach_validation_location (e : Error) (location : option ErrorLocation) : Error :=
  match location with Some location => with_location e location | None => e end.

(** [Result::map_err] *)
Definition map_err {A} (f : Error -> Error) (r : res Error A) : res Error A :=
  match r with Err e => Err (f e) | r => r end.

Record PendingExampleValidation := mk_pending {
  pending_rules : list PrefixRule;
  matches : list (list str);
  not_matches : list (list str);
  pending_location : option ErrorLocation
}.

(** A call of a builtin with its unpacked arguments; [location] is the top of
    the interpreter's call stack. *)
Inductive builtin_call :=
| CallPrefixRule (pattern : list Value) (decision : option str) (match_ not_match : option (list Value))
    (justification : option str) (location : option ErrorLocation)
| CallNetworkRule (host protocol decision : str) (justification : option str)
| CallHostExecutable (name : str) (paths : list Value).

(** What the evaluation of a module does. *)
Record module_run := mk_run { calls : list builtin_call; raised : option str }.

Section builder.
Context {M : Type} `{MultiMap M}.
Context (home_dir current_dir : option path).
(** [shlex::split], [shlex::try_join] and [format!("{:?}")] *)
Context (shlex_split : str -> option (list str)) (try_join : list str -> option str).
Context (debug_rule : PrefixRule -> str) (debug_match : RuleMatch -> str).
(** The text of an error of [current_dir()] and of a failed builtin. *)
Context (current_dir_error : str) (starlark_message : Error -> str).
(** The parse error or the run of a module. *)
Context (starlark : str -> str -> str + module_run).

Record PolicyBuilder := mk_builder {
  builder_rules : M;
  builder_network_rules : list NetworkRule;
  builder_host_executables : gmap str (list path);
  pending_example_validations : list PendingExampleValidation
}.

Definition builder_new : PolicyBuilder := mk_builder mm_new [] ∅ [].

Definition add_rule (b : PolicyBuilder) (rule : PrefixRule) : PolicyBuilder :=
  mk_builder (mm_insert (builder_rules b) (program rule) rule) (builder_network_rules b)
    (builder_host_executables b) (pending_example_validations b).

Definition builder_add_network_rule (b : PolicyBuilder) (rule : NetworkRule) : PolicyBuilder :=
  mk_builder (builder_rules b) (builder_network_rules b ++ [rule])
    (builder_host_executables b) (pending_example_validations b).

Definition add_host_executable (b : PolicyBuilder) (name : str) (paths : list path) : PolicyBuilder :=
  mk_builder (builder_rules b) (builder_network_rules b)
    (<[name := paths]> (builder_host_executables b)) (pending_example_validations b).

Definition add_pending_example_validation (b : PolicyBuilder) (v : PendingExampleValidation)
    : PolicyBuilder :=
  mk_builder (builder_rules b) (builder_network_rules b) (builder_host_executables b)
    (pending_example_validations b ++ [v]).

Definition build (b : PolicyBuilder) : Policy M :=
  mk_policy (builder_rules b) (builder_network_rules b) (builder_host_executables b).

(** ** Examples *)

Definition example_options : MatchOptions := mk_options true.

Definition render_example (example : list str) : str :=
  default (lit "unable to render example") (try_join example).

Definition validate_match_examples (policy : Policy M) (rules : list PrefixRule)
    (examples : list (list str)) : res Error unit :=
  let unmatched_examples :=
    omap (fun example =>
      match matches_for_command_with_options home_dir current_dir policy example None example_options with
      | [] => Some (render_example example)
      | _ => None
      end) examples in
  match unmatched_examples with
  | [] => Ok tt
  | _ => Err (ExampleDidNotMatch (debug_rule <$> rules) unmatched_examples None)
  end.

Fixpoint validate_not_match_examples (policy : Policy M) (examples : list (list str))
    : res Error unit :=
  match examples with
  | [] => Ok tt
  | example :: examples =>
    match matches_for_command_with_options home_dir current_dir policy example None example_options with
    | rule :: _ => Err (ExampleDidMatch (debug_match rule) (render_example example) None)
    | [] => validate_not_match_examples policy examples
    end
  end.

(** The policy one validation is checked against. *)
Definition validation_policy (b : PolicyBuilder) (v : PendingExampleValidation) : Policy M :=
  mk_policy (foldl (fun m rule => mm_insert m (program rule) rule) mm_new (pending_rules v)) []
    (builder_host_executables b).

Fixpoint validate_each (b : PolicyBuilder) (l : list PendingExampleValidation) : res Error unit :=
  match l with
  | [] => Ok tt
  | v :: l =>
    let policy := validation_policy b v in
    let? _ := map_err (fun e => attach_validation_location e (pending_location v))
                (validate_not_match_examples policy (not_matches v)) in
    let? _ := map_err (fun e => attach_validation_location e (pending_location v))
                (validate_match_examples policy (pending_rules v) (matches v)) in
    validate_each b l
  end.

(** The slice [[start..]] panics past the end. *)
Definition validate_pending_examples_from (b : PolicyBuilder) (start : nat) : res Error unit :=
  let? pending := from_opt (slice (pending_example_validations b) start
                              (length (pending_example_validations b))) in
  validate_each b pending.

(** ** Builtins *)

Definition parse_string_example (raw : str) : res Error (list str) :=
  match shlex_split raw with
  | None => Err (InvalidExample (lit "example string has invalid shell syntax"))
  | Some [] => Err (InvalidExample (lit "example cannot be an empty string"))
  | Some tokens => Ok tokens
  end.

Definition parse_example (value : Value) : res Error (list str) :=
  match value with
  | VStr raw => parse_string_example raw
  | VList content => parse_list_example content
  | VOther _ =>
    Err (InvalidExample
      (lit "example must be a string or list of strings (got " ++ get_type value ++ lit ")"))
  end.

(** [examples.map(parse_examples).transpose()?.unwrap_or_default()] *)
Definition parse_examples (examples : option (list Value)) : res Error (list (list str)) :=
  match examples with Some values => collect parse_example values | None => Ok [] end.

Definition parse_literal_absolute_path (raw : str) : res Error path :=
  if negb (is_absolute (components raw))
  then Err (InvalidRule (lit "host_executable paths must be absolute (got " ++ raw ++ lit ")"))
  else
    match from_absolute_path home_dir current_dir raw with
    | Some p => Ok p
    | None =>
      Err (InvalidRule (lit "invalid absolute path `" ++ raw ++ lit "`: " ++ current_dir_error))
    end.

Definition check_justification (justification : option str) : res Error unit :=
  if blank_justification justification
  then Err (InvalidRule (lit "justification cannot be empty")) else Ok tt.

Definition prefix_rule (b : PolicyBuilder) (pattern : list Value) (decision : option str)
    (match_ not_match : option (list Value)) (justification : option str)
    (location : option ErrorLocation) : res Error PolicyBuilder :=
  let? decision := match decision with Some raw => decision_parse raw | None => Ok Allow end in
  let? _ := check_justification justification in
  let? pattern_tokens := parse_pattern pattern in
  let? matches := parse_examples match_ in
  let? not_matches := parse_examples not_match in
  match pattern_tokens with
  | [] => Err (InvalidPattern (lit "pattern cannot be empty"))
  | first_token :: remaining_tokens =>
    let rules :=
      (fun head => mk_rule (mk_pattern head remaining_tokens) decision justification)
      <$> alternatives first_token in
    Ok (foldl add_rule
          (add_pending_example_validation b (mk_pending rules matches not_matches location)) rules)
  end.

Definition network_rule (b : PolicyBuilder) (host protocol decision : str)
    (justification : option str) : res Error PolicyBuilder :=
  let? protocol := protocol_parse protocol in
  let? decision := parse_network_rule_decision decision in
  let? _ := check_justification justification in
  let? host := normalize_network_rule_host host in
  Ok (builder_add_network_rule b (mk_network_rule host protocol decision justification)).

Definition bad_basename (raw name : str) : Error :=
  InvalidRule (lit "host_executable path `" ++ raw ++ lit "` must have basename `" ++ name ++ lit "`").

Definition bad_path_value (v : Value) : Error :=
  InvalidRule (lit "host_executable paths must be strings (got " ++ get_type v ++ lit ")").

(** The loop over [paths.items]. *)
Fixpoint parse_paths (name : str) (values : list Value) (parsed_paths : list path)
    : res Error (list path) :=
  match values with
  | [] => Ok parsed_paths
  | value :: values =>
    let? raw := expect_str bad_path_value value in
    let? path := parse_literal_absolute_path raw in
    match executable_path_lookup_key path with
    | None => Err (bad_basename raw name)
    | Some path_name =>
      if negb (str_eqb path_name (executable_lookup_key name)) then Err (bad_basename raw name)
      else
        parse_paths name values
          (if existsb (fun existing => bool_decide (existing = path)) parsed_paths
           then parsed_paths else parsed_paths ++ [path])
    end
  end.

Definition host_executable (b : PolicyBuilder) (name : str) (paths : list Value)
    : res Error PolicyBuilder :=
  let? _ := validate_host_executable_name name in
  let? parsed_paths := parse_paths name paths [] in
  Ok (add_host_executable b (executable_lookup_key name) parsed_paths).

(** ** Parsing a file *)

Definition run_call (b : PolicyBuilder) (c : builtin_call) : res Error PolicyBuilder :=
  match c with
  | CallPrefixRule pattern decision match_ not_match justification location =>
    prefix_rule b pattern decision match_ not_match justification location
  | CallNetworkRule host protocol decision justification =>
    network_rule b host protocol decision justification
  | CallHostExecutable name paths => host_executable b name paths
  end.

(** The first failing call ends the evaluation; the builder keeps what the
    calls before it did. *)
Fixpoint run_calls (b : PolicyBuilder) (l : list builtin_call) : PolicyBuilder * res Error unit :=
  match l with
  | [] => (b, Ok tt)
  | c :: l =>
    match run_call b c with
    | Ok b' => run_calls b' l
    | Err e => (b, Err (Starlark (starlark_message e)))
    | Panic => (b, Panic)
    | NoFuel => (b, NoFuel)
    end
  end.

(** [PolicyParser::parse] *)
Definition parse (b : PolicyBuilder) (policy_identifier policy_file_contents : str)
    : PolicyBuilder * res Error unit :=
  let pending_validation_count := length (pending_example_validations b) in
  match starlark policy_identifier policy_file_contents with
  | inl message => (b, Err (Starlark message))
  | inr run =>
    match run_calls b (calls run) with
    | (b, Ok _) =>
      match raised run with
      | Some message => (b, Err (Starlark message))
      | None => (b, validate_pending_examples_from b pending_validation_count)
      end
    | failed => failed
    end
  end.
End builder.

(** ** What the builtins do *)

Lemma collect_Ok {A B} (f : A -> res Error B) l ys :
  collect f l = Ok ys <-> Forall2 (fun x y => f x = Ok y) l ys.
Proof.
  revert ys. induction l as [|x l IH]; intros ys; simpl.
  - split; [by intros [= <-]; constructor|by intros ->%Forall2_nil_inv_l].
  - split.
    + intros Hc. res_inv. subst. constructor; [done|]. by apply IH.
    + intros (y & ys' & Hy & Hl & ->)%Forall2_cons_inv_l. rewrite Hy. simpl.
      by rewrite (proj2 (IH ys') Hl).
Qed.

Lemma collect_returns {A B} (f : A -> res Error B) l :
  (forall x, returns (f x)) -> returns (collect f l).
Proof.
  intros Hf. induction l as [|x l IH]; simpl; [done|].
  apply returns_bind; [done|]. intros. by apply returns_bind.
Qed.

Lemma expect_str_returns e v : returns (expect_str e v).
Proof. unfold expect_str. by destruct (unpack_str v). Qed.

Lemma iter_max_const (d : Decision) l :
  Forall (fun x => x = d) l -> iter_max l = match l with [] => None | _ => Some d end.
Proof.
  intros Hl. destruct l as [|x l]; [done|]. inv Hl. apply iter_max_strictest. split; [by left|].
  intros d' [->|Hd']%elem_of_cons; [done|]. by rewrite Forall_forall in H2; rewrite (H2 d').
Qed.

(** The tokens of a whole pattern accept the leading tokens of a command. *)
Definition tokens_accept (tokens : list PatternToken) (cmd : list str) : Prop :=
  exists pre extra, cmd = pre ++ extra /\ Forall2 (fun t c => c ∈ alternatives t) tokens pre.

(** The rules made from one pattern. *)
Definition pattern_rules (first_token : PatternToken) (remaining : list PatternToken) (d : Decision)
    (j : option str) : list PrefixRule :=
  (fun head => mk_rule (mk_pattern head remaining) d j) <$> alternatives first_token.

Lemma pattern_rules_fit t remaining d j c args :
  let fitting := omap (fun r => rule_matches r (c :: args))
    (filter (fun r => program r = c) (pattern_rules t remaining d j)) in
  (fitting <> [] <-> tokens_accept (t :: remaining) (c :: args)) /\
  Forall (fun m => match_decision m = d) fitting.
Proof.
  intros fitting.
  assert (forall m, m ∈ fitting <-> exists r, r ∈ pattern_rules t remaining d j /\ program r = c /\
    rule_matches r (c :: args) = Some m) as Hf.
  { intros m. unfold fitting. rewrite list_elem_of_omap. setoid_rewrite list_elem_of_filter.
    naive_solver. }
  split.
  - transitivity (exists m, m ∈ fitting).
    { destruct fitting as [|m l]; [split; [done|by intros [? []%not_elem_of_nil]]|].
      split; [intros _; exists m; by left|done]. }
    setoid_rewrite Hf. unfold pattern_rules. split.
    + intros (m & r & (head & -> & Hh)%list_elem_of_fmap & Hp & Hm).
      cbn in Hp. subst head. apply rule_matches_decision in Hm as (pre & _ & (mid & -> & Hmid) & extra & Hc).
      exists (c :: mid), extra. split; [done|]. by constructor.
    + intros (pre & extra & Hc & (c' & mid & Hc' & Hmid & ->)%Forall2_cons_inv_l).
      injection Hc as -> ->.
      destruct (rule_matches (mk_rule (mk_pattern c' remaining) d j) (c' :: mid ++ extra)) as [m|] eqn:E.
      * exists m. eexists. split; [|split; [|exact E]]; [|done]. apply list_elem_of_fmap. eauto.
      * exfalso. apply eq_None_not_Some in E. apply E. apply rule_matches_fits.
        exists (c' :: mid), extra. split; [done|]. by exists mid.
  - apply Forall_forall. intros m (r & (head & -> & Hh)%list_elem_of_fmap & _ & Hm)%Hf.
    by apply rule_matches_decision in Hm as (pre & -> & _).
Qed.

Section builder_proofs.
Context {M : Type} `{MultiMapLaws M}.
Context (home_dir current_dir : option path).
Context (shlex_split : str -> option (list str)) (try_join : list str -> option str).
Context (debug_rule : PrefixRule -> str) (debug_match : RuleMatch -> str).
Context (current_dir_error : str) (starlark_message : Error -> str).
Context (starlark : str -> str -> str + module_run).
Implicit Types b : PolicyBuilder (M:=M).

Lemma add_rules_for b rules name :
  rules_for (build (foldl add_rule b rules)) name =
  rules_for (build b) name ++ filter (fun r => program r = name) rules.
Proof.
  revert b. induction rules as [|r rules IH]; intros b; simpl; [by rewrite app_nil_r|].
  rewrite IH. unfold rules_for, build, add_rule. cbn [builder_rules rules_by_program].
  rewrite rules_insert, <- app_assoc, filter_cons. f_equal.
  destruct (decide (name = program r)) as [->|Hne].
  - by rewrite decide_True.
  - rewrite decide_False by (intros E; by rewrite E in Hne). done.
Qed.

Lemma add_rules_pending b rules :
  pending_example_validations (foldl add_rule b rules) = pending_example_validations b /\
  builder_host_executables (foldl add_rule b rules) = builder_host_executables b.
Proof. revert b. induction rules as [|r rules IH]; intros b; simpl; [done|]. by rewrite !(proj1 (IH _)), !(proj2 (IH _)). Qed.

Lemma exact_matches_pattern b t remaining d j cmd :
  let rules := pattern_rules t remaining d j in
  exists fitting, exact_matches (build (foldl add_rule b rules)) cmd = exact_matches (build b) cmd ++ fitting /\
    (fitting <> [] <-> tokens_accept (t :: remaining) cmd) /\
    Forall (fun m => match_decision m = d) fitting.
Proof.
  intros rules. destruct cmd as [|c args].
  - exists []. split; [done|]. split; [|constructor]. split; [done|].
    intros (pre & extra & E & Hp). symmetry in E. apply app_nil in E as [-> _]. inv Hp.
  - eexists. split; [|apply pattern_rules_fit].
    rewrite !exact_matches_rules, add_rules_for, omap_app. done.
Qed.

Lemma ruled_pattern b v t remaining d j cmd fallback :
  let b' := foldl add_rule (add_pending_example_validation b v) (pattern_rules t remaining d j) in
  exists ev ev',
    check home_dir current_dir (build b) cmd fallback = Ok ev /\
    check home_dir current_dir (build b') cmd fallback = Ok ev' /\
    (tokens_accept (t :: remaining) cmd -> ruled ev' = join_decisions (ruled ev) (Some d)) /\
    (~ tokens_accept (t :: remaining) cmd -> ruled ev' = ruled ev).
Proof.
  intros b'. destruct (check_verdict home_dir current_dir (build b) cmd fallback) as (ev & Hev & Hr & _).
  destruct (check_verdict home_dir current_dir (build b') cmd fallback) as (ev' & Hev' & Hr' & _).
  exists ev, ev'. split_and!; [done..| |];
    destruct (exact_matches_pattern (add_pending_example_validation b v) t remaining d j cmd)
      as (fitting & Hm & Hne & Hall); unfold b' in Hr'; rewrite Hm, fmap_app, iter_max_app in Hr';
    rewrite iter_max_const with (d := d) (l := match_decision <$> fitting) in Hr'
      by (by rewrite Forall_fmap); intros Ht.
  - apply Hne in Ht. destruct fitting; [done|]. by rewrite Hr', Hr.
  - destruct fitting as [|m l]; [|by destruct Ht; apply Hne].
    simpl in Hr'. rewrite Hr', Hr. change (exact_matches (build (add_pending_example_validation b v)) cmd) with (exact_matches (build b) cmd).
    by destruct (iter_max _).
Qed.

(** ** The examples *)

(** Some rule of the validation fits the command, by its name or by the base
    name of its program. *)
Definition covered b (v : PendingExampleValidation) (cmd : list str) : Prop :=
  (exists r, exact_rule (validation_policy b v) cmd r) \/
  (exists program r, host_rule home_dir current_dir (validation_policy b v) cmd program r).

Lemma covered_matches b v cmd :
  matches_for_command_with_options home_dir current_dir (validation_policy b v) cmd None example_options <> []
  <-> covered b v cmd.
Proof.
  rewrite matches_unfold. cbn [resolve_host_executables example_options]. unfold covered.
  pose proof (match_exact_spec (validation_policy b v) cmd) as Hex.
  pose proof (match_host_spec home_dir current_dir (validation_policy b v) cmd) as Hho.
  pose proof (exact_none (validation_policy b v) cmd) as Hne.
  pose proof (host_none home_dir current_dir (validation_policy b v) cmd) as Hnh.
  destruct (default [] _) as [|m l].
  - destruct (match_host_executable_rules _ _ _ cmd) as [|m l].
    + split; [done|]. intros [[r Hr]|(prog & r & Hr)].
      * by apply (proj1 Hne eq_refl) in Hr.
      * by apply (proj1 Hnh eq_refl) in Hr.
    + split; [|done]. intros _. right.
      destruct (proj1 (Hho m)) as (prog & r & _ & Hr & _); [by left|eauto].
  - split; [|done]. intros _. left. destruct (proj1 (Hex m)) as (r & Hr & _); [by left|eauto].
Qed.

Definition examples_hold b (v : PendingExampleValidation) : Prop :=
  (forall e, e ∈ matches v -> covered b v e) /\ (forall e, e ∈ not_matches v -> ~ covered b v e).

Lemma validate_match_Ok b v rules examples :
  validate_match_examples home_dir current_dir try_join debug_rule (validation_policy b v) rules examples
    = Ok tt <-> forall e, e ∈ examples -> covered b v e.
Proof.
  clear starlark shlex_split debug_match current_dir_error starlark_message.
  unfold validate_match_examples. setoid_rewrite <- covered_matches.
  set (f := fun example => match matches_for_command_with_options _ _ _ example _ _ with [] => _ | _ => _ end).
  assert (omap f examples = [] <-> forall e, e ∈ examples -> f e = None) as Hf.
  { induction examples as [|e l IH]; simpl; [split; [by intros _ ? []%not_elem_of_nil|done]|].
    destruct (f e) eqn:E; [split; [done|]|rewrite IH].
    - intros Hall. rewrite (Hall e) in E by (by left). done.
    - setoid_rewrite elem_of_cons. naive_solver. }
  transitivity (omap f examples = []).
  { destruct (omap f examples); [done|]. by split. }
  rewrite Hf. apply forall_proper. intros e. unfold f.
  destruct (matches_for_command_with_options _ _ _ e _ _); naive_solver.
Qed.

Lemma validate_not_match_Ok b v examples :
  validate_not_match_examples home_dir current_dir try_join debug_match (validation_policy b v) examples
    = Ok tt <-> forall e, e ∈ examples -> ~ covered b v e.
Proof.
  clear starlark shlex_split debug_rule current_dir_error starlark_message.
  setoid_rewrite <- covered_matches. induction examples as [|e l IH]; simpl.
  - split; [by intros _ ? []%not_elem_of_nil|done].
  - setoid_rewrite elem_of_cons.
    destruct (matches_for_command_with_options _ _ _ e _ _) as [|m ms] eqn:E.
    + rewrite IH. split; [|naive_solver]. intros Hl x [->|Hx]; [rewrite E; auto|auto].
    + split; [done|]. intros Hl. exfalso. apply (Hl e); [by left|]. by rewrite E.
Qed.

Lemma map_err_Ok {A} (f : Error -> Error) (r : res Error A) x : map_err f r = Ok x <-> r = Ok x.
Proof. by destruct r. Qed.

Lemma validate_each_Ok b l :
  validate_each home_dir current_dir try_join debug_rule debug_match b l = Ok tt <->
  Forall (examples_hold b) l.
Proof.
  induction l as [|v l IH]; simpl; [split; [constructor|done]|].
  rewrite Forall_cons, <- IH. unfold examples_hold.
  rewrite <- (validate_match_Ok b v (pending_rules v)), <- validate_not_match_Ok. split.
  - intros Hv. apply bind_Ok in Hv as ([] & H1%map_err_Ok & Hv).
    by apply bind_Ok in Hv as ([] & H2%map_err_Ok & Hv).
  - intros [[H2 H1] H3]. rewrite H1. cbn [map_err res_bind]. rewrite H2. done.
Qed.

Lemma validate_match_returns p rules l :
  returns (validate_match_examples (M:=M) home_dir current_dir try_join debug_rule p rules l).
Proof. unfold validate_match_examples. by destruct (omap _ l). Qed.

Lemma validate_not_match_returns p l :
  returns (validate_not_match_examples (M:=M) home_dir current_dir try_join debug_match p l).
Proof. induction l as [|e l IH]; simpl; [done|]. by destruct (matches_for_command_with_options _ _ p e _ _). Qed.

Lemma map_err_returns {A} f (r : res Error A) : returns r -> returns (map_err f r).
Proof. by destruct r. Qed.

Lemma validate_each_returns b l :
  returns (validate_each home_dir current_dir try_join debug_rule debug_match b l).
Proof.
  induction l as [|v l IH]; simpl; [done|].
  apply returns_bind; [apply map_err_returns, validate_not_match_returns|]. intros ? _.
  apply returns_bind; [apply map_err_returns, validate_match_returns|]. by intros ? _.
Qed.

Lemma validate_from_app b l new :
  pending_example_validations b = l ++ new ->
  validate_pending_examples_from home_dir current_dir try_join debug_rule debug_match b (length l) =
  validate_each home_dir current_dir try_join debug_rule debug_match b new.
Proof.
  intros E. unfold validate_pending_examples_from. rewrite E, slice_full, drop_app_length; [done|].
  rewrite length_app. lia.
Qed.

(** ** Every step returns and only adds validations *)

Lemma parse_pattern_returns l : returns (parse_pattern l).
Proof.
  apply returns_bind; [|by intros []].
  apply collect_returns. intros [s|content|t]; simpl; [done| |done].
  apply returns_bind; [apply collect_returns, expect_str_returns|by intros [|? []]].
Qed.

Lemma parse_examples_returns l : returns (parse_examples shlex_split l).
Proof.
  destruct l as [l|]; [|done]. apply collect_returns. intros [s|content|t]; simpl; [| |done].
  - unfold parse_string_example. by destruct (shlex_split s) as [[]|].
  - apply returns_bind; [apply collect_returns, expect_str_returns|by intros []].
Qed.

Lemma decision_parse_returns raw : returns (decision_parse raw).
Proof. unfold decision_parse. by repeat case_match. Qed.

Lemma check_justification_returns j : returns (check_justification j).
Proof. unfold check_justification. by case_match. Qed.

Lemma normalize_host_returns raw : returns (normalize_network_rule_host raw).
Proof.
  unfold normalize_network_rule_host. repeat (case_match; [done|]).
  apply returns_bind; [unfold strip_port; by repeat case_match|]. intros ? _. by repeat case_match.
Qed.

Lemma parse_paths_returns name values parsed :
  returns (parse_paths home_dir current_dir current_dir_error name values parsed).
Proof.
  revert parsed. induction values as [|v values IH]; intros parsed; simpl; [done|].
  apply returns_bind; [apply expect_str_returns|]. intros raw _.
  apply returns_bind; [unfold parse_literal_absolute_path; by repeat case_match|]. intros p _.
  destruct (executable_path_lookup_key p) as [n|]; [|done]. by destruct (negb _).
Qed.

Lemma run_call_returns b c :
  returns (run_call home_dir current_dir shlex_split current_dir_error b c).
Proof.
  destruct c as [pattern d m nm j loc|h p d j|name paths]; simpl.
  - apply returns_bind; [destruct d; [apply decision_parse_returns|done]|]. intros ? _.
    apply returns_bind; [apply check_justification_returns|]. intros ? _.
    apply returns_bind; [apply parse_pattern_returns|]. intros ? _.
    apply returns_bind; [apply parse_examples_returns|]. intros ? _.
    apply returns_bind; [apply parse_examples_returns|]. intros ? _. by case_match.
  - apply returns_bind; [unfold protocol_parse; by repeat case_match|]. intros ? _.
    apply returns_bind.
    { unfold parse_network_rule_decision. case_match; [done|]. apply decision_parse_returns. }
    intros ? _. apply returns_bind; [apply check_justification_returns|]. intros ? _.
    apply returns_bind; [apply normalize_host_returns|done].
  - apply returns_bind; [unfold validate_host_executable_name; by repeat case_match|]. intros ? _.
    apply returns_bind; [apply parse_paths_returns|done].
Qed.

(** What a successful [prefix_rule] call adds. *)
Lemma prefix_rule_Ok b b' pattern d m nm j loc :
  prefix_rule shlex_split b pattern d m nm j loc = Ok b' ->
  exists dec t remaining ms nms,
    (match d with Some raw => decision_parse raw | None => Ok Allow end) = Ok dec /\
    parse_pattern pattern = Ok (t :: remaining) /\
    parse_examples shlex_split m = Ok ms /\ parse_examples shlex_split nm = Ok nms /\
    b' = foldl add_rule
           (add_pending_example_validation b (mk_pending (pattern_rules t remaining dec j) ms nms loc))
           (pattern_rules t remaining dec j).
Proof.
  unfold prefix_rule. intros Hb. res_inv. case_match; [done|]. res_inv. subst.
  by do 5 eexists.
Qed.

Definition examples_of (c : builtin_call) : option (option (list Value) * option (list Value)) :=
  match c with CallPrefixRule _ _ m nm _ _ => Some (m, nm) | _ => None end.

(** The validation [v] records the examples of the call. *)
Definition records (e : option (list Value) * option (list Value)) (v : PendingExampleValidation) : Prop :=
  parse_examples shlex_split e.1 = Ok (matches v) /\ parse_examples shlex_split e.2 = Ok (not_matches v).

Lemma run_call_pending b b' c :
  run_call home_dir current_dir shlex_split current_dir_error b c = Ok b' ->
  exists new, pending_example_validations b' = pending_example_validations b ++ new /\
    Forall2 records (omap examples_of [c]) new.
Proof.
  destruct c as [pattern d m nm j loc|h p d j|name paths]; simpl; intros Hc.
  - apply prefix_rule_Ok in Hc as (dec & t & remaining & ms & nms & _ & _ & Hm & Hnm & ->).
    rewrite (proj1 (add_rules_pending _ _)). eexists. split; [done|]. by repeat constructor.
  - exists []. unfold network_rule in Hc. res_inv. subst. simpl. by rewrite app_nil_r.
  - exists []. unfold host_executable in Hc. res_inv. subst. simpl. by rewrite app_nil_r.
Qed.

Lemma run_calls_pending b l :
  let '(b', r) := run_calls home_dir current_dir shlex_split current_dir_error starlark_message b l in
  returns r /\ exists new, pending_example_validations b' = pending_example_validations b ++ new /\
    (r = Ok tt -> Forall2 records (omap examples_of l) new).
Proof.
  revert b. induction l as [|c l IH]; intros b; simpl.
  { split; [done|]. exists []. rewrite app_nil_r. split; [done|constructor]. }
  pose proof (run_call_returns b c) as Hr.
  destruct (run_call _ _ _ _ b c) as [b1|e| |] eqn:E; try done.
  - specialize (IH b1). destruct (run_calls _ _ _ _ _ b1 l) as [b' r].
    destruct IH as (Hret & new & Hp & Hrec). split; [done|].
    apply run_call_pending in E as (new1 & Hp1 & Hrec1). exists (new1 ++ new).
    rewrite Hp, Hp1, app_assoc. split; [done|]. intros Hok. specialize (Hrec Hok).
    change (Forall2 records (omap examples_of ([c] ++ l)) (new1 ++ new)). rewrite omap_app. by apply Forall2_app.
  - split; [done|]. exists []. rewrite app_nil_r. by split.
Qed.
End builder_proofs.

(** ** Listed executables *)

Lemma components_absolute_slash raw :
  is_absolute (components raw) = true -> exists rest, raw = SLASH :: rest.
Proof.
  unfold components. destruct (starts_with [SLASH] raw) eqn:E.
  { intros _. apply starts_with_true in E as [r ->]. by exists r. }
  case_match; [done|]. simpl. intros Ha. exfalso.
  destruct (omap classify (split SLASH raw)) as [|c l] eqn:Ec; [done|].
  assert (c ∈ omap classify (split SLASH raw)) as Hin by (rewrite Ec; by left).
  apply list_elem_of_omap in Hin as (piece & _ & Hc). unfold classify in Hc.
  repeat case_match; simplify_eq; done.
Qed.

Lemma literal_absolute_path home_dir current_dir raw :
  is_absolute (components raw) = true ->
  from_absolute_path home_dir current_dir raw = Some (normalize_path (components raw)) /\
  absolute (normalize_path (components raw)).
Proof.
  intros Ha. split; [|apply normalize_rooted; [done|apply components_ok]].
  destruct (components_absolute_slash raw Ha) as [r ->].
  assert (maybe_expand_home_directory home_dir (SLASH :: r) = components (SLASH :: r)) as E
    by (by destruct home_dir).
  unfold from_absolute_path, absolutize. by rewrite E, Ha.
Qed.

Lemma bare_name name : validate_host_executable_name name = Ok tt -> name_ok name.
Proof.
  unfold validate_host_executable_name. destruct name as [|c name]; [done|].
  set (s := c :: name). pose proof (components_ok s) as Hok.
  destruct (components s) as [|x [|y l]]; simpl; [done| |done].
  case_bool_decide as Hf; [|done]. intros _. unfold file_name in Hf. simpl in Hf.
  destruct x; simplify_eq. inv Hok. done.
Qed.

Definition listed_as (name : str) (p : path) : Prop := absolute p /\ file_name p = Some name.

Lemma parse_paths_Ok home_dir current_dir err name values parsed result :
  parse_paths home_dir current_dir err name values parsed = Ok result ->
  NoDup parsed -> Forall (listed_as name) parsed ->
  NoDup result /\ Forall (listed_as name) result /\
  forall p, p ∈ result <-> p ∈ parsed \/ exists raw, VStr raw ∈ values /\ p = normalize_path (components raw).
Proof.
  revert parsed. induction values as [|v values IH]; intros parsed; simpl.
  { intros [= <-] Hnd Hall. split_and!; [done..|]. intros p.
    split; [by left|]. intros [?|(raw & []%not_elem_of_nil & _)]; done. }
  intros Hp Hnd Hall. apply bind_Ok in Hp as (raw & Hv & Hp). apply bind_Ok in Hp as (q & Hq & Hp).
  destruct v as [s| |]; [|done..]. injection Hv as ->.
  unfold parse_literal_absolute_path in Hq.
  destruct (is_absolute (components raw)) eqn:Ea; [|done]. cbn [negb] in Hq.
  destruct (literal_absolute_path home_dir current_dir raw Ea) as [Hfrom Habs].
  rewrite Hfrom in Hq. injection Hq as <-. set (q := normalize_path (components raw)) in *.
  unfold executable_path_lookup_key in Hp. destruct (file_name q) as [n|] eqn:En; [|done].
  unfold executable_lookup_key in Hp. cbn [fmap option_fmap option_map] in Hp.
  destruct (str_eqb n name) eqn:Es; [|done]. apply str_eqb_eq in Es as ->. cbn [negb] in Hp.
  assert (existsb (fun existing => bool_decide (existing = q)) parsed = true <-> q ∈ parsed) as Hex.
  { rewrite existsb_exists. setoid_rewrite bool_decide_eq_true. setoid_rewrite <- list_elem_of_In.
    naive_solver. }
  destruct (existsb _ parsed) eqn:Ee.
  - destruct (IH _ Hp Hnd Hall) as (? & ? & Hin). split_and!; [done..|]. intros p.
    rewrite Hin. setoid_rewrite elem_of_cons. pose proof (proj1 Hex eq_refl). unfold q in *. naive_solver.
  - destruct (IH _ Hp) as (? & ? & Hin).
    + apply NoDup_app. split_and!; [done| |apply NoDup_singleton].
      intros x Hx ->%list_elem_of_singleton. by apply Hex in Hx.
    + apply Forall_app. split; [done|]. by repeat constructor.
    + split_and!; [done..|]. intros p. rewrite Hin, elem_of_app, list_elem_of_singleton.
      setoid_rewrite elem_of_cons. unfold q in *. naive_solver.
Qed.

(** ** Properties *)

Section builder_claims.
Context {M : Type} `{MultiMapLaws M}.
Context (home_dir current_dir : option path).
Context (shlex_split : str -> option (list str)) (try_join : list str -> option str).
Context (debug_rule : PrefixRule -> str) (debug_match : RuleMatch -> str).
Context (current_dir_error : str) (starlark_message : Error -> str).
Context (starlark : str -> str -> str + module_run).
Implicit Types b : PolicyBuilder (M:=M).

(** A successful [prefix_rule] call makes the policy decide every command
    whose leading tokens are accepted by the pattern, the first token's
    alternatives included, by the stricter of the rule's decision and of what
    the rules said before, and leaves every other command as it was. *)
Theorem prefix_rule_semantics b b' pattern d m nm j loc :
  prefix_rule shlex_split b pattern d m nm j loc = Ok b' ->
  exists dec tokens,
    (match d with Some raw => decision_parse raw | None => Ok Allow end) = Ok dec /\
    parse_pattern pattern = Ok tokens /\
    forall cmd fallback, exists ev ev',
      check home_dir current_dir (build b) cmd fallback = Ok ev /\
      check home_dir current_dir (build b') cmd fallback = Ok ev' /\
      (tokens_accept tokens cmd -> ruled ev' = join_decisions (ruled ev) (Some dec)) /\
      (~ tokens_accept tokens cmd -> ruled ev' = ruled ev).
Proof.
  intros (dec & t & remaining & ms & nms & Hd & Hp & _ & _ & ->)%prefix_rule_Ok.
  exists dec, (t :: remaining). split_and!; [done..|]. intros. apply ruled_pattern.
Qed.

(** C9: parsing a policy file never panics; when it succeeds, every example a
    [prefix_rule] of the file declares holds: each positive one is matched by
    a rule of its own pattern (by name, or by the base name of a listed
    program) and no negative one is. *)
Theorem parse_enforces_examples b policy_identifier contents :
  let '(b', r) := parse home_dir current_dir shlex_split try_join debug_rule debug_match
    current_dir_error starlark_message starlark b policy_identifier contents in
  returns r /\
  (r = Ok tt -> exists run new,
     starlark policy_identifier contents = inr run /\
     pending_example_validations b' = pending_example_validations b ++ new /\
     Forall2 (records shlex_split) (omap examples_of (calls run)) new /\
     Forall (examples_hold home_dir current_dir b') new).
Proof.
  unfold parse. destruct (starlark policy_identifier contents) as [msg|run] eqn:Es; [done|].
  pose proof (run_calls_pending home_dir current_dir shlex_split current_dir_error
    starlark_message b (calls run)) as Hrun.
  destruct (run_calls _ _ _ _ _ b (calls run)) as [b' r].
  destruct Hrun as (Hret & new & Hp & Hrec). destruct r as [[]|e| |]; try done.
  destruct (raised run) as [msg|]; [done|].
  rewrite (validate_from_app _ _ _ _ _ _ _ _ Hp). split; [apply validate_each_returns|].
  intros Hv%validate_each_Ok. exists run, new. split_and!; auto.
Qed.

(** A successful [host_executable] call names a bare executable and lists
    for it exactly the normalised forms of the given paths, each absolute,
    with that file name and listed once; nothing else of the policy changes. *)
Theorem host_executable_spec b b' name paths :
  host_executable home_dir current_dir current_dir_error b name paths = Ok b' ->
  name_ok name /\
  exists listed,
    build b' = set_host_executable_paths (build b) name listed /\ NoDup listed /\
    (forall p, p ∈ listed -> absolute p /\ file_name p = Some name) /\
    (forall p, p ∈ listed <-> exists raw, VStr raw ∈ paths /\ p = normalize_path (components raw)).
Proof.
  unfold host_executable. intros Hb. apply bind_Ok in Hb as ([] & Hn & Hb).
  apply bind_Ok in Hb as (listed & Hl & [= <-]). split; [by apply bare_name|].
  apply parse_paths_Ok in Hl as (Hnd & Hall & Hin); [|constructor..].
  exists listed. split_and!; [done..| |].
  - intros p Hp. rewrite Forall_forall in Hall. by apply Hall.
  - intros p. rewrite Hin. split; [|by right]. intros [[]%not_elem_of_nil|]; done.
Qed.
End builder_claims.

(** ** Witnesses *)

Notation demo_builder := (PolicyBuilder (M:=gmap str (list PrefixRule))).

Definition demo_split (s : str) : option (list str) := Some (split SPACE s).

Definition demo_pattern : list Value := [VStr (lit "git"); VList [VStr (lit "status"); VStr (lit "diff")]].

Definition demo_module : module_run := mk_run
  [CallHostExecutable (lit "git") [VStr (lit "/usr//bin/git"); VStr (lit "/usr/bin/./git")];
   CallPrefixRule demo_pattern None (Some [VStr (lit "git diff -w"); VStr (lit "/usr/bin/git status")])
     (Some [VStr (lit "git push"); VStr (lit "/tmp/git status")]) None None] None.

Definition demo_parse : demo_builder * res Error unit :=
  parse None None demo_split (fun _ => None) (fun _ => []) (fun _ => []) [] (fun _ => [])
    (fun _ _ => inr demo_module) builder_new [] [].

Example demo_parse_ok :
  demo_parse.2 = Ok tt /\
  builder_host_executables demo_parse.1 !! lit "git" = Some [components (lit "/usr/bin/git")].
Proof. vm_compute. done. Qed.

Lemma prefix_rule_semantics_witness :
  exists b' : demo_builder, prefix_rule demo_split builder_new demo_pattern None None None None None = Ok b' /\
  exists ev ev',
    check None None (build (builder_new : demo_builder)) (words "git diff") ask = Ok ev /\
    check None None (build b') (words "git diff") ask = Ok ev' /\
    ruled ev' = join_decisions (ruled ev) (Some Allow).
Proof.
  destruct (prefix_rule demo_split (builder_new : demo_builder) demo_pattern None None None None None)
    as [b'|e| |] eqn:E; [|vm_compute in E; discriminate E..].
  destruct (prefix_rule_semantics None None demo_split _ _ _ _ _ _ _ _ E)
    as (dec & tokens & Hd & Ht & Hall).
  injection Hd as <-. vm_compute in Ht. injection Ht as <-.
  destruct (Hall (words "git diff") ask) as (ev & ev' & Hev & Hev' & Hyes & _).
  exists b'. split; [reflexivity|]. exists ev, ev'. split; [exact Hev|]. split; [exact Hev'|].
  apply Hyes. exists (words "git diff"), []. split; [reflexivity|].
  constructor; [by left|]. constructor; [right; by left|constructor].
Defined.

Lemma parse_enforces_examples_witness :
  exists run new,
    @inr str module_run demo_module = inr run /\
    pending_example_validations demo_parse.1 = [] ++ new /\
    Forall2 (records demo_split) (omap examples_of (calls run)) new /\
    Forall (examples_hold None None demo_parse.1) new.
Proof.
  pose proof (parse_enforces_examples None None demo_split (fun _ => None) (fun _ => []) (fun _ => [])
    [] (fun _ => []) (fun _ _ => inr demo_module) (builder_new : demo_builder) [] []) as Hp.
  fold demo_parse in Hp.
  assert (demo_parse.2 = Ok tt) as Hok by (vm_compute; reflexivity).
  destruct demo_parse as [b' r]. destruct Hp as [_ Hp]. exact (Hp Hok).
Defined.

Lemma host_executable_spec_witness :
  exists b' : demo_builder,
    host_executable None None [] builder_new (lit "git") [VStr (lit "/usr//bin/git")] = Ok b' /\
    exists listed, build b' = set_host_executable_paths (build builder_new) (lit "git") listed /\
      components (lit "/usr/bin/git") ∈ listed.
Proof.
  destruct (host_executable None None [] (builder_new : demo_builder) (lit "git")
    [VStr (lit "/usr//bin/git")]) as [b'|e| |] eqn:E; [|vm_compute in E; discriminate E..].
  destruct (host_executable_spec None None [] _ _ _ _ E) as (_ & listed & Hb & _ & _ & Hin).
  exists b'. split; [reflexivity|]. exists listed. split; [exact Hb|].
  apply Hin. exists (lit "/usr//bin/git"). split; [by left|reflexivity].
Defined.
