(* ===== verification/Amend.v ===== *)
(** * Amending a policy file ([execpolicy/src/amend.rs])

    Rendering of a rule and its appending to a policy file.  The file and its
    directory are a small state; every system call may fail, and a failed write
    may have written a part of its text. *)

From S2P Require Export ExecPolicy.

(** The system calls, in the order of the code. *)
Inductive AmendStep := CreateDir | OpenFile | LockFile | SeekFile | ReadFile | WriteNewline | WriteLine.

(** A failure of a call: its error and how much of the text a write wrote. *)
Inductive io_kind := AlreadyExists | OtherKind.
Record io_fault := mk_fault { fault_kind : io_kind; fault_message : str; written : nat }.

Record Disk := mk_disk { dir_present : bool; policy_file : option str }.

Inductive AmendError :=
| EmptyPrefix
| InvalidNetworkRule (message : str)
| MissingParent (path : path)
| CreatePolicyDir (dir : path) (source : io_fault)
| SerializePrefix
| SerializeNetworkRule
| OpenPolicyFile (path : path) (source : io_fault)
| WritePolicyFile (path : path) (source : io_fault)
| LockPolicyFile (path : path) (source : io_fault)
| SeekPolicyFile (path : path) (source : io_fault)
| ReadPolicyFile (path : path) (source : io_fault).

Section amend.
Variable io : AmendStep -> option io_fault.
(** [serde_json::to_string] of a string. *)
Variable to_json : str -> option str.
(** The text of a rule error. *)
Variable error_message : Error -> str.

(** [write_all] in append mode. *)
Definition write_all (step : AmendStep) (contents text : str) : str * option io_fault :=
  match io step with
  | None => (contents ++ text, None)
  | Some fault => (contents ++ take (written fault) text, Some fault)
  end.

Definition append_locked_line (policy_path : path) (d : Disk) (line : str) : Disk * (unit + AmendError) :=
  match io OpenFile with
  | Some e => (d, inr (OpenPolicyFile policy_path e))
  | None =>
    let contents := default [] (policy_file d) in
    let with_file c := mk_disk (dir_present d) (Some c) in
    match io LockFile with
    | Some e => (with_file contents, inr (LockPolicyFile policy_path e))
    | None =>
      match io SeekFile with
      | Some e => (with_file contents, inr (SeekPolicyFile policy_path e))
      | None =>
        match io ReadFile with
        | Some e => (with_file contents, inr (ReadPolicyFile policy_path e))
        | None =>
          if existsb (fun existing => str_eqb existing line) (lines contents)
          then (with_file contents, inl tt)
          else
            let '(c, e) :=
              match contents with
              | [] => (contents, None)
              | _ => if ends_with [NL] contents then (contents, None)
                     else write_all WriteNewline contents [NL]
              end in
            match e with
            | Some e => (with_file c, inr (WritePolicyFile policy_path e))
            | None =>
              let '(c, e) := write_all WriteLine c (line ++ [NL]) in
              (with_file c,
               match e with Some e => inr (WritePolicyFile policy_path e) | None => inl tt end)
            end
        end
      end
    end
  end.

Definition append_rule_line (policy_path : path) (d : Disk) (rule : str) : Disk * (unit + AmendError) :=
  match parent policy_path with
  | None => (d, inr (MissingParent policy_path))
  | Some dir =>
    let created :=
      match io CreateDir with
      | Some e => match fault_kind e with AlreadyExists => inl d | OtherKind => inr e end
      | None => inl (mk_disk true (policy_file d))
      end in
    match created with
    | inr e => (d, inr (CreatePolicyDir dir e))
    | inl d => append_locked_line policy_path d rule
    end
  end.

Definition prefix_rule_line (tokens : list str) : str :=
  lit "prefix_rule(pattern=[" ++ join (lit ", ") tokens ++ lit "], decision=" ++
  [DQUOTE] ++ lit "allow" ++ [DQUOTE] ++ lit ")".

Definition blocking_append_allow_prefix_rule (policy_path : path) (d : Disk) (prefix : list str)
    : Disk * (unit + AmendError) :=
  match prefix with
  | [] => (d, inr EmptyPrefix)
  | _ =>
    match mapM to_json prefix with
    | None => (d, inr SerializePrefix)
    | Some tokens => append_rule_line policy_path d (prefix_rule_line tokens)
    end
  end.

Definition decision_word (d : Decision) : str :=
  match d with Allow => lit "allow" | Prompt => lit "prompt" | Forbidden => lit "deny" end.

Definition blocking_append_network_rule (policy_path : path) (d : Disk) (host : str)
    (protocol : NetworkRuleProtocol) (decision : Decision) (justification : option str)
    : Disk * (unit + AmendError) :=
  match normalize_network_rule_host host with
  | Ok host =>
    if blank_justification justification
    then (d, inr (InvalidNetworkRule (lit "justification cannot be empty")))
    else
      let args :=
        host ← to_json host;
        protocol ← to_json (as_policy_string protocol);
        decision ← to_json (decision_word decision);
        justification ← match justification with
                        | Some j => (fun j => [lit "justification=" ++ j]) <$> to_json j
                        | None => Some []
                        end;
        Some ([lit "host=" ++ host; lit "protocol=" ++ protocol; lit "decision=" ++ decision]
              ++ justification) in
      match args with
      | None => (d, inr SerializeNetworkRule)
      | Some args => append_rule_line policy_path d (lit "network_rule(" ++ join (lit ", ") args ++ lit ")")
      end
  | Err e => (d, inr (InvalidNetworkRule (error_message e)))
  | Panic | NoFuel => (d, inr (InvalidNetworkRule []))
  end.
End amend.

(** ** Lines of a file that grows *)

Lemma lines_of_app ps qs :
  ps <> [] -> qs <> [] -> lines_of (ps ++ qs) = (chomp_cr <$> ps) ++ lines_of qs.
Proof.
  intros Hp Hq. induction ps as [|p ps IH]; [done|]. destruct ps as [|p' ps].
  - destruct qs; [done|]. done.
  - change (lines_of ((p :: p' :: ps) ++ qs)) with (chomp_cr p :: lines_of ((p' :: ps) ++ qs)).
    rewrite IH by done. done.
Qed.

Lemma split_app_nl a b : split NL (a ++ NL :: b) = split NL a ++ split NL b.
Proof.
  induction a as [|c a IH]; cbn [app split]; [done|].
  destruct (c =? NL)%N; [by rewrite IH|]. rewrite IH.
  destruct (split NL a) as [|h t] eqn:E; [by apply split_ne_nil in E|]. done.
Qed.

(** A text that ends its last line is followed by the lines of the rest. *)
Lemma lines_app_nl a b : lines (a ++ NL :: b) = lines (a ++ [NL]) ++ lines b.
Proof.
  unfold lines. rewrite !split_app_nl. rewrite !lines_of_app by (done || apply split_ne_nil).
  cbn. by rewrite app_nil_r.
Qed.

Lemma lines_one line : NL ∉ line -> lines (line ++ [NL]) = [chomp_cr line].
Proof. intros Hl. unfold lines. rewrite split_app_nl, split_no_sep by done. done. Qed.

(** Ending the last line does not change the lines, a carriage return apart. *)
Lemma lines_ended a : last a <> Some CR -> ends_with [NL] a = false -> a <> [] -> lines (a ++ [NL]) = lines a.
Proof.
  intros Hcr Hnl Hne. unfold lines. rewrite split_app_nl, lines_of_app by (done || apply split_ne_nil).
  cbn [split lines_of]. rewrite app_nil_r.
  pose proof (join_split NL a) as Hj. pose proof (split_ne_nil NL a) as Hs.
  destruct (split NL a) as [|x ps _] using rev_ind; [done|].
  assert (x <> []) as Hx.
  { intros ->. destruct ps as [|y ps]; [by cbn in Hj; subst|].
    rewrite join_snoc_nil in Hj by done. rewrite <- Hj in Hnl.
    unfold ends_with in Hnl. by rewrite (proj2 (strip_suffix_Some [NL] _ (join [NL] (y :: ps)))) in Hnl. }
  assert (chomp_cr x = x) as Hcx.
  { apply chomp_cr_id. intros Hl. apply Hcr. rewrite <- Hj.
    destruct ps as [|y ps]; [done|]. destruct (join_ends [NL] y ps x) as [m Hm]. cbn [app] in *. rewrite Hm.
    rewrite app_assoc. apply last_Some in Hl as [l' ->]. by rewrite app_assoc, last_snoc. }
  rewrite fmap_app. cbn [fmap list_fmap]. rewrite Hcx.
  destruct ps as [|y ps]; [by destruct x|]. rewrite lines_of_app by done. cbn. by destruct x.
Qed.

(** ** Appending *)

Definition text_of (d : Disk) : str := default [] (policy_file d).

Lemma has_line contents line :
  existsb (fun existing => str_eqb existing line) (lines contents) = true <-> line ∈ lines contents.
Proof.
  rewrite existsb_exists. setoid_rewrite <- list_elem_of_In. split.
  - intros (x & Hx & ->%str_eqb_eq). done.
  - intros Hl. exists line. by rewrite str_eqb_refl.
Qed.

(** The text before a new line: ended when it was not. *)
Definition ended (contents : str) : str :=
  match contents with
  | [] => []
  | _ => if ends_with [NL] contents then contents else contents ++ [NL]
  end.

Lemma ended_lines contents line :
  line_ok line -> lines (ended contents ++ line ++ [NL]) = lines (ended contents) ++ [line].
Proof.
  intros [Hnl Hcr]. assert (lines (line ++ [NL]) = [line]) as Hone
    by (rewrite lines_one, chomp_cr_id by done; done).
  unfold ended. destruct contents as [|c s]; [done|].
  assert (exists a, (if ends_with [NL] (c :: s) then c :: s else (c :: s) ++ [NL]) = a ++ [NL]) as [a ->].
  { destruct (ends_with [NL] (c :: s)) eqn:E; [|by eexists]. unfold ends_with in E.
    destruct (strip_suffix [NL] (c :: s)) as [a|] eqn:Es; [|done].
    apply strip_suffix_Some in Es as ->. by exists a. }
  rewrite <- app_assoc. cbn [app]. rewrite lines_app_nl. by rewrite Hone.
Qed.

Lemma lines_of_ended contents : last contents <> Some CR -> lines (ended contents) = lines contents.
Proof.
  intros Hl. unfold ended. destruct contents as [|c s]; [done|].
  destruct (ends_with [NL] (c :: s)) eqn:E; [done|]. by apply lines_ended.
Qed.

Lemma append_spec io policy_path d line d' r :
  append_locked_line io policy_path d line = (d', r) ->
  text_of d `prefix_of` text_of d' /\
  (r = inl tt ->
     (line ∈ lines (text_of d) /\ text_of d' = text_of d) \/
     (line ∉ lines (text_of d) /\ text_of d' = ended (text_of d) ++ line ++ [NL])).
Proof.
  unfold append_locked_line. fold (text_of d). cbv zeta.
  destruct (io OpenFile); [by intros [= <- <-]|]. destruct (io LockFile); [by intros [= <- <-]|].
  destruct (io SeekFile); [by intros [= <- <-]|]. destruct (io ReadFile); [by intros [= <- <-]|].
  destruct (existsb _ _) eqn:El.
  { intros [= <- <-]. split; [done|]. intros _. left. by apply has_line in El. }
  assert (line ∉ lines (text_of d)) as Hno by (intros Hin%has_line; congruence).
  set (first := match text_of d with [] => _ | _ => _ end).
  assert (first = (ended (text_of d), None) \/
    exists e, io WriteNewline = Some e /\ first = (text_of d ++ take (written e) [NL], Some e)) as Hfirst.
  { subst first. unfold ended, write_all. destruct (text_of d) as [|c t]; [by left|].
    destruct (ends_with [NL] (c :: t)); [by left|]. destruct (io WriteNewline); [right; eauto|by left]. }
  destruct Hfirst as [->|(e & _ & ->)]; [|intros [= <- <-]; split; [by eexists|done]].
  assert (text_of d `prefix_of` ended (text_of d)) as Hpre.
  { unfold ended. repeat case_match; [done|done|by eexists]. }
  unfold write_all. destruct (io WriteLine) as [e|]; intros [= <- <-]; cbn.
  - split; [|done]. etrans; [exact Hpre|by eexists].
  - split; [etrans; [exact Hpre|by eexists]|]. intros _. by right.
Qed.

(** C27: appending a rule line never damages the policy file.  Whatever call
    fails, the old text stays in front.  On success the line is a line of the
    file: the file is unchanged when it had the line, and otherwise has the old
    lines (the last one ended if it was not) followed by the new one, so that
    appending the line again changes nothing. *)
Theorem amend_appends_once io policy_path d line d' r :
  line_ok line -> append_rule_line io policy_path d line = (d', r) ->
  text_of d `prefix_of` text_of d' /\
  (r = inl tt ->
     lines (text_of d') =
       (if decide (line ∈ lines (text_of d)) then lines (text_of d) else lines (ended (text_of d)) ++ [line]) /\
     line ∈ lines (text_of d') /\
     append_rule_line io policy_path d' line = (d', inl tt)).
Proof.
  intros Hline. unfold append_rule_line. destruct (parent policy_path) as [dir|]; [|by intros [= <- <-]].
  set (created := match io CreateDir with Some e => _ | None => _ end).
  assert (forall d0, text_of d0 = text_of d -> append_locked_line io policy_path d0 line = (d', r) ->
    text_of d `prefix_of` text_of d' /\
    (r = inl tt ->
      lines (text_of d') =
       (if decide (line ∈ lines (text_of d)) then lines (text_of d) else lines (ended (text_of d)) ++ [line]) /\
      line ∈ lines (text_of d') /\ append_locked_line io policy_path d' line = (d', inl tt) /\
      dir_present d' = dir_present d0)) as Hcore.
  { intros d0 Hd0 Happ. pose proof (append_spec io policy_path d0 line d' r Happ) as [Hpre Hok].
    rewrite Hd0 in *. split; [done|]. intros ->.
    assert (line ∈ lines (text_of d') /\ lines (text_of d') =
      (if decide (line ∈ lines (text_of d)) then lines (text_of d) else lines (ended (text_of d)) ++ [line]))
      as [Hin Hlines].
    { destruct (Hok eq_refl) as [[Hin Heq]|[Hno Heq]]; rewrite Heq.
      - by rewrite decide_True.
      - rewrite decide_False, ended_lines by done. split; [|done].
        apply elem_of_app. right. by left. }
    split_and!; [done..| |].
    - revert Happ. unfold append_locked_line. fold (text_of d0) (text_of d'). cbv zeta.
      destruct (io OpenFile); [done|]. destruct (io LockFile); [done|]. destruct (io SeekFile); [done|].
      destruct (io ReadFile); [done|]. intros Happ. rewrite (proj2 (has_line _ _) Hin). f_equal.
      destruct d' as [pres [c|]]; [done|]. exfalso. clear -Happ.
      repeat case_match; simplify_eq.
    - revert Happ. unfold append_locked_line. cbv zeta. repeat case_match; intros [= <-]; done. }
  destruct created as [d0|e] eqn:Ec; [|by intros [= <- <-]]. intros Happ.
  assert (text_of d0 = text_of d) as Hd0.
  { subst created. unfold text_of. repeat case_match; by simplify_eq. }
  destruct (Hcore d0 Hd0 Happ) as [Hpre Hok]. split; [done|]. intros Hr.
  destruct (Hok Hr) as (Hlines & Hin & Hagain & Hdir). split_and!; [done..|].
  subst created. destruct (io CreateDir) as [e|].
  - destruct (fault_kind e); [done|done].
  - injection Ec as <-. destruct d' as [pres f]. cbn in Hdir. subst pres. exact Hagain.
Qed.

Lemma amend_appends_once_witness :
  lines (text_of (append_rule_line (fun _ => None) [RootDir; Normal (lit "rules"); Normal (lit "default.rules")]
    (mk_disk false (Some (lit "a"))) (lit "b")).1) = [lit "a"; lit "b"].
Proof.
  destruct (append_rule_line (fun _ => None) [RootDir; Normal (lit "rules"); Normal (lit "default.rules")]
    (mk_disk false (Some (lit "a"))) (lit "b")) as [d' r] eqn:E.
  assert (line_ok (lit "b")) as Hl by (split; by apply (bool_decide_unpack _)).
  destruct (amend_appends_once _ _ _ _ _ _ Hl E) as [_ Hok].
  assert (r = inl tt) as Hr by (vm_compute in E; by injection E as _ <-).
  destruct (Hok Hr) as [Hlines _]. cbn [fst]. rewrite Hlines. by vm_compute.
Defined.
