(* ===== verification/StreamText.v ===== *)
(** * Streamed text with hidden inline tags ([utils/stream-parser])

    The interface of the incremental text parsers ([stream_text.rs]), the
    parser that hides inline tags ([inline_hidden_tag.rs]) and its use for
    citations ([citation.rs]).  Positions count characters where the code
    counts the bytes of the same prefixes; tag lengths are compared in bytes as
    in the code. *)

From S2P Require Export RustStr.

(** ** The interface ([stream_text.rs]) *)

Record StreamTextChunk (T : Type) := mk_text_chunk {
  visible_text : str;
  extracted : list T
}.
Arguments mk_text_chunk {T}.
Arguments visible_text {T}.
Arguments extracted {T}.

Definition chunk_default {T} : StreamTextChunk T := mk_text_chunk [] [].

(** Output of two calls, one after the other. *)
Definition chunk_app {T} (a b : StreamTextChunk T) : StreamTextChunk T :=
  mk_text_chunk (visible_text a ++ visible_text b) (extracted a ++ extracted b).

(** A parser's state with its two operations. *)
Class StreamTextParser (P T : Type) := {
  push_str : P -> str -> res Empty_set (P * StreamTextChunk T);
  finish : P -> P * StreamTextChunk T
}.

(** What clients may rely on: from a state the parser can be in, a push returns
    and cutting the text differently changes neither the state nor the output,
    up to the merging [norm] of adjacent payloads. *)
Class StreamTextLaws (P T : Type) `{StreamTextParser P T} := {
  stream_inv : P -> Prop;
  norm : list T -> list T;
  push_returns p s : stream_inv p -> exists p' out, push_str p s = Ok (p', out) /\ stream_inv p';
  push_nil p : stream_inv p -> push_str p [] = Ok (p, chunk_default);
  push_app p a b p1 o1 p2 o2 :
    stream_inv p -> push_str p a = Ok (p1, o1) -> push_str p1 b = Ok (p2, o2) ->
    exists o, push_str p (a ++ b) = Ok (p2, o) /\
      visible_text o = visible_text o1 ++ visible_text o2 /\
      norm (extracted o) = norm (extracted o1 ++ extracted o2);
  norm_app x y : norm (x ++ y) = norm (norm x ++ norm y)
}.

(** Pushing several pieces and collecting the output. *)
Fixpoint push_pieces {P T} `{StreamTextParser P T} (p : P) (pieces : list str)
    : res Empty_set (P * StreamTextChunk T) :=
  match pieces with
  | [] => Ok (p, chunk_default)
  | s :: pieces =>
    let? r := push_str p s in
    let '(p, out) := r in
    let? r := push_pieces p pieces in
    let '(p, rest) := r in
    Ok (p, chunk_app out rest)
  end.

Section laws.
Context {P T : Type} `{StreamTextLaws P T}.

Lemma push_pieces_concat p pieces :
  stream_inv p ->
  exists p' o o', push_pieces p pieces = Ok (p', o) /\ push_str p (concat pieces) = Ok (p', o') /\
    visible_text o = visible_text o' /\ norm (extracted o) = norm (extracted o') /\ stream_inv p'.
Proof.
  revert p. induction pieces as [|s pieces IH]; intros p Hp; cbn [push_pieces concat].
  { exists p, chunk_default, chunk_default. by rewrite push_nil. }
  destruct (push_returns p s Hp) as (p1 & o1 & E1 & Hp1). rewrite E1. cbn [res_bind].
  destruct (IH p1 Hp1) as (p2 & o2 & o2' & E2 & E2' & Hv & Hn & Hp2). rewrite E2. cbn [res_bind].
  destruct (push_app p s (concat pieces) p1 o1 p2 o2' Hp E1 E2') as (o & Eo & Hov & Hon).
  exists p2, (chunk_app o1 o2), o. split_and!; [done..| | |done]; simpl.
  - by rewrite Hov, Hv.
  - by rewrite Hon, norm_app, Hn, <- norm_app.
Qed.
End laws.

(** ** Inline tags ([inline_hidden_tag.rs]) *)

Record ExtractedInlineTag (T : Type) := mk_extracted { extracted_tag : T; content : str }.
Arguments mk_extracted {T}.
Arguments extracted_tag {T}.
Arguments content {T}.

Record InlineTagSpec (T : Type) := mk_spec { spec_tag : T; open : str; close : str }.
Arguments mk_spec {T}.
Arguments spec_tag {T}.
Arguments open {T}.
Arguments close {T}.

Record ActiveTag (T : Type) := mk_active { active_tag_of : T; active_close : str; active_content : str }.
Arguments mk_active {T}.
Arguments active_tag_of {T}.
Arguments active_close {T}.
Arguments active_content {T}.

Record InlineHiddenTagParser (T : Type) := mk_inline {
  specs : list (InlineTagSpec T);
  pending : str;
  active : option (ActiveTag T)
}.
Arguments mk_inline {T}.
Arguments specs {T}.
Arguments pending {T}.
Arguments active {T}.

(** [for k in (1..=max).rev()] *)
Fixpoint suffix_prefix_from (s needle : str) (k : nat) : nat :=
  match k with
  | 0 => 0
  | S k' => if ends_with (take k needle) s then k else suffix_prefix_from s needle k'
  end.

Definition longest_suffix_prefix_len (s needle : str) : nat :=
  suffix_prefix_from s needle (Nat.min (length s) (length needle - 1)).

Section inline.
Context {T : Type}.

(** [InlineHiddenTagParser::new] asserts that there are specs and that no
    delimiter is empty. *)
Definition inline_new (l : list (InlineTagSpec T)) : res Empty_set (InlineHiddenTagParser T) :=
  match l with
  | [] => Panic
  | _ =>
    if existsb (fun s => match open s, close s with [], _ | _, [] => true | _, _ => false end) l
    then Panic
    else Ok (mk_inline l [] None)
  end.

(** The order of [min_by]: position, then longer opener, then index. *)
Definition candidate_lt (a b : nat * nat * nat) : bool :=
  let '(pos_a, len_a, idx_a) := a in
  let '(pos_b, len_b, idx_b) := b in
  (pos_a <? pos_b) ||
  ((pos_a =? pos_b) && ((len_b <? len_a) || ((len_a =? len_b) && (idx_a <? idx_b)))).

Definition min_by_candidate (l : list (nat * nat * nat)) : option (nat * nat * nat) :=
  match l with
  | [] => None
  | x :: l => Some (foldl (fun best c => if candidate_lt c best then c else best) x l)
  end.

Definition find_next_open (l : list (InlineTagSpec T)) (pending : str) : option (nat * nat) :=
  (fun '(pos, _, idx) => (pos, idx)) <$>
  min_by_candidate
    (omap (fun '(idx, spec) => (fun pos => (pos, str_len (open spec), idx)) <$> find (open spec) pending)
       (imap pair l)).

Definition max_open_prefix_suffix_len (l : list (InlineTagSpec T)) (pending : str) : nat :=
  max_list ((fun spec => longest_suffix_prefix_len pending (open spec)) <$> l).

Definition push_visible (out : StreamTextChunk (ExtractedInlineTag T)) (s : str)
    : StreamTextChunk (ExtractedInlineTag T) :=
  mk_text_chunk (visible_text out ++ s) (extracted out).

Definition push_extracted (out : StreamTextChunk (ExtractedInlineTag T)) (e : ExtractedInlineTag T)
    : StreamTextChunk (ExtractedInlineTag T) :=
  mk_text_chunk (visible_text out) (extracted out ++ [e]).

(** The [loop] of [push_str]; every [continue] has removed a delimiter from
    [pending]. *)
Fixpoint inline_loop (fuel : nat) (l : list (InlineTagSpec T)) (pending : str)
    (active : option (ActiveTag T)) (out : StreamTextChunk (ExtractedInlineTag T))
    : res Empty_set (str * option (ActiveTag T) * StreamTextChunk (ExtractedInlineTag T)) :=
  match fuel with
  | 0 => NoFuel
  | S fuel =>
    match active with
    | Some a =>
      let close := active_close a in
      match find close pending with
      | Some close_idx =>
        inline_loop fuel l (drop (close_idx + length close) pending) None
          (push_extracted out
             (mk_extracted (active_tag_of a) (active_content a ++ take close_idx pending)))
      | None =>
        let keep := longest_suffix_prefix_len pending close in
        let taken := length pending - keep in
        Ok (drop taken pending,
            Some (mk_active (active_tag_of a) close (active_content a ++ take taken pending)), out)
      end
    | None =>
      match find_next_open l pending with
      | Some (open_idx, spec_idx) =>
        let? spec := from_opt (l !! spec_idx) in
        inline_loop fuel l (drop (open_idx + length (open spec)) pending)
          (Some (mk_active (spec_tag spec) (close spec) []))
          (push_visible out (take open_idx pending))
      | None =>
        let keep := max_open_prefix_suffix_len l pending in
        let taken := length pending - keep in
        Ok (drop taken pending, None, push_visible out (take taken pending))
      end
    end
  end.

Definition inline_push_str (p : InlineHiddenTagParser T) (chunk : str)
    : res Empty_set (InlineHiddenTagParser T * StreamTextChunk (ExtractedInlineTag T)) :=
  let pending := pending p ++ chunk in
  let? r := inline_loop (S (length pending)) (specs p) pending (active p) chunk_default in
  let '(pending, active, out) := r in
  Ok (mk_inline (specs p) pending active, out).

Definition inline_finish (p : InlineHiddenTagParser T)
    : InlineHiddenTagParser T * StreamTextChunk (ExtractedInlineTag T) :=
  (mk_inline (specs p) [] None,
   match active p with
   | Some a => mk_text_chunk [] [mk_extracted (active_tag_of a) (active_content a ++ pending p)]
   | None => mk_text_chunk (pending p) []
   end).

#[export] Instance inline_parser : StreamTextParser (InlineHiddenTagParser T) (ExtractedInlineTag T) := {
  push_str := inline_push_str;
  finish := inline_finish
}.
End inline.

(** ** Citations ([citation.rs]) *)

Definition CITATION_OPEN : str := lit "<oai-mem-citation>".
Definition CITATION_CLOSE : str := lit "</oai-mem-citation>".

Record CitationStreamParser := mk_citation { citation_inner : InlineHiddenTagParser unit }.

Definition citation_new : CitationStreamParser :=
  mk_citation (mk_inline [mk_spec tt CITATION_OPEN CITATION_CLOSE] [] None).

Definition citation_chunk (c : StreamTextChunk (ExtractedInlineTag unit)) : StreamTextChunk str :=
  mk_text_chunk (visible_text c) (content <$> extracted c).

#[export] Instance citation_parser : StreamTextParser CitationStreamParser str := {
  push_str p chunk :=
    let? r := inline_push_str (citation_inner p) chunk in
    let '(inner, out) := r in Ok (mk_citation inner, citation_chunk out);
  finish p :=
    let '(inner, out) := inline_finish (citation_inner p) in (mk_citation inner, citation_chunk out)
}.

Definition strip_citations (text : str) : res Empty_set (str * list str) :=
  let? r := push_str citation_new text in
  let '(parser, out) := r in
  let '(_, tail) := finish parser in
  Ok (visible_text out ++ visible_text tail, extracted out ++ extracted tail).

Example citation_examples :
  inline_new [mk_spec tt CITATION_OPEN CITATION_CLOSE] = Ok (citation_inner citation_new) /\
  strip_citations (lit "a<oai-mem-citation>x<oai-mem-citation>y</oai-mem-citation>z</oai-mem-citation>b")
    = Ok (lit "az</oai-mem-citation>b", [lit "x<oai-mem-citation>y"]) /\
  strip_citations (lit "x<oai-mem-citation>y") = Ok (lit "x", [lit "y"]) /\
  strip_citations (lit "hello <oai-mem-") = Ok (lit "hello <oai-mem-", []).
Proof. vm_compute. done. Qed.

(** ** Splitting around a delimiter *)

(** No copy of [o] starts in [a] when [s] follows, and none may once more text
    follows. *)
Definition cut (o a s : str) : Prop :=
  forall a1 a2, a = a1 ++ a2 -> a2 <> [] -> ~ (o `prefix_of` a2 ++ s) /\ ~ (a2 ++ s `prefix_of` o).

Definition prepend (a : str) (r : option (str * str)) : option (str * str) :=
  (fun '(x, y) => (a ++ x, y)) <$> r.

Lemma strip_prefix_None o s : strip_prefix o s = None <-> ~ (o `prefix_of` s).
Proof.
  split.
  - intros E [r ->]. by rewrite strip_prefix_app in E.
  - intros Hn. destruct (strip_prefix o s) as [r|] eqn:E; [|done].
    apply strip_prefix_Some in E as ->. destruct Hn. by eexists.
Qed.

Lemma cut_tail o c a s : cut o (c :: a) s -> cut o a s.
Proof. intros Hc a1 a2 ->. by apply (Hc (c :: a1) a2). Qed.

Lemma split_once_cut o a s : cut o a s -> split_once o (a ++ s) = prepend a (split_once o s).
Proof.
  induction a as [|c a IH]; intros Hc; simpl.
  - by destruct (split_once o s) as [[]|].
  - destruct (Hc [] (c :: a)) as [Hn _]; [done..|].
    change (c :: a ++ s) with ((c :: a) ++ s).
    rewrite (proj2 (strip_prefix_None o _) Hn), IH by (by eapply cut_tail).
    by destruct (split_once o s) as [[]|].
Qed.

Lemma find_split o s : find o s = (fun '(a, _) => length a) <$> split_once o s.
Proof.
  induction s as [|c s IH]; cbn [find split_once]; unfold starts_with;
    destruct (strip_prefix o _); try done.
  rewrite IH. by destruct (split_once o s) as [[]|].
Qed.

Lemma find_Some_split o s i :
  find o s = Some i ->
  exists a b, split_once o s = Some (a, b) /\ take i s = a /\ drop (i + length o) s = b.
Proof.
  rewrite find_split. intros ([a b] & E & ->)%fmap_Some. exists a, b. split; [done|].
  apply split_once_parts in E as ->. rewrite take_app_length, <- drop_drop, drop_app_length.
  by rewrite drop_app_length.
Qed.

Lemma find_None_split o s : find o s = None <-> split_once o s = None.
Proof. rewrite find_split. by rewrite fmap_None. Qed.

Lemma split_once_None_infix o s a1 a2 :
  split_once o s = None -> s = a1 ++ a2 -> ~ (o `prefix_of` a2).
Proof.
  intros E ->. revert E. induction a1 as [|c a1 IH]; simpl.
  - destruct a2; simpl; destruct (strip_prefix o _) eqn:E; try done; intros _;
      by apply strip_prefix_None in E.
  - destruct (strip_prefix o _); [done|].
    destruct (split_once o (a1 ++ a2)) as [[]|] eqn:E; [done|]. auto.
Qed.

Lemma split_once_extend o s a b u :
  split_once o s = Some (a, b) -> split_once o (s ++ u) = Some (a, b ++ u).
Proof.
  revert a. induction s as [|c s IH]; intros a; simpl.
  - destruct (strip_prefix o []) as [r|] eqn:E; [|done]. intros [= <- <-].
    apply strip_prefix_Some in E. symmetry in E. apply app_nil in E as [-> ->].
    destruct u; done.
  - destruct (strip_prefix o (c :: s)) as [r|] eqn:E.
    + intros [= <- <-]. apply strip_prefix_Some in E.
      change (c :: s ++ u) with ((c :: s) ++ u). by rewrite E, <- app_assoc, strip_prefix_app.
    + destruct (split_once o s) as [[a' b']|] eqn:Es; [|done]. intros [= <- <-].
      rewrite (IH a' eq_refl).
      rewrite (proj2 (strip_prefix_None o (c :: s ++ u))); [done|].
      apply strip_prefix_None in E. intros Hp. apply E.
      apply split_once_parts in Es. change (c :: s ++ u) with ((c :: s) ++ u) in Hp.
      destruct Hp as [r Hr]. exists (take (length (c :: s) - length o) r).
      assert (length o <= length (c :: s)) by (rewrite Es; simpl; rewrite !length_app; lia).
      apply (f_equal (take (length (c :: s)))) in Hr. rewrite take_app_length in Hr.
      rewrite Hr at 1. rewrite take_app_ge by done. done.
Qed.

(** ** The part of the text that is kept back *)

(** [k] is the longest end of [s] that starts [o]. *)
Definition kept (o s a k : str) : Prop :=
  s = a ++ k /\ k `prefix_of` o /\ length k < length o /\
  forall a' k', s = a' ++ k' -> k' `prefix_of` o -> length k' < length o -> length k' <= length k.

Lemma kept_unique o s a k a' k' : kept o s a k -> kept o s a' k' -> a = a' /\ k = k'.
Proof.
  intros (E & Hp & Hl & Hm) (E' & Hp' & Hl' & Hm').
  assert (length k = length k') as Hlen by (apply Nat.le_antisymm; eauto).
  rewrite E in E'. apply app_inj_2 in E' as [-> ->]; done.
Qed.

Lemma suffix_prefix_from_spec s o n :
  let k := suffix_prefix_from s o n in
  k <= n /\ ends_with (take k o) s = true /\ forall j, k < j <= n -> ends_with (take j o) s = false.
Proof.
  assert (ends_with [] s = true) as Hnil.
  { unfold ends_with. by rewrite (proj2 (strip_suffix_Some [] s s)) by (by rewrite app_nil_r). }
  induction n as [|n IH]; cbn [suffix_prefix_from].
  { split_and!; [done|done|lia]. }
  destruct (ends_with (take (S n) o) s) eqn:E.
  - split_and!; [lia|done|lia].
  - destruct IH as (H1 & H2 & H3). split_and!; [lia|done|]. intros j Hj.
    destruct (decide (j = S n)) as [->|]; [done|]. apply H3. lia.
Qed.

Lemma ends_with_true p s : ends_with p s = true <-> exists a, s = a ++ p.
Proof.
  unfold ends_with. destruct (strip_suffix p s) as [a|] eqn:E.
  - apply strip_suffix_Some in E. split; [eauto|done].
  - split; [done|]. intros [a Ha]. apply strip_suffix_Some in Ha. congruence.
Qed.

Lemma longest_kept o s :
  o <> [] ->
  let k := longest_suffix_prefix_len s o in
  kept o s (take (length s - k) s) (drop (length s - k) s).
Proof.
  intros Ho k. unfold longest_suffix_prefix_len in k.
  destruct (suffix_prefix_from_spec s o (Nat.min (length s) (length o - 1))) as (H1 & H2 & H3).
  fold k in H1, H2, H3. apply ends_with_true in H2 as [a Ha].
  assert (0 < length o) by (destruct o; [done|simpl; lia]).
  assert (length (take k o) = k) as Hk by (rewrite length_take; lia).
  assert (length s - k = length a) as Hla by (rewrite Ha, length_app, Hk; lia).
  rewrite Hla, Ha, take_app_length, drop_app_length. split_and!; [done|..].
  - exists (drop k o). by rewrite take_drop.
  - lia.
  - intros a' k' E [r Hr] Hl. rewrite Hk. destruct (decide (length k' <= k)) as [|Hgt]; [done|].
    assert (take (length k') o = k') as Ht by (rewrite Hr; by rewrite take_app_length).
    assert (ends_with (take (length k') o) s = true) as He.
    { apply ends_with_true. exists a'. rewrite Ht, Ha. exact E. }
    assert (length k' <= length s) by (rewrite Ha, E, length_app; lia).
    rewrite H3 in He by lia. done.
Qed.

Lemma kept_longest o s a k :
  kept o s a k -> longest_suffix_prefix_len s o = length k /\ take (length s - length k) s = a /\
    drop (length s - length k) s = k.
Proof.
  intros Hk. pose proof Hk as (E & _ & Hl & _).
  assert (o <> []) as Ho by (destruct o; [simpl in Hl; lia|done]).
  pose proof (longest_kept o s Ho) as Hk'. cbv zeta in Hk'.
  destruct (kept_unique _ _ _ _ _ _ Hk Hk') as [Ea Ek].
  assert (length s - length k = length a) as Hla by (rewrite E, length_app; lia).
  split_and!.
  - apply (f_equal length) in Ek. rewrite length_drop in Ek.
    destruct (suffix_prefix_from_spec s o (Nat.min (length s) (length o - 1))) as (H1 & _).
    unfold longest_suffix_prefix_len in *. lia.
  - rewrite Hla, E. by rewrite take_app_length.
  - rewrite Hla, E. by rewrite drop_app_length.
Qed.

(** What is released can never become part of a delimiter. *)
Lemma kept_cut o s a k u : split_once o s = None -> kept o s a k -> cut o a (k ++ u).
Proof.
  intros Hno (E & Hp & Hl & Hmax) a1 a2 -> Hne.
  assert (~ (o `prefix_of` a2 ++ k)) as H1.
  { eapply split_once_None_infix; [done|]. rewrite E, <- app_assoc. done. }
  assert (~ (a2 ++ k `prefix_of` o)) as H2.
  { intros Hpre. assert (length (a2 ++ k) < length o) as Hlt.
    { destruct (decide (length (a2 ++ k) < length o)) as [|Hge]; [done|]. destruct H1.
      destruct Hpre as [r Hr]. exists []. rewrite app_nil_r. rewrite Hr.
      assert (r = []) as ->; [|by rewrite app_nil_r].
      apply nil_length_inv. apply (f_equal length) in Hr. rewrite length_app in Hr. lia. }
    specialize (Hmax a1 (a2 ++ k)). rewrite E, <- app_assoc in Hmax.
    specialize (Hmax eq_refl Hpre Hlt). rewrite length_app in Hmax. destruct a2; simpl in *; [done|lia]. }
  rewrite app_assoc. split; intros Hpre.
  - destruct (prefix_weak_total o (a2 ++ k) ((a2 ++ k) ++ u)) as [?|?]; [done|by eexists|done..].
  - apply H2. etrans; [|exact Hpre]. by eexists.
Qed.

Lemma kept_app o a s x k : cut o a s -> kept o s x k -> kept o (a ++ s) (a ++ x) k.
Proof.
  intros Hc (E & Hp & Hl & Hmax). split_and!; [by rewrite E, app_assoc|done|done|].
  intros a' k' Ek Hpk Hlk. destruct (decide (length k' <= length s)) as [Hle|Hgt].
  - apply (Hmax (drop (length a) a') k'); [|done..].
    assert (length a <= length a') by (apply (f_equal length) in Ek; rewrite !length_app in Ek; lia).
    apply (f_equal (drop (length a))) in Ek. rewrite drop_app_length in Ek.
    rewrite Ek. rewrite drop_app_le by done. done.
  - exfalso. destruct (Hc (take (length a') a) (drop (length a') a)) as [_ Hn].
    + by rewrite take_drop.
    + intros Hd. apply (f_equal length) in Hd. rewrite length_drop in Hd. simpl in Hd.
      apply (f_equal length) in Ek. rewrite !length_app in Ek. lia.
    + apply Hn. apply (f_equal (drop (length a'))) in Ek. rewrite drop_app_length in Ek.
      rewrite drop_app_le in Ek; [by rewrite Ek|].
      apply (f_equal length) in Ek as Hlen. rewrite length_drop, length_app in Hlen. lia.
Qed.

Lemma kept_exists o s : o <> [] -> exists a k, kept o s a k.
Proof. intros Ho. eexists _, _. by apply longest_kept. Qed.

(** ** A parser for one tag *)

Section one_tag.
Context {T : Type} (spec : InlineTagSpec T).
Context (open_ok : open spec <> []) (close_ok : close spec <> []).

Notation chunk := (StreamTextChunk (ExtractedInlineTag T)).

Lemma find_next_open_one s :
  find_next_open [spec] s = (fun pos => (pos, 0)) <$> find (open spec) s.
Proof. unfold find_next_open. simpl. by destruct (find (open spec) s). Qed.

Lemma max_open_one s : max_open_prefix_suffix_len [spec] s = longest_suffix_prefix_len s (open spec).
Proof. unfold max_open_prefix_suffix_len. simpl. lia. Qed.

(** The delimiter the parser is looking for. *)
Definition wanted (act : option (ActiveTag T)) : str :=
  match act with Some a => active_close a | None => open spec end.

Definition active_ok (act : option (ActiveTag T)) : Prop :=
  match act with Some a => active_close a = close spec /\ active_tag_of a = spec_tag spec | None => True end.

Lemma wanted_ne act : active_ok act -> wanted act <> [].
Proof. destruct act; simpl; [by intros [-> _]|done]. Qed.

(** What becomes of text that is not part of a delimiter. *)
Definition absorb (act : option (ActiveTag T)) (out : chunk) (a : str) : option (ActiveTag T) * chunk :=
  match act with
  | Some x => (Some (mk_active (active_tag_of x) (active_close x) (active_content x ++ a)), out)
  | None => (None, push_visible out a)
  end.

(** What becomes of the delimiter after it. *)
Definition switch (act : option (ActiveTag T)) (out : chunk) (a : str) : option (ActiveTag T) * chunk :=
  match act with
  | Some x => (None, push_extracted out (mk_extracted (active_tag_of x) (active_content x ++ a)))
  | None => (Some (mk_active (spec_tag spec) (close spec) []), push_visible out a)
  end.

Lemma absorb_absorb act out a b :
  absorb (absorb act out a).1 (absorb act out a).2 b = absorb act out (a ++ b).
Proof. destruct act; simpl; unfold push_visible; simpl; by rewrite app_assoc. Qed.

Lemma switch_absorb act out a b :
  switch (absorb act out a).1 (absorb act out a).2 b = switch act out (a ++ b).
Proof. destruct act; simpl; unfold push_visible; simpl; by rewrite app_assoc. Qed.

Lemma wanted_absorb act out a : wanted (absorb act out a).1 = wanted act.
Proof. by destruct act. Qed.

Lemma absorb_ok act out a : active_ok act -> active_ok (absorb act out a).1.
Proof. by destruct act. Qed.

Lemma switch_ok act out a : active_ok (switch act out a).1.
Proof. by destruct act. Qed.

(** One round of the loop. *)
Lemma loop_step n s act out :
  active_ok act ->
  inline_loop (S n) [spec] s act out =
  match split_once (wanted act) s with
  | Some (a, b) => inline_loop n [spec] b (switch act out a).1 (switch act out a).2
  | None =>
    let k := longest_suffix_prefix_len s (wanted act) in
    Ok (drop (length s - k) s, (absorb act out (take (length s - k) s)).1,
        (absorb act out (take (length s - k) s)).2)
  end.
Proof.
  intros Hok. cbn [inline_loop]. destruct act as [x|]; cbn [wanted].
  - destruct (find (active_close x) s) as [i|] eqn:E.
    + apply find_Some_split in E as (a & b & -> & -> & ->). done.
    + apply find_None_split in E as ->. by destruct x.
  - rewrite find_next_open_one, max_open_one. destruct (find (open spec) s) as [i|] eqn:E; simpl.
    + apply find_Some_split in E as (a & b & -> & -> & ->). done.
    + apply find_None_split in E as ->. done.
Qed.

Lemma split_shorter o s a b : o <> [] -> split_once o s = Some (a, b) -> length b < length s.
Proof.
  intros Ho E. apply split_once_parts in E as ->. rewrite !length_app. destruct o; [done|simpl; lia].
Qed.

Lemma loop_fuel n m s act out :
  active_ok act -> length s < n -> length s < m ->
  inline_loop n [spec] s act out = inline_loop m [spec] s act out.
Proof.
  revert m s act out. induction n as [|n IH]; intros m s act out Hok Hn Hm; [lia|].
  destruct m as [|m]; [lia|]. rewrite !loop_step by done.
  destruct (split_once (wanted act) s) as [[a b]|] eqn:E; [|done].
  apply split_shorter in E; [|by apply wanted_ne]. apply IH; [apply switch_ok|lia..].
Qed.

(** Released text can be taken off the front. *)
Lemma loop_cut n m a s act out :
  active_ok act -> cut (wanted act) a s -> length (a ++ s) < n -> length s < m ->
  inline_loop n [spec] (a ++ s) act out =
  inline_loop m [spec] s (absorb act out a).1 (absorb act out a).2.
Proof.
  intros Hok Hc Hn Hm. destruct n as [|n]; [lia|]. destruct m as [|m]; [lia|].
  rewrite !loop_step by auto using absorb_ok. rewrite wanted_absorb, split_once_cut by done.
  destruct (split_once (wanted act) s) as [[x b]|] eqn:E; cbn [prepend fmap option_fmap option_map].
  - rewrite switch_absorb. rewrite length_app in Hn.
    apply split_shorter in E; [|by apply wanted_ne]. apply loop_fuel; [apply switch_ok|lia..].
  - cbv zeta. rewrite absorb_absorb.
    destruct (kept_exists (wanted act) s (wanted_ne _ Hok)) as (x & k & Hk).
    destruct (kept_longest _ _ _ _ (kept_app _ _ _ _ _ Hc Hk)) as (-> & -> & ->).
    by destruct (kept_longest _ _ _ _ Hk) as (-> & -> & ->).
Qed.

(** The states the parser can be in between two pushes. *)
Definition settled (s : str) (act : option (ActiveTag T)) : Prop :=
  active_ok act /\ s `prefix_of` wanted act /\ length s < length (wanted act).

Lemma settled_split s act : settled s act -> split_once (wanted act) s = None.
Proof.
  intros (_ & _ & Hl). destruct (split_once (wanted act) s) as [[a b]|] eqn:E; [|done].
  apply split_once_parts in E. rewrite E, !length_app in Hl. lia.
Qed.

Lemma loop_push n s act out :
  active_ok act -> length s < n ->
  exists k act' out', inline_loop n [spec] s act out = Ok (k, act', out') /\ settled k act' /\
    forall u m m', length (s ++ u) < m -> length (k ++ u) < m' ->
      inline_loop m [spec] (s ++ u) act out = inline_loop m' [spec] (k ++ u) act' out'.
Proof.
  revert s act out. induction n as [|n IH]; intros s act out Hok Hn; [lia|].
  rewrite loop_step by done. destruct (split_once (wanted act) s) as [[a b]|] eqn:E.
  - pose proof (split_shorter _ _ _ _ (wanted_ne _ Hok) E) as Hb.
    destruct (IH b (switch act out a).1 (switch act out a).2) as (k & act' & out' & Eq & Hs & Hu);
      [apply switch_ok|lia|].
    exists k, act', out'. split_and!; [done..|]. intros u m m' Hm Hm'. destruct m as [|m]; [lia|].
    rewrite loop_step, (split_once_extend _ _ _ _ _ E) by done. apply Hu; [|done].
    rewrite !length_app in *. lia.
  - destruct (kept_exists (wanted act) s (wanted_ne _ Hok)) as (x & k & Hk). cbv zeta.
    destruct (kept_longest _ _ _ _ Hk) as (-> & -> & ->).
    eexists _, _, _. split; [done|]. pose proof Hk as (Es & Hp & Hl & _). split.
    + split_and!; [by apply absorb_ok|by rewrite wanted_absorb..].
    + intros u m m' Hm Hm'. rewrite Es, <- app_assoc.
      apply loop_cut; [done|by eapply kept_cut| |done]. by rewrite app_assoc, <- Es.
Qed.

Lemma settled_nil n s act out :
  settled s act -> 0 < n -> inline_loop n [spec] s act out = Ok (s, act, out).
Proof.
  intros Hs Hn. pose proof Hs as (Hok & Hp & Hl). destruct n as [|n]; [lia|].
  rewrite loop_step, settled_split by done. cbv zeta.
  assert (kept (wanted act) s [] s) as Hk.
  { split_and!; [done..|]. intros a' k' -> _ _. rewrite length_app. lia. }
  destruct (kept_longest _ _ _ _ Hk) as (-> & -> & ->).
  destruct act as [[]|], out; simpl; unfold push_visible; simpl; by rewrite ?app_nil_r.
Qed.

Lemma loop_out n s act out :
  inline_loop n [spec] s act out =
  let? r := inline_loop n [spec] s act chunk_default in
  let '(k, act', o) := r in Ok (k, act', chunk_app out o).
Proof.
  revert s act out. induction n as [|n IH]; intros s act out; [done|]. cbn [inline_loop].
  destruct act as [x|].
  - destruct (find (active_close x) s).
    + rewrite IH, (IH _ _ (push_extracted chunk_default _)).
      destruct (inline_loop n _ _ _ chunk_default) as [[[k act'] o]| | |]; try done. simpl.
      unfold chunk_app, push_extracted. simpl. by rewrite <- app_assoc.
    + simpl. unfold chunk_app. destruct out. simpl. by rewrite !app_nil_r.
  - destruct (find_next_open [spec] s) as [[i j]|].
    + destruct ([spec] !! j) as [sp|]; [|done]. cbn [from_opt res_bind].
      rewrite IH, (IH _ _ (push_visible chunk_default _)).
      destruct (inline_loop n _ _ _ chunk_default) as [[[k act'] o]| | |]; try done. simpl.
      unfold chunk_app, push_visible. simpl. by rewrite <- app_assoc.
    + simpl. unfold chunk_app, push_visible. simpl. by rewrite app_nil_r.
Qed.

Definition inline_inv (p : InlineHiddenTagParser T) : Prop :=
  specs p = [spec] /\ settled (pending p) (active p).

Lemma inline_push_returns p s :
  inline_inv p -> exists p' out, inline_push_str p s = Ok (p', out) /\ inline_inv p'.
Proof.
  destruct p as [l s0 act]. intros [Hsp Hs]. cbn [specs pending active] in *. subst l.
  unfold inline_push_str. cbn [specs pending active].
  destruct (loop_push (S (length (s0 ++ s))) (s0 ++ s) act chunk_default) as (k & act' & out & -> & Hk & _);
    [apply Hs|lia|]. eexists _, _. split; [done|]. by split.
Qed.

Lemma inline_push_nil p : inline_inv p -> inline_push_str p [] = Ok (p, chunk_default).
Proof.
  destruct p as [l s0 act]. intros [Hsp Hs]. cbn [specs pending active] in *. subst l.
  unfold inline_push_str. cbn [specs pending active]. rewrite app_nil_r.
  by rewrite settled_nil by (done || lia).
Qed.

Lemma inline_push_app p a b p1 o1 p2 o2 :
  inline_inv p -> inline_push_str p a = Ok (p1, o1) -> inline_push_str p1 b = Ok (p2, o2) ->
  inline_push_str p (a ++ b) = Ok (p2, chunk_app o1 o2).
Proof.
  destruct p as [l s0 act]. intros [Hsp Hs]. cbn [specs pending active] in *. subst l.
  unfold inline_push_str. cbn [specs pending active].
  destruct (loop_push (S (length (s0 ++ a))) (s0 ++ a) act chunk_default) as (k & act' & out & -> & Hk & Hu);
    [apply Hs|lia|]. cbn [res_bind]. intros [= <- <-]. cbn [specs pending active].
  specialize (Hu b (S (length (s0 ++ a ++ b))) (S (length (k ++ b)))). rewrite <- app_assoc in Hu.
  rewrite Hu by lia. rewrite (loop_out _ _ _ out).
  destruct (inline_loop _ _ (k ++ b) act' chunk_default) as [[[k2 act2] out2]| | |]; try done.
  cbn [res_bind]. by intros [= <- <-].
Qed.

#[local] Instance inline_laws : StreamTextLaws (InlineHiddenTagParser T) (ExtractedInlineTag T).
Proof.
  refine {| stream_inv := inline_inv; norm := id |}.
  - apply inline_push_returns.
  - apply inline_push_nil.
  - intros p a b p1 o1 p2 o2 Hi H1 H2. exists (chunk_app o1 o2). split; [|done].
    by eapply inline_push_app.
  - done.
Defined.

(** ** The text without its tags *)

(** [hidden text visible bodies]: reading [text] from left to right, each
    opener starts a body that ends at the next closer or at the end. *)
Inductive hidden : str -> str -> list str -> Prop :=
| hidden_none text :
    split_once (open spec) text = None -> hidden text text []
| hidden_unclosed text a rest :
    split_once (open spec) text = Some (a, rest) -> split_once (close spec) rest = None ->
    hidden text a [rest]
| hidden_tag text a rest body rest' v bodies :
    split_once (open spec) text = Some (a, rest) ->
    split_once (close spec) rest = Some (body, rest') ->
    hidden rest' v bodies -> hidden text (a ++ v) (body :: bodies).

Definition inline_start : InlineHiddenTagParser T := mk_inline [spec] [] None.

Lemma inline_start_inv : inline_inv inline_start.
Proof.
  split; [done|]. split_and!; [done|by eexists|]. simpl. destruct (open spec); [done|simpl; lia].
Qed.

Lemma loop_hidden n text :
  length text < n ->
  exists k act out v bodies, inline_loop n [spec] text None chunk_default = Ok (k, act, out) /\
    hidden text v bodies /\
    chunk_app out (inline_finish (mk_inline [spec] k act)).2 =
      mk_text_chunk v (mk_extracted (spec_tag spec) <$> bodies).
Proof.
  revert text. induction n as [n IH] using lt_wf_ind. intros text Hn. destruct n as [|n]; [lia|].
  rewrite loop_step by done. cbn [wanted].
  destruct (split_once (open spec) text) as [[a rest]|] eqn:Eo.
  2:{ cbv zeta. eexists _, _, _, text, []. split; [done|]. split; [by constructor|].
      simpl. unfold chunk_app. simpl. by rewrite take_drop. }
  cbn [switch fst snd]. pose proof (split_shorter _ _ _ _ open_ok Eo) as Hr.
  destruct n as [|n]; [lia|]. rewrite loop_step by done. cbn [wanted active_close].
  destruct (split_once (close spec) rest) as [[body rest']|] eqn:Ec.
  - cbn [switch fst snd active_tag_of active_content]. pose proof (split_shorter _ _ _ _ close_ok Ec) as Hr'.
    destruct (IH n ltac:(lia) rest' ltac:(lia)) as (k & act & out & v & bodies & E & Hh & Hf).
    rewrite loop_out, E. cbn [res_bind]. eexists _, _, _, (a ++ v), (body :: bodies).
    split; [done|]. split; [by econstructor|].
    destruct (inline_finish _) as [p' tl]. cbn [snd] in *. unfold chunk_app in *. cbn in *.
    injection Hf as Hv He. by rewrite <- Hv, <- He, <- app_assoc.
  - cbv zeta. cbn [absorb fst snd active_tag_of active_close active_content].
    eexists _, _, _, a, [rest]. split; [done|]. split; [by econstructor|].
    unfold chunk_app, inline_finish. cbn. by rewrite take_drop, app_nil_r.
Qed.

Lemma pieces_hidden pieces :
  exists p out v bodies, push_pieces inline_start pieces = Ok (p, out) /\
    hidden (concat pieces) v bodies /\
    chunk_app out (inline_finish p).2 = mk_text_chunk v (mk_extracted (spec_tag spec) <$> bodies).
Proof.
  destruct (@push_pieces_concat _ _ _ inline_laws inline_start pieces inline_start_inv)
    as (p & o & o' & E & E' & Hv & Hn & _).
  destruct (loop_hidden (S (length (concat pieces))) (concat pieces)) as (k & act & out & v & bodies & El & Hh & Hf);
    [lia|].
  cbn [push_str inline_parser] in E'. unfold inline_push_str in E'. cbn [specs pending active inline_start app] in E'.
  rewrite El in E'. cbn [res_bind] in E'. injection E' as <- <-.
  exists (mk_inline [spec] k act), o, v, bodies. split_and!; [done..|]. rewrite <- Hf.
  unfold chunk_app. cbn [norm inline_laws id] in Hn. by rewrite Hv, Hn.
Qed.
End one_tag.

(** ** Citations *)

#[export] Instance citation_laws : StreamTextLaws CitationStreamParser str.
Proof.
  refine {| stream_inv p := inline_inv (mk_spec tt CITATION_OPEN CITATION_CLOSE) (citation_inner p);
            norm := id |}.
  - intros [p] s Hp. cbn in *.
    destruct (inline_push_returns (mk_spec tt CITATION_OPEN CITATION_CLOSE) ltac:(done) ltac:(done) p s Hp) as (p' & out & E & Hp').
    rewrite E. by eexists _, _.
  - intros [p] Hp. cbn in *. by rewrite (inline_push_nil (mk_spec tt CITATION_OPEN CITATION_CLOSE)).
  - intros [p] a b [p1] o1 [p2] o2 Hp. cbn in *.
    destruct (inline_push_str p a) as [[q1 c1]| | |] eqn:E1; [|done..]. cbn. intros [= <- <-].
    destruct (inline_push_str q1 b) as [[q2 c2]| | |] eqn:E2; [|done..]. cbn. intros [= <- <-].
    rewrite (inline_push_app (mk_spec tt CITATION_OPEN CITATION_CLOSE) ltac:(done) ltac:(done) _ _ _ _ _ _ _ Hp E1 E2).
    eexists. split; [done|]. cbn. by rewrite fmap_app.
  - done.
Defined.

(** However a text is cut into pieces, the parser for a hidden tag returns
    for every piece, and its output at the end is the text with every tagged
    body removed and the bodies in order: an opener starts a body that ends at
    the next closer, tags do not nest, and an unclosed body runs to the end. *)
Theorem inline_tags_hidden {T} (spec : InlineTagSpec T) (pieces : list str) :
  open spec <> [] -> close spec <> [] ->
  exists p out v bodies,
    push_pieces (mk_inline [spec] [] None) pieces = Ok (p, out) /\
    hidden spec (concat pieces) v bodies /\
    chunk_app out (finish p).2 = mk_text_chunk v (mk_extracted (spec_tag spec) <$> bodies).
Proof. intros Ho Hc. by apply pieces_hidden. Qed.

Lemma inline_tags_hidden_witness :
  exists p out v bodies,
    push_pieces (mk_inline [mk_spec tt (lit "<a>") (lit "</a>")] [] None)
      [lit "x<"; lit "a>y<"; lit "/a"; lit ">z"] = Ok (p, out) /\
    hidden (mk_spec tt (lit "<a>") (lit "</a>"))
      (concat [lit "x<"; lit "a>y<"; lit "/a"; lit ">z"]) v bodies /\
    chunk_app out (finish p).2 = mk_text_chunk v (mk_extracted tt <$> bodies).
Proof.
  apply (inline_tags_hidden (mk_spec tt (lit "<a>") (lit "</a>"))
    [lit "x<"; lit "a>y<"; lit "/a"; lit ">z"]); done.
Defined.
