(* ===== verification/TaggedLines.v ===== *)
(** * Tags alone on a line ([utils/stream-parser])

    The line-based tag parser ([tagged_line_parser.rs]) and its use for the
    plan blocks of the assistant's text ([proposed_plan.rs]). *)

From S2P Require Export StreamText.

(** ** The parser ([tagged_line_parser.rs]) *)

Record TagSpec (T : Type) := mk_tag_spec { tag_open : str; tag_close : str; tag_tag : T }.
Arguments mk_tag_spec {T}.
Arguments tag_open {T}.
Arguments tag_close {T}.
Arguments tag_tag {T}.

Inductive TaggedLineSegment (T : Type) :=
| Normal (text : str)
| TagStart (tag : T)
| TagDelta (tag : T) (text : str)
| TagEnd (tag : T).
Arguments Normal {T}.
Arguments TagStart {T}.
Arguments TagDelta {T}.
Arguments TagEnd {T}.

Record TaggedLineParser (T : Type) := mk_tagged {
  tag_specs : list (TagSpec T);
  active_tag : option T;
  detect_tag : bool;
  line_buffer : str
}.
Arguments mk_tagged {T}.
Arguments tag_specs {T}.
Arguments active_tag {T}.
Arguments detect_tag {T}.
Arguments line_buffer {T}.

Section tagged.
Context {T : Type} `{EqDecision T}.
Notation segment := (TaggedLineSegment T).
Notation segments := (list segment).

Definition tagged_new (l : list (TagSpec T)) : TaggedLineParser T := mk_tagged l None true [].

(** The text of the last segment grows when the kind and the tag agree. *)
Definition push_segment (l : segments) (s : segment) : segments :=
  match s with
  | Normal [] => l
  | Normal delta =>
    match last l with
    | Some (Normal existing) => removelast l ++ [Normal (existing ++ delta)]
    | _ => l ++ [Normal delta]
    end
  | TagDelta _ [] => l
  | TagDelta tag delta =>
    match last l with
    | Some (TagDelta existing_tag existing) =>
      if decide (existing_tag = tag)
      then removelast l ++ [TagDelta tag (existing ++ delta)]
      else l ++ [TagDelta tag delta]
    | _ => l ++ [TagDelta tag delta]
    end
  | TagStart tag => l ++ [TagStart tag]
  | TagEnd tag => l ++ [TagEnd tag]
  end.

Definition text_segment (active : option T) (text : str) : segment :=
  match active with Some tag => TagDelta tag text | None => Normal text end.

Definition push_text (p : TaggedLineParser T) (text : str) (l : segments) : segments :=
  push_segment l (text_segment (active_tag p) text).

Definition is_tag_prefix (l : list (TagSpec T)) (slug : str) : bool :=
  existsb (fun spec => starts_with (trim_end slug) (tag_open spec)
                       || starts_with (trim_end slug) (tag_close spec)) l.

Definition match_open (l : list (TagSpec T)) (slug : str) : option T :=
  tag_tag <$> List.find (fun spec => str_eqb (tag_open spec) slug) l.

Definition match_close (l : list (TagSpec T)) (slug : str) : option T :=
  tag_tag <$> List.find (fun spec => str_eqb (tag_close spec) slug) l.

Definition line_slug (line : str) : str :=
  trim_end (trim_start (default line (strip_suffix [NL] line))).

Definition finish_line (p : TaggedLineParser T) (l : segments) : TaggedLineParser T * segments :=
  let line := line_buffer p in
  let slug := line_slug line in
  let text := (mk_tagged (tag_specs p) (active_tag p) true [], push_text p line l) in
  let closing :=
    match match_close (tag_specs p) slug with
    | Some tag =>
      if decide (active_tag p = Some tag)
      then (mk_tagged (tag_specs p) None true [], push_segment l (TagEnd tag))
      else text
    | None => text
    end in
  match match_open (tag_specs p) slug, active_tag p with
  | Some tag, None => (mk_tagged (tag_specs p) (Some tag) true [], push_segment l (TagStart tag))
  | _, _ => closing
  end.

(** The [for] loop of [parse], with its [run] and [segments]. *)
Fixpoint parse_chars (p : TaggedLineParser T) (run : str) (l : segments) (delta : str)
    : TaggedLineParser T * str * segments :=
  match delta with
  | [] => (p, run, l)
  | ch :: delta =>
    if detect_tag p then
      let '(run, l) := match run with [] => (run, l) | _ => ([], push_text p run l) end in
      let buffer := line_buffer p ++ [ch] in
      let q := mk_tagged (tag_specs p) (active_tag p) true buffer in
      if (ch =? NL)%N then
        let '(q, l) := finish_line q l in parse_chars q run l delta
      else
        let slug := trim_start buffer in
        if match slug with [] => true | _ => is_tag_prefix (tag_specs p) slug end then
          parse_chars q run l delta
        else
          parse_chars (mk_tagged (tag_specs p) (active_tag p) false []) run
            (push_text p buffer l) delta
    else
      let run := run ++ [ch] in
      if (ch =? NL)%N then
        parse_chars (mk_tagged (tag_specs p) (active_tag p) true (line_buffer p)) []
          (push_text p run l) delta
      else parse_chars p run l delta
  end.

Definition tagged_parse (p : TaggedLineParser T) (delta : str) : TaggedLineParser T * segments :=
  let '(p, run, l) := parse_chars p [] [] delta in
  (p, match run with [] => l | _ => push_text p run l end).

Definition tagged_finish (p : TaggedLineParser T) : TaggedLineParser T * segments :=
  let '(active, l) :=
    match line_buffer p with
    | [] => (active_tag p, [])
    | buffered =>
      let slug := line_slug buffered in
      let closing :=
        match match_close (tag_specs p) slug with
        | Some tag =>
          if decide (active_tag p = Some tag) then (None, push_segment [] (TagEnd tag))
          else (active_tag p, push_text p buffered [])
        | None => (active_tag p, push_text p buffered [])
        end in
      match match_open (tag_specs p) slug, active_tag p with
      | Some tag, None => (Some tag, push_segment [] (TagStart tag))
      | _, _ => closing
      end
    end in
  (mk_tagged (tag_specs p) None true [],
   match active with Some tag => push_segment l (TagEnd tag) | None => l end).
End tagged.

(** ** Plan blocks ([proposed_plan.rs]) *)

Definition OPEN_TAG : str := lit "<proposed_plan>".
Definition CLOSE_TAG : str := lit "</proposed_plan>".

Inductive PlanTag := ProposedPlan.

#[export] Instance PlanTag_eq_dec : EqDecision PlanTag.
Proof. solve_decision. Defined.

Inductive ProposedPlanSegment :=
| PlanNormal (text : str)
| ProposedPlanStart
| ProposedPlanDelta (text : str)
| ProposedPlanEnd.

Record ProposedPlanParser := mk_plan { plan_inner : TaggedLineParser PlanTag }.

Definition plan_new : ProposedPlanParser :=
  mk_plan (tagged_new [mk_tag_spec OPEN_TAG CLOSE_TAG ProposedPlan]).

Definition map_segment (s : TaggedLineSegment PlanTag) : ProposedPlanSegment :=
  match s with
  | Normal text => PlanNormal text
  | TagStart ProposedPlan => ProposedPlanStart
  | TagDelta ProposedPlan text => ProposedPlanDelta text
  | TagEnd ProposedPlan => ProposedPlanEnd
  end.

Definition normal_text (s : ProposedPlanSegment) : str :=
  match s with PlanNormal text => text | _ => [] end.

Definition map_segments (l : list (TaggedLineSegment PlanTag)) : StreamTextChunk ProposedPlanSegment :=
  foldl (fun out s =>
           mk_text_chunk (visible_text out ++ normal_text (map_segment s))
             (extracted out ++ [map_segment s])) chunk_default l.

#[export] Instance plan_parser : StreamTextParser ProposedPlanParser ProposedPlanSegment := {
  push_str p chunk :=
    let '(inner, l) := tagged_parse (plan_inner p) chunk in Ok (mk_plan inner, map_segments l);
  finish p := let '(inner, l) := tagged_finish (plan_inner p) in (mk_plan inner, map_segments l)
}.

Definition strip_proposed_plan_blocks (text : str) : res Empty_set str :=
  let? r := push_str plan_new text in
  let '(parser, out) := r in
  Ok (visible_text out ++ visible_text (finish parser).2).

Definition extract_step (st : str * bool) (s : ProposedPlanSegment) : str * bool :=
  let '(plan_text, saw_plan_block) := st in
  match s with
  | ProposedPlanStart => ([], true)
  | ProposedPlanDelta delta => (plan_text ++ delta, saw_plan_block)
  | ProposedPlanEnd | PlanNormal _ => st
  end.

Definition extract_proposed_plan_text (text : str) : res Empty_set (option str) :=
  let? r := push_str plan_new text in
  let '(parser, out) := r in
  let '(plan_text, saw_plan_block) :=
    foldl extract_step ([], false) (extracted out ++ extracted (finish parser).2) in
  Ok (if saw_plan_block : bool then Some plan_text else None).

(** Newlines in the examples are written [|]. *)
Definition nl (s : string) : str := (fun c => if (c =? 124)%N then NL else c) <$> lit s.

Example plan_examples :
  extract_proposed_plan_text (nl "before|<proposed_plan>|- step|</proposed_plan>|after")
    = Ok (Some (nl "- step|")) /\
  strip_proposed_plan_blocks (nl "before|<proposed_plan>|- step|</proposed_plan>|after")
    = Ok (nl "before|after") /\
  strip_proposed_plan_blocks (nl "  <proposed_plan> extra|") = Ok (nl "  <proposed_plan> extra|") /\
  extract_proposed_plan_text (nl "<proposed_plan>|- step") = Ok (Some (nl "- step")).
Proof. vm_compute. done. Qed.

(** ** Merged segments *)

Section merge.
Context {T : Type} `{EqDecision T}.
Notation segment := (TaggedLineSegment T).
Implicit Types (l x y : list segment).

Definition merge l : list segment := foldl push_segment [] l.

(** Equal up to where the texts were cut. *)
Definition same_segments x y : Prop := merge x = merge y.

#[export] Instance same_segments_equivalence : Equivalence same_segments.
Proof. split; unfold same_segments; congruence. Qed.

Lemma last_snoc_inv l (s : segment) : last l = Some s -> l = removelast l ++ [s].
Proof.
  intros (l' & ->)%last_Some. by rewrite removelast_last.
Qed.

Lemma push_push_text l (a : option T) (s t : str) :
  push_segment (push_segment l (text_segment a s)) (text_segment a t) =
  push_segment l (text_segment a (s ++ t)).
Proof.
  destruct a as [tag|], s as [|c s]; try done;
    (destruct t as [|d t]; [by rewrite app_nil_r|]); cbn [text_segment push_segment app];
    destruct (last l) as [[| | |]|] eqn:E;
    repeat case_decide; cbn [push_segment];
    rewrite ?last_snoc, ?removelast_last, ?decide_True by done; try done; by rewrite <- app_assoc.
Qed.

Lemma fold_push l m s :
  foldl push_segment l (push_segment m s) = push_segment (foldl push_segment l m) s.
Proof.
  destruct m as [|s' m _] using rev_ind; [by destruct s as [[]| |? []|]|].
  rewrite foldl_app. cbn [foldl].
  destruct s as [[|c t]|tag|tag [|c t]|tag]; cbn [push_segment]; rewrite ?last_snoc, ?foldl_app;
    try done; destruct s' as [s| |tag' s|]; rewrite ?foldl_app, ?removelast_last; try done.
  - symmetry. exact (push_push_text _ None s (c :: t)).
  - case_decide as Ht; rewrite ?removelast_last, ?foldl_app; [subst tag'|done].
    symmetry. exact (push_push_text _ (Some tag) s (c :: t)).
Qed.

Lemma fold_merge l y : foldl push_segment l (merge y) = foldl push_segment l y.
Proof.
  induction y as [|s y IH] using rev_ind; [done|]. unfold merge in *.
  rewrite !foldl_app. cbn [foldl]. by rewrite fold_push, IH.
Qed.

Lemma merge_app x y : merge (x ++ y) = merge (merge x ++ merge y).
Proof.
  unfold merge at 1 2. rewrite !foldl_app, fold_merge. by rewrite (fold_merge [] x).
Qed.

Lemma merge_merge x : merge (merge x) = merge x.
Proof. apply fold_merge. Qed.

#[export] Instance app_same_segments :
  Proper (same_segments ==> same_segments ==> same_segments) (app (A := segment)).
Proof. intros x x' Hx y y' Hy. unfold same_segments. by rewrite merge_app, Hx, Hy, <- merge_app. Qed.

Lemma merge_same x : same_segments (merge x) x.
Proof. apply merge_merge. Qed.

Lemma push_same l s : same_segments (push_segment l s) (l ++ [s]).
Proof. unfold same_segments, merge. by rewrite fold_push, foldl_app. Qed.

Lemma text_nil a : same_segments [text_segment a []] [].
Proof. by destruct a. Qed.

Lemma text_app a s t : same_segments [text_segment a (s ++ t)] [text_segment a s; text_segment a t].
Proof. unfold same_segments, merge. cbn [foldl]. by rewrite push_push_text. Qed.
End merge.

(** ** The parser, a character at a time *)

Section chars.
Context {T : Type} `{EqDecision T}.
Notation segment := (TaggedLineSegment T).
Implicit Types (p : TaggedLineParser T) (l : list segment).

(** What one line stands for: the tag that is open after it, and its segment. *)
Definition line_segment (specs : list (TagSpec T)) (active : option T) (line : str)
    : option T * segment :=
  let slug := line_slug line in
  match match_open specs slug, active with
  | Some tag, None => (Some tag, TagStart tag)
  | _, _ =>
    match match_close specs slug with
    | Some tag =>
      if decide (active = Some tag) then (None, TagEnd tag) else (active, text_segment active line)
    | None => (active, text_segment active line)
    end
  end.

Lemma finish_line_segment p l :
  let r := line_segment (tag_specs p) (active_tag p) (line_buffer p) in
  finish_line p l = (mk_tagged (tag_specs p) r.1 true [], push_segment l r.2).
Proof.
  unfold finish_line, line_segment, push_text.
  destruct (match_open _ _), (active_tag p); simpl; try done;
    destruct (match_close _ _); try done; by repeat case_decide.
Qed.

(** [parse] without its buffer of plain text. *)
Definition char_step p (ch : char) : TaggedLineParser T * list segment :=
  if detect_tag p then
    let buffer := line_buffer p ++ [ch] in
    if (ch =? NL)%N then
      let r := line_segment (tag_specs p) (active_tag p) buffer in
      (mk_tagged (tag_specs p) r.1 true [], [r.2])
    else if match trim_start buffer with [] => true | _ => is_tag_prefix (tag_specs p) (trim_start buffer) end then
      (mk_tagged (tag_specs p) (active_tag p) true buffer, [])
    else
      (mk_tagged (tag_specs p) (active_tag p) false [], [text_segment (active_tag p) buffer])
  else
    (mk_tagged (tag_specs p) (active_tag p) (ch =? NL)%N (line_buffer p),
     [text_segment (active_tag p) [ch]]).

Fixpoint char_steps p (s : str) : TaggedLineParser T * list segment :=
  match s with
  | [] => (p, [])
  | ch :: s =>
    let r := char_step p ch in
    let r' := char_steps r.1 s in
    (r'.1, r.2 ++ r'.2)
  end.

Lemma char_steps_app p s t :
  char_steps p (s ++ t) =
  ((char_steps (char_steps p s).1 t).1, (char_steps p s).2 ++ (char_steps (char_steps p s).1 t).2).
Proof.
  revert p. induction s as [|c s IH]; intros p; simpl; [by destruct (char_steps p t)|].
  rewrite IH. simpl. by rewrite <- app_assoc.
Qed.

Definition flush p (run : str) l : list segment := match run with [] => l | _ => push_text p run l end.

Lemma flush_text p run l : flush p run l = push_segment l (text_segment (active_tag p) run).
Proof. destruct run; [|done]. unfold flush. by destruct (active_tag p). Qed.

Lemma tagged_eta p : mk_tagged (tag_specs p) (active_tag p) (detect_tag p) (line_buffer p) = p.
Proof. by destruct p. Qed.

Ltac use_parse IH :=
  match goal with
  | |- context [parse_chars ?p ?r ?l ?d] =>
    specialize (IH p r l); destruct (parse_chars p r l d) as [[? ?] ?]; destruct IH as [-> ->]
  end.

Lemma parse_chars_steps p run l delta :
  let '(q, run', l') := parse_chars p run l delta in
  q = (char_steps p delta).1 /\
  flush q run' l' = foldl push_segment (flush p run l) (char_steps p delta).2.
Proof.
  revert p run l. induction delta as [|ch delta IH]; intros p run l; [done|].
  cbn [parse_chars char_steps]. unfold char_step.
  destruct (detect_tag p) eqn:Hd.
  - replace (match run with [] => (run, l) | _ => ([], push_text p run l) end)
      with (@nil N, flush p run l) by (by destruct run).
    destruct (ch =? NL)%N eqn:Hnl.
    + rewrite finish_line_segment. cbn [tag_specs active_tag line_buffer fst snd].
      use_parse IH. split; done.
    + destruct (match trim_start _ with [] => true | _ => _ end).
      * by use_parse IH.
      * use_parse IH. split; done.
  - assert (push_text p (run ++ [ch]) l
            = push_segment (flush p run l) (text_segment (active_tag p) [ch])) as Hpush.
    { unfold push_text. by rewrite flush_text, push_push_text. }
    destruct (ch =? NL)%N eqn:Hnl.
    + use_parse IH. split; [done|]. cbn [flush snd app foldl]. by rewrite Hpush.
    + use_parse IH. rewrite <- Hd, tagged_eta. split; [done|].
      cbn [snd app foldl]. f_equal. rewrite <- Hpush. by destruct run.
Qed.

Lemma tagged_parse_steps p delta :
  tagged_parse p delta = ((char_steps p delta).1, merge (char_steps p delta).2).
Proof.
  unfold tagged_parse. pose proof (parse_chars_steps p [] [] delta) as Hp.
  destruct (parse_chars p [] [] delta) as [[q run'] l']. destruct Hp as [-> Hf]. f_equal. exact Hf.
Qed.
End chars.

(** ** The lines of the text *)

Section lines.
Context {T : Type} `{EqDecision T}.
Variable specs : list (TagSpec T).
Implicit Types (a : option T) (l : str).

(** Reading the text line by line: whole lines, then what is left of the last
    one, then the end of a block that was not closed. *)
Definition end_segments a : list (TaggedLineSegment T) :=
  match a with Some tag => [TagEnd tag] | None => [] end.

Fixpoint line_segments a (ls : list str) : list (TaggedLineSegment T) :=
  match ls with
  | [] => end_segments a
  | [l] =>
    match l with
    | [] => end_segments a
    | _ => let r := line_segment specs a l in r.2 :: end_segments r.1
    end
  | l :: ls => let r := line_segment specs a (l ++ [NL]) in r.2 :: line_segments r.1 ls
  end.

Definition text_segments (text : str) : list (TaggedLineSegment T) :=
  line_segments None (split NL text).

(** The part [q] of a line could still be a tag. *)
Definition undecided (q : str) : Prop :=
  match trim_start q with [] => True | slug => is_tag_prefix specs slug = true end.

#[local] Instance undecided_dec q : Decision (undecided q).
Proof. unfold undecided. destruct (trim_start q); apply _. Defined.

Lemma trim_start_app q r :
  trim_start (q ++ r) = match trim_start q with [] => trim_start r | t => t ++ r end.
Proof. induction q as [|c q IH]; simpl; [done|]. by destruct (is_whitespace c). Qed.

Lemma trim_end_app q r :
  trim_end (q ++ r) = match trim_end r with [] => trim_end q | t => q ++ t end.
Proof.
  unfold trim_end. rewrite reverse_app, trim_start_app.
  destruct (trim_start (reverse r)) as [|c t] eqn:E; [done|].
  rewrite reverse_app, reverse_involutive.
  destruct (reverse (c :: t)) eqn:E2; [|done].
  apply (f_equal reverse) in E2. rewrite reverse_involutive in E2. done.
Qed.

Lemma trim_end_prefix_of q r : trim_end q `prefix_of` trim_end (q ++ r).
Proof.
  rewrite trim_end_app. destruct (trim_end r) as [|c t]; [done|].
  destruct (trim_end_prefix q) as (w & E & _). rewrite E at 2. rewrite <- app_assoc.
  by apply prefix_app_r.
Qed.

(** Every part of a tag line is undecided. *)
Lemma tag_line_undecided q r spec :
  spec ∈ specs ->
  trim_end (trim_start (q ++ r)) = tag_open spec \/ trim_end (trim_start (q ++ r)) = tag_close spec ->
  undecided q.
Proof.
  intros Hin Ht. unfold undecided. rewrite trim_start_app in Ht.
  destruct (trim_start q) as [|c s]; [done|].
  unfold is_tag_prefix. apply existsb_exists. exists spec. split; [by apply list_elem_of_In|].
  pose proof (trim_end_prefix_of (c :: s) r) as [t Hp].
  apply orb_true_iff. unfold starts_with.
  destruct Ht as [Ht|Ht]; rewrite Ht in Hp; rewrite Hp; rewrite strip_prefix_app; auto.
Qed.

Lemma find_tag (f : TagSpec T -> str) slug t :
  tag_tag <$> List.find (fun spec => str_eqb (f spec) slug) specs = Some t ->
  exists spec, spec ∈ specs /\ f spec = slug.
Proof.
  intros (spec & E & _)%fmap_Some. apply find_some in E as [Hin E].
  exists spec. split; [by apply list_elem_of_In|by apply str_eqb_eq].
Qed.

Lemma line_slug_plain l : NL ∉ l -> line_slug l = trim_end (trim_start l).
Proof.
  intros Hl. unfold line_slug. destruct (strip_suffix [NL] l) eqn:E; [|done].
  apply strip_suffix_Some in E as ->. set_solver.
Qed.

Lemma line_slug_nl l : line_slug (l ++ [NL]) = trim_end (trim_start l).
Proof. unfold line_slug. by rewrite (proj2 (strip_suffix_Some [NL] _ l)). Qed.

(** A line with a decided part is text. *)
Lemma decided_line a line q r :
  line_slug line = trim_end (trim_start (q ++ r)) -> ~ undecided q ->
  line_segment specs a line = (a, text_segment a line).
Proof.
  intros Hs Hq. unfold line_segment. rewrite Hs.
  destruct (match_open specs _) eqn:Eo.
  { apply find_tag in Eo as (spec & Hin & E). destruct Hq. eapply tag_line_undecided; eauto. }
  destruct (match_close specs _) eqn:Ec; [|done].
  apply find_tag in Ec as (spec & Hin & E). destruct Hq. eapply tag_line_undecided; eauto.
Qed.

(** Inside a line: undecided and buffered, or decided and given out. *)
Inductive in_line a (l : str) : TaggedLineParser T * list (TaggedLineSegment T) -> Prop :=
| in_undecided : in_line a l (mk_tagged specs a true l, [])
| in_decided q r out :
    l = q ++ r -> ~ undecided q -> same_segments out [text_segment a l] ->
    in_line a l (mk_tagged specs a false [], out).

Lemma char_step_detect a (buf : str) ch :
  ch <> NL ->
  char_step (mk_tagged specs a true buf) ch =
  if decide (undecided (buf ++ [ch])) then (mk_tagged specs a true (buf ++ [ch]), [])
  else (mk_tagged specs a false [], [text_segment a (buf ++ [ch])]).
Proof.
  intros Hc. unfold char_step. cbn [detect_tag line_buffer tag_specs active_tag].
  apply N.eqb_neq in Hc as ->. case_decide as Hu; unfold undecided in Hu;
    destruct (trim_start (buf ++ [ch])) as [|c s]; try done; [by rewrite Hu|].
  by apply not_true_is_false in Hu as ->.
Qed.

Lemma char_steps_line a l : NL ∉ l -> in_line a l (char_steps (mk_tagged specs a true []) l).
Proof.
  induction l as [|ch l IH] using rev_ind; intros Hl; [constructor|].
  apply not_elem_of_app in Hl as [Hl Hc]. specialize (IH Hl). rewrite char_steps_app.
  assert (ch <> NL) as Hch by set_solver.
  destruct IH as [|q r out -> Hq Hout]; cbn [char_steps fst snd app].
  - rewrite char_step_detect by done. case_decide as Hu; cbn [fst snd]; [constructor|].
    eapply (in_decided _ _ (l ++ [ch]) []); [by rewrite app_nil_r|done|done].
  - unfold char_step. cbn [detect_tag fst snd tag_specs active_tag line_buffer].
    apply N.eqb_neq in Hch as ->. eapply (in_decided _ _ q (r ++ [ch])); [by rewrite app_assoc|done|].
    rewrite text_app, Hout. done.
Qed.

Lemma char_steps_whole_line a l :
  NL ∉ l ->
  let r := line_segment specs a (l ++ [NL]) in
  (char_steps (mk_tagged specs a true []) (l ++ [NL])).1 = mk_tagged specs r.1 true [] /\
  same_segments (char_steps (mk_tagged specs a true []) (l ++ [NL])).2 [r.2].
Proof.
  intros Hl. rewrite char_steps_app. pose proof (char_steps_line a l Hl) as Hin.
  destruct Hin as [|q r out E Hq Hout]; cbn [char_steps fst snd]; unfold char_step; [done|].
  cbn [detect_tag fst snd tag_specs active_tag line_buffer app].
  rewrite (decided_line a (l ++ [NL]) q r); [|by rewrite line_slug_nl, E|done].
  split; [done|]. cbn [snd]. rewrite text_app, Hout. done.
Qed.

Lemma finish_last_line a l :
  NL ∉ l ->
  let r := char_steps (mk_tagged specs a true []) l in
  same_segments (r.2 ++ (tagged_finish r.1).2) (line_segments a [l]).
Proof.
  intros Hl. pose proof (char_steps_line a l Hl) as Hin.
  destruct Hin as [|q r out E Hq Hout]; cbn [fst snd app].
  - unfold tagged_finish, line_segments. cbn [line_buffer active_tag tag_specs].
    destruct l as [|c l]; [by destruct a|]. unfold line_segment, push_text. cbn [active_tag].
    destruct (match_open _ _), a; simpl;
      repeat (case_match || case_decide); simplify_eq; simpl; try done; by rewrite ?push_same.
  - rewrite Hout. unfold line_segments, tagged_finish. cbn [line_buffer active_tag tag_specs snd].
    destruct l as [|c l]; [by destruct q|].
    rewrite (decided_line a _ q r); [by destruct a|by rewrite line_slug_plain, E|done].
Qed.

Lemma char_steps_join a ls :
  Forall (fun l => NL ∉ l) ls -> ls <> [] ->
  let r := char_steps (mk_tagged specs a true []) (join [NL] ls) in
  same_segments (r.2 ++ (tagged_finish r.1).2) (line_segments a ls).
Proof.
  revert a. induction ls as [|l ls IH]; intros a Hno Hne; [done|].
  apply Forall_cons in Hno as [Hl Hno]. destruct ls as [|l' ls]; [by apply finish_last_line|].
  change (join [NL] (l :: l' :: ls)) with (l ++ [NL] ++ join [NL] (l' :: ls)).
  cbv zeta. rewrite app_assoc, char_steps_app.
  destruct (char_steps_whole_line a l Hl) as [-> Hs]. cbn [fst snd]. rewrite Hs, <- app_assoc.
  change (line_segments a (l :: l' :: ls)) with
    ([(line_segment specs a (l ++ [NL])).2] ++
     line_segments (line_segment specs a (l ++ [NL])).1 (l' :: ls)).
  specialize (IH (line_segment specs a (l ++ [NL])).1 Hno). cbv zeta in IH. by rewrite IH.
Qed.

Lemma char_steps_lines text :
  let r := char_steps (tagged_new specs) text in
  same_segments (r.2 ++ (tagged_finish r.1).2) (text_segments text).
Proof.
  pose proof (char_steps_join None (split NL text)) as Hj. rewrite join_split in Hj.
  apply Hj; [apply split_parts_no_sep|apply split_ne_nil].
Qed.
End lines.

(** ** Pieces of the text *)

Fixpoint parse_pieces {T} `{EqDecision T} (p : TaggedLineParser T) (pieces : list str)
    : TaggedLineParser T * list (TaggedLineSegment T) :=
  match pieces with
  | [] => (p, [])
  | s :: pieces =>
    let '(p, out) := tagged_parse p s in
    let '(p, rest) := parse_pieces p pieces in (p, out ++ rest)
  end.

Lemma parse_pieces_steps {T} `{EqDecision T} (p : TaggedLineParser T) (pieces : list str) :
  (parse_pieces p pieces).1 = (char_steps p (concat pieces)).1 /\
  same_segments (parse_pieces p pieces).2 (char_steps p (concat pieces)).2.
Proof.
  revert p. induction pieces as [|s pieces IH]; intros p; [done|]. cbn [parse_pieces concat].
  rewrite tagged_parse_steps, char_steps_app. specialize (IH (char_steps p s).1).
  destruct (parse_pieces (char_steps p s).1 pieces) as [q rest]. cbn [fst snd] in IH. destruct IH as [-> IH].
  split; [done|]. cbn [snd] in *. by rewrite merge_same, IH.
Qed.

(** However a text is cut into pieces, the segments that the line parser
    gives out for the pieces and at the end are, once adjacent text is joined,
    those of the text read line by line: a line that is an opening tag between
    white space starts a block unless one is open, a line that is the open
    block's closing tag ends it, every other line is text of the block it is in,
    and a block that is open at the end is closed there. *)
Theorem tagged_lines_by_line {T} `{EqDecision T} (specs : list (TagSpec T)) (pieces : list str) :
  let '(p, out) := parse_pieces (tagged_new specs) pieces in
  merge (out ++ (tagged_finish p).2) = merge (text_segments specs (concat pieces)).
Proof.
  destruct (parse_pieces_steps (tagged_new specs) pieces) as [H1 H2].
  destruct (parse_pieces _ pieces) as [p out]. cbn [fst snd] in *. subst p.
  change (same_segments (out ++ (tagged_finish (char_steps (tagged_new specs) (concat pieces)).1).2)
    (text_segments specs (concat pieces))).
  rewrite H2. apply char_steps_lines.
Qed.

(** ** Plan blocks *)

Definition unmap_segment (s : ProposedPlanSegment) : TaggedLineSegment PlanTag :=
  match s with
  | PlanNormal text => Normal text
  | ProposedPlanStart => TagStart ProposedPlan
  | ProposedPlanDelta text => TagDelta ProposedPlan text
  | ProposedPlanEnd => TagEnd ProposedPlan
  end.

Lemma unmap_map (l : list (TaggedLineSegment PlanTag)) : unmap_segment <$> (map_segment <$> l) = l.
Proof.
  induction l as [|s l IH]; [done|]. cbn. rewrite IH. by destruct s as [|[]|[]|[]].
Qed.

(** Plan segments with adjacent text joined. *)
Definition plan_norm (l : list ProposedPlanSegment) : list ProposedPlanSegment :=
  map_segment <$> merge (unmap_segment <$> l).

Definition plan_visible (l : list ProposedPlanSegment) : str := l ≫= normal_text.

Lemma map_segments_eq l :
  map_segments l = mk_text_chunk (plan_visible (map_segment <$> l)) (map_segment <$> l).
Proof.
  unfold map_segments. enough (forall v e,
    foldl (fun out s => mk_text_chunk (visible_text out ++ normal_text (map_segment s))
      (extracted out ++ [map_segment s])) (mk_text_chunk v e) l =
    mk_text_chunk (v ++ plan_visible (map_segment <$> l)) (e ++ (map_segment <$> l))) as Hall.
  { apply Hall. }
  induction l as [|s l IH]; intros v e; cbn [foldl visible_text extracted].
  - by rewrite !app_nil_r.
  - rewrite IH, <- !app_assoc. done.
Qed.

Lemma visible_push l s :
  plan_visible (map_segment <$> push_segment l s) =
  plan_visible (map_segment <$> l) ++ normal_text (map_segment s).
Proof.
  assert (forall l (s : TaggedLineSegment PlanTag), plan_visible (map_segment <$> l ++ [s]) =
    plan_visible (map_segment <$> l) ++ normal_text (map_segment s)) as Hsnoc.
  { intros l' s'. unfold plan_visible. rewrite fmap_app, bind_app. cbn. by rewrite app_nil_r. }
  destruct l as [|s' l _] using rev_ind.
  { destruct s as [[]|[]|[] []|[]]; cbn; by rewrite ?app_nil_r. }
  destruct s as [[|c t]|[]|[] [|c t]|[]]; cbn [push_segment]; rewrite ?last_snoc, ?Hsnoc;
    try (by cbn; rewrite ?app_nil_r); destruct s' as [s'|[]|[] s'|[]];
    repeat case_decide; rewrite ?removelast_last, ?Hsnoc; cbn; rewrite ?app_nil_r, <- ?app_assoc; done.
Qed.

Lemma visible_merge (l : list (TaggedLineSegment PlanTag)) : plan_visible (map_segment <$> merge l) = plan_visible (map_segment <$> l).
Proof.
  induction l as [|s l IH] using rev_ind; [done|]. unfold merge in *. rewrite foldl_app. cbn [foldl].
  rewrite visible_push, IH. unfold plan_visible. rewrite fmap_app, bind_app. cbn. by rewrite app_nil_r.
Qed.

Lemma plan_push p s :
  push_str p s =
  Ok (mk_plan (char_steps (plan_inner p) s).1,
      mk_text_chunk (plan_visible (map_segment <$> (char_steps (plan_inner p) s).2))
        (map_segment <$> merge (char_steps (plan_inner p) s).2)).
Proof. cbn. by rewrite tagged_parse_steps, map_segments_eq, visible_merge. Qed.

Lemma plan_norm_map (l : list (TaggedLineSegment PlanTag)) : plan_norm (map_segment <$> l) = map_segment <$> merge l.
Proof. unfold plan_norm. by rewrite unmap_map. Qed.

Lemma plan_norm_app x y : plan_norm (x ++ y) = plan_norm (plan_norm x ++ plan_norm y).
Proof.
  unfold plan_norm. rewrite fmap_app, merge_app. rewrite !fmap_app, !unmap_map. done.
Qed.

#[export] Instance plan_laws : StreamTextLaws ProposedPlanParser ProposedPlanSegment.
Proof.
  refine {| stream_inv _ := True; norm := plan_norm |}.
  - intros p s _. eexists _, _. by rewrite plan_push.
  - intros [p] _. rewrite plan_push. done.
  - intros p a b p1 o1 p2 o2 _. rewrite !plan_push. intros [= <- <-].
    cbn [plan_inner]. intros [= <- <-]. eexists. rewrite char_steps_app. split; [done|].
    cbn [visible_text extracted]. split; [cbn [snd]; rewrite fmap_app; apply bind_app|].
    cbn [snd]. rewrite <- fmap_app, !plan_norm_map, merge_merge. f_equal. apply merge_app.
  - apply plan_norm_app.
Defined.

(** What a text says once its plan blocks are found line by line. *)
Definition plan_segments_of (text : str) : list ProposedPlanSegment :=
  map_segment <$> merge (text_segments [mk_tag_spec OPEN_TAG CLOSE_TAG ProposedPlan] text).

Lemma plan_stream pieces :
  exists p out, push_pieces plan_new pieces = Ok (p, out) /\
    let all := chunk_app out (finish p).2 in
    plan_norm (extracted all) = plan_segments_of (concat pieces) /\
    visible_text all = plan_visible (plan_segments_of (concat pieces)).
Proof.
  destruct (@push_pieces_concat _ _ _ plan_laws plan_new pieces I) as (p & o & o' & E & E' & Hv & Hn & _).
  exists p, o. split; [done|]. rewrite plan_push in E'. injection E' as <- <-.
  cbn [visible_text extracted] in *.
  pose proof (char_steps_lines [mk_tag_spec OPEN_TAG CLOSE_TAG ProposedPlan] (concat pieces)) as Hl.
  cbv zeta in *. cbn [plan_inner plan_new] in *. set (r := char_steps _ (concat pieces)) in *.
  cbn [finish plan_parser plan_inner]. destruct (tagged_finish r.1) as [q tl].
  rewrite map_segments_eq. cbn [snd chunk_app visible_text extracted] in *. split.
  - change (norm (extracted o)) with (plan_norm (extracted o)) in Hn.
    change (norm (map_segment <$> merge r.2)) with (plan_norm (map_segment <$> merge r.2)) in Hn.
    rewrite plan_norm_app, Hn, <- plan_norm_app, <- fmap_app, plan_norm_map.
    unfold plan_segments_of. f_equal. unfold same_segments in Hl. rewrite <- Hl.
    by rewrite merge_app, merge_merge, <- merge_app.
  - rewrite Hv. unfold plan_segments_of. unfold same_segments in Hl. rewrite <- Hl, visible_merge.
    by rewrite fmap_app; unfold plan_visible; rewrite bind_app.
Qed.
