(* ===== verification/Utf8Stream.v ===== *)
(** * Text from bytes, and the assistant's text ([utils/stream-parser])

    [std::str::from_utf8], the parser that turns chunks of bytes into text for
    another stream parser ([utf8_stream.rs]), and the parser for the text of
    the assistant ([assistant_text.rs]), which removes citations and then plan
    blocks. *)

From Stdlib Require Import ZifyN.
From S2P Require Export TaggedLines.

#[local] Ltac Zify.zify_post_hook ::= Z.div_mod_to_equations.

(** ** UTF-8 *)

Definition bytes := list N.

(** A Unicode scalar value. *)
Definition is_scalar (c : char) : bool := ((c <? 55296) || (57344 <=? c) && (c <? 1114112))%N.

Definition in_range (lo hi b : N) : bool := ((lo <=? b) && (b <=? hi))%N.

Definition is_cont : N -> bool := in_range 128 191.

(** The second byte of a three-byte and of a four-byte sequence. *)
Definition second_of_3 (b0 : N) : N -> bool :=
  if (b0 =? 224)%N then in_range 160 191 else if (b0 =? 237)%N then in_range 128 159 else is_cont.

Definition second_of_4 (b0 : N) : N -> bool :=
  if (b0 =? 240)%N then in_range 144 191 else if (b0 =? 244)%N then in_range 128 143 else is_cont.

(** One step of the validation: a character, an error with its [error_len], or
    bytes that end inside a character. *)
Inductive utf8_step :=
| CharRead (c : char) (rest : bytes)
| BadBytes (error_len : nat)
| EndInside.

(** [k] after a byte that satisfies [ok]; [n] bytes are in error otherwise. *)
Definition with_next (ok : N -> bool) (n : nat) (bs : bytes) (k : N -> bytes -> utf8_step) : utf8_step :=
  match bs with
  | [] => EndInside
  | b :: rest => if ok b then k b rest else BadBytes n
  end.

Definition next_char (bs : bytes) : utf8_step :=
  match bs with
  | [] => EndInside
  | b0 :: rest =>
    if (b0 <? 128)%N then CharRead b0 rest
    else if in_range 194 223 b0 then
      with_next is_cont 1 rest (fun b1 rest =>
      CharRead ((b0 - 192) * 64 + (b1 - 128)) rest)
    else if in_range 224 239 b0 then
      with_next (second_of_3 b0) 1 rest (fun b1 rest =>
      with_next is_cont 2 rest (fun b2 rest =>
      CharRead ((b0 - 224) * 4096 + (b1 - 128) * 64 + (b2 - 128)) rest))
    else if in_range 240 244 b0 then
      with_next (second_of_4 b0) 1 rest (fun b1 rest =>
      with_next is_cont 2 rest (fun b2 rest =>
      with_next is_cont 3 rest (fun b3 rest =>
      CharRead ((b0 - 240) * 262144 + (b1 - 128) * 4096 + (b2 - 128) * 64 + (b3 - 128)) rest)))
    else BadBytes 1
  end%N.

(** The text read, the bytes that are left, and why they are. *)
Fixpoint decode_from (fuel : nat) (bs : bytes) : str * bytes * option (option nat) :=
  match fuel, bs with
  | 0, _ | _, [] => ([], bs, None)
  | S fuel, _ =>
    match next_char bs with
    | CharRead c rest => let '(t, r, e) := decode_from fuel rest in (c :: t, r, e)
    | BadBytes n => ([], bs, Some (Some n))
    | EndInside => ([], bs, Some None)
    end
  end.

Definition decode (bs : bytes) : str * bytes * option (option nat) := decode_from (length bs) bs.

Record Utf8Error := mk_utf8_error { valid_up_to : nat; error_len : option nat }.

Definition from_utf8 (bs : bytes) : str + Utf8Error :=
  match decode bs with
  | (t, _, None) => inl t
  | (_, r, Some e) => inr (mk_utf8_error (length bs - length r) e)
  end.

(** ** Chunks of bytes ([utf8_stream.rs]) *)

Inductive Utf8StreamParserError :=
| InvalidUtf8 (valid_up_to : nat) (error_len : nat)
| IncompleteUtf8AtEof.

Record Utf8StreamParser (P : Type) := mk_utf8 { utf8_inner : P; pending_utf8 : bytes }.
Arguments mk_utf8 {P}.
Arguments utf8_inner {P}.
Arguments pending_utf8 {P}.

Section utf8.
Context {P T : Type} `{StreamTextParser P T}.
Notation outcome := (StreamTextChunk T + Utf8StreamParserError)%type.

Definition utf8_new (inner : P) : Utf8StreamParser P := mk_utf8 inner [].

Definition push_bytes (u : Utf8StreamParser P) (chunk : bytes)
    : res Empty_set (Utf8StreamParser P * outcome) :=
  let old_len := length (pending_utf8 u) in
  let pending := pending_utf8 u ++ chunk in
  match from_utf8 pending with
  | inl text =>
    let? r := push_str (utf8_inner u) text in
    let '(inner, out) := r in Ok (mk_utf8 inner [], inl out)
  | inr err =>
    match error_len err with
    | Some n =>
      Ok (mk_utf8 (utf8_inner u) (take old_len pending), inr (InvalidUtf8 (valid_up_to err) n))
    | None =>
      if valid_up_to err =? 0 then Ok (mk_utf8 (utf8_inner u) pending, inl chunk_default)
      else
        match from_utf8 (take (valid_up_to err) pending) with
        | inl text =>
          let? r := push_str (utf8_inner u) text in
          let '(inner, out) := r in Ok (mk_utf8 inner (drop (valid_up_to err) pending), inl out)
        | inr prefix_err =>
          Ok (mk_utf8 (utf8_inner u) (take old_len pending),
              inr (InvalidUtf8 (valid_up_to prefix_err) (default 0 (error_len prefix_err))))
        end
    end
  end.

Definition utf8_error (err : Utf8Error) : Utf8StreamParserError :=
  match error_len err with
  | Some n => InvalidUtf8 (valid_up_to err) n
  | None => IncompleteUtf8AtEof
  end.

Definition utf8_finish (u : Utf8StreamParser P) : res Empty_set (Utf8StreamParser P * outcome) :=
  let flush u out :=
    let '(inner, tail) := finish (utf8_inner u) in
    Ok (mk_utf8 inner (pending_utf8 u), inl (chunk_app out tail)) in
  match pending_utf8 u with
  | [] => flush u chunk_default
  | _ =>
    match from_utf8 (pending_utf8 u) with
    | inr err => Ok (u, inr (utf8_error err))
    | inl text =>
      let? r := push_str (utf8_inner u) text in
      let '(inner, out) := r in flush (mk_utf8 inner []) out
    end
  end.

Definition into_inner (u : Utf8StreamParser P) : P + Utf8StreamParserError :=
  match pending_utf8 u with
  | [] => inl (utf8_inner u)
  | _ =>
    match from_utf8 (pending_utf8 u) with
    | inl _ => inl (utf8_inner u)
    | inr err => inr (utf8_error err)
    end
  end.

Definition into_inner_lossy (u : Utf8StreamParser P) : P := utf8_inner u.

(** A caller that goes on after an error: the final state, the output and the
    chunks that were accepted. *)
Fixpoint push_chunks (u : Utf8StreamParser P) (chunks : list bytes)
    : res Empty_set (Utf8StreamParser P * StreamTextChunk T * list bytes) :=
  match chunks with
  | [] => Ok (u, chunk_default, [])
  | chunk :: chunks =>
    let? r := push_bytes u chunk in
    let '(u, out) := r in
    let? r := push_chunks u chunks in
    let '(u, rest, accepted) := r in
    Ok (match out with
        | inl out => (u, chunk_app out rest, chunk :: accepted)
        | inr _ => (u, rest, accepted)
        end)
  end.
End utf8.

(** ** The assistant's text ([assistant_text.rs]) *)

Record AssistantTextChunk := mk_assistant_chunk {
  assistant_visible : str;
  citations : list str;
  plan_segments : list ProposedPlanSegment
}.

Definition assistant_chunk_is_empty (c : AssistantTextChunk) : bool :=
  match assistant_visible c, citations c, plan_segments c with [], [], [] => true | _, _, _ => false end.

Record AssistantTextStreamParser := mk_assistant {
  plan_mode : bool;
  assistant_citations : CitationStreamParser;
  assistant_plan : ProposedPlanParser
}.

Definition assistant_new (plan_mode : bool) : AssistantTextStreamParser :=
  mk_assistant plan_mode citation_new plan_new.

Definition parse_visible_text (p : AssistantTextStreamParser) (visible : str)
    : res Empty_set (AssistantTextStreamParser * AssistantTextChunk) :=
  if plan_mode p then
    let? r := push_str (assistant_plan p) visible in
    let '(plan, chunk) := r in
    Ok (mk_assistant (plan_mode p) (assistant_citations p) plan,
        mk_assistant_chunk (visible_text chunk) [] (extracted chunk))
  else Ok (p, mk_assistant_chunk visible [] []).

Definition assistant_push_str (p : AssistantTextStreamParser) (chunk : str)
    : res Empty_set (AssistantTextStreamParser * AssistantTextChunk) :=
  let? r := push_str (assistant_citations p) chunk in
  let '(cit, citation_chunk) := r in
  let? r := parse_visible_text (mk_assistant (plan_mode p) cit (assistant_plan p))
              (visible_text citation_chunk) in
  let '(p, out) := r in
  Ok (p, mk_assistant_chunk (assistant_visible out) (extracted citation_chunk) (plan_segments out)).

Definition assistant_finish (p : AssistantTextStreamParser)
    : res Empty_set (AssistantTextStreamParser * AssistantTextChunk) :=
  let '(cit, citation_chunk) := finish (assistant_citations p) in
  let? r := parse_visible_text (mk_assistant (plan_mode p) cit (assistant_plan p))
              (visible_text citation_chunk) in
  let '(p, out) := r in
  let '(p, out) :=
    if plan_mode p then
      let '(plan, tail) := finish (assistant_plan p) in
      (mk_assistant (plan_mode p) (assistant_citations p) plan,
       match visible_text tail, extracted tail with
       | [], [] => out
       | _, _ => mk_assistant_chunk (assistant_visible out ++ visible_text tail) (citations out)
                   (plan_segments out ++ extracted tail)
       end)
    else (p, out) in
  Ok (p, mk_assistant_chunk (assistant_visible out) (extracted citation_chunk) (plan_segments out)).

Definition assistant_chunk_app (a b : AssistantTextChunk) : AssistantTextChunk :=
  mk_assistant_chunk (assistant_visible a ++ assistant_visible b) (citations a ++ citations b)
    (plan_segments a ++ plan_segments b).

(** All pushes and the end of one text. *)
Fixpoint assistant_run (p : AssistantTextStreamParser) (pieces : list str)
    : res Empty_set AssistantTextChunk :=
  match pieces with
  | [] => let? r := assistant_finish p in Ok r.2
  | s :: pieces =>
    let? r := assistant_push_str p s in
    let? rest := assistant_run r.1 pieces in
    Ok (assistant_chunk_app r.2 rest)
  end.

Example utf8_examples :
  from_utf8 [195; 169; 97]%N = inl [233; 97]%N /\
  from_utf8 [97; 195]%N = inr (mk_utf8_error 1 None) /\
  from_utf8 [97; 255; 97]%N = inr (mk_utf8_error 1 (Some 1)) /\
  from_utf8 [237; 160; 128]%N = inr (mk_utf8_error 0 (Some 1)) /\
  from_utf8 [240; 159; 152; 128]%N = inl [128512]%N.
Proof. vm_compute. done. Qed.

(** ** Decoding *)

Lemma is_scalar_bounds c :
  is_scalar c = true <-> (c < 55296 \/ 57344 <= c < 1114112)%N.
Proof. unfold is_scalar. rewrite orb_true_iff, andb_true_iff, !N.ltb_lt, N.leb_le. done. Qed.

Lemma in_range_true lo hi b : in_range lo hi b = true <-> (lo <= b <= hi)%N.
Proof. unfold in_range. rewrite andb_true_iff, !N.leb_le. done. Qed.

Lemma in_range_false lo hi b : in_range lo hi b = false <-> (b < lo \/ hi < b)%N.
Proof. unfold in_range. rewrite andb_false_iff, !N.leb_gt. done. Qed.

Ltac range_iff :=
  rewrite ?N.eqb_eq, ?N.eqb_neq in *; split;
  [intros; split_and!; intros; lia|intros (? & ? & ?); lia].

Lemma second_of_3_true b0 b1 :
  second_of_3 b0 b1 = true <->
  (128 <= b1 <= 191 /\ (b0 <> 224 \/ 160 <= b1) /\ (b0 <> 237 \/ b1 <= 159))%N.
Proof.
  unfold second_of_3, is_cont.
  destruct (b0 =? 224)%N eqn:E1, (b0 =? 237)%N eqn:E2; rewrite in_range_true; range_iff.
Qed.

Lemma second_of_4_true b0 b1 :
  second_of_4 b0 b1 = true <->
  (128 <= b1 <= 191 /\ (b0 <> 240 \/ 144 <= b1) /\ (b0 <> 244 \/ b1 <= 143))%N.
Proof.
  unfold second_of_4, is_cont.
  destruct (b0 =? 240)%N eqn:E1, (b0 =? 244)%N eqn:E2; rewrite in_range_true; range_iff.
Qed.

Ltac byte_cases :=
  repeat match goal with
  | H : in_range _ _ _ = true |- _ => apply in_range_true in H
  | H : in_range _ _ _ = false |- _ => apply in_range_false in H
  | H : is_cont _ = true |- _ => apply in_range_true in H
  | H : second_of_3 _ _ = true |- _ => apply second_of_3_true in H
  | H : second_of_4 _ _ = true |- _ => apply second_of_4_true in H
  | H : (_ <? _)%N = true |- _ => apply N.ltb_lt in H
  | H : (_ <? _)%N = false |- _ => apply N.ltb_ge in H
  end.

Lemma with_next_true ok n b rest k : ok b = true -> with_next ok n (b :: rest) k = k b rest.
Proof. intros Hb. cbn. by rewrite Hb. Qed.

Lemma with_next_read ok n bs k c r :
  with_next ok n bs k = CharRead c r ->
  exists b rest, bs = b :: rest /\ ok b = true /\ k b rest = CharRead c r.
Proof. destruct bs as [|b rest]; cbn; [done|]. destruct (ok b) eqn:E; [|done]. eauto. Qed.

Lemma next_char_sound bs c r :
  next_char bs = CharRead c r -> is_scalar c = true /\ bs = utf8_char c ++ r.
Proof.
  destruct bs as [|b0 rest]; [done|]. cbn [next_char]. rewrite is_scalar_bounds. unfold utf8_char.
  destruct (b0 <? 128)%N eqn:E1.
  { intros [= <- <-]. rewrite E1. byte_cases. split; [lia|done]. }
  destruct (in_range 194 223 b0) eqn:E2.
  { intros (b1 & r1 & -> & H1 & [= <- <-])%with_next_read. byte_cases. split; [lia|].
    destruct (_ <? 128)%N eqn:F1; [byte_cases; lia|].
    destruct (_ <? 2048)%N eqn:F2; [|byte_cases; lia]. cbn [app]. repeat (apply (f_equal2 cons); [lia|]). done. }
  destruct (in_range 224 239 b0) eqn:E3.
  { intros (b1 & r1 & -> & H1 & (b2 & r2 & -> & H2 & [= <- <-])%with_next_read)%with_next_read.
    byte_cases. split; [lia|].
    destruct (_ <? 128)%N eqn:F1; [byte_cases; lia|].
    destruct (_ <? 2048)%N eqn:F2; [byte_cases; lia|].
    destruct (_ <? 65536)%N eqn:F3; [|byte_cases; lia]. cbn [app]. repeat (apply (f_equal2 cons); [lia|]). done. }
  destruct (in_range 240 244 b0) eqn:E4; [|done].
  intros (b1 & r1 & -> & H1 & (b2 & r2 & -> & H2 & (b3 & r3 & -> & H3 & [= <- <-])%with_next_read)%with_next_read)%with_next_read.
  byte_cases. split; [lia|].
  destruct (_ <? 128)%N eqn:F1; [byte_cases; lia|].
  destruct (_ <? 2048)%N eqn:F2; [byte_cases; lia|].
  destruct (_ <? 65536)%N eqn:F3; [byte_cases; lia|]. cbn [app]. repeat (apply (f_equal2 cons); [lia|]). done.
Qed.

Lemma next_char_complete c r : is_scalar c = true -> next_char (utf8_char c ++ r) = CharRead c r.
Proof.
  intros Hc%is_scalar_bounds. unfold utf8_char.
  destruct (c <? 128)%N eqn:E1; [cbn; by rewrite E1|].
  destruct (c <? 2048)%N eqn:E2; [|destruct (c <? 65536)%N eqn:E3]; byte_cases; cbn [app next_char].
  - rewrite (proj2 (N.ltb_ge _ _)) by lia. rewrite (proj2 (in_range_true _ _ _)) by lia.
    rewrite with_next_true by (apply in_range_true; lia). f_equal. lia.
  - rewrite (proj2 (N.ltb_ge _ _)) by lia. rewrite (proj2 (in_range_false 194 _ _)) by lia.
    rewrite (proj2 (in_range_true _ _ _)) by lia.
    rewrite with_next_true by (apply second_of_3_true; lia).
    rewrite with_next_true by (apply in_range_true; lia). f_equal. lia.
  - rewrite (proj2 (N.ltb_ge _ _)) by lia. rewrite (proj2 (in_range_false 194 _ _)) by lia.
    rewrite (proj2 (in_range_false 224 _ _)) by lia. rewrite (proj2 (in_range_true _ _ _)) by lia.
    rewrite with_next_true by (apply second_of_4_true; lia).
    rewrite !with_next_true by (apply in_range_true; lia). f_equal. lia.
Qed.

Lemma with_next_bad ok n bs k u m :
  (forall b r, k b r = BadBytes m -> k b (r ++ u) = BadBytes m) ->
  with_next ok n bs k = BadBytes m -> with_next ok n (bs ++ u) k = BadBytes m.
Proof. intros Hk. destruct bs as [|b r]; cbn; [done|]. destruct (ok b); auto. Qed.

Lemma next_char_bad bs u n : next_char bs = BadBytes n -> next_char (bs ++ u) = BadBytes n.
Proof.
  destruct bs as [|b0 rest]; [done|]. cbn [next_char app].
  repeat case_match; try done; repeat (apply with_next_bad; intros); try done.
Qed.

(** Bytes that end inside a character are the start of one. *)
Lemma with_next_end ok n bs k :
  with_next ok n bs k = EndInside ->
  bs = [] \/ exists b r, bs = b :: r /\ ok b = true /\ k b r = EndInside.
Proof. destruct bs as [|b r]; cbn; [by left|]. destruct (ok b) eqn:E; [|done]. right. eauto. Qed.

Lemma second_3_exists b0 : exists b, second_of_3 b0 b = true.
Proof.
  destruct (N.eq_dec b0 224%N); [exists 160%N|exists 128%N]; apply second_of_3_true; lia.
Qed.

Lemma second_4_exists b0 : exists b, second_of_4 b0 b = true.
Proof.
  destruct (N.eq_dec b0 240%N); [exists 144%N|exists 128%N]; apply second_of_4_true; lia.
Qed.

Ltac finish_char s := exists s; eexists; cbn [app]; rewrite !with_next_true by done; done.

Lemma next_char_end bs :
  bs <> [] -> next_char bs = EndInside ->
  exists c s, is_scalar c = true /\ utf8_char c = bs ++ s /\ s <> [].
Proof.
  intros Hne He. enough (exists s c, next_char (bs ++ s) = CharRead c []) as (s & c & Hs).
  { exists c, s. pose proof (next_char_sound _ _ _ Hs) as [Hc Heq]. rewrite app_nil_r in Heq.
    split_and!; [done..|]. intros ->. rewrite app_nil_r in Hs. congruence. }
  destruct bs as [|b0 rest]; [done|]. cbn [next_char app] in *.
  destruct (b0 <? 128)%N; [done|]. destruct (in_range 194 223 b0).
  { apply with_next_end in He as [->|(b1 & r1 & -> & H1 & He)]; [|done]. finish_char [128%N]. }
  destruct (in_range 224 239 b0); [|destruct (in_range 240 244 b0); [|done]].
  - destruct (second_3_exists b0) as [b Hb].
    apply with_next_end in He as [->|(b1 & r1 & -> & H1 & He)]; [finish_char [b; 128%N]|].
    apply with_next_end in He as [->|(b2 & r2 & -> & H2 & He)]; [finish_char [128%N]|done].
  - destruct (second_4_exists b0) as [b Hb].
    apply with_next_end in He as [->|(b1 & r1 & -> & H1 & He)]; [finish_char [b; 128%N; 128%N]|].
    apply with_next_end in He as [->|(b2 & r2 & -> & H2 & He)]; [finish_char [128%N; 128%N]|].
    apply with_next_end in He as [->|(b3 & r3 & -> & H3 & He)]; [finish_char [128%N]|done].
Qed.

Lemma utf8_char_ne c : utf8_char c <> [].
Proof. unfold utf8_char. by repeat case_match. Qed.

Lemma decode_from_fuel n m bs :
  length bs <= n -> length bs <= m -> decode_from n bs = decode_from m bs.
Proof.
  revert m bs. induction n as [|n IH]; intros m bs Hn Hm.
  { destruct bs; [by destruct m|simpl in Hn; lia]. }
  destruct bs as [|b bs]; [by destruct m|]. destruct m as [|m]; [simpl in Hm; lia|].
  cbn [decode_from]. destruct (next_char (b :: bs)) as [c r| |] eqn:E; [|done..].
  apply next_char_sound in E as [_ E]. apply (f_equal length) in E. rewrite length_app in E.
  pose proof (utf8_char_ne c). destruct (utf8_char c); [done|]. simpl in *.
  by rewrite (IH m r) by lia.
Qed.

Lemma decode_step bs :
  decode bs =
  match bs with
  | [] => ([], [], None)
  | _ =>
    match next_char bs with
    | CharRead c rest => let '(t, r, e) := decode rest in (c :: t, r, e)
    | BadBytes n => ([], bs, Some (Some n))
    | EndInside => ([], bs, Some None)
    end
  end.
Proof.
  unfold decode. destruct bs as [|b bs]; [done|]. cbn [length decode_from].
  destruct (next_char (b :: bs)) as [c r| |] eqn:E; [|done..].
  apply next_char_sound in E as [_ E]. apply (f_equal length) in E. rewrite length_app in E.
  pose proof (utf8_char_ne c). destruct (utf8_char c); [done|]. simpl in *.
  by rewrite (decode_from_fuel (length bs) (length r) r) by lia.
Qed.

Lemma decode_app t r :
  Forall (fun c => is_scalar c = true) t ->
  decode (as_bytes t ++ r) = let '(t', r', e) := decode r in (t ++ t', r', e).
Proof.
  induction t as [|c t IH]; intros Ht; cbn [as_bytes mbind list_bind app].
  - by destruct (decode r) as [[??]?].
  - apply Forall_cons in Ht as [Hc Ht]. specialize (IH Ht). rewrite decode_step, <- app_assoc.
    rewrite next_char_complete by done. pose proof (utf8_char_ne c).
    destruct (utf8_char c); [done|]. cbn [app]. unfold as_bytes in IH. rewrite IH.
    by destruct (decode r) as [[??]?].
Qed.

(** What is left, and why. *)
Definition left_over (r : bytes) (e : option (option nat)) : Prop :=
  match e with
  | None => r = []
  | Some None => r <> [] /\ next_char r = EndInside
  | Some (Some n) => next_char r = BadBytes n
  end.

Lemma decode_sound bs : forall t r e,
  decode bs = (t, r, e) ->
  bs = as_bytes t ++ r /\ Forall (fun c => is_scalar c = true) t /\ left_over r e.
Proof.
  induction bs as [bs IH] using (induction_ltof1 _ length). unfold ltof in IH. intros t r e.
  rewrite decode_step. destruct bs as [|b bs]; [by intros [= <- <- <-]|].
  destruct (next_char (b :: bs)) as [c rest|n|] eqn:E; [|by intros [= <- <- <-]..].
  apply next_char_sound in E as [Hc E].
  destruct (decode rest) as [[t' r'] e'] eqn:Ed. intros [= <- <- <-].
  destruct (IH rest) with (t := t') (r := r') (e := e') as (-> & Ht & Hl); [|done|].
  - rewrite E, length_app. pose proof (utf8_char_ne c). destruct (utf8_char c); [done|simpl; lia].
  - split_and!; [|by constructor|done]. rewrite E. cbn. by rewrite <- app_assoc.
Qed.

Lemma as_bytes_app s t : as_bytes (s ++ t) = as_bytes s ++ as_bytes t.
Proof. apply bind_app. Qed.

Lemma decode_text t : Forall (fun c => is_scalar c = true) t -> decode (as_bytes t) = (t, [], None).
Proof.
  intros Ht. rewrite <- (app_nil_r (as_bytes t)), decode_app by done. cbn. by rewrite app_nil_r.
Qed.

(** A bad sequence stays bad whatever follows. *)
Lemma decode_bad bs t r n u :
  decode bs = (t, r, Some (Some n)) -> exists r', decode (bs ++ u) = (t, r', Some (Some n)).
Proof.
  intros (-> & Ht & Hl)%decode_sound. rewrite <- app_assoc, decode_app by done. cbn in Hl.
  rewrite decode_step. rewrite (next_char_bad _ _ _ Hl).
  destruct r as [|b r]; [done|]. cbn. eexists. by rewrite app_nil_r.
Qed.

Lemma from_utf8_decode bs t r e :
  decode bs = (t, r, e) ->
  from_utf8 bs = match e with None => inl t | Some e => inr (mk_utf8_error (length (as_bytes t)) e) end.
Proof.
  intros E. unfold from_utf8. rewrite E. destruct e as [e|]; [|done].
  apply decode_sound in E as (-> & _ & _). do 2 f_equal. rewrite length_app. lia.
Qed.

(** Some text starts with these bytes. *)
Definition completable (bs : bytes) : Prop :=
  exists t s, Forall (fun c => is_scalar c = true) t /\ as_bytes t = bs ++ s.

Lemma completable_decode bs t r e :
  decode bs = (t, r, e) -> completable bs <-> match e with Some (Some _) => False | _ => True end.
Proof.
  intros E. split.
  - intros (t' & s & Ht' & Es). destruct e as [[n|]|]; try done.
    destruct (decode_bad _ _ _ _ s E) as (r' & E'). rewrite <- Es, decode_text in E' by done. done.
  - intros Hb. pose proof (decode_sound _ _ _ _ E) as (-> & Ht & Hl).
    destruct e as [[n|]|]; [done| |].
    + destruct Hl as [Hne Hl]. destruct (next_char_end _ Hne Hl) as (c & s & Hc & Hs & _).
      exists (t ++ [c]), s. split; [apply Forall_app; by split; [|constructor]|].
      rewrite as_bytes_app, <- app_assoc, <- Hs. cbn. by rewrite app_nil_r.
    + cbn in Hl. subst r. exists t, []. by rewrite !app_nil_r.
Qed.

Section pushes.
Context {P T : Type} `{StreamTextLaws P T}.
Implicit Types (u : Utf8StreamParser P).

(** The states between two pushes: less than a character is kept. *)
Definition utf8_inv u : Prop :=
  stream_inv (utf8_inner u) /\
  (pending_utf8 u = [] \/ next_char (pending_utf8 u) = EndInside).

Lemma as_bytes_nil t : as_bytes t = [] -> t = [].
Proof.
  destruct t as [|c t]; [done|]. cbn. intros [E _]%app_nil. by destruct (utf8_char_ne c E).
Qed.

Lemma push_bytes_bad u chunk t r n :
  decode (pending_utf8 u ++ chunk) = (t, r, Some (Some n)) ->
  push_bytes u chunk = Ok (u, inr (InvalidUtf8 (length (as_bytes t)) n)).
Proof.
  intros E. unfold push_bytes. rewrite (from_utf8_decode _ _ _ _ E). cbn.
  rewrite take_app_length. by destruct u.
Qed.

Lemma push_bytes_good u chunk t r e p' o :
  utf8_inv u ->
  decode (pending_utf8 u ++ chunk) = (t, r, e) -> (e = None \/ e = Some None) ->
  push_str (utf8_inner u) t = Ok (p', o) ->
  push_bytes u chunk = Ok (mk_utf8 p' r, inl o).
Proof.
  intros [Hi _] E He Hp. unfold push_bytes. rewrite (from_utf8_decode _ _ _ _ E).
  pose proof (decode_sound _ _ _ _ E) as (Es & Ht & Hl).
  destruct He as [->| ->]; cbn [error_len valid_up_to]; [cbn in Hl; subst r; by rewrite Hp|].
  destruct (length (as_bytes t) =? 0) eqn:E0.
  - apply Nat.eqb_eq, nil_length_inv in E0. rewrite Es, E0. apply as_bytes_nil in E0 as ->.
    rewrite push_nil in Hp by done. injection Hp as <- <-. done.
  - rewrite Es, take_app_length, drop_app_length.
    rewrite (from_utf8_decode _ _ _ _ (decode_text t Ht)). by rewrite Hp.
Qed.

Lemma left_over_inside r e : left_over r e -> (e = None \/ e = Some None) -> r = [] \/ next_char r = EndInside.
Proof. intros Hl [->| ->]; [by left|right; apply Hl]. Qed.

(** [u'] and [out] are what pushing the text [t] to the inner parser gives. *)
Definition pushed u (t : str) u' (out : StreamTextChunk T) : Prop :=
  exists o, push_str (utf8_inner u) t = Ok (utf8_inner u', o) /\
    visible_text out = visible_text o /\ norm (extracted out) = norm (extracted o).

Lemma pushed_app u t1 u1 o1 t2 u2 o2 :
  stream_inv (utf8_inner u) -> push_str (utf8_inner u) t1 = Ok (utf8_inner u1, o1) ->
  pushed u1 t2 u2 o2 -> pushed u (t1 ++ t2) u2 (chunk_app o1 o2).
Proof.
  intros Hi H1 (o & H2 & Hv & Hn).
  destruct (push_app _ _ _ _ _ _ _ Hi H1 H2) as (o' & E & Hv' & Hn').
  exists o'. split_and!; [done|by rewrite Hv', <- Hv|].
  by rewrite Hn', norm_app, <- Hn, <- norm_app.
Qed.

(** Whatever the chunks are, the text read is that of the accepted ones. *)
Lemma push_chunks_decode u chunks :
  utf8_inv u ->
  exists u' out acc t, push_chunks u chunks = Ok (u', out, acc) /\ utf8_inv u' /\
    pending_utf8 u ++ concat acc = as_bytes t ++ pending_utf8 u' /\
    Forall (fun c => is_scalar c = true) t /\ pushed u t u' out.
Proof.
  revert u. induction chunks as [|chunk chunks IH]; intros u Hu; cbn [push_chunks].
  { exists u, chunk_default, [], []. split_and!; [done|done|by rewrite app_nil_r|done|].
    exists chunk_default. split; [|done]. apply push_nil, Hu. }
  destruct (decode (pending_utf8 u ++ chunk)) as [[t r] e] eqn:E.
  destruct e as [[n|]|] eqn:Ee.
  { rewrite (push_bytes_bad _ _ _ _ _ E). cbn [res_bind].
    destruct (IH u Hu) as (u' & out & acc & t' & -> & Hrest). by exists u', out, acc, t'. }
  all: assert (e = None \/ e = Some None) as He by (subst e; auto); rewrite <- Ee in E;
    destruct (push_returns _ t (proj1 Hu)) as (p' & o & Hp & Hi);
    rewrite (push_bytes_good _ _ _ _ _ _ _ Hu E He Hp); cbn [res_bind];
    pose proof (decode_sound _ _ _ _ E) as (Es & Ht & Hl);
    destruct (IH (mk_utf8 p' r)) as (u' & out & acc & t' & -> & Hu' & Ec & Ht' & Hpush);
      [by split; [|by eapply left_over_inside]|];
    cbn [res_bind]; exists u', (chunk_app o out), (chunk :: acc), (t ++ t');
    split_and!; [done|done| |by apply Forall_app|by (apply (pushed_app _ _ (mk_utf8 p' r)); [apply Hu|..])];
    cbn [concat pending_utf8] in *; by rewrite app_assoc, Es, as_bytes_app, <- !app_assoc, Ec.
Qed.

(** No chunk of a text is refused. *)
Lemma push_chunks_accepts u chunks t :
  utf8_inv u -> Forall (fun c => is_scalar c = true) t ->
  pending_utf8 u ++ concat chunks = as_bytes t ->
  forall r, push_chunks u chunks = Ok r -> r.2 = chunks.
Proof.
  revert u t. induction chunks as [|chunk chunks IH]; intros u t Hu Ht Et r; cbn [push_chunks].
  { by intros [= <-]. }
  destruct (decode (pending_utf8 u ++ chunk)) as [[t1 r1] e] eqn:E.
  pose proof (completable_decode _ _ _ _ E) as Hc.
  assert (completable (pending_utf8 u ++ chunk)) as Hcomp.
  { exists t, (concat chunks). split; [done|]. by rewrite <- Et, <- app_assoc. }
  assert (e = None \/ e = Some None) as He.
  { apply Hc in Hcomp. destruct e as [[]|]; auto; done. }
  destruct (push_returns _ t1 (proj1 Hu)) as (p' & o & Hp & Hi).
  rewrite (push_bytes_good _ _ _ _ _ _ _ Hu E He Hp). cbn [res_bind].
  pose proof (decode_sound _ _ _ _ E) as (Es & Ht1 & Hl).
  destruct (push_chunks _ chunks) as [[[u2 rest] acc]| | |] eqn:Er; try done.
  cbn [res_bind]. intros [= <-]. cbn [snd]. f_equal.
  assert (exists t2, Forall (fun c => is_scalar c = true) t2 /\ r1 ++ concat chunks = as_bytes t2)
    as (t2 & Ht2 & E2).
  { cbn [concat] in Et. rewrite app_assoc, Es, <- app_assoc in Et.
    pose proof (decode_text t Ht) as Ed. rewrite <- Et, decode_app in Ed by done.
    destruct (decode (r1 ++ concat chunks)) as [[t2 r2] e2] eqn:E2.
    injection Ed as _ -> ->. apply decode_sound in E2 as (E2 & Ht2 & _).
    exists t2. by rewrite app_nil_r in E2. }
  apply (IH (mk_utf8 p' r1) t2) with (r := (u2, rest, acc)); try done.
  split; [done|by eapply left_over_inside].
Qed.
End pushes.

(** C15: a chunk of bytes is refused exactly when no text starts with the bytes
    kept so far followed by the chunk.  A refused chunk leaves the parser as it
    was, and a code point that is cut at the end of a chunk is never an error. *)
Theorem utf8_refuses_exactly {P T} `{StreamTextLaws P T} (u : Utf8StreamParser P) (chunk : bytes) :
  utf8_inv u ->
  match push_bytes u chunk with
  | Ok (u', inr (InvalidUtf8 _ _)) => u' = u /\ ~ completable (pending_utf8 u ++ chunk)
  | Ok (u', inl _) => utf8_inv u' /\ completable (pending_utf8 u ++ chunk)
  | _ => False
  end.
Proof.
  intros Hu. destruct (decode (pending_utf8 u ++ chunk)) as [[t r] e] eqn:E.
  pose proof (completable_decode _ _ _ _ E) as Hc. destruct e as [[n|]|].
  { rewrite (push_bytes_bad _ _ _ _ _ E). split; [done|]. intros Hx%Hc. exact Hx. }
  all: destruct (push_returns _ t (proj1 Hu)) as (p' & o & Hp & Hi);
    rewrite (push_bytes_good _ _ _ _ _ _ _ Hu E) by eauto;
    pose proof (decode_sound _ _ _ _ E) as (_ & _ & Hl);
    (split; [split; [done|by eapply left_over_inside; eauto]|by apply Hc]).
Qed.

Lemma citation_new_inv : stream_inv citation_new.
Proof. apply inline_start_inv; done. Qed.

Lemma utf8_new_inv {P T} `{StreamTextLaws P T} (p : P) : stream_inv p -> utf8_inv (utf8_new p).
Proof. intros Hp. split; [done|by left]. Qed.

Lemma utf8_refuses_exactly_witness :
  push_bytes (utf8_new citation_new) [97; 255]%N
    = Ok (utf8_new citation_new, inr (InvalidUtf8 1 1)) /\
  ~ completable [97; 255]%N.
Proof.
  split; [by vm_compute|].
  assert (push_bytes (utf8_new citation_new) [97; 255]%N
    = Ok (utf8_new citation_new, inr (InvalidUtf8 1 1))) as E by (by vm_compute).
  pose proof (utf8_refuses_exactly (utf8_new citation_new) [97; 255]%N
    (utf8_new_inv _ citation_new_inv)) as Hr.
  rewrite E in Hr. apply Hr.
Defined.

(** For a wrapped parser that keeps its interface's laws, the bytes of a
    text may be cut anywhere, inside code points too: no chunk is refused, the
    wrapped parser ends in the state it has after the text pushed at once, the
    output is the same up to merging, nothing is kept back, and the end of the
    stream is the end of the wrapped parser. *)
Theorem utf8_chunks_are_text {P T} `{StreamTextLaws P T} (p : P) (t : str) (chunks : list bytes) :
  stream_inv p -> Forall (fun c => is_scalar c = true) t -> concat chunks = as_bytes t ->
  exists p' out o, push_chunks (utf8_new p) chunks = Ok (mk_utf8 p' [], out, chunks) /\
    push_str p t = Ok (p', o) /\
    visible_text out = visible_text o /\ norm (extracted out) = norm (extracted o) /\
    utf8_finish (mk_utf8 p' []) = Ok (mk_utf8 (finish p').1 [], inl (finish p').2).
Proof.
  intros Hp Ht Hc. pose proof (utf8_new_inv p Hp) as Hu.
  destruct (push_chunks_decode (utf8_new p) chunks Hu)
    as (u' & out & acc & t' & E & [_ Hi] & Ec & Ht' & o & Hpush & Hv & Hn).
  pose proof (push_chunks_accepts _ chunks t Hu Ht Hc _ E) as Ha. cbn [snd] in Ha. subst acc.
  cbn [utf8_new pending_utf8 utf8_inner app] in *. rewrite Hc in Ec.
  pose proof (decode_text t Ht) as Ed. rewrite Ec, decode_app in Ed by done.
  destruct u' as [p' k]. cbn [pending_utf8 utf8_inner] in *.
  assert (k = []) as ->.
  { destruct Hi as [->|Hi]; [done|]. rewrite decode_step, Hi in Ed. by destruct k. }
  cbn in Ed. rewrite app_nil_r in Ed. injection Ed as ->.
  exists p', out, o. split_and!; [done..|]. unfold utf8_finish. cbn.
  by destruct (finish p') as [? []].
Qed.

Lemma utf8_chunks_are_text_witness :
  exists p' out o, push_chunks (utf8_new citation_new) [[97; 195]; [169]]%N
      = Ok (mk_utf8 p' [], out, [[97; 195]; [169]]%N) /\
    push_str citation_new [97; 233]%N = Ok (p', o) /\
    visible_text out = visible_text o /\ norm (extracted out) = norm (extracted o) /\
    utf8_finish (mk_utf8 p' []) = Ok (mk_utf8 (finish p').1 [], inl (finish p').2).
Proof.
  apply (utf8_chunks_are_text citation_new [97; 233]%N [[97; 195]; [169]]%N citation_new_inv).
  - by repeat constructor.
  - by vm_compute.
Defined.

(** A partial code point at the end is reported and the parser is unchanged. *)
Lemma utf8_finish_incomplete {P T} `{StreamTextLaws P T} (u : Utf8StreamParser P) :
  utf8_inv u -> pending_utf8 u <> [] ->
  utf8_finish u = Ok (u, inr IncompleteUtf8AtEof) /\ into_inner u = inr IncompleteUtf8AtEof.
Proof.
  intros [_ [Hp|Hp]] Hne; [done|]. unfold utf8_finish, into_inner.
  assert (decode (pending_utf8 u) = ([], pending_utf8 u, Some None)) as Ed.
  { rewrite decode_step, Hp. by destruct (pending_utf8 u). }
  rewrite (from_utf8_decode _ _ _ _ Ed). by destruct (pending_utf8 u).
Qed.

(** ** The assistant's text *)

Definition CITATION_SPEC : InlineTagSpec unit := mk_spec tt CITATION_OPEN CITATION_CLOSE.

Lemma citation_pieces p pieces q out :
  push_pieces p pieces = Ok (q, out) ->
  push_pieces (mk_citation p) pieces = Ok (mk_citation q, citation_chunk out).
Proof.
  revert p q out. induction pieces as [|s pieces IH]; intros p q out; cbn [push_pieces].
  { by intros [= <- <-]. }
  cbn [push_str citation_parser inline_parser citation_inner].
  destruct (inline_push_str p s) as [[p1 o1]| | |]; try done. cbn [res_bind].
  destruct (push_pieces p1 pieces) as [[p2 o2]| | |] eqn:E; try done. cbn [res_bind].
  rewrite (IH _ _ _ E). cbn [res_bind]. intros [= <- <-]. unfold citation_chunk, chunk_app. cbn.
  by rewrite fmap_app.
Qed.

Lemma citation_stream pieces :
  exists p out v bodies, push_pieces citation_new pieces = Ok (p, out) /\
    hidden CITATION_SPEC (concat pieces) v bodies /\
    chunk_app out (finish p).2 = mk_text_chunk v bodies.
Proof.
  destruct (pieces_hidden CITATION_SPEC ltac:(done) ltac:(done) pieces)
    as (p & out & v & bodies & E & Hh & Hf).
  exists (mk_citation p), (citation_chunk out), v, bodies. split; [by apply citation_pieces|].
  split; [done|]. cbn [finish citation_parser citation_inner].
  destruct (inline_finish p) as [q tl]. cbn [snd] in *.
  unfold chunk_app, citation_chunk in *. cbn in *. injection Hf as <- He.
  rewrite <- fmap_app, He. f_equal. rewrite <- list_fmap_compose. apply list_fmap_id.
Qed.

(** The parser as its two stages, in plan mode and outside it. *)
Lemma assistant_plan_stages cit plan pieces :
  stream_inv cit ->
  exists cit' oc plan' op vs, push_pieces cit pieces = Ok (cit', oc) /\
    concat vs = visible_text oc ++ visible_text (finish cit').2 /\
    push_pieces plan vs = Ok (plan', op) /\
    assistant_run (mk_assistant true cit plan) pieces =
      Ok (mk_assistant_chunk (visible_text op ++ visible_text (finish plan').2)
            (extracted oc ++ extracted (finish cit').2)
            (extracted op ++ extracted (finish plan').2)).
Proof.
  revert cit plan. induction pieces as [|s pieces IH]; intros cit plan Hi;
    cbn [push_pieces assistant_run].
  - destruct (finish cit) as [cit' tl] eqn:Ef.
    destruct (@push_returns _ _ _ plan_laws plan (visible_text tl) I) as (plan' & o & Ep & _).
    exists cit, chunk_default, plan', (chunk_app o chunk_default), [visible_text tl].
    split_and!; [done|by rewrite Ef; cbn; rewrite app_nil_r|by cbn [push_pieces]; rewrite Ep|].
    unfold assistant_finish, parse_visible_text. cbn [assistant_citations plan_mode assistant_plan].
    rewrite Ef, Ep. cbn [res_bind assistant_plan plan_mode]. destruct (finish plan') as [pl [v e]].
    cbn. rewrite !app_nil_r. by destruct v, e; cbn; rewrite ?app_nil_r.
  - destruct (push_returns cit s Hi) as (cit1 & o1 & E1 & Hi1). rewrite E1. cbn [res_bind].
    unfold assistant_push_str, parse_visible_text.
    cbn [assistant_citations plan_mode assistant_plan]. rewrite E1. cbn [res_bind plan_mode assistant_plan].
    destruct (@push_returns _ _ _ plan_laws plan (visible_text o1) I) as (plan1 & q1 & Ep & _). rewrite Ep.
    cbn [res_bind fst snd assistant_citations assistant_visible plan_segments].
    destruct (IH cit1 plan1 Hi1) as (cit' & oc & plan' & op & vs & -> & Hv & Epl & ->).
    cbn [res_bind]. exists cit', (chunk_app o1 oc), plan', (chunk_app q1 op), (visible_text o1 :: vs).
    split_and!; [done|cbn; by rewrite Hv, app_assoc|cbn [push_pieces]; by rewrite Ep; cbn [res_bind]; rewrite Epl|].
    unfold assistant_chunk_app. cbn. by rewrite !app_assoc.
Qed.

Lemma assistant_plain_stages cit plan pieces :
  stream_inv cit ->
  exists cit' oc, push_pieces cit pieces = Ok (cit', oc) /\
    assistant_run (mk_assistant false cit plan) pieces =
      Ok (mk_assistant_chunk (visible_text oc ++ visible_text (finish cit').2)
            (extracted oc ++ extracted (finish cit').2) []).
Proof.
  revert cit. induction pieces as [|s pieces IH]; intros cit Hi; cbn [push_pieces assistant_run].
  - exists cit, chunk_default. split; [done|]. unfold assistant_finish, parse_visible_text.
    cbn [assistant_citations plan_mode assistant_plan].
    by destruct (finish cit) as [cit' tl].
  - destruct (push_returns cit s Hi) as (cit1 & o1 & E1 & Hi1). rewrite E1. cbn [res_bind].
    unfold assistant_push_str, parse_visible_text.
    cbn [assistant_citations plan_mode assistant_plan]. rewrite E1. cbn [res_bind plan_mode assistant_plan fst snd].
    destruct (IH cit1 Hi1) as (cit' & oc & -> & ->).
    cbn [res_bind]. exists cit', (chunk_app o1 oc). split; [done|].
    unfold assistant_chunk_app. cbn. by rewrite !app_assoc.
Qed.

(** C14: however the assistant's text is cut into pieces, the parser returns the
    citations in order and shows the text without them.  In plan mode the text
    left by the citations is then read line by line, so that the plan blocks
    are removed from what is shown and their segments are given in order. *)
Theorem assistant_text_stages (mode : bool) (pieces : list str) :
  exists c v, assistant_run (assistant_new mode) pieces = Ok c /\
    hidden CITATION_SPEC (concat pieces) v (citations c) /\
    if mode then
      plan_norm (plan_segments c) = plan_segments_of v /\
      assistant_visible c = plan_visible (plan_segments_of v)
    else assistant_visible c = v /\ plan_segments c = [].
Proof.
  destruct (citation_stream pieces) as (p & out & v & bodies & E & Hh & Hf).
  pose proof (f_equal visible_text Hf) as Hv. pose proof (f_equal extracted Hf) as Hb. clear Hf.
  cbn [chunk_app visible_text extracted] in Hv, Hb. destruct mode.
  - destruct (assistant_plan_stages citation_new plan_new pieces citation_new_inv)
      as (cit' & oc & plan' & op & vs & E' & Hvs & Ep & Er).
    rewrite E in E'. injection E' as <- <-. rewrite Hv in Hvs.
    destruct (plan_stream vs) as (p2 & o2 & Ep2 & Hn & Hvis). rewrite Ep in Ep2.
    injection Ep2 as <- <-. rewrite Hvs in *.
    eexists _, v. split; [exact Er|]. cbn [citations plan_segments assistant_visible].
    rewrite Hb. auto.
  - destruct (assistant_plain_stages citation_new plan_new pieces citation_new_inv)
      as (cit' & oc & E' & Er).
    rewrite E in E'. injection E' as <- <-.
    eexists _, v. split; [exact Er|]. cbn [citations plan_segments assistant_visible].
    by rewrite Hb, Hv.
Qed.
