(* ===== verification/Permissions.v ===== *)
(** * Filesystem permissions ([protocol/src/permissions.rs])

    The entries of a sandbox policy, how they decide the access to a path, the
    roots that are handed to the sandbox, and the operations that change a
    policy.  A [Path] is its list of components; what is read from the
    environment and the filesystem is a record of functions. *)

From S2P Require Export AbsPath.

(** ** The environment *)

Record FsEnv := mk_env {
  env_home : option path;
  env_cwd : option path;
  tmpdir_var : option str;
  is_dir : path -> bool;
  is_file : path -> bool;
  path_exists : path -> bool;
  read_to_string : path -> option str;
  (** [symlink_metadata]: whether a path that exists is a link. *)
  is_symlink : path -> option bool;
  canonicalize : path -> option path
}.

(** ** Paths *)

(** [Path::starts_with] and [Path::strip_prefix] *)
Fixpoint path_strip_prefix (base p : path) : option path :=
  match base, p with
  | [], _ => Some p
  | a :: base', b :: p' => if decide (a = b) then path_strip_prefix base' p' else None
  | _ :: _, [] => None
  end.

Definition path_starts_with (p base : path) : bool :=
  match path_strip_prefix base p with Some _ => true | None => false end.

(** The ancestors of an absolute path, from the path to the root. *)
Definition ancestors (p : path) : list path :=
  (fun n => take n p) <$> reverse (seq 1 (length p)).

Section paths.
Variable E : FsEnv.

Definition expand_home (p : path) : path :=
  match env_home E, p with
  | Some home, Normal n :: rest => if str_eqb n [TILDE] then home ++ rest else p
  | _, _ => p
  end.

Definition abs_from (p : path) : option path := absolutize (env_cwd E) (expand_home p).

Definition resolve_against (p base : path) : path := absolutize_from (expand_home p) base.

(** [AbsolutePathBuf::join] *)
Definition abs_join (base p : path) : path := resolve_against p base.

Definition should_preserve_logical_path (logical : path) : bool :=
  existsb (fun ancestor =>
    bool_decide (is_symlink E ancestor = Some true)
    && match parent ancestor with
       | Some p => match parent p with Some _ => true | None => false end
       | None => false
       end) (ancestors logical).

Definition canonicalize_preserving_symlinks (p : path) : option path :=
  logical ← abs_from p;
  Some (match canonicalize E p with
        | Some canonical =>
          if should_preserve_logical_path logical && negb (bool_decide (canonical = logical))
          then logical else canonical
        | None => logical
        end).

(** The first ancestor that exists decides; the path itself when none does. *)
Definition normalize_effective_absolute_path (p : path) : path :=
  default p
    (head (omap (fun ancestor =>
       _ ← is_symlink E ancestor;
       normalized_ancestor ← canonicalize_preserving_symlinks ancestor;
       suffix ← path_strip_prefix ancestor p;
       abs_from (path_join normalized_ancestor suffix)) (ancestors p))).

Definition dedup_absolute_paths (paths : list path) (normalize_effective_paths : bool) : list path :=
  foldl (fun deduped p =>
    let dedup_path := if normalize_effective_paths then normalize_effective_absolute_path p else p in
    if decide (dedup_path ∈ deduped) then deduped else deduped ++ [dedup_path]) [] paths.
End paths.

(** ** Policies *)

Inductive NetworkSandboxPolicy := NetRestricted | NetEnabled.

(** In the order of [Ord]: deny beats write beats read. *)
Inductive FileSystemAccessMode := Read | Write | Deny.

#[export] Instance access_eq_dec : EqDecision FileSystemAccessMode.
Proof. solve_decision. Defined.

Definition access_rank (a : FileSystemAccessMode) : nat :=
  match a with Read => 0 | Write => 1 | Deny => 2 end.

Definition can_read (a : FileSystemAccessMode) : bool := match a with Deny => false | _ => true end.
Definition can_write (a : FileSystemAccessMode) : bool := match a with Write => true | _ => false end.

Inductive FileSystemSpecialPath :=
| Root
| Minimal
| ProjectRoots (subpath : option path)
| Tmpdir
| SlashTmp
| Unknown (token : str) (subpath : option path).

Inductive FileSystemPath :=
| FsPath (p : path)
| GlobPattern (pattern : str)
| Special (value : FileSystemSpecialPath).

#[export] Instance special_eq_dec : EqDecision FileSystemSpecialPath.
Proof. solve_decision. Defined.
#[export] Instance fs_path_eq_dec : EqDecision FileSystemPath.
Proof. solve_decision. Defined.

Record FileSystemSandboxEntry := mk_entry { entry_path : FileSystemPath; access : FileSystemAccessMode }.

#[export] Instance entry_eq_dec : EqDecision FileSystemSandboxEntry.
Proof. solve_decision. Defined.

Inductive FileSystemSandboxKind := Restricted | Unrestricted | ExternalSandbox.

#[export] Instance kind_eq_dec : EqDecision FileSystemSandboxKind.
Proof. solve_decision. Defined.

Record FileSystemSandboxPolicy := mk_fs_policy {
  policy_kind : FileSystemSandboxKind;
  glob_scan_max_depth : option nat;
  entries : list FileSystemSandboxEntry
}.

Record ResolvedFileSystemEntry := mk_resolved {
  resolved_path : path;
  resolved_access : FileSystemAccessMode
}.

Record WritableRoot := mk_writable_root {
  root : path;
  read_only_subpaths : list path;
  protected_metadata_names : list str
}.

Definition fs_restricted (l : list FileSystemSandboxEntry) : FileSystemSandboxPolicy :=
  mk_fs_policy Restricted None l.
Definition fs_unrestricted : FileSystemSandboxPolicy := mk_fs_policy Unrestricted None [].
Definition fs_external_sandbox : FileSystemSandboxPolicy := mk_fs_policy ExternalSandbox None [].
Definition fs_read_only : FileSystemSandboxPolicy := fs_restricted [mk_entry (Special Root) Read].

Definition set_entries (p : FileSystemSandboxPolicy) (l : list FileSystemSandboxEntry)
    : FileSystemSandboxPolicy :=
  mk_fs_policy (policy_kind p) (glob_scan_max_depth p) l.

Definition push_entry (p : FileSystemSandboxPolicy) (e : FileSystemSandboxEntry)
    : FileSystemSandboxPolicy := set_entries p (entries p ++ [e]).

Definition is_restricted (p : FileSystemSandboxPolicy) : bool :=
  bool_decide (policy_kind p = Restricted).

(** ** Reading a policy *)

Definition has_root_access (p : FileSystemSandboxPolicy) (predicate : FileSystemAccessMode -> bool)
    : bool :=
  is_restricted p
  && existsb (fun e => bool_decide (entry_path e = Special Root) && predicate (access e)) (entries p).

Definition has_denied_read_restrictions (p : FileSystemSandboxPolicy) : bool :=
  is_restricted p && existsb (fun e => bool_decide (access e = Deny)) (entries p).

Definition special_paths_share_target (lhs rhs : FileSystemSpecialPath) : bool :=
  match lhs, rhs with
  | Root, Root | Minimal, Minimal | Tmpdir, Tmpdir | SlashTmp, SlashTmp => true
  | ProjectRoots lhs, ProjectRoots rhs => bool_decide (lhs = rhs)
  | Unknown lhs lhs_subpath, Unknown rhs rhs_subpath =>
    str_eqb lhs rhs && bool_decide (lhs_subpath = rhs_subpath)
  | _, _ => false
  end.

Definition special_path_matches_absolute_path (value : FileSystemSpecialPath) (p : path) : bool :=
  match value with
  | Root => match parent p with None => true | Some _ => false end
  | SlashTmp => bool_decide (p = [RootDir; Normal (lit "tmp")])
  | _ => false
  end.

Definition file_system_paths_share_target (lhs rhs : FileSystemPath) : bool :=
  match lhs, rhs with
  | FsPath lhs, FsPath rhs => bool_decide (lhs = rhs)
  | Special lhs, Special rhs => special_paths_share_target lhs rhs
  | FsPath p, Special value | Special value, FsPath p => special_path_matches_absolute_path value p
  | GlobPattern lhs, GlobPattern rhs => str_eqb lhs rhs
  | GlobPattern _, _ | _, GlobPattern _ => false
  end.

Definition has_same_target_write_override (p : FileSystemSandboxPolicy) (e : FileSystemSandboxEntry)
    : bool :=
  existsb (fun candidate =>
    can_write (access candidate) && (access_rank (access e) <? access_rank (access candidate))
    && file_system_paths_share_target (entry_path candidate) (entry_path e)) (entries p).

Definition narrows_write (p : FileSystemSandboxPolicy) (e : FileSystemSandboxEntry) : bool :=
  if can_write (access e) then false
  else match entry_path e with
       | FsPath _ => negb (has_same_target_write_override p e)
       | GlobPattern _ => true
       | Special value =>
         match value with
         | Root => bool_decide (access e = Deny)
         | Minimal | Unknown _ _ => false
         | _ => negb (has_same_target_write_override p e)
         end
       end.

Definition has_write_narrowing_entries (p : FileSystemSandboxPolicy) : bool :=
  is_restricted p && existsb (narrows_write p) (entries p).

Definition has_full_disk_read_access (p : FileSystemSandboxPolicy) : bool :=
  match policy_kind p with
  | Unrestricted | ExternalSandbox => true
  | Restricted => has_root_access p can_read && negb (has_denied_read_restrictions p)
  end.

Definition has_full_disk_write_access (p : FileSystemSandboxPolicy) : bool :=
  match policy_kind p with
  | Unrestricted | ExternalSandbox => true
  | Restricted => has_root_access p can_write && negb (has_write_narrowing_entries p)
  end.

Definition include_platform_defaults (p : FileSystemSandboxPolicy) : bool :=
  negb (has_full_disk_read_access p) && is_restricted p
  && existsb (fun e => bool_decide (entry_path e = Special Minimal) && can_read (access e)) (entries p).

(** [Iterator::max_by_key]: the last of the greatest. *)
Definition max_by {A} (le : A -> A -> bool) (l : list A) : option A :=
  match l with
  | [] => None
  | x :: l => Some (foldl (fun best y => if le best y then y else best) x l)
  end.

(** The order of [resolved_entry_precedence]. *)
Definition precedence_le (a b : ResolvedFileSystemEntry) : bool :=
  let sa := length (resolved_path a) in
  let sb := length (resolved_path b) in
  (sa <? sb)
  || (sa =? sb) && (access_rank (resolved_access a) <=? access_rank (resolved_access b)).

Definition PROTECTED_METADATA_PATH_NAMES : list str := [lit ".git"; lit ".agents"; lit ".codex"].

Definition metadata_path_name (c : component) : option str :=
  List.find (fun name => str_eqb (component_name c) name) PROTECTED_METADATA_PATH_NAMES.

Section policy.
Variable E : FsEnv.

Definition resolve_file_system_special_path (value : FileSystemSpecialPath) (cwd : option path)
    : option path :=
  match value with
  | Root | Minimal | Unknown _ _ => None
  | ProjectRoots subpath =>
    cwd ← cwd;
    Some (match subpath with Some subpath => resolve_against E subpath cwd | None => cwd end)
  | Tmpdir =>
    tmpdir ← tmpdir_var E;
    match tmpdir with [] => None | _ => abs_from E (components tmpdir) end
  | SlashTmp =>
    let slash_tmp := [RootDir; Normal (lit "tmp")] in
    if is_dir E slash_tmp then Some slash_tmp else None
  end.

Definition resolve_file_system_path (p : FileSystemPath) (cwd : option path) : option path :=
  match p with
  | FsPath p => Some p
  | GlobPattern _ => None
  | Special value => resolve_file_system_special_path value cwd
  end.

(** [ancestors().last()] of an absolute path is the root. *)
Definition absolute_root_path_for_cwd (cwd : path) : path := take 1 cwd.

Definition resolve_entry_path (p : FileSystemPath) (cwd : option path) : option path :=
  match p with
  | Special Root => absolute_root_path_for_cwd <$> cwd
  | _ => resolve_file_system_path p cwd
  end.

Definition resolved_entries_with_cwd (p : FileSystemSandboxPolicy) (cwd : path)
    : list ResolvedFileSystemEntry :=
  let cwd_absolute := abs_from E cwd in
  omap (fun e => (fun q => mk_resolved q (access e)) <$> resolve_entry_path (entry_path e) cwd_absolute)
    (entries p).

Definition resolve_candidate_path (p cwd : path) : option path :=
  if is_absolute p then abs_from E p
  else (fun base => abs_join E base p) <$> abs_from E cwd.

Definition resolve_access_with_cwd (p : FileSystemSandboxPolicy) (q cwd : path)
    : FileSystemAccessMode :=
  match policy_kind p with
  | Unrestricted | ExternalSandbox => Write
  | Restricted =>
    match resolve_candidate_path q cwd with
    | None => Deny
    | Some q =>
      default Deny (resolved_access <$>
        max_by precedence_le
          (filter (fun e => path_starts_with q (resolved_path e) = true)
             (resolved_entries_with_cwd p cwd)))
    end
  end.

Definition can_read_path_with_cwd (p : FileSystemSandboxPolicy) (q cwd : path) : bool :=
  can_read (resolve_access_with_cwd p q cwd).

Definition metadata_child_of_writable_root (p : FileSystemSandboxPolicy) (target cwd : path)
    : option (path * str) :=
  head (omap (fun e =>
          if can_write (resolved_access e) then
            relative_path ← path_strip_prefix (resolved_path e) target;
            first_component ← head relative_path;
            metadata_name ← metadata_path_name first_component;
            Some (abs_join E (resolved_path e) (components metadata_name), metadata_name)
          else None) (resolved_entries_with_cwd p cwd)).

Definition has_explicit_write_entry_for_metadata_path (p : FileSystemSandboxPolicy)
    (protected_metadata_path target cwd : path) : bool :=
  existsb (fun e =>
    can_write (resolved_access e) && path_starts_with target (resolved_path e)
    && path_starts_with (resolved_path e) protected_metadata_path) (resolved_entries_with_cwd p cwd).

Definition is_metadata_write_denied (p : FileSystemSandboxPolicy) (q cwd : path) : bool :=
  if negb (is_restricted p) then false
  else
    match resolve_candidate_path q cwd with
    | None => true
    | Some target =>
      match metadata_child_of_writable_root p target cwd with
      | None => false
      | Some (protected_metadata_path, _) =>
        negb (has_explicit_write_entry_for_metadata_path p protected_metadata_path target cwd)
      end
    end.

Definition can_write_path_with_cwd (p : FileSystemSandboxPolicy) (q cwd : path) : bool :=
  if negb (can_write (resolve_access_with_cwd p q cwd)) then false
  else if has_full_disk_write_access p then true
  else negb (is_metadata_write_denied p q cwd).

Definition forbidden_agent_metadata_write (q cwd : path) (p : FileSystemSandboxPolicy) : option str :=
  if negb (is_restricted p) then None
  else
    target ← resolve_candidate_path q cwd;
    '(protected_metadata_path, metadata_name) ← metadata_child_of_writable_root p target cwd;
    if has_explicit_write_entry_for_metadata_path p protected_metadata_path target cwd then None
    else if negb (can_write_path_with_cwd p target cwd) then Some metadata_name
    else None.
End policy.

(** ** Changing a policy *)

(** The deny entries of [existing] that [l] does not have are appended. *)
Definition append_deny_entries (l existing : list FileSystemSandboxEntry) : list FileSystemSandboxEntry :=
  foldl (fun l e => if decide (e ∈ l) then l else l ++ [e]) l
    (filter (fun e => access e = Deny) existing).

Definition preserve_deny_read_restrictions_from (p existing : FileSystemSandboxPolicy)
    : FileSystemSandboxPolicy :=
  let has_deny_read_entries := existsb (fun e => bool_decide (access e = Deny)) (entries existing) in
  let p :=
    if bool_decide (policy_kind p = Unrestricted) && has_deny_read_entries
    then fs_restricted [mk_entry (Special Root) Write] else p in
  if negb (is_restricted p) then p
  else
    mk_fs_policy (policy_kind p)
      (match glob_scan_max_depth p with None => glob_scan_max_depth existing | d => d end)
      (append_deny_entries (entries p) (entries existing)).

Definition append_default_read_only_entry_if_no_explicit_rule (l : list FileSystemSandboxEntry)
    (p : FileSystemPath) : list FileSystemSandboxEntry :=
  if existsb (fun e => file_system_paths_share_target (entry_path e) p) l then l
  else l ++ [mk_entry p Read].

Definition append_default_read_only_project_root_subpath_if_no_explicit_rule
    (l : list FileSystemSandboxEntry) (subpath : str) : list FileSystemSandboxEntry :=
  append_default_read_only_entry_if_no_explicit_rule l
    (Special (ProjectRoots (Some (components subpath)))).

Definition append_default_read_only_path_if_no_explicit_rule (l : list FileSystemSandboxEntry)
    (p : path) : list FileSystemSandboxEntry :=
  append_default_read_only_entry_if_no_explicit_rule l (FsPath p).

Definition PROJECT_ROOTS_GLOB_PATTERN_PREFIX : str := lit "codex-project-roots://".

Definition parse_project_roots_glob_pattern (pattern : str) : option path :=
  components <$> strip_prefix PROJECT_ROOTS_GLOB_PATTERN_PREFIX pattern.

Section changes.
Variable E : FsEnv.

Definition is_git_pointer_file (p : path) : bool :=
  is_file E p && bool_decide (file_name p = Some (lit ".git")).

Definition resolve_gitdir_from_file (dot_git : path) : option path :=
  contents ← read_to_string E dot_git;
  '(prefix, gitdir_raw) ← split_once (lit ":") (trim contents);
  if negb (str_eqb (trim prefix) (lit "gitdir")) then None
  else
    match trim gitdir_raw with
    | [] => None
    | gitdir_raw =>
      base ← parent dot_git;
      let gitdir_path := resolve_against E (components gitdir_raw) base in
      if path_exists E gitdir_path then Some gitdir_path else None
    end.

Definition default_read_only_subpaths_for_writable_root (writable_root : path)
    (protect_missing_dot_codex : bool) : list path :=
  let top_level_git := abs_join E writable_root (components (lit ".git")) in
  let top_level_agents := abs_join E writable_root (components (lit ".agents")) in
  let top_level_codex := abs_join E writable_root (components (lit ".codex")) in
  let gitdir :=
    if is_file E top_level_git && is_git_pointer_file top_level_git
    then option_list (resolve_gitdir_from_file top_level_git) else [] in
  dedup_absolute_paths E
    ((if is_dir E top_level_git || is_file E top_level_git then gitdir ++ [top_level_git] else [])
     ++ (if is_dir E top_level_agents then [top_level_agents] else [])
     ++ (if protect_missing_dot_codex || is_dir E top_level_codex then [top_level_codex] else []))
    false.

Definition workspace_write (writable_roots : list path) (exclude_tmpdir_env_var exclude_slash_tmp : bool)
    : FileSystemSandboxPolicy :=
  let l :=
    [mk_entry (Special Root) Read; mk_entry (Special (ProjectRoots None)) Write]
    ++ (if exclude_slash_tmp then [] else [mk_entry (Special SlashTmp) Write])
    ++ (if exclude_tmpdir_env_var then [] else [mk_entry (Special Tmpdir) Write])
    ++ ((fun p => mk_entry (FsPath p) Write) <$> writable_roots) in
  let l := foldl append_default_read_only_project_root_subpath_if_no_explicit_rule l
             [lit ".git"; lit ".agents"; lit ".codex"] in
  let l := foldl (fun l writable_root =>
             foldl append_default_read_only_path_if_no_explicit_rule l
               (default_read_only_subpaths_for_writable_root writable_root false)) l writable_roots in
  fs_restricted l.

Definition resolve_project_roots_glob_pattern (subpath root : path) : str :=
  display (resolve_against E subpath root).

Definition materialize_entry_with_cwd (cwd : option path) (e : FileSystemSandboxEntry)
    : FileSystemSandboxEntry :=
  match entry_path e with
  | Special (ProjectRoots _) =>
    match resolve_file_system_path E (entry_path e) cwd with
    | Some q => mk_entry (FsPath q) (access e)
    | None => e
    end
  | GlobPattern pattern =>
    match cwd, parse_project_roots_glob_pattern pattern with
    | Some cwd, Some subpath =>
      mk_entry (GlobPattern (resolve_project_roots_glob_pattern subpath cwd)) (access e)
    | _, _ => e
    end
  | _ => e
  end.

Definition materialize_project_roots_with_cwd (p : FileSystemSandboxPolicy) (cwd : path)
    : FileSystemSandboxPolicy :=
  set_entries p (materialize_entry_with_cwd (abs_from E cwd) <$> entries p).

Definition materialize_entry_with_roots (workspace_roots : list path) (e : FileSystemSandboxEntry)
    : list FileSystemSandboxEntry :=
  match entry_path e with
  | Special (ProjectRoots subpath) =>
    (fun root =>
       mk_entry (FsPath (match subpath with
                         | Some subpath => resolve_against E subpath root
                         | None => root
                         end)) (access e)) <$> workspace_roots
  | GlobPattern pattern =>
    match parse_project_roots_glob_pattern pattern with
    | Some subpath =>
      (fun root => mk_entry (GlobPattern (resolve_project_roots_glob_pattern subpath root)) (access e))
      <$> workspace_roots
    | None => [e]
    end
  | _ => [e]
  end.

Definition materialize_project_roots_with_workspace_roots (p : FileSystemSandboxPolicy)
    (workspace_roots : list path) : FileSystemSandboxPolicy :=
  set_entries p (entries p ≫= materialize_entry_with_roots workspace_roots).

Definition with_materialized_project_roots_for_workspace_roots (p : FileSystemSandboxPolicy)
    (workspace_roots : list path) : FileSystemSandboxPolicy :=
  set_entries p
    (foldl (fun l e => if decide (e ∈ l) then l else l ++ [e]) (entries p)
       (entries (materialize_project_roots_with_workspace_roots p workspace_roots))).

Definition with_additional_readable_roots (p : FileSystemSandboxPolicy) (cwd : path)
    (additional_readable_roots : list path) : FileSystemSandboxPolicy :=
  if has_full_disk_read_access p then p
  else foldl (fun p q => if can_read_path_with_cwd E p q cwd then p
                         else push_entry p (mk_entry (FsPath q) Read)) p additional_readable_roots.

Definition with_additional_writable_roots (p : FileSystemSandboxPolicy) (cwd : path)
    (additional_writable_roots : list path) : FileSystemSandboxPolicy :=
  foldl (fun p q => if can_write_path_with_cwd E p q cwd then p
                    else push_entry p (mk_entry (FsPath q) Write)) p additional_writable_roots.

Definition with_additional_legacy_workspace_writable_roots (p : FileSystemSandboxPolicy)
    (additional_writable_roots : list path) : FileSystemSandboxPolicy :=
  if negb (is_restricted p) then p
  else foldl (fun p q =>
    let p := if existsb (fun e => can_write (access e) && bool_decide (entry_path e = FsPath q)) (entries p)
             then p else push_entry p (mk_entry (FsPath q) Write) in
    set_entries p
      (foldl append_default_read_only_path_if_no_explicit_rule (entries p)
         (default_read_only_subpaths_for_writable_root q false))) p additional_writable_roots.

(** ** The roots handed to a sandbox *)

Definition get_readable_roots_with_cwd (p : FileSystemSandboxPolicy) (cwd : path) : list path :=
  if has_full_disk_read_access p then []
  else
    dedup_absolute_paths E
      (resolved_path <$>
       filter (fun e => can_read (resolved_access e) = true /\
                        can_read_path_with_cwd E p (resolved_path e) cwd = true)
         (resolved_entries_with_cwd E p cwd)) true.

Definition get_unreadable_roots_with_cwd (p : FileSystemSandboxPolicy) (cwd : path) : list path :=
  if negb (is_restricted p) then []
  else
    let fs_root := absolute_root_path_for_cwd <$> abs_from E cwd in
    dedup_absolute_paths E
      (resolved_path <$>
       filter (fun e => resolved_access e = Deny /\
                        can_read_path_with_cwd E p (resolved_path e) cwd = false /\
                        fs_root <> Some (resolved_path e))
         (resolved_entries_with_cwd E p cwd)) true.

Definition has_explicit_resolved_path_entry (l : list ResolvedFileSystemEntry) (p : path) : bool :=
  existsb (fun e => bool_decide (resolved_path e = p)) l.

Definition protected_metadata_names_for_writable_root (p : FileSystemSandboxPolicy) (r : path)
    (raw_writable_roots : list path) (cwd : path) : list str :=
  filter (fun metadata_name =>
    forallb (fun metadata_path => negb (can_write_path_with_cwd E p metadata_path cwd))
      (abs_join E r (components metadata_name)
       :: ((fun raw_root => abs_join E raw_root (components metadata_name)) <$> raw_writable_roots))
    = true) PROTECTED_METADATA_PATH_NAMES.

(** The part of a writable root that one entry without write access carves out. *)
Definition carveout (r : path) (raw_writable_roots : list path) (q : path) : option path :=
  let effective_path := normalize_effective_absolute_path E q in
  let raw_carveout_path :=
    match parent r with
    | None => None
    | Some _ =>
      if decide (q = r) then None
      else if path_starts_with q r then Some q
      else head (omap (fun raw_root =>
             suffix ← path_strip_prefix raw_root q;
             match suffix with [] => None | _ => Some (abs_join E r suffix) end) raw_writable_roots)
    end in
  match raw_carveout_path with
  | Some raw_carveout_path => Some raw_carveout_path
  | None =>
    if bool_decide (effective_path = r) || negb (path_starts_with effective_path r) then None
    else Some effective_path
  end.

Definition writable_entries_of (p : FileSystemSandboxPolicy) (cwd : path) : list path :=
  resolved_path <$>
  filter (fun e => can_write (resolved_access e) = true /\
                   can_write_path_with_cwd E p (resolved_path e) cwd = true)
    (resolved_entries_with_cwd E p cwd).

Definition writable_root_of (p : FileSystemSandboxPolicy) (cwd r : path) : WritableRoot :=
  let resolved_entries := resolved_entries_with_cwd E p cwd in
  let raw_writable_roots :=
    filter (fun q => normalize_effective_absolute_path E q = r) (writable_entries_of p cwd) in
  let protect_missing_dot_codex :=
    match abs_from E cwd with
    | Some cwd => bool_decide (normalize_effective_absolute_path E cwd = r)
    | None => false
    end in
  mk_writable_root r
    (dedup_absolute_paths E
       (filter (fun q => has_explicit_resolved_path_entry resolved_entries q = false)
          (default_read_only_subpaths_for_writable_root r protect_missing_dot_codex)
        ++ omap (carveout r raw_writable_roots)
             (resolved_path <$>
              filter (fun e => can_write (resolved_access e) = false /\
                               can_write_path_with_cwd E p (resolved_path e) cwd = false)
                resolved_entries)) false)
    (protected_metadata_names_for_writable_root p r raw_writable_roots cwd).

Definition get_writable_roots_with_cwd (p : FileSystemSandboxPolicy) (cwd : path) : list WritableRoot :=
  if has_full_disk_write_access p then []
  else writable_root_of p cwd <$> dedup_absolute_paths E (writable_entries_of p cwd) true.
End changes.

(** [WritableRoot::is_path_writable] *)
Definition path_contains_protected_metadata_name (w : WritableRoot) (q : path) : bool :=
  match path_strip_prefix (root w) q with
  | Some (first_component :: _) =>
    existsb (fun name => str_eqb (component_name first_component) name) (protected_metadata_names w)
  | _ => false
  end.

Definition is_path_writable (w : WritableRoot) (q : path) : bool :=
  if negb (path_starts_with q (root w)) then false
  else if existsb (fun subpath => path_starts_with q subpath) (read_only_subpaths w) then false
  else negb (path_contains_protected_metadata_name w q).

(** ** Prefixes *)

Lemma path_strip_prefix_Some base p r : path_strip_prefix base p = Some r <-> p = base ++ r.
Proof.
  revert p. induction base as [|a base IH]; intros p; cbn; [naive_solver|].
  destruct p as [|b p]; [done|]. case_decide as Hd.
  - subst b. rewrite IH. split; [by intros ->|by intros [= ->]].
  - split; [done|]. intros [= -> _]. done.
Qed.

Lemma path_starts_with_true p base : path_starts_with p base = true <-> base `prefix_of` p.
Proof.
  unfold path_starts_with. destruct (path_strip_prefix base p) as [r|] eqn:E.
  - split; [|done]. intros _. apply path_strip_prefix_Some in E as ->. by eexists.
  - split; [done|]. intros [r Hr]. apply path_strip_prefix_Some in Hr. congruence.
Qed.

Lemma prefix_same_length (p a b : path) :
  a `prefix_of` p -> b `prefix_of` p -> length a = length b -> a = b.
Proof. intros [r ->] [s Hs] Hl. by apply app_inj_1 in Hs as [-> _]. Qed.

Lemma prefix_shorter (p a b : path) :
  a `prefix_of` p -> b `prefix_of` p -> length a <= length b -> a `prefix_of` b.
Proof.
  intros Ha Hb Hl. destruct (prefix_weak_total a b p Ha Hb) as [|[r Hr]]; [done|].
  rewrite Hr, length_app in Hl. destruct r; [by rewrite Hr, app_nil_r|cbn in Hl; lia].
Qed.

(** ** Absolute paths *)

Definition env_wf (E : FsEnv) : Prop :=
  (forall h, env_home E = Some h -> absolute h) /\ (forall c, env_cwd E = Some c -> absolute c).

Section absolutes.
Variable E : FsEnv.
Hypothesis Henv : env_wf E.

Lemma expand_home_absolute p : absolute p -> expand_home E p = p.
Proof. intros (names & -> & _). unfold expand_home. by destruct (env_home E). Qed.

Lemma abs_from_absolute p : absolute p -> abs_from E p = Some p.
Proof.
  intros Hp. unfold abs_from. rewrite expand_home_absolute by done. unfold absolutize.
  assert (is_absolute p = true) as -> by (by destruct Hp as (? & -> & _)).
  by rewrite normalize_idem.
Qed.

Lemma candidate_absolute q cwd : absolute q -> resolve_candidate_path E q cwd = Some q.
Proof.
  intros Hq. unfold resolve_candidate_path.
  assert (is_absolute q = true) as -> by (by destruct Hq as (? & -> & _)).
  by apply abs_from_absolute.
Qed.

Lemma expand_home_ok p : Forall component_ok p -> Forall component_ok (expand_home E p).
Proof.
  intros Hp. unfold expand_home. destruct (env_home E) as [h|] eqn:Eh; [|done].
  destruct p as [|[]]; try done. case_match; [|done]. apply Forall_app. split.
  - by apply absolute_components, (proj1 Henv).
  - by apply Forall_cons in Hp as [].
Qed.

Lemma absolutize_from_absolute p base :
  Forall component_ok p -> absolute base -> absolute (absolutize_from p base).
Proof.
  intros Hp Hb. unfold absolutize_from, path_with_base.
  assert (is_absolute base = true) as Hba by (by destruct Hb as (? & -> & _)).
  destruct (is_absolute p) eqn:Ea; [by apply normalize_rooted|].
  apply normalize_rooted; [by apply is_absolute_join|]. unfold path_join. rewrite Ea.
  apply Forall_app. split; [by apply absolute_components|done].
Qed.

Lemma resolve_against_absolute p base :
  Forall component_ok p -> absolute base -> absolute (resolve_against E p base).
Proof. intros Hp Hb. apply absolutize_from_absolute; [by apply expand_home_ok|done]. Qed.

Lemma abs_from_wf p q : Forall component_ok p -> abs_from E p = Some q -> absolute q.
Proof.
  intros Hp. unfold abs_from, absolutize. pose proof (expand_home_ok p Hp) as He.
  destruct (is_absolute _) eqn:Ea; [intros [= <-]; by apply normalize_rooted|].
  intros (c & Hc & ->)%fmap_Some. apply absolutize_from_absolute; [done|by apply (proj2 Henv)].
Qed.

(** The paths of a policy are absolute where the code has [AbsolutePathBuf]. *)
Definition entry_wf (e : FileSystemSandboxEntry) : Prop :=
  match entry_path e with
  | FsPath q => absolute q
  | Special (ProjectRoots (Some s)) => Forall component_ok s
  | _ => True
  end.

Definition policy_wf (p : FileSystemSandboxPolicy) : Prop := Forall entry_wf (entries p).

Lemma root_absolute : absolute [RootDir].
Proof. by exists []. Qed.

Lemma tmp_absolute : absolute [RootDir; Normal (lit "tmp")].
Proof.
  exists [lit "tmp"]. split; [done|]. constructor; [|constructor].
  split_and!; by apply (bool_decide_unpack _).
Qed.

Lemma resolve_entry_absolute e cwd q :
  entry_wf e -> (forall c, cwd = Some c -> absolute c) ->
  resolve_entry_path E (entry_path e) cwd = Some q -> absolute q.
Proof.
  intros He Hc. unfold entry_wf in He. destruct (entry_path e) as [p|g|[| |s| | |]]; cbn; try done.
  - by intros [= <-].
  - intros (c & -> & ->)%fmap_Some. destruct (Hc c eq_refl) as (names & -> & _). apply root_absolute.
  - destruct cwd as [c|]; [|done]. cbn. intros [= <-].
    destruct s as [s|]; [by apply resolve_against_absolute; [|apply Hc]|by apply Hc].
  - destruct (tmpdir_var E) as [[|x t]|]; try done. cbn. apply abs_from_wf, components_ok.
  - destruct (is_dir E _); [|done]. intros [= <-]. apply tmp_absolute.
Qed.

Lemma resolved_elem p cwd r :
  r ∈ resolved_entries_with_cwd E p cwd <->
  exists e, e ∈ entries p /\ resolved_access r = access e /\
    resolve_entry_path E (entry_path e) (abs_from E cwd) = Some (resolved_path r).
Proof.
  unfold resolved_entries_with_cwd. rewrite list_elem_of_omap. split.
  - intros (e & He & (q & Hq & ->)%fmap_Some). by exists e.
  - intros (e & He & Ha & Hq). exists e. split; [done|]. rewrite Hq. cbn. destruct r. cbn in *. by subst.
Qed.

Lemma resolved_absolute p cwd r :
  policy_wf p -> Forall component_ok cwd -> r ∈ resolved_entries_with_cwd E p cwd ->
  absolute (resolved_path r).
Proof.
  intros Hp Hc (e & He & _ & Hq)%resolved_elem. unfold policy_wf in Hp. rewrite Forall_forall in Hp.
  eapply resolve_entry_absolute; [by apply Hp| |done]. intros c. by apply abs_from_wf.
Qed.
End absolutes.

(** ** The most specific entry decides *)

Lemma precedence_total a b : precedence_le a b = true \/ precedence_le b a = true.
Proof.
  unfold precedence_le. rewrite !orb_true_iff, !andb_true_iff, !Nat.ltb_lt, !Nat.eqb_eq, !Nat.leb_le. lia.
Qed.

Lemma precedence_trans a b c :
  precedence_le a b = true -> precedence_le b c = true -> precedence_le a c = true.
Proof.
  unfold precedence_le. rewrite !orb_true_iff, !andb_true_iff, !Nat.ltb_lt, !Nat.eqb_eq, !Nat.leb_le. lia.
Qed.

Lemma max_by_spec l m :
  max_by precedence_le l = Some m -> m ∈ l /\ forall x, x ∈ l -> precedence_le x m = true.
Proof.
  destruct l as [|x l]; [done|]. cbn [max_by]. intros [= <-].
  assert (precedence_le x x = true) as Hx by (destruct (precedence_total x x); done).
  assert (forall b, let m := foldl (fun best y => if precedence_le best y then y else best) b l in
    m ∈ b :: l /\ forall y, y ∈ b :: l -> precedence_le y m = true) as Hall; [|apply Hall].
  clear x Hx. induction l as [|y l IH]; intros b; cbn [foldl].
  { split; [by left|]. intros z [->|?%elem_of_nil]%elem_of_cons; [|done].
    by destruct (precedence_total b b). }
  destruct (IH (if precedence_le b y then y else b)) as [Hin Hmax].
  destruct (precedence_le b y) eqn:Eb; split.
  - by right.
  - intros z [->|Hz]%elem_of_cons; [|by apply Hmax].
    eapply precedence_trans; [exact Eb|]. apply Hmax. by left.
  - apply elem_of_cons in Hin as [->|Hin]; [by left|by do 2 right].
  - intros z [->|[->|Hz]%elem_of_cons]%elem_of_cons; [apply Hmax; by left| |apply Hmax; by right].
    destruct (precedence_total b y) as [?|Hyb]; [congruence|].
    eapply precedence_trans; [exact Hyb|]. apply Hmax. by left.
Qed.

Lemma max_by_None {A} (le : A -> A -> bool) l : max_by le l = None <-> l = [].
Proof. by destruct l. Qed.

Section decide.
Variable E : FsEnv.
Implicit Types p : FileSystemSandboxPolicy.

(** The resolved entries whose directory the path is in. *)
Definition covers p (cwd q : path) (r : ResolvedFileSystemEntry) : Prop :=
  r ∈ resolved_entries_with_cwd E p cwd /\ resolved_path r `prefix_of` q.

(** [a] is the access given by the longest entry, deny before write before read. *)
Definition decided p (cwd q : path) (a : FileSystemAccessMode) : Prop :=
  (exists r, covers p cwd q r /\ resolved_access r = a /\
    forall r', covers p cwd q r' -> length (resolved_path r') <= length (resolved_path r) /\
      (resolved_path r' = resolved_path r -> access_rank (resolved_access r') <= access_rank a)) \/
  (a = Deny /\ forall r, ~ covers p cwd q r).

Lemma resolve_access_decided p q q' cwd :
  policy_kind p = Restricted -> resolve_candidate_path E q cwd = Some q' ->
  decided p cwd q' (resolve_access_with_cwd E p q cwd).
Proof.
  intros Hk Hq. unfold resolve_access_with_cwd. rewrite Hk, Hq.
  assert (forall r, r ∈ filter (fun e => path_starts_with q' (resolved_path e) = true)
    (resolved_entries_with_cwd E p cwd) <-> covers p cwd q' r) as Hel.
  { intros r. rewrite list_elem_of_filter, path_starts_with_true. unfold covers. tauto. }
  destruct (max_by _ _) as [m|] eqn:Em; cbn.
  - apply max_by_spec in Em as [Hin Hmax]. left. exists m. split; [by apply Hel|]. split; [done|].
    intros r' Hr'. specialize (Hmax r' (proj2 (Hel r') Hr')). unfold precedence_le in Hmax.
    rewrite orb_true_iff, andb_true_iff, Nat.ltb_lt, Nat.eqb_eq, Nat.leb_le in Hmax.
    split; [lia|]. intros Heq. rewrite Heq in Hmax. lia.
  - right. split; [done|]. intros r Hr%Hel. apply max_by_None in Em. rewrite Em in Hr.
    by apply elem_of_nil in Hr.
Qed.

Lemma access_rank_inj a b : access_rank a = access_rank b -> a = b.
Proof. by destruct a, b. Qed.

Lemma decided_unique p cwd q a b : decided p cwd q a -> decided p cwd q b -> a = b.
Proof.
  intros [(r & Hr & <- & Hm)|[-> Hn]] [(r' & Hr' & <- & Hm')|[-> Hn']].
  - destruct (Hm r' Hr') as [Hl He], (Hm' r Hr) as [Hl' He'].
    assert (resolved_path r = resolved_path r') as Heq.
    { eapply prefix_same_length; [apply Hr|apply Hr'|lia]. }
    apply access_rank_inj. apply Nat.le_antisymm; auto.
  - by destruct (Hn' r).
  - by destruct (Hn r').
  - done.
Qed.
End decide.

(** Of two entries for one path, deny beats write and write beats read. *)
Definition beats (a b : FileSystemAccessMode) : bool :=
  match a, b with
  | Deny, Write | Deny, Read | Write, Read => true
  | _, _ => false
  end.

(** [a] is what the entry with the longest path around [q] says that no other
    entry for the same path beats, or [Deny] if there is no entry around it. *)
Definition most_specific (E : FsEnv) (p : FileSystemSandboxPolicy) (cwd q : path)
    (a : FileSystemAccessMode) : Prop :=
  (exists r, covers E p cwd q r /\ resolved_access r = a /\
    forall r', covers E p cwd q r' -> length (resolved_path r') <= length (resolved_path r) /\
      (resolved_path r' = resolved_path r -> beats (resolved_access r') a = false)) \/
  (a = Deny /\ forall r, ~ covers E p cwd q r).

Lemma beats_rank a b : beats a b = false <-> access_rank a <= access_rank b.
Proof. destruct a, b; cbn; split; try done; lia. Qed.

Lemma most_specific_decided E p cwd q a : most_specific E p cwd q a <-> decided E p cwd q a.
Proof. unfold most_specific, decided. by setoid_rewrite beats_rank. Qed.

(** C23: the access to a path.  A policy that is not restricted lets everything
    be written.  In a restricted one the access is that of the entry with the
    longest path around the path; of two entries for the same path deny beats
    write and write beats read, whatever their order; a path that no entry
    contains, or that cannot be made absolute, is denied. *)
Theorem most_specific_entry_decides (E : FsEnv) (p : FileSystemSandboxPolicy) (q cwd : path) a :
  resolve_access_with_cwd E p q cwd = a <->
  match policy_kind p, resolve_candidate_path E q cwd with
  | Restricted, Some q' => most_specific E p cwd q' a
  | Restricted, None => a = Deny
  | _, _ => a = Write
  end.
Proof.
  destruct (policy_kind p) eqn:Hk.
  2,3: unfold resolve_access_with_cwd; rewrite Hk; split; by intros ->.
  destruct (resolve_candidate_path E q cwd) as [q'|] eqn:Hq.
  - rewrite most_specific_decided. pose proof (resolve_access_decided E p q q' cwd Hk Hq) as Hd.
    split; [by intros <-|]. by apply decided_unique.
  - unfold resolve_access_with_cwd. rewrite Hk, Hq. split; by intros ->.
Qed.

(** An environment for examples: no home, a working directory, [/tmp]. *)
Definition sample_env : FsEnv :=
  mk_env None (Some [RootDir]) None (fun _ => true) (fun _ => false) (fun _ => true) (fun _ => None)
    (fun _ => Some false) Some.

Definition dir (l : list string) : path := RootDir :: (Normal <$> (lit <$> l)).

Example access_examples :
  resolve_access_with_cwd sample_env
    (fs_restricted [mk_entry (FsPath (dir ["a"; "b"])) Deny; mk_entry (FsPath (dir ["a"])) Write;
                    mk_entry (FsPath (dir ["a"; "b"])) Read]) (dir ["a"; "b"; "c"]) (dir ["a"]) = Deny /\
  resolve_access_with_cwd sample_env
    (fs_restricted [mk_entry (FsPath (dir ["a"])) Write; mk_entry (FsPath (dir ["a"])) Read])
    (dir ["a"; "c"]) (dir ["a"]) = Write.
Proof. by vm_compute. Qed.

(** ** Full access *)

Section full.
Variable E : FsEnv.
Hypothesis Henv : env_wf E.
Variables (p : FileSystemSandboxPolicy) (cwd c : path).
Hypothesis Hp : policy_wf p.
Hypothesis Hc : abs_from E cwd = Some c.
Hypothesis Hcabs : absolute c.

Lemma root_entry_covers q e :
  absolute q -> e ∈ entries p -> entry_path e = Special Root ->
  covers E p cwd q (mk_resolved [RootDir] (access e)).
Proof.
  intros Hq He Hr. split.
  - apply resolved_elem. exists e. split_and!; [done|done|]. rewrite Hr, Hc. cbn.
    by destruct Hcabs as (? & -> & _).
  - destruct Hq as (names & -> & _). by eexists.
Qed.

Lemma root_access_entry predicate :
  has_root_access p predicate = true ->
  exists e, e ∈ entries p /\ entry_path e = Special Root /\ predicate (access e) = true.
Proof.
  unfold has_root_access. intros [_ (e & He & [Hr%bool_decide_eq_true Hp']%andb_true_iff)%existsb_exists]%andb_true_iff.
  exists e. by rewrite list_elem_of_In.
Qed.

(** A write entry for the target of [e] resolves to the same path. *)
Lemma override_resolves e x :
  is_dir E [RootDir; Normal (lit "tmp")] = true ->
  e ∈ entries p -> resolve_entry_path E (entry_path e) (Some c) = Some x ->
  has_same_target_write_override p e = true ->
  access e = Read /\ exists e', e' ∈ entries p /\ access e' = Write /\
    resolve_entry_path E (entry_path e') (Some c) = Some x.
Proof.
  intros Htmp He Hx (e' & He' & Ho)%existsb_exists. apply list_elem_of_In in He'.
  apply andb_true_iff in Ho as [Ho Ht]. apply andb_true_iff in Ho as [Hw Hlt].
  apply Nat.ltb_lt in Hlt. destruct (access e') eqn:Ea; try done. cbn in Hlt.
  split; [destruct (access e); cbn in Hlt; [done|lia|lia]|]. exists e'. split_and!; [done..|].
  unfold policy_wf in Hp. rewrite Forall_forall in Hp. pose proof (Hp e He) as Hwe. pose proof (Hp e' He') as Hwe'.
  unfold entry_wf in *. destruct (entry_path e') as [x'|g'|v'], (entry_path e) as [y|g|v]; try done; cbn in Ht.
  - apply bool_decide_eq_true in Ht as ->. done.
  - destruct v; try done; cbn in *.
    + destruct (parent x') eqn:Epar; [done|]. destruct Hwe' as (names & -> & _).
      unfold parent in Epar. destruct names as [|n names _] using rev_ind.
      * cbn in *. by destruct Hcabs as (? & -> & _).
      * rewrite fmap_app, app_comm_cons in Epar. cbn [fmap list_fmap] in Epar. by rewrite last_snoc in Epar.
    + apply bool_decide_eq_true in Ht as ->. by rewrite Htmp in Hx.
  - destruct v'; try done; cbn in *.
    + destruct (parent y) eqn:Epar; [done|]. destruct Hwe as (names & -> & _).
      unfold parent in Epar. destruct names as [|n names _] using rev_ind.
      * cbn in *. destruct Hcabs as (? & -> & _). done.
      * rewrite fmap_app, app_comm_cons in Epar. cbn [fmap list_fmap] in Epar. by rewrite last_snoc in Epar.
    + apply bool_decide_eq_true in Ht as ->. by rewrite Htmp.
  - destruct v', v; try done; cbn in Ht.
    by apply bool_decide_eq_true in Ht as ->.
Qed.

Lemma full_write q :
  is_dir E [RootDir; Normal (lit "tmp")] = true -> policy_kind p = Restricted ->
  has_full_disk_write_access p = true -> absolute q -> resolve_access_with_cwd E p q cwd = Write.
Proof.
  intros Htmp Hk Hf Hq. unfold has_full_disk_write_access in Hf. rewrite Hk in Hf.
  apply andb_true_iff in Hf as [(e0 & He0 & Hr0 & Hw0)%root_access_entry Hn].
  assert (access e0 = Write) as Ha0 by (by destruct (access e0)).
  pose proof (root_entry_covers q e0 Hq He0 Hr0) as Hc0. rewrite Ha0 in Hc0.
  pose proof (resolve_access_decided E p q q cwd Hk (candidate_absolute E q cwd Hq)) as Hd.
  destruct Hd as [(r & [Hr Hpre] & <- & Hmax)|[_ Hno]]; [|by destruct (Hno _ Hc0)].
  pose proof Hr as (e & He & Ha & Hx)%resolved_elem. rewrite Hc in Hx.
  assert (narrows_write p e = false) as Hne.
  { apply negb_true_iff in Hn. unfold has_write_narrowing_entries, is_restricted in Hn.
    rewrite bool_decide_true in Hn by done. cbn in Hn.
    destruct (narrows_write p e) eqn:En; [|done]. rewrite <- Hn. symmetry. apply existsb_exists.
    exists e. by rewrite <- list_elem_of_In. }
  unfold narrows_write in Hne. rewrite Ha. destruct (access e) eqn:Eacc; [|done|]; exfalso; cbn in Hne.
  all: assert (forall e', e' ∈ entries p -> access e' = Write ->
    resolve_entry_path E (entry_path e') (Some c) = Some (resolved_path r) ->
    1 <= access_rank (access e)) as Hsame by (intros e' He' Ha' Hx';
      assert (covers E p cwd q (mk_resolved (resolved_path r) Write)) as Hcov
        by (split; [apply resolved_elem; exists e'; by rewrite Hc|done]);
      destruct (Hmax _ Hcov) as [_ Hle]; rewrite Eacc, <- Ha; by apply Hle).
  all: rewrite Eacc in Hsame; cbn in Hsame.
  - assert (entry_path e = Special Root \/ has_same_target_write_override p e = true) as [Hroot|Hov].
    { destruct (entry_path e) as [|g|[]] eqn:Ee; try (by left); try (right; by destruct (has_same_target_write_override p e));
        cbn in Hx; done. }
    + rewrite Hroot in Hx. assert (1 <= 0); [|lia]. apply (Hsame e0); [done..|]. by rewrite Hr0.
    + destruct (override_resolves e _ Htmp He Hx Hov) as (_ & e' & He' & Ha' & Hx').
      assert (1 <= 0); [|lia]. by apply (Hsame e').
  - assert (has_same_target_write_override p e = true) as Hov.
    { destruct (entry_path e) as [|g|[]] eqn:Ee; try (by destruct (has_same_target_write_override p e));
        cbn in Hx, Hne; done. }
    destruct (override_resolves e _ Htmp He Hx Hov) as (Hrd & _). congruence.
Qed.

Lemma full_read q :
  policy_kind p = Restricted -> has_full_disk_read_access p = true -> absolute q ->
  can_read (resolve_access_with_cwd E p q cwd) = true.
Proof.
  intros Hk Hf Hq. unfold has_full_disk_read_access in Hf. rewrite Hk in Hf.
  apply andb_true_iff in Hf as [(e0 & He0 & Hr0 & Hw0)%root_access_entry Hn].
  pose proof (root_entry_covers q e0 Hq He0 Hr0) as Hc0.
  destruct (resolve_access_decided E p q q cwd Hk (candidate_absolute E q cwd Hq))
    as [(r & [Hr Hpre] & <- & Hmax)|[_ Hno]]; [|by destruct (Hno _ Hc0)].
  apply resolved_elem in Hr as (e & He & -> & _). destruct (access e) eqn:Ea; try done. exfalso.
  apply negb_true_iff in Hn. unfold has_denied_read_restrictions, is_restricted in Hn.
  rewrite bool_decide_true in Hn by done. cbn [andb] in Hn. rewrite <- not_true_iff_false in Hn.
  apply Hn. apply existsb_exists. exists e. rewrite <- list_elem_of_In. split; [done|].
  by apply bool_decide_eq_true.
Qed.
End full.

(** A policy that is reported to give full disk access gives it.  With the
    paths and the working directory absolute, every absolute path is writable
    when full write access is reported, and readable when full read access is,
    on a system that has /tmp: the entries for narrower paths that the check
    skips because another entry overrides them take nothing away. *)
Theorem full_disk_access_sound (E : FsEnv) (p : FileSystemSandboxPolicy) (q cwd : path) :
  env_wf E -> policy_wf p -> absolute cwd -> absolute q ->
  is_dir E [RootDir; Normal (lit "tmp")] = true ->
  (has_full_disk_write_access p = true -> resolve_access_with_cwd E p q cwd = Write) /\
  (has_full_disk_read_access p = true -> can_read_path_with_cwd E p q cwd = true).
Proof.
  intros Henv Hp Hcwd Hq Htmp. pose proof (abs_from_absolute E cwd Hcwd) as Hc.
  unfold can_read_path_with_cwd. destruct (policy_kind p) eqn:Hk.
  - split; intros Hf; [by eapply full_write|by eapply full_read].
  - unfold resolve_access_with_cwd. by rewrite Hk.
  - unfold resolve_access_with_cwd. by rewrite Hk.
Qed.

Lemma name_ok_lit (s : string) :
  bool_decide (SLASH ∉ lit s /\ lit s <> [] /\ lit s <> lit "." /\ lit s <> lit "..") = true -> name_ok (lit s).
Proof. by intros ?%bool_decide_eq_true. Qed.

Ltac dir_absolute :=
  eexists (lit <$> _); split; [done|]; repeat constructor; apply name_ok_lit; by vm_compute.

Lemma sample_env_wf : env_wf sample_env.
Proof. split; [done|]. intros c [= <-]. apply root_absolute. Qed.

Lemma full_disk_access_sound_witness :
  resolve_access_with_cwd sample_env
    (fs_restricted [mk_entry (Special Root) Write; mk_entry (FsPath (dir ["a"])) Read;
                    mk_entry (FsPath (dir ["a"])) Write]) (dir ["a"; "x"]) (dir ["w"]) = Write.
Proof.
  apply (full_disk_access_sound sample_env _ (dir ["a"; "x"]) (dir ["w"])).
  - apply sample_env_wf.
  - repeat constructor; cbn; dir_absolute.
  - dir_absolute.
  - dir_absolute.
  - by vm_compute.
  - by vm_compute.
Defined.

(** ** Adding an entry *)

Section push.
Variable E : FsEnv.
Implicit Types p : FileSystemSandboxPolicy.

Lemma covers_push p cwd q m x r :
  covers E (push_entry p (mk_entry (FsPath q) m)) cwd x r <->
  covers E p cwd x r \/ (r = mk_resolved q m /\ q `prefix_of` x).
Proof.
  unfold covers. rewrite !resolved_elem. cbn [push_entry set_entries entries]. split.
  - intros [(e & [He|He%list_elem_of_singleton]%elem_of_app & Ha & Hx) Hpre].
    + left. eauto.
    + subst e. cbn in Hx. injection Hx as Hx. right. destruct r as [rp ra]. cbn in *. by subst.
  - intros [[(e & He & Ha & Hx) Hpre]|[-> Hpre]].
    + split; [|done]. exists e. rewrite elem_of_app. eauto.
    + split; [|done]. exists (mk_entry (FsPath q) m). rewrite elem_of_app, list_elem_of_singleton. auto.
Qed.

(** Nothing below [q] is said of [x]. *)
Definition bare p (cwd q x : path) : Prop :=
  q `prefix_of` x /\ forall r, covers E p cwd x r -> length (resolved_path r) <= length q.

Lemma bare_covers p cwd q x r : bare p cwd q x -> covers E p cwd x r <-> covers E p cwd q r.
Proof.
  intros [Hq Hb]. split.
  - intros Hr. split; [apply Hr|]. eapply prefix_shorter; [apply Hr|done|by apply Hb].
  - intros [Hr Hpre]. split; [done|]. by etrans.
Qed.

Lemma bare_decided p cwd q x a : bare p cwd q x -> decided E p cwd x a <-> decided E p cwd q a.
Proof.
  intros Hb. unfold decided. setoid_rewrite (fun r => bare_covers p cwd q x r Hb). done.
Qed.

Definition at_path p (cwd q : path) : Prop :=
  exists r, r ∈ resolved_entries_with_cwd E p cwd /\ resolved_path r = q.

Definition stricter (a b : FileSystemAccessMode) : FileSystemAccessMode :=
  if access_rank a <=? access_rank b then b else a.

(** What a new entry for [q] does to the access to [x]. *)
Lemma decided_push p cwd q m x a :
  decided E p cwd x a ->
  decided E (push_entry p (mk_entry (FsPath q) m)) cwd x a \/
  (bare p cwd q x /\ ~ at_path p cwd q /\ decided E (push_entry p (mk_entry (FsPath q) m)) cwd x m) \/
  (bare p cwd q x /\ at_path p cwd q /\
   decided E (push_entry p (mk_entry (FsPath q) m)) cwd x (stricter a m)).
Proof.
  intros Hd. destruct (decide (q `prefix_of` x)) as [Hq|Hq].
  2:{ left. unfold decided in *. setoid_rewrite covers_push. destruct Hd as [(r & Hr & Ha & Hm)|[-> Hn]].
      - left. exists r. split_and!; [by left|done|]. intros r' [Hr'|[_ ?]]; [auto|done].
      - right. split; [done|]. intros r [Hr|[_ ?]]; [by apply (Hn r)|done]. }
  destruct Hd as [(r & Hr & Ha & Hm)|[-> Hn]].
  - destruct (decide (length q < length (resolved_path r))) as [Hl|Hl].
    { left. left. setoid_rewrite covers_push. exists r. split_and!; [by left|done|].
      intros r' [Hr'|[-> _]]; [auto|]. cbn. split; [lia|]. intros ->. lia. }
    assert (bare p cwd q x) as Hb.
    { split; [done|]. intros r' Hr'. destruct (Hm r' Hr') as [? _]. lia. }
    destruct (decide (resolved_path r = q)) as [Heq|Hne].
    + right. right. split_and!; [done|exists r; split; [apply Hr|done]|]. left.
      setoid_rewrite covers_push. unfold stricter. destruct (access_rank a <=? access_rank m) eqn:Ele.
      * apply Nat.leb_le in Ele. exists (mk_resolved q m). split_and!; [by right|done|].
        intros r' [Hr'|[-> _]]; cbn; [|by split].
        destruct (Hm r' Hr') as [Hle He]. rewrite <- Heq at 1. split; [done|].
        intros Hp. etrans; [|exact Ele]. apply He. by rewrite Heq.
      * apply Nat.leb_gt in Ele. exists r. split_and!; [by left|done|].
        intros r' [Hr'|[-> _]]; [auto|]. cbn. rewrite Heq. split; [done|]. lia.
    + right. left.
      assert (forall r', covers E p cwd x r' -> length (resolved_path r') < length q) as Hlt.
      { intros r' Hr'. destruct (Hm r' Hr') as [Hle _].
        assert (length (resolved_path r) <> length q); [|lia].
        intros Hl'. apply Hne. eapply prefix_same_length; [apply Hr|done|done]. }
      split_and!; [done| |].
      * intros (r' & Hr' & Hp'). assert (covers E p cwd x r') as Hc by (split; [done|by rewrite Hp']).
        specialize (Hlt r' Hc). rewrite Hp' in Hlt. lia.
      * left. setoid_rewrite covers_push. exists (mk_resolved q m). split_and!; [by right|done|].
        intros r' [Hr'|[-> _]]; cbn; [|by split]. specialize (Hlt r' Hr'). split; [lia|].
        intros Hz. rewrite Hz in Hlt. lia.
  - right. left. split_and!.
    + split; [done|]. intros r Hr. by destruct (Hn r).
    + intros (r & Hr & Hp). destruct (Hn r). split; [done|by rewrite Hp].
    + left. setoid_rewrite covers_push. exists (mk_resolved q m). split_and!; [by right|done|].
      intros r' [Hr'|[-> _]]; [by destruct (Hn r')|by split].
Qed.

Section access.
Variable cwd : path.

Lemma access_decided p x :
  policy_kind p = Restricted -> absolute x -> decided E p cwd x (resolve_access_with_cwd E p x cwd).
Proof. intros Hk Hx. by apply resolve_access_decided; [|apply candidate_absolute]. Qed.

Lemma decided_access p x a :
  policy_kind p = Restricted -> absolute x -> decided E p cwd x a ->
  resolve_access_with_cwd E p x cwd = a.
Proof. intros Hk Hx Hd. eapply decided_unique; [by apply access_decided|done]. Qed.

(** A read entry for a path that cannot be read only opens denied paths. *)
Lemma push_read p q x :
  policy_kind p = Restricted -> absolute x -> absolute q ->
  can_read_path_with_cwd E p q cwd = false ->
  let a := resolve_access_with_cwd E p x cwd in
  let b := resolve_access_with_cwd E (push_entry p (mk_entry (FsPath q) Read)) x cwd in
  b = a \/ (a = Deny /\ b = Read).
Proof.
  intros Hk Hx Hq Hr a b. unfold can_read_path_with_cwd in Hr.
  assert (resolve_access_with_cwd E p q cwd = Deny) as Hden by (by destruct (resolve_access_with_cwd E p q cwd)).
  assert (bare p cwd q x -> a = Deny) as Hbare.
  { intros Hb. subst a. apply decided_access; [done..|]. rewrite bare_decided by done.
    rewrite <- Hden. by apply access_decided. }
  destruct (decided_push p cwd q Read x a (access_decided p x Hk Hx)) as [Hd|[(Hb & _ & Hd)|(Hb & _ & Hd)]];
    apply decided_access in Hd; try done.
  - by left.
  - right. auto.
  - left. rewrite (Hbare Hb) in *. exact Hd.
Qed.

(** A write entry only gives write access. *)
Lemma push_write p q x :
  policy_kind p = Restricted -> absolute x ->
  let a := resolve_access_with_cwd E p x cwd in
  let b := resolve_access_with_cwd E (push_entry p (mk_entry (FsPath q) Write)) x cwd in
  b = a \/ b = Write.
Proof.
  intros Hk Hx a b.
  destruct (decided_push p cwd q Write x a (access_decided p x Hk Hx)) as [Hd|[(_ & _ & Hd)|(_ & _ & Hd)]];
    apply decided_access in Hd; try done.
  - by left.
  - by right.
  - unfold stricter in Hd. fold b in Hd. case_match; auto.
Qed.

(** At its own path the entry wins unless the path is denied there. *)
Lemma push_self p q m :
  policy_kind p = Restricted -> absolute q ->
  let b := resolve_access_with_cwd E (push_entry p (mk_entry (FsPath q) m)) q cwd in
  access_rank m <= access_rank b /\
  (b = Deny -> m = Deny \/ exists e, e ∈ entries p /\ access e = Deny /\
     resolve_entry_path E (entry_path e) (abs_from E cwd) = Some q).
Proof.
  intros Hk Hq b. pose proof (access_decided (push_entry p (mk_entry (FsPath q) m)) q Hk Hq) as Hd.
  fold b in Hd. assert (covers E (push_entry p (mk_entry (FsPath q) m)) cwd q (mk_resolved q m)) as Hself
    by (apply covers_push; by right).
  destruct Hd as [(r & Hr & Ha & Hm)|[_ Hn]]; [|by destruct (Hn _ Hself)].
  destruct (Hm _ Hself) as [Hl He]. cbn in Hl, He.
  assert (resolved_path r = q) as Hrq.
  { destruct Hr as [_ Hpre]. pose proof (prefix_length _ _ Hpre).
    eapply prefix_same_length; [exact Hpre|done|lia]. }
  split; [by apply He|]. intros Hb. apply covers_push in Hr as [[Hr _]|[-> _]].
  - right. apply resolved_elem in Hr as (e & Hin & Hacc & Hx). exists e. rewrite <- Hrq. split_and!; [done| |done].
    congruence.
  - left. cbn in Ha. congruence.
Qed.
End access.
End push.

(** ** Additional roots *)

Section additional.
Variable E : FsEnv.
Variable cwd : path.
Implicit Types p : FileSystemSandboxPolicy.

Definition add_readable p (q : path) : FileSystemSandboxPolicy :=
  if can_read_path_with_cwd E p q cwd then p else push_entry p (mk_entry (FsPath q) Read).

Lemma add_readable_kind p q : policy_kind (add_readable p q) = policy_kind p.
Proof. unfold add_readable. by case_match. Qed.

Lemma add_readable_elem p q e :
  e ∈ entries (add_readable p q) -> e ∈ entries p \/ e = mk_entry (FsPath q) Read.
Proof.
  unfold add_readable. case_match; [auto|]. cbn. rewrite elem_of_app, list_elem_of_singleton. auto.
Qed.

Lemma add_readable_access p q x :
  policy_kind p = Restricted -> absolute x -> absolute q ->
  resolve_access_with_cwd E (add_readable p q) x cwd = resolve_access_with_cwd E p x cwd \/
  (resolve_access_with_cwd E p x cwd = Deny /\ resolve_access_with_cwd E (add_readable p q) x cwd = Read).
Proof.
  intros Hk Hx Hq. unfold add_readable. destruct (can_read_path_with_cwd E p q cwd) eqn:Er; [by left|].
  by apply push_read.
Qed.

(** A path is readable, or an entry denies exactly it. *)
Definition open_or_denied p (q : path) : Prop :=
  can_read_path_with_cwd E p q cwd = true \/
  exists e, e ∈ entries p /\ access e = Deny /\
    resolve_entry_path E (entry_path e) (abs_from E cwd) = Some q.

Lemma add_readable_self p q :
  policy_kind p = Restricted -> absolute q -> open_or_denied (add_readable p q) q.
Proof.
  intros Hk Hq. unfold open_or_denied, add_readable.
  destruct (can_read_path_with_cwd E p q cwd) eqn:Er; [by left|].
  unfold can_read_path_with_cwd.
  destruct (push_self E cwd p q Read Hk Hq) as [_ Hd].
  destruct (resolve_access_with_cwd E (push_entry p (mk_entry (FsPath q) Read)) q cwd); auto.
  right. destruct (Hd eq_refl) as [|(e & He & Ha & Hx)]; [done|].
  exists e. cbn. rewrite elem_of_app. auto.
Qed.

Lemma add_readable_keeps p q x :
  policy_kind p = Restricted -> absolute x -> absolute q ->
  open_or_denied p x -> open_or_denied (add_readable p q) x.
Proof.
  intros Hk Hx Hq [Hr|(e & He & Ha & Hres)].
  - left. unfold can_read_path_with_cwd in *.
    destruct (add_readable_access p q x Hk Hx Hq) as [->|[_ ->]]; done.
  - right. exists e. split; [|done]. unfold add_readable. case_match; [done|]. cbn.
    rewrite elem_of_app. auto.
Qed.

Lemma foldl_readable p roots x :
  policy_kind p = Restricted -> absolute x -> Forall absolute roots ->
  let p' := foldl add_readable p roots in
  (resolve_access_with_cwd E p' x cwd = resolve_access_with_cwd E p x cwd \/
   (resolve_access_with_cwd E p x cwd = Deny /\ resolve_access_with_cwd E p' x cwd = Read)) /\
  ((x ∈ roots \/ open_or_denied p x) -> open_or_denied p' x).
Proof.
  revert p. induction roots as [|q roots IH]; intros p Hk Hx Hr; cbn [foldl].
  { split; [by left|]. intros [?%elem_of_nil|?]; done. }
  apply Forall_cons in Hr as [Hq Hr].
  destruct (IH (add_readable p q)) as [Ha Ho]; [by rewrite add_readable_kind|done..|]. split.
  - destruct (add_readable_access p q x Hk Hx Hq) as [Heq|[Hd Heq]]; rewrite Heq in Ha; [done|].
    destruct Ha as [Ha|[Ha _]]; [|done]. right. by rewrite Ha.
  - intros Hx'. apply Ho. destruct Hx' as [[->|Hin]%elem_of_cons|Hop].
    + right. by apply add_readable_self.
    + by left.
    + right. by apply add_readable_keeps.
Qed.
End additional.

(** Adding readable roots only opens paths: every path keeps its access or
    goes from denied to readable, so that no write access is gained or lost,
    and afterwards every added root is readable unless an entry denies exactly
    that path. *)
Theorem additional_readable_roots_open (E : FsEnv) (p : FileSystemSandboxPolicy) (cwd : path)
    (roots : list path) (x : path) :
  policy_kind p = Restricted -> has_full_disk_read_access p = false ->
  Forall absolute roots -> absolute x ->
  let p' := with_additional_readable_roots E p cwd roots in
  (resolve_access_with_cwd E p' x cwd = resolve_access_with_cwd E p x cwd \/
   (resolve_access_with_cwd E p x cwd = Deny /\ resolve_access_with_cwd E p' x cwd = Read)) /\
  (x ∈ roots -> can_read_path_with_cwd E p' x cwd = true \/
     exists e, e ∈ entries p' /\ access e = Deny /\
       resolve_entry_path E (entry_path e) (abs_from E cwd) = Some x).
Proof.
  intros Hk Hf Hr Hx. unfold with_additional_readable_roots. rewrite Hf. cbv zeta.
  destruct (foldl_readable E cwd p roots x Hk Hx Hr) as [Ha Ho]. split; [exact Ha|].
  intros Hin. apply Ho. by left.
Qed.

Lemma additional_readable_roots_open_witness :
  let p := fs_restricted [mk_entry (FsPath (dir ["a"])) Write] in
  resolve_access_with_cwd sample_env
    (with_additional_readable_roots sample_env p (dir ["a"]) [dir ["b"]]) (dir ["a"]) (dir ["a"]) = Write /\
  can_read_path_with_cwd sample_env
    (with_additional_readable_roots sample_env p (dir ["a"]) [dir ["b"]]) (dir ["b"]) (dir ["a"]) = true.
Proof.
  intros p. split; [by vm_compute|].
  destruct (additional_readable_roots_open sample_env p (dir ["a"]) [dir ["b"]] (dir ["b"])) as [_ Hx].
  - by vm_compute.
  - by vm_compute.
  - repeat constructor; dir_absolute.
  - dir_absolute.
  - destruct Hx as [Hx|(e & He & Ha & _)]; [by left|exact Hx|].
    vm_compute in He. repeat (apply elem_of_cons in He as [->|He]; [done|]). by apply elem_of_nil in He.
Defined.

(** ** Materialised project roots *)

(** Replacing the symbolic project roots of a policy by the absolute paths
    they have for a working directory does not change any access decision made
    for that directory. *)
Theorem materialize_preserves_access (E : FsEnv) (p : FileSystemSandboxPolicy) (q cwd : path) :
  resolve_access_with_cwd E (materialize_project_roots_with_cwd E p cwd) q cwd =
  resolve_access_with_cwd E p q cwd.
Proof.
  unfold resolve_access_with_cwd. cbn [materialize_project_roots_with_cwd set_entries policy_kind].
  assert (resolved_entries_with_cwd E (materialize_project_roots_with_cwd E p cwd) cwd =
    resolved_entries_with_cwd E p cwd) as ->; [|done].
  unfold resolved_entries_with_cwd. cbn [materialize_project_roots_with_cwd set_entries entries].
  induction (entries p) as [|e l IH]; [done|]. cbn [fmap list_fmap omap list_omap].
  assert (resolve_entry_path E (entry_path (materialize_entry_with_cwd E (abs_from E cwd) e)) (abs_from E cwd)
    = resolve_entry_path E (entry_path e) (abs_from E cwd) /\
    access (materialize_entry_with_cwd E (abs_from E cwd) e) = access e) as [-> ->].
  { unfold materialize_entry_with_cwd. destruct (entry_path e) as [|g|[]] eqn:Ee; rewrite ?Ee; try done.
    - repeat case_match; cbn; rewrite ?Ee; done.
    - destruct (resolve_file_system_path E _ _) eqn:Er; cbn; [|by rewrite Ee].
      cbn in Er. by rewrite Er. }
  by rewrite IH.
Qed.

(** ** Denied reads are preserved *)

Lemma append_deny_elem l existing e :
  e ∈ append_deny_entries l existing <-> e ∈ l \/ (e ∈ existing /\ access e = Deny).
Proof.
  unfold append_deny_entries.
  assert (e ∈ filter (fun e => access e = Deny) existing <-> e ∈ existing /\ access e = Deny) as <-
    by (rewrite list_elem_of_filter; tauto).
  generalize (filter (fun e => access e = Deny) existing). intros k. revert l.
  induction k as [|d k IH]; intros l; cbn [foldl].
  { split; [auto|]. intros [?|?%elem_of_nil]; done. }
  rewrite IH, elem_of_cons. case_decide as Hd; [|rewrite elem_of_app, list_elem_of_singleton; tauto].
  split; [tauto|]. intros [?|[->|?]]; auto.
Qed.

(** The longest possible entry with the strictest access decides. *)
Lemma deny_at_path E p cwd x r :
  policy_kind p = Restricted -> absolute x -> r ∈ resolved_entries_with_cwd E p cwd ->
  resolved_path r = x -> resolved_access r = Deny -> resolve_access_with_cwd E p x cwd = Deny.
Proof.
  intros Hk Hx Hr Hp Ha. apply decided_access; [done..|]. left. exists r. split_and!; [|done|].
  - split; [done|by rewrite Hp].
  - intros r' [_ Hpre]. split; [rewrite Hp; by apply prefix_length|].
    intros _. destruct (resolved_access r'); cbn; lia.
Qed.

(** When the allow side of a policy is replaced and the deny rules of the
    policy before are preserved, every one of them is a rule of the result,
    which is then restricted, and its path is still denied, unless the
    filesystem is left to an external sandbox. *)
Theorem deny_rules_survive (E : FsEnv) (p existing : FileSystemSandboxPolicy) (cwd x : path) e :
  policy_kind p <> ExternalSandbox -> e ∈ entries existing -> access e = Deny ->
  resolve_entry_path E (entry_path e) (abs_from E cwd) = Some x -> absolute x ->
  let p' := preserve_deny_read_restrictions_from p existing in
  policy_kind p' = Restricted /\ e ∈ entries p' /\ resolve_access_with_cwd E p' x cwd = Deny.
Proof.
  intros Hk He Ha Hres Hx p'.
  assert (existsb (fun e => bool_decide (access e = Deny)) (entries existing) = true) as Hex.
  { apply existsb_exists. exists e. rewrite <- list_elem_of_In. split; [done|by apply bool_decide_eq_true]. }
  assert (policy_kind p' = Restricted /\ e ∈ entries p') as [Hk' Hin].
  { subst p'. unfold preserve_deny_read_restrictions_from. rewrite Hex, andb_true_r.
    destruct (policy_kind p) eqn:Ep; [| |done].
    - rewrite bool_decide_false by done. unfold is_restricted. rewrite Ep, bool_decide_true by done. cbn.
      split; [done|]. apply append_deny_elem. auto.
    - rewrite bool_decide_true by done. cbn. split; [done|]. apply append_deny_elem. auto. }
  split_and!; [done..|].
  apply (deny_at_path E p' cwd x (mk_resolved x Deny)); try done.
  apply resolved_elem. exists e. auto.
Qed.

Lemma deny_rules_survive_witness :
  resolve_access_with_cwd sample_env
    (preserve_deny_read_restrictions_from fs_unrestricted
       (fs_restricted [mk_entry (FsPath (dir ["secret"])) Deny])) (dir ["secret"]) (dir ["w"]) = Deny.
Proof.
  apply (deny_rules_survive sample_env fs_unrestricted
    (fs_restricted [mk_entry (FsPath (dir ["secret"])) Deny]) (dir ["w"]) (dir ["secret"])
    (mk_entry (FsPath (dir ["secret"])) Deny)); try done.
  - by left.
  - dir_absolute.
Defined.

(** ** The writable roots *)

Lemma dedup_absolute_elem E l b x :
  x ∈ dedup_absolute_paths E l b <->
  exists y, y ∈ l /\ x = if b then normalize_effective_absolute_path E y else y.
Proof.
  unfold dedup_absolute_paths. set (f := fun y => if b then normalize_effective_absolute_path E y else y).
  enough (forall acc, x ∈ foldl (fun deduped p => if decide (f p ∈ deduped) then deduped else deduped ++ [f p]) acc l
    <-> x ∈ acc \/ exists y, y ∈ l /\ x = f y) as Hall.
  { split; [intros Hin; by apply (Hall []) in Hin as [?%elem_of_nil|?]|intros Hy; apply (Hall []); by right]. }
  induction l as [|y l IH]; intros acc; cbn [foldl].
  { split; [auto|]. intros [?|(? & ?%elem_of_nil & _)]; done. }
  rewrite IH. setoid_rewrite elem_of_cons. case_decide as Hd.
  - split; [naive_solver|]. intros [?|(z & [->|?] & ->)]; eauto.
  - rewrite elem_of_app, list_elem_of_singleton. naive_solver.
Qed.

Section roots.
Variable E : FsEnv.
Hypothesis Henv : env_wf E.
(** No path goes through a symbolic link. *)
Hypothesis Hlinks : forall q, absolute q -> normalize_effective_absolute_path E q = q.
Variables (p : FileSystemSandboxPolicy) (cwd : path).
Hypothesis Hp : policy_wf p.
Hypothesis Hk : policy_kind p = Restricted.
Hypothesis Hcwd : absolute cwd.

Lemma resolved_abs r : r ∈ resolved_entries_with_cwd E p cwd -> absolute (resolved_path r).
Proof. apply resolved_absolute; [done..|]. by apply absolute_components. Qed.

Lemma writable_entry_elem r :
  r ∈ dedup_absolute_paths E (writable_entries_of E p cwd) true ->
  exists e, e ∈ resolved_entries_with_cwd E p cwd /\ resolved_path e = r /\
    resolved_access e = Write /\ can_write_path_with_cwd E p r cwd = true.
Proof.
  intros (y & Hy & ->)%dedup_absolute_elem. unfold writable_entries_of in Hy.
  apply list_elem_of_fmap in Hy as (e & -> & [[Hw Hcw] He]%list_elem_of_filter).
  rewrite Hlinks by (by apply resolved_abs). exists e. split_and!; try done.
  by destruct (resolved_access e).
Qed.

Lemma can_write_access q : can_write_path_with_cwd E p q cwd = true -> resolve_access_with_cwd E p q cwd = Write.
Proof. unfold can_write_path_with_cwd. by destruct (resolve_access_with_cwd E p q cwd). Qed.

(** The entry that decides for [x] decides for its own path. *)
Lemma deciding_entry x m :
  covers E p cwd x m ->
  (forall r, covers E p cwd x r -> length (resolved_path r) <= length (resolved_path m) /\
    (resolved_path r = resolved_path m -> access_rank (resolved_access r) <= access_rank (resolved_access m))) ->
  resolve_access_with_cwd E p (resolved_path m) cwd = resolved_access m.
Proof.
  intros [Hm Hpre] Hmax. apply decided_access; [done|by apply resolved_abs|]. left.
  exists m. split_and!; [by split|done|]. intros r [Hr Hrp]. apply Hmax. split; [done|by etrans].
Qed.

Lemma carveout_below r raw m :
  r `prefix_of` m -> m <> r -> absolute m -> carveout E r raw m = Some m.
Proof.
  intros Hpre Hne Hm. unfold carveout. rewrite Hlinks by done.
  assert (path_starts_with m r = true) as Hs by (by apply path_starts_with_true).
  rewrite Hs. destruct (parent r).
  - by rewrite decide_False.
  - by rewrite bool_decide_false.
Qed.

Lemma writable_root_access r x :
  r ∈ dedup_absolute_paths E (writable_entries_of E p cwd) true -> absolute x ->
  is_path_writable (writable_root_of E p cwd r) x = true ->
  resolve_access_with_cwd E p x cwd = Write.
Proof.
  intros (e & He & Her & Hew & Hcan)%writable_entry_elem Hx. unfold is_path_writable.
  destruct (path_starts_with x _) eqn:Hs; [|done]. apply path_starts_with_true in Hs. cbn in Hs. cbn [negb].
  destruct (existsb _ _) eqn:Hro; [done|]. intros _.
  assert (covers E p cwd x e) as Hce by (split; [done|by rewrite Her]).
  destruct (access_decided E cwd p x Hk Hx) as [(m & Hm & Ha & Hmax)|[_ Hn]]; [|by destruct (Hn _ Hce)].
  rewrite <- Ha in *. destruct (Hmax e Hce) as [Hlen Hrank]. rewrite Her in Hlen.
  destruct (resolved_access m) eqn:Em; [exfalso|done|exfalso].
  all: pose proof (deciding_entry x m Hm) as Hself; rewrite Em in Hself; specialize (Hself Hmax).
  all: destruct (decide (resolved_path m = r)) as [Heq|Hne];
    [apply can_write_access in Hcan; rewrite Heq in Hself; congruence|].
  all: assert (r `prefix_of` resolved_path m) as Hpre by (eapply prefix_shorter; [exact Hs|apply Hm|done]).
  all: rewrite <- not_true_iff_false in Hro; apply Hro; apply existsb_exists; exists (resolved_path m);
    (split; [|apply path_starts_with_true, Hm]); apply list_elem_of_In; cbn;
    apply dedup_absolute_elem; exists (resolved_path m); (split; [|done]);
    apply elem_of_app; right; apply list_elem_of_omap; exists (resolved_path m);
    (split; [|apply carveout_below; [done|done|by apply resolved_abs, Hm]]);
    apply list_elem_of_fmap; exists m; (split; [done|]); apply list_elem_of_filter;
    (split; [|apply Hm]); rewrite Em; (split; [done|]);
    unfold can_write_path_with_cwd; by rewrite Hself.
Qed.
(** ** Protected metadata *)

(** What an entry that may be written says of a target: its metadata child. *)
Definition metadata_child (target : path) (e : ResolvedFileSystemEntry) : option (path * str) :=
  if can_write (resolved_access e) then
    relative_path ← path_strip_prefix (resolved_path e) target;
    first_component ← head relative_path;
    metadata_name ← metadata_path_name first_component;
    Some (abs_join E (resolved_path e) (components metadata_name), metadata_name)
  else None.

Lemma head_omap_Some {A B} (f : A -> option B) l y :
  head (omap f l) = Some y ->
  exists l1 x l2, l = l1 ++ x :: l2 /\ f x = Some y /\ Forall (fun z => f z = None) l1.
Proof.
  induction l as [|x l IH]; [done|]. cbn. destruct (f x) as [z|] eqn:Ex.
  - intros [= <-]. by exists [], x, l.
  - intros (l1 & x' & l2 & -> & Hx & Hn)%IH. exists (x :: l1), x', l2. split_and!; [done|done|by constructor].
Qed.

Lemma head_omap_skip {A B} (f : A -> option B) l1 x l2 y :
  f x = Some y -> Forall (fun z => f z = None) l1 -> head (omap f (l1 ++ x :: l2)) = Some y.
Proof. intros Hx. induction 1 as [|z l1 Hz _ IH]; cbn; [by rewrite Hx|by rewrite Hz]. Qed.

Lemma join_metadata r name :
  absolute r -> name ∈ PROTECTED_METADATA_PATH_NAMES ->
  abs_join E r (components name) = r ++ [Normal name] /\ absolute (r ++ [Normal name]).
Proof.
  intros (names & -> & Hn) Hname.
  assert (components name = [Normal name] /\ name_ok name /\ name <> [TILDE]) as (Hc & Ho & Ht).
  { unfold PROTECTED_METADATA_PATH_NAMES in Hname. rewrite !elem_of_cons in Hname.
    destruct Hname as [->|[->|[->|Hin]]]; [..|by apply elem_of_nil in Hin];
      (split; [done|split; [repeat split; by apply (bool_decide_unpack _)|done]]). }
  assert (absolute (RootDir :: (Normal <$> names) ++ [Normal name])) as Ha.
  { exists (names ++ [name]). split; [by rewrite fmap_app|]. apply Forall_app. by split; [|constructor]. }
  split; [|exact Ha]. rewrite Hc. unfold abs_join, resolve_against, expand_home.
  assert (str_eqb name [TILDE] = false) as Hs by (by apply str_eqb_ne).
  destruct (env_home E); rewrite ?Hs; unfold absolutize_from, path_with_base, path_join; cbn [is_absolute];
    by rewrite normalize_idem.
Qed.

Lemma component_after (r rest : path) c :
  absolute r -> absolute (r ++ c :: rest) -> exists n, c = Normal n.
Proof.
  intros (names & -> & _) (all & Hall & _). injection Hall as Hall.
  assert (c ∈ Normal <$> all) as Hc by (rewrite <- Hall; set_solver).
  apply list_elem_of_fmap in Hc as (n & -> & _). by exists n.
Qed.

Lemma metadata_child_Some target e pm name :
  absolute target -> e ∈ resolved_entries_with_cwd E p cwd ->
  metadata_child target e = Some (pm, name) <->
  resolved_access e = Write /\ name ∈ PROTECTED_METADATA_PATH_NAMES /\
  pm = resolved_path e ++ [Normal name] /\ pm `prefix_of` target.
Proof.
  intros Ht He. pose proof (resolved_abs e He) as Hr. unfold metadata_child. split.
  - destruct (resolved_access e) eqn:Ea; [done| |done]. cbn [can_write].
    intros (rel & Hrel%path_strip_prefix_Some & (c & Hc & (n & Hn & [= <- <-])%bind_Some)%bind_Some)%bind_Some.
    destruct rel as [|c' rel]; [done|]. injection Hc as ->. rewrite Hrel in Ht.
    destruct (component_after _ _ _ Hr Ht) as [n' ->]. unfold metadata_path_name in Hn.
    apply List.find_some in Hn as [Hin Heq]. apply list_elem_of_In in Hin.
    apply str_eqb_eq in Heq. cbn in Heq. subst n'.
    destruct (join_metadata _ _ Hr Hin) as [-> _]. split_and!; [done|done|done|].
    rewrite Hrel. exists rel. by rewrite <- app_assoc.
  - intros (-> & Hin & -> & [rest ->]). cbn [can_write]. rewrite <- app_assoc.
    rewrite (proj2 (path_strip_prefix_Some _ _ _) eq_refl). cbn [mbind option_bind head app].
    assert (metadata_path_name (Normal name) = Some name) as ->.
    { unfold PROTECTED_METADATA_PATH_NAMES in Hin. rewrite !elem_of_cons in Hin.
      destruct Hin as [->|[->|[->|Hin]]]; [done..|by apply elem_of_nil in Hin]. }
    cbn [mbind option_bind]. by destruct (join_metadata _ _ Hr Hin) as [-> _].
Qed.

(** A target whose metadata is protected: the first entry that may be written
    and has it below one of the names, and no entry that opens it again. *)
Lemma metadata_denied target :
  absolute target ->
  is_metadata_write_denied E p target cwd = true <->
  exists l1 e l2 name,
    resolved_entries_with_cwd E p cwd = l1 ++ e :: l2 /\
    metadata_child target e = Some (resolved_path e ++ [Normal name], name) /\
    Forall (fun e' => metadata_child target e' = None) l1 /\
    has_explicit_write_entry_for_metadata_path E p (resolved_path e ++ [Normal name]) target cwd = false.
Proof.
  intros Ht. unfold is_metadata_write_denied, is_restricted. rewrite Hk, bool_decide_true by done.
  cbn [negb]. rewrite candidate_absolute by done. unfold metadata_child_of_writable_root.
  change (omap _ (resolved_entries_with_cwd E p cwd)) with
    (omap (metadata_child target) (resolved_entries_with_cwd E p cwd)). split.
  - destruct (head _) as [[pm name]|] eqn:Eh; [|done]. intros Hx%negb_true_iff.
    apply head_omap_Some in Eh as (l1 & e & l2 & El & He & Hn).
    assert (e ∈ resolved_entries_with_cwd E p cwd) as Hin by (rewrite El; set_solver).
    pose proof He as He'. apply metadata_child_Some in He' as (_ & _ & -> & _); [|done..].
    by exists l1, e, l2, name.
  - intros (l1 & e & l2 & name & El & He & Hn & Hx). rewrite El.
    rewrite (head_omap_skip _ _ _ _ _ He Hn). by rewrite Hx.
Qed.

Lemma explicit_true pm target :
  has_explicit_write_entry_for_metadata_path E p pm target cwd = true <->
  exists e, e ∈ resolved_entries_with_cwd E p cwd /\ resolved_access e = Write /\
    resolved_path e `prefix_of` target /\ pm `prefix_of` resolved_path e.
Proof.
  unfold has_explicit_write_entry_for_metadata_path. rewrite existsb_exists. split.
  - intros (e & Hin%list_elem_of_In & Hb). rewrite !andb_true_iff, !path_starts_with_true in Hb.
    exists e. destruct Hb as [[Hw ?] ?]. split_and!; try done. by destruct (resolved_access e).
  - intros (e & Hin & Hw & ? & ?). exists e. rewrite <- list_elem_of_In, !andb_true_iff, !path_starts_with_true.
    by rewrite Hw.
Qed.

(** An entry that may be written is opened by itself. *)
Lemma entry_not_denied e :
  e ∈ resolved_entries_with_cwd E p cwd -> resolved_access e = Write ->
  is_metadata_write_denied E p (resolved_path e) cwd = false.
Proof.
  intros He Hw. pose proof (resolved_abs e He) as Ha. apply not_true_iff_false.
  rewrite metadata_denied by done. intros (l1 & e2 & l2 & name & El & H2 & _ & Hx).
  assert (e2 ∈ resolved_entries_with_cwd E p cwd) as Hin2 by (rewrite El; set_solver).
  apply metadata_child_Some in H2 as (_ & _ & _ & Hpre); [|done..].
  apply not_true_iff_false in Hx. apply Hx, explicit_true. by exists e.
Qed.

(** Where a protected name below a writable entry is not opened, writing at the
    name itself is denied. *)
Lemma metadata_path_denied target l1 e l2 name :
  absolute target -> resolved_entries_with_cwd E p cwd = l1 ++ e :: l2 ->
  metadata_child target e = Some (resolved_path e ++ [Normal name], name) ->
  Forall (fun e' => metadata_child target e' = None) l1 ->
  has_explicit_write_entry_for_metadata_path E p (resolved_path e ++ [Normal name]) target cwd = false ->
  is_metadata_write_denied E p (resolved_path e ++ [Normal name]) cwd = true.
Proof.
  intros Ht El He Hn Hx.
  assert (forall e', e' ∈ l1 ++ e :: l2 -> e' ∈ resolved_entries_with_cwd E p cwd) as Hin by (by rewrite El).
  destruct (proj1 (metadata_child_Some target e _ _ Ht (Hin e ltac:(set_solver))) He)
    as (Hw & Hname & _ & Hpre).
  assert (absolute (resolved_path e)) as Hr by (apply resolved_abs, Hin; set_solver).
  destruct (join_metadata _ _ Hr Hname) as [_ Ha]. apply metadata_denied; [done|].
  exists l1, e, l2, name. split_and!; [done|..].
  - apply metadata_child_Some; [done|apply Hin; set_solver|]. by split_and!.
  - rewrite Forall_forall in Hn |- *. intros e' He'. specialize (Hn e' He').
    destruct (metadata_child (resolved_path e ++ [Normal name]) e') as [[pm n]|] eqn:Ec; [|done]. exfalso.
    apply metadata_child_Some in Ec as (? & ? & -> & ?); [|done|apply Hin; set_solver].
    enough (metadata_child target e' = Some (resolved_path e' ++ [Normal n], n)) by congruence.
    apply metadata_child_Some; [done|apply Hin; set_solver|]. split_and!; try done. by etrans.
  - apply not_true_iff_false in Hx. apply not_true_iff_false. intros (e' & ? & ? & H1 & H2)%explicit_true.
    apply Hx, explicit_true. exists e'. split_and!; try done. by etrans.
Qed.

Lemma writable_entry_root e :
  e ∈ resolved_entries_with_cwd E p cwd -> resolved_access e = Write ->
  can_write_path_with_cwd E p (resolved_path e) cwd = true ->
  resolved_path e ∈ dedup_absolute_paths E (writable_entries_of E p cwd) true.
Proof.
  intros He Hw Hc. apply dedup_absolute_elem. exists (resolved_path e).
  split; [|by rewrite Hlinks by (by apply resolved_abs)]. unfold writable_entries_of.
  apply list_elem_of_fmap. exists e. split; [done|]. apply list_elem_of_filter. by rewrite Hw.
Qed.

(** The root of a writable entry knows the protected names below it. *)
Lemma root_protects e name :
  e ∈ resolved_entries_with_cwd E p cwd -> name ∈ PROTECTED_METADATA_PATH_NAMES ->
  can_write_path_with_cwd E p (resolved_path e ++ [Normal name]) cwd = false ->
  name ∈ protected_metadata_names (writable_root_of E p cwd (resolved_path e)).
Proof.
  intros He Hname Hc. pose proof (resolved_abs e He) as Hr.
  unfold writable_root_of. cbn [protected_metadata_names].
  unfold protected_metadata_names_for_writable_root. apply list_elem_of_filter. split; [|done].
  destruct (join_metadata _ _ Hr Hname) as [Hj _]. apply List.forallb_forall. intros q Hq%list_elem_of_In.
  enough (q = resolved_path e ++ [Normal name]) as -> by (by rewrite Hc).
  apply elem_of_cons in Hq as [->|Hq]; [done|].
  apply list_elem_of_fmap in Hq as (raw & -> & [Hn Hraw]%list_elem_of_filter).
  unfold writable_entries_of in Hraw.
  apply list_elem_of_fmap in Hraw as (e' & -> & [_ He']%list_elem_of_filter).
  rewrite Hlinks in Hn by (by apply resolved_abs). by rewrite Hn.
Qed.

(** The entry that opens [x] opens the path of every writable entry around [x]
    that is not opened again below. *)
Lemma enclosing_access x e :
  absolute x -> covers E p cwd x e -> resolve_access_with_cwd E p x cwd = Write ->
  (forall m, covers E p cwd x m -> resolved_access m = Write ->
     length (resolved_path m) <= length (resolved_path e)) ->
  resolve_access_with_cwd E p (resolved_path e) cwd = Write.
Proof.
  intros Hx Hce Ha Hlow.
  destruct (access_decided E cwd p x Hk Hx) as [(m & Hm & Hma & Hmax)|[Hn _]]; [|congruence].
  rewrite Ha in Hma. assert (resolved_path m = resolved_path e) as <-.
  { apply (prefix_same_length x); [apply Hm|apply Hce|]. destruct (Hmax e Hce) as [Hl _].
    specialize (Hlow m Hm Hma). lia. }
  rewrite <- Hma. apply (deciding_entry x); [done|by rewrite Hma, <- Ha].
Qed.

Lemma writable_roots_write x :
  has_full_disk_write_access p = false -> absolute x ->
  resolve_access_with_cwd E p x cwd = Write ->
  (forall r, r ∈ dedup_absolute_paths E (writable_entries_of E p cwd) true -> r `prefix_of` x ->
     is_path_writable (writable_root_of E p cwd r) x = true) ->
  can_write_path_with_cwd E p x cwd = true.
Proof.
  intros Hf Hx Ha Hall. unfold can_write_path_with_cwd. rewrite Ha, Hf. cbn [can_write negb].
  apply negb_true_iff, not_true_iff_false. rewrite metadata_denied by done.
  intros (l1 & e & l2 & name & El & He & Hn & Hexp).
  assert (e ∈ resolved_entries_with_cwd E p cwd) as Hin by (rewrite El; set_solver).
  destruct (proj1 (metadata_child_Some x e _ _ Hx Hin) He) as (Hw & Hname & _ & Hpre).
  assert (resolved_path e `prefix_of` x) as Hpx by (etrans; [by eexists|exact Hpre]).
  assert (resolve_access_with_cwd E p (resolved_path e) cwd = Write) as Hae.
  { apply (enclosing_access x); [done|by split|done|]. intros m [Hm Hmp] Hmw.
    apply Nat.nlt_ge. intros Hlt. apply not_true_iff_false in Hexp. apply Hexp, explicit_true.
    exists m. split_and!; [done..|]. eapply prefix_shorter; [exact Hpre|exact Hmp|].
    rewrite length_app. cbn. lia. }
  assert (resolved_path e ∈ dedup_absolute_paths E (writable_entries_of E p cwd) true) as Hr.
  { apply writable_entry_root; [done..|]. unfold can_write_path_with_cwd.
    rewrite Hae, Hf, entry_not_denied by done. done. }
  specialize (Hall _ Hr Hpx). apply (root_protects e name) in Hname; [|done|].
  2:{ unfold can_write_path_with_cwd. rewrite Hf, (metadata_path_denied x l1 e l2 name) by done.
      by destruct (negb _). }
  destruct Hpre as [rest ->]. unfold is_path_writable, path_contains_protected_metadata_name in Hall.
  cbn [root writable_root_of] in Hall. rewrite <- app_assoc in Hall.
  destruct (negb (path_starts_with _ _)); [done|]. destruct (existsb _ (read_only_subpaths _)); [done|].
  rewrite (proj2 (path_strip_prefix_Some _ _ _) eq_refl) in Hall. cbn [app] in Hall.
  apply negb_true_iff, not_true_iff_false in Hall. apply Hall, existsb_exists. exists name.
  split; [by apply list_elem_of_In|apply str_eqb_refl].
Qed.
End roots.

(** C19: the sandbox is never given more than the policy.  On a filesystem
    without symbolic links, for a well-formed policy and absolute paths, every
    path that one of the computed writable roots lets a sandboxed command write
    (below the root, outside its read-only subpaths, not through a protected
    metadata name) has write access under the entries of the policy; and if
    every root around it lets it be written, the policy lets it be written with
    its protection of metadata directories.  (One root is not enough for the
    latter: [nested_root_opens_metadata].  Denials by glob patterns are not
    part of the roots; they are matched separately.) *)
Theorem writable_roots_sound (E : FsEnv) (p : FileSystemSandboxPolicy) (cwd x : path) (w : WritableRoot) :
  env_wf E -> (forall q, absolute q -> normalize_effective_absolute_path E q = q) ->
  policy_wf p -> absolute cwd -> absolute x ->
  w ∈ get_writable_roots_with_cwd E p cwd -> is_path_writable w x = true ->
  resolve_access_with_cwd E p x cwd = Write /\
  ((forall w', w' ∈ get_writable_roots_with_cwd E p cwd -> root w' `prefix_of` x ->
      is_path_writable w' x = true) ->
   can_write_path_with_cwd E p x cwd = true).
Proof.
  intros Henv Hlinks Hp Hcwd Hx Hw Hin. unfold get_writable_roots_with_cwd in Hw |- *.
  destruct (has_full_disk_write_access p) eqn:Ef; [by apply elem_of_nil in Hw|].
  apply list_elem_of_fmap in Hw as (r & -> & Hr).
  destruct (policy_kind p) eqn:Hk.
  2,3: unfold can_write_path_with_cwd, is_metadata_write_denied, is_restricted, resolve_access_with_cwd;
    by rewrite Hk, Ef.
  assert (resolve_access_with_cwd E p x cwd = Write) as Ha by (by eapply writable_root_access).
  split; [done|]. intros Hall. apply writable_roots_write; [done..|].
  intros r' Hr' Hpre. apply Hall; [|done]. by apply list_elem_of_fmap_2.
Qed.

Lemma sample_env_links q : absolute q -> normalize_effective_absolute_path sample_env q = q.
Proof.
  intros Hq. unfold normalize_effective_absolute_path.
  assert (exists l, ancestors q = q :: l) as [l ->].
  { unfold ancestors. destruct Hq as (names & -> & _). cbn [length].
    rewrite seq_S, reverse_snoc. cbn [fmap list_fmap].
    eexists. f_equal. rewrite take_ge; [done|]. cbn. lia. }
  cbn [omap list_omap is_symlink sample_env mbind option_bind].
  unfold canonicalize_preserving_symlinks. rewrite (abs_from_absolute sample_env q Hq).
  cbn [mbind option_bind canonicalize sample_env].
  replace (should_preserve_logical_path sample_env q && negb (bool_decide (q = q))) with false
    by (by rewrite bool_decide_true, andb_false_r).
  assert (path_strip_prefix q q = Some []) as -> by (apply path_strip_prefix_Some; by rewrite app_nil_r).
  cbn [mbind option_bind]. unfold path_join. cbn [is_absolute]. rewrite app_nil_r.
  by rewrite (abs_from_absolute sample_env q Hq).
Qed.

Definition nested_policy : FileSystemSandboxPolicy :=
  fs_restricted [mk_entry (FsPath (dir ["a"])) Write; mk_entry (FsPath (dir ["a"; "b"])) Write;
                 mk_entry (FsPath (dir ["a"; "ro"])) Read].

Lemma writable_roots_sound_witness :
  resolve_access_with_cwd sample_env nested_policy (dir ["a"; "b"; "x"]) (dir ["a"]) = Write /\
  can_write_path_with_cwd sample_env nested_policy (dir ["a"; "b"; "x"]) (dir ["a"]) = true.
Proof.
  edestruct (writable_roots_sound sample_env nested_policy (dir ["a"]) (dir ["a"; "b"; "x"])
    (writable_root_of sample_env nested_policy (dir ["a"]) (dir ["a"]))) as [Ha Hw].
  - apply sample_env_wf.
  - apply sample_env_links.
  - repeat constructor; cbn; dir_absolute.
  - dir_absolute.
  - dir_absolute.
  - vm_compute. by left.
  - by vm_compute.
  - split; [exact Ha|]. apply Hw. intros w' Hw' _. vm_compute in Hw'.
    apply elem_of_cons in Hw' as [->|Hw'%list_elem_of_singleton]; [|subst w']; by vm_compute.
Defined.

(** A writable root inside another one: the outer root, whose protected names
    are only those right below it, lets the metadata directory of the inner
    root be written, which the policy denies. *)
Example nested_root_opens_metadata :
  let x := dir ["a"; "b"; ".git"; "config"] in
  existsb (fun w => is_path_writable w x)
    (get_writable_roots_with_cwd sample_env nested_policy (dir ["a"])) = true /\
  can_write_path_with_cwd sample_env nested_policy x (dir ["a"]) = false.
Proof. by vm_compute. Qed.

(** ** Home expansion on components

    [expand_home] agrees with the expansion of the path's text once the path is
    resolved. *)

Lemma omap_classify_trim s :
  omap classify (split SLASH (trim_start_matches SLASH s)) = omap classify (split SLASH s).
Proof.
  induction s as [|c s IH]; [done|]. cbn [trim_start_matches]. destruct (c =? SLASH)%N eqn:E; [|done].
  apply N.eqb_eq in E as ->. rewrite IH.
  change (SLASH :: s) with ([] ++ SLASH :: s). rewrite split_app_sep by (by apply not_elem_of_nil). done.
Qed.

Lemma normalize_skip_curdir a b : normalize_path (a ++ CurDir :: b) = normalize_path (a ++ b).
Proof. unfold normalize_path. by rewrite !foldl_app. Qed.

Lemma trim_slash_no_root s : starts_with [SLASH] (trim_start_matches SLASH s) = false.
Proof.
  induction s as [|c s IH]; [done|]. cbn [trim_start_matches]. destruct (c =? SLASH)%N eqn:E; [done|].
  unfold starts_with. cbn [strip_prefix]. by rewrite N.eqb_sym, E.
Qed.

Lemma components_tilde r : components (TILDE :: SLASH :: r) = Normal [TILDE] :: omap classify (split SLASH r).
Proof.
  unfold components. change (TILDE :: SLASH :: r) with ([TILDE] ++ SLASH :: r).
  rewrite split_app_sep by (by apply (bool_decide_unpack _)). done.
Qed.

Lemma resolve_against_components E s base :
  absolute base -> (forall h, env_home E = Some h -> absolute h) ->
  resolve_path_against_base (env_home E) s base = resolve_against E (components s) base.
Proof.
  intros Hbase Hhome. unfold resolve_path_against_base, resolve_against, maybe_expand_home_directory, expand_home.
  destruct (env_home E) as [home|]; [|done]. specialize (Hhome home eq_refl).
  assert (forall k, path_with_base (home ++ k) base = home ++ k) as Hk.
  { intros k. unfold path_with_base. destruct Hhome as (names & -> & _). done. }
  destruct (strip_prefix [TILDE] s) as [rest|] eqn:Es.
  - apply strip_prefix_Some in Es as ->. cbn [app]. destruct rest as [|c rest].
    { change (components [TILDE]) with [Normal [TILDE]]. cbn [str_eqb]. rewrite str_eqb_refl. by rewrite app_nil_r. }
    destruct (strip_prefix [SLASH] (c :: rest)) as [r|] eqn:Er.
    + apply strip_prefix_Some in Er. cbn [app] in Er. injection Er as -> ->.
      rewrite components_tilde, str_eqb_refl.
      assert (is_absolute (components (trim_start_matches SLASH r)) = false) as Hna.
      { unfold components. rewrite trim_slash_no_root. destruct (str_eqb _ (lit ".")); [done|]. cbn [app].
        pose proof (split_parts_no_sep SLASH (trim_start_matches SLASH r)) as Hparts.
        induction Hparts as [|x l Hx _ IH]; [done|]. cbn. destruct (classify x) as [c'|] eqn:Ec; [|exact IH].
        destruct (classify_ok _ _ Hx Ec) as [_ Hr]. by destruct c'. }
      unfold path_join. rewrite Hna. unfold absolutize_from. rewrite !Hk.
      rewrite <- (omap_classify_trim r). unfold components. rewrite trim_slash_no_root.
      case_match; [|done]. cbn [app]. by rewrite normalize_skip_curdir.
    + destruct (components (TILDE :: c :: rest)) as [|[| | |n] k] eqn:Ec; try done.
      destruct (str_eqb n [TILDE]) eqn:En; [|done]. apply str_eqb_eq in En as ->. exfalso.
      unfold components in Ec. cbn [starts_with strip_prefix] in Ec.
      assert (c <> SLASH) as Hc.
      { intros ->. by cbn in Er. }
      destruct (split_cons_other SLASH c rest Hc) as (h & t & _ & Hc').
      destruct (split_cons_other SLASH TILDE (c :: rest)) as (h' & t' & Ht & Hsp); [done|].
      rewrite Hc' in Ht. injection Ht as <- <-. rewrite Hsp in Ec. cbn in Ec. done.
  - destruct (components s) as [|[| | |n] k] eqn:Ec; try done.
    destruct (str_eqb n [TILDE]) eqn:En; [|done]. apply str_eqb_eq in En as ->. exfalso.
    unfold components in Ec. destruct (starts_with [SLASH] s) eqn:Esl; [done|].
    destruct s as [|c s]; [done|]. assert (c <> SLASH) as Hc by (by intros ->).
    destruct (split_cons_other SLASH c s Hc) as (h & t & _ & Hsp). rewrite Hsp in Ec.
    change (default [] (head ((c :: h) :: t))) with (c :: h) in Ec.
    destruct (str_eqb (c :: h) (lit ".")) eqn:Edot; [done|].
    cbn [app omap list_omap] in Ec. unfold classify in Ec. rewrite Edot in Ec.
    destruct (str_eqb (c :: h) []) eqn:E0; [by apply str_eqb_eq in E0|].
    destruct (str_eqb (c :: h) (lit "..")); [done|]. injection Ec as -> _ _. by vm_compute in Es.
Qed.
