(* ===== verification/BashScript.v ===== *)
(** * Plain commands of a shell script ([shell-command])

    Which shell an argument vector starts ([shell_detect.rs]) and the commands
    of the script it passes ([bash.rs]).  The syntax tree comes from
    tree-sitter, whose parser is a parameter; a node is its kind, its range of
    bytes and its children. *)

From S2P Require Export AbsPath.

(** ** Shells ([shell_detect.rs]) *)

Inductive ShellType := Zsh | Bash | PowerShell | Sh | Cmd.

#[export] Instance ShellType_eq_dec : EqDecision ShellType.
Proof. solve_decision. Defined.

(** [Path::file_stem]: the name up to its last dot, the whole name when that
    dot starts it. *)
Definition stem_of (name : str) : str :=
  match reverse (split 46%N name) with
  | _ :: ((_ :: _) as before) =>
    let stem := join [46%N] (reverse before) in
    match stem with [] => name | _ => stem end
  | _ => name
  end.

Definition file_stem (p : path) : option str := stem_of <$> file_name p.

Definition shell_of_name (s : str) : option ShellType :=
  if str_eqb s (lit "zsh") then Some Zsh
  else if str_eqb s (lit "sh") then Some Sh
  else if str_eqb s (lit "cmd") then Some Cmd
  else if str_eqb s (lit "bash") then Some Bash
  else if str_eqb s (lit "pwsh") then Some PowerShell
  else if str_eqb s (lit "powershell") then Some PowerShell
  else None.

(** Each call is on a shorter path. *)
Fixpoint detect_from (fuel : nat) (shell_path : str) : res Empty_set (option ShellType) :=
  match fuel with
  | 0 => NoFuel
  | S fuel =>
    match shell_of_name shell_path with
    | Some t => Ok (Some t)
    | None =>
      match file_stem (components shell_path) with
      | Some shell_name =>
        if decide (components shell_name = components shell_path) then Ok None
        else detect_from fuel shell_name
      | None => Ok None
      end
    end
  end.

Definition detect_shell_type (shell_path : str) : res Empty_set (option ShellType) :=
  detect_from (S (length shell_path)) shell_path.

(** ** Syntax trees *)

Inductive Node := mk_node {
  kind : str;
  is_named : bool;
  start_byte : nat;
  end_byte : nat;
  children : list Node
}.

Record Tree := mk_tree { root_node : Node; has_error : bool }.

Definition named_children (n : Node) : list Node := filter (fun c => is_named c = true) (children n).

(** [Node::utf8_text] of the source. *)
Definition utf8_text (src : str) (n : Node) : option str :=
  match byte_split src (Z.of_nat (start_byte n)) with
  | Some (_, r) => fst <$> byte_split r (Z.of_nat (end_byte n) - Z.of_nat (start_byte n))
  | None => None
  end.

Definition has_kind (s : string) (n : Node) : bool := str_eqb (kind n) (lit s).

(** ** The commands of a script ([bash.rs]) *)

Definition ALLOWED_KINDS : list str :=
  lit <$> ["program"; "list"; "pipeline"; "command"; "command_name"; "word"; "string";
           "string_content"; "raw_string"; "number"; "concatenation"]%string.

Definition QUOTE : str := [34%N].

Definition ALLOWED_PUNCT_TOKENS : list str := [lit "&&"; lit "||"; lit ";"; lit "|"; QUOTE; lit "'"].

(** What the loop demands of a node. *)
Definition node_allowed (n : Node) : bool :=
  if is_named n then bool_decide (kind n ∈ ALLOWED_KINDS)
  else if existsb (fun c => bool_decide (c ∈ lit "&;|")) (kind n)
          && negb (bool_decide (kind n ∈ ALLOWED_PUNCT_TOKENS)) then false
  else bool_decide (kind n ∈ ALLOWED_PUNCT_TOKENS)
       || match trim (kind n) with [] => true | _ => false end.

(** The [while] loop; the head of the list is the top of the stack. *)
Fixpoint collect_commands (fuel : nat) (stack command_nodes : list Node)
    : res Empty_set (option (list Node)) :=
  match fuel, stack with
  | _, [] => Ok (Some command_nodes)
  | 0, _ => NoFuel
  | S fuel, node :: stack =>
    if node_allowed node then
      collect_commands fuel (reverse (children node) ++ stack)
        (if is_named node && has_kind "command" node then command_nodes ++ [node] else command_nodes)
    else Ok None
  end.

Fixpoint size (n : Node) : nat := S (sum_list (size <$> children n)).

Fixpoint insert_by_start (n : Node) (l : list Node) : list Node :=
  match l with
  | [] => [n]
  | m :: l' => if start_byte n <=? start_byte m then n :: l else m :: insert_by_start n l'
  end.

(** [sort_by_key(Node::start_byte)], which is stable. *)
Definition sort_by_start (l : list Node) : list Node := foldr insert_by_start [] l.

Definition parse_double_quoted_string (src : str) (n : Node) : option str :=
  if negb (has_kind "string" n) then None
  else if existsb (fun part => negb (has_kind "string_content" part)) (named_children n) then None
  else
    raw ← utf8_text src n;
    text ← strip_prefix QUOTE raw;
    strip_suffix QUOTE text.

Definition parse_raw_string (src : str) (n : Node) : option str :=
  if negb (has_kind "raw_string" n) then None
  else
    raw ← utf8_text src n;
    text ← strip_prefix (lit "'") raw;
    strip_suffix (lit "'") text.

(** A word, a number or a quoted string. *)
Definition parse_piece (src : str) (n : Node) : option str :=
  if has_kind "word" n || has_kind "number" n then utf8_text src n
  else if has_kind "string" n then parse_double_quoted_string src n
  else if has_kind "raw_string" n then parse_raw_string src n
  else None.

Definition parse_word (src : str) (child : Node) : option str :=
  if has_kind "command_name" child then
    word_node ← head (named_children child);
    if has_kind "word" word_node then utf8_text src word_node else None
  else if has_kind "concatenation" child then
    parts ← mapM (parse_piece src) (named_children child);
    match concat parts with [] => None | concatenated => Some concatenated end
  else parse_piece src child.

Definition parse_plain_command_from_node (src : str) (cmd : Node) : option (list str) :=
  if has_kind "command" cmd then mapM (parse_word src) (named_children cmd) else None.

Definition try_parse_word_only_commands_sequence (tree : Tree) (src : str)
    : res Empty_set (option (list (list str))) :=
  if has_error tree then Ok None
  else
    let? r := collect_commands (size (root_node tree)) [root_node tree] [] in
    Ok (command_nodes ← r; mapM (parse_plain_command_from_node src) (sort_by_start command_nodes)).

Definition extract_bash_command (command : list str) : res Empty_set (option (str * str)) :=
  match command with
  | [shell; flag; script] =>
    let? t := detect_shell_type shell in
    Ok (if negb (str_eqb flag (lit "-lc") || str_eqb flag (lit "-c"))
           || match t with Some Zsh | Some Bash | Some Sh => false | _ => true end
        then None else Some (shell, script))
  | _ => Ok None
  end.

(** The loops over the named nodes of a tree. *)
Fixpoint has_descendant_loop (fuel : nat) (stack : list Node) (k : string) : res Empty_set bool :=
  match fuel, stack with
  | _, [] => Ok false
  | 0, _ => NoFuel
  | S fuel, current :: stack =>
    if has_kind k current then Ok true
    else has_descendant_loop fuel (reverse (named_children current) ++ stack) k
  end.

Definition has_named_descendant_kind (n : Node) (k : string) : res Empty_set bool :=
  has_descendant_loop (size n) [n] k.

Fixpoint find_single_loop (fuel : nat) (stack : list Node) (single_command : option Node)
    : res Empty_set (option Node) :=
  match fuel, stack with
  | _, [] => Ok single_command
  | 0, _ => NoFuel
  | S fuel, node :: stack =>
    if has_kind "command" node then
      match single_command with
      | Some _ => Ok None
      | None => find_single_loop fuel (reverse (named_children node) ++ stack) (Some node)
      end
    else find_single_loop fuel (reverse (named_children node) ++ stack) single_command
  end.

Definition find_single_command_node (root : Node) : res Empty_set (option Node) :=
  find_single_loop (size root) [root] None.

Definition is_literal_word_or_number (n : Node) : bool :=
  (has_kind "word" n || has_kind "number" n)
  && match named_children n with [] => true | _ => false end.

Definition is_allowed_heredoc_attachment_kind (k : str) : bool :=
  bool_decide (k ∈ lit <$> ["heredoc_body"; "simple_heredoc_body"; "heredoc_redirect";
                            "herestring_redirect"; "redirected_statement"]%string).

(** The words of one child of the command; [Some None] when it is skipped. *)
Definition parse_heredoc_word (src : str) (child : Node) : option (option str) :=
  if has_kind "command_name" child then
    word_node ← head (named_children child);
    if negb (has_kind "word" word_node || has_kind "number" word_node)
       || negb (is_literal_word_or_number word_node)
    then None else Some <$> utf8_text src word_node
  else if has_kind "word" child || has_kind "number" child then
    if is_literal_word_or_number child then Some <$> utf8_text src child else None
  else if has_kind "comment" child then Some None
  else if is_allowed_heredoc_attachment_kind (kind child) then Some None
  else None.

Definition parse_heredoc_command_words (src : str) (cmd : Node) : option (list str) :=
  if has_kind "command" cmd then
    words ← mapM (parse_heredoc_word src) (named_children cmd);
    match omap id words with [] => None | words => Some words end
  else None.

Section script.
(** [try_parse_shell]: tree-sitter with the bash grammar. *)
Variable try_parse_shell : str -> option Tree.

Definition parse_shell_lc_plain_commands (command : list str)
    : res Empty_set (option (list (list str))) :=
  let? r := extract_bash_command command in
  match r with
  | None => Ok None
  | Some (_, script) =>
    match try_parse_shell script with
    | None => Ok None
    | Some tree => try_parse_word_only_commands_sequence tree script
    end
  end.

Definition parse_shell_lc_single_command_prefix (command : list str)
    : res Empty_set (option (list str)) :=
  let? r := extract_bash_command command in
  match r with
  | None => Ok None
  | Some (_, script) =>
    match try_parse_shell script with
    | None => Ok None
    | Some tree =>
      if has_error tree then Ok None
      else
        let? heredoc := has_named_descendant_kind (root_node tree) "heredoc_redirect" in
        if negb heredoc then Ok None
        else
          let? file_redirect := has_named_descendant_kind (root_node tree) "file_redirect" in
          if file_redirect : bool then Ok None
          else
            let? command_node := find_single_command_node (root_node tree) in
            Ok (command_node ← command_node; parse_heredoc_command_words script command_node)
    end
  end.
End script.

Example detect_examples :
  detect_shell_type (lit "/bin/bash") = Ok (Some Bash) /\
  detect_shell_type (lit "/usr/bin/zsh.old") = Ok (Some Zsh) /\
  detect_shell_type (lit "a/sh.x/") = Ok (Some Sh) /\
  detect_shell_type (lit "/usr/bin/fish") = Ok None.
Proof. vm_compute. done. Qed.

(** ** Detection ends *)

Lemma join_snoc_longer (c : char) k x : k <> [] -> length (join [c] k) < length (join [c] (k ++ [x])).
Proof.
  induction k as [|a [|b k] IH]; intros Hk; [done|cbn; rewrite !length_app; cbn; lia|].
  change (join [c] ((a :: b :: k) ++ [x])) with (a ++ [c] ++ join [c] ((b :: k) ++ [x])).
  change (join [c] (a :: b :: k)) with (a ++ [c] ++ join [c] (b :: k)).
  specialize (IH ltac:(done)). rewrite !length_app. lia.
Qed.

Lemma stem_shorter name : stem_of name = name \/ length (stem_of name) < length name.
Proof.
  unfold stem_of. destruct (reverse (split 46%N name)) as [|x [|y l]] eqn:E; [by left..|].
  assert (name = join [46%N] (reverse (y :: l) ++ [x])) as Hn.
  { rewrite <- (join_split 46%N name) at 1. f_equal.
    rewrite <- (reverse_involutive (split _ name)), E. by rewrite reverse_cons. }
  destruct (join [46%N] (reverse (y :: l))) as [|c s] eqn:Ej; [by left|right].
  rewrite Hn at 1. rewrite <- Ej. apply join_snoc_longer.
  intros Hr. apply (f_equal reverse) in Hr. by rewrite reverse_involutive in Hr.
Qed.

Lemma join_part (c : char) x l : x ∈ l -> l = [x] \/ length x < length (join [c] l).
Proof.
  induction l as [|a l IH]; [by intros ?%elem_of_nil|]. intros [->|Hx]%elem_of_cons.
  - destruct l as [|b l]; [by left|right]. cbn. rewrite !length_app. cbn. lia.
  - right. destruct l as [|b l]; [by apply elem_of_nil in Hx|].
    change (join [c] (a :: b :: l)) with (a ++ [c] ++ join [c] (b :: l)). rewrite !length_app.
    destruct (IH Hx) as [E|]; [rewrite E; cbn; lia|cbn [length] in *; lia].
Qed.

Lemma file_name_part s n : file_name (components s) = Some n -> n = s \/ length n < length s.
Proof.
  unfold file_name. destruct (last (components s)) as [[| | |m]|] eqn:E; try done. intros [= ->].
  apply last_Some_elem_of in E. unfold components in E. apply elem_of_app in E as [E|E].
  { repeat case_match; set_solver. }
  apply list_elem_of_omap in E as (x & Hx & Hc). unfold classify in Hc. repeat case_match; simplify_eq.
  rewrite <- (join_split SLASH s). destruct (join_part SLASH n _ Hx) as [Hs|]; [left|by right].
  rewrite Hs. done.
Qed.

Lemma detect_from_ends fuel s : length s < fuel -> returns (detect_from fuel s).
Proof.
  revert s. induction fuel as [|fuel IH]; intros s Hs; [lia|]. cbn [detect_from].
  destruct (shell_of_name s); [done|]. unfold file_stem.
  destruct (file_name (components s)) as [n|] eqn:En; [|done]. cbn.
  case_decide as Hd; [done|]. apply IH.
  destruct (file_name_part _ _ En) as [->|]; [|destruct (stem_shorter n) as [->|]; lia].
  destruct (stem_shorter s) as [E|]; [by rewrite E in Hd|lia].
Qed.

Lemma detect_ends s : exists t, detect_shell_type s = Ok t.
Proof.
  pose proof (detect_from_ends (S (length s)) s (le_n _)) as Hr. unfold detect_shell_type.
  destruct (detect_from _ s) as [t|[]| |]; [by eexists|done..].
Qed.

(** ** Walking a tree *)

Fixpoint nodes (n : Node) : list Node := n :: (children n ≫= nodes).

Definition is_command (n : Node) : Prop := is_named n = true /\ has_kind "command" n = true.

#[export] Instance is_command_dec n : Decision (is_command n).
Proof. unfold is_command. apply _. Defined.

Lemma Node_ind' (P : Node -> Prop) :
  (forall n, Forall P (children n) -> P n) -> forall n, P n.
Proof.
  intros Hn. fix IH 1. intros [k nm s e cs]. apply Hn. cbn. induction cs as [|c cs IHc]; constructor; auto.
Qed.

Lemma size_nodes n : size n = length (nodes n).
Proof.
  induction n as [n IH] using Node_ind'. destruct n as [k nm s e cs]. cbn in *. f_equal.
  induction IH as [|c cs Hc _ IHc]; [done|]. cbn. rewrite length_app. lia.
Qed.

(** The nodes still to be visited. *)
Definition pending_nodes (stack : list Node) : list Node := stack ≫= nodes.

Lemma pending_nodes_app a b : pending_nodes (a ++ b) = pending_nodes a ++ pending_nodes b.
Proof. apply bind_app. Qed.

Lemma pending_children n stack :
  pending_nodes (n :: stack) ≡ₚ n :: pending_nodes (reverse (children n) ++ stack).
Proof.
  rewrite pending_nodes_app.
  assert (pending_nodes (reverse (children n)) ≡ₚ children n ≫= nodes) as ->.
  { unfold pending_nodes. by rewrite reverse_Permutation. }
  by destruct n.
Qed.

Lemma collect_spec fuel stack acc :
  length (pending_nodes stack) <= fuel ->
  exists r, collect_commands fuel stack acc = Ok r /\
    if forallb node_allowed (pending_nodes stack)
    then exists l, r = Some l /\ l ≡ₚ acc ++ filter is_command (pending_nodes stack)
    else r = None.
Proof.
  revert stack acc. induction fuel as [|fuel IH]; intros stack acc Hf.
  { destruct stack as [|n stack]; [|destruct n; cbn in Hf; lia]. exists (Some acc). split; [done|].
    exists acc. by rewrite app_nil_r. }
  destruct stack as [|n stack].
  { exists (Some acc). split; [done|]. exists acc. by rewrite app_nil_r. }
  pose proof (pending_children n stack) as Hp. rewrite Hp in Hf. cbn [length] in Hf.
  assert (forallb node_allowed (pending_nodes (n :: stack)) =
    forallb node_allowed (n :: pending_nodes (reverse (children n) ++ stack))) as ->.
  { apply eq_true_iff_eq. rewrite !forallb_forall. setoid_rewrite <- list_elem_of_In.
    by setoid_rewrite Hp. }
  cbn [collect_commands forallb]. destruct (node_allowed n); [|by exists None].
  set (acc' := if _ : bool then _ else _).
  destruct (IH (reverse (children n) ++ stack) acc') as (r & -> & Hr); [lia|].
  exists r. split; [done|]. cbn [andb]. destruct (forallb _ _); [|done].
  destruct Hr as (l & -> & Hl). exists l. split; [done|]. rewrite Hl, Hp.
  subst acc'. rewrite filter_cons. case_decide as Hd; unfold is_command in Hd.
  - destruct Hd as [-> ->]. cbn [andb]. by rewrite <- app_assoc.
  - destruct (is_named n), (has_kind "command" n); done || by destruct Hd.
Qed.

(** ** The commands in the order of the text *)

Definition by_start : relation Node := fun a b => start_byte a <= start_byte b.

Lemma insert_by_start_perm n l : insert_by_start n l ≡ₚ n :: l.
Proof.
  induction l as [|m l IH]; cbn; [done|]. destruct (_ <=? _); [done|]. rewrite IH. constructor.
Qed.

Lemma sort_by_start_perm l : sort_by_start l ≡ₚ l.
Proof. induction l as [|n l IH]; cbn; [done|]. by rewrite insert_by_start_perm, IH. Qed.

Lemma insert_by_start_sorted n l :
  StronglySorted by_start l -> StronglySorted by_start (insert_by_start n l).
Proof.
  induction 1 as [|m l Hl IH Hm]; cbn; [by repeat constructor|].
  destruct (start_byte n <=? start_byte m) eqn:E.
  - apply Nat.leb_le in E. constructor; [by constructor|]. constructor; [done|].
    eapply Forall_impl; [exact Hm|]. intros x Hx. unfold by_start in *. lia.
  - apply Nat.leb_gt in E. constructor; [done|]. rewrite insert_by_start_perm.
    constructor; [unfold by_start; lia|done].
Qed.

Lemma sort_by_start_sorted l : StronglySorted by_start (sort_by_start l).
Proof. induction l as [|n l IH]; cbn; [constructor|by apply insert_by_start_sorted]. Qed.

(** The commands of a tree, in preorder. *)
Definition commands_in (n : Node) : list Node := filter is_command (nodes n).

(** Commands come one after the other in the text, so that none starts where
    another does. *)
Definition ordered (n : Node) : Prop :=
  StronglySorted (fun a b => start_byte a < start_byte b) (commands_in n).

Lemma ordered_distinct (l : list Node) a b :
  StronglySorted (fun a b => start_byte a < start_byte b) l ->
  a ∈ l -> b ∈ l -> start_byte a = start_byte b -> a = b.
Proof.
  induction 1 as [|x l Hl IH Hx]; [by intros ?%elem_of_nil|].
  rewrite Forall_forall in Hx. intros [->|Ha]%elem_of_cons [->|Hb]%elem_of_cons E; auto.
  - specialize (Hx _ Hb). cbn in Hx. lia.
  - specialize (Hx _ Ha). cbn in Hx. lia.
Qed.

Lemma sort_commands n l : ordered n -> l ≡ₚ commands_in n -> sort_by_start l = commands_in n.
Proof.
  intros Ho Hl. apply (StronglySorted_unique_strong by_start).
  - intros a b Ha Hb Hab Hba. rewrite sort_by_start_perm, Hl in Ha.
    eapply ordered_distinct; eauto. unfold by_start in *. lia.
  - apply sort_by_start_sorted.
  - clear Hl. unfold ordered in Ho. induction Ho as [|x k Hk IH Hx]; [constructor|].
    constructor; [done|]. eapply Forall_impl; [exact Hx|].
    intros y. unfold by_start. cbn. lia.
  - by rewrite sort_by_start_perm.
Qed.

(** What the two walks compute. *)
Definition word_only (n : Node) : bool := forallb node_allowed (nodes n).

Lemma sequence_spec tree src :
  ordered (root_node tree) ->
  try_parse_word_only_commands_sequence tree src =
  Ok (if negb (has_error tree) && word_only (root_node tree)
      then mapM (parse_plain_command_from_node src) (commands_in (root_node tree)) else None).
Proof.
  intros Ho. unfold try_parse_word_only_commands_sequence. destruct (has_error tree); [done|].
  assert (pending_nodes [root_node tree] = nodes (root_node tree)) as Hp.
  { unfold pending_nodes. cbn [mbind list_bind]. by rewrite app_nil_r. }
  destruct (collect_spec (size (root_node tree)) [root_node tree] []) as (r & -> & Hr).
  { by rewrite Hp, size_nodes. }
  rewrite Hp in Hr. cbn [res_bind negb andb app] in *. unfold word_only.
  destruct (forallb node_allowed _); [|by subst r].
  destruct Hr as (l & -> & Hl). cbn. by rewrite (sort_commands (root_node tree) l).
Qed.

(** Without the order the walk still ends. *)
Lemma sequence_returns tree src : exists r, try_parse_word_only_commands_sequence tree src = Ok r.
Proof.
  unfold try_parse_word_only_commands_sequence. destruct (has_error tree); [by eexists|].
  destruct (collect_spec (size (root_node tree)) [root_node tree] []) as (r & -> & _); [|by eexists].
  unfold pending_nodes. cbn [mbind list_bind]. by rewrite app_nil_r, size_nodes.
Qed.

Lemma extract_spec shell flag script r :
  extract_bash_command [shell; flag; script] = Ok (Some r) <->
  r = (shell, script) /\ (flag = lit "-lc" \/ flag = lit "-c") /\
  exists t, detect_shell_type shell = Ok (Some t) /\ (t = Zsh \/ t = Bash \/ t = Sh).
Proof.
  unfold extract_bash_command. destruct (detect_ends shell) as [t Ht]. rewrite Ht. cbn [res_bind].
  rewrite negb_orb. destruct (str_eqb flag (lit "-lc")) eqn:E1, (str_eqb flag (lit "-c")) eqn:E2;
    rewrite ?str_eqb_eq in *; cbn [negb andb orb].
  4:{ split; [done|]. intros (_ & [->| ->] & _); by rewrite str_eqb_refl in *. }
  all: destruct t as [[]|]; split; try done; try (intros (-> & _ & t & [= <-] & ?); naive_solver);
    intros [= <-]; split_and!; eauto.
Qed.

Lemma extract_returns command : exists r, extract_bash_command command = Ok r.
Proof.
  destruct command as [|a [|b [|c [|]]]]; try by eexists. unfold extract_bash_command.
  destruct (detect_ends a) as [t ->]. by eexists.
Qed.

Lemma plain_commands_return parser command :
  exists r, parse_shell_lc_plain_commands parser command = Ok r.
Proof.
  unfold parse_shell_lc_plain_commands. destruct (extract_returns command) as [r ->]. cbn [res_bind].
  destruct r as [[sh script]|]; [|by eexists]. destruct (parser script); [|by eexists].
  apply sequence_returns.
Qed.

(** ** Walking the named nodes *)

Fixpoint named_nodes (n : Node) : list Node :=
  n :: (children n ≫= (fun c => if is_named c then named_nodes c else [])).

Lemma named_nodes_unfold n : named_nodes n = n :: (named_children n ≫= named_nodes).
Proof.
  destruct n as [k nm s e cs]. unfold named_children. cbn [named_nodes children]. f_equal.
  induction cs as [|c cs IH]; [done|]. cbn [mbind list_bind] in *. rewrite IH, filter_cons.
  by destruct (is_named c) eqn:E; [rewrite decide_True|rewrite decide_False].
Qed.

Lemma named_nodes_size n : length (named_nodes n) <= size n.
Proof.
  induction n as [n IH] using Node_ind'. destruct n as [k nm s e cs]. cbn in *. apply le_n_S.
  induction IH as [|c cs Hc _ IHc]; [done|]. cbn. rewrite length_app.
  destruct (is_named c); cbn [length]; lia.
Qed.

Definition pending_named (stack : list Node) : list Node := stack ≫= named_nodes.

Lemma pending_named_step n stack :
  pending_named (n :: stack) ≡ₚ n :: pending_named (reverse (named_children n) ++ stack).
Proof.
  unfold pending_named. rewrite bind_app. cbn [mbind list_bind].
  rewrite named_nodes_unfold. cbn [app]. constructor. f_equiv. by rewrite reverse_Permutation.
Qed.

Lemma existsb_perm {A} (f : A -> bool) l k : l ≡ₚ k -> existsb f l = existsb f k.
Proof.
  intros Hp. apply eq_true_iff_eq. rewrite !existsb_exists. setoid_rewrite <- list_elem_of_In.
  by setoid_rewrite Hp.
Qed.

Lemma has_descendant_spec fuel stack k :
  length (pending_named stack) <= fuel ->
  has_descendant_loop fuel stack k = Ok (existsb (has_kind k) (pending_named stack)).
Proof.
  revert stack. induction fuel as [|fuel IH]; intros [|n stack] Hf; [done| |done|].
  { rewrite pending_named_step in Hf. cbn in Hf. lia. }
  rewrite pending_named_step in Hf. cbn [length] in Hf.
  rewrite (existsb_perm _ _ _ (pending_named_step n stack)). cbn [has_descendant_loop existsb].
  destruct (has_kind k n); [done|]. cbn [orb]. apply IH. lia.
Qed.

Lemma descendant_spec n k : has_named_descendant_kind n k = Ok (existsb (has_kind k) (named_nodes n)).
Proof.
  unfold has_named_descendant_kind. rewrite has_descendant_spec; unfold pending_named;
    cbn [mbind list_bind]; rewrite app_nil_r; [done|apply named_nodes_size].
Qed.

Definition only {A} (l : list A) : option A := match l with [x] => Some x | _ => None end.

Lemma find_single_spec fuel stack s :
  length (pending_named stack) <= fuel ->
  find_single_loop fuel stack s =
  Ok (only (option_list s ++ filter (fun n => has_kind "command" n = true) (pending_named stack))).
Proof.
  assert (forall l k : list Node, l ≡ₚ k -> only l = only k) as Honly.
  { intros l k Hp. destruct l as [|x [|y l]].
    - apply Permutation_nil in Hp as ->. done.
    - apply Permutation_singleton_l in Hp as ->. done.
    - pose proof (Permutation_length Hp). by destruct k as [|? [|]]. }
  revert stack s. induction fuel as [|fuel IH]; intros [|n stack] s Hf;
    [by destruct s| |by destruct s|].
  { rewrite pending_named_step in Hf. cbn in Hf. lia. }
  rewrite pending_named_step in Hf. cbn [length] in Hf. cbn [find_single_loop].
  rewrite (Honly (option_list s ++ filter _ (pending_named (n :: stack)))
    (option_list s ++ filter (fun n => has_kind "command" n = true)
       (n :: pending_named (reverse (named_children n) ++ stack)))) by (by rewrite pending_named_step).
  rewrite filter_cons. destruct (has_kind "command" n) eqn:E; [rewrite decide_True by done|].
  - destruct s as [m|]; [by destruct (filter _ _)|]. rewrite IH by lia. done.
  - rewrite decide_False by done. by rewrite IH by lia.
Qed.

Lemma find_single_command_spec root :
  find_single_command_node root =
  Ok (only (filter (fun n => has_kind "command" n = true) (named_nodes root))).
Proof.
  unfold find_single_command_node. rewrite find_single_spec; unfold pending_named;
    cbn [mbind list_bind]; rewrite app_nil_r; [done|apply named_nodes_size].
Qed.

Lemma single_prefix_returns parser command :
  exists r, parse_shell_lc_single_command_prefix parser command = Ok r.
Proof.
  unfold parse_shell_lc_single_command_prefix. destruct (extract_returns command) as [r ->].
  cbn [res_bind]. destruct r as [[sh script]|]; [|by eexists].
  destruct (parser script) as [tree|]; [|by eexists]. destruct (has_error tree); [by eexists|].
  rewrite !descendant_spec. cbn [res_bind]. destruct (existsb _ _); [|by eexists]. cbn [negb].
  destruct (existsb _ _); [by eexists|]. rewrite find_single_command_spec. by eexists.
Qed.

(** The words that are matched against the rules for a here-document come from
    the only command of a script without file redirections. *)
Lemma single_prefix_spec parser shell flag script words :
  parse_shell_lc_single_command_prefix parser [shell; flag; script] = Ok (Some words) ->
  exists tree n, parser script = Some tree /\ has_error tree = false /\
    Forall (fun m => has_kind "file_redirect" m = false) (named_nodes (root_node tree)) /\
    filter (fun n => has_kind "command" n = true) (named_nodes (root_node tree)) = [n] /\
    parse_heredoc_command_words script n = Some words.
Proof.
  unfold parse_shell_lc_single_command_prefix.
  destruct (extract_returns [shell; flag; script]) as [r E]. rewrite E. cbn [res_bind].
  destruct r as [[sh script']|]; [|done]. apply extract_spec in E as ([= -> ->] & _ & _).
  destruct (parser script) as [tree|]; [|done]. destruct (has_error tree) eqn:He; [done|].
  rewrite !descendant_spec. cbn [res_bind]. destruct (existsb _ _); [|done]. cbn [negb].
  destruct (existsb (has_kind "file_redirect") _) eqn:Ef; [done|].
  rewrite find_single_command_spec. cbn [res_bind].
  destruct (filter _ _) as [|n [|]] eqn:El; [done| |done]. cbn. intros [= Hw].
  exists tree, n. split_and!; try done. apply Forall_forall. intros m Hm.
  destruct (has_kind "file_redirect" m) eqn:Em; [|done]. exfalso.
  assert (existsb (has_kind "file_redirect") (named_nodes (root_node tree)) = true) as Ht; [|congruence].
  apply existsb_exists. exists m. split; [by apply list_elem_of_In|done].
Qed.

(** ** What is read *)

(** The tokens of a script that is read: named nodes for words, quotes and
    commands, the four operators, quotes and white space. *)
Inductive plain_token (n : Node) : Prop :=
| plain_named :
    is_named n = true ->
    kind n ∈ lit <$> ["program"; "list"; "pipeline"; "command"; "command_name"; "word"; "number";
                      "string"; "string_content"; "raw_string"; "concatenation"]%string ->
    plain_token n
| plain_operator :
    is_named n = false -> kind n ∈ lit <$> ["&&"; "||"; ";"; "|"]%string -> plain_token n
| plain_quote : is_named n = false -> kind n = [34%N] \/ kind n = [39%N] -> plain_token n
| plain_blank :
    is_named n = false -> Forall (fun c => is_whitespace c = true) (kind n) -> plain_token n.

(** The text of a node: what stands in the source between its two bytes. *)
Definition spans (src : str) (n : Node) (w : str) : Prop :=
  exists before after, src = before ++ w ++ after /\
    Z.of_nat (start_byte n) = zlen before /\ Z.of_nat (end_byte n) = (zlen before + zlen w)%Z.

(** A word or a number is its text; a quoted string what is between its quotes,
    if nothing is expanded in it. *)
Inductive reads_piece (src : str) (n : Node) (w : str) : Prop :=
| reads_literal : kind n = lit "word" \/ kind n = lit "number" -> spans src n w -> reads_piece src n w
| reads_double :
    kind n = lit "string" ->
    (forall c, c ∈ children n -> is_named c = true -> kind c = lit "string_content") ->
    spans src n ([34%N] ++ w ++ [34%N]) -> reads_piece src n w
| reads_single : kind n = lit "raw_string" -> spans src n ([39%N] ++ w ++ [39%N]) -> reads_piece src n w.

(** A word of a command: its name, which must not be quoted, an argument, or
    the pieces of an argument put together. *)
Inductive reads_word (src : str) (n : Node) : str -> Prop :=
| reads_name m rest w :
    kind n = lit "command_name" -> named_children n = m :: rest -> kind m = lit "word" ->
    spans src m w -> reads_word src n w
| reads_argument w : reads_piece src n w -> reads_word src n w
| reads_concatenation ws :
    kind n = lit "concatenation" -> Forall2 (reads_piece src) (named_children n) ws ->
    concat ws <> [] -> reads_word src n (concat ws).

Lemma trim_start_nil s : trim_start s = [] <-> Forall (fun c => is_whitespace c = true) s.
Proof.
  induction s as [|c s IH]; cbn; [by split|]. destruct (is_whitespace c) eqn:E.
  - rewrite IH. split; [by constructor|by inversion 1].
  - split; [done|]. inversion 1. congruence.
Qed.

Lemma trim_start_whitespace s :
  Forall (fun c => is_whitespace c = true) (trim_start s) -> Forall (fun c => is_whitespace c = true) s.
Proof.
  induction s as [|c s IH]; cbn; [done|]. destruct (is_whitespace c) eqn:E; [|done].
  intros H. constructor; [done|by apply IH].
Qed.

Lemma trim_nil s : trim s = [] <-> Forall (fun c => is_whitespace c = true) s.
Proof.
  unfold trim, trim_end. rewrite trim_start_nil, Forall_reverse. split.
  - intros H%trim_start_whitespace. by rewrite Forall_reverse in H.
  - intros H. rewrite (proj2 (trim_start_nil _)); [done|by rewrite Forall_reverse].
Qed.

Lemma punct_tokens k :
  k ∈ ALLOWED_PUNCT_TOKENS <-> k ∈ lit <$> ["&&"; "||"; ";"; "|"]%string \/ (k = [34%N] \/ k = [39%N]).
Proof.
  unfold ALLOWED_PUNCT_TOKENS, QUOTE. cbn [fmap list_fmap]. rewrite !elem_of_cons.
  pose proof (not_elem_of_nil k). change (lit "'") with [39%N]. tauto.
Qed.

Lemma node_allowed_plain n : node_allowed n = true <-> plain_token n.
Proof.
  unfold node_allowed. destruct (is_named n) eqn:En.
  - rewrite bool_decide_eq_true. split.
    + intros Hk. apply plain_named; [done|]. unfold ALLOWED_KINDS in Hk. set_solver.
    + intros [_ Hk|?|?|?]; try congruence. unfold ALLOWED_KINDS. set_solver.
  - assert ((match trim (kind n) with [] => true | _ => false end) = true <->
      Forall (fun c => is_whitespace c = true) (kind n)) as Hb.
    { rewrite <- trim_nil. by destruct (trim (kind n)). }
    destruct (decide (kind n ∈ ALLOWED_PUNCT_TOKENS)) as [Hin|Hout].
    + rewrite bool_decide_true, andb_false_r by done. cbn [orb]. split; [|done]. intros _.
      apply punct_tokens in Hin as [?|?]; [by apply plain_operator|by apply plain_quote].
    + rewrite bool_decide_false, andb_true_r by done. cbn [orb]. split.
      * destruct (existsb _ _); [done|]. intros H%Hb. by apply plain_blank.
      * intros [?|_ Hk|_ Hk|_ Hk]; [congruence|destruct Hout; apply punct_tokens; tauto..|].
        destruct (existsb _ (kind n)) eqn:Ex; [|by apply Hb]. exfalso.
        apply existsb_exists in Ex as (c & Hc%list_elem_of_In & Hx%bool_decide_eq_true).
        rewrite Forall_forall in Hk. specialize (Hk c Hc). cbn in Hk.
        change (lit "&;|") with [38%N; 59%N; 124%N] in Hx. rewrite !elem_of_cons in Hx.
        destruct Hx as [->|[->|[->|Hx]]]; [done..|by apply elem_of_nil in Hx].
Qed.

Lemma utf8_text_spans src n w : utf8_text src n = Some w <-> spans src n w.
Proof.
  unfold utf8_text, spans. split.
  - destruct (byte_split src _) as [[a r]|] eqn:E1; [|done].
    intros ([w' b] & E2 & ->)%fmap_Some.
    apply byte_split_sound in E1 as [-> H1], E2 as [-> H2]. exists a, b. cbn [fst]. split; [done|]. lia.
  - intros (a & b & -> & H1 & H2). rewrite H1, byte_split_app, H2.
    replace (zlen a + zlen w - zlen a)%Z with (zlen w) by lia. by rewrite byte_split_app.
Qed.

Lemma has_kind_true k n : has_kind k n = true <-> kind n = lit k.
Proof. apply str_eqb_eq. Qed.

Lemma double_quoted_spec src n w :
  kind n = lit "string" ->
  parse_double_quoted_string src n = Some w <->
  (forall c, c ∈ children n -> is_named c = true -> kind c = lit "string_content") /\
  spans src n ([34%N] ++ w ++ [34%N]).
Proof.
  intros Hk. unfold parse_double_quoted_string. rewrite (proj2 (has_kind_true "string" n) Hk). cbn [negb].
  destruct (existsb _ _) eqn:Ex.
  - split; [done|]. intros [Hc _]. apply existsb_exists in Ex as (c & Hin%list_elem_of_In & Hn).
    unfold named_children in Hin. apply list_elem_of_filter in Hin as [? ?].
    by rewrite (proj2 (has_kind_true "string_content" c)) in Hn by auto.
  - assert (forall c, c ∈ children n -> is_named c = true -> kind c = lit "string_content") as Hc.
    { intros c Hin Hn. apply has_kind_true, not_false_iff_true. intros Hf.
      apply not_true_iff_false in Ex. apply Ex, existsb_exists. exists c. rewrite Hf. split; [|done].
      apply list_elem_of_In. by apply list_elem_of_filter. }
    rewrite <- utf8_text_spans. split.
    + intros (raw & -> & (t & ->%strip_prefix_Some & ->%strip_suffix_Some)%bind_Some)%bind_Some. done.
    + intros [_ ->]. cbn [mbind option_bind]. unfold QUOTE. rewrite strip_prefix_app. cbn [mbind option_bind].
      by apply strip_suffix_Some.
Qed.

Lemma raw_string_spec src n w :
  kind n = lit "raw_string" ->
  parse_raw_string src n = Some w <-> spans src n ([39%N] ++ w ++ [39%N]).
Proof.
  intros Hk. unfold parse_raw_string. rewrite (proj2 (has_kind_true "raw_string" n) Hk). cbn [negb].
  rewrite <- utf8_text_spans. change (lit "'") with [39%N]. split.
  - intros (raw & -> & (t & ->%strip_prefix_Some & ->%strip_suffix_Some)%bind_Some)%bind_Some. done.
  - intros ->. cbn [mbind option_bind]. rewrite strip_prefix_app. cbn [mbind option_bind].
    by apply strip_suffix_Some.
Qed.

Lemma piece_spec src n w : parse_piece src n = Some w <-> reads_piece src n w.
Proof.
  unfold parse_piece.
  destruct (has_kind "word" n || has_kind "number" n) eqn:E1.
  { rewrite orb_true_iff, !has_kind_true in E1. rewrite utf8_text_spans. split; [by apply reads_literal|].
    intros [? ?|Hk|Hk]; [done|destruct E1 as [E1|E1]; by rewrite E1 in Hk..]. }
  rewrite orb_false_iff, <- !not_true_iff_false, !has_kind_true in E1. destruct E1 as [E1 E2].
  destruct (has_kind "string" n) eqn:E3.
  { apply has_kind_true in E3. rewrite double_quoted_spec by done. split; [intros [? ?]; by apply reads_double|].
    intros [[]|? ? ?|Hk]; [done..| |]; [done|by rewrite E3 in Hk]. }
  rewrite <- not_true_iff_false, has_kind_true in E3.
  destruct (has_kind "raw_string" n) eqn:E4.
  { apply has_kind_true in E4. rewrite raw_string_spec by done. split; [by apply reads_single|].
    by intros [[]| |]. }
  rewrite <- not_true_iff_false, has_kind_true in E4. split; [done|]. by intros [[]| |].
Qed.

Lemma word_spec src n w : parse_word src n = Some w <-> reads_word src n w.
Proof.
  unfold parse_word. destruct (has_kind "command_name" n) eqn:E1.
  { apply has_kind_true in E1. split.
    - intros (m & Hm & Hw)%bind_Some. destruct (named_children n) as [|m' rest] eqn:Ec; [done|].
      injection Hm as ->. destruct (has_kind "word" m) eqn:Em; [|done].
      apply utf8_text_spans in Hw. apply has_kind_true in Em. by eapply reads_name.
    - intros [m rest w' _ -> Hm%has_kind_true Hs|w' Hp|ws Hk]; [| |by rewrite E1 in Hk].
      + cbn [head mbind option_bind]. rewrite Hm. by apply utf8_text_spans.
      + destruct Hp as [[Hk|Hk]|Hk|Hk]; by rewrite E1 in Hk. }
  rewrite <- not_true_iff_false, has_kind_true in E1.
  destruct (has_kind "concatenation" n) eqn:E2.
  { apply has_kind_true in E2. split.
    - intros (ws & Hws & Hw)%bind_Some. apply mapM_Some in Hws.
      assert (w = concat ws /\ concat ws <> []) as [-> Hne] by (destruct (concat ws); by simplify_eq).
      apply reads_concatenation; [done| |done]. eapply Forall2_impl; [exact Hws|]. intros ??. by apply piece_spec.
    - intros [m rest w' Hk|w' Hp|ws _ Hws Hne]; [done| |].
      + destruct Hp as [[Hk|Hk]|Hk|Hk]; by rewrite E2 in Hk.
      + rewrite (proj2 (mapM_Some _ _ ws)).
        * cbn [mbind option_bind]. by destruct (concat ws).
        * eapply Forall2_impl; [exact Hws|]. intros ??. by apply piece_spec. }
  rewrite <- not_true_iff_false, has_kind_true in E2. rewrite piece_spec.
  split; [by apply reads_argument|]. by intros [m rest w' Hk|w' Hp|ws Hk].
Qed.

Lemma command_spec src n words :
  is_command n ->
  parse_plain_command_from_node src n = Some words <-> Forall2 (reads_word src) (named_children n) words.
Proof.
  intros [_ Hk]. unfold parse_plain_command_from_node. rewrite Hk, mapM_Some.
  split; intros H; (eapply Forall2_impl; [exact H|]); intros ??; apply word_spec.
Qed.

Lemma commands_spec src n cmds :
  Forall2 (fun c words => parse_plain_command_from_node src c = Some words) (commands_in n) cmds <->
  Forall2 (fun c words => Forall2 (reads_word src) (named_children c) words) (commands_in n) cmds.
Proof.
  assert (Forall is_command (commands_in n)) as Hc.
  { apply Forall_forall. intros c Hin. by apply list_elem_of_filter in Hin as [? _]. }
  revert cmds. induction Hc as [|c l Hc _ IH]; intros cmds;
    [by split; intros H; inversion H; constructor|].
  destruct cmds as [|words cmds]; [by split; intros H; inversion H|].
  rewrite !Forall2_cons, IH, command_spec by done. done.
Qed.

Lemma plain_commands_iff (parser : str -> option Tree) shell flag script cmds :
  (forall tree, parser script = Some tree -> ordered (root_node tree)) ->
  parse_shell_lc_plain_commands parser [shell; flag; script] = Ok (Some cmds) <->
  (flag = lit "-lc" \/ flag = lit "-c") /\
  (exists t, detect_shell_type shell = Ok (Some t) /\ (t = Zsh \/ t = Bash \/ t = Sh)) /\
  exists tree, parser script = Some tree /\ has_error tree = false /\
    Forall plain_token (nodes (root_node tree)) /\
    Forall2 (fun c words => Forall2 (reads_word script) (named_children c) words)
      (commands_in (root_node tree)) cmds.
Proof.
  intros Ho. unfold parse_shell_lc_plain_commands. setoid_rewrite <- commands_spec.
  assert (forall l, Forall plain_token l <-> forallb node_allowed l = true) as Hplain.
  { intros l. rewrite List.forallb_forall, Forall_forall. setoid_rewrite <- list_elem_of_In.
    by setoid_rewrite node_allowed_plain. }
  setoid_rewrite Hplain.
  destruct (extract_returns [shell; flag; script]) as [r E]. rewrite E. cbn [res_bind].
  destruct r as [r|].
  - pose proof E as (-> & Hf & Ht)%extract_spec. split.
    + intros Hp. split_and!; [done..|]. destruct (parser script) as [tree|] eqn:Ep; [|done].
      exists tree. rewrite (sequence_spec tree script (Ho tree eq_refl)) in Hp. injection Hp as Hp.
      destruct (has_error tree); [done|]. cbn [negb andb] in Hp. unfold word_only in Hp.
      destruct (forallb node_allowed _); [|done]. split_and!; [done..|by apply mapM_Some].
    + intros (_ & _ & tree & Hp & He & Hall & Hw). rewrite Hp.
      rewrite (sequence_spec tree script (Ho tree Hp)), He. unfold word_only. rewrite Hall. cbn [negb andb].
      f_equal. by apply mapM_Some.
  - split; [done|]. intros (Hf & Ht & _). exfalso.
    assert (extract_bash_command [shell; flag; script] = Ok (Some (shell, script))) as E'
      by (by apply extract_spec). congruence.
Qed.


(** The tree of [ls "a b"]. *)
Definition sample_tree_ls : Tree :=
  mk_tree (mk_node (lit "program") true 0 8
    [mk_node (lit "command") true 0 8
      [mk_node (lit "command_name") true 0 2 [mk_node (lit "word") true 0 2 []];
       mk_node (lit "string") true 3 8
         [mk_node QUOTE false 3 4 []; mk_node (lit "string_content") true 4 7 [];
          mk_node QUOTE false 7 8 []]]]) false.

Definition sample_script_ls : str := lit "ls " ++ QUOTE ++ lit "a b" ++ QUOTE.

