(* ===== verification/CommandSafety.v ===== *)
(** * Known safe and dangerous commands ([shell-command/src/command_safety])

    The lists that decide whether a command runs without approval
    ([is_safe_command.rs]) and whether it always needs one
    ([is_dangerous_command.rs]), on Linux. *)

From S2P Require Export BashScript.

Definition words_of (l : list string) : list str := lit <$> l.

Definition one_of (l : list string) (s : str) : bool := bool_decide (s ∈ words_of l).

(** ** Git subcommands ([is_dangerous_command.rs]) *)

Definition executable_name_lookup_key (raw : str) : option str := file_name (components raw).

Definition is_git_global_option_with_value (arg : str) : bool :=
  one_of ["-C"; "-c"; "--config-env"; "--exec-path"; "--git-dir"; "--namespace"; "--super-prefix";
          "--work-tree"]%string arg.

Definition is_git_global_option_with_inline_value (arg : str) : bool :=
  existsb (fun p => starts_with p arg)
    (words_of ["--config-env="; "--exec-path="; "--git-dir="; "--namespace="; "--super-prefix=";
               "--work-tree="]%string)
  || ((starts_with (lit "-C") arg || starts_with (lit "-c") arg) && (2 <? str_len arg)).

(** The [for] loop over the arguments, with [skip_next]. *)
Fixpoint scan_subcommand (idx : nat) (skip_next : bool) (args : list str) (subcommands : list str)
    : option (nat * str) :=
  match args with
  | [] => None
  | arg :: args =>
    if skip_next then scan_subcommand (S idx) false args subcommands
    else if is_git_global_option_with_inline_value arg
    then scan_subcommand (S idx) false args subcommands
    else if is_git_global_option_with_value arg then scan_subcommand (S idx) true args subcommands
    else if str_eqb arg (lit "--") || starts_with (lit "-") arg
    then scan_subcommand (S idx) false args subcommands
    else if bool_decide (arg ∈ subcommands) then Some (idx, arg)
    else None
  end.

Definition find_git_subcommand (command : list str) (subcommands : list str) : option (nat * str) :=
  match command with
  | [] => None
  | cmd0 :: args =>
    if decide (executable_name_lookup_key cmd0 = Some (lit "git"))
    then scan_subcommand 1 false args subcommands else None
  end.

(** ** Dangerous commands *)

Fixpoint is_dangerous_to_call_with_exec (command : list str) : bool :=
  match command with
  | [] => false
  | cmd0 :: args =>
    if str_eqb cmd0 (lit "rm") then
      match args with arg :: _ => one_of ["-f"; "-rf"]%string arg | [] => false end
    else if str_eqb cmd0 (lit "sudo") then is_dangerous_to_call_with_exec args
    else false
  end.

(** ** Read-only git commands ([is_safe_command.rs]) *)

Inductive GitOptionPattern :=
| Exact (option : string)
| ShortWithInlineValue (option : string)
| Prefix (prefix : string).

Definition UNSAFE_GIT_GLOBAL_OPTIONS : list GitOptionPattern :=
  [Exact "-C"; ShortWithInlineValue "-C"; Exact "-c"; ShortWithInlineValue "-c"; Exact "-p";
   Exact "--config-env"; Prefix "--config-env="; Exact "--exec-path"; Prefix "--exec-path=";
   Exact "--git-dir"; Prefix "--git-dir="; Exact "--namespace"; Prefix "--namespace=";
   Exact "--paginate"; Exact "--super-prefix"; Prefix "--super-prefix="; Exact "--work-tree";
   Prefix "--work-tree="].

Definition UNSAFE_GIT_SUBCOMMAND_OPTIONS : list GitOptionPattern :=
  [Exact "--output"; Prefix "--output="; Exact "--ext-diff"; Exact "--textconv"; Exact "--exec";
   Prefix "--exec="].

Definition option_matches (p : GitOptionPattern) (arg : str) : bool :=
  match p with
  | Exact option => str_eqb arg (lit option)
  | ShortWithInlineValue option =>
    starts_with (lit option) arg && (str_len (lit option) <? str_len arg)
  | Prefix prefix => starts_with (lit prefix) arg
  end.

Definition git_matches_option_pattern (arg : str) (patterns : list GitOptionPattern) : bool :=
  existsb (fun pattern => option_matches pattern arg) patterns.

Definition git_has_unsafe_global_option (global_args : list str) : bool :=
  existsb (fun arg => git_matches_option_pattern arg UNSAFE_GIT_GLOBAL_OPTIONS) global_args.

Definition git_subcommand_args_are_read_only (args : list str) : bool :=
  negb (existsb (fun arg => git_matches_option_pattern arg UNSAFE_GIT_SUBCOMMAND_OPTIONS) args).

Definition is_read_only_branch_flag (arg : str) : bool :=
  one_of ["--list"; "-l"; "--show-current"; "-a"; "--all"; "-r"; "--remotes"; "-v"; "-vv";
          "--verbose"]%string arg
  || starts_with (lit "--format=") arg.

(** The loop, with [saw_read_only_flag]. *)
Fixpoint branch_loop (saw_read_only_flag : bool) (branch_args : list str) : bool :=
  match branch_args with
  | [] => saw_read_only_flag
  | arg :: branch_args =>
    if is_read_only_branch_flag arg then branch_loop true branch_args else false
  end.

Definition git_branch_is_read_only (branch_args : list str) : bool :=
  match branch_args with [] => true | _ => branch_loop false branch_args end.

Definition is_safe_git_command (command : list str) : bool :=
  match find_git_subcommand command (words_of ["status"; "log"; "diff"; "show"; "branch"]%string) with
  | None => false
  | Some (subcommand_idx, subcommand) =>
    let global_args := take (subcommand_idx - 1) (drop 1 command) in
    if git_has_unsafe_global_option global_args then false
    else
      let subcommand_args := drop (subcommand_idx + 1) command in
      if one_of ["status"; "log"; "diff"; "show"]%string subcommand
      then git_subcommand_args_are_read_only subcommand_args
      else if str_eqb subcommand (lit "branch")
      then git_subcommand_args_are_read_only subcommand_args && git_branch_is_read_only subcommand_args
      else false
  end.

(** ** Safe commands ([is_safe_command.rs]) *)

Definition nonempty_digits (s : str) : bool :=
  match s with [] => false | _ => forallb is_ascii_digit s end.

Definition is_valid_sed_n_arg (arg : option str) : bool :=
  match arg with
  | None => false
  | Some s =>
    match strip_suffix (lit "p") s with
    | None => false
    | Some core =>
      match split 44%N core with
      | [num] => nonempty_digits num
      | [a; b] => nonempty_digits a && nonempty_digits b
      | _ => false
      end
    end
  end.

Definition SAFE_COMMANDS : list string :=
  ["cat"; "cd"; "cut"; "echo"; "expr"; "false"; "grep"; "head"; "id"; "ls"; "nl"; "paste"; "pwd";
   "rev"; "seq"; "stat"; "tail"; "tr"; "true"; "uname"; "uniq"; "wc"; "which"; "whoami"]%string.

Definition UNSAFE_FIND_OPTIONS : list string :=
  ["-exec"; "-execdir"; "-ok"; "-okdir"; "-delete"; "-fls"; "-fprint"; "-fprint0"; "-fprintf"]%string.

Definition unsafe_base64_arg (arg : str) : bool :=
  one_of ["-o"; "--output"]%string arg || starts_with (lit "--output=") arg
  || (starts_with (lit "-o") arg && negb (str_eqb arg (lit "-o"))).

Definition unsafe_ripgrep_arg (arg : str) : bool :=
  one_of ["--search-zip"; "-z"]%string arg
  || existsb (fun opt => str_eqb arg opt || starts_with (opt ++ lit "=") arg)
       (words_of ["--pre"; "--hostname-bin"]%string).

Definition is_safe_to_call_with_exec (command : list str) : bool :=
  match command with
  | [] => false
  | cmd0 :: args =>
    match executable_name_lookup_key cmd0 with
    | None => false
    | Some cmd =>
      if one_of ["numfmt"; "tac"]%string cmd then true
      else if one_of SAFE_COMMANDS cmd then true
      else if str_eqb cmd (lit "base64") then negb (existsb unsafe_base64_arg args)
      else if str_eqb cmd (lit "find") then negb (existsb (one_of UNSAFE_FIND_OPTIONS) command)
      else if str_eqb cmd (lit "rg") then negb (existsb unsafe_ripgrep_arg command)
      else if str_eqb cmd (lit "git") then is_safe_git_command command
      else if str_eqb cmd (lit "sed") then
        (length command <=? 4) && bool_decide (command !! 1 = Some (lit "-n"))
        && is_valid_sed_n_arg (command !! 2)
      else false
    end
  end.

Section known.
Variable try_parse_shell : str -> option Tree.

Definition zsh_as_bash (s : str) : str := if str_eqb s (lit "zsh") then lit "bash" else s.

Definition is_known_safe_command (command : list str) : res Empty_set bool :=
  let command := zsh_as_bash <$> command in
  if is_safe_to_call_with_exec command then Ok true
  else
    let? r := parse_shell_lc_plain_commands try_parse_shell command in
    Ok (match r with
        | Some (c :: cs) => forallb is_safe_to_call_with_exec (c :: cs)
        | _ => false
        end).

Definition command_might_be_dangerous (command : list str) : res Empty_set bool :=
  if is_dangerous_to_call_with_exec command then Ok true
  else
    let? r := parse_shell_lc_plain_commands try_parse_shell command in
    Ok (match r with
        | Some all_commands => existsb is_dangerous_to_call_with_exec all_commands
        | None => false
        end).
End known.

Example safety_examples :
  is_safe_to_call_with_exec (words_of ["/usr/bin/git"; "status"]%string) = true /\
  is_safe_to_call_with_exec (words_of ["git"; "-c"; "core.pager=x"; "log"]%string) = false /\
  is_safe_to_call_with_exec (words_of ["git"; "branch"; "-d"; "x"]%string) = false /\
  is_safe_to_call_with_exec (words_of ["sed"; "-n"; "1,5p"; "f"]%string) = true /\
  is_safe_to_call_with_exec (words_of ["find"; "."; "-delete"]%string) = false /\
  is_dangerous_to_call_with_exec (words_of ["sudo"; "rm"; "-rf"; "/"]%string) = true.
Proof. vm_compute. done. Qed.

(** ** Git *)

Lemma one_of_true l s : one_of l s = true <-> s ∈ words_of l.
Proof. unfold one_of. by rewrite bool_decide_eq_true. Qed.

Lemma existsb_false {A} (f : A -> bool) l :
  existsb f l = false <-> Forall (fun x => f x = false) l.
Proof.
  induction l as [|x l IH]; cbn; [by split; [constructor|]|].
  rewrite orb_false_iff, IH. by rewrite Forall_cons.
Qed.

(** An option that takes a value, glued to it or not, is unsafe. *)
Lemma option_with_value_unsafe arg :
  is_git_global_option_with_value arg = true ->
  git_matches_option_pattern arg UNSAFE_GIT_GLOBAL_OPTIONS = true.
Proof.
  intros Ha%one_of_true. unfold words_of in Ha. cbn in Ha.
  repeat (apply elem_of_cons in Ha as [->|Ha]; [by vm_compute|]). by apply elem_of_nil in Ha.
Qed.

Lemma inline_value_unsafe arg :
  is_git_global_option_with_inline_value arg = true ->
  git_matches_option_pattern arg UNSAFE_GIT_GLOBAL_OPTIONS = true.
Proof.
  unfold is_git_global_option_with_inline_value. rewrite orb_true_iff, existsb_exists.
  intros Ha. unfold git_matches_option_pattern. apply existsb_exists. destruct Ha as [(p & Hp & Ha)|Ha].
  - apply list_elem_of_In in Hp. unfold words_of in Hp. apply list_elem_of_fmap in Hp as (s & -> & Hs).
    exists (Prefix s). split; [|done].
    repeat (apply elem_of_cons in Hs as [->|Hs]; [cbn; tauto|]).
    by apply elem_of_nil in Hs.
  - apply andb_true_iff in Ha as [Ha Hl]. apply orb_true_iff in Ha as [Ha|Ha].
    + exists (ShortWithInlineValue "-C"). split; [by right; left|]. cbn [option_matches]. rewrite Ha. exact Hl.
    + exists (ShortWithInlineValue "-c"). split; [by do 3 right; left|]. cbn [option_matches]. rewrite Ha. exact Hl.
Qed.

(** The scan stops at the first argument that is no option, when no option
    before it is unsafe. *)
Lemma scan_spec idx args subs i sub :
  scan_subcommand idx false args subs = Some (i, sub) ->
  Forall (fun arg => git_matches_option_pattern arg UNSAFE_GIT_GLOBAL_OPTIONS = false)
    (take (i - idx) args) ->
  idx <= i /\ args = take (i - idx) args ++ sub :: drop (S (i - idx)) args /\
  Forall (fun arg => starts_with (lit "-") arg = true) (take (i - idx) args) /\
  starts_with (lit "-") sub = false /\ sub ∈ subs.
Proof.
  revert idx. induction args as [|arg args IH]; intros idx; [done|]. cbn [scan_subcommand].
  assert (forall skip, scan_subcommand (S idx) skip args subs = Some (i, sub) -> S idx <= i) as Hlt.
  { clear IH. revert idx. induction args as [|a args IHa]; intros idx skip; cbn; [done|].
    repeat case_match; try (intros ?%IHa; lia); try done. intros [= <- _]. lia. }
  assert (forall skip, scan_subcommand (S idx) skip args subs = Some (i, sub) ->
    take (i - idx) (arg :: args) = arg :: take (i - S idx) args /\
    drop (S (i - idx)) (arg :: args) = drop (S (i - S idx)) args) as Hcut.
  { intros skip Hs%Hlt. replace (i - idx) with (S (i - S idx)) by lia. done. }
  destruct (is_git_global_option_with_inline_value arg) eqn:E1.
  { intros Hs Hf. destruct (Hcut _ Hs) as [Ht _]. rewrite Ht in Hf.
    apply Forall_cons in Hf as [Hf _]. by rewrite (inline_value_unsafe _ E1) in Hf. }
  destruct (is_git_global_option_with_value arg) eqn:E2.
  { intros Hs Hf. destruct (Hcut _ Hs) as [Ht _]. rewrite Ht in Hf.
    apply Forall_cons in Hf as [Hf _]. by rewrite (option_with_value_unsafe _ E2) in Hf. }
  destruct (str_eqb arg (lit "--") || starts_with (lit "-") arg) eqn:E3.
  - intros Hs Hf. destruct (Hcut _ Hs) as [Ht Hd]. rewrite Ht, Hd in *.
    apply Forall_cons in Hf as [_ Hf]. destruct (IH _ Hs Hf) as (Hle & E & Hall & Hn & Hin).
    split_and!; [lia|cbn; by f_equal| |done..]. constructor; [|done].
    apply orb_true_iff in E3 as [->%str_eqb_eq|E3]; done.
  - case_bool_decide as Hin; [|done]. intros [= <- <-] _. rewrite Nat.sub_diag.
    apply orb_false_iff in E3 as [_ E3]. by split_and!.
Qed.

Lemma branch_loop_flags b l :
  branch_loop b l = true -> Forall (fun a => is_read_only_branch_flag a = true) l.
Proof.
  revert b. induction l as [|a l IH]; intros b; [constructor|]. cbn.
  destruct (is_read_only_branch_flag a) eqn:E; [|done]. intros Hl. constructor; eauto.
Qed.

(** A git command that runs without approval is read-only.  Its subcommand
    is the first argument that is not an option, no option before it takes a
    value or is on the list of unsafe global options, the subcommand is status,
    log, diff, show or branch and has none of the unsafe options, and a branch
    command has no argument or only listing flags. *)
Theorem safe_git_read_only (command : list str) :
  is_safe_git_command command = true ->
  exists git globals sub args,
    command = git :: globals ++ sub :: args /\
    executable_name_lookup_key git = Some (lit "git") /\
    Forall (fun g => starts_with (lit "-") g = true /\
      is_git_global_option_with_value g = false /\
      git_matches_option_pattern g UNSAFE_GIT_GLOBAL_OPTIONS = false) globals /\
    starts_with (lit "-") sub = false /\
    sub ∈ words_of ["status"; "log"; "diff"; "show"; "branch"]%string /\
    Forall (fun a => git_matches_option_pattern a UNSAFE_GIT_SUBCOMMAND_OPTIONS = false) args /\
    (sub = lit "branch" -> Forall (fun a => is_read_only_branch_flag a = true) args).
Proof.
  unfold is_safe_git_command, find_git_subcommand. destruct command as [|git rest]; [done|].
  case_decide as Hg; [|done].
  destruct (scan_subcommand _ _ _ _) as [[i sub]|] eqn:Es; [|done].
  cbn [drop]. destruct (git_has_unsafe_global_option _) eqn:Eu; [done|].
  apply existsb_false in Eu. destruct (scan_spec _ _ _ _ _ Es Eu) as (Hle & Er & Hd & Hn & Hin).
  assert (drop (i + 1) (git :: rest) = drop (S (i - 1)) rest) as ->.
  { replace (i + 1) with (S (S (i - 1))) by lia. done. }
  intros Hsafe. exists git, (take (i - 1) rest), sub, (drop (S (i - 1)) rest).
  assert (git_subcommand_args_are_read_only (drop (S (i - 1)) rest) = true /\
    (sub = lit "branch" -> git_branch_is_read_only (drop (S (i - 1)) rest) = true)) as [Hro Hbr].
  { destruct (one_of _ sub) eqn:E1.
    - split; [done|]. intros ->. by vm_compute in E1.
    - destruct (str_eqb sub _); [|done]. by apply andb_true_iff in Hsafe as [].  }
  split_and!; [by f_equal|done| |done..| |].
  - apply Forall_forall. intros g Hgl. rewrite Forall_forall in Hd, Eu.
    split_and!; [by apply Hd| |by apply Eu].
    destruct (is_git_global_option_with_value g) eqn:E; [|done].
    specialize (Eu g Hgl). cbv beta in Eu. by rewrite (option_with_value_unsafe _ E) in Eu.
  - unfold git_subcommand_args_are_read_only in Hro. apply negb_true_iff in Hro.
    by apply existsb_false.
  - intros Hb. specialize (Hbr Hb). revert Hbr. generalize (drop (S (i - 1)) rest). clear.
    intros [|a l]; [constructor|]. apply branch_loop_flags.
Qed.

Lemma safe_git_read_only_witness :
  is_safe_git_command (words_of ["git"; "--no-pager"; "log"; "-3"]%string) = true /\
  exists git globals sub args,
    words_of ["git"; "--no-pager"; "log"; "-3"]%string = git :: globals ++ sub :: args /\
    starts_with (lit "-") sub = false /\
    Forall (fun a => git_matches_option_pattern a UNSAFE_GIT_SUBCOMMAND_OPTIONS = false) args.
Proof.
  assert (is_safe_git_command (words_of ["git"; "--no-pager"; "log"; "-3"]%string) = true) as E
    by (by vm_compute).
  split; [exact E|]. destruct (safe_git_read_only _ E) as (g & gs & sub & args & Hc & _ & _ & Hs & _ & Ha & _).
  exists g, gs, sub, args. auto.
Defined.

(** ** The sed special case *)

(** [(\d+,)?\d+p] *)
Lemma sed_arg_regex s :
  is_valid_sed_n_arg (Some s) = true <->
  exists a, nonempty_digits a = true /\
    (s = a ++ lit "p" \/ exists b, nonempty_digits b = true /\ s = b ++ [44%N] ++ a ++ lit "p").
Proof.
  assert (forall d, nonempty_digits d = true -> 44%N ∉ d) as Hd.
  { intros [|c d] Hd Hin; [by apply elem_of_nil in Hin|]. cbn [nonempty_digits] in Hd.
    rewrite forallb_forall in Hd. apply list_elem_of_In in Hin. by apply Hd in Hin. }
  cbn [is_valid_sed_n_arg]. split.
  - destruct (strip_suffix (lit "p") s) as [core|] eqn:E; [|done]. apply strip_suffix_Some in E as ->.
    pose proof (join_split 44%N core) as Hj. destruct (split 44%N core) as [|a [|b [|]]]; try done.
    + intros Ha. exists a. split; [done|]. left. cbn in Hj. by rewrite Hj.
    + intros [Ha Hb]%andb_true_iff. exists b. split; [done|]. right. exists a. split; [done|].
      rewrite <- Hj. cbn. by rewrite <- app_assoc.
  - intros (a & Ha & [->|(b & Hb & ->)]).
    + rewrite (proj2 (strip_suffix_Some _ _ a)) by done. rewrite split_no_sep by auto. done.
    + rewrite (proj2 (strip_suffix_Some _ _ (b ++ [44%N] ++ a))) by (by rewrite <- !app_assoc).
      cbn [app]. rewrite split_app_sep, split_no_sep by auto. by rewrite Ha, Hb.
Qed.

(** ** Safe scripts *)

Definition ALL_SAFE : list string :=
  ["numfmt"; "tac"; "base64"; "find"; "rg"; "git"; "sed"] ++ SAFE_COMMANDS.

Lemma safe_name cmd0 args :
  is_safe_to_call_with_exec (cmd0 :: args) = true ->
  exists name, executable_name_lookup_key cmd0 = Some name /\ name ∈ words_of ALL_SAFE.
Proof.
  cbn [is_safe_to_call_with_exec]. destruct (executable_name_lookup_key cmd0) as [name|]; [|done].
  intros Hs. exists name. split; [done|]. unfold words_of, ALL_SAFE. rewrite fmap_app.
  apply elem_of_app. destruct (one_of ["numfmt"; "tac"]%string name) eqn:E0.
  { left. apply one_of_true in E0. revert E0. unfold words_of. cbn. set_solver. }
  destruct (one_of SAFE_COMMANDS name) eqn:E1; [right; by apply one_of_true in E1|left].
  repeat (case_match; [match goal with H : str_eqb _ _ = true |- _ => apply str_eqb_eq in H as -> end;
    cbn; set_solver|]). done.
Qed.

(** A safe program is no shell. *)
Lemma safe_name_no_shell s name :
  file_name (components s) = Some name -> name ∈ words_of ALL_SAFE -> detect_shell_type s = Ok None.
Proof.
  intros Hf Hn. unfold detect_shell_type. cbn [detect_from].
  assert (stem_of name = name /\ forall n, 0 < n -> detect_from n name = Ok None) as [Hst Hdet].
  { unfold words_of in Hn. apply list_elem_of_fmap in Hn as (w & -> & Hw).
    repeat (apply elem_of_cons in Hw as [->|Hw];
      [split; [by vm_compute|]; intros [|n] Hpos; [lia|by vm_compute]|]).
    by apply elem_of_nil in Hw. }
  destruct (shell_of_name s) as [t|] eqn:Et.
  { exfalso. unfold shell_of_name in Et.
    repeat (case_match; [match goal with H : str_eqb _ _ = true |- _ => apply str_eqb_eq in H as -> end;
      vm_compute in Hf; injection Hf as <-; apply (bool_decide_pack _) in Hn; by vm_compute in Hn|]). done. }
  unfold file_stem. rewrite Hf. cbn [fmap option_fmap option_map]. rewrite Hst.
  case_decide as Hd; [done|]. apply Hdet.
  destruct s; [|cbn; lia]. by vm_compute in Hf.
Qed.

Lemma safe_not_dangerous_exec command :
  is_safe_to_call_with_exec command = true -> is_dangerous_to_call_with_exec command = false.
Proof.
  destruct command as [|cmd0 args]; [done|]. intros (name & Hf & Hn)%safe_name.
  cbn [is_dangerous_to_call_with_exec].
  destruct (str_eqb cmd0 (lit "rm")) eqn:E1; [|destruct (str_eqb cmd0 (lit "sudo")) eqn:E2; [|done]];
    [apply str_eqb_eq in E1 as ->|apply str_eqb_eq in E2 as ->]; vm_compute in Hf; injection Hf as <-;
    apply (bool_decide_pack _) in Hn; by vm_compute in Hn.
Qed.

Lemma zsh_as_bash_id (l : list str) : lit "zsh" ∉ l -> zsh_as_bash <$> l = l.
Proof.
  induction l as [|s l IH]; intros Hl; [done|]. apply not_elem_of_cons in Hl as [Hs Hl].
  cbn. rewrite IH by done. unfold zsh_as_bash. by rewrite str_eqb_ne by (by intros ->).
Qed.

(** Renaming the shell does not change what is parsed. *)
Lemma plain_commands_zsh parser shell args :
  lit "zsh" ∉ args ->
  parse_shell_lc_plain_commands parser (zsh_as_bash <$> shell :: args) =
  parse_shell_lc_plain_commands parser (shell :: args).
Proof.
  intros Ha. cbn [fmap list_fmap]. fold (zsh_as_bash <$> args). rewrite zsh_as_bash_id by done.
  unfold zsh_as_bash. destruct (str_eqb shell (lit "zsh")) eqn:E; [|done].
  apply str_eqb_eq in E as ->. destruct args as [|flag [|script [|]]]; try done.
  unfold parse_shell_lc_plain_commands, extract_bash_command.
  assert (detect_shell_type (lit "bash") = Ok (Some Bash)) as -> by (by vm_compute).
  assert (detect_shell_type (lit "zsh") = Ok (Some Zsh)) as -> by (by vm_compute).
  cbn [res_bind]. destruct (negb _); done.
Qed.

Lemma plain_commands_of_safe parser command r :
  is_safe_to_call_with_exec command = true ->
  parse_shell_lc_plain_commands parser command = Ok r -> r = None.
Proof.
  destruct command as [|shell [|flag [|script [|]]]]; try (by intros ? [= <-]).
  intros (name & Hf & Hn)%safe_name. unfold parse_shell_lc_plain_commands, extract_bash_command.
  rewrite (safe_name_no_shell _ _ Hf Hn). cbn [res_bind]. rewrite orb_true_r. by intros [= <-].
Qed.

Lemma danger_no_script parser command r :
  is_dangerous_to_call_with_exec command = true ->
  parse_shell_lc_plain_commands parser command = Ok r -> r = None.
Proof.
  destruct command as [|cmd0 args]; [done|]. cbn [is_dangerous_to_call_with_exec]. intros Hd.
  assert (detect_shell_type cmd0 = Ok None) as Hdet.
  { destruct (str_eqb cmd0 (lit "rm")) eqn:E1; [|destruct (str_eqb cmd0 (lit "sudo")) eqn:E2; [|done]];
      [apply str_eqb_eq in E1 as ->|apply str_eqb_eq in E2 as ->]; by vm_compute. }
  destruct args as [|flag [|script [|]]]; try (by intros [= <-]).
  unfold parse_shell_lc_plain_commands, extract_bash_command. rewrite Hdet. cbn [res_bind].
  rewrite orb_true_r. by intros [= <-].
Qed.

(** The two lists are disjoint. *)
Lemma safe_is_not_dangerous parser command :
  lit "zsh" ∉ tail command ->
  is_known_safe_command parser command = Ok true ->
  command_might_be_dangerous parser command = Ok false.
Proof.
  destruct command as [|shell args]; [done|]. cbn [tail]. intros Hz.
  unfold is_known_safe_command, command_might_be_dangerous.
  rewrite plain_commands_zsh by done.
  destruct (plain_commands_return parser (shell :: args)) as [r Hr]. rewrite Hr. cbn [res_bind].
  assert (zsh_as_bash <$> shell :: args = zsh_as_bash shell :: args) as Heq.
  { cbn [fmap list_fmap]. fold (zsh_as_bash <$> args). by rewrite zsh_as_bash_id. }
  assert (shell = lit "zsh" \/ zsh_as_bash shell = shell) as Hsh.
  { unfold zsh_as_bash. destruct (str_eqb shell _) eqn:E; [left; by apply str_eqb_eq|by right]. }
  rewrite Heq. destruct (is_safe_to_call_with_exec (zsh_as_bash shell :: args)) eqn:Es.
  - intros _. destruct Hsh as [->|Hsh].
    { apply safe_name in Es as (name & Hf & Hn). vm_compute in Hf. injection Hf as <-.
      apply (bool_decide_pack _) in Hn. by vm_compute in Hn. }
    rewrite Hsh in Es. rewrite (safe_not_dangerous_exec _ Es).
    by rewrite (plain_commands_of_safe _ _ _ Es Hr).
  - intros Hall. destruct (is_dangerous_to_call_with_exec (shell :: args)) eqn:Ed.
    { by rewrite (danger_no_script _ _ _ Ed Hr) in Hall. }
    f_equal. destruct r as [[|c cs]|]; try done. apply existsb_false.
    assert (forallb is_safe_to_call_with_exec (c :: cs) = true) as Hs by (by injection Hall).
    apply Forall_forall. intros x Hx. rewrite forallb_forall in Hs.
    apply safe_not_dangerous_exec, Hs. by apply list_elem_of_In.
Qed.

(** No command is both known safe and dangerous, whatever the shell parser
    does, unless an argument after the program is the word zsh, which the safe
    list reads as bash. *)
Theorem safe_never_dangerous parser command :
  lit "zsh" ∉ tail command ->
  is_known_safe_command parser command = Ok true ->
  command_might_be_dangerous parser command = Ok false.
Proof. apply safe_is_not_dangerous. Qed.

Lemma safe_never_dangerous_witness :
  is_known_safe_command (fun _ => Some sample_tree_ls) [lit "zsh"; lit "-lc"; sample_script_ls] = Ok true /\
  command_might_be_dangerous (fun _ => Some sample_tree_ls) [lit "zsh"; lit "-lc"; sample_script_ls]
    = Ok false.
Proof.
  assert (is_known_safe_command (fun _ => Some sample_tree_ls)
    [lit "zsh"; lit "-lc"; sample_script_ls] = Ok true) as E by (by vm_compute).
  split; [exact E|]. apply safe_never_dangerous; [|exact E]. by apply (bool_decide_unpack _); vm_compute.
Defined.

(** What runs without approval as known safe is a program of the safe list
    called with harmless arguments, or a script for a shell that has at least
    one command and whose syntax tree has only plain words, quotes and the
    operators [&&], [||], [;] and [|], every command of it being such a call.
    Redirections, substitutions, assignments, subshells and background jobs
    are never approved. *)
Theorem known_safe_sound parser command :
  (forall script tree, parser script = Some tree -> ordered (root_node tree)) ->
  is_known_safe_command parser command = Ok true ->
  is_safe_to_call_with_exec (zsh_as_bash <$> command) = true \/
  exists script tree cmds, (zsh_as_bash <$> command) !! 2 = Some script /\
    parser script = Some tree /\ has_error tree = false /\
    Forall plain_token (nodes (root_node tree)) /\
    Forall2 (fun n words => Forall2 (reads_word script) (named_children n) words)
      (commands_in (root_node tree)) cmds /\
    cmds <> [] /\ Forall (fun words => is_safe_to_call_with_exec words = true) cmds.
Proof.
  intros Ho. unfold is_known_safe_command. cbv zeta. generalize (zsh_as_bash <$> command) as command'. intros command'.
  destruct (is_safe_to_call_with_exec command'); [by left|]. intros Hok. right.
  destruct (plain_commands_return parser command') as [r Hr]. rewrite Hr in Hok. cbn [res_bind] in Hok.
  destruct r as [[|c cs]|]; try done.
  assert (forallb is_safe_to_call_with_exec (c :: cs) = true) as Hs by (by injection Hok).
  destruct command' as [|shell [|flag [|script [|]]]]; try done.
  apply plain_commands_iff in Hr as (_ & _ & tree & Hp & He & Hall & Hw); [|by apply Ho].
  exists script, tree, (c :: cs). split_and!; try done. apply Forall_forall. intros x Hx.
  rewrite forallb_forall in Hs. apply Hs. by apply list_elem_of_In.
Qed.

Lemma known_safe_sound_witness :
  exists script tree cmds,
    [lit "bash"; lit "-lc"; sample_script_ls] !! 2 = Some script /\
    Some sample_tree_ls = Some tree /\ has_error tree = false /\
    Forall2 (fun n words => Forall2 (reads_word script) (named_children n) words)
      (commands_in (root_node tree)) cmds /\ cmds <> [].
Proof.
  destruct (known_safe_sound (fun _ => Some sample_tree_ls) [lit "bash"; lit "-lc"; sample_script_ls])
    as [E|(script & tree & cmds & H1 & H2 & H3 & _ & H4 & H5 & _)].
  - intros script tree [= <-]. vm_compute. repeat constructor.
  - by vm_compute.
  - by vm_compute in E.
  - exists script, tree, cmds. auto.
Defined.
