(* ===== verification/Approval.v ===== *)
(** * Approval of commands ([core/src/exec_policy.rs], [core/src/tools/sandboxing.rs])

    What a command needs before it runs: nothing, the user's approval, or it is
    refused.  The rules of the execution policy decide first; a command that no
    rule matches is judged by the safe and dangerous lists, the approval policy
    and the permission profile.  Also which sandbox the first attempt gets. *)

From S2P Require Export CommandSafety Permissions.
From S2P Require Export ExecPolicy.

(** ** Policies and profiles ([protocol.rs], [models.rs]) *)

Record GranularApprovalConfig := mk_granular {
  sandbox_approval : bool;
  rules : bool;
  skill_approval : bool;
  request_permissions : bool;
  mcp_elicitations : bool
}.

Inductive AskForApproval :=
| UnlessTrusted
| OnFailure
| OnRequest
| Granular (config : GranularApprovalConfig)
| Never.

Inductive SandboxPermissions := UseDefault | RequireEscalated | WithAdditionalPermissions.

Definition requires_escalated_permissions (s : SandboxPermissions) : bool :=
  match s with RequireEscalated => true | _ => false end.
Definition requests_sandbox_override (s : SandboxPermissions) : bool :=
  match s with UseDefault => false | _ => true end.
Definition uses_additional_permissions (s : SandboxPermissions) : bool :=
  match s with WithAdditionalPermissions => true | _ => false end.

Inductive ManagedFileSystemPermissions :=
| ManagedRestricted (entries : list FileSystemSandboxEntry) (glob_scan_max_depth : option positive)
| ManagedUnrestricted.

Definition to_sandbox_policy (m : ManagedFileSystemPermissions) : FileSystemSandboxPolicy :=
  match m with
  | ManagedRestricted entries depth => mk_fs_policy Restricted (Pos.to_nat <$> depth) entries
  | ManagedUnrestricted => fs_unrestricted
  end.

(** [None] is the [unreachable!] of the external kind. *)
Definition from_sandbox_policy (p : FileSystemSandboxPolicy) : option ManagedFileSystemPermissions :=
  match policy_kind p with
  | Restricted =>
    Some (ManagedRestricted (entries p)
            (glob_scan_max_depth p ≫= (fun n => match n with 0 => None | S _ => Some (Pos.of_nat n) end)))
  | Unrestricted => Some ManagedUnrestricted
  | ExternalSandbox => None
  end.

Inductive PermissionProfile :=
| Managed (file_system : ManagedFileSystemPermissions) (network : NetworkSandboxPolicy)
| Disabled
| External (network : NetworkSandboxPolicy).

Definition file_system_sandbox_policy (p : PermissionProfile) : FileSystemSandboxPolicy :=
  match p with
  | Managed file_system _ => to_sandbox_policy file_system
  | Disabled => fs_unrestricted
  | External _ => fs_external_sandbox
  end.

Definition ExecPolicyAmendment := list str.

Inductive ExecApprovalRequirement :=
| Skip (bypass_sandbox : bool) (proposed : option ExecPolicyAmendment)
| NeedsApproval (reason : option str) (proposed : option ExecPolicyAmendment)
| Refused (reason : str).

Definition proposed_execpolicy_amendment (r : ExecApprovalRequirement) : option ExecPolicyAmendment :=
  match r with NeedsApproval _ proposed | Skip _ proposed => proposed | Refused _ => None end.

(** ** When a prompt may be shown *)

Definition PROMPT_CONFLICT_REASON : str :=
  lit "approval required by policy, but AskForApproval is set to Never".
Definition REJECT_SANDBOX_APPROVAL_REASON : str :=
  lit "approval required by policy, but AskForApproval::Granular.sandbox_approval is false".
Definition REJECT_RULES_APPROVAL_REASON : str :=
  lit "approval required by policy rule, but AskForApproval::Granular.rules is false".

Definition is_policy_match (m : RuleMatch) : bool :=
  match m with PrefixRuleMatch _ _ _ _ => true | HeuristicsRuleMatch _ _ => false end.

Definition prompt_is_rejected_by_policy (approval_policy : AskForApproval) (prompt_is_rule : bool)
    : option str :=
  match approval_policy with
  | Never => Some PROMPT_CONFLICT_REASON
  | OnFailure | OnRequest | UnlessTrusted => None
  | Granular g =>
    if prompt_is_rule then if negb (rules g) then Some REJECT_RULES_APPROVAL_REASON else None
    else if negb (sandbox_approval g) then Some REJECT_SANDBOX_APPROVAL_REASON else None
  end.

Definition BANNED_PREFIX_SUGGESTIONS : list (list str) :=
  words_of <$> [
    ["python3"]; ["python3"; "-"]; ["python3"; "-c"]; ["python"]; ["python"; "-"]; ["python"; "-c"];
    ["py"]; ["py"; "-3"]; ["pythonw"]; ["pyw"]; ["pypy"]; ["pypy3"]; ["git"]; ["bash"];
    ["bash"; "-lc"]; ["sh"]; ["sh"; "-c"]; ["sh"; "-lc"]; ["zsh"]; ["zsh"; "-lc"]; ["/bin/zsh"];
    ["/bin/zsh"; "-lc"]; ["/bin/bash"]; ["/bin/bash"; "-lc"]; ["pwsh"]; ["pwsh"; "-Command"];
    ["pwsh"; "-c"]; ["powershell"]; ["powershell"; "-Command"]; ["powershell"; "-c"];
    ["powershell.exe"]; ["powershell.exe"; "-Command"]; ["powershell.exe"; "-c"]; ["env"]; ["sudo"];
    ["node"]; ["node"; "-e"]; ["perl"]; ["perl"; "-e"]; ["ruby"]; ["ruby"; "-e"]; ["php"];
    ["php"; "-r"]; ["lua"]; ["lua"; "-e"]; ["osascript"]]%string.

(** ** Commands that no rule matches *)

Inductive WindowsSandboxLevel := WindowsDisabled | RestrictedToken | Elevated.

(** The target is Unix. *)
Definition cfg_windows : bool := false.

Record UnmatchedCommandContext := mk_context {
  approval_policy : AskForApproval;
  permission_profile : PermissionProfile;
  windows_sandbox_level : WindowsSandboxLevel;
  sandbox_permissions : SandboxPermissions;
  used_complex_parsing : bool
}.

Definition is_managed (p : PermissionProfile) : bool := match p with Managed _ _ => true | _ => false end.

Definition profile_has_managed_filesystem_restrictions (p : PermissionProfile) : bool :=
  let fs := file_system_sandbox_policy p in
  is_managed p && is_restricted fs && negb (has_full_disk_write_access fs).

(** The windows sandbox backend is off while the profile restricts writes. *)
Definition windows_unprotected (c : UnmatchedCommandContext) : bool :=
  cfg_windows
  && match windows_sandbox_level c with WindowsDisabled => true | _ => false end
  && profile_has_managed_filesystem_restrictions (permission_profile c).

Section unmatched.
Variable try_parse_shell : str -> option Tree.

Definition render_decision_for_unmatched_command (command : list str) (c : UnmatchedCommandContext)
    : res Empty_set Decision :=
  let fs := file_system_sandbox_policy (permission_profile c) in
  let? is_known_safe := is_known_safe_command try_parse_shell command in
  if is_known_safe && negb (used_complex_parsing c)
     && (match approval_policy c with UnlessTrusted => true | _ => false end || windows_unprotected c)
  then Ok Allow
  else
    let? command_is_dangerous := command_might_be_dangerous try_parse_shell command in
    Ok (if command_is_dangerous || windows_unprotected c then
          match approval_policy c with
          | Never => match permission_profile c with Disabled | External _ => Allow | Managed _ _ => Forbidden end
          | OnFailure | OnRequest | UnlessTrusted | Granular _ => Prompt
          end
        else
          match approval_policy c with
          | Never | OnFailure => Allow
          | UnlessTrusted => Prompt
          | OnRequest | Granular _ =>
            match policy_kind fs with
            | Unrestricted | ExternalSandbox => Allow
            | Restricted => if requests_sandbox_override (sandbox_permissions c) then Prompt else Allow
            end
          end).

(** ** The commands a call is made of *)

Record ExecPolicyCommands := mk_commands { commands : list (list str); complex_parsing : bool }.

Definition commands_for_exec_policy (command : list str) : res Empty_set ExecPolicyCommands :=
  let? plain := parse_shell_lc_plain_commands try_parse_shell command in
  match plain with
  | Some (c :: cs) => Ok (mk_commands (c :: cs) false)
  | _ =>
    let? single := parse_shell_lc_single_command_prefix try_parse_shell command in
    match single with
    | Some single_command => Ok (mk_commands [single_command] true)
    | None => Ok (mk_commands [command] false)
    end
  end.
End unmatched.

(** ** Reasons *)

(** [Iterator::max_by_key]: the last of the greatest. *)
Definition max_by_key {A} (key : A -> nat) (l : list A) : option A :=
  foldl (fun best x =>
    match best with
    | Some b => if key x <? key b then Some b else Some x
    | None => Some x
    end) None l.

Section reasons.
(** [shlex::try_join] *)
Variable try_join : list str -> option str.

Definition render_shlex_command (args : list str) : str := default (join [SPACE] args) (try_join args).

Definition BACKTICK : char := 96%N.

Definition quoted (s : str) : str := [BACKTICK] ++ s ++ [BACKTICK].

(** The rule matches of one decision: their prefix and justification. *)
Definition rules_deciding (d : Decision) (matched : list RuleMatch) : list (list str * option str) :=
  omap (fun m => match m with
                 | PrefixRuleMatch matched_prefix d' _ justification =>
                   if bool_decide (d' = d) then Some (matched_prefix, justification) else None
                 | HeuristicsRuleMatch _ _ => None
                 end) matched.

Definition derive_prompt_reason (command_args : list str) (e : Evaluation) : option str :=
  let command := render_shlex_command command_args in
  match max_by_key (fun p => length p.1) (rules_deciding Prompt (matched_rules e)) with
  | Some (_, Some justification) => Some (quoted command ++ lit " requires approval: " ++ justification)
  | Some (_, None) => Some (quoted command ++ lit " requires approval by policy")
  | None => None
  end.

Definition derive_forbidden_reason (command_args : list str) (e : Evaluation) : str :=
  let command := render_shlex_command command_args in
  match max_by_key (fun p => length p.1) (rules_deciding Forbidden (matched_rules e)) with
  | Some (_, Some justification) => quoted command ++ lit " rejected: " ++ justification
  | Some (matched_prefix, None) =>
    quoted command ++ lit " rejected: policy forbids commands starting with "
    ++ quoted (render_shlex_command matched_prefix)
  | None => quoted command ++ lit " rejected: blocked by policy"
  end.
End reasons.

(** ** Amendments *)

Definition rule_prompts (m : RuleMatch) : bool := is_policy_match m && bool_decide (match_decision m = Prompt).
Definition rule_allows (m : RuleMatch) : bool := is_policy_match m && bool_decide (match_decision m = Allow).

(** The command of the first match that the heuristics decided in this way. *)
Definition first_heuristics (d : Decision) (matched : list RuleMatch) : option ExecPolicyAmendment :=
  head (omap (fun m => match m with
                       | HeuristicsRuleMatch command d' => if bool_decide (d' = d) then Some command else None
                       | _ => None
                       end) matched).

Definition try_derive_execpolicy_amendment_for_prompt_rules (matched : list RuleMatch)
    : option ExecPolicyAmendment :=
  if existsb rule_prompts matched then None else first_heuristics Prompt matched.

Definition try_derive_execpolicy_amendment_for_allow_rules (matched : list RuleMatch)
    : option ExecPolicyAmendment :=
  if existsb is_policy_match matched then None else first_heuristics Allow matched.

(** ** What a command needs ([create_exec_approval_requirement_for_command]) *)

Record ExecApprovalRequest := mk_request {
  req_command : list str;
  req_approval_policy : AskForApproval;
  req_permission_profile : PermissionProfile;
  req_windows_sandbox_level : WindowsSandboxLevel;
  req_sandbox_permissions : SandboxPermissions;
  req_prefix_rule : option (list str)
}.

Definition host_options : MatchOptions := mk_options true.

Section requirement.
Context {M : Type} `{MultiMap M}.
Context (home_dir current_dir : option path).
Context (try_parse_shell : str -> option Tree) (try_join : list str -> option str).

Definition prefix_rule_would_approve_all_commands (exec_policy : Policy M) (prefix_rule : list str)
    (commands : list (list str)) (fallback : list str -> Decision) (options : MatchOptions) : bool :=
  match add_prefix_rule exec_policy prefix_rule Allow with
  | Ok policy_with_prefix_rule =>
    forallb (fun command =>
      match check_with_options home_dir current_dir policy_with_prefix_rule command fallback options with
      | Ok e => bool_decide (decision e = Allow)
      | _ => false
      end) commands
  | _ => false
  end.

Definition is_banned (prefix_rule : list str) : bool :=
  existsb (fun banned => bool_decide (prefix_rule = banned)) BANNED_PREFIX_SUGGESTIONS.

Definition derive_requested_execpolicy_amendment_from_prefix_rule (prefix_rule : option (list str))
    (matched : list RuleMatch) (exec_policy : Policy M) (commands : list (list str))
    (fallback : list str -> Decision) (options : MatchOptions) : option ExecPolicyAmendment :=
  prefix_rule ← prefix_rule;
  match prefix_rule with
  | [] => None
  | _ =>
    if is_banned prefix_rule then None
    else if existsb is_policy_match matched then None
    else if prefix_rule_would_approve_all_commands exec_policy prefix_rule commands fallback options
    then Some prefix_rule else None
  end.

Definition request_context (req : ExecApprovalRequest) (used_complex_parsing : bool)
    : UnmatchedCommandContext :=
  mk_context (req_approval_policy req) (req_permission_profile req) (req_windows_sandbox_level req)
    (req_sandbox_permissions req) used_complex_parsing.

(** The closure [exec_policy_fallback]; the heuristics always return, see
    [render_decision_returns]. *)
Definition exec_policy_fallback (req : ExecApprovalRequest) (used_complex_parsing : bool)
    (cmd : list str) : Decision :=
  match render_decision_for_unmatched_command try_parse_shell cmd (request_context req used_complex_parsing) with
  | Ok d => d
  | _ => Forbidden
  end.

Definition create_exec_approval_requirement_for_command (exec_policy : Policy M)
    (req : ExecApprovalRequest) : res Empty_set ExecApprovalRequirement :=
  let command := req_command req in
  let? parsed := commands_for_exec_policy try_parse_shell command in
  let cmds := commands parsed in
  let auto_amendment_allowed := negb (complex_parsing parsed) in
  let fallback := exec_policy_fallback req (complex_parsing parsed) in
  let? evaluation :=
    check_multiple_with_options home_dir current_dir exec_policy cmds fallback host_options in
  let requested_amendment :=
    if auto_amendment_allowed then
      derive_requested_execpolicy_amendment_from_prefix_rule (req_prefix_rule req)
        (matched_rules evaluation) exec_policy cmds fallback host_options
    else None in
  Ok (match decision evaluation with
      | Forbidden => Refused (derive_forbidden_reason try_join command evaluation)
      | Prompt =>
        let prompt_is_rule := existsb rule_prompts (matched_rules evaluation) in
        match prompt_is_rejected_by_policy (req_approval_policy req) prompt_is_rule with
        | Some reason => Refused reason
        | None =>
          NeedsApproval (derive_prompt_reason try_join command evaluation)
            (match requested_amendment with
             | Some amendment => Some amendment
             | None =>
               if auto_amendment_allowed
               then try_derive_execpolicy_amendment_for_prompt_rules (matched_rules evaluation)
               else None
             end)
        end
      | Allow =>
        Skip
          (forallb (fun command =>
             existsb rule_allows
               (matches_for_command_with_options home_dir current_dir exec_policy command None host_options))
             cmds)
          (if auto_amendment_allowed
           then try_derive_execpolicy_amendment_for_allow_rules (matched_rules evaluation)
           else None)
      end).
End requirement.

(** ** The sandbox of the first attempt ([tools/sandboxing.rs]) *)

Definition default_exec_approval_requirement (policy : AskForApproval) (fs : FileSystemSandboxPolicy)
    : ExecApprovalRequirement :=
  let needs_approval :=
    match policy with
    | Never | OnFailure => false
    | OnRequest | Granular _ => is_restricted fs
    | UnlessTrusted => true
    end in
  if needs_approval
     && match policy with Granular g => negb (sandbox_approval g) | _ => false end
  then Refused (lit "approval policy disallowed sandbox approval prompt")
  else if needs_approval then NeedsApproval None None
  else Skip false None.

Inductive SandboxOverride := NoOverride | BypassSandboxFirstAttempt.

Definition unsandboxed_execution_allowed (fs : FileSystemSandboxPolicy) : bool :=
  negb (has_denied_read_restrictions fs).

Definition sandbox_override_for_first_attempt (perms : SandboxPermissions)
    (requirement : ExecApprovalRequirement) (fs : FileSystemSandboxPolicy) : SandboxOverride :=
  if negb (unsandboxed_execution_allowed fs) then NoOverride
  else
    match requirement with
    | Skip true _ => BypassSandboxFirstAttempt
    | _ => if requires_escalated_permissions perms then BypassSandboxFirstAttempt else NoOverride
    end.

Definition sandbox_permissions_preserving_denied_reads (perms : SandboxPermissions)
    (fs : FileSystemSandboxPolicy) : SandboxPermissions :=
  if requires_escalated_permissions perms && negb (unsandboxed_execution_allowed fs)
  then UseDefault else perms.

(** ** The heuristics always answer *)

Section unmatched_proofs.
Variable parser : str -> option Tree.

Lemma known_safe_returns command : exists b, is_known_safe_command parser command = Ok b.
Proof.
  unfold is_known_safe_command. destruct (is_safe_to_call_with_exec _); [by eexists|].
  destruct (plain_commands_return parser (zsh_as_bash <$> command)) as [r ->]. by eexists.
Qed.

Lemma dangerous_returns command : exists b, command_might_be_dangerous parser command = Ok b.
Proof.
  unfold command_might_be_dangerous. destruct (is_dangerous_to_call_with_exec _); [by eexists|].
  destruct (plain_commands_return parser command) as [r ->]. by eexists.
Qed.

Lemma render_decision_returns command c :
  exists d, render_decision_for_unmatched_command parser command c = Ok d.
Proof.
  unfold render_decision_for_unmatched_command. destruct (known_safe_returns command) as [s ->].
  destruct (dangerous_returns command) as [b ->]. cbn [res_bind]. case_match; by eexists.
Qed.

Lemma commands_return command :
  exists parsed, commands_for_exec_policy parser command = Ok parsed /\ commands parsed <> [].
Proof.
  unfold commands_for_exec_policy. destruct (plain_commands_return parser command) as [r ->].
  destruct (single_prefix_returns parser command) as [s Hs]. cbn [res_bind].
  destruct r as [[|]|]; rewrite ?Hs; cbn [res_bind]; try (by eexists); destruct s; by eexists.
Qed.
End unmatched_proofs.

Section requirement_proofs.
Context {M : Type} `{MultiMapLaws M}.
Context (home_dir current_dir : option path).
Context (parser : str -> option Tree) (try_join : list str -> option str).
Implicit Types p : Policy M.

Notation decides_on := (decides home_dir current_dir).
Notation matches_of p cmd f := (matches_for_command_with_options home_dir current_dir p cmd f host_options).

(** Some rule speaks about the command, as it is written or by the base name
    of its program. *)
Definition ruled_segment p (cmd : list str) : Prop :=
  (exists r, exact_rule p cmd r) \/ exists program r, host_rule home_dir current_dir p cmd program r.

Lemma matches_policy p cmd :
  Forall is_policy_match (default [] (match_exact_rules p cmd)) /\
  Forall is_policy_match (match_host_executable_rules home_dir current_dir p cmd).
Proof.
  split; apply Forall_forall; intros m Hm.
  - by apply match_exact_spec in Hm as (r & _ & pre & extra & -> & _).
  - by apply match_host_spec in Hm as (prog & r & base & _ & (pre & extra & -> & _) & _).
Qed.

(** Either no rule speaks and the heuristics answer alone, or the rules answer
    and the heuristics are not asked. *)
Lemma matches_cases p cmd f :
  (~ ruled_segment p cmd /\ matches_of p cmd (Some f) = [HeuristicsRuleMatch cmd (f cmd)] /\
   matches_of p cmd None = []) \/
  (ruled_segment p cmd /\ matches_of p cmd (Some f) = matches_of p cmd None /\
   matches_of p cmd None <> [] /\ Forall is_policy_match (matches_of p cmd None)).
Proof.
  rewrite !matches_unfold. destruct (matches_policy p cmd) as [He Hh].
  pose proof (exact_none p cmd) as Hen. pose proof (host_none home_dir current_dir p cmd) as Hhn.
  cbn [resolve_host_executables host_options].
  destruct (default [] (match_exact_rules p cmd)) as [|m l] eqn:Ee.
  - destruct (match_host_executable_rules home_dir current_dir p cmd) as [|m l] eqn:Eh.
    + left. split_and!; [|done..]. intros [[r Hr]|(prog & r & Hr)].
      * by apply (proj1 Hen eq_refl r).
      * by apply (proj1 Hhn eq_refl prog r).
    + right. split_and!; [|done..]. right.
      destruct (proj1 (match_host_spec home_dir current_dir p cmd m)) as (prog & r & _ & Hr & _);
        [rewrite Eh; by left|by exists prog, r].
  - right. split_and!; [|done..]. left.
    destruct (proj1 (match_exact_spec p cmd m)) as (r & Hr & _); [rewrite Ee; by left|by exists r].
Qed.

(** The decisions on the commands of a call. *)
Definition segment_decision p (f : list str -> Decision) (cmds : list (list str)) (d : Decision) : Prop :=
  exists cmd, cmd ∈ cmds /\ decides_on p host_options f cmd d.

Lemma segments_spec p f cmds d :
  d ∈ match_decision <$> (cmds ≫= (fun c => matches_of p c (Some f))) <-> segment_decision p f cmds d.
Proof.
  unfold segment_decision. rewrite list_elem_of_fmap. setoid_rewrite list_elem_of_bind. split.
  - intros (m & -> & cmd & Hm & Hc). exists cmd. split; [done|]. apply matches_decides.
    apply list_elem_of_fmap. by exists m.
  - intros (cmd & Hc & Hd). apply matches_decides, list_elem_of_fmap in Hd as (m & -> & Hm).
    exists m. split; [done|]. by exists cmd.
Qed.

Lemma check_segments p f cmds :
  cmds <> [] ->
  exists ev, check_multiple_with_options home_dir current_dir p cmds f host_options = Ok ev /\
    matched_rules ev = cmds ≫= (fun c => matches_of p c (Some f)) /\
    segment_decision p f cmds (decision ev) /\
    forall d, segment_decision p f cmds d -> d ⊑ decision ev.
Proof.
  intros Hne. unfold check_multiple_with_options.
  destruct (from_matches_Ok (cmds ≫= (fun c => matches_of p c (Some f)))) as [ev Hev].
  { destruct cmds as [|c cs]; [done|]. cbn [mbind list_bind].
    destruct (matches_cases p c f) as [(_ & -> & _)|(_ & -> & Hn & _)]; [done|]. by destruct (matches_of p c None). }
  exists ev. split; [done|]. apply from_matches_strictest in Hev as [[Hin Hmax] Hms].
  split; [done|]. split; [by apply segments_spec|]. intros d Hd. by apply Hmax, segments_spec.
Qed.

(** A rule, and not the heuristics, asks for the prompt. *)
Definition prompted_by_rule p f (cmds : list (list str)) : Prop :=
  exists cmd, cmd ∈ cmds /\ ruled_segment p cmd /\ decides_on p host_options f cmd Prompt.

Lemma rule_prompts_spec p f cmds :
  existsb rule_prompts (cmds ≫= (fun c => matches_of p c (Some f))) = true <-> prompted_by_rule p f cmds.
Proof.
  unfold prompted_by_rule. rewrite existsb_exists. setoid_rewrite <- list_elem_of_In.
  setoid_rewrite list_elem_of_bind. split.
  - intros (m & (cmd & Hm & Hc) & Hp). unfold rule_prompts in Hp. apply andb_true_iff in Hp as [Hpol Hd].
    apply bool_decide_eq_true in Hd. exists cmd. split; [done|]. split.
    + destruct (matches_cases p cmd f) as [(_ & E & _)|[Hr _]]; [|done].
      rewrite E in Hm. apply list_elem_of_singleton in Hm. by subst m.
    + rewrite <- Hd. apply matches_decides, list_elem_of_fmap. by exists m.
  - intros (cmd & Hc & Hr & Hd). apply matches_decides, list_elem_of_fmap in Hd as (m & Hd & Hm).
    exists m. split; [by exists cmd|]. unfold rule_prompts. rewrite <- Hd, bool_decide_true by done.
    rewrite andb_true_r. destruct (matches_cases p cmd f) as [[Hn _]|(_ & E & _ & Hall)]; [done|].
    unfold host_options in *. rewrite E in Hm. rewrite Forall_forall in Hall. by apply Is_true_true, Hall.
Qed.

(** The approval policy lets such a prompt be shown. *)
Definition prompt_permitted (policy : AskForApproval) (by_rule : Prop) : Prop :=
  match policy with
  | Never => False
  | Granular g => (by_rule -> rules g = true) /\ (~ by_rule -> sandbox_approval g = true)
  | _ => True
  end.

Lemma prompt_rejected_spec policy by_rule (b : bool) :
  (b = true <-> by_rule) -> (prompt_is_rejected_by_policy policy b = None <-> prompt_permitted policy by_rule).
Proof.
  intros Hb. destruct policy as [| | |g|]; try done. cbn.
  destruct b.
  - destruct Hb as [Hb _]. specialize (Hb eq_refl). destruct (rules g); split; try done. intros [Hr _]. by specialize (Hr Hb).
  - assert (~ by_rule) as Hn by (intros Hx; by apply Hb in Hx).
    destruct (sandbox_approval g); split; try done. intros [_ Hr]. by specialize (Hr Hn).
Qed.

Lemma bypass_spec p cmds :
  (forall cmd d f, cmd ∈ cmds -> ruled_segment p cmd -> decides_on p host_options f cmd d -> d = Allow) ->
  forallb (fun c => existsb rule_allows (matches_of p c None)) cmds = true <->
  forall cmd, cmd ∈ cmds -> ruled_segment p cmd.
Proof.
  intros Hall. rewrite forallb_forall. setoid_rewrite <- list_elem_of_In.
  apply forall_proper. intros cmd. split; intros Hx Hc; specialize (Hx Hc).
  - destruct (matches_cases p cmd (fun _ => Allow)) as [(_ & _ & E)|[Hr _]]; [|done].
    unfold host_options in *. by rewrite E in Hx.
  - destruct (matches_cases p cmd (fun _ => Allow)) as [[Hn _]|(_ & E & Hne & Hpol)]; [done|].
    destruct (matches_of p cmd None) as [|m l] eqn:El; [done|].
    cbn [existsb]. apply orb_true_iff. left. unfold rule_allows.
    apply Forall_cons in Hpol as [Hm _]. apply Is_true_true in Hm. rewrite Hm. apply bool_decide_eq_true.
    apply (Hall cmd _ (fun _ => Allow) Hc Hx). apply matches_decides. unfold host_options in *. rewrite E. by left.
Qed.
End requirement_proofs.

Lemma below_allow (d : Decision) : d ⊑ Allow -> d = Allow.
Proof. destruct d; [done|cbv; lia..]. Qed.

Lemma not_above_prompt : ~ Forbidden ⊑ Prompt.
Proof. cbv. lia. Qed.

Section requirement_spec.
Context {M : Type} `{MultiMapLaws M}.
Context (home_dir current_dir : option path).
Context (parser : str -> option Tree) (try_join : list str -> option str).
Implicit Types p : Policy M.

Notation fallback_of req parsed := (exec_policy_fallback parser req (complex_parsing parsed)).
Notation segment p req parsed := (segment_decision home_dir current_dir p (fallback_of req parsed) (commands parsed)).
Notation by_rule p req parsed := (prompted_by_rule home_dir current_dir p (fallback_of req parsed) (commands parsed)).

(** What a requirement says about the decisions on the commands of the call. *)
Definition requirement_meets p req parsed (r : ExecApprovalRequirement) : Prop :=
  match r with
  | Skip bypass_sandbox _ =>
    (forall d, segment p req parsed d -> d = Allow) /\
    (bypass_sandbox = true <-> forall cmd, cmd ∈ commands parsed -> ruled_segment home_dir current_dir p cmd)
  | NeedsApproval _ _ =>
    segment p req parsed Prompt /\ ~ segment p req parsed Forbidden /\
    prompt_permitted (req_approval_policy req) (by_rule p req parsed)
  | Refused _ =>
    segment p req parsed Forbidden \/
    (segment p req parsed Prompt /\ ~ prompt_permitted (req_approval_policy req) (by_rule p req parsed))
  end.

Lemma requirement_spec p req :
  exists parsed r, commands_for_exec_policy parser (req_command req) = Ok parsed /\
    create_exec_approval_requirement_for_command home_dir current_dir parser try_join p req = Ok r /\
    requirement_meets p req parsed r.
Proof.
  unfold create_exec_approval_requirement_for_command.
  destruct (commands_return parser (req_command req)) as (parsed & Hp & Hne). rewrite Hp. cbn [res_bind].
  destruct (check_segments home_dir current_dir p (fallback_of req parsed) (commands parsed) Hne)
    as (ev & Hev & Hms & Hd & Hmax).
  rewrite Hev. cbn [res_bind]. eexists parsed, _. split; [done|]. split; [reflexivity|].
  destruct (decision ev) eqn:Edec.
  - split.
    + intros d Hs. by apply below_allow, Hmax.
    + apply bypass_spec. intros cmd d f Hc Hr Hdc.
      assert (segment p req parsed d) as Hs.
      { exists cmd. split; [done|]. destruct Hr as [[r Hr]|(prog & r & Hr)].
        - destruct Hdc as [r' Hr'|prog r' Hh Hno|Hno]; [by constructor|by destruct (Hno r)..].
        - destruct Hdc as [r' Hr'|prog' r' Hh Hno Hr'|Hno Hho]; [by constructor|by eapply decides_host|].
          by destruct (Hho eq_refl prog r). }
      by apply below_allow, Hmax.
  - assert (~ segment p req parsed Forbidden) as Hnf by (intros Hs; by apply not_above_prompt, Hmax).
    pose proof (prompt_rejected_spec (req_approval_policy req) (by_rule p req parsed)
      (existsb rule_prompts (matched_rules ev))) as Hrej.
    rewrite Hms in *. specialize (Hrej (rule_prompts_spec _ _ _ _ _)).
    destruct (prompt_is_rejected_by_policy _ _) eqn:Er.
    + right. split; [done|]. intros Hx. by apply Hrej in Hx.
    + split_and!; [done..|]. by apply Hrej.
  - by left.
Qed.
End requirement_spec.

(** ** Dangerous commands *)

Lemma dangerous_decision parser command c :
  lit "zsh" ∉ tail command ->
  command_might_be_dangerous parser command = Ok true ->
  render_decision_for_unmatched_command parser command c =
  Ok (match approval_policy c, permission_profile c with
      | Never, Managed _ _ => Forbidden
      | Never, _ => Allow
      | _, _ => Prompt
      end).
Proof.
  intros Hz Hd. unfold render_decision_for_unmatched_command.
  destruct (known_safe_returns parser command) as [s Hs]. rewrite Hs. cbn [res_bind].
  destruct s.
  { by rewrite (safe_is_not_dangerous _ _ Hz Hs) in Hd. }
  cbn [andb]. rewrite Hd. cbn [res_bind orb]. by destruct (approval_policy c), (permission_profile c).
Qed.

Section amendments.
Context {M : Type} `{MultiMapLaws M}.
Context (home_dir current_dir : option path).
Implicit Types p : Policy M.

Notation matches_of p cmd f := (matches_for_command_with_options home_dir current_dir p cmd f host_options).

Lemma unruled_decides p cmd f d :
  ~ ruled_segment home_dir current_dir p cmd ->
  decides home_dir current_dir p host_options f cmd d <-> d = f cmd.
Proof.
  intros Hn. rewrite <- matches_decides.
  destruct (matches_cases home_dir current_dir p cmd f) as [(_ & E & _)|[Hr _]]; [|done].
  unfold host_options in *. rewrite E. cbn. by rewrite list_elem_of_singleton.
Qed.

(** A new allow rule only adds matches that allow. *)
Lemma host_matches_add p p' prefix cmd :
  add_prefix_rule p prefix Allow = Ok p' ->
  exists l, match_host_executable_rules home_dir current_dir p' cmd =
            match_host_executable_rules home_dir current_dir p cmd ++ l /\
            Forall (fun m => match_decision m = Allow) l.
Proof.
  destruct prefix as [|h tokens]; [done|]. cbn [add_prefix_rule]. intros [= <-].
  unfold match_host_executable_rules. cbn [rules_by_program host_executables_by_name].
  destruct cmd as [|raw args]; [by exists []|].
  destruct (from_absolute_path home_dir current_dir raw) as [prog|]; [|by exists []].
  destruct (executable_path_lookup_key prog) as [base|]; [|by exists []].
  rewrite mm_get_insert. destruct (decide (base = h)) as [->|Hne]; [|exists []; by rewrite app_nil_r].
  set (rule := mk_rule (mk_pattern h (Single <$> tokens)) Allow None).
  set (new := (fun m => with_resolved_program m prog) <$> omap (fun r => rule_matches r (h :: args)) [rule]).
  assert (Forall (fun m => match_decision m = Allow) new) as Hnew.
  { apply Forall_forall. intros m Hm. apply list_elem_of_fmap in Hm as (m' & -> & Hm).
    apply list_elem_of_omap in Hm as (r & ->%list_elem_of_singleton & Hr).
    apply rule_matches_decision in Hr as (pre & -> & _). done. }
  destruct (match host_executables_by_name p !! h with Some _ => _ | None => true end);
    [|exists []; split; [by destruct (mm_get_vec _ h)|done]].
  exists new. split; [|done]. destruct (mm_get_vec (rules_by_program p) h) as [rs|]; cbn [default].
  - by rewrite omap_app, fmap_app.
  - done.
Qed.

Lemma add_allow_matches p p' prefix cmd f m :
  add_prefix_rule p prefix Allow = Ok p' ->
  m ∈ matches_of p' cmd (Some f) -> match_decision m = Allow \/ m ∈ matches_of p cmd (Some f).
Proof.
  intros Hadd. rewrite !matches_unfold. cbn [resolve_host_executables host_options].
  pose proof (exact_matches_add p p' prefix Allow cmd Hadd) as He. unfold exact_matches in He. rewrite He.
  destruct (host_matches_add p p' prefix cmd Hadd) as (l & Hh & Hl). rewrite Hh. rewrite Forall_forall in Hl.
  set (new := if decide (prefix `prefix_of` cmd) then _ else _).
  assert (forall m, m ∈ new -> match_decision m = Allow) as Hnew.
  { unfold new. intros m'. case_decide; [|by intros ?%not_elem_of_nil]. by intros ->%list_elem_of_singleton. }
  destruct (default [] (match_exact_rules p cmd)) as [|e es]; cbn [app].
  - destruct new as [|x xs]; [|intros Hm; left; by apply Hnew].
    destruct (match_host_executable_rules home_dir current_dir p cmd) as [|y ys]; cbn [app].
    + destruct l as [|z zs]; [by right|]. intros Hm. left. by apply Hl.
    + rewrite app_comm_cons. intros [Hm|Hm]%elem_of_app; [by right|left; by apply Hl].
  - rewrite app_comm_cons. intros [Hm|Hm]%elem_of_app; [by right|left; by apply Hnew].
Qed.

Lemma add_allow_covers p p' prefix cmd f m :
  add_prefix_rule p prefix Allow = Ok p' -> prefix `prefix_of` cmd ->
  ~ ruled_segment home_dir current_dir p cmd ->
  m ∈ matches_of p' cmd (Some f) -> match_decision m = Allow.
Proof.
  intros Hadd Hpre Hn. rewrite matches_unfold.
  pose proof (exact_matches_add p p' prefix Allow cmd Hadd) as He. unfold exact_matches in He. rewrite He.
  rewrite decide_True by done.
  rewrite (proj2 (exact_none p cmd)) by (intros r Hr; apply Hn; left; by exists r).
  by intros ->%list_elem_of_singleton.
Qed.

(** The number of commands that still ask. *)
Definition asks p f (cmd : list str) : bool :=
  existsb (fun m => bool_decide (match_decision m = Prompt)) (matches_of p cmd (Some f)).

Definition asking p f (cmds : list (list str)) : nat := length (List.filter (asks p f) cmds).

Lemma asks_spec p f cmd :
  asks p f cmd = true <-> exists m, m ∈ matches_of p cmd (Some f) /\ match_decision m = Prompt.
Proof.
  unfold asks. rewrite existsb_exists. setoid_rewrite <- list_elem_of_In. by setoid_rewrite bool_decide_eq_true.
Qed.

Lemma filter_shrinks {A} (f g : A -> bool) l x :
  (forall y, g y = true -> f y = true) -> x ∈ l -> f x = true -> g x = false ->
  length (List.filter g l) < length (List.filter f l).
Proof.
  intros Hgf Hx Hf Hg.
  assert (forall l, length (List.filter g l) <= length (List.filter f l)) as Hle.
  { intros k. induction k as [|y k IH]; [done|]. cbn [List.filter].
    destruct (g y) eqn:E; [rewrite (Hgf y E)|destruct (f y)]; cbn [length]; lia. }
  induction l as [|y l IH]; [by apply not_elem_of_nil in Hx|]. cbn [List.filter].
  apply elem_of_cons in Hx as [<-|Hx].
  - rewrite Hf, Hg. cbn [length]. specialize (Hle l). lia.
  - specialize (IH Hx). destruct (g y) eqn:E; [rewrite (Hgf y E)|destruct (f y)]; cbn [length]; lia.
Qed.
End amendments.

Lemma first_heuristics_elem d ms a : first_heuristics d ms = Some a -> HeuristicsRuleMatch a d ∈ ms.
Proof.
  unfold first_heuristics. intros Hh. apply head_Some_elem_of, list_elem_of_omap in Hh as (m & Hm & Hf).
  destruct m as [|c d']; [done|]. case_bool_decide; by simplify_eq.
Qed.

Lemma first_heuristics_some d ms a : HeuristicsRuleMatch a d ∈ ms -> is_Some (first_heuristics d ms).
Proof.
  intros Hm. unfold first_heuristics.
  destruct (head _) eqn:E; [by eexists|]. apply head_None in E. exfalso.
  assert (a ∉ ([] : list ExecPolicyAmendment)) as Hn by apply not_elem_of_nil.
  apply Hn. rewrite <- E. apply list_elem_of_omap. eexists. split; [exact Hm|]. cbn. by rewrite bool_decide_true.
Qed.

Section amendment_progress.
Context {M : Type} `{MultiMapLaws M}.
Context (home_dir current_dir : option path).
Implicit Types p : Policy M.

Notation matches_of p cmd f := (matches_for_command_with_options home_dir current_dir p cmd f host_options).
Notation all_matches p f cmds := (cmds ≫= (fun c => matches_of p c (Some f))).

Lemma heuristics_unruled p f cmds a d :
  HeuristicsRuleMatch a d ∈ all_matches p f cmds ->
  a ∈ cmds /\ ~ ruled_segment home_dir current_dir p a /\ d = f a.
Proof.
  intros (cmd & Hm & Hc)%list_elem_of_bind.
  destruct (matches_cases home_dir current_dir p cmd f) as [(Hn & E & _)|(_ & E & _ & Hall)];
    unfold host_options in *; rewrite E in Hm.
  - apply list_elem_of_singleton in Hm. by injection Hm as -> ->.
  - rewrite Forall_forall in Hall. by apply Hall in Hm.
Qed.

(** Without a rule that asks, what asks is a command of its own. *)
Lemma prompt_proposes p f cmds :
  segment_decision home_dir current_dir p f cmds Prompt ->
  ~ prompted_by_rule home_dir current_dir p f cmds ->
  exists a, try_derive_execpolicy_amendment_for_prompt_rules (all_matches p f cmds) = Some a /\
    HeuristicsRuleMatch a Prompt ∈ all_matches p f cmds.
Proof.
  intros Hs Hno. unfold try_derive_execpolicy_amendment_for_prompt_rules.
  destruct (existsb rule_prompts (all_matches p f cmds)) eqn:E.
  { by apply rule_prompts_spec in E. }
  apply segments_spec, list_elem_of_fmap in Hs as (m & Hd & Hm).
  assert (exists c, m = HeuristicsRuleMatch c Prompt) as [c ->].
  { destruct m as [pre d res j|c d]; cbn in Hd; subst d; [|by exists c].
    exfalso. apply Hno, rule_prompts_spec, existsb_exists.
    eexists. split; [by apply list_elem_of_In|done]. }
  destruct (first_heuristics_some Prompt _ c Hm) as [a Ha]. exists a. split; [done|]. by apply first_heuristics_elem.
Qed.

(** Allowing such a command leaves fewer that ask, and brings no new ones. *)
Lemma amendment_progress p p' f cmds a :
  HeuristicsRuleMatch a Prompt ∈ all_matches p f cmds -> add_prefix_rule p a Allow = Ok p' ->
  asking home_dir current_dir p' f cmds < asking home_dir current_dir p f cmds /\
  (~ segment_decision home_dir current_dir p f cmds Forbidden ->
   ~ segment_decision home_dir current_dir p' f cmds Forbidden) /\
  (~ prompted_by_rule home_dir current_dir p f cmds -> ~ prompted_by_rule home_dir current_dir p' f cmds).
Proof.
  intros Hm Hadd. pose proof (heuristics_unruled _ _ _ _ _ Hm) as (Ha & Hn & Hf). split_and!.
  - apply (filter_shrinks _ _ cmds a).
    + intros c (m & Hin & Hp)%asks_spec. apply asks_spec.
      apply (add_allow_matches _ _ _ _ _ _ _ _ Hadd) in Hin as [Hal|Hin]; [by rewrite Hal in Hp|by exists m].
    + done.
    + apply asks_spec. exists (HeuristicsRuleMatch a Prompt). split; [|done].
      destruct (matches_cases home_dir current_dir p a f) as [(_ & E & _)|[Hr _]]; [|done].
      unfold host_options in *. rewrite E, <- Hf. by left.
    + apply not_true_iff_false. intros (m & Hin & Hp)%asks_spec.
      by rewrite (add_allow_covers _ _ _ _ _ _ _ _ Hadd (reflexivity a) Hn Hin) in Hp.
  - intros Hno Hs. apply Hno. rewrite <- segments_spec, list_elem_of_fmap in Hs |- *.
    destruct Hs as (m & Hd & (c & Hin & Hc)%list_elem_of_bind).
    apply (add_allow_matches _ _ _ _ _ _ _ _ Hadd) in Hin as [Hal|Hin]; [by rewrite Hal in Hd|].
    exists m. split; [done|]. apply list_elem_of_bind. by exists c.
  - intros Hno. rewrite <- !rule_prompts_spec, !existsb_exists in *. setoid_rewrite <- list_elem_of_In.
    setoid_rewrite <- list_elem_of_In in Hno.
    intros (m & (c & Hin & Hc)%list_elem_of_bind & Hr). apply Hno.
    apply (add_allow_matches _ _ _ _ _ _ _ _ Hadd) in Hin as [Hal|Hin].
    + unfold rule_prompts in Hr. rewrite Hal in Hr. by rewrite andb_false_r in Hr.
    + exists m. split; [|done]. apply list_elem_of_bind. by exists c.
Qed.
End amendment_progress.

(** ** The guard of the shell handler ([tools/handlers/shell.rs])

    A call that asks for a sandbox of its own is answered with an error unless
    the policy is on-request or the permissions were granted before. *)
Definition escalation_rejected (policy : AskForApproval) (perms : SandboxPermissions)
    (permissions_preapproved : bool) : bool :=
  requests_sandbox_override perms && negb permissions_preapproved
  && negb (match policy with OnRequest => true | _ => false end).

(** In a restricted profile an unmatched command that asks to leave the sandbox
    is never allowed silently, once it passed the guard. *)
Lemma escalated_decision parser cmd req complex :
  escalation_rejected (req_approval_policy req) RequireEscalated false = false ->
  req_sandbox_permissions req = RequireEscalated ->
  is_restricted (file_system_sandbox_policy (req_permission_profile req)) = true ->
  exec_policy_fallback parser req complex cmd <> Allow.
Proof.
  unfold escalation_rejected, exec_policy_fallback. intros Hg Hp Hr. cbn in Hg.
  destruct (req_approval_policy req) eqn:Ea; try done.
  unfold render_decision_for_unmatched_command, request_context.
  destruct (known_safe_returns parser cmd) as [s ->]. destruct (dangerous_returns parser cmd) as [b ->].
  cbn. rewrite Ea, Hp. cbn. rewrite andb_false_r. destruct b; cbn; [done|].
  unfold is_restricted in Hr. apply bool_decide_eq_true in Hr. by rewrite Hr.
Qed.

Section approval_claims.
Context {M : Type} `{MultiMapLaws M}.
Context (home_dir current_dir : option path).
Context (parser : str -> option Tree) (try_join : list str -> option str).
Implicit Types p : Policy M.

Notation create p req := (create_exec_approval_requirement_for_command home_dir current_dir parser try_join p req).

(** C17: the requirement is always computed and is the strictest decision on
    the commands the call is made of: the call runs without asking exactly when
    every rule that matches and every heuristic allows, outside the sandbox only
    if a rule matches each command; the user is asked only when nothing forbids
    and the approval policy lets that kind of prompt be shown; everything else
    is refused. *)
Theorem approval_verdict p req :
  exists parsed r, commands_for_exec_policy parser (req_command req) = Ok parsed /\
    create p req = Ok r /\ requirement_meets home_dir current_dir parser p req parsed r.
Proof. apply requirement_spec. Qed.

(** A command on the dangerous list that no rule speaks about, alone or
    inside a script, never runs unasked under a managed profile, and is refused
    when prompts are turned off. *)
Theorem dangerous_needs_consent p req parsed cmd r :
  commands_for_exec_policy parser (req_command req) = Ok parsed -> cmd ∈ commands parsed ->
  ~ ruled_segment home_dir current_dir p cmd ->
  command_might_be_dangerous parser cmd = Ok true -> lit "zsh" ∉ tail cmd ->
  is_managed (req_permission_profile req) = true -> create p req = Ok r ->
  match req_approval_policy req with
  | Never => exists reason, r = Refused reason
  | _ => (exists reason, r = Refused reason) \/ exists reason a, r = NeedsApproval reason a
  end.
Proof.
  intros Hp Hc Hn Hd Hz Hm Hr.
  destruct (requirement_spec home_dir current_dir parser try_join p req) as (parsed' & r' & Hp' & Hr' & Hmeets).
  rewrite Hp in Hp'. rewrite Hr in Hr'. injection Hp' as <-. injection Hr' as <-.
  set (d := match req_approval_policy req with Never => Forbidden | _ => Prompt end).
  assert (exec_policy_fallback parser req (complex_parsing parsed) cmd = d) as Hf.
  { unfold exec_policy_fallback. rewrite (dangerous_decision _ _ _ Hz Hd). cbn.
    unfold d. by destruct (req_permission_profile req); [destruct (req_approval_policy req)|..]. }
  assert (segment_decision home_dir current_dir p (exec_policy_fallback parser req (complex_parsing parsed))
            (commands parsed) d) as Hs.
  { exists cmd. split; [done|]. by apply unruled_decides; rewrite ?Hf. }
  destruct r as [b a|reason a|reason]; cbn in Hmeets.
  - destruct Hmeets as [Hall _]. apply Hall in Hs. by destruct (req_approval_policy req).
  - destruct Hmeets as (_ & Hnf & Hperm). destruct (req_approval_policy req); eauto; done.
  - destruct (req_approval_policy req); eauto.
Qed.

(** An amendment that the model asks for and that is proposed to the user
    is not one of the banned prefixes, and once it is added the same call runs
    without asking. *)
Theorem requested_amendment_settles p req parsed ev a :
  commands_for_exec_policy parser (req_command req) = Ok parsed ->
  check_multiple_with_options home_dir current_dir p (commands parsed)
    (exec_policy_fallback parser req (complex_parsing parsed)) host_options = Ok ev ->
  derive_requested_execpolicy_amendment_from_prefix_rule home_dir current_dir (req_prefix_rule req)
    (matched_rules ev) p (commands parsed)
    (exec_policy_fallback parser req (complex_parsing parsed)) host_options = Some a ->
  a ∉ BANNED_PREFIX_SUGGESTIONS /\
  exists p', add_prefix_rule p a Allow = Ok p' /\ exists b a', create p' req = Ok (Skip b a').
Proof.
  intros Hp _ Hder. unfold derive_requested_execpolicy_amendment_from_prefix_rule in Hder.
  destruct (req_prefix_rule req) as [[|t ts]|]; cbn [mbind option_bind] in Hder; try done.
  destruct (is_banned (t :: ts)) eqn:Eb; [done|]. destruct (existsb is_policy_match _); [done|].
  destruct (prefix_rule_would_approve_all_commands _ _ _ _ _ _ _) eqn:Ea; [|done]. injection Hder as <-.
  split.
  { intros Hin. apply not_true_iff_false in Eb. apply Eb. unfold is_banned. apply existsb_exists.
    exists (t :: ts). split; [by apply list_elem_of_In|]. by apply bool_decide_eq_true. }
  unfold prefix_rule_would_approve_all_commands in Ea.
  destruct (add_prefix_rule p (t :: ts) Allow) as [p'| | |] eqn:Eadd; try done.
  exists p'. split; [done|]. rewrite forallb_forall in Ea. setoid_rewrite <- list_elem_of_In in Ea.
  destruct (requirement_spec home_dir current_dir parser try_join p' req) as (parsed' & r & Hp' & Hr & Hmeets).
  rewrite Hp in Hp'. injection Hp' as <-.
  assert (forall d, segment_decision home_dir current_dir p'
            (exec_policy_fallback parser req (complex_parsing parsed)) (commands parsed) d -> d = Allow) as Hall.
  { intros d (cmd & Hc & Hd). specialize (Ea cmd Hc). unfold check_with_options in Ea.
    destruct (from_matches _) as [e| | |] eqn:Ee; try done. apply bool_decide_eq_true in Ea.
    apply from_matches_strictest in Ee as [[_ Hmax] _]. rewrite Ea in Hmax.
    apply below_allow, Hmax, matches_decides. exact Hd. }
  destruct r as [b a'|reason a'|reason]; cbn in Hmeets; [by exists b, a'| |].
  - destruct Hmeets as [Hs _]. by apply Hall in Hs.
  - destruct Hmeets as [Hs|[Hs _]]; by apply Hall in Hs.
Qed.

(** Under a restricted profile, a call that passed the handler's guard and
    runs without asking leaves the sandbox on its first attempt only if every
    command of it is matched by rules that all allow it, and never when the
    profile denies some reads. *)
Theorem unasked_unsandboxed_is_ruled p req parsed b a :
  escalation_rejected (req_approval_policy req) (req_sandbox_permissions req) false = false ->
  is_restricted (file_system_sandbox_policy (req_permission_profile req)) = true ->
  commands_for_exec_policy parser (req_command req) = Ok parsed ->
  create p req = Ok (Skip b a) ->
  sandbox_override_for_first_attempt (req_sandbox_permissions req) (Skip b a)
    (file_system_sandbox_policy (req_permission_profile req)) = BypassSandboxFirstAttempt ->
  has_denied_read_restrictions (file_system_sandbox_policy (req_permission_profile req)) = false /\
  forall cmd, cmd ∈ commands parsed ->
    ruled_segment home_dir current_dir p cmd /\
    forall f d, decides home_dir current_dir p host_options f cmd d -> d = Allow.
Proof.
  intros Hg Hrest Hp Hr Hov.
  destruct (requirement_spec home_dir current_dir parser try_join p req) as (parsed' & r' & Hp' & Hr' & Hmeets).
  rewrite Hp in Hp'. rewrite Hr in Hr'. injection Hp' as <-. injection Hr' as <-. destruct Hmeets as [Hall Hb].
  unfold sandbox_override_for_first_attempt, unsandboxed_execution_allowed in Hov. rewrite negb_involutive in Hov.
  destruct (has_denied_read_restrictions _); [done|]. split; [done|].
  assert (forall cmd, cmd ∈ commands parsed -> ruled_segment home_dir current_dir p cmd) as Hruled.
  { destruct b; [by apply Hb|]. destruct (req_sandbox_permissions req) eqn:Es; cbn in Hov; try done.
    intros cmd Hc. destruct (matches_cases home_dir current_dir p cmd
      (exec_policy_fallback parser req (complex_parsing parsed))) as [[Hn _]|[Hy _]]; [|done]. exfalso.
    apply (escalated_decision parser cmd req (complex_parsing parsed) Hg Es Hrest), Hall.
    exists cmd. split; [done|]. by apply unruled_decides. }
  intros cmd Hc. split; [by apply Hruled|]. intros f d Hd. apply Hall. exists cmd. split; [done|].
  apply matches_decides in Hd. apply matches_decides.
  destruct (matches_cases home_dir current_dir p cmd f) as [[Hn _]|(_ & E1 & _)];
    [by destruct (Hn (Hruled cmd Hc))|].
  destruct (matches_cases home_dir current_dir p cmd (exec_policy_fallback parser req (complex_parsing parsed)))
    as [[Hn _]|(_ & E2 & _)]; [by destruct (Hn (Hruled cmd Hc))|].
  rewrite E1 in Hd. by rewrite E2.
Qed.
End approval_claims.

(** ** Witnesses *)

Notation demo_create p req :=
  (create_exec_approval_requirement_for_command (M:=gmap str (list PrefixRule)) None None
     (fun _ => Some sample_tree_ls) (fun _ => None) p req).

Definition read_only_profile : PermissionProfile :=
  Managed (ManagedRestricted [mk_entry (Special Root) Read] None) NetRestricted.

Definition demo_request (cmd : string) (policy : AskForApproval) (perms : SandboxPermissions)
    (prefix_rule : option (list str)) : ExecApprovalRequest :=
  mk_request (words cmd) policy read_only_profile WindowsDisabled perms prefix_rule.

Example requirement_examples :
  demo_create (demo_rules []) (demo_request "rm -rf build" OnRequest UseDefault None)
    = Ok (NeedsApproval None (Some (words "rm -rf build"))) /\
  demo_create (demo_rules []) (demo_request "rm -rf build" Never UseDefault None)
    = Ok (Refused (lit "`rm -rf build` rejected: blocked by policy")) /\
  demo_create (demo_rules [(words "make", Allow)]) (demo_request "make all" UnlessTrusted UseDefault None)
    = Ok (Skip true None) /\
  demo_create (demo_rules [(words "make", Prompt)]) (demo_request "make all" OnRequest UseDefault None)
    = Ok (NeedsApproval (Some (lit "`make all` requires approval by policy")) None).
Proof. by vm_compute. Qed.

Lemma dangerous_needs_consent_witness :
  exists reason, demo_create (demo_rules []) (demo_request "rm -rf build" Never UseDefault None)
    = Ok (Refused reason).
Proof.
  pose (req := demo_request "rm -rf build" Never UseDefault None).
  destruct (demo_create (demo_rules []) req) as [r| | |] eqn:E; [|by vm_compute in E..].
  destruct (dangerous_needs_consent None None (fun _ => Some sample_tree_ls) (fun _ => None) (demo_rules []) req
    (mk_commands [words "rm -rf build"] false) (words "rm -rf build") r) as [reason ->].
  - by vm_compute.
  - by left.
  - intros Hr. destruct (matches_cases None None (demo_rules []) (words "rm -rf build") (fun _ => Allow))
      as [[Hn _]|(_ & _ & Hne & _)]; [by apply Hn|]. apply Hne. by vm_compute.
  - by vm_compute.
  - by apply (bool_decide_unpack _); vm_compute.
  - reflexivity.
  - exact E.
  - by exists reason.
Defined.

Lemma requested_amendment_settles_witness :
  exists p', add_prefix_rule (demo_rules []) (words "cargo test") Allow = Ok p' /\
  exists b a', demo_create p' (demo_request "cargo test -q" UnlessTrusted UseDefault (Some (words "cargo test")))
    = Ok (Skip b a').
Proof.
  pose (req := demo_request "cargo test -q" UnlessTrusted UseDefault (Some (words "cargo test"))).
  destruct (requested_amendment_settles None None (fun _ => Some sample_tree_ls) (fun _ => None)
    (demo_rules []) req (mk_commands [words "cargo test -q"] false)
    (mk_evaluation Prompt [HeuristicsRuleMatch (words "cargo test -q") Prompt]) (words "cargo test"))
    as [_ Hs]; [by vm_compute..|exact Hs].
Defined.

Lemma unasked_unsandboxed_is_ruled_witness :
  ruled_segment None None (demo_rules [(words "make", Allow)]) (words "make all").
Proof.
  pose (req := demo_request "make all" OnRequest RequireEscalated None).
  destruct (unasked_unsandboxed_is_ruled None None (fun _ => Some sample_tree_ls) (fun _ => None)
    (demo_rules [(words "make", Allow)]) req (mk_commands [words "make all"] false) true None)
    as [_ Hall]; [by vm_compute..|]. destruct (Hall (words "make all")) as [Hr _]; [by left|exact Hr].
Defined.

Lemma approval_verdict_witness :
  exists parsed r,
    commands_for_exec_policy (fun _ => Some sample_tree_ls) (words "make all") = Ok parsed /\
    demo_create (demo_rules [(words "make", Allow)]) (demo_request "make all" OnRequest UseDefault None) = Ok r /\
    requirement_meets None None (fun _ => Some sample_tree_ls) (demo_rules [(words "make", Allow)])
      (demo_request "make all" OnRequest UseDefault None) parsed r.
Proof.
  apply (approval_verdict None None (fun _ => Some sample_tree_ls) (fun _ => None)
    (demo_rules [(words "make", Allow)]) (demo_request "make all" OnRequest UseDefault None)).
Defined.
