(* ===== verification/PolicyManager.v ===== *)
(** * The execution policy of a session ([core/src/exec_policy.rs], [config/])

    Which policy a session runs under: the rules files of the configuration
    layers ([load_exec_policy]), the managed rules of [requirements.toml] laid
    over them ([requirements_exec_policy.rs]), and the amendments a user accepts,
    written to the rules file and added to the policy in memory. *)

From S2P Require Export PolicyBuilder Amend.
From S2P Require Export Approval.

(** ** Managed rules ([config/src/requirements_exec_policy.rs]) *)

Record RequirementsExecPolicyPatternTokenToml := mk_token_toml {
  token : option str;
  any_of : option (list str)
}.

Inductive RequirementsExecPolicyDecisionToml := TomlAllow | TomlPrompt | TomlForbidden.

Definition as_decision (d : RequirementsExecPolicyDecisionToml) : Decision :=
  match d with TomlAllow => Allow | TomlPrompt => Prompt | TomlForbidden => Forbidden end.

Record RequirementsExecPolicyPrefixRuleToml := mk_rule_toml {
  toml_pattern : list RequirementsExecPolicyPatternTokenToml;
  toml_decision : option RequirementsExecPolicyDecisionToml;
  toml_justification : option str
}.

Inductive RequirementsExecPolicyParseError :=
| EmptyPrefixRules
| EmptyPattern (rule_index : nat)
| InvalidPatternToken (rule_index token_index : nat) (reason : str)
| EmptyJustification (rule_index : nat)
| MissingDecision (rule_index : nat)
| AllowDecisionNotAllowed (rule_index : nat).

Definition requirements_pattern_token (t : RequirementsExecPolicyPatternTokenToml)
    (rule_index token_index : nat) : res RequirementsExecPolicyParseError PatternToken :=
  match token t, any_of t with
  | Some single, None =>
    if is_empty (trim single)
    then Err (InvalidPatternToken rule_index token_index (lit "token cannot be empty"))
    else Ok (Single single)
  | None, Some alternatives =>
    match alternatives with
    | [] => Err (InvalidPatternToken rule_index token_index (lit "any_of cannot be empty"))
    | _ =>
      if existsb (fun alt => is_empty (trim alt)) alternatives
      then Err (InvalidPatternToken rule_index token_index (lit "any_of cannot include empty tokens"))
      else Ok (Alts alternatives)
    end
  | Some _, Some _ =>
    Err (InvalidPatternToken rule_index token_index (lit "set either token or any_of, not both"))
  | None, None => Err (InvalidPatternToken rule_index token_index (lit "set either token or any_of"))
  end.

Fixpoint requirements_pattern (ts : list RequirementsExecPolicyPatternTokenToml)
    (rule_index token_index : nat) : res RequirementsExecPolicyParseError (list PatternToken) :=
  match ts with
  | [] => Ok []
  | t :: ts =>
    let? token := requirements_pattern_token t rule_index token_index in
    let? tokens := requirements_pattern ts rule_index (S token_index) in
    Ok (token :: tokens)
  end.

(** The body of the loop up to the insertions: the tokens and the decision. *)
Definition requirements_rule (r : RequirementsExecPolicyPrefixRuleToml) (rule_index : nat)
    : res RequirementsExecPolicyParseError (PatternToken * list PatternToken * Decision) :=
  if blank_justification (toml_justification r) then Err (EmptyJustification rule_index)
  else
    match toml_pattern r with
    | [] => Err (EmptyPattern rule_index)
    | pattern =>
      let? pattern_tokens := requirements_pattern pattern rule_index 0 in
      let? decision :=
        match toml_decision r with
        | Some TomlAllow => Err (AllowDecisionNotAllowed rule_index)
        | Some decision => Ok (as_decision decision)
        | None => Err (MissingDecision rule_index)
        end in
      match pattern_tokens with
      | [] => Err (EmptyPattern rule_index)
      | first_token :: remaining_tokens => Ok (first_token, remaining_tokens, decision)
      end
    end.

Section requirements.
Context {M : Type} `{MultiMap M}.

Fixpoint requirements_rules (m : M) (rules : list RequirementsExecPolicyPrefixRuleToml) (rule_index : nat)
    : res RequirementsExecPolicyParseError M :=
  match rules with
  | [] => Ok m
  | rule :: rest =>
    let? x := requirements_rule rule rule_index in
    let '(first_token, remaining_tokens, decision) := x in
    requirements_rules
      (foldl (fun m head =>
         mm_insert m head (mk_rule (mk_pattern head remaining_tokens) decision (toml_justification rule)))
         m (alternatives first_token))
      rest (S rule_index)
  end.

Definition to_policy (prefix_rules : list RequirementsExecPolicyPrefixRuleToml)
    : res RequirementsExecPolicyParseError (Policy M) :=
  match prefix_rules with
  | [] => Err EmptyPrefixRules
  | _ =>
    let? rules_by_program := requirements_rules mm_new prefix_rules 0 in
    Ok (policy_new rules_by_program)
  end.
End requirements.

(** ** Configuration layers ([config/src/state.rs]) *)

Inductive ConfigLayerSource :=
| Mdm (domain key : str)
| System (file : path)
| EnterpriseManaged (id name : str)
| User (file : path) (profile : option str)
| Project (dot_codex_folder : path)
| SessionFlags
| LegacyManagedConfigTomlFromFile (file : path)
| LegacyManagedConfigTomlFromMdm.

Record ConfigLayerEntry := mk_layer { layer_name : ConfigLayerSource; disabled_reason : option str }.

Definition is_disabled (l : ConfigLayerEntry) : bool :=
  match disabled_reason l with Some _ => true | None => false end.

Definition config_folder (l : ConfigLayerEntry) : option path :=
  match layer_name l with
  | System file | User file _ => parent file
  | Project dot_codex_folder => Some dot_codex_folder
  | Mdm _ _ | EnterpriseManaged _ _ | SessionFlags
  | LegacyManagedConfigTomlFromFile _ | LegacyManagedConfigTomlFromMdm => None
  end.

Inductive ConfigLayerStackOrdering := LowestPrecedenceFirst | HighestPrecedenceFirst.

(** What the loading of rules reads of a stack. *)
Record ConfigLayerStack (M : Type) := mk_stack {
  layers : list ConfigLayerEntry;
  requirements_exec_policy : option (Policy M);
  ignore_user_and_project_exec_policy_rules : bool
}.
Arguments mk_stack {M}.
Arguments layers {M}.
Arguments requirements_exec_policy {M}.
Arguments ignore_user_and_project_exec_policy_rules {M}.

Definition get_layers {M} (s : ConfigLayerStack M) (ordering : ConfigLayerStackOrdering)
    (include_disabled : bool) : list ConfigLayerEntry :=
  let layers := List.filter (fun l => include_disabled || negb (is_disabled l)) (layers s) in
  match ordering with HighestPrecedenceFirst => reverse layers | LowestPrecedenceFirst => layers end.

(** ** Rules files *)

Definition RULES_DIR_NAME : str := lit "rules".
Definition RULE_EXTENSION : str := lit "rules".
Definition DEFAULT_POLICY_FILE : str := lit "default.rules".

Definition default_policy_path (codex_home : path) : path :=
  path_join (path_join codex_home [Normal RULES_DIR_NAME]) [Normal DEFAULT_POLICY_FILE].

(** [Path::extension]: what follows the last dot of a name, unless the name
    starts with its only dot. *)
Definition extension (p : path) : option str :=
  name ← file_name p;
  match rsplit_once DOT name with
  | Some ([], _) | None => None
  | Some (_, ext) => Some ext
  end.

(** The order of [Path]: components from the left. *)
Definition component_leb (a b : component) : bool :=
  let '(i, s) := component_code a in
  let '(j, t) := component_code b in
  (i <? j) || ((i =? j) && str_leb s t).

Fixpoint path_leb (p q : path) : bool :=
  match p, q with
  | [], _ => true
  | _ :: _, [] => false
  | c :: p, d :: q => if bool_decide (c = d) then path_leb p q else component_leb c d
  end.

Fixpoint insert_path (x : path) (l : list path) : list path :=
  match l with
  | [] => [x]
  | y :: l' => if path_leb x y then x :: l else y :: insert_path x l'
  end.

Definition sort_paths (l : list path) : list path := foldr insert_path [] l.

Inductive file_error := NotFound | OtherError (message : str).

(** A directory read: an entry has a name, and its type may not be readable. *)
Record RulesFs := mk_rules_fs {
  read_dir : path -> res file_error (list (res file_error (str * res file_error bool)));
  read_rules : path -> res file_error str
}.

Inductive ExecPolicyError :=
| ReadDirError (dir : path) (source : file_error)
| ReadFileError (file : path) (source : file_error)
| ParsePolicyError (file : str) (source : Error).

Definition with_source {E F A} (f : E -> F) (r : res E A) : res F A :=
  match r with Ok a => Ok a | Err e => Err (f e) | Panic => Panic | NoFuel => NoFuel end.

Definition is_rules_file (p : path) (is_file : bool) : bool :=
  match extension p with Some ext => str_eqb ext RULE_EXTENSION && is_file | None => false end.

Fixpoint policy_entries (dir : path) (items : list (res file_error (str * res file_error bool)))
    (policy_paths : list path) : res ExecPolicyError (list path) :=
  match items with
  | [] => Ok policy_paths
  | item :: rest =>
    let? entry := with_source (ReadDirError dir) item in
    let p := path_join dir [Normal entry.1] in
    let? is_file := with_source (ReadDirError dir) entry.2 in
    policy_entries dir rest (if is_rules_file p is_file then policy_paths ++ [p] else policy_paths)
  end.

Definition collect_policy_files (fs : RulesFs) (dir : path) : res ExecPolicyError (list path) :=
  match read_dir fs dir with
  | Err NotFound => Ok []
  | read =>
    let? items := with_source (ReadDirError dir) read in
    let? policy_paths := policy_entries dir items [] in
    Ok (sort_paths policy_paths)
  end.

Section loading.
Context {M : Type} `{MultiMap M}.
Context (home_dir current_dir : option path).
Context (shlex_split : str -> option (list str)) (try_join : list str -> option str).
Context (debug_rule : PrefixRule -> str) (debug_match : RuleMatch -> str).
Context (current_dir_error : str) (starlark_message : Error -> str).
Context (starlark : str -> str -> str + module_run).
Context (fs : RulesFs).

Notation parse_file := (parse home_dir current_dir shlex_split try_join debug_rule debug_match
  current_dir_error starlark_message starlark).

(** The [continue] of the loop over the layers. *)
Definition layer_ignored (s : ConfigLayerStack M) (l : ConfigLayerEntry) : bool :=
  ignore_user_and_project_exec_policy_rules s
  && match layer_name l with User _ _ | Project _ => true | _ => false end.

Fixpoint layer_paths (s : ConfigLayerStack M) (ls : list ConfigLayerEntry) (policy_paths : list path)
    : res ExecPolicyError (list path) :=
  match ls with
  | [] => Ok policy_paths
  | l :: ls =>
    if layer_ignored s l then layer_paths s ls policy_paths
    else
      match config_folder l with
      | None => layer_paths s ls policy_paths
      | Some folder =>
        let? found := collect_policy_files fs (path_join folder [Normal RULES_DIR_NAME]) in
        layer_paths s ls (policy_paths ++ found)
      end
  end.

Fixpoint parse_files (b : PolicyBuilder) (paths : list path) : res ExecPolicyError (PolicyBuilder (M:=M)) :=
  match paths with
  | [] => Ok b
  | policy_path :: paths =>
    let? contents := with_source (ReadFileError policy_path) (read_rules fs policy_path) in
    let identifier := display policy_path in
    let '(b, r) := parse_file b identifier contents in
    let? _ := with_source (ParsePolicyError identifier) r in
    parse_files b paths
  end.

Definition load_exec_policy (s : ConfigLayerStack M) : res ExecPolicyError (Policy M) :=
  let? policy_paths := layer_paths s (get_layers s LowestPrecedenceFirst false) [] in
  let? b := parse_files builder_new policy_paths in
  let policy := build b in
  match requirements_exec_policy s with
  | None => Ok policy
  | Some requirements_policy => Ok (merge_overlay policy requirements_policy)
  end.

Definition load_exec_policy_with_warning (s : ConfigLayerStack M)
    : res ExecPolicyError (Policy M * option ExecPolicyError) :=
  match load_exec_policy s with
  | Ok policy => Ok (policy, None)
  | Err (ParsePolicyError file source) => Ok (policy_empty, Some (ParsePolicyError file source))
  | Err err => Err err
  | Panic => Panic
  | NoFuel => NoFuel
  end.

Definition check_execpolicy_for_warnings (s : ConfigLayerStack M)
    : res ExecPolicyError (option ExecPolicyError) :=
  let? loaded := load_exec_policy_with_warning s in Ok loaded.2.
End loading.

(** ** Accepting amendments ([ExecPolicyManager])

    The updates of one manager are serialised by its semaphore; the policy in
    memory and the rules file are its state. *)

Record ExecPolicyManager (M : Type) := mk_manager { policy : Policy M; rules_file : Disk }.
Arguments mk_manager {M}.
Arguments policy {M}.
Arguments rules_file {M}.

Inductive ExecPolicyUpdateError :=
| AppendRule (file : path) (source : AmendError)
| AddRule (source : Error).

Section updates.
Context {M : Type} `{MultiMap M}.
Context (home_dir current_dir : option path).
Context (io : AmendStep -> option io_fault) (to_json : str -> option str) (error_message : Error -> str).

(** Whether the policy already allows the command by a rule. *)
Definition already_allowed (p : Policy M) (command : list str) : bool :=
  match check_multiple_with_options home_dir current_dir p [command] (fun _ => Forbidden) host_options with
  | Ok e => bool_decide (decision e = Allow) && existsb rule_allows (matched_rules e)
  | _ => false
  end.

Definition append_amendment_and_update (mgr : ExecPolicyManager M) (codex_home : path)
    (amendment : ExecPolicyAmendment) : ExecPolicyManager M * res ExecPolicyUpdateError unit :=
  let policy_path := default_policy_path codex_home in
  match blocking_append_allow_prefix_rule io to_json policy_path (rules_file mgr) amendment with
  | (disk, inr source) => (mk_manager (policy mgr) disk, Err (AppendRule policy_path source))
  | (disk, inl _) =>
    if already_allowed (policy mgr) amendment then (mk_manager (policy mgr) disk, Ok tt)
    else
      match add_prefix_rule (policy mgr) amendment Allow with
      | Ok updated_policy => (mk_manager updated_policy disk, Ok tt)
      | Err source => (mk_manager (policy mgr) disk, Err (AddRule source))
      | Panic => (mk_manager (policy mgr) disk, Panic)
      | NoFuel => (mk_manager (policy mgr) disk, NoFuel)
      end
  end.

Definition append_network_rule_and_update (mgr : ExecPolicyManager M) (codex_home : path) (host : str)
    (protocol : NetworkRuleProtocol) (decision : Decision) (justification : option str)
    : ExecPolicyManager M * res ExecPolicyUpdateError unit :=
  let policy_path := default_policy_path codex_home in
  match blocking_append_network_rule io to_json error_message policy_path (rules_file mgr) host protocol
          decision justification with
  | (disk, inr source) => (mk_manager (policy mgr) disk, Err (AppendRule policy_path source))
  | (disk, inl _) =>
    match add_network_rule (policy mgr) host protocol decision justification with
    | Ok updated_policy => (mk_manager updated_policy disk, Ok tt)
    | Err source => (mk_manager (policy mgr) disk, Err (AddRule source))
    | Panic => (mk_manager (policy mgr) disk, Panic)
    | NoFuel => (mk_manager (policy mgr) disk, NoFuel)
    end
  end.
End updates.

(** ** Amendments settle *)

Lemma append_line_ok io policy_path d line :
  (forall step, io step = None) -> is_Some (parent policy_path) ->
  exists d', append_rule_line io policy_path d line = (d', inl tt).
Proof.
  intros Hio [dir Hdir]. unfold append_rule_line, append_locked_line, write_all. rewrite Hdir, !Hio.
  destruct (existsb _ _); [by eexists|]. cbn [policy_file default].
  destruct (default [] (policy_file d)) as [|c t]; [by eexists|].
  destruct (ends_with [NL] (c :: t)); by eexists.
Qed.

Lemma default_path_parent codex_home : is_Some (parent (default_policy_path codex_home)).
Proof.
  unfold default_policy_path. set (dir := path_join codex_home _).
  assert (path_join dir [Normal DEFAULT_POLICY_FILE] = dir ++ [Normal DEFAULT_POLICY_FILE]) as -> by done.
  unfold parent. rewrite last_snoc. by eexists.
Qed.

Section settling.
Context {M : Type} `{MultiMapLaws M}.
Context (home_dir current_dir : option path).
Context (parser : str -> option Tree) (try_join : list str -> option str).
Context (io : AmendStep -> option io_fault) (to_json : str -> option str) (codex_home : path).
Implicit Types mgr : ExecPolicyManager M.

Notation create p req := (create_exec_approval_requirement_for_command home_dir current_dir parser try_join p req).
Notation fallback_of req := (exec_policy_fallback parser req false).
Notation update mgr a := (append_amendment_and_update home_dir current_dir io to_json mgr codex_home a).

(** The user accepts what is proposed, and the call is judged again. *)
Fixpoint approve_rounds (rounds : nat) mgr (req : ExecApprovalRequest)
    : ExecPolicyManager M * res Empty_set ExecApprovalRequirement :=
  match rounds with
  | 0 => (mgr, create (policy mgr) req)
  | S rounds =>
    match create (policy mgr) req with
    | Ok (NeedsApproval _ (Some amendment)) => approve_rounds rounds (update mgr amendment).1 req
    | requirement => (mgr, requirement)
    end
  end.

Lemma not_yet_allowed p a :
  ~ ruled_segment home_dir current_dir p a -> already_allowed home_dir current_dir p a = false.
Proof.
  intros Hn. unfold already_allowed, check_multiple_with_options. cbn [mbind list_bind].
  destruct (matches_cases home_dir current_dir p a (fun _ => Forbidden)) as [(_ & -> & _)|[Hr _]]; done.
Qed.

Lemma update_ok mgr a :
  (forall step, io step = None) -> (forall s, is_Some (to_json s)) -> a <> [] ->
  ~ ruled_segment home_dir current_dir (policy mgr) a ->
  exists p' disk, add_prefix_rule (policy mgr) a Allow = Ok p' /\ update mgr a = (mk_manager p' disk, Ok tt).
Proof.
  intros Hio Hjson Ha Hn. unfold append_amendment_and_update, blocking_append_allow_prefix_rule.
  destruct a as [|t ts]; [done|].
  assert (is_Some (mapM to_json (t :: ts))) as [tokens Ht] by (apply mapM_is_Some, Forall_forall; auto).
  rewrite Ht. destruct (append_line_ok io (default_policy_path codex_home) (rules_file mgr)
    (prefix_rule_line tokens) Hio (default_path_parent codex_home)) as [disk Hd].
  rewrite Hd, (not_yet_allowed _ _ Hn). cbn [add_prefix_rule]. by eexists _, disk.
Qed.

(** Without rules that ask or forbid and with prompts shown, a call is allowed
    or proposes one of its commands that asks. *)
Lemma proposes_or_skips p req cmds :
  commands_for_exec_policy parser (req_command req) = Ok (mk_commands cmds false) ->
  req_prefix_rule req = None -> prompt_permitted (req_approval_policy req) False ->
  ~ segment_decision home_dir current_dir p (fallback_of req) cmds Forbidden ->
  ~ prompted_by_rule home_dir current_dir p (fallback_of req) cmds ->
  (exists b a, create p req = Ok (Skip b a)) \/
  exists reason a, create p req = Ok (NeedsApproval reason (Some a)) /\
    HeuristicsRuleMatch a Prompt ∈
      cmds ≫= (fun c => matches_for_command_with_options home_dir current_dir p c (Some (fallback_of req)) host_options).
Proof.
  intros Hc Hpre Hperm Hnf Hno.
  destruct (requirement_spec home_dir current_dir parser try_join p req) as (parsed & r & Hp & Hr & Hmeets).
  rewrite Hc in Hp. injection Hp as <-. cbn in Hmeets.
  destruct r as [b a|reason a|reason]; [left; by exists b, a|right|].
  - destruct Hmeets as (Hs & _). destruct (prompt_proposes _ _ _ _ _ Hs Hno) as (a' & Ha & Hin).
    exists reason, a'. split; [|done]. rewrite Hr. do 2 f_equal.
    unfold create_exec_approval_requirement_for_command in Hr. rewrite Hc, Hpre in Hr.
    cbn [res_bind commands complex_parsing negb] in Hr.
    destruct (check_segments home_dir current_dir p (fallback_of req) cmds) as (ev & Hev & Hms & _).
    { intros ->. by destruct Hs as (? & ?%not_elem_of_nil & _). }
    unfold host_options in *. rewrite Hev in Hr. cbn [res_bind] in Hr. rewrite Hms in Hr.
    cbn [commands complex_parsing] in Ha. unfold host_options in *. rewrite Ha in Hr. cbn in Hr. injection Hr as Hr. by repeat case_match; simplify_eq.
  - exfalso. destruct Hmeets as [Hs|[_ Hn]]; [done|]. apply Hn.
    destruct (req_approval_policy req); try done. cbn in *. split; [done|]. intros _. apply (proj2 Hperm). tauto.
Qed.

Lemma rounds_settle cmds req rounds : forall mgr,
  (forall step, io step = None) -> (forall s, is_Some (to_json s)) ->
  commands_for_exec_policy parser (req_command req) = Ok (mk_commands cmds false) -> [] ∉ cmds ->
  req_prefix_rule req = None -> prompt_permitted (req_approval_policy req) False ->
  ~ segment_decision home_dir current_dir (policy mgr) (fallback_of req) cmds Forbidden ->
  ~ prompted_by_rule home_dir current_dir (policy mgr) (fallback_of req) cmds ->
  asking home_dir current_dir (policy mgr) (fallback_of req) cmds <= rounds ->
  exists mgr' b a, approve_rounds rounds mgr req = (mgr', Ok (Skip b a)).
Proof.
  induction rounds as [|rounds IH]; intros mgr Hio Hjson Hc Hne Hpre Hperm Hnf Hno Hle; cbn [approve_rounds];
    destruct (proposes_or_skips (policy mgr) req cmds Hc Hpre Hperm Hnf Hno) as [(b & a & ->)|(reason & a & -> & Hin)];
    try (by exists mgr, b, a);
    destruct (heuristics_unruled _ _ _ _ _ _ _ Hin) as (Ha & Hn & Hf).
  - exfalso. destruct (add_prefix_rule (policy mgr) a Allow) as [p'| | |] eqn:Eadd; try (by destruct a).
    destruct (amendment_progress _ _ _ _ _ _ _ Hin Eadd) as [Hlt _]. lia.
  - destruct (update_ok mgr a Hio Hjson) as (p' & disk & Hadd & Hup); [by intros ->|done|].
    destruct (amendment_progress _ _ _ _ _ _ _ Hin Hadd) as (Hlt & Hnf' & Hno').
    rewrite Hup. cbn [fst]. apply IH; try done; cbn [policy]; [by apply Hnf'|by apply Hno'|lia].
Qed.
End settling.

(** ** Managed rules hold *)

(** A word at the position of a token, and a command a managed rule is about. *)
Definition toml_accepts (t : RequirementsExecPolicyPatternTokenToml) (w : str) : Prop :=
  token t = Some w \/ exists alts, any_of t = Some alts /\ w ∈ alts.

Definition toml_covers (r : RequirementsExecPolicyPrefixRuleToml) (cmd : list str) : Prop :=
  exists pre extra, cmd = pre ++ extra /\ Forall2 toml_accepts (toml_pattern r) pre.

Lemma requirements_token_spec t i j pt w :
  requirements_pattern_token t i j = Ok pt -> toml_accepts t w -> w ∈ alternatives pt.
Proof.
  unfold requirements_pattern_token, toml_accepts. intros Ht [Hw|(alts & Ha & Hw)].
  - rewrite Hw in Ht. destruct (any_of t); [done|]. case_match; [done|]. injection Ht as <-. by left.
  - rewrite Ha in Ht. destruct (token t); [done|]. destruct alts; [done|]. case_match; [done|]. by injection Ht as <-.
Qed.

Lemma requirements_pattern_spec ts i : forall j pts pre,
  requirements_pattern ts i j = Ok pts -> Forall2 toml_accepts ts pre ->
  Forall2 (fun pt w => w ∈ alternatives pt) pts pre.
Proof.
  induction ts as [|t ts IH]; intros j pts pre Hp Hf; cbn in Hp.
  - injection Hp as <-. apply Forall2_nil_inv_l in Hf as ->. constructor.
  - apply bind_Ok in Hp as (pt & Ht & Hp). apply bind_Ok in Hp as (pts' & Hps & Hp). injection Hp as <-.
    apply Forall2_cons_inv_l in Hf as (w & pre' & Hw & Hf & ->).
    constructor; [by eapply requirements_token_spec|by eapply IH].
Qed.

Section managed.
Context {M : Type} `{MultiMapLaws M}.

Lemma foldl_insert_rules (mk : str -> PrefixRule) heads : forall (m : M) k r,
  r ∈ default [] (mm_get_vec m k) \/ (k ∈ heads /\ r = mk k) ->
  r ∈ default [] (mm_get_vec (foldl (fun m h => mm_insert m h (mk h)) m heads) k).
Proof.
  induction heads as [|h heads IH]; intros m k r Hr; cbn [foldl].
  { by destruct Hr as [Hr|[?%not_elem_of_nil _]]. }
  apply IH. rewrite mm_get_insert. destruct Hr as [Hr|[[->|Hk]%elem_of_cons ->]].
  - left. case_decide as E; [|done]. subst h. cbn. apply elem_of_app. by left.
  - left. rewrite decide_True by done. cbn. apply elem_of_app. right. by left.
  - right. done.
Qed.

Lemma requirements_rules_keep rules : forall (m m' : M) i k r,
  requirements_rules m rules i = Ok m' -> r ∈ default [] (mm_get_vec m k) -> r ∈ default [] (mm_get_vec m' k).
Proof.
  induction rules as [|rt rules IH]; intros m m' i k r Hm Hr; cbn [requirements_rules] in Hm.
  { by injection Hm as <-. }
  apply bind_Ok in Hm as ([[ft rest] d] & _ & Hm). eapply IH; [exact Hm|].
  apply (foldl_insert_rules (fun h => mk_rule (mk_pattern h rest) d (toml_justification rt))). by left.
Qed.

(** Each managed rule is in the policy, with its decision. *)
Lemma requirements_rules_in rules rt cmd : forall (m m' : M) i,
  requirements_rules m rules i = Ok m' -> rt ∈ rules -> toml_covers rt cmd ->
  exists d name args r, toml_decision rt = Some d /\ d <> TomlAllow /\ cmd = name :: args /\
    r ∈ default [] (mm_get_vec m' name) /\ rule_decision r = as_decision d /\ fits r cmd.
Proof.
  induction rules as [|rt' rules IH]; intros m m' i Hm Hin Hcov; [by apply not_elem_of_nil in Hin|].
  cbn [requirements_rules] in Hm. apply bind_Ok in Hm as ([[ft rest] dec] & Hr & Hm).
  apply elem_of_cons in Hin as [<-|Hin]; [|by eapply IH].
  unfold requirements_rule in Hr. destruct (blank_justification _); [done|].
  destruct Hcov as (pre & extra & -> & Hf).
  destruct (toml_pattern rt) as [|t ts]; [done|].
  apply bind_Ok in Hr as (pts & Hpts & Hr). apply bind_Ok in Hr as (d' & Hd & Hr).
  destruct pts as [|pt pts]; [done|]. injection Hr as -> -> ->.
  apply (requirements_pattern_spec _ _ _ _ _ Hpts) in Hf.
  apply Forall2_cons_inv_l in Hf as (name & args & Hname & Hargs & ->).
  assert (exists d, toml_decision rt = Some d /\ d <> TomlAllow /\ dec = as_decision d) as (d & Hdec & Hna & ->).
  { destruct (toml_decision rt) as [[]|]; try done; injection Hd as <-; by eexists. }
  exists d, name, (args ++ extra), (mk_rule (mk_pattern name rest) (as_decision d) (toml_justification rt)).
  split_and!; [done..| |done|].
  - eapply requirements_rules_keep; [exact Hm|].
    apply (foldl_insert_rules (fun h => mk_rule (mk_pattern h rest) (as_decision d) (toml_justification rt))).
    by right.
  - exists (name :: args), extra. split; [done|]. by exists args.
Qed.

Context (home_dir current_dir : option path).
Context (shlex_split : str -> option (list str)) (try_join : list str -> option str).
Context (debug_rule : PrefixRule -> str) (debug_match : RuleMatch -> str).
Context (current_dir_error : str) (starlark_message : Error -> str).
Context (starlark : str -> str -> str + module_run) (fs : RulesFs).
Context (parser : str -> option Tree).

Notation load s := (load_exec_policy home_dir current_dir shlex_split try_join debug_rule debug_match
  current_dir_error starlark_message starlark fs s).
Notation create p req := (create_exec_approval_requirement_for_command home_dir current_dir parser try_join p req).

(** A loaded policy has the managed rules, whatever the rules files say. *)
Lemma loaded_has_managed (s : ConfigLayerStack M) (q p : Policy M) toml rt cmd :
  to_policy toml = Ok q -> requirements_exec_policy s = Some q -> load s = Ok p ->
  rt ∈ toml -> toml_covers rt cmd ->
  exists d r, toml_decision rt = Some d /\ d <> TomlAllow /\
    exact_rule p cmd r /\ rule_decision r = as_decision d.
Proof.
  intros Hq Hs Hl Hin Hcov. unfold load_exec_policy in Hl. rewrite Hs in Hl.
  apply bind_Ok in Hl as (paths & _ & Hl). apply bind_Ok in Hl as (b & _ & Hl). injection Hl as <-.
  unfold to_policy in Hq. destruct toml as [|rt' toml]; [done|].
  apply bind_Ok in Hq as (m & Hm & Hq). injection Hq as <-.
  destruct (requirements_rules_in _ _ _ _ _ _ Hm Hin Hcov) as (d & name & args & r & Hd & Hna & -> & Hr & Hdec & Hf).
  exists d, r. split_and!; [done..| |done]. exists name, args. split_and!; [done| |done].
  rewrite rules_for_merge. apply elem_of_app. by right.
Qed.

(** C20: a managed rule of requirements.toml governs every command it covers in
    every session whose policy loads: no rules file, user or project, can let
    the command run unasked, and what the managed rules forbid is refused. *)
Theorem managed_rules_enforced (s : ConfigLayerStack M) (q p : Policy M) toml rt cmd req parsed r :
  to_policy toml = Ok q -> requirements_exec_policy s = Some q -> load s = Ok p ->
  rt ∈ toml -> toml_covers rt cmd ->
  commands_for_exec_policy parser (req_command req) = Ok parsed -> cmd ∈ commands parsed ->
  create p req = Ok r ->
  (toml_decision rt = Some TomlForbidden -> exists reason, r = Refused reason) /\
  forall b a, r <> Skip b a.
Proof.
  intros Hq Hs Hl Hin Hcov Hp Hc Hr.
  destruct (loaded_has_managed s q p toml rt cmd Hq Hs Hl Hin Hcov) as (d & rule & Hd & Hna & Hex & Hdec).
  destruct (requirement_spec home_dir current_dir parser try_join p req) as (parsed' & r' & Hp' & Hr' & Hmeets).
  rewrite Hp in Hp'. rewrite Hr in Hr'. injection Hp' as <-. injection Hr' as <-.
  assert (segment_decision home_dir current_dir p (exec_policy_fallback parser req (complex_parsing parsed))
            (commands parsed) (as_decision d)) as Hseg.
  { exists cmd. split; [done|]. rewrite <- Hdec. by constructor. }
  split.
  - rewrite Hd. intros [= ->]. destruct r as [b a|reason a|reason]; [| |by eexists].
    + destruct Hmeets as [Hall _]. by apply Hall in Hseg.
    + by destruct Hmeets as (_ & Hnf & _).
  - intros b a ->. destruct Hmeets as [Hall _]. apply Hall in Hseg. by destruct d.
Qed.
End managed.

Section settle_claim.
Context {M : Type} `{MultiMapLaws M}.
Context (home_dir current_dir : option path).
Context (parser : str -> option Tree) (try_join : list str -> option str).
Context (io : AmendStep -> option io_fault) (to_json : str -> option str) (codex_home : path).

(** C18: a user who accepts what is proposed is not asked for ever.  For a call
    whose script is read as plain commands, none of them empty and none with a
    heredoc, that names no prefix rule of its own, when no command is forbidden,
    by a rule or by the heuristics, no rule asks about one, and the approval
    policy lets prompts be shown, accepting at most as many proposed amendments
    as the call has commands makes it run without asking, provided that every
    step of writing the rules file succeeds and every word can be written as
    JSON. *)
Theorem amendments_settle (mgr : ExecPolicyManager M) req cmds :
  (forall step, io step = None) -> (forall s, is_Some (to_json s)) ->
  commands_for_exec_policy parser (req_command req) = Ok (mk_commands cmds false) -> [] ∉ cmds ->
  req_prefix_rule req = None -> prompt_permitted (req_approval_policy req) False ->
  ~ segment_decision home_dir current_dir (policy mgr) (exec_policy_fallback parser req false) cmds Forbidden ->
  ~ prompted_by_rule home_dir current_dir (policy mgr) (exec_policy_fallback parser req false) cmds ->
  exists mgr' b a,
    approve_rounds home_dir current_dir parser try_join io to_json codex_home (length cmds) mgr req
    = (mgr', Ok (Skip b a)).
Proof.
  intros. eapply rounds_settle; try done. apply List.filter_length_le.
Qed.
End settle_claim.

(** ** Witnesses *)

Notation demo_stack := (ConfigLayerStack (gmap str (list PrefixRule))).

Definition managed_toml : list RequirementsExecPolicyPrefixRuleToml :=
  [mk_rule_toml [mk_token_toml None (Some (words "curl wget"))] (Some TomlForbidden) None].

Definition managed_policy : Policy (gmap str (list PrefixRule)) :=
  match to_policy managed_toml with Ok q => q | _ => policy_empty end.

Definition user_layer : ConfigLayerEntry :=
  mk_layer (User (components (lit "/home/u/.codex/config.toml")) None) None.

Definition managed_stack : demo_stack := mk_stack [user_layer] (Some managed_policy) false.

(** A user layer with one rules file. *)
Definition one_file_fs : RulesFs :=
  mk_rules_fs (fun _ => Ok [Ok (lit "default.rules", Ok true); Ok (lit "notes.txt", Ok true)]) (fun _ => Ok []).

Definition demo_load (starlark : str -> str -> str + module_run) : res ExecPolicyError (Policy _ * option ExecPolicyError) :=
  load_exec_policy_with_warning None None demo_split (fun _ => None) (fun _ => []) (fun _ => []) []
    (fun _ => []) starlark one_file_fs managed_stack.

Lemma managed_rules_enforced_witness :
  exists p, load_exec_policy None None demo_split (fun _ => None) (fun _ => []) (fun _ => []) []
    (fun _ => []) (fun _ _ => inr (mk_run [] None)) one_file_fs managed_stack = Ok p /\
  exists reason, demo_create p (demo_request "curl example.com" OnRequest UseDefault None) = Ok (Refused reason).
Proof.
  pose (l := load_exec_policy None None demo_split (fun _ => None) (fun _ => []) (fun _ => []) []
    (fun _ => []) (fun _ _ => inr (mk_run [] None)) one_file_fs managed_stack).
  pose (p := match l with Ok p => p | _ => policy_empty end).
  assert (l = Ok p) as El by (vm_compute; reflexivity).
  exists p. split; [done|].
  destruct (requirement_spec None None (fun _ => Some sample_tree_ls) (fun _ => None) p
    (demo_request "curl example.com" OnRequest UseDefault None)) as (parsed & r & _ & Er & _).
  destruct (managed_rules_enforced None None demo_split (fun _ => None) (fun _ => []) (fun _ => []) []
    (fun _ => []) (fun _ _ => inr (mk_run [] None)) one_file_fs (fun _ => Some sample_tree_ls) managed_stack
    managed_policy p managed_toml (mk_rule_toml [mk_token_toml None (Some (words "curl wget"))] (Some TomlForbidden) None)
    (words "curl example.com") (demo_request "curl example.com" OnRequest UseDefault None)
    (mk_commands [words "curl example.com"] false) r) as [Hf _].
  - vm_compute. reflexivity.
  - done.
  - exact El.
  - by left.
  - exists [lit "curl"], [lit "example.com"]. split; [by vm_compute|].
    constructor; [|constructor]. right. eexists. split; [done|]. by left.
  - by vm_compute.
  - by left.
  - exact Er.
  - destruct (Hf eq_refl) as [reason Hr]. exists reason. by rewrite Er, Hr.
Defined.

(** A rules file that does not parse leaves the session with an empty policy:
    the managed rules are dropped with the broken file, and a command they
    forbid is allowed. *)
Example broken_rules_drop_managed_rules :
  demo_load (fun _ _ => inl (lit "parse error")) =
    Ok (policy_empty, Some (ParsePolicyError (lit "/home/u/.codex/rules/default.rules") (Starlark (lit "parse error")))) /\
  demo_create policy_empty (demo_request "curl example.com" OnRequest UseDefault None)
    = Ok (Skip false (Some (words "curl example.com"))) /\
  demo_create (merge_overlay policy_empty managed_policy) (demo_request "curl example.com" OnRequest UseDefault None)
    = Ok (Refused (lit "`curl example.com` rejected: policy forbids commands starting with `curl`")).
Proof. vm_compute. done. Qed.

Lemma amendments_settle_witness :
  exists mgr' b a,
    approve_rounds None None (fun _ => Some sample_tree_ls) (fun _ => None) (fun _ => None) Some
      [RootDir; Normal (lit "home")] 1 (mk_manager (demo_rules [(words "make", Prompt)]) (mk_disk false None))
      (demo_request "cargo test" UnlessTrusted UseDefault None)
    = (mgr', Ok (Skip b a)).
Proof.
  apply (amendments_settle None None (fun _ => Some sample_tree_ls) (fun _ => None) (fun _ => None) Some
    [RootDir; Normal (lit "home")] (mk_manager (demo_rules [(words "make", Prompt)]) (mk_disk false None))
    (demo_request "cargo test" UnlessTrusted UseDefault None) [words "cargo test"]).
  - done.
  - intros s. by exists s.
  - by vm_compute.
  - by apply (bool_decide_unpack _); vm_compute.
  - done.
  - done.
  - rewrite <- segments_spec. by apply (bool_decide_unpack _); vm_compute.
  - rewrite <- rule_prompts_spec. by vm_compute.
Defined.
