(* ===== verification/Orchestrator.v ===== *)
(** * Running a tool ([core/src/tools/orchestrator.rs])

    Approval, choice of the sandbox, first attempt, and a second attempt when
    the sandbox denied the first.  A run is a computation over the outside world
    that records what it does: the questions it asks, with their answers, and the
    attempts it makes.  The tool is a class; the laws are those of the default
    methods of the trait and of the runtimes that override them. *)

From S2P Require Export Approval.

(** ** Data *)

Inductive NetworkPolicyRuleAction := NetAllow | NetDeny.

Inductive ReviewDecision :=
| Approved
| ApprovedExecpolicyAmendment (proposed : ExecPolicyAmendment)
| ApprovedForSession
| NetworkPolicyAmendment (host : str) (action : NetworkPolicyRuleAction)
| Denied
| TimedOut
| Aborted.

Inductive NetworkPolicyDecision := PolicyDeny | PolicyAsk.
Inductive NetworkDecisionSource := BaselinePolicy | ModeGuard | ProxyState | Decider.

Record NetworkPolicyDecisionPayload := mk_payload {
  payload_decision : NetworkPolicyDecision;
  payload_source : NetworkDecisionSource;
  payload_protocol : option NetworkRuleProtocol;
  payload_host : option str
}.

Record NetworkApprovalContext := mk_network_context {
  context_host : str;
  context_protocol : NetworkRuleProtocol
}.

Definition is_ask_from_decider (p : NetworkPolicyDecisionPayload) : bool :=
  match payload_decision p, payload_source p with PolicyAsk, Decider => true | _, _ => false end.

Definition network_approval_context_from_payload (p : NetworkPolicyDecisionPayload)
    : option NetworkApprovalContext :=
  if negb (is_ask_from_decider p) then None
  else
    protocol ← payload_protocol p;
    host ← payload_host p;
    let host := trim host in
    if is_empty host then None else Some (mk_network_context host protocol).

(** The errors of a tool; those of the sandbox other than a denial are only told
    apart by the telemetry. *)
Inductive ToolError :=
| Rejected (reason : str)
| SandboxDenied (output : str) (network_policy_decision : option NetworkPolicyDecisionPayload)
| CodexError (message : str).

(** ** The sandbox ([sandboxing/src/manager.rs]) *)

Inductive SandboxType := NoSandbox | MacosSeatbelt | LinuxSeccomp | WindowsRestrictedToken.
Inductive SandboxablePreference := AutoSandbox | RequireSandbox | ForbidSandbox.
Inductive TargetOs := Macos | Linux | Windows | OtherOs.

Definition get_platform_sandbox (os : TargetOs) (windows_sandbox_enabled : bool) : option SandboxType :=
  match os with
  | Macos => Some MacosSeatbelt
  | Linux => Some LinuxSeccomp
  | Windows => if windows_sandbox_enabled then Some WindowsRestrictedToken else None
  | OtherOs => None
  end.

Definition should_require_platform_sandbox (fs : FileSystemSandboxPolicy) (network : NetworkSandboxPolicy)
    (has_managed_network_requirements : bool) : bool :=
  if has_managed_network_requirements then true
  else
    match network with
    | NetRestricted => negb (bool_decide (policy_kind fs = ExternalSandbox))
    | NetEnabled =>
      match policy_kind fs with
      | Restricted => negb (has_full_disk_write_access fs)
      | Unrestricted | ExternalSandbox => false
      end
    end.

Definition select_initial (os : TargetOs) (fs : FileSystemSandboxPolicy) (network : NetworkSandboxPolicy)
    (pref : SandboxablePreference) (level : WindowsSandboxLevel) (managed_network : bool) : SandboxType :=
  let platform :=
    default NoSandbox
      (get_platform_sandbox os (match level with WindowsDisabled => false | _ => true end)) in
  match pref with
  | ForbidSandbox => NoSandbox
  | RequireSandbox => platform
  | AutoSandbox =>
    if should_require_platform_sandbox fs network managed_network then platform else NoSandbox
  end.

Definition network_sandbox_policy (p : PermissionProfile) : NetworkSandboxPolicy :=
  match p with Managed _ network | External network => network | Disabled => NetEnabled end.

(** ** The world *)

(** What the user or the reviewer is shown. *)
Record ApprovalCtx := mk_approval_ctx {
  guardian : bool;
  retry_reason : option str;
  ctx_network : option NetworkApprovalContext
}.

Inductive PermissionRequestDecision := HookAllow | HookDeny (message : str).

Inductive Event :=
| EvHook (run_id : str) (answer : option PermissionRequestDecision)
| EvReview (ctx : ApprovalCtx) (answer : ReviewDecision)
| EvAttempt (sandbox : SandboxType) (denied : bool).

(** A run: a result or an error, the world left behind, and what happened. *)
Definition Run (W A : Type) : Type := W -> (A + ToolError) * W * list Event.

Definition ret {W A} (a : A) : Run W A := fun w => (inl a, w, []).
Definition fail {W A} (e : ToolError) : Run W A := fun w => (inr e, w, []).
Definition bind {W A B} (m : Run W A) (k : A -> Run W B) : Run W B := fun w =>
  match m w with
  | (inl a, w, t) => let '(r, w, t') := k a w in (r, w, t ++ t')
  | (inr e, w, t) => (inr e, w, t)
  end.

Notation "'let!' x ':=' e 'in' k" := (bind e (fun x => k))
  (at level 200, x pattern, e at level 100, k at level 200, right associativity).

(** ** Tools ([tools/sandboxing.rs]) *)

Record SandboxAttempt := mk_attempt {
  attempt_sandbox : SandboxType;
  enforce_managed_network : bool;
  attempt_linux_sandbox_exe : option path
}.

Inductive NetworkApprovalMode := Immediate | Deferred.

(** Whether the call has a network proxy, and how its approval is finished. *)
Record NetworkApprovalSpec := mk_network_spec { spec_network : bool; spec_mode : NetworkApprovalMode }.

(** The traits [Approvable], [Sandboxable] and [ToolRuntime]; [W] is the state
    that the asynchronous methods may change. *)
Class ToolRuntime (W Req Out : Type) := {
  tool_sandbox_permissions : Req -> SandboxPermissions;
  should_bypass_approval : AskForApproval -> bool -> bool;
  exec_approval_requirement : Req -> option ExecApprovalRequirement;
  has_permission_request_payload : Req -> bool;
  wants_no_sandbox_approval : AskForApproval -> bool;
  start_approval_async : Req -> ApprovalCtx -> W -> ReviewDecision * W;
  sandbox_preference : SandboxablePreference;
  network_approval_spec : Req -> option NetworkApprovalSpec;
  escalate_on_failure : bool;
  tool_run : Req -> SandboxAttempt -> W -> (Out + ToolError) * W
}.

(** The default methods of the trait, and the override of [apply_patch]. *)
Definition default_should_bypass_approval (policy : AskForApproval) (already_approved : bool) : bool :=
  if already_approved then true else match policy with Never => true | _ => false end.

Definition default_wants_no_sandbox_approval (policy : AskForApproval) : bool :=
  match policy with
  | OnFailure | UnlessTrusted => true
  | Never | OnRequest => false
  | Granular g => sandbox_approval g
  end.

Definition patch_wants_no_sandbox_approval (policy : AskForApproval) : bool :=
  match policy with
  | Never => false
  | Granular g => sandbox_approval g
  | OnFailure | OnRequest | UnlessTrusted => true
  end.

(** What the runtimes have in common. *)
Class ToolRuntimeLaws (W Req Out : Type) `{ToolRuntime W Req Out} := {
  bypass_law policy approved :
    should_bypass_approval policy approved = default_should_bypass_approval policy approved;
  wants_never : wants_no_sandbox_approval Never = false;
  wants_granular g : wants_no_sandbox_approval (Granular g) = sandbox_approval g
}.

(** The other services of the session that a run talks to. *)
Record Services (W : Type) := mk_services {
  permission_hooks : str -> W -> option PermissionRequestDecision * W;
  register_call : W -> W;
  finish_call : W -> option ToolError * W;
  guardian_rejection_message : W -> str * W;
  guardian_timeout_message : str
}.
Arguments permission_hooks {W}.
Arguments register_call {W}.
Arguments finish_call {W}.
Arguments guardian_rejection_message {W}.
Arguments guardian_timeout_message {W}.

Record TurnContext := mk_turn {
  turn_profile : PermissionProfile;
  turn_windows_sandbox_level : WindowsSandboxLevel;
  turn_network : bool;
  turn_call_id : str;
  turn_linux_sandbox_exe : option path;
  strict_auto_review : bool;
  routes_to_guardian : bool
}.

Definition is_denied {A} (r : A + ToolError) : bool :=
  match r with inr (SandboxDenied _ _) => true | _ => false end.

Section orchestrator.
Context {W Req Out : Type} `{ToolRuntime W Req Out}.
Context (os : TargetOs) (services : Services W).

(** The mode of the registered call, if there is one. *)
Definition begin_network_approval (managed_network_active : bool) (spec : option NetworkApprovalSpec) (w : W)
    : option NetworkApprovalMode * W :=
  match spec with
  | None => (None, w)
  | Some spec =>
    if negb managed_network_active || negb (spec_network spec) then (None, w)
    else (Some (spec_mode spec), register_call services w)
  end.

(** A result with whether a deferred network approval is left open. *)
Definition run_attempt (req : Req) (attempt : SandboxAttempt) (managed_network_active : bool)
    : W -> ((Out + ToolError) * bool) * W * list Event := fun w =>
  let '(network_approval, w) := begin_network_approval managed_network_active (network_approval_spec req) w in
  let '(run_result, w) := tool_run req attempt w in
  let '(answer, w) :=
    match network_approval with
    | None => (run_result, false, w)
    | Some Immediate =>
      let '(finalize_result, w) := finish_call services w in
      match finalize_result with
      | Some err => (inr err, false, w)
      | None => (run_result, false, w)
      end
    | Some Deferred =>
      match run_result with
      | inr _ =>
        let '(finalize_result, w) := finish_call services w in
        match finalize_result with
        | Some err => (inr err, false, w)
        | None => (run_result, false, w)
        end
      | inl _ => (run_result, true, w)
      end
    end in
  (answer, w, [EvAttempt (attempt_sandbox attempt) (is_denied answer.1)]).

Definition request_approval (req : Req) (run_id : str) (ctx : ApprovalCtx)
    (evaluate_permission_request_hooks : bool) : Run W ReviewDecision := fun w =>
  let ask w t :=
    let '(decision, w) := start_approval_async req ctx w in
    (inl decision, w, t ++ [EvReview ctx decision]) in
  if evaluate_permission_request_hooks && has_permission_request_payload req then
    let '(answer, w) := permission_hooks services run_id w in
    match answer with
    | Some HookAllow => (inl Approved, w, [EvHook run_id answer])
    | Some (HookDeny message) => (inr (Rejected message), w, [EvHook run_id answer])
    | None => ask w [EvHook run_id answer]
    end
  else ask w [].

Definition reject_if_not_approved (guardian_review : bool) (decision : ReviewDecision) : Run W unit :=
  match decision with
  | Denied | Aborted => fun w =>
    let '(reason, w) :=
      if guardian_review then guardian_rejection_message services w else (lit "rejected by user", w) in
    (inr (Rejected reason), w, [])
  | TimedOut => fail (Rejected (guardian_timeout_message services))
  | Approved | ApprovedExecpolicyAmendment _ | ApprovedForSession => ret tt
  | NetworkPolicyAmendment _ NetAllow => ret tt
  | NetworkPolicyAmendment _ NetDeny => fail (Rejected (lit "rejected by user"))
  end.

(** Asking, and stopping unless the answer is yes. *)
Definition approve (req : Req) (run_id : str) (ctx : ApprovalCtx) (hooks : bool) : Run W unit :=
  let! decision := request_approval req run_id ctx hooks in
  reject_if_not_approved (guardian ctx) decision.

Definition build_denial_reason_from_output (output : str) : str :=
  lit "command failed; retry without sandbox?".

(** Step 1: whether the call was approved by someone. *)
Definition approval_step (req : Req) (turn : TurnContext) (requirement : ExecApprovalRequirement)
    : Run W bool :=
  let use_guardian := routes_to_guardian turn || strict_auto_review turn in
  match requirement with
  | Skip _ _ =>
    if strict_auto_review turn then
      let! _ := approve req (turn_call_id turn) (mk_approval_ctx true None None) false in ret true
    else ret false
  | Refused reason => fail (Rejected reason)
  | NeedsApproval reason _ =>
    let! _ := approve req (turn_call_id turn) (mk_approval_ctx use_guardian reason None)
                (negb (strict_auto_review turn)) in
    ret true
  end.

Definition lift_attempt (m : W -> ((Out + ToolError) * bool) * W * list Event) : Run W (Out * bool) := fun w =>
  let '((r, deferred), w, t) := m w in
  (match r with inl out => inl (out, deferred) | inr e => inr e end, w, t).

Definition sandbox_for (turn : TurnContext) : SandboxType :=
  select_initial os (file_system_sandbox_policy (turn_profile turn))
    (network_sandbox_policy (turn_profile turn)) sandbox_preference (turn_windows_sandbox_level turn)
    (turn_network turn).

(** Whether a denied first attempt ends the run: the early returns of the
    branch, in their order. *)
Definition gives_up (turn : TurnContext) (approval_policy : AskForApproval)
    (network_policy_decision : option NetworkPolicyDecisionPayload)
    (network_approval_context : option NetworkApprovalContext) : bool :=
  let fs := file_system_sandbox_policy (turn_profile turn) in
  let asks_network := match network_approval_context with Some _ => true | None => false end in
  (match network_policy_decision with Some _ => true | None => false end && negb asks_network)
  || negb escalate_on_failure
  || (negb (wants_no_sandbox_approval approval_policy)
      && negb (match approval_policy with OnRequest => true | _ => false end && asks_network
               && match default_exec_approval_requirement approval_policy fs with
                  | NeedsApproval _ _ => true | _ => false end))
  || (negb (unsandboxed_execution_allowed fs) && negb asks_network).

(** The second attempt, after a denial by the sandbox. *)
Definition retry_step (req : Req) (turn : TurnContext) (approval_policy : AskForApproval)
    (already_approved : bool) (output : str)
    (network_policy_decision : option NetworkPolicyDecisionPayload) : Run W (Out * bool) :=
  let fs := file_system_sandbox_policy (turn_profile turn) in
  let network_approval_context :=
    if turn_network turn then network_policy_decision ≫= network_approval_context_from_payload else None in
  if gives_up turn approval_policy network_policy_decision network_approval_context
  then fail (SandboxDenied output network_policy_decision)
  else
    let retry_reason :=
      match network_approval_context with
      | Some c => lit "Network access to " ++ [DQUOTE] ++ context_host c ++ [DQUOTE] ++ lit " is blocked by policy."
      | None => build_denial_reason_from_output output
      end in
    let bypass_retry_approval :=
      negb (strict_auto_review turn) && should_bypass_approval approval_policy already_approved
      && match network_approval_context with None => true | Some _ => false end in
    let use_guardian := routes_to_guardian turn || strict_auto_review turn in
    let! _ :=
      if bypass_retry_approval then ret tt
      else approve req (turn_call_id turn ++ lit ":retry")
             (mk_approval_ctx use_guardian (Some retry_reason) network_approval_context)
             (negb (strict_auto_review turn)) in
    let retry_attempt :=
      if unsandboxed_execution_allowed fs then mk_attempt NoSandbox (turn_network turn) None
      else mk_attempt (sandbox_for turn) (turn_network turn) (turn_linux_sandbox_exe turn) in
    lift_attempt (run_attempt req retry_attempt (turn_network turn)).

Definition initial_attempt (req : Req) (turn : TurnContext) (requirement : ExecApprovalRequirement)
    : SandboxAttempt :=
  let fs := file_system_sandbox_policy (turn_profile turn) in
  mk_attempt
    (match sandbox_override_for_first_attempt (tool_sandbox_permissions req) requirement fs with
     | BypassSandboxFirstAttempt => NoSandbox
     | NoOverride => sandbox_for turn
     end) (turn_network turn) (turn_linux_sandbox_exe turn).

Definition requirement_of (req : Req) (turn : TurnContext) (approval_policy : AskForApproval)
    : ExecApprovalRequirement :=
  match exec_approval_requirement req with
  | Some requirement => requirement
  | None =>
    default_exec_approval_requirement approval_policy (file_system_sandbox_policy (turn_profile turn))
  end.

Definition orchestrate (req : Req) (turn : TurnContext) (approval_policy : AskForApproval)
    : Run W (Out * bool) :=
  let requirement := requirement_of req turn approval_policy in
  let! already_approved := approval_step req turn requirement in
  fun w =>
    let '((first_result, deferred), w, t) :=
      run_attempt req (initial_attempt req turn requirement) (turn_network turn) w in
    match first_result with
    | inl out => (inl (out, deferred), w, t)
    | inr (SandboxDenied output network_policy_decision) =>
      let '(r, w, t') :=
        retry_step req turn approval_policy already_approved output network_policy_decision w in
      (r, w, t ++ t')
    | inr err => (inr err, w, t)
    end.
End orchestrator.

(** ** What a run may do *)

Definition approves (d : ReviewDecision) : bool :=
  match d with
  | Approved | ApprovedExecpolicyAmendment _ | ApprovedForSession | NetworkPolicyAmendment _ NetAllow => true
  | _ => false
  end.

(** An answer that lets the call go on. *)
Definition says_yes (e : Event) : Prop :=
  match e with
  | EvHook _ (Some HookAllow) => True
  | EvReview _ d => approves d = true
  | _ => False
  end.

Definition consent (t : list Event) : Prop := Exists says_yes t.

Definition question (e : Event) : Prop := match e with EvAttempt _ _ => False | _ => True end.

(** Only questions. *)
Definition questions (t : list Event) : Prop := Forall question t.

Section orchestrator_proofs.
Context {W Req Out : Type} `{ToolRuntimeLaws W Req Out}.
Context (os : TargetOs) (services : Services W).

Notation fs_of turn := (file_system_sandbox_policy (turn_profile turn)).

(** Asking leaves a trace of questions; going on means that one was answered yes. *)
Lemma approve_trace req id ctx hooks w r w' t :
  approve services req id ctx hooks w = (r, w', t) ->
  questions t /\ t <> [] /\ match r with inl _ => consent t | inr e => exists reason, e = Rejected reason end.
Proof.
  unfold approve, bind, request_approval.
  assert (forall hs w0, questions hs ->
    (let '(r, w, t) := (let '(decision, w) := start_approval_async req ctx w0 in
                        (@inl _ ToolError decision, w, hs ++ [EvReview ctx decision])) in
     match r with
     | inl d => let '(r, w, t') := reject_if_not_approved services (guardian ctx) d w in (r, w, t ++ t')
     | inr e => (inr e, w, t)
     end) = (r, w', t) ->
    questions t /\ t <> [] /\ match r with inl _ => consent t | inr e => exists reason, e = Rejected reason end)
    as Hask.
  { intros hs w0 Hhs. destruct (start_approval_async req ctx w0) as [d w1].
    assert (questions (hs ++ [EvReview ctx d])) as Hq by (apply Forall_app; by repeat constructor).
    assert (hs ++ [EvReview ctx d] <> []) as Hne by (by destruct hs).
    assert (approves d = true -> consent (hs ++ [EvReview ctx d])) as Hyes.
    { intros Hd. apply Exists_app. right. by constructor. }
    unfold reject_if_not_approved, ret, fail.
    destruct d as [| | |h [|]| | |]; try (destruct (guardian ctx); [destruct (guardian_rejection_message services w1)|]);
      rewrite ?app_nil_r; intros [= <- <- <-]; split_and!; eauto. }
  destruct (hooks && has_permission_request_payload req).
  - destruct (permission_hooks services id w) as [[[|message]|] w1].
    + cbn. intros [= <- <- <-]. split_and!; [by repeat constructor|done|by constructor].
    + intros [= <- <- <-]. split_and!; [by repeat constructor|done|eauto].
    + intros Hr. apply (Hask [EvHook id None] w1); [by repeat constructor|exact Hr].
  - intros Hr. apply (Hask [] w); [constructor|exact Hr].
Qed.

(** What must have been answered before the first attempt. *)
Definition first_allowed turn (requirement : ExecApprovalRequirement) (t : list Event) : Prop :=
  match requirement with
  | Skip _ _ => if strict_auto_review turn then consent t else t = []
  | NeedsApproval _ _ => consent t
  | Refused _ => False
  end.

(** Whether someone is asked before the first attempt. *)
Definition asks_first turn (requirement : ExecApprovalRequirement) : Prop :=
  match requirement with
  | Skip _ _ => strict_auto_review turn = true
  | NeedsApproval _ _ => True
  | Refused _ => False
  end.

Lemma approval_step_trace req turn requirement w r w' t :
  approval_step services req turn requirement w = (r, w', t) ->
  questions t /\ (t <> [] -> asks_first turn requirement) /\
  match r with
  | inl approved => first_allowed turn requirement t /\ (approved = true -> consent t)
  | inr e => exists reason, e = Rejected reason
  end.
Proof.
  unfold approval_step, first_allowed, asks_first, bind.
  assert (forall ctx hooks, 
    (let '(r, w, t) := approve services req (turn_call_id turn) ctx hooks w in
     match r with inl _ => (inl true, w, t ++ []) | inr e => (inr e, w, t) end) = (r, w', t) ->
    questions t /\ match r with inl b => b = true /\ consent t | inr e => exists reason, e = Rejected reason end) as Hap.
  { intros ctx hooks. destruct (approve services req (turn_call_id turn) ctx hooks w) as [[r0 w0] t0] eqn:E.
    apply approve_trace in E as (Hq & _ & Hc).
    destruct r0 as [u|e]; rewrite ?app_nil_r; intros [= <- <- <-]; by split. }
  destruct requirement as [b a|reason a|reason].
  - destruct (strict_auto_review turn).
    + intros Hr. apply (Hap (mk_approval_ctx true None None) false) in Hr as [Hq Hc]. split_and!; [done..|].
      destruct r; [|done]. by destruct Hc.
    + intros [= <- <- <-]. split_and!; [constructor|done..].
  - intros Hr. apply Hap in Hr as [Hq Hc]. split_and!; [done..|]. destruct r; [|done]. by destruct Hc.
  - intros [= <- <- <-]. split_and!; [constructor|done|eauto].
Qed.

Lemma run_attempt_trace req attempt managed w r deferred w' t :
  run_attempt services req attempt managed w = (r, deferred, w', t) ->
  t = [EvAttempt (attempt_sandbox attempt) (is_denied r)].
Proof.
  unfold run_attempt. destruct (begin_network_approval services managed (network_approval_spec req) w) as [m w1].
  destruct (tool_run req attempt w1) as [r0 w2].
  destruct m as [[|]|]; [| |by intros [= <- <- <- <-]].
  - destruct (finish_call services w2) as [[e|] w3]; by intros [= <- <- <- <-].
  - destruct r0 as [out|err]; [by intros [= <- <- <- <-]|].
    destruct (finish_call services w2) as [[e|] w3]; by intros [= <- <- <- <-].
Qed.

Definition retry_sandbox turn : SandboxType :=
  if unsandboxed_execution_allowed (fs_of turn) then NoSandbox
  else sandbox_for (Out:=Out) os turn.

(** When a second attempt may be made at all. *)
Definition may_retry (policy : AskForApproval) : Prop :=
  policy <> Never /\ escalate_on_failure (Out:=Out) = true /\
  match policy with Granular g => sandbox_approval g = true | _ => True end.

Lemma gives_up_spec turn policy npd ctx :
  gives_up (Out:=Out) turn policy npd ctx = false -> may_retry policy.
Proof.
  unfold gives_up, may_retry. rewrite !orb_false_iff. intros [[[_ He] Hw] _].
  apply negb_false_iff in He. split_and!; [|done|].
  - intros ->. by rewrite wants_never in Hw.
  - destruct policy as [| | |g|]; try done. rewrite wants_granular in Hw. by destruct (sandbox_approval g).
Qed.

Lemma retry_trace req turn policy approved output npd w r w' t :
  retry_step os services req turn policy approved output npd w = (r, w', t) ->
  (questions t /\ (t <> [] -> may_retry policy)) \/
  exists t2 d, t = t2 ++ [EvAttempt (retry_sandbox turn) d] /\ questions t2 /\ may_retry policy /\
    (approved = true \/ consent t2) /\ (strict_auto_review turn = true -> consent t2).
Proof.
  unfold retry_step. set (ctx := if turn_network turn then _ else None).
  destruct (gives_up turn policy npd ctx) eqn:Eg; [intros [= <- <- <-]; left; split; [constructor|done]|].
  pose proof (gives_up_spec _ _ _ _ Eg) as Hmay. unfold bind, lift_attempt.
  set (bypass := negb (strict_auto_review turn) && _ && _).
  set (attempt := if unsandboxed_execution_allowed _ then _ else _).
  assert (attempt_sandbox attempt = retry_sandbox turn) as Hs.
  { unfold attempt, retry_sandbox. by destruct (unsandboxed_execution_allowed _). }
  destruct bypass eqn:Eb.
  - unfold ret. destruct (run_attempt services req attempt (turn_network turn) w) as [[[r0 df] w0] t0] eqn:Er.
    apply run_attempt_trace in Er as ->. rewrite Hs. intros [= _ _ <-]. right. exists [], (is_denied r0).
    unfold bypass in Eb. rewrite bypass_law in Eb. apply andb_true_iff in Eb as [[Est Eb]%andb_true_iff _].
    apply negb_true_iff in Est. rewrite Est. pose proof (proj1 Hmay) as Hn.
    split; [done|]. split; [constructor|]. split; [exact Hmay|]. split; [|done].
    left. unfold default_should_bypass_approval in Eb. destruct approved; [done|]. by destruct policy.
  - destruct (approve _ _ _ _ _ _) as [[[u|e] w1] t1] eqn:Ea; apply approve_trace in Ea as (Hq & _ & Hc).
    + destruct (run_attempt services req attempt (turn_network turn) w1) as [[[r0 df] w0] t0] eqn:Er.
      apply run_attempt_trace in Er as ->. rewrite Hs. intros [= _ _ <-]. right. exists t1, (is_denied r0). by eauto 10.
    + intros [= _ _ <-]. by left.
Qed.

(** What a run may do: ask; attempt once, with the approval the requirement
    asks for; and after a denial ask again and attempt once more. *)
Inductive run_shape req turn policy : list Event -> Prop :=
| shape_stopped t :
    questions t -> (t <> [] -> asks_first turn (requirement_of (Out:=Out) req turn policy)) ->
    run_shape req turn policy t
| shape_first t s d t' :
    questions t -> first_allowed turn (requirement_of (Out:=Out) req turn policy) t ->
    s = attempt_sandbox (initial_attempt (Out:=Out) os req turn (requirement_of (Out:=Out) req turn policy)) ->
    questions t' -> (t' <> [] -> d = true /\ may_retry policy) ->
    run_shape req turn policy (t ++ EvAttempt s d :: t')
| shape_second t s t' d :
    questions t -> first_allowed turn (requirement_of (Out:=Out) req turn policy) t ->
    s = attempt_sandbox (initial_attempt (Out:=Out) os req turn (requirement_of (Out:=Out) req turn policy)) ->
    questions t' -> may_retry policy -> consent (t ++ t') ->
    (strict_auto_review turn = true -> consent t') ->
    run_shape req turn policy (t ++ EvAttempt s true :: t' ++ [EvAttempt (retry_sandbox turn) d]).

Lemma orchestrate_shape req turn policy w r w' t :
  orchestrate (Out:=Out) os services req turn policy w = (r, w', t) -> run_shape req turn policy t.
Proof.
  unfold orchestrate, bind. set (requirement := requirement_of req turn policy).
  destruct (approval_step services req turn requirement w) as [[[approved|e] w1] t1] eqn:Ea;
    apply approval_step_trace in Ea as (Hq & Hasks & Ha); [|intros [= _ _ <-]; by apply shape_stopped].
  destruct Ha as [Hfirst Hyes].
  set (attempt := initial_attempt os req turn requirement).
  destruct (run_attempt services req attempt (turn_network turn) w1) as [[[r0 df] w2] t2] eqn:Er.
  apply run_attempt_trace in Er as ->.
  destruct r0 as [out|[reason|output npd|message]]; cbn [is_denied];
    try (intros [= _ _ <-]; apply shape_first; try done; constructor).
  destruct (retry_step os services req turn policy approved output npd w2) as [[r3 w3] t3] eqn:Et.
  apply retry_trace in Et as [[Hq3 Hm3]|(t4 & d & -> & Hq4 & Hmay & Hc & Hstrict)]; intros [= _ _ <-].
  - apply shape_first; try done. intros Hne. split; [done|by apply Hm3].
  - apply shape_second; try done. apply Exists_app. destruct Hc as [Hap|Hc]; [left; by apply Hyes|by right].
Qed.
End orchestrator_proofs.

(** ** Remembered approvals ([ApprovalStore], [with_cached_approval]) *)

Section cache.
Context {W K : Type}.
(** [serde_json::to_string] of a key. *)
Context (to_json : K -> option str).

Notation ApprovalStore := (gmap str ReviewDecision).

Definition store_get (store : ApprovalStore) (key : K) : option ReviewDecision :=
  s ← to_json key; store !! s.

Definition store_put (store : ApprovalStore) (key : K) (value : ReviewDecision) : ApprovalStore :=
  match to_json key with Some s => <[s := value]> store | None => store end.

Definition is_session_approval (d : option ReviewDecision) : bool :=
  match d with Some ApprovedForSession => true | _ => false end.

(** The last component says whether the question was asked. *)
Definition with_cached_approval (fetch : W -> ReviewDecision * W) (store : ApprovalStore) (keys : list K)
    (w : W) : ReviewDecision * ApprovalStore * W * bool :=
  match keys with
  | [] => let '(decision, w) := fetch w in (decision, store, w, true)
  | _ =>
    if forallb (fun key => is_session_approval (store_get store key)) keys
    then (ApprovedForSession, store, w, false)
    else
      let '(decision, w) := fetch w in
      let store :=
        match decision with
        | ApprovedForSession => foldl (fun store key => store_put store key ApprovedForSession) store keys
        | _ => store
        end in
      (decision, store, w, true)
  end.

Lemma get_put store k k' :
  is_session_approval (store_get store k) = true ->
  is_session_approval (store_get (store_put store k' ApprovedForSession) k) = true.
Proof.
  unfold store_get, store_put. destruct (to_json k) as [s|]; [|done]. cbn.
  destruct (to_json k') as [s'|]; [|done]. destruct (decide (s = s')) as [->|Hne].
  - by rewrite lookup_insert_eq.
  - by rewrite lookup_insert_ne.
Qed.

Lemma put_all store keys k :
  is_session_approval (store_get store k) = true \/ (k ∈ keys /\ is_Some (to_json k)) ->
  is_session_approval
    (store_get (foldl (fun store key => store_put store key ApprovedForSession) store keys) k) = true.
Proof.
  revert store. induction keys as [|k' keys IH]; intros store Hk; cbn [foldl].
  { by destruct Hk as [Hk|[?%not_elem_of_nil _]]. }
  apply IH. destruct Hk as [Hk|[[->|Hk]%elem_of_cons Hs]]; [left; by apply get_put| |by right].
  left. unfold store_get, store_put. destruct Hs as [s Hs]. rewrite Hs. cbn. by rewrite lookup_insert_eq.
Qed.

(** An approval for the session is remembered key by key: afterwards no
    request whose keys are among them is asked about again, whatever was
    approved in between, and nothing else is ever remembered. *)
Theorem session_approvals_remembered fetch store keys w d store' w' asked :
  with_cached_approval fetch store keys w = (d, store', w', asked) ->
  (forall k, is_session_approval (store_get store k) = true -> is_session_approval (store_get store' k) = true) /\
  (d <> ApprovedForSession -> store' = store) /\
  (d = ApprovedForSession -> keys <> [] -> Forall (fun k => is_Some (to_json k)) keys ->
   forall fetch' keys' w0, keys' <> [] -> keys' ⊆ keys ->
     with_cached_approval fetch' store' keys' w0 = (ApprovedForSession, store', w0, false)) /\
  (asked = false -> d = ApprovedForSession /\ w' = w /\ store' = store /\
     keys <> [] /\ forall k, k ∈ keys -> is_session_approval (store_get store k) = true).
Proof.
  unfold with_cached_approval at 1. destruct keys as [|k0 keys].
  { destruct (fetch w). intros [= <- <- <- <-]. by split_and!. }
  destruct (forallb _ (k0 :: keys)) eqn:Eall.
  - intros [= <- <- <- <-]. rewrite forallb_forall in Eall. setoid_rewrite <- list_elem_of_In in Eall.
    split; [done|]. split; [done|]. split; [|by intros _; split_and!]. intros _ _ _ fetch' keys' w0 Hne Hsub.
    unfold with_cached_approval. destruct keys' as [|k' keys']; [done|].
    rewrite (proj2 (forallb_forall _ _)); [done|]. intros k Hk%list_elem_of_In. by apply Eall, Hsub.
  - destruct (fetch w) as [d0 w0]. intros [= <- <- <- <-]. split_and!; [| | |done].
    + intros k Hk. destruct d0; try done. apply (put_all store (k0 :: keys) k). by left.
    + by destruct d0.
    + intros -> _ Hser fetch' keys' w1 Hne Hsub. unfold with_cached_approval. destruct keys' as [|k' keys']; [done|].
      rewrite (proj2 (forallb_forall _ _)); [done|]. intros k Hk%list_elem_of_In. apply (put_all store (k0 :: keys) k). right.
      rewrite Forall_forall in Hser. split; [by apply Hsub|by apply Hser, Hsub].
Qed.
End cache.

Lemma session_approvals_remembered_witness :
  with_cached_approval (W:=unit) Some (fun w => (Denied, w)) 
    (with_cached_approval Some (fun w => (ApprovedForSession, w)) ∅ [lit "a"; lit "b"] tt).1.1.2 [lit "b"] tt
  = (ApprovedForSession,
     (with_cached_approval Some (fun w : unit => (ApprovedForSession, w)) ∅ [lit "a"; lit "b"] tt).1.1.2, tt, false).
Proof.
  destruct (session_approvals_remembered Some (fun w : unit => (ApprovedForSession, w)) ∅ [lit "a"; lit "b"] tt
    ApprovedForSession (with_cached_approval Some (fun w : unit => (ApprovedForSession, w)) ∅ [lit "a"; lit "b"] tt).1.1.2
    tt true) as (_ & _ & Hsub & _); [by vm_compute|].
  apply Hsub; [done|done|by repeat constructor|done|]. by apply (bool_decide_unpack _); vm_compute.
Defined.

(** ** Claims *)

Lemma elem_of_questions s d t : questions t -> EvAttempt s d ∉ t.
Proof. intros Hq Hin. by apply (proj1 (Forall_forall question t) Hq) in Hin. Qed.

Lemma denied_path_requires_sandbox l depth network p managed :
  mk_entry (FsPath p) Deny ∈ l ->
  should_require_platform_sandbox (to_sandbox_policy (ManagedRestricted l depth)) network managed = true.
Proof.
  intros Hin. unfold should_require_platform_sandbox. destruct managed; [done|]. destruct network; [done|].
  cbn [policy_kind to_sandbox_policy]. unfold has_full_disk_write_access. cbn [policy_kind].
  rewrite negb_andb, negb_involutive. apply orb_true_iff. right.
  unfold has_write_narrowing_entries. cbn [entries]. apply andb_true_iff. split; [by apply bool_decide_eq_true|].
  apply existsb_exists. exists (mk_entry (FsPath p) Deny). split; [by apply list_elem_of_In|]. cbn.
  apply negb_true_iff, not_true_iff_false. unfold has_same_target_write_override. cbn [access].
  intros (c & _ & Hc)%existsb_exists. by destruct (access c).
Qed.

Section orchestrator_claims.
Context {W Req Out : Type} `{ToolRuntimeLaws W Req Out}.
Context (os : TargetOs) (services : Services W).

(** C16: every run of a tool has one of three shapes: it stops after the
    questions it asked; it makes one attempt, in the sandbox chosen for it, with
    the approval its requirement asks for; or, only after the sandbox denied
    that attempt and only when the policy allows prompts about it, it makes one
    second attempt that somebody consented to, afresh under strict review. *)
Theorem orchestrate_consented req turn policy w :
  run_shape (Out:=Out) os req turn policy (orchestrate (Out:=Out) os services req turn policy w).2.
Proof.
  destruct (orchestrate os services req turn policy w) as [[r w'] t] eqn:E. by eapply orchestrate_shape.
Qed.

(** When the profile denies reading a path, no attempt of a tool that the
    sandbox may handle leaves the platform sandbox on Linux, whatever rules
    matched, whoever approved, and also when the run escalates. *)
Theorem denied_reads_stay_sandboxed req turn policy w l depth network p s d :
  os = Linux -> sandbox_preference (Out:=Out) <> ForbidSandbox ->
  turn_profile turn = Managed (ManagedRestricted l depth) network -> mk_entry (FsPath p) Deny ∈ l ->
  EvAttempt s d ∈ (orchestrate (Out:=Out) os services req turn policy w).2 -> s = LinuxSeccomp.
Proof.
  intros Hos Hpref Hprof Hin Hev.
  assert (sandbox_for (Out:=Out) os turn = LinuxSeccomp) as Hbox.
  { unfold sandbox_for, select_initial. rewrite Hos, Hprof. cbn [file_system_sandbox_policy network_sandbox_policy].
    destruct sandbox_preference; [|done..]. by rewrite (denied_path_requires_sandbox _ _ _ p). }
  assert (unsandboxed_execution_allowed (file_system_sandbox_policy (turn_profile turn)) = false) as Hun.
  { rewrite Hprof. unfold unsandboxed_execution_allowed, has_denied_read_restrictions.
    apply negb_false_iff. apply andb_true_iff. split; [by apply bool_decide_eq_true|].
    apply existsb_exists. eexists. split; [by apply list_elem_of_In|]. by apply bool_decide_eq_true. }
  assert (forall q, attempt_sandbox (initial_attempt (Out:=Out) os req turn q) = LinuxSeccomp) as Hinit.
  { intros q. unfold initial_attempt, sandbox_override_for_first_attempt. cbn. by rewrite Hun. }
  assert (retry_sandbox (Out:=Out) os turn = LinuxSeccomp) as Hretry by (unfold retry_sandbox; by rewrite Hun).
  destruct (orchestrate os services req turn policy w) as [[r w'] t] eqn:E. apply orchestrate_shape in E.
  cbn [snd] in Hev. destruct E as [t Hq _|t s0 d0 t' Hq _ -> Hq' _|t s0 t' d0 Hq _ -> Hq' _ _ _].
  - by apply elem_of_questions in Hev.
  - apply elem_of_app in Hev as [Hev|[Hev|Hev]%elem_of_cons]; [by apply elem_of_questions in Hev| |by apply elem_of_questions in Hev].
    injection Hev as -> _. apply Hinit.
  - apply elem_of_app in Hev as [Hev|[Hev|[Hev|Hev]%elem_of_app]%elem_of_cons];
      [by apply elem_of_questions in Hev| |by apply elem_of_questions in Hev|].
    + injection Hev as -> _. apply Hinit.
    + apply list_elem_of_singleton in Hev. injection Hev as -> _. exact Hretry.
Qed.

(** With approvals turned off nobody is asked, neither a hook nor a user:
    the run of a command whose requirement came from the execution policy (or of
    a tool without one) is at most one attempt and nothing else. *)
Theorem never_asks {M} `{MultiMapLaws M} home_dir current_dir parser try_join (exec_policy : Policy M)
    (command : ExecApprovalRequest) req turn w :
  req_approval_policy command = Never -> strict_auto_review turn = false ->
  (forall requirement, exec_approval_requirement (Out:=Out) req = Some requirement ->
     create_exec_approval_requirement_for_command home_dir current_dir parser try_join exec_policy command
     = Ok requirement) ->
  let t := (orchestrate (Out:=Out) os services req turn Never w).2 in
  t = [] \/ exists s d, t = [EvAttempt s d].
Proof.
  intros Hnever Hstrict Hreq.
  assert (match requirement_of (Out:=Out) req turn Never with NeedsApproval _ _ => False | _ => True end) as Hno.
  { unfold requirement_of. destruct (exec_approval_requirement req) as [requirement|]; [|done].
    specialize (Hreq _ eq_refl).
    destruct (requirement_spec home_dir current_dir parser try_join exec_policy command) as (parsed & r & _ & Hr & Hm).
    rewrite Hreq in Hr. injection Hr as <-. destruct requirement; try done.
    destruct Hm as (_ & _ & Hm). by rewrite Hnever in Hm. }
  assert (~ may_retry (Out:=Out) Never) as Hretry by (by intros [? _]).
  destruct (orchestrate os services req turn Never w) as [[r w'] t] eqn:E. apply orchestrate_shape in E.
  assert (forall t, first_allowed turn (requirement_of (Out:=Out) req turn Never) t -> t = []) as Hfirst.
  { intros t0. unfold first_allowed. rewrite Hstrict. by destruct (requirement_of req turn Never). }
  cbn [snd]. destruct E as [t Hq Ha|t s0 d0 t' Hq Hf -> Hq' Ht'|t s0 t' d0 Hq Hf _ Hq' Hm _ _]; [| |done].
  - left. destruct t as [|e t]; [done|]. exfalso. unfold asks_first in Ha. rewrite Hstrict in Ha.
    assert (e :: t <> []) as Hne by done. apply Ha in Hne. by destruct (requirement_of req turn Never).
  - right. rewrite (Hfirst _ Hf). destruct t' as [|e t']; [by eexists _, _|].
    destruct Ht' as [_ Hm]; [done|]. by destruct Hretry.
Qed.
End orchestrator_claims.

(** ** Witnesses *)

(** A shell-like tool that the sandbox always denies, and a user who agrees. *)
#[local] Instance demo_tool : ToolRuntime unit ExecApprovalRequirement unit := {
  tool_sandbox_permissions _ := RequireEscalated;
  should_bypass_approval := default_should_bypass_approval;
  exec_approval_requirement r := Some r;
  has_permission_request_payload _ := true;
  wants_no_sandbox_approval := default_wants_no_sandbox_approval;
  start_approval_async _ _ w := (Approved, w);
  sandbox_preference := AutoSandbox;
  network_approval_spec _ := None;
  escalate_on_failure := true;
  tool_run _ _ w := (inr (SandboxDenied [] None), w)
}.

#[local] Instance demo_tool_laws : ToolRuntimeLaws unit ExecApprovalRequirement unit.
Proof. done. Qed.

Definition demo_services : Services unit :=
  mk_services unit (fun _ w => (None, w)) (fun w => w) (fun w => (None, w)) (fun w => ([], w)) [].

Definition demo_turn (profile : PermissionProfile) : TurnContext :=
  mk_turn profile WindowsDisabled false (lit "call") None false false.

Definition secret_profile : PermissionProfile :=
  Managed (ManagedRestricted [mk_entry (Special Root) Write; mk_entry (FsPath [RootDir; Normal (lit "key")]) Deny] None)
    NetEnabled.

Example orchestrate_examples :
  (orchestrate Linux demo_services (NeedsApproval None None) (demo_turn read_only_profile) OnFailure tt).2
    = [EvHook (lit "call") None; EvReview (mk_approval_ctx false None None) Approved;
       EvAttempt NoSandbox true; EvAttempt NoSandbox true] /\
  (orchestrate Linux demo_services (NeedsApproval None None) (demo_turn secret_profile) OnFailure tt).2
    = [EvHook (lit "call") None; EvReview (mk_approval_ctx false None None) Approved;
       EvAttempt LinuxSeccomp true] /\
  (orchestrate Linux demo_services (Skip false None) (demo_turn read_only_profile) Never tt).2
    = [EvAttempt NoSandbox true].
Proof. by vm_compute. Qed.

Lemma denied_reads_stay_sandboxed_witness :
  exists s, EvAttempt s true ∈
    (orchestrate Linux demo_services (Skip true None) (demo_turn secret_profile) OnFailure tt).2 /\ s = LinuxSeccomp.
Proof.
  exists LinuxSeccomp. assert (EvAttempt LinuxSeccomp true ∈
    (orchestrate Linux demo_services (Skip true None) (demo_turn secret_profile) OnFailure tt).2) as Hin by (vm_compute; by left).
  split; [exact Hin|]. apply (denied_reads_stay_sandboxed Linux demo_services (Skip true None) (demo_turn secret_profile)
    OnFailure tt [mk_entry (Special Root) Write; mk_entry (FsPath [RootDir; Normal (lit "key")]) Deny] None NetEnabled
    [RootDir; Normal (lit "key")] LinuxSeccomp true); [done|done|done| |exact Hin]. right. by left.
Defined.

Lemma never_asks_witness :
  let t := (orchestrate Linux demo_services (Skip false (Some (words "ls x"))) (demo_turn read_only_profile) Never tt).2 in
  t = [] \/ exists s d, t = [EvAttempt s d].
Proof.
  apply (never_asks Linux demo_services None None (fun _ => Some sample_tree_ls) (fun _ => None) (demo_rules [])
    (demo_request "ls x" Never UseDefault None)); [done|done|].
  intros requirement [= <-]. by vm_compute.
Defined.

Lemma orchestrate_consented_witness :
  run_shape Linux (NeedsApproval None None) (demo_turn read_only_profile) OnFailure
    (orchestrate Linux demo_services (NeedsApproval None None) (demo_turn read_only_profile) OnFailure tt).2.
Proof. apply orchestrate_consented. Defined.
