(* ===== verification/NetworkApproval.v ===== *)
(** * Approval of network access ([core/src/tools/network_approval.rs])

    Requests of the proxy for hosts off the allow list arrive concurrently; the
    first one for a host asks, the others wait for its answer.  Every section
    under a lock and every notification is one step, and the requests in flight
    interleave freely.  The decision cell of a pending approval is a slot with
    the number of notifications it has seen, as in [tokio::sync::Notify]: a
    waiter that subscribed before a notification is woken by it. *)

From S2P Require Export Orchestrator.

(** ** Data *)

Record HostApprovalKey := mk_key { key_host : str; key_protocol : str; key_port : N }.

#[export] Instance key_eq_dec : EqDecision HostApprovalKey.
Proof. solve_decision. Defined.

#[export] Instance key_countable : Countable HostApprovalKey.
Proof.
  apply (inj_countable' (fun k => (key_host k, key_protocol k, key_port k))
    (fun '(h, p, n) => mk_key h p n)). by intros [].
Defined.

Definition protocol_key_label (p : NetworkRuleProtocol) : str :=
  match p with
  | Http => lit "http"
  | Https => lit "https"
  | Socks5Tcp => lit "socks5-tcp"
  | Socks5Udp => lit "socks5-udp"
  end.

Record NetworkPolicyRequest := mk_policy_request {
  request_host : str;
  request_protocol : NetworkRuleProtocol;
  request_port : N
}.

Definition key_from_request (r : NetworkPolicyRequest) : HostApprovalKey :=
  mk_key (to_ascii_lowercase (request_host r)) (protocol_key_label (request_protocol r)) (request_port r).

Inductive NetworkDecision := NetworkAllow | NetworkDenied (reason : str).

Definition REASON_NOT_ALLOWED : str := lit "not_allowed".

Inductive PendingApprovalDecision := AllowOnce | AllowForSession | DenyAccess.

Definition to_network_decision (d : PendingApprovalDecision) : NetworkDecision :=
  match d with
  | AllowOnce | AllowForSession => NetworkAllow
  | DenyAccess => NetworkDenied REASON_NOT_ALLOWED
  end.

Inductive NetworkApprovalOutcome := DeniedByUser | DeniedByPolicy (message : str).

Definition network_approval_outcome_to_result (outcome : option NetworkApprovalOutcome)
    : option ToolError :=
  match outcome with
  | Some DeniedByUser => Some (Rejected (lit "rejected by user"))
  | Some (DeniedByPolicy message) => Some (Rejected message)
  | None => None
  end.

Definition allows_network_approval_flow (policy : AskForApproval) : bool :=
  match policy with Never => false | _ => true end.

Definition permission_profile_allows_network_approval_flow (p : PermissionProfile) : bool := is_managed p.

(** ** Calls in progress *)

(** The registration ids of [active_calls] in their order, the outcomes, and the
    calls whose cancellation token was cancelled. *)
Record NetworkApprovalCallState := mk_calls {
  active_calls : list str;
  call_outcomes : gmap str NetworkApprovalOutcome;
  cancelled : gset str
}.

Definition register (c : NetworkApprovalCallState) (id : str) : NetworkApprovalCallState :=
  mk_calls (if decide (id ∈ active_calls c) then active_calls c else active_calls c ++ [id])
    (call_outcomes c) (cancelled c).

Definition resolve_single_active_call (c : NetworkApprovalCallState) : option str :=
  match active_calls c with [id] => Some id | _ => None end.

Definition record_call_outcome (c : NetworkApprovalCallState) (id : str) (outcome : NetworkApprovalOutcome)
    : NetworkApprovalCallState :=
  if decide (id ∈ active_calls c) then
    match call_outcomes c !! id with
    | Some DeniedByUser => c
    | _ => mk_calls (active_calls c) (<[id := outcome]> (call_outcomes c)) ({[id]} ∪ cancelled c)
    end
  else c.

(** [remove_call], which both [unregister_call] and [finish_call] use. *)
Definition remove_call (c : NetworkApprovalCallState) (id : str)
    : NetworkApprovalCallState * option NetworkApprovalOutcome :=
  (mk_calls (List.filter (fun id' => negb (str_eqb id' id)) (active_calls c)) (delete id (call_outcomes c))
     (cancelled c), call_outcomes c !! id).

Definition finish_network_call (c : NetworkApprovalCallState) (id : str)
    : NetworkApprovalCallState * option ToolError :=
  let '(c, outcome) := remove_call c id in (c, network_approval_outcome_to_result outcome).

(** ** Blocked requests ([network_policy_decision.rs]) *)

Record BlockedRequest := mk_blocked { blocked_host : str; blocked_reason : str; blocked_decision : option str }.

Definition parse_network_policy_decision (value : str) : option NetworkPolicyDecision :=
  if str_eqb value (lit "deny") then Some PolicyDeny
  else if str_eqb value (lit "ask") then Some PolicyAsk
  else None.

Definition denied_network_policy_message (blocked : BlockedRequest) : option str :=
  match blocked_decision blocked ≫= parse_network_policy_decision with
  | Some PolicyDeny =>
    let host := trim (blocked_host blocked) in
    if is_empty host then Some (lit "Network access was blocked by policy.")
    else
      let because s := str_eqb (blocked_reason blocked) (lit s) in
      let detail :=
        if because "denied"%string then "domain is explicitly denied by policy and cannot be approved from this prompt"%string
        else if because "not_allowed"%string then "domain is not on the allowlist for the current sandbox mode"%string
        else if because "not_allowed_local"%string then "local/private network addresses are blocked by the sandbox policy"%string
        else if because "method_not_allowed"%string then "request method is blocked by the current network mode"%string
        else if because "proxy_disabled"%string then "network proxy is disabled"%string
        else "request is blocked by network policy"%string in
      Some (lit "Network access to " ++ [DQUOTE] ++ host ++ [DQUOTE] ++ lit " was blocked: " ++ lit detail ++ [DOT])
  | _ => None
  end.

Definition record_blocked_request (c : NetworkApprovalCallState) (blocked : BlockedRequest)
    : NetworkApprovalCallState :=
  match denied_network_policy_message blocked, resolve_single_active_call c with
  | Some message, Some id => record_call_outcome c id (DeniedByPolicy message)
  | _, _ => c
  end.

(** ** Requests in flight *)

Inductive Action :=
| RecordOutcome (id : str) (outcome : NetworkApprovalOutcome)
| RecordOutcomeForSingleActiveCall (outcome : NetworkApprovalOutcome)
| ForgetDenied | RememberApproved | ForgetApproved | RememberDenied
| SetDecision (d : PendingApprovalDecision)
| NotifyWaiters
| RemovePending.

(** Where a request is: the two caches, the pending table, waiting (the slot and
    the notifications seen when it subscribed), owning the question (before and
    while it is asked, and carrying out the answer), done (through a slot), or
    dropped at an await with its connection. *)
Inductive Pc :=
| AtDenied
| AtApproved
| AtPending
| WaitSubscribe (slot : nat)
| WaitCheck (slot seen : nat)
| WaitNotified (slot seen : nat)
| OwnerStart (slot : nat)
| OwnerAsking (slot : nat) (owner_call : option str)
| OwnerActing (slot : nat) (todo : list Action) (resolved : PendingApprovalDecision)
| Finished (d : NetworkDecision) (via : option nat)
| Dropped (at_await : Pc).

Record Slot := mk_slot { slot_decision : option PendingApprovalDecision; notifications : nat }.

Record NetworkApprovalService := mk_service {
  calls : NetworkApprovalCallState;
  pending_host_approvals : gmap HostApprovalKey nat;
  slots : gmap nat Slot;
  next_slot : nat;
  session_approved_hosts : gset HostApprovalKey;
  session_denied_hosts : gset HostApprovalKey;
  threads : gmap nat (NetworkPolicyRequest * Pc)
}.

Definition set_calls (s : NetworkApprovalService) c : NetworkApprovalService :=
  mk_service c (pending_host_approvals s) (slots s) (next_slot s) (session_approved_hosts s)
    (session_denied_hosts s) (threads s).
Definition set_pending (s : NetworkApprovalService) p : NetworkApprovalService :=
  mk_service (calls s) p (slots s) (next_slot s) (session_approved_hosts s) (session_denied_hosts s) (threads s).
Definition set_slot (s : NetworkApprovalService) (i : nat) (x : Slot) : NetworkApprovalService :=
  mk_service (calls s) (pending_host_approvals s) (<[i := x]> (slots s)) (next_slot s)
    (session_approved_hosts s) (session_denied_hosts s) (threads s).
Definition set_approved (s : NetworkApprovalService) h : NetworkApprovalService :=
  mk_service (calls s) (pending_host_approvals s) (slots s) (next_slot s) h (session_denied_hosts s) (threads s).
Definition set_denied (s : NetworkApprovalService) h : NetworkApprovalService :=
  mk_service (calls s) (pending_host_approvals s) (slots s) (next_slot s) (session_approved_hosts s) h (threads s).
Definition set_thread (s : NetworkApprovalService) (t : nat) x : NetworkApprovalService :=
  mk_service (calls s) (pending_host_approvals s) (slots s) (next_slot s) (session_approved_hosts s)
    (session_denied_hosts s) (<[t := x]> (threads s)).

Definition service_default : NetworkApprovalService :=
  mk_service (mk_calls [] ∅ ∅) ∅ ∅ 0 ∅ ∅ ∅.

(** ** The answer to the question *)

(** What the hooks, the reviewer or the user answered; a reviewer's rejection
    and time-out come with their messages. *)
Inductive Verdict :=
| HookAllows
| HookDenies (message : str)
| Reviewed (guardian_message : option str) (timeout_message : str) (decision : ReviewDecision).

Definition publish (resolved : PendingApprovalDecision) : list Action :=
  [SetDecision resolved; NotifyWaiters; RemovePending].

Definition record_if (owner_call : option str) (outcome : NetworkApprovalOutcome) : list Action :=
  match owner_call with Some id => [RecordOutcome id outcome] | None => [] end.

Definition resolve_answer (owner_call : option str) (v : Verdict) : list Action * PendingApprovalDecision :=
  match v with
  | HookAllows => (publish AllowOnce, AllowOnce)
  | HookDenies message => (record_if owner_call (DeniedByPolicy message) ++ publish DenyAccess, DenyAccess)
  | Reviewed guardian timeout decision =>
    match decision with
    | Approved | ApprovedExecpolicyAmendment _ => (publish AllowOnce, AllowOnce)
    | ApprovedForSession | NetworkPolicyAmendment _ NetAllow =>
      ([ForgetDenied; RememberApproved] ++ publish AllowForSession, AllowForSession)
    | NetworkPolicyAmendment _ NetDeny =>
      (record_if owner_call DeniedByUser ++ [ForgetApproved; RememberDenied] ++ publish DenyAccess, DenyAccess)
    | Denied | Aborted =>
      (record_if owner_call
         (match guardian with Some message => DeniedByPolicy message | None => DeniedByUser end)
       ++ publish DenyAccess, DenyAccess)
    | TimedOut => (record_if owner_call (DeniedByPolicy timeout) ++ publish DenyAccess, DenyAccess)
    end
  end.

(** [policy_denial_message] *)
Definition policy_denial_message (r : NetworkPolicyRequest) : str :=
  lit "Network access to " ++ [DQUOTE] ++ protocol_key_label (request_protocol r) ++ lit "://" ++ request_host r
  ++ [COLON] ++ dec (N.to_nat (request_port r)) ++ [DQUOTE] ++ lit " was blocked by policy.".

(** The three early denials: no active turn, a profile or a policy without prompts. *)
Definition may_ask (turn : option (PermissionProfile * AskForApproval)) : bool :=
  match turn with
  | None => false
  | Some (profile, policy) =>
    permission_profile_allows_network_approval_flow profile && allows_network_approval_flow policy
  end.

Definition hard_denial (r : NetworkPolicyRequest) : list Action :=
  publish DenyAccess ++ [RecordOutcomeForSingleActiveCall (DeniedByPolicy (policy_denial_message r))].

(** One action of an owner: the state and what is left to do. *)
Definition do_action (s : NetworkApprovalService) (k : HostApprovalKey) (slot : nat) (a : Action)
    (rest : list Action) : NetworkApprovalService * list Action :=
  let cell := default (mk_slot None 0) (slots s !! slot) in
  match a with
  | RecordOutcome id outcome => (set_calls s (record_call_outcome (calls s) id outcome), rest)
  | RecordOutcomeForSingleActiveCall outcome =>
    (s, match resolve_single_active_call (calls s) with Some id => RecordOutcome id outcome :: rest | None => rest end)
  | ForgetDenied => (set_denied s (session_denied_hosts s ∖ {[k]}), rest)
  | RememberApproved => (set_approved s ({[k]} ∪ session_approved_hosts s), rest)
  | ForgetApproved => (set_approved s (session_approved_hosts s ∖ {[k]}), rest)
  | RememberDenied => (set_denied s ({[k]} ∪ session_denied_hosts s), rest)
  | SetDecision d => (set_slot s slot (mk_slot (Some d) (notifications cell)), rest)
  | NotifyWaiters => (set_slot s slot (mk_slot (slot_decision cell) (S (notifications cell))), rest)
  | RemovePending => (set_pending s (delete k (pending_host_approvals s)), rest)
  end.

(** [get_or_create_pending_approval] *)
Definition get_or_create_pending_approval (s : NetworkApprovalService) (k : HostApprovalKey)
    : NetworkApprovalService * nat * bool :=
  match pending_host_approvals s !! k with
  | Some slot => (s, slot, false)
  | None =>
    let slot := next_slot s in
    (mk_service (calls s) (<[k := slot]> (pending_host_approvals s)) (<[slot := mk_slot None 0]> (slots s))
       (S slot) (session_approved_hosts s) (session_denied_hosts s) (threads s), slot, true)
  end.

(** What a request learns from outside: the active turn, and the answer. *)
Inductive Input :=
| NoInput
| ActiveTurn (turn : option (PermissionProfile * AskForApproval))
| Answer (v : Verdict).

(** One step of a request ([handle_inline_policy_request] with
    [wait_for_decision]); [None] when it cannot move. *)
Definition request_step (s : NetworkApprovalService) (r : NetworkPolicyRequest) (pc : Pc) (input : Input)
    : option (NetworkApprovalService * Pc) :=
  let k := key_from_request r in
  match pc, input with
  | AtDenied, NoInput =>
    Some (s, if decide (k ∈ session_denied_hosts s) then Finished (NetworkDenied REASON_NOT_ALLOWED) None else AtApproved)
  | AtApproved, NoInput =>
    Some (s, if decide (k ∈ session_approved_hosts s) then Finished NetworkAllow None else AtPending)
  | AtPending, NoInput =>
    let '(s, slot, is_owner) := get_or_create_pending_approval s k in
    Some (s, if is_owner then OwnerStart slot else WaitSubscribe slot)
  | WaitSubscribe slot, NoInput =>
    cell ← slots s !! slot; Some (s, WaitCheck slot (notifications cell))
  | WaitCheck slot seen, NoInput =>
    cell ← slots s !! slot;
    Some (s, match slot_decision cell with
             | Some d => Finished (to_network_decision d) (Some slot)
             | None => WaitNotified slot seen
             end)
  | WaitNotified slot seen, NoInput =>
    cell ← slots s !! slot;
    if seen <? notifications cell then Some (s, WaitSubscribe slot) else None
  | OwnerStart slot, ActiveTurn turn =>
    Some (s, if may_ask turn then OwnerAsking slot (resolve_single_active_call (calls s))
             else OwnerActing slot (hard_denial r) DenyAccess)
  | OwnerAsking slot owner_call, Answer v =>
    let '(todo, resolved) := resolve_answer owner_call v in Some (s, OwnerActing slot todo resolved)
  | OwnerActing slot (a :: rest) resolved, NoInput =>
    let '(s, todo) := do_action s k slot a rest in Some (s, OwnerActing slot todo resolved)
  | OwnerActing slot [] resolved, NoInput => Some (s, Finished (to_network_decision resolved) (Some slot))
  | _, _ => None
  end.

Definition thread_step (s : NetworkApprovalService) (t : nat) (input : Input) : option NetworkApprovalService :=
  '(r, pc) ← threads s !! t;
  '(s', pc') ← request_step s r pc input;
  Some (set_thread s' t (r, pc')).

(** Where the future of a request is at an await, at which it is dropped when
    the connection of the proxy that polls it is: taking a lock, waiting for a
    notification, for the active turn or for the answer.  Setting a decision
    and notifying is one poll. *)
Definition at_await (pc : Pc) : bool :=
  match pc with
  | AtDenied | AtApproved | AtPending | WaitCheck _ _ | WaitNotified _ _ | OwnerStart _ | OwnerAsking _ _ => true
  | OwnerActing _ (NotifyWaiters :: _) _ | OwnerActing _ [] _ => false
  | OwnerActing _ (_ :: _) _ => true
  | WaitSubscribe _ | Finished _ _ | Dropped _ => false
  end.

(** The service: requests arrive, move and are dropped, tool calls register,
    finish and are told about blocked requests, and the approved hosts are
    replaced by those of another session. *)
Inductive step : NetworkApprovalService -> NetworkApprovalService -> Prop :=
| step_arrive s t r : threads s !! t = None -> step s (set_thread s t (r, AtDenied))
| step_thread s t input s' : thread_step s t input = Some s' -> step s s'
| step_drop s t r pc :
    threads s !! t = Some (r, pc) -> at_await pc = true -> step s (set_thread s t (r, Dropped pc))
| step_register s id : step s (set_calls s (register (calls s) id))
| step_finish s id : step s (set_calls s (remove_call (calls s) id).1)
| step_outcome s id outcome : step s (set_calls s (record_call_outcome (calls s) id outcome))
| step_blocked s blocked : step s (set_calls s (record_blocked_request (calls s) blocked))
| step_sync s hosts : step s (set_approved s hosts).

Definition reachable (s : NetworkApprovalService) : Prop := rtc step service_default s.

(** ** The invariant *)

(** A request that was dropped leaves its slot behind. *)
Fixpoint owner_slot (pc : Pc) : option nat :=
  match pc with
  | OwnerStart i | OwnerAsking i _ | OwnerActing i _ _ => Some i
  | Dropped pc => owner_slot pc
  | _ => None
  end.

Definition plain (a : Action) : Prop :=
  match a with SetDecision _ | NotifyWaiters | RemovePending => False | _ => True end.

(** How far an owner got with publishing: what is left to do, its slot, and
    whether the pending table still has the slot. *)
Inductive phase (r : PendingApprovalDecision) : list Action -> Slot -> bool -> Prop :=
| phase_before pre post :
    Forall plain pre -> Forall plain post -> phase r (pre ++ publish r ++ post) (mk_slot None 0) true
| phase_set post : Forall plain post -> phase r (NotifyWaiters :: RemovePending :: post) (mk_slot (Some r) 0) true
| phase_notified post : Forall plain post -> phase r (RemovePending :: post) (mk_slot (Some r) 1) true
| phase_removed post : Forall plain post -> phase r post (mk_slot (Some r) 1) false.

Fixpoint owner_state (pc : Pc) (cell : Slot) (listed : bool) : Prop :=
  match pc with
  | Dropped pc => owner_state pc cell listed
  | OwnerStart _ | OwnerAsking _ _ => cell = mk_slot None 0 /\ listed = true
  | OwnerActing _ todo r => phase r todo cell listed
  | _ => False
  end.

(** What a waiting or finished request may rely on. *)
Definition pc_ok (sl : gmap nat Slot) (pc : Pc) : Prop :=
  match pc with
  | WaitSubscribe i => is_Some (sl !! i)
  | WaitCheck i seen => exists cell, sl !! i = Some cell /\ seen <= notifications cell
  | WaitNotified i seen => is_Some (sl !! i) /\ seen = 0
  | Finished d (Some i) => exists r n, sl !! i = Some (mk_slot (Some r) n) /\ d = to_network_decision r
  | _ => True
  end.

Section invariant.
Implicit Types (p : gmap HostApprovalKey nat) (sl : gmap nat Slot) (th : gmap nat (NetworkPolicyRequest * Pc)).

Definition owns th (t : nat) (r : NetworkPolicyRequest) (pc : Pc) (i : nat) : Prop :=
  th !! t = Some (r, pc) /\ owner_slot pc = Some i.

Record Inv p sl (n : nat) th : Prop := mk_inv {
  inv_owner t r pc i : owns th t r pc i ->
    exists cell listed, sl !! i = Some cell /\ owner_state pc cell listed /\
      (p !! key_from_request r = Some i <-> listed = true);
  inv_unique t t' r r' pc pc' i : owns th t r pc i -> owns th t' r' pc' i -> t = t';
  inv_pending k i : p !! k = Some i -> exists t r pc, owns th t r pc i /\ key_from_request r = k;
  inv_slot i cell : sl !! i = Some cell ->
    i < n /\ ((exists r, cell = mk_slot (Some r) 1) \/ (exists t r pc, owns th t r pc i)) /\
    (slot_decision cell = None -> notifications cell = 0);
  inv_pc t r pc : th !! t = Some (r, pc) -> pc_ok sl pc
}.

(** A later state of a slot: a decision is final and notifications only grow. *)
Definition cell_le (c c' : Slot) : Prop :=
  (forall d, slot_decision c = Some d -> slot_decision c' = Some d) /\ notifications c <= notifications c'.

Lemma pc_ok_mono sl i cell cell' pc :
  sl !! i = Some cell -> cell_le cell cell' -> pc_ok sl pc -> pc_ok (<[i := cell']> sl) pc.
Proof.
  intros Hi [Hd Hn] Hok.
  assert (forall j, is_Some (sl !! j) -> is_Some (<[i := cell']> sl !! j)) as Hsome.
  { intros j Hj. destruct (decide (i = j)) as [->|]; [by rewrite lookup_insert_eq|by rewrite lookup_insert_ne]. }
  destruct pc as [| | |j|j seen|j seen| | | |d [j|]|pc1]; cbn in *; auto.
  - destruct Hok as (c & Hc & Hs). destruct (decide (i = j)) as [->|Hne].
    + rewrite lookup_insert_eq. simplify_eq. exists cell'. split; [done|lia].
    + rewrite lookup_insert_ne by done. by exists c.
  - destruct Hok as [Hj Hs]. split; [by apply Hsome|done].
  - destruct Hok as (r & n & Hc & ->). destruct (decide (i = j)) as [->|Hne].
    + rewrite lookup_insert_eq. simplify_eq. exists r, (notifications cell').
      destruct cell' as [d' n']. cbn in *. by rewrite (Hd r).
    + rewrite lookup_insert_ne by done. by exists r, n.
Qed.

Lemma owns_insert_ne th t t' x r pc i :
  t <> t' -> owns (<[t := x]> th) t' r pc i <-> owns th t' r pc i.
Proof. intros Hne. unfold owns. by rewrite lookup_insert_ne. Qed.

Lemma owns_insert_inert th t r0 pc0 t' r pc i :
  owner_slot pc0 = None -> owns (<[t := (r0, pc0)]> th) t' r pc i -> t <> t' /\ owns th t' r pc i.
Proof.
  intros Ho [Hl Hs]. destruct (decide (t = t')) as [->|Hne].
  - rewrite lookup_insert_eq in Hl. by simplify_eq.
  - rewrite lookup_insert_ne in Hl by done. done.
Qed.

(** A request that owns nothing moves, or a new one arrives. *)
Lemma inv_move p sl n th t r pc' :
  Inv p sl n th -> (forall pc i, ~ owns th t r pc i) -> (forall r0 pc0, th !! t = Some (r0, pc0) -> r0 = r) ->
  owner_slot pc' = None -> pc_ok sl pc' -> Inv p sl n (<[t := (r, pc')]> th).
Proof.
  intros [Ho Hu Hp Hs Hpc] Hno Hr Hown Hok.
  assert (forall t0 r0 pc0 i, owns th t0 r0 pc0 i -> owns (<[t := (r, pc')]> th) t0 r0 pc0 i) as Hkeep.
  { intros t0 r0 pc0 i H0. apply owns_insert_ne; [|done]. intros <-. destruct H0 as [Hl Hs0].
    pose proof (Hr _ _ Hl). subst r0. by apply (Hno pc0 i). }
  split.
  - intros t0 r0 pc0 i [_ H0]%(owns_insert_inert _ _ _ _ _ _ _ _ Hown). by eapply Ho.
  - intros t0 t1 r0 r1 pc0 pc1 i [_ H0]%(owns_insert_inert _ _ _ _ _ _ _ _ Hown)
      [_ H1]%(owns_insert_inert _ _ _ _ _ _ _ _ Hown). by eapply Hu.
  - intros k i Hk. destruct (Hp k i Hk) as (t0 & r0 & pc0 & H0 & <-). exists t0, r0, pc0. split; [by apply Hkeep|done].
  - intros i cell Hi. destruct (Hs i cell Hi) as (Hlt & [Hd|(t0 & r0 & pc0 & H0)] & Hn);
      split_and!; try done; [by left|right]. exists t0, r0, pc0. by apply Hkeep.
  - intros t0 r0 pc0 H0. destruct (decide (t = t0)) as [<-|Hne].
    + rewrite lookup_insert_eq in H0. by simplify_eq.
    + rewrite lookup_insert_ne in H0 by done. by eapply Hpc.
Qed.

(** An owner moves on: its slot and the pending table change with it. *)
Lemma inv_own p p' sl n th t r pc pc' i cell cell' listed' :
  Inv p sl n th -> owns th t r pc i -> owner_slot pc' = Some i ->
  sl !! i = Some cell -> cell_le cell cell' -> (slot_decision cell' = None -> notifications cell' = 0) ->
  owner_state pc' cell' listed' ->
  (p' = p /\ (p !! key_from_request r = Some i <-> listed' = true) \/
   p' = delete (key_from_request r) p /\ p !! key_from_request r = Some i /\ listed' = false) ->
  Inv p' (<[i := cell']> sl) n (<[t := (r, pc')]> th).
Proof.
  intros [Ho Hu Hp Hs Hpc] Hown Hi' Hcell Hle Hzero Hst Hpend.
  set (th' := <[t := (r, pc')]> th).
  assert (owns th' t r pc' i) as Hme by (split; [apply lookup_insert_eq|done]).
  assert (forall t0 r0 pc0 j, owns th' t0 r0 pc0 j ->
    (t0 = t /\ r0 = r /\ pc0 = pc' /\ j = i) \/ (t0 <> t /\ j <> i /\ owns th t0 r0 pc0 j)) as Hcases.
  { intros t0 r0 pc0 j H0. destruct (decide (t = t0)) as [<-|Hne].
    - left. destruct H0 as [Hl Hj]. unfold th' in Hl. rewrite lookup_insert_eq in Hl. by simplify_eq.
    - right. apply owns_insert_ne in H0; [|done]. split_and!; [done| |done]. intros ->. apply Hne. by eapply Hu. }
  assert (forall t0 r0 pc0 j, owns th t0 r0 pc0 j -> exists pc1, owns th' t0 r0 pc1 j) as Hkeep.
  { intros t0 r0 pc0 j H0. destruct (decide (t = t0)) as [<-|Hne].
    - destruct H0 as [Hl Hj], Hown as [Hl' Hj']. rewrite Hl in Hl'. simplify_eq. by exists pc'.
    - exists pc0. by apply owns_insert_ne. }
  split.
  - intros t0 r0 pc0 j [(-> & -> & -> & ->)|(Hne & Hji & H0)]%Hcases.
    + exists cell', listed'. split_and!; [apply lookup_insert_eq|done|].
      destruct Hpend as [[-> Hp']|(-> & _ & ->)]; [exact Hp'|by rewrite lookup_delete_eq].
    + destruct (Ho _ _ _ _ H0) as (c & l & Hc & Hst0 & Hl). exists c, l.
      rewrite lookup_insert_ne by done. split_and!; [done..|]. destruct Hpend as [[-> _]|(-> & Hk & _)]; [exact Hl|]. split.
      * intros Hd. apply Hl. by apply lookup_delete_Some in Hd as [_ Hd].
      * intros Hlt. apply Hl in Hlt. apply lookup_delete_Some. split; [|done]. intros He. rewrite <- He in Hlt.
        rewrite Hk in Hlt. by simplify_eq.
  - intros t0 t1 r0 r1 pc0 pc1 j H0 H1. apply Hcases in H0, H1.
    destruct H0 as [(-> & -> & -> & ->)|(Hne0 & Hj0 & H0)], H1 as [(-> & _ & _ & Hj)|(Hne1 & Hj1 & H1)]; try done.
    by eapply Hu.
  - intros k j Hk. assert (p !! k = Some j) as Hk0.
    { destruct Hpend as [[-> _]|(-> & _)]; [done|]. by apply lookup_delete_Some in Hk as [_ Hk]. }
    destruct (Hp k j Hk0) as (t0 & r0 & pc0 & H0 & <-). destruct (Hkeep _ _ _ _ H0) as [pc1 H1]. by exists t0, r0, pc1.
  - intros j c Hj. destruct (decide (i = j)) as [<-|Hne].
    + rewrite lookup_insert_eq in Hj. simplify_eq. destruct (Hs _ _ Hcell) as (Hlt & _ & _).
      split_and!; [done| |done]. right. by exists t, r, pc'.
    + rewrite lookup_insert_ne in Hj by done. destruct (Hs j c Hj) as (Hlt & [Hd|(t0 & r0 & pc0 & H0)] & Hn);
        split_and!; try done; [by left|right]. destruct (Hkeep _ _ _ _ H0) as [pc1 H1]. by exists t0, r0, pc1.
  - intros t0 r0 pc0 H0. apply (pc_ok_mono sl i cell cell'); [done..|].
    destruct (decide (t = t0)) as [<-|Hne].
    + unfold th' in H0. rewrite lookup_insert_eq in H0. simplify_eq. by destruct pc0.
    + unfold th' in H0. rewrite lookup_insert_ne in H0 by done. by eapply Hpc.
Qed.

(** A request becomes the owner of a new slot. *)
Lemma inv_create p sl n th t r pc :
  Inv p sl n th -> th !! t = Some (r, pc) -> owner_slot pc = None -> p !! key_from_request r = None ->
  Inv (<[key_from_request r := n]> p) (<[n := mk_slot None 0]> sl) (S n) (<[t := (r, OwnerStart n)]> th).
Proof.
  intros [Ho Hu Hp Hs Hpc] Ht Hno Hk.
  assert (sl !! n = None) as Hfresh.
  { destruct (sl !! n) as [c|] eqn:E; [|done]. destruct (Hs _ _ E) as [Hlt _]. lia. }
  assert (forall t0 r0 pc0 j, owns th t0 r0 pc0 j -> j <> n /\ t0 <> t) as Hold.
  { intros t0 r0 pc0 j H0. split.
    - intros ->. destruct (Ho _ _ _ _ H0) as (c & l & Hc & _). by rewrite Hfresh in Hc.
    - intros ->. destruct H0 as [Hl Hj]. rewrite Ht in Hl. by simplify_eq. }
  set (th' := <[t := (r, OwnerStart n)]> th).
  assert (forall t0 r0 pc0 j, owns th' t0 r0 pc0 j ->
    (t0 = t /\ r0 = r /\ pc0 = OwnerStart n /\ j = n) \/ (t0 <> t /\ owns th t0 r0 pc0 j)) as Hcases.
  { intros t0 r0 pc0 j H0. destruct (decide (t = t0)) as [<-|Hne].
    - left. destruct H0 as [Hl Hj]. unfold th' in Hl. rewrite lookup_insert_eq in Hl. by simplify_eq/=.
    - right. by apply owns_insert_ne in H0. }
  assert (forall t0 r0 pc0 j, owns th t0 r0 pc0 j -> owns th' t0 r0 pc0 j) as Hkeep.
  { intros t0 r0 pc0 j H0. apply owns_insert_ne; [|done]. intros <-. by apply Hold in H0 as [_ ?]. }
  assert (owns th' t r (OwnerStart n) n) as Hme by (split; [apply lookup_insert_eq|done]).
  split.
  - intros t0 r0 pc0 j [(-> & -> & -> & ->)|(Hne & H0)]%Hcases.
    + exists (mk_slot None 0), true. rewrite !lookup_insert_eq. done.
    + destruct (Ho _ _ _ _ H0) as (c & l & Hc & Hst & Hl). destruct (Hold _ _ _ _ H0) as [Hjn _]. exists c, l.
      rewrite lookup_insert_ne by done. split_and!; [done..|].
      destruct (decide (key_from_request r0 = key_from_request r)) as [He|Hne0];
        [rewrite He in *; rewrite lookup_insert_eq; split|rewrite lookup_insert_ne; [exact Hl|done]].
      * intros [= ->]. done.
      * intros Hlt. apply Hl in Hlt. by rewrite Hk in Hlt.
  - intros t0 t1 r0 r1 pc0 pc1 j H0 H1. apply Hcases in H0, H1.
    destruct H0 as [(-> & _ & _ & ->)|(_ & H0)], H1 as [(-> & _ & _ & Hj)|(_ & H1)]; try done.
    + by apply Hold in H1 as [? _].
    + subst j. by apply Hold in H0 as [? _].
    + by eapply Hu.
  - intros k j Hkj. destruct (decide (k = key_from_request r)) as [->|Hne].
    + rewrite lookup_insert_eq in Hkj. simplify_eq. by exists t, r, (OwnerStart j).
    + rewrite lookup_insert_ne in Hkj by done. destruct (Hp k j Hkj) as (t0 & r0 & pc0 & H0 & <-).
      exists t0, r0, pc0. split; [by apply Hkeep|done].
  - intros j c Hj. destruct (decide (n = j)) as [<-|Hne].
    + rewrite lookup_insert_eq in Hj. simplify_eq. split_and!; [lia|right; by exists t, r, (OwnerStart n)|done].
    + rewrite lookup_insert_ne in Hj by done. destruct (Hs j c Hj) as (Hlt & [Hd|(t0 & r0 & pc0 & H0)] & Hn);
        (split_and!; [lia| |done]); [by left|right]. exists t0, r0, pc0. by apply Hkeep.
  - intros t0 r0 pc0 H0. destruct (decide (t = t0)) as [<-|Hne].
    + unfold th' in H0. rewrite lookup_insert_eq in H0. by simplify_eq.
    + unfold th' in H0. rewrite lookup_insert_ne in H0 by done. specialize (Hpc _ _ _ H0).
      assert (forall j, is_Some (sl !! j) -> n <> j) as Hnj by (intros j Hj <-; rewrite Hfresh in Hj; by destruct Hj).
      destruct pc0 as [| | |j|j seen|j seen| | | |d [j|]|pc1]; cbn in *; auto.
      * rewrite lookup_insert_ne; auto.
      * destruct Hpc as (c & Hc & Hle). exists c. rewrite lookup_insert_ne; eauto.
      * destruct Hpc as [Hc Hz]. split; [rewrite lookup_insert_ne; eauto|done].
      * destruct Hpc as (d' & m & Hc & ->). exists d', m. rewrite lookup_insert_ne; eauto.
Qed.

(** An owner that did everything is done. *)
Lemma inv_finish p sl n th t r i resolved :
  Inv p sl n th -> owns th t r (OwnerActing i [] resolved) i ->
  Inv p sl n (<[t := (r, Finished (to_network_decision resolved) (Some i))]> th).
Proof.
  intros HI Hown. pose proof HI as [Ho Hu Hp Hs Hpc].
  destruct (Ho _ _ _ _ Hown) as (cell & listed & Hcell & Hst & Hl). cbn in Hst.
  assert (cell = mk_slot (Some resolved) 1 /\ listed = false) as [-> ->].
  { remember ([] : list Action) as todo eqn:E. destruct Hst as [pre post| | |]; try done. by destruct pre. }
  set (pc' := Finished (to_network_decision resolved) (Some i)).
  assert (forall t0 r0 pc0 j, owns (<[t := (r, pc')]> th) t0 r0 pc0 j -> t0 <> t /\ owns th t0 r0 pc0 j) as Hback.
  { intros t0 r0 pc0 j H0. by apply owns_insert_inert in H0 as [? ?]. }
  assert (forall t0 r0 pc0 j, owns th t0 r0 pc0 j -> j <> i -> owns (<[t := (r, pc')]> th) t0 r0 pc0 j) as Hkeep.
  { intros t0 r0 pc0 j H0 Hj. apply owns_insert_ne; [|done]. intros <-. destruct H0 as [Hl0 Hj0], Hown as [Hl1 Hj1].
    rewrite Hl0 in Hl1. by simplify_eq/=. }
  split.
  - intros t0 r0 pc0 j [_ H0]%Hback. by eapply Ho.
  - intros t0 t1 r0 r1 pc0 pc1 j [_ H0]%Hback [_ H1]%Hback. by eapply Hu.
  - intros k j Hk. destruct (Hp k j Hk) as (t0 & r0 & pc0 & H0 & <-). exists t0, r0, pc0. split; [|done].
    apply Hkeep; [done|]. intros ->. assert (t0 = t) as -> by (by eapply Hu).
    destruct H0 as [Hl0 _], Hown as [Hl1 _]. rewrite Hl0 in Hl1. simplify_eq. by apply Hl in Hk.
  - intros j c Hj. destruct (Hs j c Hj) as (Hlt & Hd & Hn). split_and!; [done| |done].
    destruct (decide (j = i)) as [->|Hne]; [left; rewrite Hcell in Hj; simplify_eq; by eexists|].
    destruct Hd as [Hd|(t0 & r0 & pc0 & H0)]; [by left|right]. exists t0, r0, pc0. by apply Hkeep.
  - intros t0 r0 pc0 H0. destruct (decide (t = t0)) as [<-|Hne].
    + rewrite lookup_insert_eq in H0. simplify_eq. cbn. by eexists _, _.
    + rewrite lookup_insert_ne in H0 by done. by eapply Hpc.
Qed.
End invariant.

Definition inv (s : NetworkApprovalService) : Prop :=
  Inv (pending_host_approvals s) (slots s) (next_slot s) (threads s).

Lemma answer_phase owner_call v :
  phase (resolve_answer owner_call v).2 (resolve_answer owner_call v).1 (mk_slot None 0) true.
Proof.
  assert (forall r pre, Forall plain pre -> phase r (pre ++ publish r) (mk_slot None 0) true) as Hpub.
  { intros r pre Hpre. rewrite <- (app_nil_r (publish r)). by apply phase_before. }
  assert (forall o, Forall plain (record_if owner_call o)) as Hrec by (intros o; by destruct owner_call; repeat constructor).
  destruct v as [|message|g tm d]; [by apply (Hpub AllowOnce [])|by apply Hpub|].
  destruct d as [| | |h [|]| | |]; cbn [resolve_answer fst snd];
    try (by apply (Hpub _ [])); try (by apply Hpub); rewrite ?app_assoc; apply Hpub;
    try (apply Forall_app; split; [done|]); by repeat constructor.
Qed.

Lemma hard_denial_phase r : phase DenyAccess (hard_denial r) (mk_slot None 0) true.
Proof. unfold hard_denial. apply (phase_before _ []); by repeat constructor. Qed.

Lemma inv_default : inv service_default.
Proof.
  split; cbn.
  - intros t r pc i [Hl _]. by rewrite lookup_empty in Hl.
  - intros t t' r r' pc pc' i [Hl _]. by rewrite lookup_empty in Hl.
  - intros k i Hk. by rewrite lookup_empty in Hk.
  - intros i cell Hi. by rewrite lookup_empty in Hi.
  - intros t r pc Hl. by rewrite lookup_empty in Hl.
Qed.

(** An owner carries out its next action. *)
Lemma inv_act s t r i a rest resolved s' todo :
  inv s -> threads s !! t = Some (r, OwnerActing i (a :: rest) resolved) ->
  do_action s (key_from_request r) i a rest = (s', todo) ->
  inv (set_thread s' t (r, OwnerActing i todo resolved)).
Proof.
  intros HI Ht Hact. assert (owns (threads s) t r (OwnerActing i (a :: rest) resolved) i) as Hown by done.
  destruct (inv_owner _ _ _ _ HI _ _ _ _ Hown) as (cell & listed & Hcell & Hst & Hlisted). cbn in Hst.
  destruct (inv_slot _ _ _ _ HI _ _ Hcell) as (_ & _ & Hzero).
  assert (forall s1, slots s1 = slots s -> pending_host_approvals s1 = pending_host_approvals s ->
    next_slot s1 = next_slot s -> threads s1 = threads s ->
    forall todo1, phase resolved todo1 cell listed -> inv (set_thread s1 t (r, OwnerActing i todo1 resolved))) as Hsame.
  { intros s1 E1 E2 E3 E4 todo1 Hph. unfold inv. cbn. rewrite E1, E2, E3, E4, <- (insert_id (slots s) i cell Hcell).
    eapply (inv_own _ _ _ _ _ _ _ _ _ _ cell cell listed); try done. by left. }
  remember (a :: rest) as todo0 eqn:Etodo. destruct Hst as [pre post Hpre Hpost|post Hpost|post Hpost|post Hpost].
  - destruct pre as [|b pre]; cbn in Etodo.
    + injection Etodo as <- <-. cbn in Hact. rewrite Hcell in Hact. injection Hact as <- <-.
      unfold inv. cbn. eapply (inv_own _ _ _ _ _ _ _ _ _ _ (mk_slot None 0) _ true); try done; [by apply phase_set|by left].
    + injection Etodo as -> <-. apply Forall_cons in Hpre as [Hb Hpre].
      assert (phase resolved (pre ++ publish resolved ++ post) (mk_slot None 0) true) as Hph by (by apply phase_before).
      assert (forall o id, phase resolved (RecordOutcome id o :: pre ++ publish resolved ++ post) (mk_slot None 0) true) as Hph'
        by (intros o id; apply (phase_before _ (RecordOutcome id o :: pre)); [by constructor|done]).
      destruct a; try done; cbn in Hact; injection Hact as <- <-; try (by apply Hsame).
      destruct (resolve_single_active_call (calls s)); by apply Hsame.
  - injection Etodo as <- <-. cbn in Hact. rewrite Hcell in Hact. injection Hact as <- <-.
    unfold inv. cbn. eapply (inv_own _ _ _ _ _ _ _ _ _ _ (mk_slot (Some resolved) 0) _ true); try done;
      try (split; [done|cbn; lia]); [by apply phase_notified|by left].
  - injection Etodo as <- <-. cbn in Hact. injection Hact as <- <-. unfold inv. cbn.
    rewrite <- (insert_id (slots s) i _ Hcell).
    eapply (inv_own _ _ _ _ _ _ _ _ _ _ (mk_slot (Some resolved) 1) _ false); try done; [by apply phase_removed|].
    right. split_and!; [done|by apply Hlisted|done].
  - subst post. apply Forall_cons in Hpost as [Ha Hrest].
    assert (phase resolved rest (mk_slot (Some resolved) 1) false) as Hph by (by apply phase_removed).
    assert (forall o id, phase resolved (RecordOutcome id o :: rest) (mk_slot (Some resolved) 1) false) as Hph'
      by (intros o id; apply phase_removed; by constructor).
    destruct a; try done; cbn in Hact; injection Hact as <- <-; try (by apply Hsame).
    destruct (resolve_single_active_call (calls s)); by apply Hsame.
Qed.

Lemma inv_request s t r pc input s' pc' :
  inv s -> threads s !! t = Some (r, pc) -> request_step s r pc input = Some (s', pc') ->
  inv (set_thread s' t (r, pc')).
Proof.
  intros HI Ht Hstep. pose proof HI as [Ho Hu Hp Hs Hpc]. pose proof (Hpc _ _ _ Ht) as Hok.
  assert (owner_slot pc = None -> owner_slot pc' = None -> pc_ok (slots s) pc' -> s' = s ->
    inv (set_thread s' t (r, pc'))) as Hmove.
  { intros Hno Hno' Hok' ->. unfold inv. cbn. apply inv_move; try done.
    - intros pc0 i [Hl Hi]. rewrite Ht in Hl. by simplify_eq.
    - intros r0 pc0 Hl. rewrite Ht in Hl. by simplify_eq. }
  assert (forall i, owner_slot pc = Some i -> owner_slot pc' = Some i -> s' = s ->
    (forall cell listed, owner_state pc cell listed -> owner_state pc' cell listed) ->
    inv (set_thread s' t (r, pc'))) as Hown.
  { intros i Hi Hi' -> Himp. destruct (Ho t r pc i) as (cell & listed & Hcell & Hst & Hl); [done|].
    destruct (Hs _ _ Hcell) as (_ & _ & Hz).
    unfold inv. cbn. rewrite <- (insert_id (slots s) i cell Hcell).
    eapply (inv_own _ _ _ _ _ t r pc pc' i cell cell listed); try done; [by apply Himp|by left]. }
  destruct pc as [| | |i|i seen|i seen|i|i oc|i todo resolved|d via|pc1]; destruct input; try done;
    try (by destruct todo); cbn [request_step] in Hstep.
  - injection Hstep as <- <-. case_decide; by apply Hmove.
  - injection Hstep as <- <-. case_decide; by apply Hmove.
  - unfold get_or_create_pending_approval in Hstep.
    destruct (pending_host_approvals s !! key_from_request r) as [i|] eqn:Ek; injection Hstep as <- <-.
    + apply Hmove; try done. destruct (Hp _ _ Ek) as (t0 & r0 & pc0 & H0 & _).
      destruct (Ho _ _ _ _ H0) as (cell & l & Hcell & _). by exists cell.
    + unfold inv. cbn. by eapply inv_create.
  - destruct (slots s !! i) as [cell|] eqn:Ei; [|done]. cbn in Hstep. injection Hstep as <- <-.
    apply Hmove; try done. exists cell. split; [done|lia].
  - destruct (slots s !! i) as [cell|] eqn:Ei; [|done]. cbn in Hstep. injection Hstep as <- <-.
    destruct Hok as (cell' & Hcell' & Hle). simplify_eq.
    destruct (Hs _ _ Ei) as (_ & _ & Hz). destruct cell as [[d|] m]; cbn in *.
    + apply Hmove; try done. by exists d, m.
    + apply Hmove; try done. split; [rewrite Ei; by eexists|]. specialize (Hz eq_refl). lia.
  - destruct (slots s !! i) as [cell|] eqn:Ei; [|done]. cbn [mbind option_bind] in Hstep.
    destruct (seen <? notifications cell) eqn:En; [|done]. injection Hstep as <- <-. apply Hmove; try done. by exists cell.
  - injection Hstep as <- <-. destruct (may_ask turn); apply (Hown i); try done.
    intros cell listed [-> ->]. apply hard_denial_phase.
  - pose proof (answer_phase oc v) as Hph. destruct (resolve_answer oc v) as [todo resolved]. injection Hstep as <- <-.
    apply (Hown i); try done. by intros cell listed [-> ->].
  - destruct todo as [|a rest].
    + injection Hstep as <- <-. unfold inv. cbn. by apply inv_finish.
    + destruct (do_action s (key_from_request r) i a rest) as [s1 todo1] eqn:Ea. injection Hstep as <- <-.
      by eapply inv_act.
Qed.

(** Dropping a request changes nothing but the request. *)
Lemma inv_drop s t r pc :
  inv s -> threads s !! t = Some (r, pc) -> inv (set_thread s t (r, Dropped pc)).
Proof.
  intros HI Ht. pose proof HI as [Ho Hu Hp Hs Hpc]. destruct (owner_slot pc) as [i|] eqn:Ei.
  - destruct (Ho t r pc i) as (cell & listed & Hcell & Hst & Hl); [done|].
    destruct (Hs _ _ Hcell) as (_ & _ & Hz).
    unfold inv. cbn. rewrite <- (insert_id (slots s) i cell Hcell).
    eapply (inv_own _ _ _ _ _ t r pc (Dropped pc) i cell cell listed); try done. by left.
  - unfold inv. cbn. apply inv_move; try done.
    + intros pc0 i [Hl Hi]. rewrite Ht in Hl. by simplify_eq.
    + intros r0 pc0 Hl. rewrite Ht in Hl. by simplify_eq.
Qed.

Lemma inv_step s s' : inv s -> step s s' -> inv s'.
Proof.
  intros HI Hstep.
  destruct Hstep as [s t r Hnew|s t input s' Hs|s t r pc Ht Ha|s id|s id|s id outcome|s blocked|s hosts];
    try exact HI.
  - unfold inv. cbn. apply inv_move; try done.
    + intros pc i [Hl _]. by rewrite Hnew in Hl.
    + intros r0 pc0 Hl. by rewrite Hnew in Hl.
  - unfold thread_step in Hs. destruct (threads s !! t) as [[r pc]|] eqn:Et; [|done]. cbn in Hs.
    destruct (request_step s r pc input) as [[s1 pc1]|] eqn:Er; [|done]. cbn in Hs. injection Hs as <-.
    by eapply inv_request.
  - by apply inv_drop.
Qed.

Lemma reachable_inv s : reachable s -> inv s.
Proof.
  intros Hr. apply (rtc_ind_r (R:=step) inv service_default); [apply inv_default| |exact Hr].
  intros y z _ Hstep IH. by eapply inv_step.
Qed.

(** ** Claims *)

(** The request is asking about its host: its question may be on the screen. *)
Definition asking_pc (pc : Pc) : Prop := match pc with OwnerAsking _ _ => True | _ => False end.

(** C28: however the requests interleave, two requests for the same host,
    protocol and port are never asked about at the same time. *)
Theorem one_question_per_host s t t' r r' pc pc' :
  reachable s -> threads s !! t = Some (r, pc) -> threads s !! t' = Some (r', pc') ->
  asking_pc pc -> asking_pc pc' -> key_from_request r = key_from_request r' -> t = t'.
Proof.
  intros Hr Ht Ht' Ha Ha' Hk. apply reachable_inv in Hr as [Ho Hu Hp Hs Hpc].
  destruct pc as [| | | | | | |i oc| | |]; try done. destruct pc' as [| | | | | | |j oc'| | |]; try done.
  destruct (Ho t r (OwnerAsking i oc) i) as (c & l & _ & [_ ->] & Hl); [done|].
  destruct (Ho t' r' (OwnerAsking j oc') j) as (c' & l' & _ & [_ ->] & Hl'); [done|].
  assert (i = j) as <-.
  { pose proof (proj2 Hl eq_refl) as H1. pose proof (proj2 Hl' eq_refl) as H2. rewrite Hk in H1. by simplify_eq. }
  by eapply (Hu t t' r r').
Qed.

Lemma notified_finishes s t r i d n :
  threads s !! t = Some (r, WaitNotified i 0) -> slots s !! i = Some (mk_slot (Some d) n) -> 0 <? n = true ->
  exists s1 s2 s3, slots s !! i = Some (mk_slot (Some d) n) /\
     thread_step s t NoInput = Some s1 /\ thread_step s1 t NoInput = Some s2 /\
     thread_step s2 t NoInput = Some s3 /\
     threads s3 !! t = Some (r, Finished (to_network_decision d) (Some i)).
Proof.
  intros Ht Hcell En. eexists _, _, _. split; [done|]. unfold thread_step.
  rewrite Ht. cbn [mbind option_bind request_step]. rewrite Hcell. cbn [mbind option_bind notifications]. rewrite En.
  split; [reflexivity|]. cbn [threads set_thread slots]. rewrite lookup_insert_eq.
  cbn [mbind option_bind request_step]. cbn [slots set_thread]. rewrite Hcell. cbn [mbind option_bind].
  split; [reflexivity|]. cbn [threads set_thread slots]. rewrite lookup_insert_eq.
  cbn [mbind option_bind request_step]. cbn [slots set_thread]. rewrite Hcell. cbn [mbind option_bind].
  split; [reflexivity|]. cbn [threads set_thread]. by rewrite lookup_insert_eq.
Qed.

(** A request that still runs: it was not dropped. *)
Definition running (pc : Pc) : Prop := match pc with Dropped _ => False | _ => True end.

(** C29: no wake-up is lost.  Unless the owner of the slot was dropped with its
    connection, a request that sleeps on a slot either finishes in its next
    three steps with the decision of the slot, or the slot has a running owner
    that has yet to notify. *)
Theorem no_waiter_stranded s t r i seen :
  reachable s -> threads s !! t = Some (r, WaitNotified i seen) ->
  (forall t' r' pc', threads s !! t' = Some (r', pc') -> owner_slot pc' = Some i -> running pc') ->
  (exists d n s1 s2 s3, slots s !! i = Some (mk_slot (Some d) n) /\
     thread_step s t NoInput = Some s1 /\ thread_step s1 t NoInput = Some s2 /\
     thread_step s2 t NoInput = Some s3 /\
     threads s3 !! t = Some (r, Finished (to_network_decision d) (Some i))) \/
  exists t' r' pc', threads s !! t' = Some (r', pc') /\ owner_slot pc' = Some i /\
    match pc' with
    | OwnerStart _ | OwnerAsking _ _ => True
    | OwnerActing _ todo _ => NotifyWaiters ∈ todo
    | _ => False
    end.
Proof.
  intros Hr Ht Hrun. apply reachable_inv in Hr as [Ho Hu Hp Hs Hpc].
  destruct (Hpc _ _ _ Ht) as [[cell Hcell] ->]. destruct (Hs _ _ Hcell) as (_ & Hd & Hz).
  destruct (0 <? notifications cell) eqn:En.
  { left. destruct cell as [[d|] n]; [|cbn in *; specialize (Hz eq_refl); by subst n].
    exists d, n. by apply notified_finishes. }
  right. apply Nat.ltb_ge in En.
  destruct Hd as [[d ->]|(t' & r' & pc' & Hown)]; [cbn in En; lia|].
  exists t', r', pc'. destruct Hown as [Ht' Hi']. split_and!; [done..|].
  specialize (Hrun _ _ _ Ht' Hi').
  destruct (Ho t' r' pc' i) as (c & l & Hc & Hst & _); [done|]. rewrite Hcell in Hc. simplify_eq.
  destruct pc' as [| | | | | | | |j todo res| |]; try done. cbn in Hst.
  destruct Hst as [pre post| | |]; cbn in En; try lia.
  - apply elem_of_app. right. cbn. right. by left.
  - by left.
Qed.

Lemma request_step_threads s r pc input s' pc' :
  request_step s r pc input = Some (s', pc') -> threads s' = threads s.
Proof.
  unfold request_step. intros Hs.
  destruct pc as [| | |i|i seen|i seen|i|i oc|i [|a rest] resolved|d via|pc1]; destruct input; try done;
    try (by injection Hs as <- _).
  - unfold get_or_create_pending_approval in Hs. destruct (_ !! _); by injection Hs as <- _.
  - destruct (slots s !! i); [|done]. by injection Hs as <- _.
  - destruct (slots s !! i); [|done]. by injection Hs as <- _.
  - destruct (slots s !! i); [|done]. cbn [mbind option_bind] in Hs. case_match; [|done]. by injection Hs as <- _.
  - destruct (resolve_answer oc v). by injection Hs as <- _.
  - destruct (do_action s (key_from_request r) i a rest) as [s1 todo] eqn:Ea. injection Hs as <- _.
    destruct a; cbn in Ea; by injection Ea as <- _.
Qed.

(** The owner [t] of slot [i] was dropped while it asked, and [w] sleeps on the
    slot or was dropped there. *)
Definition stranded (t : nat) (r : NetworkPolicyRequest) (i : nat) (call : option str) (w : nat)
    (rw : NetworkPolicyRequest) (s : NetworkApprovalService) : Prop :=
  reachable s /\ threads s !! t = Some (r, Dropped (OwnerAsking i call)) /\
  (threads s !! w = Some (rw, WaitNotified i 0) \/ threads s !! w = Some (rw, Dropped (WaitNotified i 0))).

Lemma stranded_stays t r i call w rw s t0 x :
  (forall r0 pc0, threads s !! t0 = Some (r0, pc0) -> ~ running pc0 -> x = (r0, pc0)) ->
  (threads s !! w = Some (rw, WaitNotified i 0) -> t0 = w -> x = (rw, WaitNotified i 0) \/ x = (rw, Dropped (WaitNotified i 0))) ->
  threads s !! t = Some (r, Dropped (OwnerAsking i call)) ->
  (threads s !! w = Some (rw, WaitNotified i 0) \/ threads s !! w = Some (rw, Dropped (WaitNotified i 0))) ->
  <[t0 := x]> (threads s) !! t = Some (r, Dropped (OwnerAsking i call)) /\
  (<[t0 := x]> (threads s) !! w = Some (rw, WaitNotified i 0) \/
   <[t0 := x]> (threads s) !! w = Some (rw, Dropped (WaitNotified i 0))).
Proof.
  intros Hx Hxw Ht Hw. split.
  - destruct (decide (t0 = t)) as [->|Hne]; [rewrite lookup_insert_eq|by rewrite lookup_insert_ne].
    rewrite (Hx _ _ Ht) by (by intros []). done.
  - destruct (decide (t0 = w)) as [->|Hne]; [rewrite lookup_insert_eq|by rewrite lookup_insert_ne].
    destruct Hw as [Hw|Hw]; [destruct (Hxw Hw eq_refl) as [->| ->]; auto|].
    rewrite (Hx _ _ Hw) by (by intros []). by right.
Qed.

Lemma stranded_step t r i call w rw s s' : stranded t r i call w rw s -> step s s' -> stranded t r i call w rw s'.
Proof.
  intros (Hr & Ht & Hw) Hstep. split; [eapply rtc_r; done|].
  destruct Hstep as [s t0 r0 Hnew|s t0 input s' Hs|s t0 r0 pc Ht0 Ha|s id|s id|s id outcome|s blocked|s hosts];
    try done; cbn [set_thread threads].
  - apply stranded_stays; try done; intros; [congruence|]. destruct Hw as [Hw|Hw]; congruence.
  - unfold thread_step in Hs. destruct (threads s !! t0) as [[r0 pc]|] eqn:Et0; [|done]. cbn [mbind option_bind] in Hs.
    destruct (request_step s r0 pc input) as [[s1 pc1]|] eqn:Er; [|done]. cbn [mbind option_bind] in Hs. injection Hs as <-.
    cbn [set_thread threads]. rewrite (request_step_threads _ _ _ _ _ _ Er). apply stranded_stays; try done.
    + intros r1 pc2 E Hn. rewrite Et0 in E. injection E as -> ->. by destruct pc2.
    + intros Hw0 ->. rewrite Et0 in Hw0. injection Hw0 as -> ->. exfalso.
      apply reachable_inv in Hr as [Ho _ _ _ _].
      destruct (Ho t r (Dropped (OwnerAsking i call)) i) as (c & l & Hc & [-> _] & _); [done|].
      destruct input; [|done..]. cbn [request_step] in Er. by rewrite Hc in Er.
  - apply stranded_stays; try done.
    + intros r1 pc2 E Hn. rewrite Ht0 in E. injection E as -> ->. by destruct pc2.
    + intros Hw0 ->. rewrite Ht0 in Hw0. injection Hw0 as -> ->. by right.
Qed.

(** An owner that is dropped while it asks strands its host: from then on,
    whatever happens, the host stays in the pending table, so that no request
    for it is asked about, and every request that sleeps on the slot sleeps on
    unless it is dropped itself. *)
Theorem dropped_owner_strands s s' t r i call w rw :
  reachable s -> threads s !! t = Some (r, Dropped (OwnerAsking i call)) ->
  threads s !! w = Some (rw, WaitNotified i 0) -> rtc step s s' ->
  pending_host_approvals s' !! key_from_request r = Some i /\
  (threads s' !! w = Some (rw, WaitNotified i 0) \/
   threads s' !! w = Some (rw, Dropped (WaitNotified i 0))).
Proof.
  intros Hr Ht Hw Hsteps. assert (stranded t r i call w rw s') as (Hr' & Ht' & Hw').
  { apply (rtc_ind_r (R:=step) (stranded t r i call w rw) s); [by split_and!; [..|left]| |done].
    intros y z _ Hyz Hy. by eapply stranded_step. }
  split; [|done]. apply reachable_inv in Hr' as [Ho _ _ _ _].
  destruct (Ho t r (Dropped (OwnerAsking i call)) i) as (c & l & _ & [_ ->] & Hl); [done|]. by apply Hl.
Qed.

(** All requests that were answered through one question got the same
    answer. *)
Theorem waiters_agree s t t' r r' d d' i :
  reachable s -> threads s !! t = Some (r, Finished d (Some i)) ->
  threads s !! t' = Some (r', Finished d' (Some i)) -> d = d'.
Proof.
  intros Hr Ht Ht'. apply reachable_inv in Hr as [Ho Hu Hp Hs Hpc].
  destruct (Hpc _ _ _ Ht) as (x & n & Hx & ->). destruct (Hpc _ _ _ Ht') as (y & m & Hy & ->). by simplify_eq.
Qed.

(** ** Calls that were denied *)

(** Every recorded outcome belongs to a call in progress that was cancelled. *)
Definition calls_ok (c : NetworkApprovalCallState) : Prop :=
  forall id, is_Some (call_outcomes c !! id) -> id ∈ active_calls c /\ id ∈ cancelled c.

Lemma record_ok c id outcome : calls_ok c -> calls_ok (record_call_outcome c id outcome).
Proof.
  intros Hok. unfold record_call_outcome. case_decide as Hin; [|done].
  assert (calls_ok (mk_calls (active_calls c) (<[id := outcome]> (call_outcomes c)) ({[id]} ∪ cancelled c))) as Hnew.
  { intros id' Hs. cbn in *. destruct (decide (id' = id)) as [->|Hne]; [set_solver|].
    rewrite lookup_insert_ne in Hs by done. apply Hok in Hs. set_solver. }
  by destruct (call_outcomes c !! id) as [[|]|].
Qed.

Lemma remove_ok c id : calls_ok c -> calls_ok (remove_call c id).1.
Proof.
  intros Hok id' Hs. cbn in *. destruct (decide (id' = id)) as [->|Hne].
  { rewrite lookup_delete_eq in Hs. by destruct Hs. }
  rewrite lookup_delete_ne in Hs by done. apply Hok in Hs as [Ha Hc]. split; [|done].
  apply list_elem_of_In, filter_In. split; [by apply list_elem_of_In|].
  apply negb_true_iff, not_true_iff_false. by intros ?%str_eqb_eq.
Qed.

Lemma do_action_calls s k i a rest s' todo :
  do_action s k i a rest = (s', todo) -> calls_ok (calls s) -> calls_ok (calls s').
Proof. intros Hact Hok. destruct a; cbn in Hact; injection Hact as <- <-; try exact Hok. by apply record_ok. Qed.

Lemma calls_ok_step s s' : calls_ok (calls s) -> step s s' -> calls_ok (calls s').
Proof.
  intros Hok Hstep.
  destruct Hstep as [| s t input s' Hs| |s id|s id|s id outcome|s blocked|]; try exact Hok.
  - unfold thread_step in Hs. destruct (threads s !! t) as [[r pc]|]; [|done]. cbn [mbind option_bind] in Hs.
    destruct (request_step s r pc input) as [[s1 pc1]|] eqn:Er; [|done]. cbn in Hs. injection Hs as <-. cbn [calls set_thread].
    unfold request_step in Er. destruct pc as [| | |i|i seen|i seen|i|i oc|i [|a rest] resolved|d via|pc2]; destruct input;
      try done; cbn [get_or_create_pending_approval] in Er;
      try (by injection Er as <- <-).
    + unfold get_or_create_pending_approval in Er. destruct (pending_host_approvals s !! _); by injection Er as <- <-.
    + destruct (slots s !! i); [|done]. by injection Er as <- <-.
    + destruct (slots s !! i); [|done]. by injection Er as <- <-.
    + destruct (slots s !! i); [|done]. cbn [mbind option_bind] in Er. case_match; [|done]. by injection Er as <- <-.
    + destruct (resolve_answer oc v). by injection Er as <- <-.
    + destruct (do_action _ _ _ _ _) as [s2 todo2] eqn:Ea. injection Er as <- <-. by eapply do_action_calls.
  - intros id' Hs. cbn in *. apply Hok in Hs as [Ha Hc]. split; [|done]. case_decide; set_solver.
  - by apply remove_ok.
  - by apply record_ok.
  - cbn. unfold record_blocked_request. repeat case_match; try done. by apply record_ok.
Qed.

(** A tool call that was denied network access, by the user or by the
    policy, is in progress and cancelled when the outcome is recorded; finishing
    it reports the rejection, a denial by the user is never replaced by another
    outcome, and after finishing nothing of the call is left. *)
Theorem denied_calls_cancelled s id outcome :
  reachable s -> call_outcomes (calls s) !! id = Some outcome ->
  id ∈ active_calls (calls s) /\ id ∈ cancelled (calls s) /\
  (exists reason, (finish_network_call (calls s) id).2 = Some (Rejected reason)) /\
  (outcome = DeniedByUser -> forall id' outcome',
     call_outcomes (record_call_outcome (calls s) id' outcome') !! id = Some DeniedByUser) /\
  (finish_network_call (finish_network_call (calls s) id).1 id).2 = None.
Proof.
  intros Hr Ho.
  assert (calls_ok (calls s)) as Hok.
  { apply (rtc_ind_r (R:=step) (fun s => calls_ok (calls s)) service_default); [| |exact Hr].
    - intros x [y Hy]. cbn in Hy. by rewrite lookup_empty in Hy.
    - intros y z _ Hstep IH. by eapply calls_ok_step. }
  destruct (Hok id) as [Ha Hc]; [by eexists|]. split_and!; [done|done| | |].
  - unfold finish_network_call, remove_call. rewrite Ho. destruct outcome; by eexists.
  - intros -> id' outcome'. unfold record_call_outcome. case_decide; [|done].
    destruct (decide (id' = id)) as [->|Hne]; [by rewrite Ho|].
    destruct (call_outcomes (calls s) !! id') as [[|]|]; cbn; by rewrite ?lookup_insert_ne.
  - unfold finish_network_call, remove_call. cbn. by rewrite lookup_delete_eq.
Qed.

(** ** Witnesses *)

Inductive Move :=
| Arrive (t : nat) (r : NetworkPolicyRequest)
| Go (t : nat) (input : Input)
| Drop (t : nat)
| Register (id : str).

Definition move (s : NetworkApprovalService) (m : Move) : option NetworkApprovalService :=
  match m with
  | Arrive t r => match threads s !! t with None => Some (set_thread s t (r, AtDenied)) | Some _ => None end
  | Go t input => thread_step s t input
  | Drop t =>
    match threads s !! t with
    | Some (r, pc) => if at_await pc then Some (set_thread s t (r, Dropped pc)) else None
    | None => None
    end
  | Register id => Some (set_calls s (register (calls s) id))
  end.

Definition play (ms : list Move) : option NetworkApprovalService :=
  foldl (fun s m => s ≫= (fun s => move s m)) (Some service_default) ms.

Lemma play_reachable ms s : play ms = Some s -> reachable s.
Proof.
  revert s. induction ms as [|m ms IH] using rev_ind; intros s; unfold play; cbn.
  { intros [= <-]. apply rtc_refl. }
  rewrite foldl_app. cbn. fold (play ms). destruct (play ms) as [s0|] eqn:E; [|done]. cbn. intros Hm.
  specialize (IH s0 eq_refl). eapply rtc_r; [exact IH|].
  destruct m as [t r|t input|t|id]; cbn in Hm.
  - destruct (threads s0 !! t) eqn:Et; [done|]. injection Hm as <-. by apply step_arrive.
  - by eapply step_thread.
  - destruct (threads s0 !! t) as [[r pc]|] eqn:Et; [|done]. destruct (at_await pc) eqn:Ea; [|done].
    injection Hm as <-. by apply step_drop.
  - injection Hm as <-. apply step_register.
Qed.

Definition demo_host : NetworkPolicyRequest := mk_policy_request (lit "Example.com") Https 443%N.

Definition enter (t : nat) : list Move := [Arrive t demo_host; Go t NoInput; Go t NoInput; Go t NoInput].

(** Request 0 asks, request 1 sleeps. *)
Definition asking_moves : list Move :=
  [Register (lit "c")] ++ enter 0 ++ [Go 0 (ActiveTurn (Some (read_only_profile, OnRequest)))] ++ enter 1
  ++ [Go 1 NoInput; Go 1 NoInput].

(** The user denies, and request 0 finishes. *)
Definition denied_moves : list Move :=
  asking_moves ++ [Go 0 (Answer (Reviewed None [] Denied))] ++ replicate 5 (Go 0 NoInput).

Definition after (ms : list Move) : NetworkApprovalService := default service_default (play ms).

Definition played (ms : list Move) : bool := match play ms with Some _ => true | None => false end.

Lemma after_reachable ms : played ms = true -> reachable (after ms).
Proof.
  unfold played, after. destruct (play ms) as [s|] eqn:E; [|done]. intros _. by apply (play_reachable ms).
Qed.

Lemma one_question_per_host_witness :
  exists r pc, threads (after asking_moves) !! 0 = Some (r, pc) /\ asking_pc pc /\ 0 = 0.
Proof.
  assert (reachable (after asking_moves)) as Hr by (apply after_reachable; vm_compute; reflexivity).
  assert (threads (after asking_moves) !! 0 = Some (demo_host, OwnerAsking 0 (Some (lit "c")))) as Ht by (vm_compute; reflexivity).
  exists demo_host, (OwnerAsking 0 (Some (lit "c"))). split; [exact Ht|]. split; [exact I|].
  apply (one_question_per_host _ 0 0 demo_host demo_host _ _ Hr Ht Ht); done.
Defined.

Lemma no_waiter_stranded_witness :
  exists d n s1 s2 s3, slots (after denied_moves) !! 0 = Some (mk_slot (Some d) n) /\
     thread_step (after denied_moves) 1 NoInput = Some s1 /\ thread_step s1 1 NoInput = Some s2 /\
     thread_step s2 1 NoInput = Some s3 /\
     threads s3 !! 1 = Some (demo_host, Finished (to_network_decision d) (Some 0)).
Proof.
  assert (reachable (after denied_moves)) as Hr by (apply after_reachable; vm_compute; reflexivity).
  assert (threads (after denied_moves) !! 1 = Some (demo_host, WaitNotified 0 0)) as Ht by (vm_compute; reflexivity).
  assert (forall t' r' pc', threads (after denied_moves) !! t' = Some (r', pc') -> owner_slot pc' <> Some 0) as Hnone.
  { assert (forallb (fun x => match owner_slot x.2.2 with None => true | Some _ => false end)
      (map_to_list (threads (after denied_moves))) = true) as Hall by (vm_compute; reflexivity).
    intros t' r' pc' Ht' Ho. apply elem_of_map_to_list, list_elem_of_In in Ht'.
    apply (proj1 (forallb_forall _ _) Hall) in Ht'. cbn [fst snd] in Ht'. rewrite Ho in Ht'. discriminate Ht'. }
  destruct (no_waiter_stranded _ 1 demo_host 0 0 Hr Ht) as [Hd|(t' & r' & pc' & Ht' & Ho & _)]; [|exact Hd|].
  - intros t' r' pc' Ht' Ho. by destruct (Hnone t' r' pc' Ht').
  - by destruct (Hnone t' r' pc' Ht').
Defined.

(** The client of request 0 goes away while the user is asked: request 1, which
    sleeps, is never woken, and a third request for the host sleeps too. *)
Lemma dropped_owner_strands_witness :
  let s := after (asking_moves ++ [Drop 0]) in
  let s' := after (asking_moves ++ [Drop 0] ++ enter 2 ++ [Go 2 NoInput; Go 2 NoInput]) in
  threads s' !! 1 = Some (demo_host, WaitNotified 0 0) /\
  threads s' !! 2 = Some (demo_host, WaitNotified 0 0) /\
  forall s2, rtc step s s2 -> pending_host_approvals s2 !! key_from_request demo_host = Some 0.
Proof.
  intros s s'. split; [vm_compute; reflexivity|]. split; [vm_compute; reflexivity|]. intros s2 Hs2.
  apply (dropped_owner_strands s s2 0 demo_host 0 (Some (lit "c")) 1 demo_host); [|vm_compute; reflexivity..|exact Hs2].
  apply after_reachable. vm_compute. reflexivity.
Defined.

Lemma waiters_agree_witness :
  NetworkDenied REASON_NOT_ALLOWED =
  to_network_decision (default AllowOnce (slot_decision (default (mk_slot None 0) (slots (after denied_moves) !! 0)))).
Proof.
  pose (ms := denied_moves ++ replicate 3 (Go 1 NoInput)).
  assert (reachable (after ms)) as Hr by (apply after_reachable; vm_compute; reflexivity).
  apply (waiters_agree (after ms) 0 1 demo_host demo_host _ _ 0 Hr); vm_compute; reflexivity.
Defined.

Lemma denied_calls_cancelled_witness :
  exists reason, (finish_network_call (calls (after denied_moves)) (lit "c")).2 = Some (Rejected reason).
Proof.
  assert (reachable (after denied_moves)) as Hr by (apply after_reachable; vm_compute; reflexivity).
  destruct (denied_calls_cancelled (after denied_moves) (lit "c") DeniedByUser Hr) as (_ & _ & Hf & _);
    [vm_compute; reflexivity|exact Hf].
Defined.
