(* ===== verification/PermissionTransforms.v ===== *)
(** * Additional permissions ([sandboxing/src/policy_transforms.rs])

    The permissions a command may ask for beyond its profile: their
    normalisation, the merge of two grants, the intersection of what was granted
    with what was asked for, and the profile a command runs with.  The compiler
    of glob patterns is a parameter: an error or the paths the pattern matches. *)

From S2P Require Export Orchestrator.

(** ** Data ([protocol/src/models.rs]) *)

Record FileSystemPermissions := mk_fs_permissions {
  perm_entries : list FileSystemSandboxEntry;
  perm_depth : option positive
}.

Definition fs_permissions_is_empty (p : FileSystemPermissions) : bool :=
  match perm_entries p with [] => true | _ => false end.

Definition fs_permissions_default : FileSystemPermissions := mk_fs_permissions [] None.

Record NetworkPermissions := mk_network_permissions { enabled : option bool }.

Definition network_is_empty (n : NetworkPermissions) : bool :=
  match enabled n with None => true | Some _ => false end.

Record AdditionalPermissionProfile := mk_additional {
  network : option NetworkPermissions;
  file_system : option FileSystemPermissions
}.

Definition additional_is_empty (p : AdditionalPermissionProfile) : bool :=
  match network p, file_system p with None, None => true | _, _ => false end.

#[export] Instance fs_permissions_eq_dec : EqDecision FileSystemPermissions.
Proof. solve_decision. Defined.
#[export] Instance network_permissions_eq_dec : EqDecision NetworkPermissions.
Proof. solve_decision. Defined.
#[export] Instance additional_eq_dec : EqDecision AdditionalPermissionProfile.
Proof. solve_decision. Defined.

Inductive SandboxEnforcement := EnforceManaged | EnforceDisabled | EnforceExternal.

#[export] Instance enforcement_eq_dec : EqDecision SandboxEnforcement.
Proof. solve_decision. Defined.

Definition enforcement (p : PermissionProfile) : SandboxEnforcement :=
  match p with
  | Managed _ _ => EnforceManaged
  | Disabled => EnforceDisabled
  | External _ => EnforceExternal
  end.

Definition to_runtime_permissions (p : PermissionProfile)
    : FileSystemSandboxPolicy * NetworkSandboxPolicy :=
  (file_system_sandbox_policy p, network_sandbox_policy p).

(** [None] is the [unreachable!] of [from_sandbox_policy]. *)
Definition from_runtime_permissions_with_enforcement (e : SandboxEnforcement)
    (p : FileSystemSandboxPolicy) (n : NetworkSandboxPolicy) : option PermissionProfile :=
  match policy_kind p with
  | ExternalSandbox => Some (External n)
  | Unrestricted =>
    if bool_decide (e = EnforceDisabled) then Some Disabled
    else (fun m => Managed m n) <$> from_sandbox_policy p
  | Restricted => (fun m => Managed m n) <$> from_sandbox_policy p
  end.

(** [NonZeroUsize::new] *)
Definition nonzero (n : nat) : option positive :=
  match n with 0 => None | S _ => Some (Pos.of_nat n) end.

(** [if !v.contains(&e) { v.push(e) }] *)
Definition push_new {A} `{EqDecision A} (l : list A) (e : A) : list A :=
  if decide (e ∈ l) then l else l ++ [e].

(** ** Depth of glob scans *)

Inductive GlobScanDepth := Bounded (depth : nat) | Unbounded.

Definition is_glob (p : FileSystemPath) : bool := match p with GlobPattern _ => true | _ => false end.

Definition effective_glob_scan_depth (l : list FileSystemSandboxEntry) (depth : option nat)
    : option GlobScanDepth :=
  if existsb (fun e => bool_decide (access e = Deny) && is_glob (entry_path e)) l
  then Some (match depth with Some depth => Bounded depth | None => Unbounded end) else None.

Definition merge_glob_scan_max_depth (left_entries : list FileSystemSandboxEntry)
    (left_depth : option nat) (right_entries : list FileSystemSandboxEntry) (right_depth : option nat)
    : option nat :=
  match effective_glob_scan_depth left_entries left_depth,
        effective_glob_scan_depth right_entries right_depth with
  | Some Unbounded, _ | _, Some Unbounded => None
  | Some (Bounded l), Some (Bounded r) => Some (l `max` r)
  | Some (Bounded depth), None | None, Some (Bounded depth) => Some depth
  | None, None => None
  end.

(** ** Merging *)

Definition merge_permission_entries (base permissions : list FileSystemSandboxEntry)
    : list FileSystemSandboxEntry := foldl push_new [] (base ++ permissions).

Definition network_enabled (n : option NetworkPermissions) : bool :=
  match n with Some (mk_network_permissions (Some true)) => true | _ => false end.

Definition network_on : option NetworkPermissions := Some (mk_network_permissions (Some true)).

(** [Option::filter] *)
Definition opt_filter {A} (f : A -> bool) (o : option A) : option A :=
  x ← o; if f x then Some x else None.

Definition merge_permission_profiles (base permissions : option AdditionalPermissionProfile)
    : option AdditionalPermissionProfile :=
  match permissions with
  | None => base
  | Some permissions =>
    match base with
    | Some base =>
      let n := if network_enabled (network base) || network_enabled (network permissions)
               then network_on else None in
      let fs :=
        match file_system base, file_system permissions with
        | Some base, Some permissions =>
          opt_filter (fun fs => negb (fs_permissions_is_empty fs))
            (Some (mk_fs_permissions
               (merge_permission_entries (perm_entries base) (perm_entries permissions))
               (merge_glob_scan_max_depth (perm_entries base) (Pos.to_nat <$> perm_depth base)
                  (perm_entries permissions) (Pos.to_nat <$> perm_depth permissions) ≫= nonzero)))
        | Some base, None => Some base
        | None, Some permissions => Some permissions
        | None, None => None
        end in
      opt_filter (fun p => negb (additional_is_empty p)) (Some (mk_additional n fs))
    | None => opt_filter (fun p => negb (additional_is_empty p)) (Some permissions)
    end
  end.

(** ** Access and overlap *)

Definition paths_overlap (lhs rhs : path) : bool :=
  path_starts_with lhs rhs || path_starts_with rhs lhs.

Definition access_covers (requested granted : FileSystemAccessMode) : bool :=
  match granted with
  | Read => can_read requested
  | Write => can_write requested
  | Deny => false
  end.

Fixpoint insert_str (x : str) (l : list str) : list str :=
  match l with [] => [x] | y :: l' => if str_leb x y then x :: l else y :: insert_str x l' end.

(** [Vec::sort] and [Vec::dedup] on strings *)
Definition sort_strs (l : list str) : list str := foldr insert_str [] l.

Fixpoint dedup_strs (l : list str) : list str :=
  match l with
  | x :: (y :: _) as l' => if str_eqb x y then dedup_strs l' else x :: dedup_strs l'
  | l => l
  end.

Record ReadDenyMatcher := mk_matcher {
  denied_candidates : list (list path);
  deny_read_matchers : list (path -> bool);
  invalid_pattern : bool
}.

Definition find_index (f : char -> bool) : str -> option nat :=
  fix go s := match s with
              | [] => None
              | c :: s => if f c then Some 0 else S <$> go s
              end.

Definition is_glob_char (c : char) : bool := existsb (N.eqb c) (lit "*?[]").

Section transforms.
Variable E : FsEnv.
Variable build_glob_matcher : str -> str + (path -> bool).

(** ** Normalisation *)

Definition GLOB_ACCESS_ERROR : str := lit "glob file system permissions only support deny-read entries".

Definition normalize_path_entry (p : FileSystemPath) : FileSystemPath :=
  match p with
  | FsPath p => FsPath (default p (canonicalize_preserving_symlinks E p ≫= abs_from E))
  | p => p
  end.

Fixpoint normalize_entries (l out : list FileSystemSandboxEntry) : str + list FileSystemSandboxEntry :=
  match l with
  | [] => inr out
  | e :: l =>
    if is_glob (entry_path e) && negb (bool_decide (access e = Deny)) then inl GLOB_ACCESS_ERROR
    else normalize_entries l (push_new out (mk_entry (normalize_path_entry (entry_path e)) (access e)))
  end.

Definition normalize_additional_permissions (p : AdditionalPermissionProfile)
    : str + AdditionalPermissionProfile :=
  let n := opt_filter (fun n => negb (network_is_empty n)) (network p) in
  match file_system p with
  | None => inr (mk_additional n None)
  | Some fs =>
    match normalize_entries (perm_entries fs) [] with
    | inl err => inl err
    | inr l =>
      let fs := mk_fs_permissions l (perm_depth fs) in
      inr (mk_additional n (if fs_permissions_is_empty fs then None else Some fs))
    end
  end.

(** ** Paths of entries *)

Definition resolve_permission_path (p : FileSystemPath) (cwd : path) : option path :=
  match p with
  | FsPath p => Some p
  | GlobPattern _ => None
  | Special value =>
    match value with
    | Root => abs_from E (if is_absolute cwd then take 1 cwd else [])
    | ProjectRoots subpath =>
      cwd ← abs_from E cwd;
      Some (match subpath with Some subpath => resolve_against E subpath cwd | None => cwd end)
    | Tmpdir =>
      tmpdir ← tmpdir_var E;
      match tmpdir with [] => None | _ => abs_from E (components tmpdir) end
    | SlashTmp => opt_filter (is_dir E) (abs_from E (components (lit "/tmp")))
    | Minimal | Unknown _ _ => None
    end
  end.

Definition materialize_cwd_dependent_entry (e : FileSystemSandboxEntry) (cwd : path)
    : FileSystemSandboxEntry :=
  match entry_path e with
  | Special (ProjectRoots _) =>
    match resolve_permission_path (entry_path e) cwd with
    | Some q => mk_entry (FsPath q) (access e)
    | None => e
    end
  | GlobPattern pattern =>
    mk_entry (GlobPattern (display (resolve_against E (components pattern) cwd))) (access e)
  | _ => e
  end.

Definition glob_static_prefix_path (pattern : str) (cwd : path) : option path :=
  let resolved_pattern := display (resolve_against E (components pattern) cwd) in
  prefix ← match find_index is_glob_char resolved_pattern with
           | Some 0 => None
           | Some index =>
             let prefix := take index resolved_pattern in
             if ends_with [SLASH] prefix || ends_with [92%N] prefix then Some (components prefix)
             else parent (components prefix)
           | None => Some (components resolved_pattern)
           end;
  abs_from E prefix.

(** ** The matcher of denied reads ([protocol/src/permissions.rs]) *)

Definition normalized_and_canonical_candidates (p : path) : list path :=
  let candidates := push_new [] (default p (abs_from E p)) in
  match canonicalize E p ≫= abs_from E with
  | Some canonical => push_new candidates canonical
  | None => candidates
  end.

Definition get_unreadable_globs_with_cwd (p : FileSystemSandboxPolicy) (cwd : path) : list str :=
  if negb (is_restricted p) then []
  else
    dedup_strs (sort_strs (omap (fun e =>
      match entry_path e with
      | GlobPattern pattern =>
        if bool_decide (access e = Deny) then Some (display (resolve_against E (components pattern) cwd))
        else None
      | _ => None
      end) (entries p))).

(** The loop of [ReadDenyMatcher::build]; invalid patterns end it when
    [fail_closed] is false. *)
Fixpoint compile_globs (fail_closed : bool) (patterns : list str) (m : ReadDenyMatcher)
    : str + ReadDenyMatcher :=
  match patterns with
  | [] => inr m
  | pattern :: patterns =>
    match build_glob_matcher pattern with
    | inr matcher =>
      compile_globs fail_closed patterns
        (mk_matcher (denied_candidates m) (deny_read_matchers m ++ [matcher]) (invalid_pattern m))
    | inl err =>
      if fail_closed then
        compile_globs fail_closed patterns (mk_matcher (denied_candidates m) (deny_read_matchers m) true)
      else inl (lit "invalid deny-read glob pattern `" ++ pattern ++ lit "`: " ++ err)
    end
  end.

Definition matcher_build (fail_closed : bool) (p : FileSystemSandboxPolicy) (cwd : path)
    : str + option ReadDenyMatcher :=
  if negb (has_denied_read_restrictions p) then inr None
  else
    let m := mk_matcher
      (normalized_and_canonical_candidates <$> get_unreadable_roots_with_cwd E p cwd) [] false in
    match compile_globs fail_closed (get_unreadable_globs_with_cwd p cwd) m with
    | inl err => inl err
    | inr m => inr (Some m)
    end.

(** [ReadDenyMatcher::new]; an error is [unreachable!]. *)
Definition matcher_new (p : FileSystemSandboxPolicy) (cwd : path) : option (option ReadDenyMatcher) :=
  match matcher_build true p cwd with inr m => Some m | inl _ => None end.

Definition matcher_try_new (p : FileSystemSandboxPolicy) (cwd : path) : str + option ReadDenyMatcher :=
  matcher_build false p cwd.

Definition is_read_denied (m : ReadDenyMatcher) (p : path) : bool :=
  if invalid_pattern m then true
  else
    let path_candidates := normalized_and_canonical_candidates p in
    if existsb (fun denied =>
         existsb (fun candidate =>
           existsb (fun d => bool_decide (candidate = d) || path_starts_with candidate d) denied)
           path_candidates) (denied_candidates m)
    then true
    else existsb (fun matcher => existsb matcher path_candidates) (deny_read_matchers m).

(** ** Intersection *)

Definition granted_file_system_entry_within_request (requested : FileSystemPermissions)
    (requested_policy : FileSystemSandboxPolicy) (matcher : option ReadDenyMatcher)
    (granted_entry : FileSystemSandboxEntry) (cwd : path) : bool :=
  if negb (can_read (access granted_entry)) then false
  else
    match resolve_permission_path (entry_path granted_entry) cwd with
    | Some p =>
      if match matcher with Some m => is_read_denied m p | None => false end then false
      else access_covers (resolve_access_with_cwd E requested_policy p cwd) (access granted_entry)
    | None =>
      existsb (fun requested_entry =>
        access_covers (access requested_entry) (access granted_entry)
        && bool_decide (entry_path requested_entry = entry_path granted_entry)) (perm_entries requested)
    end.

Definition deny_entry_constrains_accepted_grant (deny_entry : FileSystemSandboxEntry)
    (accepted_entries : list FileSystemSandboxEntry) (cwd : path) : bool :=
  existsb (fun e =>
    can_read (access e) &&
    match resolve_permission_path (entry_path e) cwd with
    | None => false
    | Some grant_path =>
      match entry_path deny_entry with
      | GlobPattern pattern =>
        match glob_static_prefix_path pattern cwd with
        | Some prefix => paths_overlap prefix grant_path
        | None => false
        end
      | p =>
        match resolve_permission_path p cwd with
        | Some deny_path => paths_overlap deny_path grant_path
        | None => false
        end
      end
    end) accepted_entries.

(** The retained entries and the new output. *)
Definition retain_constraining_deny_entries (source_entries accepted_entries : list FileSystemSandboxEntry)
    (cwd : path) (output_entries : list FileSystemSandboxEntry)
    : list FileSystemSandboxEntry * list FileSystemSandboxEntry :=
  let retained :=
    (fun e => materialize_cwd_dependent_entry e cwd) <$>
    filter (fun e => access e = Deny /\ deny_entry_constrains_accepted_grant e accepted_entries cwd = true)
      source_entries in
  (retained, foldl push_new output_entries retained).

Definition intersect_file_system (requested : FileSystemPermissions)
    (granted : FileSystemPermissions) (cwd : path) (matcher : option ReadDenyMatcher)
    : FileSystemPermissions :=
  let requested_policy := fs_restricted (perm_entries requested) in
  let accepted_entries :=
    foldl push_new []
      ((fun e => materialize_cwd_dependent_entry e cwd) <$>
       filter (fun e => granted_file_system_entry_within_request requested requested_policy matcher e cwd
                        = true) (perm_entries granted)) in
  let '(requested_retained, out) :=
    retain_constraining_deny_entries (perm_entries requested) accepted_entries cwd accepted_entries in
  let '(granted_retained, out) :=
    retain_constraining_deny_entries (perm_entries granted) accepted_entries cwd out in
  mk_fs_permissions out
    (merge_glob_scan_max_depth requested_retained (Pos.to_nat <$> perm_depth requested)
       granted_retained (Pos.to_nat <$> perm_depth granted) ≫= nonzero).

Definition intersect_permission_profiles (requested granted : AdditionalPermissionProfile) (cwd : path)
    : option AdditionalPermissionProfile :=
  fs ← match file_system requested with
       | None => Some None
       | Some requested_fs =>
         matcher ← matcher_new (fs_restricted (perm_entries requested_fs)) cwd;
         Some (opt_filter (fun fs => negb (fs_permissions_is_empty fs))
                 (Some (intersect_file_system requested_fs
                          (default fs_permissions_default (file_system granted)) cwd matcher)))
       end;
  Some (mk_additional
          (if network_enabled (network requested) && network_enabled (network granted)
           then network_on else None) fs).
End transforms.

(** ** The profile of a command *)

Definition merge_file_system_policy_with_additional_permissions (p : FileSystemSandboxPolicy)
    (additional : FileSystemPermissions) : FileSystemSandboxPolicy :=
  match policy_kind p with
  | Restricted =>
    mk_fs_policy Restricted
      (merge_glob_scan_max_depth (entries p) (glob_scan_max_depth p)
         (perm_entries additional) (Pos.to_nat <$> perm_depth additional))
      (foldl push_new (entries p) (perm_entries additional))
  | Unrestricted | ExternalSandbox => p
  end.

Definition effective_file_system_sandbox_policy (p : FileSystemSandboxPolicy)
    (additional : option AdditionalPermissionProfile) : FileSystemSandboxPolicy :=
  match additional with
  | None => p
  | Some additional =>
    match file_system additional with
    | None => p
    | Some fs => if fs_permissions_is_empty fs then p
                 else merge_file_system_policy_with_additional_permissions p fs
    end
  end.

Definition is_enabled (n : NetworkSandboxPolicy) : bool :=
  match n with NetEnabled => true | NetRestricted => false end.

Definition merge_network_access (base_network_access : bool) (p : AdditionalPermissionProfile) : bool :=
  base_network_access || default false (network p ≫= enabled).

Definition effective_network_sandbox_policy (n : NetworkSandboxPolicy)
    (additional : option AdditionalPermissionProfile) : NetworkSandboxPolicy :=
  match additional with
  | Some p => if merge_network_access (is_enabled n) p then NetEnabled else NetRestricted
  | None => n
  end.

Definition effective_permission_profile (p : PermissionProfile)
    (additional : option AdditionalPermissionProfile) : option PermissionProfile :=
  let '(fs, n) := to_runtime_permissions p in
  from_runtime_permissions_with_enforcement (enforcement p)
    (effective_file_system_sandbox_policy fs additional)
    (effective_network_sandbox_policy n additional).

(** ** Resolved entries *)

Lemma push_new_elem {A} `{EqDecision A} (l : list A) e x : x ∈ push_new l e <-> x ∈ l \/ x = e.
Proof.
  unfold push_new. case_decide; [naive_solver|]. rewrite elem_of_app, list_elem_of_singleton. done.
Qed.

Lemma push_all_elem {A} `{EqDecision A} (l l' : list A) x : x ∈ foldl push_new l l' <-> x ∈ l \/ x ∈ l'.
Proof.
  revert l. induction l' as [|e l' IH]; intros l; cbn; [set_solver|].
  rewrite IH, push_new_elem, elem_of_cons. tauto.
Qed.

Lemma paths_overlap_prefixes a b x : a `prefix_of` x -> b `prefix_of` x -> paths_overlap a b = true.
Proof.
  intros Ha Hb. unfold paths_overlap. rewrite orb_true_iff, !path_starts_with_true.
  destruct (prefix_weak_total a b x); tauto.
Qed.

Section resolved.
Variable E : FsEnv.
Variable cwd : path.
Hypothesis Henv : env_wf E.
Hypothesis Hcwd : absolute cwd.

Lemma resolve_permission_entry p : resolve_permission_path E p cwd = resolve_entry_path E p (abs_from E cwd).
Proof.
  destruct p as [p|g|[| |s| | |]]; try done; cbn [resolve_permission_path resolve_entry_path].
  - rewrite (abs_from_absolute E cwd) by done. cbn. destruct Hcwd as (names & -> & _). cbn.
    apply abs_from_absolute, root_absolute.
  - cbn. change (components (lit "/tmp")) with [RootDir; Normal (lit "tmp")].
    by rewrite abs_from_absolute by apply tmp_absolute.
Qed.

Lemma materialize_access e : access (materialize_cwd_dependent_entry E e cwd) = access e.
Proof. unfold materialize_cwd_dependent_entry. by repeat case_match. Qed.

Lemma materialize_resolves e :
  resolve_entry_path E (entry_path (materialize_cwd_dependent_entry E e cwd)) (abs_from E cwd) =
  resolve_entry_path E (entry_path e) (abs_from E cwd).
Proof.
  unfold materialize_cwd_dependent_entry. destruct (entry_path e) as [p|g|[| |s| | |]] eqn:Ee;
    rewrite ?Ee; try done. rewrite resolve_permission_entry.
  destruct (resolve_entry_path E (Special (ProjectRoots s)) _) eqn:Er; [done|]. by rewrite Ee, Er.
Qed.

(** The entry [r] comes from a listed entry. *)
Definition comes_from (l : list FileSystemSandboxEntry) (r : ResolvedFileSystemEntry) : Prop :=
  r ∈ resolved_entries_with_cwd E (fs_restricted l) cwd.

Lemma comes_from_spec l r :
  comes_from l r <-> exists e, e ∈ l /\ resolved_access r = access e /\
    resolve_permission_path E (entry_path e) cwd = Some (resolved_path r).
Proof. unfold comes_from. rewrite resolved_elem. setoid_rewrite resolve_permission_entry. done. Qed.

Lemma comes_from_absolute l r : Forall entry_wf l -> comes_from l r -> absolute (resolved_path r).
Proof. intros Hl. apply resolved_absolute; [done|done|by apply absolute_components]. Qed.

Lemma comes_from_union l l' r : comes_from (foldl push_new l l') r <-> comes_from l r \/ comes_from l' r.
Proof. rewrite !comes_from_spec. setoid_rewrite push_all_elem. naive_solver. Qed.

Lemma comes_from_materialized l r :
  comes_from ((fun e => materialize_cwd_dependent_entry E e cwd) <$> l) r <-> comes_from l r.
Proof.
  rewrite !comes_from_spec. setoid_rewrite list_elem_of_fmap. setoid_rewrite resolve_permission_entry. split.
  - intros (? & (e & -> & He) & Ha & Hr). exists e. rewrite materialize_access, materialize_resolves in *. done.
  - intros (e & He & Ha & Hr). eexists. split; [by exists e|].
    by rewrite materialize_access, materialize_resolves.
Qed.

Lemma comes_from_filter (P : FileSystemSandboxEntry -> Prop) `{forall e, base.Decision (P e)} l r :
  comes_from (filter P l) r <-> exists e, e ∈ l /\ P e /\ resolved_access r = access e /\
    resolve_permission_path E (entry_path e) cwd = Some (resolved_path r).
Proof. rewrite comes_from_spec. setoid_rewrite list_elem_of_filter. naive_solver. Qed.

(** [r] wins over every entry of the list that contains [x]. *)
Definition decides (l : list FileSystemSandboxEntry) (x : path) (r : ResolvedFileSystemEntry) : Prop :=
  comes_from l r /\ resolved_path r `prefix_of` x /\
  forall r', comes_from l r' -> resolved_path r' `prefix_of` x ->
    length (resolved_path r') <= length (resolved_path r) /\
    (resolved_path r' = resolved_path r ->
     access_rank (resolved_access r') <= access_rank (resolved_access r)).

Definition access_in (l : list FileSystemSandboxEntry) (x : path) : FileSystemAccessMode :=
  resolve_access_with_cwd E (fs_restricted l) x cwd.

Lemma access_cases l x : absolute x ->
  (exists r, decides l x r /\ access_in l x = resolved_access r) \/
  (access_in l x = Deny /\ forall r, comes_from l r -> ~ resolved_path r `prefix_of` x).
Proof.
  intros Hx. destruct (resolve_access_decided E (fs_restricted l) x x cwd eq_refl (candidate_absolute E x cwd Hx))
    as [(r & [Hr Hp] & Ha & Hm)|[Ha Hn]].
  - left. exists r. split; [|done]. split; [done|]. split; [done|].
    intros r' Hr' Hp'. rewrite Ha. by apply Hm.
  - right. split; [done|]. intros r Hr Hp. by apply (Hn r).
Qed.

Lemma access_decides l x r : absolute x -> decides l x r -> access_in l x = resolved_access r.
Proof.
  intros Hx (Hr & Hp & Hm). eapply (decided_unique E (fs_restricted l) cwd x).
  - apply resolve_access_decided; [done|by apply candidate_absolute].
  - left. exists r. split; [by split|]. split; [done|]. intros r' [Hr' Hp']. by apply Hm.
Qed.

Lemma access_open l x : absolute x -> access_in l x <> Deny ->
  exists r, decides l x r /\ access_in l x = resolved_access r.
Proof. intros Hx Ha. destruct (access_cases l x Hx) as [|[]]; done. Qed.

Lemma access_closed l x r : absolute x -> access_in l x = Deny -> comes_from l r ->
  resolved_path r `prefix_of` x -> exists d, decides l x d /\ resolved_access d = Deny.
Proof.
  intros Hx Ha Hr Hp. destruct (access_cases l x Hx) as [(d & Hd & He)|[_ Hn]]; [|by destruct (Hn r)].
  exists d. split; [done|congruence].
Qed.

(** A path denied below an open directory is denied by an entry below it. *)
Lemma denied_below l w x :
  absolute w -> absolute x -> w `prefix_of` x -> access_in l w <> Deny -> access_in l x = Deny ->
  exists d, comes_from l d /\ resolved_access d = Deny /\ resolved_path d `prefix_of` x /\
    length w < length (resolved_path d).
Proof.
  intros Hw Hx Hwx Haw Hax.
  destruct (access_open l w Hw Haw) as (e & (He & Hep & Hem) & Hea).
  assert (resolved_path e `prefix_of` x) as Hex by (by etrans).
  destruct (access_closed l x e Hx Hax He Hex) as (d & (Hd & Hdp & Hdm) & Hda).
  exists d. split_and!; try done. destruct (decide (length w < length (resolved_path d))) as [|Hn]; [done|].
  assert (resolved_path d `prefix_of` w) as Hdw by (apply (prefix_shorter x); [done|done|lia]).
  destruct (Hem d Hd Hdw) as [Hl1 Hr], (Hdm e He Hex) as [Hl2 _].
  assert (resolved_path d = resolved_path e) as Heq by (eapply prefix_same_length; [exact Hdw|done|lia]).
  specialize (Hr Heq). rewrite Hda in Hr. destruct (resolved_access e); cbn in Hr; [lia|lia|congruence].
Qed.
End resolved.

(** ** What an intersection grants *)

Section intersection.
Variable E : FsEnv.
Variable cwd : path.
Hypothesis Henv : env_wf E.
Hypothesis Hcwd : absolute cwd.
Variables requested granted : FileSystemPermissions.
Variable matcher : option ReadDenyMatcher.
Hypothesis Hreq : Forall entry_wf (perm_entries requested).
Hypothesis Hgr : Forall entry_wf (perm_entries granted).

Notation Q := (perm_entries requested).
Notation G := (perm_entries granted).
Notation R := (perm_entries (intersect_file_system E requested granted cwd matcher)).

Definition matcher_denies (p : path) : bool :=
  match matcher with Some m => is_read_denied E m p | None => false end.

(** A granted entry that the intersection keeps. *)
Definition kept (r : ResolvedFileSystemEntry) : Prop :=
  comes_from E cwd G r /\ resolved_access r <> Deny /\ matcher_denies (resolved_path r) = false /\
  access_covers (access_in E cwd Q (resolved_path r)) (resolved_access r) = true.

Let accepted : list FileSystemSandboxEntry :=
  foldl push_new []
    ((fun e => materialize_cwd_dependent_entry E e cwd) <$>
     filter (fun e => granted_file_system_entry_within_request E requested
       (fs_restricted (perm_entries requested)) matcher e cwd = true) (perm_entries granted)).

Lemma accepted_kept r : comes_from E cwd accepted r <-> kept r.
Proof.
  unfold accepted. rewrite comes_from_union, comes_from_materialized, comes_from_filter by done.
  assert (forall r', ~ comes_from E cwd [] r') as Hnil.
  { intros r' H. apply comes_from_spec in H as (e & He & _); [|done..]. by apply elem_of_nil in He. }
  unfold kept, granted_file_system_entry_within_request.
  rewrite (comes_from_spec E cwd Hcwd G). split.
  - intros [[]%Hnil|(e & He & Hw & Ha & Hp)]. rewrite Hp in Hw.
    change (match matcher with Some m => is_read_denied E m (resolved_path r) | None => false end)
      with (matcher_denies (resolved_path r)) in Hw.
    assert (can_read (access e) = true) as Hc by (by destruct (can_read (access e))).
    rewrite Hc in Hw. cbn in Hw. rewrite <- Ha in Hw. split; [by exists e|].
    split; [intros Hd; rewrite <- Ha, Hd in Hc; done|]. by destruct (matcher_denies _).
  - intros ((e & He & Ha & Hp) & Hd & Hm & Hc). right. exists e. split; [done|].
    split; [|done]. rewrite Hp. unfold matcher_denies in Hm. rewrite Hm. cbn. rewrite <- Ha.
    assert (can_read (resolved_access r) = true) as -> by (by destruct (resolved_access r)). done.
Qed.

(** A denial is kept where it overlaps a kept grant. *)
Definition constraining (l : list FileSystemSandboxEntry) (d : ResolvedFileSystemEntry) : Prop :=
  comes_from E cwd l d /\ resolved_access d = Deny /\
  exists w, kept w /\ paths_overlap (resolved_path d) (resolved_path w) = true.

Lemma constrains_spec d p :
  resolve_permission_path E (entry_path d) cwd = Some p ->
  deny_entry_constrains_accepted_grant E d accepted cwd = true <->
  exists w, kept w /\ paths_overlap p (resolved_path w) = true.
Proof.
  intros Hp. unfold deny_entry_constrains_accepted_grant. rewrite existsb_exists. setoid_rewrite <- list_elem_of_In. split.
  - intros (e & He & [Hc Ho]%andb_true_iff).
    destruct (resolve_permission_path E (entry_path e) cwd) as [g|] eqn:Eg; [|done].
    exists (mk_resolved g (access e)). split.
    + apply accepted_kept, comes_from_spec; [done|]. by exists e.
    + cbn. destruct (entry_path d) eqn:Ed; [|done|]; by rewrite Hp in Ho.
  - intros (w & Hw & Ho). pose proof Hw as (_ & Hd & _).
    apply accepted_kept, comes_from_spec in Hw as (e & He & Ha & Hr); [|done..].
    exists e. split; [done|]. rewrite Hr, <- Ha. apply andb_true_iff. split; [by destruct (resolved_access w)|].
    destruct (entry_path d) eqn:Ed; [|done|]; by rewrite Hp.
Qed.

Lemma retained_spec l r :
  comes_from E cwd (retain_constraining_deny_entries E l accepted cwd []).1 r <-> constraining l r.
Proof.
  cbn. rewrite comes_from_materialized, comes_from_filter by done. unfold constraining.
  rewrite (comes_from_spec E cwd Hcwd l). split.
  - intros (e & He & [Hd Hc] & Ha & Hp). rewrite Ha. apply (constrains_spec e _ Hp) in Hc. naive_solver.
  - intros ((e & He & Ha & Hp) & Hd & Hc). exists e. split; [done|]. split; [|done].
    rewrite (constrains_spec e _ Hp). split; [congruence|done].
Qed.

Lemma intersection_entries r : comes_from E cwd R r <-> kept r \/ constraining Q r \/ constraining G r.
Proof.
  unfold intersect_file_system. cbn. fold accepted.
  rewrite !(comes_from_union E cwd Hcwd), accepted_kept.
  pose proof (retained_spec Q r) as HQ. pose proof (retained_spec G r) as HG. cbn in HQ, HG.
  rewrite HQ, HG. tauto.
Qed.

Section at_path.
Variable x : path.
Hypothesis Hx : absolute x.

Lemma kept_open w : kept w -> access_in E cwd Q (resolved_path w) <> Deny.
Proof. intros (_ & _ & _ & Hc) Hd. rewrite Hd in Hc. by destruct (resolved_access w). Qed.

Lemma kept_absolute w : kept w -> absolute (resolved_path w).
Proof. intros (Hg & _). by apply (comes_from_absolute E cwd Henv Hcwd G). Qed.

Lemma open_kept r : decides E cwd R x r -> resolved_access r <> Deny -> kept r.
Proof.
  intros (Hr & _) Hd. apply intersection_entries in Hr as [|[(_ & ? & _)|(_ & ? & _)]]; done.
Qed.

(** A denial that reaches [x] cannot be longer than the kept grant that decides. *)
Lemma winner_beats_denials r l d :
  decides E cwd R x r -> resolved_access r <> Deny -> l = Q \/ l = G ->
  comes_from E cwd l d -> resolved_access d = Deny -> resolved_path d `prefix_of` x ->
  length (resolved_path d) < length (resolved_path r).
Proof.
  intros Hr Ho Hl Hd Ha Hp. pose proof (open_kept r Hr Ho) as Hk. destruct Hr as (_ & Hrp & Hm).
  assert (comes_from E cwd R d) as HR.
  { apply intersection_entries. right.
    assert (constraining l d) as Hc; [|by destruct Hl as [-> | ->]; [left|right]].
    split; [done|]. split; [done|]. exists r. split; [done|]. by eapply paths_overlap_prefixes. }
  destruct (Hm d HR Hp) as [Hle He].
  destruct (decide (length (resolved_path d) = length (resolved_path r))) as [Heq|]; [|lia].
  assert (resolved_path d = resolved_path r) as Hpe by (by eapply prefix_same_length).
  specialize (He Hpe). rewrite Ha in He. destruct (resolved_access r); cbn in He; [lia|lia|done].
Qed.

(** A request that denies below a kept grant leaves a denial in the result. *)
Lemma request_open_below r y :
  decides E cwd R x r -> resolved_access r <> Deny -> absolute y ->
  resolved_path r `prefix_of` y -> y `prefix_of` x -> access_in E cwd Q y <> Deny.
Proof.
  intros Hr Ho Hy Hry Hyx Ha. pose proof (open_kept r Hr Ho) as Hk.
  destruct (denied_below E cwd Q (resolved_path r) y (kept_absolute r Hk) Hy Hry (kept_open r Hk) Ha)
    as (d & Hd & Hda & Hdp & Hl).
  pose proof (winner_beats_denials r Q d Hr Ho (or_introl eq_refl) Hd Hda ltac:(by etrans)). lia.
Qed.

Lemma intersection_reads : access_in E cwd R x <> Deny ->
  access_in E cwd Q x <> Deny /\ access_in E cwd G x <> Deny.
Proof.
  intros Ha. destruct (access_open E cwd R x Hx Ha) as (r & Hr & He). rewrite He in Ha.
  split; [apply (request_open_below r); [done|done|done|apply Hr|done]|]. intros Hg.
  pose proof (open_kept r Hr Ha) as (Hrg & _). pose proof Hr as (_ & Hrp & _).
  destruct (access_closed E cwd G x r Hx Hg Hrg Hrp) as (d & (Hd & Hdp & Hdm) & Hda).
  pose proof (winner_beats_denials r G d Hr Ha (or_intror eq_refl) Hd Hda Hdp).
  destruct (Hdm r Hrg Hrp). lia.
Qed.

Lemma intersection_writes_granted : access_in E cwd R x = Write ->
  access_in E cwd G x = Write \/
  exists g, comes_from E cwd G g /\ resolved_path g `prefix_of` x /\ matcher_denies (resolved_path g) = true.
Proof.
  intros Ha. destruct (intersection_reads ltac:(by rewrite Ha)) as [_ Hg].
  destruct (access_open E cwd R x Hx ltac:(by rewrite Ha)) as (r & Hr & He). rewrite Ha in He.
  pose proof (open_kept r Hr ltac:(by rewrite <- He)) as Hk. pose proof Hk as (Hrg & _).
  pose proof Hr as (_ & Hrp & Hm). destruct (access_open E cwd G x Hx Hg) as (g & (Hgg & Hgp & Hgm) & Hga).
  destruct (Hgm r Hrg Hrp) as [Hl Hrk]. destruct (resolved_access g) eqn:Eg; [|by left|done]. right.
  assert (length (resolved_path r) < length (resolved_path g)) as Hlt.
  { destruct (decide (length (resolved_path r) = length (resolved_path g))) as [Hq|]; [|lia].
    assert (resolved_path r = resolved_path g) as Hpe by (by eapply prefix_same_length).
    specialize (Hrk Hpe). rewrite <- He in Hrk. cbn in Hrk. lia. }
  exists g. split; [done|]. split; [done|]. destruct (matcher_denies (resolved_path g)) eqn:Em; [done|]. exfalso.
  destruct (can_read (access_in E cwd Q (resolved_path g))) eqn:Ec.
  - assert (comes_from E cwd R g) as HR.
    { apply intersection_entries. left. split_and!; [done|by rewrite Eg|done|by rewrite Eg]. }
    destruct (Hm g HR Hgp). lia.
  - apply (request_open_below r (resolved_path g) Hr ltac:(by rewrite <- He)); [| |done|].
    + by apply (comes_from_absolute E cwd Henv Hcwd G).
    + apply (prefix_shorter x); [done|done|lia].
    + by destruct (access_in _ _ _ (resolved_path g)).
Qed.

Lemma intersection_writes_requested : access_in E cwd R x = Write ->
  access_in E cwd Q x = Write \/
  exists w n, comes_from E cwd Q w /\ resolved_access w = Write /\
    comes_from E cwd Q n /\ resolved_access n = Read /\ resolved_path n `prefix_of` x /\
    resolved_path w `prefix_of` resolved_path n /\ resolved_path w <> resolved_path n.
Proof.
  intros Ha. destruct (intersection_reads ltac:(by rewrite Ha)) as [Hq _].
  destruct (access_open E cwd R x Hx ltac:(by rewrite Ha)) as (r & Hr & He). rewrite Ha in He.
  pose proof (open_kept r Hr ltac:(by rewrite <- He)) as Hk. pose proof Hk as (_ & _ & _ & Hc).
  pose proof Hr as (_ & Hrp & _). rewrite <- He in Hc. cbn [access_covers] in Hc.
  destruct (access_open E cwd Q x Hx Hq) as (n & (Hn & Hnp & Hnm) & Hna).
  destruct (access_open E cwd Q (resolved_path r) (kept_absolute r Hk) (kept_open r Hk)) as (w & (Hw & Hwp & _) & Hwa).
  assert (resolved_path w `prefix_of` x) as Hwx by (by etrans).
  destruct (Hnm w Hw Hwx) as [Hl Hrk]. rewrite Hwa in Hc.
  destruct (resolved_access w) eqn:Ew; [done| |done]. destruct (resolved_access n) eqn:En; [|by left|done].
  right. exists w, n. split_and!; try done; [by apply (prefix_shorter x)|].
  intros Hpe. specialize (Hrk Hpe). cbn in Hrk. lia.
Qed.
End at_path.
End intersection.

(** ** What a merge grants *)

Section merge.
Variable E : FsEnv.
Variable cwd : path.
Hypothesis Hcwd : absolute cwd.
Implicit Types l : list FileSystemSandboxEntry.

Lemma decides_weaken l l' x r :
  (forall r', comes_from E cwd l r' -> comes_from E cwd l' r') ->
  comes_from E cwd l r -> decides E cwd l' x r -> decides E cwd l x r.
Proof. intros Hsub Hr (_ & Hp & Hm). split; [done|]. split; [done|]. auto. Qed.

(** Access to a union is access to the part with the deciding entry. *)
Lemma union_access l l' u x : absolute x ->
  (forall r, comes_from E cwd u r <-> comes_from E cwd l r \/ comes_from E cwd l' r) ->
  access_in E cwd u x = access_in E cwd l x \/ access_in E cwd u x = access_in E cwd l' x.
Proof.
  intros Hx HU. destruct (access_cases E cwd u x Hx) as [(r & Hr & ->)|[-> Hn]].
  - pose proof Hr as (Hf & _). apply HU in Hf as [Hf|Hf]; [left|right]; symmetry;
      (apply access_decides; [done|]); (eapply decides_weaken; [|done|done]); intros r' Hr'; apply HU; tauto.
  - left. destruct (access_cases E cwd l x Hx) as [(r & (Hr & Hp & _) & _)|[]]; [|done].
    exfalso. apply (Hn r); [apply HU; tauto|done].
Qed.

Lemma merged_access l l' x : absolute x ->
  access_in E cwd (foldl push_new l l') x = access_in E cwd l x \/
  access_in E cwd (foldl push_new l l') x = access_in E cwd l' x.
Proof. intros Hx. by apply union_access, comes_from_union. Qed.

Lemma merged_denial l l' x d : absolute x ->
  decides E cwd l x d -> resolved_access d = Deny ->
  (forall r, comes_from E cwd l' r -> resolved_path r `prefix_of` x ->
    length (resolved_path r) <= length (resolved_path d)) ->
  access_in E cwd (foldl push_new l l') x = Deny.
Proof.
  intros Hx (Hd & Hp & Hm) Ha Hl. rewrite <- Ha. apply access_decides; [done|].
  split; [apply comes_from_union; tauto|]. split; [done|]. intros r Hr Hrp. rewrite Ha.
  split; [|intros _; destruct (resolved_access r); cbn; lia].
  apply comes_from_union in Hr as [Hr|Hr]; [by apply Hm|by apply Hl|done].
Qed.

Lemma access_restricted p x :
  policy_kind p = Restricted -> resolve_access_with_cwd E p x cwd = access_in E cwd (entries p) x.
Proof. destruct p as [k g l]. cbn. intros ->. done. Qed.
End merge.

Lemma compile_globs_closed bg patterns m : exists m', compile_globs bg true patterns m = inr m'.
Proof.
  revert m. induction patterns as [|p patterns IH]; intros m; cbn; [by eexists|].
  destruct (bg p); apply IH.
Qed.

Lemma matcher_new_total E bg p cwd : exists m, matcher_new E bg p cwd = Some m.
Proof.
  unfold matcher_new, matcher_build. destruct (has_denied_read_restrictions p); [|by eexists].
  destruct (compile_globs_closed bg (get_unreadable_globs_with_cwd E p cwd)
    (mk_matcher (normalized_and_canonical_candidates E <$> get_unreadable_roots_with_cwd E p cwd) [] false))
    as [m Hm]. cbn in Hm |- *. rewrite Hm. by eexists.
Qed.

(** The entries a partial profile lists. *)
Definition listed (p : AdditionalPermissionProfile) : list FileSystemSandboxEntry :=
  default [] (perm_entries <$> file_system p).

(** The matcher of the reads that a request denies. *)
Definition request_matcher E bg (requested : AdditionalPermissionProfile) (cwd : path)
    : option ReadDenyMatcher :=
  default None (matcher_new E bg (fs_restricted (listed requested)) cwd).

Lemma nonempty_listed n r :
  listed (mk_additional n (opt_filter (fun fs => negb (fs_permissions_is_empty fs)) (Some r))) =
  perm_entries r.
Proof.
  unfold listed, opt_filter, fs_permissions_is_empty. cbn.
  by destruct (perm_entries r) eqn:Ep; cbn; rewrite ?Ep.
Qed.

(** The intersection, when the request lists files. *)
Lemma intersect_listed E bg requested granted cwd :
  exists out, intersect_permission_profiles E bg requested granted cwd = Some out /\
    network out = (if network_enabled (network requested) && network_enabled (network granted)
                   then network_on else None) /\
    listed out = match file_system requested with
                 | None => []
                 | Some fs => perm_entries (intersect_file_system E fs
                     (default fs_permissions_default (file_system granted)) cwd
                     (request_matcher E bg requested cwd))
                 end.
Proof.
  unfold intersect_permission_profiles, request_matcher.
  destruct (file_system requested) as [fs|] eqn:Ef; [|by eexists].
  assert (listed requested = perm_entries fs) as -> by (unfold listed; by rewrite Ef).
  destruct (matcher_new_total E bg (fs_restricted (perm_entries fs)) cwd) as [m ->].
  eexists. split; [reflexivity|]. split; [reflexivity|]. apply nonempty_listed.
Qed.

Lemma intersect_unfold E bg requested granted cwd x out :
  intersect_permission_profiles E bg requested granted cwd = Some out -> absolute x ->
  access_in E cwd (listed out) x <> Deny ->
  exists fs, file_system requested = Some fs /\ listed requested = perm_entries fs /\
    listed out = perm_entries (intersect_file_system E fs
      (default fs_permissions_default (file_system granted)) cwd (request_matcher E bg requested cwd)).
Proof.
  intros Hi Hx Ha. destruct (intersect_listed E bg requested granted cwd) as (out' & Ho & _ & Hl).
  rewrite Hi in Ho. injection Ho as <-. destruct (file_system requested) as [fs|] eqn:Ef.
  { exists fs. split; [done|]. split; [|done]. unfold listed. by rewrite Ef. }
  exfalso. apply Ha. rewrite Hl. destruct (access_cases E cwd [] x Hx) as [(r & (Hr & _) & _)|[]]; [|done].
  unfold comes_from in Hr. by apply elem_of_nil in Hr.
Qed.

Lemma listed_default p : listed p = perm_entries (default fs_permissions_default (file_system p)).
Proof. unfold listed. by destruct (file_system p). Qed.

Lemma intersection_reads_both E bg requested granted cwd x out :
  env_wf E -> absolute cwd -> absolute x ->
  Forall entry_wf (listed requested) -> Forall entry_wf (listed granted) ->
  intersect_permission_profiles E bg requested granted cwd = Some out ->
  access_in E cwd (listed out) x <> Deny ->
  access_in E cwd (listed requested) x <> Deny /\ access_in E cwd (listed granted) x <> Deny.
Proof.
  intros HE Hc Hx HQ HG Hi Ha. rewrite (listed_default granted) in *.
  destruct (intersect_unfold E bg requested granted cwd x out Hi Hx Ha) as (fs & _ & Hq & Ho).
  rewrite Hq, Ho in *. by eapply intersection_reads.
Qed.

(** Intersecting a request with a grant always yields a profile, and it
    gives no more than either: what it lets be read both let be read, what it
    lets be written the grant lets be written, unless the request denies reading
    a directory around it by a pattern, and so does the request, unless it holds
    a read-only entry below a writable one; the network is open only if both
    open it. *)
Theorem intersection_within (E : FsEnv) bg (requested granted : AdditionalPermissionProfile) (cwd x : path) :
  env_wf E -> absolute cwd -> absolute x ->
  Forall entry_wf (listed requested) -> Forall entry_wf (listed granted) ->
  exists out, intersect_permission_profiles E bg requested granted cwd = Some out /\
    (access_in E cwd (listed out) x <> Deny ->
       access_in E cwd (listed requested) x <> Deny /\ access_in E cwd (listed granted) x <> Deny) /\
    (access_in E cwd (listed out) x = Write ->
       (access_in E cwd (listed granted) x = Write \/
        exists g, comes_from E cwd (listed granted) g /\ resolved_path g `prefix_of` x /\
          matcher_denies E (request_matcher E bg requested cwd) (resolved_path g) = true) /\
       (access_in E cwd (listed requested) x = Write \/
        exists w n, comes_from E cwd (listed requested) w /\ resolved_access w = Write /\
          comes_from E cwd (listed requested) n /\ resolved_access n = Read /\
          resolved_path n `prefix_of` x /\
          resolved_path w `prefix_of` resolved_path n /\ resolved_path w <> resolved_path n)) /\
    (network_enabled (network out) = true ->
       network_enabled (network requested) = true /\ network_enabled (network granted) = true).
Proof.
  intros HE Hc Hx HQ HG.
  destruct (intersect_listed E bg requested granted cwd) as (out & Hi & Hn & _).
  exists out. split; [done|]. split_and!.
  - by apply (intersection_reads_both E bg).
  - rewrite (listed_default granted) in *. intros Ha. destruct (intersect_unfold E bg requested granted cwd x out Hi Hx ltac:(by rewrite Ha)) as (fs & _ & Hq & Ho).
    rewrite Hq, Ho in *. split; [by eapply intersection_writes_granted|by eapply intersection_writes_requested].
  - rewrite Hn. by destruct (network_enabled _), (network_enabled _).
Qed.

(** ** The profile a command runs with *)

Lemma from_runtime_policy e p n :
  exists eff, from_runtime_permissions_with_enforcement e p n = Some eff /\
    policy_kind (file_system_sandbox_policy eff) = policy_kind p /\
    (policy_kind p = Restricted -> entries (file_system_sandbox_policy eff) = entries p).
Proof.
  destruct p as [[] depth l]; cbn; [by eexists| |by eexists].
  unfold from_runtime_permissions_with_enforcement, from_sandbox_policy. cbn. case_match; by eexists.
Qed.

Lemma effective_policy_kind p additional :
  policy_kind (effective_file_system_sandbox_policy p additional) = policy_kind p.
Proof.
  unfold effective_file_system_sandbox_policy, merge_file_system_policy_with_additional_permissions.
  repeat case_match; cbn; congruence.
Qed.

Lemma effective_policy_entries p additional : policy_kind p = Restricted ->
  entries (effective_file_system_sandbox_policy p (Some additional)) =
  foldl push_new (entries p) (listed additional).
Proof.
  intros Hk. unfold effective_file_system_sandbox_policy, listed, fs_permissions_is_empty,
    merge_file_system_policy_with_additional_permissions. rewrite Hk.
  destruct (file_system additional) as [[[|e l] d]|]; done.
Qed.

Lemma effective_access E cwd profile additional eff x :
  absolute cwd -> absolute x -> effective_permission_profile profile (Some additional) = Some eff ->
  let before := file_system_sandbox_policy profile in
  let after := file_system_sandbox_policy eff in
  (policy_kind before <> Restricted ->
     resolve_access_with_cwd E after x cwd = resolve_access_with_cwd E before x cwd) /\
  (policy_kind before = Restricted ->
     resolve_access_with_cwd E after x cwd =
     access_in E cwd (foldl push_new (entries before) (listed additional)) x).
Proof.
  intros Hc Hx He before after.
  destruct (from_runtime_policy (enforcement profile)
    (effective_file_system_sandbox_policy before (Some additional))
    (effective_network_sandbox_policy (network_sandbox_policy profile) (Some additional)))
    as (eff' & He' & Hk & Hl).
  unfold effective_permission_profile, to_runtime_permissions in He. fold before in He. rewrite He' in He.
  injection He as ->. rewrite effective_policy_kind in Hk, Hl. fold after in Hk, Hl. split; intros Hb.
  - unfold resolve_access_with_cwd. rewrite Hk. by destruct (policy_kind before).
  - rewrite access_restricted, Hl, effective_policy_entries by congruence. done.
Qed.

Lemma effective_network profile additional eff :
  effective_permission_profile profile (Some additional) = Some eff ->
  network_sandbox_policy eff = NetEnabled ->
  network_sandbox_policy profile = NetEnabled \/ network additional ≫= enabled = Some true.
Proof.
  unfold effective_permission_profile, to_runtime_permissions. intros He Hn.
  assert (forall n, effective_network_sandbox_policy n (Some additional) = NetEnabled ->
    n = NetEnabled \/ network additional ≫= enabled = Some true) as Hm.
  { intros n. unfold effective_network_sandbox_policy, merge_network_access.
    destruct n; [|by left]. cbn. destruct (network additional ≫= enabled) as [[]|]; cbn; [by right|done|done]. }
  revert He. unfold from_runtime_permissions_with_enforcement. rewrite effective_policy_kind.
  destruct profile as [[entries depth|] n| |n]; [| |by left|]; cbn [file_system_sandbox_policy policy_kind
    to_sandbox_policy fs_unrestricted fs_external_sandbox enforcement]; intros He; apply Hm; rewrite <- Hn;
    revert He; unfold from_sandbox_policy; rewrite ?effective_policy_kind; cbn; intros [= <-]; done.
Qed.

(** The profile a command runs with after a grant always exists.  It lets a
    path be read, or written, or the network be used, only if the profile of the
    turn did, or the request asked for it and the grant allowed it.  A path that
    an entry of the profile denies stays denied unless a granted entry around
    it is more specific. *)
Theorem effective_profile_bounded (E : FsEnv) bg (profile : PermissionProfile)
    (requested granted : AdditionalPermissionProfile) (cwd x : path) :
  env_wf E -> absolute cwd -> absolute x ->
  Forall entry_wf (listed requested) -> Forall entry_wf (listed granted) ->
  let before := file_system_sandbox_policy profile in
  exists out eff, intersect_permission_profiles E bg requested granted cwd = Some out /\
    effective_permission_profile profile (Some out) = Some eff /\
    let after := file_system_sandbox_policy eff in
    (can_read_path_with_cwd E after x cwd = true ->
       can_read_path_with_cwd E before x cwd = true \/
       access_in E cwd (listed requested) x <> Deny /\ access_in E cwd (listed granted) x <> Deny) /\
    (resolve_access_with_cwd E after x cwd = Write ->
       resolve_access_with_cwd E before x cwd = Write \/ access_in E cwd (listed out) x = Write) /\
    (network_sandbox_policy eff = NetEnabled ->
       network_sandbox_policy profile = NetEnabled \/
       network_enabled (network requested) = true /\ network_enabled (network granted) = true) /\
    (forall d, policy_kind before = Restricted ->
       decides E cwd (entries before) x d -> resolved_access d = Deny ->
       (forall g, comes_from E cwd (listed out) g -> resolved_path g `prefix_of` x ->
          length (resolved_path g) <= length (resolved_path d)) ->
       can_read_path_with_cwd E after x cwd = false).
Proof.
  intros HE Hc Hx HQ HG before.
  destruct (intersect_listed E bg requested granted cwd) as (out & Hi & Hn & _).
  destruct (from_runtime_policy (enforcement profile) (effective_file_system_sandbox_policy before (Some out))
    (effective_network_sandbox_policy (network_sandbox_policy profile) (Some out))) as (eff & He & _).
  exists out, eff. split; [done|]. split; [done|]. intros after.
  destruct (effective_access E cwd profile out eff x Hc Hx He) as [Hu Hr]. fold before after in Hu, Hr.
  unfold can_read_path_with_cwd. destruct (decide (policy_kind before = Restricted)) as [Hk|Hk].
  all: split_and!.
  3,7: intros Ho; destruct (effective_network _ _ _ He Ho) as [|Hon]; [by left|right]; rewrite Hn in Hon;
    by destruct (network_enabled _), (network_enabled _).
  - rewrite Hr, (access_restricted E cwd before x Hk) by done. intros Ha.
    destruct (merged_access E cwd Hc (entries before) (listed out) x Hx) as [Hm|Hm]; rewrite Hm in Ha; [by left|].
    right. destruct (intersection_reads_both E bg requested granted cwd x out); [..|done]; try done.
    intros Hd. by rewrite Hd in Ha.
  - rewrite Hr, (access_restricted E cwd before x Hk) by done. intros Ha.
    destruct (merged_access E cwd Hc (entries before) (listed out) x Hx) as [Hm|Hm]; rewrite Hm in Ha; tauto.
  - intros d _ Hd Hda Hg. rewrite Hr by done. by rewrite (merged_denial E cwd Hc _ _ x d).
  - rewrite Hu by done. tauto.
  - rewrite Hu by done. tauto.
  - done.
Qed.

(** ** Examples *)

Definition file_request (l : list (list string * FileSystemAccessMode)) : AdditionalPermissionProfile :=
  mk_additional None
    (Some (mk_fs_permissions ((fun '(p, a) => mk_entry (FsPath (dir p)) a) <$> l) None)).

(** Patterns that match nothing. *)
Definition no_globs (pattern : str) : str + (path -> bool) := inr (fun _ => false).

Definition sample_request : AdditionalPermissionProfile :=
  file_request [(["a"], Write); (["a"; "secret"], Deny)]%string.
Definition sample_grant : AdditionalPermissionProfile := file_request [(["a"], Write); (["b"], Read)]%string.

Lemma intersection_within_witness :
  exists out, intersect_permission_profiles sample_env no_globs sample_request sample_grant (dir ["w"]) = Some out /\
    access_in sample_env (dir ["w"]) (listed out) (dir ["a"; "x"]) = Write /\
    access_in sample_env (dir ["w"]) (listed sample_request) (dir ["a"; "x"]) <> Deny /\
    access_in sample_env (dir ["w"]) (listed sample_grant) (dir ["a"; "x"]) <> Deny.
Proof.
  destruct (intersection_within sample_env no_globs sample_request sample_grant (dir ["w"]) (dir ["a"; "x"]))
    as (out & Hi & Hr & _).
  - apply sample_env_wf.
  - dir_absolute.
  - dir_absolute.
  - repeat constructor; cbn; dir_absolute.
  - repeat constructor; cbn; dir_absolute.
  - assert (access_in sample_env (dir ["w"]) (listed out) (dir ["a"; "x"]) = Write) as Hw.
    { vm_compute in Hi. injection Hi as <-. by vm_compute. }
    exists out. split; [exact Hi|]. split; [exact Hw|]. apply Hr. by rewrite Hw.
Defined.

Lemma effective_profile_bounded_witness :
  exists out eff, intersect_permission_profiles sample_env no_globs sample_request sample_grant (dir ["w"]) = Some out /\
    effective_permission_profile read_only_profile (Some out) = Some eff /\
    resolve_access_with_cwd sample_env (file_system_sandbox_policy eff) (dir ["a"; "x"]) (dir ["w"]) = Write /\
    access_in sample_env (dir ["w"]) (listed out) (dir ["a"; "x"]) = Write.
Proof.
  destruct (effective_profile_bounded sample_env no_globs read_only_profile sample_request sample_grant
    (dir ["w"]) (dir ["a"; "x"])) as (out & eff & Hi & He & _ & Hw & _).
  - apply sample_env_wf.
  - dir_absolute.
  - dir_absolute.
  - repeat constructor; cbn; dir_absolute.
  - repeat constructor; cbn; dir_absolute.
  - assert (resolve_access_with_cwd sample_env (file_system_sandbox_policy eff) (dir ["a"; "x"]) (dir ["w"]) = Write) as Ha.
    { vm_compute in Hi. injection Hi as <-. vm_compute in He. injection He as <-. by vm_compute. }
    exists out, eff. split; [exact Hi|]. split; [exact He|]. split; [exact Ha|].
    destruct (Hw Ha) as [Hb|Hb]; [|exact Hb]. vm_compute in Hb. discriminate Hb.
Defined.

(** A request for a writable directory with a read-only part, and a grant of the
    whole: the intersection lets the part be written, which was not asked for,
    since only denials of the request are carried over. *)
Example intersection_drops_read_only :
  let requested := file_request [(["a"], Write); (["a"; "b"], Read)]%string in
  let granted := file_request [(["a"], Write)]%string in
  let x := dir ["a"; "b"; "f"] in
  access_in sample_env (dir ["w"]) (listed requested) x = Read /\
  (fun out => access_in sample_env (dir ["w"]) (listed out) x) <$>
    intersect_permission_profiles sample_env no_globs requested granted (dir ["w"]) = Some Write.
Proof. split; by vm_compute. Qed.
