(* ===== verification/PermissionGrants.v ===== *)
(** * Grants of additional permissions ([core/src/session/mod.rs],
      [core/src/state], [core/src/tools/handlers/mod.rs])

    A model asks for permissions; a reviewer or the user answers; what was both
    asked for and granted is recorded for the turn or for the session, and later
    calls run with what was recorded.  The state of a turn is shared: a review
    keeps the turn it was started in although another turn may have begun, so
    the states of turns live in a store and the session and the reviews hold
    their numbers. *)

From S2P Require Export PermissionTransforms.

(** ** Data *)

Inductive PermissionGrantScope := TurnScope | SessionScope.

(** [RequestPermissionProfile] has the fields of [AdditionalPermissionProfile],
    and the conversions copy them. *)
Record RequestPermissionsResponse := mk_response {
  permissions : AdditionalPermissionProfile;
  scope : PermissionGrantScope;
  strict_auto_review : bool
}.

Record TurnEnvironmentSelection := mk_selection { environment_id : str; selection_cwd : path }.

Record PendingRequestPermissions := mk_pending_request {
  requested_permissions : AdditionalPermissionProfile;
  environment : TurnEnvironmentSelection
}.

(** The part of [TurnState] that holds requests and grants. *)
Record TurnState := mk_turn_state {
  pending_request_permissions : gmap str PendingRequestPermissions;
  granted_permissions_by_environment_id : gmap str AdditionalPermissionProfile;
  strict_auto_review_enabled : bool
}.

Definition turn_default : TurnState := mk_turn_state ∅ ∅ false.

(** A review in flight, with the turn it was started in. *)
Record Review := mk_review {
  review_request : PendingRequestPermissions;
  originating_turn_state : option nat
}.

Record Session := mk_session {
  turns : list TurnState;
  active_turn : option nat;
  session_granted : gmap str AdditionalPermissionProfile;
  reviews : list Review
}.

Definition session_new : Session := mk_session [] None ∅ [].

Definition additional_default : AdditionalPermissionProfile := mk_additional None None.

Definition denied_response : RequestPermissionsResponse := mk_response additional_default TurnScope false.

(** ** The stores of grants *)

(** [record_granted_permissions] of the turn state and of the session state *)
Definition record_granted_permissions (granted : gmap str AdditionalPermissionProfile) (env : str)
    (p : AdditionalPermissionProfile) : gmap str AdditionalPermissionProfile :=
  match merge_permission_profiles (granted !! env) (Some p) with
  | Some p => <[env := p]> granted
  | None => granted
  end.

Definition update_turn (s : Session) (t : nat) (f : TurnState -> TurnState) : Session :=
  mk_session (alter f t (turns s)) (active_turn s) (session_granted s) (reviews s).

Definition record_in_turn (env : str) (response : RequestPermissionsResponse) (ts : TurnState) : TurnState :=
  mk_turn_state (pending_request_permissions ts)
    (record_granted_permissions (granted_permissions_by_environment_id ts) env (permissions response))
    (strict_auto_review response || strict_auto_review_enabled ts).

Definition record_granted_request_permissions_for_turn (s : Session)
    (response : RequestPermissionsResponse) (env : str) (originating : option nat) : Session :=
  if additional_is_empty (permissions response) then s
  else
    match scope response with
    | TurnScope =>
      match originating with
      | Some t => update_turn s t (record_in_turn env response)
      | None => s
      end
    | SessionScope =>
      mk_session (turns s) (active_turn s)
        (record_granted_permissions (session_granted s) env (permissions response)) (reviews s)
    end.

Definition active_state (s : Session) : option TurnState := t ← active_turn s; turns s !! t.

Definition granted_turn_permissions (s : Session) (env : str) : option AdditionalPermissionProfile :=
  ts ← active_state s; granted_permissions_by_environment_id ts !! env.

Definition granted_session_permissions (s : Session) (env : str) : option AdditionalPermissionProfile :=
  session_granted s !! env.

Definition strict_auto_review_enabled_for_turn (s : Session) : bool :=
  match active_state s with Some ts => strict_auto_review_enabled ts | None => false end.

(** ** Turns *)

(** [active.get_or_insert_with(ActiveTurn::default)] *)
Definition begin_turn (s : Session) : Session :=
  match active_turn s with
  | Some _ => s
  | None => mk_session (turns s ++ [turn_default]) (Some (length (turns s))) (session_granted s) (reviews s)
  end.

(** [take_active_turn], and the end of a finished task *)
Definition end_turn (s : Session) : Session :=
  mk_session (turns s) None (session_granted s) (reviews s).

(** [clear_pending_waiters] *)
Definition clear_pending (ts : TurnState) : TurnState :=
  mk_turn_state ∅ (granted_permissions_by_environment_id ts) (strict_auto_review_enabled ts).

Definition set_pending (ts : TurnState) (m : gmap str PendingRequestPermissions) : TurnState :=
  mk_turn_state m (granted_permissions_by_environment_id ts) (strict_auto_review_enabled ts).

(** ** Asking for permissions *)

Inductive RequestOutcome :=
| Answered (response : RequestPermissionsResponse)
| Reviewing
| Waiting.

Definition auto_denied (p : AskForApproval) : bool :=
  match p with
  | Never => true
  | Granular g => negb (request_permissions g)
  | OnFailure | OnRequest | UnlessTrusted => false
  end.

(** [routes_approval_to_guardian] *)
Definition routes_approval_to_guardian (p : AskForApproval) (auto_review : bool) : bool :=
  match p with OnRequest | Granular _ => auto_review | _ => false end.

(** The part of [request_permissions_for_environment] before its first wait. *)
Definition request_permissions_for_environment (s : Session) (approval_policy : AskForApproval)
    (auto_review : bool) (call_id : str) (requested : AdditionalPermissionProfile)
    (env : TurnEnvironmentSelection) : RequestOutcome * Session :=
  if auto_denied approval_policy then (Answered denied_response, s)
  else if routes_approval_to_guardian approval_policy auto_review then
    (Reviewing,
     mk_session (turns s) (active_turn s) (session_granted s)
       (reviews s ++ [mk_review (mk_pending_request requested env) (active_turn s)]))
  else
    (Waiting,
     match active_turn s with
     | Some t =>
       update_turn s t (fun ts =>
         set_pending ts (<[call_id := mk_pending_request requested env]> (pending_request_permissions ts)))
     | None => s
     end).

(** The answer a review stands for. *)
Definition response_of_review (requested : AdditionalPermissionProfile) (d : ReviewDecision)
    : RequestPermissionsResponse :=
  match d with
  | Approved | ApprovedExecpolicyAmendment _ => mk_response requested TurnScope false
  | ApprovedForSession => mk_response requested SessionScope false
  | NetworkPolicyAmendment _ NetAllow => mk_response requested TurnScope false
  | NetworkPolicyAmendment _ NetDeny => denied_response
  | Aborted | Denied | TimedOut => denied_response
  end.

Section grants.
Variable E : FsEnv.
Variable build_glob_matcher : str -> str + (path -> bool).
Notation intersect := (intersect_permission_profiles E build_glob_matcher).

Definition normalize_request_permissions_response (requested : AdditionalPermissionProfile)
    (response : RequestPermissionsResponse) (cwd : path) : option RequestPermissionsResponse :=
  match strict_auto_review response, scope response with
  | true, SessionScope => Some denied_response
  | _, _ =>
    if additional_is_empty (permissions response) then Some response
    else
      p ← intersect requested (permissions response) cwd;
      Some (mk_response p (scope response) (strict_auto_review response))
  end.

Definition settle (s : Session) (request : PendingRequestPermissions) (originating : option nat)
    (response : RequestPermissionsResponse) : option (RequestPermissionsResponse * Session) :=
  response ← normalize_request_permissions_response (requested_permissions request) response
               (selection_cwd (environment request));
  Some (response, record_granted_request_permissions_for_turn s response
                    (environment_id (environment request)) originating).

(** The rest of [request_permissions_for_environment] once the review [i] has
    decided; a cancelled call drops its review. *)
Definition review_decided (s : Session) (i : nat) (d : option ReviewDecision)
    : option (option RequestPermissionsResponse * Session) :=
  review ← reviews s !! i;
  let s := mk_session (turns s) (active_turn s) (session_granted s) (delete i (reviews s)) in
  match d with
  | None => Some (None, s)
  | Some d =>
    let request := review_request review in
    '(response, s) ← settle s request (originating_turn_state review)
                       (response_of_review (requested_permissions request) d);
    Some (Some response, s)
  end.

Definition pop_pending (s : Session) (call_id : str) : option (nat * PendingRequestPermissions * Session) :=
  t ← active_turn s;
  ts ← turns s !! t;
  request ← pending_request_permissions ts !! call_id;
  Some (t, request, update_turn s t (fun ts => set_pending ts (delete call_id (pending_request_permissions ts)))).

Definition notify_request_permissions_response (s : Session) (call_id : str)
    (response : RequestPermissionsResponse) : option (option RequestPermissionsResponse * Session) :=
  match pop_pending s call_id with
  | None => Some (None, s)
  | Some (t, request, s) =>
    '(response, s) ← settle s request (Some t) response;
    Some (Some response, s)
  end.

Definition request_cancelled (s : Session) (call_id : str) : Session :=
  match pop_pending s call_id with Some (_, _, s) => s | None => s end.

(** ** Running with the grants *)

Record EffectiveAdditionalPermissions := mk_effective {
  effective_sandbox_permissions : SandboxPermissions;
  effective_additional_permissions : option AdditionalPermissionProfile;
  permissions_preapproved : bool
}.

Definition permissions_are_preapproved (effective granted : AdditionalPermissionProfile) (cwd : path)
    : option bool :=
  materialized ← intersect effective effective cwd;
  within ← intersect effective granted cwd;
  Some (bool_decide (within = materialized)).

Definition apply_granted_turn_permissions (s : Session) (env : str) (cwd : path)
    (sandbox_permissions : SandboxPermissions) (additional : option AdditionalPermissionProfile)
    : option EffectiveAdditionalPermissions :=
  match sandbox_permissions with
  | RequireEscalated => Some (mk_effective sandbox_permissions additional false)
  | _ =>
    let granted := merge_permission_profiles (granted_session_permissions s env)
                     (granted_turn_permissions s env) in
    let effective := merge_permission_profiles additional granted in
    preapproved ← match effective, granted with
                  | Some effective, Some granted => permissions_are_preapproved effective granted cwd
                  | _, _ => Some false
                  end;
    Some (mk_effective
            (match effective with
             | Some _ => if uses_additional_permissions sandbox_permissions then sandbox_permissions
                         else WithAdditionalPermissions
             | None => sandbox_permissions
             end) effective preapproved)
  end.

Definition implicit_granted_permissions (sandbox_permissions : SandboxPermissions)
    (additional : option AdditionalPermissionProfile) (effective : EffectiveAdditionalPermissions)
    : option AdditionalPermissionProfile :=
  match sandbox_permissions, additional with
  | UseDefault, None => effective_additional_permissions effective
  | _, _ => None
  end.

Definition DISABLED_ERROR : str :=
  lit "additional permissions are disabled; enable `features.exec_permission_approvals` before using `with_additional_permissions`".
Definition MISSING_ERROR : str :=
  lit "missing `additional_permissions`; provide at least one of `network` or `file_system` when using `with_additional_permissions`".
Definition EMPTY_ERROR : str :=
  lit "`additional_permissions` must include at least one requested permission in `network` or `file_system`".
Definition UNUSED_ERROR : str :=
  lit "`additional_permissions` requires `sandbox_permissions` set to `with_additional_permissions`".

(** The errors of [normalize_and_validate_additional_permissions]; the text of
    the second shows the approval policy. *)
Inductive PermissionsError :=
| InvalidPermissions (message : str)
| PolicyForbidsRequest (approval_policy : AskForApproval).

Definition normalize_and_validate_additional_permissions (additional_permissions_allowed : bool)
    (approval_policy : AskForApproval) (sandbox_permissions : SandboxPermissions)
    (additional : option AdditionalPermissionProfile) (preapproved : bool)
    : PermissionsError + option AdditionalPermissionProfile :=
  let uses := uses_additional_permissions sandbox_permissions in
  if negb preapproved && negb additional_permissions_allowed && (uses || bool_decide (is_Some additional))
  then inl (InvalidPermissions DISABLED_ERROR)
  else if uses then
    if negb preapproved && negb (match approval_policy with OnRequest => true | _ => false end)
    then inl (PolicyForbidsRequest approval_policy)
    else
      match additional with
      | None => inl (InvalidPermissions MISSING_ERROR)
      | Some p =>
        match normalize_additional_permissions E p with
        | inl err => inl (InvalidPermissions err)
        | inr normalized =>
          if additional_is_empty normalized then inl (InvalidPermissions EMPTY_ERROR)
          else inr (Some normalized)
        end
      end
  else if bool_decide (is_Some additional) then inl (InvalidPermissions UNUSED_ERROR)
  else inr None.

(** The permissions a shell call runs with ([run_exec_like]): an error, or the
    sandbox permissions, the additional permissions and those the approval
    requirement is computed with. *)
Definition call_permissions (s : Session) (exec_permission_approvals request_permissions_tool : bool)
    (approval_policy : AskForApproval) (env : str) (cwd : path)
    (sandbox_permissions : SandboxPermissions) (additional : option AdditionalPermissionProfile)
    : option (PermissionsError +
              (SandboxPermissions * option AdditionalPermissionProfile * SandboxPermissions)) :=
  effective ← apply_granted_turn_permissions s env cwd sandbox_permissions additional;
  let preapproved := permissions_preapproved effective in
  let allowed := exec_permission_approvals || (request_permissions_tool && preapproved) in
  let normalized :=
    match implicit_granted_permissions sandbox_permissions additional effective with
    | Some p => inr (Some p)
    | None =>
      normalize_and_validate_additional_permissions allowed approval_policy
        (effective_sandbox_permissions effective) (effective_additional_permissions effective) preapproved
    end in
  Some (match normalized with
        | inl err => inl err
        | inr p =>
          let sp := effective_sandbox_permissions effective in
          if escalation_rejected approval_policy sp preapproved
          then inl (PolicyForbidsRequest approval_policy)
          else inr (sp, p, if preapproved then UseDefault else sp)
        end).
End grants.

(** ** What was granted *)

Inductive Holder := HeldByTurn (t : nat) | HeldBySession.

(** An answer that was recorded: who asked for what, where, and what was
    granted. *)
Record Grant := mk_grant {
  grant_holder : Holder;
  grant_env : str;
  grant_cwd : path;
  grant_requested : AdditionalPermissionProfile;
  grant_answer : AdditionalPermissionProfile
}.

Definition grants_of (request : PendingRequestPermissions) (originating : option nat)
    (response : RequestPermissionsResponse) : list Grant :=
  let grant holder :=
    [mk_grant holder (environment_id (environment request)) (selection_cwd (environment request))
       (requested_permissions request) (permissions response)] in
  match scope response, originating with
  | TurnScope, Some t => grant (HeldByTurn t)
  | TurnScope, None => []
  | SessionScope, _ => if strict_auto_review response then [] else grant HeldBySession
  end.

Definition request_wf (request : PendingRequestPermissions) : Prop :=
  Forall entry_wf (listed (requested_permissions request)) /\ absolute (selection_cwd (environment request)).

Section runs.
Variable E : FsEnv.
Variable bg : str -> str + (path -> bool).

(** The runs of a session, with the grants made so far. *)
Inductive run : Session -> list Grant -> Prop :=
| run_new : run session_new []
| run_begin s log : run s log -> run (begin_turn s) log
| run_end s log : run s log -> run (end_turn s) log
| run_clear s log t : run s log -> run (update_turn s t clear_pending) log
| run_request s log policy auto_review call_id requested env o s' :
    run s log -> request_wf (mk_pending_request requested env) ->
    request_permissions_for_environment s policy auto_review call_id requested env = (o, s') -> run s' log
| run_review s log i review d r s' :
    run s log -> reviews s !! i = Some review -> review_decided E bg s i (Some d) = Some (r, s') ->
    run s' (log ++ grants_of (review_request review) (originating_turn_state review)
                     (response_of_review (requested_permissions (review_request review)) d))
| run_drop_review s log i r s' : run s log -> review_decided E bg s i None = Some (r, s') -> run s' log
| run_notify s log call_id t request s0 response r s' :
    run s log -> Forall entry_wf (listed (permissions response)) ->
    pop_pending s call_id = Some (t, request, s0) ->
    notify_request_permissions_response E bg s call_id response = Some (r, s') ->
    run s' (log ++ grants_of request (Some t) response)
| run_cancel s log call_id : run s log -> run (request_cancelled s call_id) log.

(** The request holds a read-only entry around [x] inside a writable one: the
    intersection with an answer drops such entries and keeps the writable one
    ([intersection_drops_read_only]). *)
Definition read_only_inside (cwd : path) (requested : AdditionalPermissionProfile) (x : path) : Prop :=
  exists w n, comes_from E cwd (listed requested) w /\ resolved_access w = Write /\
    comes_from E cwd (listed requested) n /\ resolved_access n = Read /\
    resolved_path n `prefix_of` x /\
    resolved_path w `prefix_of` resolved_path n /\ resolved_path w <> resolved_path n.

(** A pattern of the request denies an entry of the answer around [x], which the
    intersection then drops. *)
Definition dropped_by_pattern (cwd : path) (requested answer : AdditionalPermissionProfile) (x : path) : Prop :=
  exists e, comes_from E cwd (listed answer) e /\ resolved_path e `prefix_of` x /\
    matcher_denies E (request_matcher E bg requested cwd) (resolved_path e) = true.

(** The grant allows the access [a] to [x]: reading was asked for and granted;
    for writing, writing was asked for, up to read-only entries that the
    intersection drops, and granted, up to entries that patterns drop. *)
Definition allows (g : Grant) (x : path) (a : FileSystemAccessMode) : Prop :=
  access_in E (grant_cwd g) (listed (grant_requested g)) x <> Deny /\
  access_in E (grant_cwd g) (listed (grant_answer g)) x <> Deny /\
  (a = Write ->
     (access_in E (grant_cwd g) (listed (grant_answer g)) x = Write \/
      dropped_by_pattern (grant_cwd g) (grant_requested g) (grant_answer g) x) /\
     (access_in E (grant_cwd g) (listed (grant_requested g)) x = Write \/
      read_only_inside (grant_cwd g) (grant_requested g) x)).

(** The profile gives no more than the grants of the log to the same holder and
    environment: no access to a path, for reading or for writing, nor the
    network, that was not both asked for and granted. *)
Definition backed (log : list Grant) (h : Holder) (env : str) (p : AdditionalPermissionProfile) : Prop :=
  (forall cwd x, absolute cwd -> absolute x -> access_in E cwd (listed p) x <> Deny ->
     exists g, g ∈ log /\ grant_holder g = h /\ grant_env g = env /\
       allows g x (access_in E cwd (listed p) x)) /\
  (network_enabled (network p) = true ->
     exists g, g ∈ log /\ grant_holder g = h /\ grant_env g = env /\
       network_enabled (network (grant_requested g)) = true /\
       network_enabled (network (grant_answer g)) = true).

(** *** Entries that do not depend on the working directory *)

Definition cwd_free (e : FileSystemSandboxEntry) : Prop :=
  match entry_path e with Special (ProjectRoots _) => False | _ => True end.

Lemma materialize_cwd_free e cwd : absolute cwd -> cwd_free (materialize_cwd_dependent_entry E e cwd).
Proof.
  intros Hc. unfold cwd_free, materialize_cwd_dependent_entry.
  destruct (entry_path e) as [p|g|[| |s| | |]] eqn:Ee; rewrite ?Ee; try done.
  cbn. by rewrite (abs_from_absolute E cwd Hc).
Qed.

Lemma materialize_wf e cwd :
  env_wf E -> absolute cwd -> entry_wf e -> entry_wf (materialize_cwd_dependent_entry E e cwd).
Proof.
  intros HE Hc He. unfold materialize_cwd_dependent_entry.
  destruct (entry_path e) as [p|g|[| |s| | |]] eqn:Ee; try done.
  destruct (resolve_permission_path E _ cwd) as [q|] eqn:Eq; [|done].
  rewrite (resolve_permission_entry E cwd Hc) in Eq. rewrite <- Ee in Eq.
  eapply (resolve_entry_absolute E HE); [done| |done]. rewrite abs_from_absolute by done. by intros ? [= <-].
Qed.

Lemma comes_from_any_cwd l cwd cwd' r :
  absolute cwd -> absolute cwd' -> Forall cwd_free l -> comes_from E cwd l r -> comes_from E cwd' l r.
Proof.
  intros Hc Hc' Hl (e & He & Ha & Hr)%comes_from_spec; [|done]. apply comes_from_spec; [done|].
  exists e. split; [done|]. split; [done|]. rewrite Forall_forall in Hl. specialize (Hl e He).
  unfold cwd_free in Hl. destruct (entry_path e) as [p|g|[| |s| | |]]; try done.
  cbn in Hr |- *. destruct Hc as (n & -> & _), Hc' as (n' & -> & _). done.
Qed.

Lemma access_ext cwd cwd' l l' x : absolute x ->
  (forall r, comes_from E cwd l r <-> comes_from E cwd' l' r) -> access_in E cwd l x = access_in E cwd' l' x.
Proof.
  intros Hx He. destruct (access_cases E cwd l x Hx) as [(r & (Hr & Hp & Hm) & ->)|[-> Hn]].
  - symmetry. apply access_decides; [done|]. split; [by apply He|]. split; [done|].
    intros r' Hr'. apply Hm. by apply He.
  - destruct (access_cases E cwd' l' x Hx) as [(r & (Hr & Hp & _) & _)|[]]; [|done].
    destruct (Hn r); [by apply He|done].
Qed.

Lemma access_any_cwd l cwd cwd' x :
  absolute cwd -> absolute cwd' -> absolute x -> Forall cwd_free l ->
  access_in E cwd l x = access_in E cwd' l x.
Proof. intros Hc Hc' Hx Hl. apply access_ext; [done|]. intros r. split; by apply comes_from_any_cwd. Qed.
End runs.

(** *** Intersections and merges of profiles *)

Lemma intersect_elems E bg requested granted cwd out e :
  intersect_permission_profiles E bg requested granted cwd = Some out -> e ∈ listed out ->
  exists e0, (e0 ∈ listed requested \/ e0 ∈ listed granted) /\ e = materialize_cwd_dependent_entry E e0 cwd.
Proof.
  intros Hi He. destruct (intersect_listed E bg requested granted cwd) as (out' & Ho & _ & Hl).
  rewrite Hi in Ho. injection Ho as <-. rewrite Hl in He. clear Hl Hi. rewrite (listed_default granted).
  unfold listed at 1. destruct (file_system requested) as [fs|]; [|by apply elem_of_nil in He].
  unfold intersect_file_system in He. cbn in He. cbn.
  rewrite !push_all_elem, !list_elem_of_fmap in He. setoid_rewrite list_elem_of_filter in He.
  destruct He as [[[[]%elem_of_nil|(e0 & -> & _ & He)]|(e0 & -> & _ & He)]|(e0 & -> & _ & He)];
    exists e0; tauto.
Qed.

Definition listed_opt (p : option AdditionalPermissionProfile) : list FileSystemSandboxEntry :=
  default [] (listed <$> p).

Lemma merge_elems a b p e :
  merge_permission_profiles a b = Some p -> e ∈ listed p <-> e ∈ listed_opt a \/ e ∈ listed_opt b.
Proof.
  unfold merge_permission_profiles, listed_opt, opt_filter. destruct b as [b|]; cbn; [|intros ->; cbn; set_solver].
  destruct a as [a|]; cbn; [|case_match; [intros [= <-]; cbn; set_solver|done]].
  case_match; [|done]. intros [= <-]. unfold listed at 1. cbn.
  unfold listed. destruct (file_system a) as [fa|], (file_system b) as [fb|]; cbn; try set_solver.
  unfold fs_permissions_is_empty. cbn.
  assert (forall x, x ∈ merge_permission_entries (perm_entries fa) (perm_entries fb) <->
    x ∈ perm_entries fa \/ x ∈ perm_entries fb) as Hm.
  { intros x. unfold merge_permission_entries. rewrite push_all_elem, elem_of_app. set_solver. }
  rewrite <- Hm. destruct (merge_permission_entries _ _); cbn; done.
Qed.

Lemma merge_network a b p :
  merge_permission_profiles a b = Some p -> network_enabled (network p) = true ->
  (exists a', a = Some a' /\ network_enabled (network a') = true) \/
  (exists b', b = Some b' /\ network_enabled (network b') = true).
Proof.
  unfold merge_permission_profiles, opt_filter. destruct b as [b|]; [|intros ->; naive_solver].
  destruct a as [a|]; cbn; [|case_match; [intros [= <-]; naive_solver|done]].
  case_match; [|done]. intros [= <-]. cbn.
  destruct (network_enabled (network a)) eqn:Ea; [naive_solver|].
  destruct (network_enabled (network b)) eqn:Eb; [naive_solver|done].
Qed.

Lemma merge_access E cwd a b p x : absolute cwd -> absolute x ->
  merge_permission_profiles a b = Some p ->
  access_in E cwd (listed p) x = access_in E cwd (listed_opt a) x \/
  access_in E cwd (listed p) x = access_in E cwd (listed_opt b) x.
Proof.
  intros Hc Hx Hm. apply union_access; [done|]. intros r. rewrite !(comes_from_spec E cwd Hc).
  setoid_rewrite (merge_elems a b p _ Hm). naive_solver.
Qed.

Lemma merge_open E cwd a b p x : absolute cwd -> absolute x ->
  merge_permission_profiles a b = Some p -> access_in E cwd (listed p) x <> Deny ->
  (exists a', a = Some a' /\ access_in E cwd (listed p) x = access_in E cwd (listed a') x) \/
  (exists b', b = Some b' /\ access_in E cwd (listed p) x = access_in E cwd (listed b') x).
Proof.
  intros Hc Hx Hm Ha. assert (access_in E cwd [] x = Deny) as Hnil.
  { destruct (access_cases E cwd [] x Hx) as [(r & (Hr & _) & _)|[]]; [|done].
    unfold comes_from in Hr. by apply elem_of_nil in Hr. }
  destruct (merge_access E cwd a b p x Hc Hx Hm) as [He|He]; rewrite He in Ha.
  - left. destruct a as [a|]; [by exists a|done].
  - right. destruct b as [b|]; [by exists b|done].
Qed.

(** ** Every recorded grant is backed *)

Section backing.
Variable E : FsEnv.
Variable bg : str -> str + (path -> bool).
Hypothesis Henv : env_wf E.

(** What a store may hold. *)
Definition sound_profile (log : list Grant) (h : Holder) (env : str) (p : AdditionalPermissionProfile) : Prop :=
  backed E bg log h env p /\ Forall entry_wf (listed p) /\ Forall cwd_free (listed p).

Definition sound_store (log : list Grant) (h : Holder) (m : gmap str AdditionalPermissionProfile) : Prop :=
  forall env p, m !! env = Some p -> sound_profile log h env p.

Lemma sound_profile_mono log log' h env p :
  log ⊆ log' -> sound_profile log h env p -> sound_profile log' h env p.
Proof.
  intros Hl ([Ha Hn] & Hw). split; [|done]. split.
  - intros cwd x Hc Hx Hd. destruct (Ha cwd x Hc Hx Hd) as (g & Hg & Hr). exists g. split; [by apply Hl|done].
  - intros Hd. destruct (Hn Hd) as (g & Hg & Hr). exists g. split; [by apply Hl|done].
Qed.

Lemma sound_store_mono log log' h m : log ⊆ log' -> sound_store log h m -> sound_store log' h m.
Proof. intros Hl Hm env p Hp. eapply sound_profile_mono; [done|by apply Hm]. Qed.

(** The intersection of a request with its answer is backed by the grant. *)
Lemma intersection_sound log h env cwd requested answer out :
  absolute cwd -> Forall entry_wf (listed requested) -> Forall entry_wf (listed answer) ->
  intersect_permission_profiles E bg requested answer cwd = Some out ->
  mk_grant h env cwd requested answer ∈ log -> sound_profile log h env out.
Proof.
  intros Hc HQ HG Hi Hg.
  assert (Forall entry_wf (listed out) /\ Forall cwd_free (listed out)) as [Hw Hf].
  { rewrite !Forall_forall in *. split; intros e He;
      destruct (intersect_elems E bg _ _ _ _ e Hi He) as (e0 & H0 & ->);
      [apply materialize_wf; [done|done|naive_solver]|by apply materialize_cwd_free]. }
  split; [|done]. split.
  - intros cwd' x Hc' Hx Ha. rewrite (access_any_cwd E _ cwd' cwd x) in Ha by done.
    rewrite (access_any_cwd E _ cwd' cwd x) by done.
    destruct (intersection_within E bg requested answer cwd x Henv Hc Hx HQ HG) as (out' & Ho & Hrd & Hwr & _).
    rewrite Hi in Ho. injection Ho as <-. destruct (Hrd Ha). eexists. split_and!; [exact Hg|done|done|].
    split_and!; [done|done|exact Hwr].
  - destruct (intersect_listed E bg requested answer cwd) as (out' & Ho & Hn & _).
    rewrite Hi in Ho. injection Ho as <-. rewrite Hn. intros Hd.
    destruct (network_enabled (network requested)) eqn:E1, (network_enabled (network answer)) eqn:E2; try done.
    by eexists.
Qed.

Lemma merge_sound log h env a b p :
  (forall q, a = Some q -> sound_profile log h env q) -> (forall q, b = Some q -> sound_profile log h env q) ->
  merge_permission_profiles a b = Some p -> sound_profile log h env p.
Proof.
  intros Ha Hb Hm.
  assert (forall P : FileSystemSandboxEntry -> Prop,
    (forall q, sound_profile log h env q -> Forall P (listed q)) -> Forall P (listed p)) as Hall.
  { intros P HP. rewrite Forall_forall. intros e [He|He]%(merge_elems a b p e Hm).
    - destruct a as [a|]; [|by apply elem_of_nil in He].
      pose proof (HP a (Ha a eq_refl)) as Hl. rewrite Forall_forall in Hl. by apply Hl.
    - destruct b as [b|]; [|by apply elem_of_nil in He].
      pose proof (HP b (Hb b eq_refl)) as Hl. rewrite Forall_forall in Hl. by apply Hl. }
  split; [split|split; apply Hall; intros q Hq; apply Hq].
  - intros cwd x Hc Hx Hd. destruct (merge_open E cwd a b p x Hc Hx Hm Hd) as [(q & Hq & Hqd)|(q & Hq & Hqd)].
    + rewrite Hqd in *. by apply (proj1 (proj1 (Ha q Hq)) cwd).
    + rewrite Hqd in *. by apply (proj1 (proj1 (Hb q Hq)) cwd).
  - intros Hd. destruct (merge_network a b p Hm Hd) as [(q & Hq & Hqd)|(q & Hq & Hqd)].
    + by apply (proj2 (proj1 (Ha q Hq))).
    + by apply (proj2 (proj1 (Hb q Hq))).
Qed.

Lemma record_sound log h env m p :
  sound_store log h m -> sound_profile log h env p -> sound_store log h (record_granted_permissions m env p).
Proof.
  intros Hm Hp env' q. unfold record_granted_permissions.
  destruct (merge_permission_profiles (m !! env) (Some p)) as [r|] eqn:Er; [|apply Hm].
  destruct (decide (env' = env)) as [->|Hne]; [|rewrite lookup_insert_ne by done; apply Hm].
  rewrite lookup_insert_eq. intros [= <-]. eapply merge_sound; [apply Hm| |done]. intros q' [= <-]. done.
Qed.

(** *** The invariant *)

Record inv (s : Session) (log : list Grant) : Prop := mk_inv {
  inv_session : sound_store log HeldBySession (session_granted s);
  inv_turns : forall t ts, turns s !! t = Some ts ->
    sound_store log (HeldByTurn t) (granted_permissions_by_environment_id ts);
  inv_pending : forall t ts call request, turns s !! t = Some ts ->
    pending_request_permissions ts !! call = Some request -> request_wf request;
  inv_reviews : forall i review, reviews s !! i = Some review -> request_wf (review_request review)
}.

Lemma update_turn_inv s log log' t f :
  inv s log -> log ⊆ log' ->
  (forall ts, turns s !! t = Some ts ->
     sound_store log' (HeldByTurn t) (granted_permissions_by_environment_id (f ts)) /\
     forall call request, pending_request_permissions (f ts) !! call = Some request -> request_wf request) ->
  inv (update_turn s t f) log'.
Proof.
  intros Hi Hl Hf.
  assert (forall t' ts, alter f t (turns s) !! t' = Some ts ->
    turns s !! t' = Some ts \/ t' = t /\ exists ts0, turns s !! t = Some ts0 /\ ts = f ts0) as Hcase.
  { intros t' ts Ht. destruct (decide (t' = t)) as [->|Hne].
    - rewrite list_lookup_alter_eq in Ht. apply fmap_Some in Ht as (ts0 & H0 & ->). right. split; [done|]. by exists ts0.
    - rewrite list_lookup_alter_ne in Ht by (by apply not_eq_sym). by left. }
  split; cbn.
  - eapply sound_store_mono; [done|apply Hi].
  - intros t' ts [Ht|(-> & ts0 & H0 & ->)]%Hcase; [|by apply Hf].
    eapply sound_store_mono; [done|by eapply (inv_turns s log Hi)].
  - intros t' ts call request [Ht|(-> & ts0 & H0 & ->)]%Hcase; [|by eapply Hf]. by eapply (inv_pending s log Hi).
  - apply Hi.
Qed.

Lemma inv_mono s log log' : inv s log -> log ⊆ log' -> inv s log'.
Proof.
  intros Hi Hl. split; [eapply sound_store_mono; [done|apply Hi]| |apply Hi|apply Hi].
  intros t ts Ht. eapply sound_store_mono; [done|by eapply (inv_turns s log Hi)].
Qed.

(** Recording what the intersection of a request with an answer allows. *)
Lemma record_inv s log log' env originating response :
  inv s log -> log ⊆ log' ->
  (forall t, scope response = TurnScope -> originating = Some t ->
     sound_profile log' (HeldByTurn t) env (permissions response)) ->
  (scope response = SessionScope -> sound_profile log' HeldBySession env (permissions response)) ->
  inv (record_granted_request_permissions_for_turn s response env originating) log'.
Proof.
  intros Hi Hl Ht Hs. unfold record_granted_request_permissions_for_turn.
  case_match; [by eapply inv_mono|]. destruct (scope response) eqn:Es.
  - destruct originating as [t|]; [|by eapply inv_mono]. apply (update_turn_inv s log); [done|done|].
    intros ts Hts. cbn. split; [|intros call request; by eapply (inv_pending s log Hi)].
    apply record_sound; [|by apply Ht]. eapply sound_store_mono; [done|by eapply (inv_turns s log Hi)].
  - pose proof (inv_mono s log log' Hi Hl) as Hi'. split; cbn; [|apply Hi'|apply Hi'|apply Hi'].
    apply record_sound; [apply Hi'|by apply Hs].
Qed.

Lemma normalize_cases requested response cwd r :
  normalize_request_permissions_response E bg requested response cwd = Some r ->
  additional_is_empty (permissions r) = true \/
  exists out, intersect_permission_profiles E bg requested (permissions response) cwd = Some out /\
    r = mk_response out (scope response) (strict_auto_review response) /\
    (scope response = SessionScope -> strict_auto_review response = false).
Proof.
  unfold normalize_request_permissions_response. intros Hr.
  destruct (additional_is_empty (permissions response)) eqn:Ee.
  { left. destruct (strict_auto_review response), (scope response); injection Hr as <-; done. }
  destruct (intersect_permission_profiles _ _ _ _ _) as [out|].
  - destruct (strict_auto_review response), (scope response); injection Hr as <-; [|by left|..];
      right; exists out; done.
  - destruct (strict_auto_review response), (scope response); try done. injection Hr as <-. by left.
Qed.

Lemma settle_inv s log request originating response r s' :
  inv s log -> request_wf request -> Forall entry_wf (listed (permissions response)) ->
  settle E bg s request originating response = Some (r, s') ->
  inv s' (log ++ grants_of request originating response).
Proof.
  intros Hi [HQ Hc] HG. unfold settle.
  assert (log ⊆ log ++ grants_of request originating response) as Hl by set_solver.
  destruct (normalize_request_permissions_response _ _ _ _ _) as [r'|] eqn:En; cbn; [|done]. intros [= _ <-].
  apply normalize_cases in En as [He|(out & Ho & -> & Hs)].
  { unfold record_granted_request_permissions_for_turn. rewrite He. by eapply inv_mono. }
  apply (record_inv s log); [done|done| |]; cbn; [intros t E1 ->|intros E1];
    (eapply intersection_sound; [exact Hc|exact HQ|exact HG|exact Ho|]); unfold grants_of; rewrite E1.
  - set_solver.
  - rewrite (Hs E1). set_solver.
Qed.

Lemma pop_pending_spec s log call_id t request s0 :
  inv s log -> pop_pending s call_id = Some (t, request, s0) -> inv s0 log /\ request_wf request.
Proof.
  intros Hi. unfold pop_pending. destruct (active_turn s) as [t'|]; cbn; [|done].
  destruct (turns s !! t') as [ts|] eqn:Et; cbn; [|done].
  destruct (pending_request_permissions ts !! call_id) as [rq|] eqn:Ep; cbn; [|done].
  intros [= <- <- <-]. split; [|by eapply (inv_pending s log Hi)].
  apply (update_turn_inv s log); [done|done|]. intros ts' Hts. cbn.
  split; [by eapply (inv_turns s log Hi)|]. intros call rq'. rewrite lookup_delete_Some.
  intros [_ H]. by eapply (inv_pending s log Hi).
Qed.

Lemma response_of_review_wf requested d :
  Forall entry_wf (listed requested) -> Forall entry_wf (listed (permissions (response_of_review requested d))).
Proof. intros H. destruct d as [| | |? []| | |]; cbn; done || constructor. Qed.

Lemma request_inv s log policy auto_review call_id requested env o s' :
  inv s log -> request_wf (mk_pending_request requested env) ->
  request_permissions_for_environment s policy auto_review call_id requested env = (o, s') -> inv s' log.
Proof.
  intros Hi Hw. unfold request_permissions_for_environment.
  destruct (auto_denied policy); [by intros [= _ <-]|].
  destruct (routes_approval_to_guardian policy auto_review).
  - intros [= _ <-]. split; cbn; [apply Hi|apply Hi|apply Hi|].
    intros i review [H|[_ H]]%lookup_app_Some; [by eapply (inv_reviews s log Hi)|].
    apply list_lookup_singleton_Some in H as [_ <-]. done.
  - destruct (active_turn s) as [t|]; [|by intros [= _ <-]]. intros [= _ <-].
    apply (update_turn_inv s log); [done|done|]. intros ts Hts. cbn.
    split; [by eapply (inv_turns s log Hi)|]. intros call rq [[_ <-]|[_ H]]%lookup_insert_Some; [done|].
    by eapply (inv_pending s log Hi).
Qed.

Lemma review_inv s log i review d r s' :
  inv s log -> reviews s !! i = Some review -> review_decided E bg s i d = Some (r, s') ->
  inv s' (log ++ match d with
                 | Some d => grants_of (review_request review) (originating_turn_state review)
                     (response_of_review (requested_permissions (review_request review)) d)
                 | None => []
                 end).
Proof.
  intros Hi Hr. unfold review_decided. rewrite Hr. cbn. pose proof (inv_reviews s log Hi i review Hr) as [HQ Hc].
  assert (inv (mk_session (turns s) (active_turn s) (session_granted s) (delete i (reviews s))) log) as Hi'.
  { split; cbn; [apply Hi|apply Hi|apply Hi|]. intros j rv Hj.
    assert (rv ∈ reviews s) as [k Hk]%list_elem_of_lookup.
    { eapply (elem_of_submseteq (delete i (reviews s))); [by eapply list_elem_of_lookup_2|].
      apply sublist_submseteq, sublist_delete. }
    by eapply (inv_reviews s log Hi). }
  destruct d as [d|]; [|intros [= _ <-]; by rewrite app_nil_r].
  destruct (settle E bg _ _ _ _) as [[r1 s1]|] eqn:Es; cbn; [|done]. intros [= _ <-].
  eapply settle_inv; [exact Hi'|by split|by apply response_of_review_wf|exact Es].
Qed.

Lemma run_inv s log : run E bg s log -> inv s log.
Proof.
  induction 1 as [|s log _ IH|s log _ IH|s log t _ IH|s log policy ar call_id requested env o s' _ IH Hw Hr
    |s log i review d r s' _ IH Hv Hr|s log i r s' _ IH Hr|s log call_id t request s0 response r s' _ IH Hw Hp Hr
    |s log call_id _ IH].
  - split; cbn; [|done|done|done]. intros env p H. by rewrite lookup_empty in H.
  - unfold begin_turn. destruct (active_turn s); [done|]. split; cbn; [apply IH| | |apply IH].
    + intros t ts [H|[_ H]]%lookup_app_Some; [by eapply (inv_turns s log IH)|].
      apply list_lookup_singleton_Some in H as [_ <-]. by intros env p.
    + intros t ts call request [H|[_ H]]%lookup_app_Some; [by eapply (inv_pending s log IH)|].
      by apply list_lookup_singleton_Some in H as [_ <-].
  - split; apply IH.
  - apply (update_turn_inv s log); [done|done|]. intros ts Hts. cbn. split; [by eapply (inv_turns s log IH)|done].
  - by eapply request_inv.
  - by eapply (review_inv s log i review (Some d)).
  - destruct (reviews s !! i) as [review|] eqn:Ev; [|unfold review_decided in Hr; by rewrite Ev in Hr].
    rewrite <- (app_nil_r log). by eapply (review_inv s log i review None).
  - destruct (pop_pending_spec s log _ _ _ _ IH Hp) as [Hi0 Hw0].
    unfold notify_request_permissions_response in Hr. rewrite Hp in Hr.
    destruct (settle E bg s0 request (Some t) response) as [[r1 s1]|] eqn:Es; [|done].
    injection Hr as _ <-. by eapply settle_inv.
  - unfold request_cancelled. destruct (pop_pending s call_id) as [[[t request] s0]|] eqn:Ep; [|done].
    by destruct (pop_pending_spec s log _ _ _ _ IH Ep).
Qed.
End backing.

(** C30: no permission is recorded that was not asked for and granted.  In every
    run of a session, with requests, reviews, answers, cancellations and turns
    in any order, what is recorded for the session or for the running turn
    allows only what a request asked for and its answer granted, for the same
    environment and the same turn: a path that the record lets be read (from
    any working directory) was readable in a request and in its answer, one
    that it lets be written was writable in both, and the network was open in
    both.  Writing is told apart up to what the intersection drops: a read-only
    entry of the request inside a writable one ([intersection_drops_read_only])
    and entries of the answer that a pattern of the request denies. *)
Theorem recorded_grants_backed (E : FsEnv) bg (s : Session) (log : list Grant) env p :
  env_wf E -> run E bg s log ->
  (granted_session_permissions s env = Some p -> backed E bg log HeldBySession env p) /\
  (granted_turn_permissions s env = Some p ->
     exists t, active_turn s = Some t /\ backed E bg log (HeldByTurn t) env p).
Proof.
  intros HE Hr. pose proof (run_inv E bg HE s log Hr) as Hi. split.
  - intros Hp. by apply (inv_session E bg s log Hi).
  - unfold granted_turn_permissions, active_state. destruct (active_turn s) as [t|]; cbn; [|done].
    destruct (turns s !! t) as [ts|] eqn:Et; cbn; [|done]. intros Hp. exists t. split; [done|].
    by apply (inv_turns E bg s log Hi t ts Et).
Qed.

(** ** What runs unasked was granted *)

(** Everything a profile opens, but what its own patterns deny, is in its
    intersection with itself. *)
Lemma self_intersection E bg e cwd x r out :
  env_wf E -> absolute cwd -> absolute x -> Forall entry_wf (listed e) ->
  intersect_permission_profiles E bg e e cwd = Some out ->
  decides E cwd (listed e) x r -> resolved_access r <> Deny ->
  matcher_denies E (request_matcher E bg e cwd) (resolved_path r) = false ->
  access_in E cwd (listed out) x = resolved_access r.
Proof.
  intros HE Hc Hx Hw Hi (Hr & Hp & Hm) Ha Hd.
  destruct (intersect_listed E bg e e cwd) as (out' & Ho & _ & Hl). rewrite Hi in Ho. injection Ho as <-.
  destruct (file_system e) as [fs|] eqn:Ef.
  2: { unfold listed in Hr. rewrite Ef in Hr. unfold comes_from in Hr. by apply elem_of_nil in Hr. }
  assert (listed e = perm_entries fs) as He by (unfold listed; by rewrite Ef).
  rewrite He in *. cbn [default] in Hl. cbn in Hl. rewrite Hl. apply access_decides; [done|].
  assert (absolute (resolved_path r)) as Hra by (by apply (comes_from_absolute E cwd HE Hc (perm_entries fs))).
  assert (access_in E cwd (perm_entries fs) (resolved_path r) = resolved_access r) as Hself.
  { apply access_decides; [done|]. split; [done|]. split; [done|]. intros r' Hr' Hp'. apply Hm; [done|by etrans]. }
  split; [|split; [done|]].
  - apply (intersection_entries E cwd Hc fs fs). left. split_and!; [done|done|done|].
    rewrite Hself. by destruct (resolved_access r).
  - intros r' Hr' Hp'. apply Hm; [|done].
    apply (intersection_entries E cwd Hc fs fs) in Hr' as [(? & _)|[(? & _)|(? & _)]]; done.
Qed.

Lemma preapproved_open E bg e granted cwd x r :
  env_wf E -> absolute cwd -> absolute x -> Forall entry_wf (listed e) -> Forall entry_wf (listed granted) ->
  permissions_are_preapproved E bg e granted cwd = Some true ->
  decides E cwd (listed e) x r -> resolved_access r <> Deny ->
  matcher_denies E (request_matcher E bg e cwd) (resolved_path r) = false ->
  access_in E cwd (listed granted) x <> Deny.
Proof.
  intros HE Hc Hx He Hg. unfold permissions_are_preapproved.
  destruct (intersect_permission_profiles E bg e e cwd) as [I|] eqn:EI; cbn; [|done].
  destruct (intersect_permission_profiles E bg e granted cwd) as [J|] eqn:EJ; cbn; [|done].
  intros [= ->%bool_decide_eq_true] Hd Ha Hm.
  eapply (intersection_reads_both E bg e granted cwd x I); [done..|].
  by rewrite (self_intersection E bg e cwd x r I).
Qed.

Lemma preapproved_write E bg e granted cwd x :
  env_wf E -> absolute cwd -> absolute x -> Forall entry_wf (listed e) -> Forall entry_wf (listed granted) ->
  permissions_are_preapproved E bg e granted cwd = Some true ->
  access_in E cwd (listed e) x = Write ->
  (forall y, y `prefix_of` x -> matcher_denies E (request_matcher E bg e cwd) y = false) ->
  access_in E cwd (listed granted) x = Write.
Proof.
  intros HE Hc Hx He Hg. unfold permissions_are_preapproved.
  destruct (intersect_permission_profiles E bg e e cwd) as [I|] eqn:EI; cbn [mbind option_bind]; [|done].
  destruct (intersect_permission_profiles E bg e granted cwd) as [J|] eqn:EJ; cbn [mbind option_bind]; [|done].
  intros [= ->%bool_decide_eq_true] Ha Hm.
  destruct (access_open E cwd (listed e) x Hx) as (r & Hd & Hda); [by rewrite Ha|]. rewrite Ha in Hda.
  assert (access_in E cwd (listed I) x = Write) as HI.
  { rewrite (self_intersection E bg e cwd x r I); try done; [by rewrite <- Hda|apply Hm, Hd]. }
  destruct (intersection_within E bg e granted cwd x HE Hc Hx He Hg) as (out & Ho & _ & Hw & _).
  rewrite EJ in Ho. injection Ho as <-. destruct (Hw HI) as [[Hgr|(g & _ & Hp & Hn)] _]; [done|].
  by rewrite Hm in Hn.
Qed.

Lemma preapproved_network E bg e granted cwd :
  permissions_are_preapproved E bg e granted cwd = Some true ->
  network_enabled (network e) = true -> network_enabled (network granted) = true.
Proof.
  unfold permissions_are_preapproved. intros Hp Hn.
  destruct (intersect_listed E bg e e cwd) as (I & HI & HIn & _).
  destruct (intersect_listed E bg e granted cwd) as (J & HJ & HJn & _).
  rewrite HI, HJ in Hp. cbn in Hp. injection Hp as ->%bool_decide_eq_true.
  rewrite HIn, Hn in HJn. cbn in HJn. by destruct (network_enabled (network granted)).
Qed.

Lemma preapproved_total E bg e granted cwd : is_Some (permissions_are_preapproved E bg e granted cwd).
Proof.
  unfold permissions_are_preapproved.
  destruct (intersect_listed E bg e e cwd) as (I & -> & _), (intersect_listed E bg e granted cwd) as (J & -> & _).
  by eexists.
Qed.

(** The grants a call may rely on. *)
Definition usable (s : Session) (h : Holder) : Prop :=
  h = HeldBySession \/ exists t, active_turn s = Some t /\ h = HeldByTurn t.

Lemma granted_usable E bg s log env granted :
  env_wf E -> run E bg s log ->
  merge_permission_profiles (granted_session_permissions s env) (granted_turn_permissions s env) = Some granted ->
  Forall entry_wf (listed granted) /\
  (forall cwd x, absolute cwd -> absolute x -> access_in E cwd (listed granted) x <> Deny ->
     exists g, g ∈ log /\ usable s (grant_holder g) /\ grant_env g = env /\
       allows E bg g x (access_in E cwd (listed granted) x)) /\
  (network_enabled (network granted) = true ->
     exists g, g ∈ log /\ usable s (grant_holder g) /\ grant_env g = env /\
       network_enabled (network (grant_requested g)) = true /\
       network_enabled (network (grant_answer g)) = true).
Proof.
  intros HE Hr Hm. pose proof (run_inv E bg HE s log Hr) as Hi.
  assert (forall p, granted_session_permissions s env = Some p \/ granted_turn_permissions s env = Some p ->
    exists h, usable s h /\ sound_profile E bg log h env p) as Hs.
  { intros p [Hp|Hp].
    - exists HeldBySession. split; [by left|]. by apply (inv_session E bg s log Hi).
    - revert Hp. unfold granted_turn_permissions, active_state. destruct (active_turn s) as [t|] eqn:Ea; cbn; [|done].
      destruct (turns s !! t) as [ts|] eqn:Et; cbn; [|done]. intros Hp. exists (HeldByTurn t).
      split; [right; by exists t|]. by apply (inv_turns E bg s log Hi t ts Et). }
  split_and!.
  - rewrite Forall_forall. intros e [He|He]%(merge_elems _ _ _ e Hm).
    + destruct (granted_session_permissions s env) as [p|] eqn:Ep; [|by apply elem_of_nil in He].
      destruct (Hs p (or_introl eq_refl)) as (h & _ & _ & Hw & _). rewrite Forall_forall in Hw. by apply Hw.
    + destruct (granted_turn_permissions s env) as [p|] eqn:Ep; [|by apply elem_of_nil in He].
      destruct (Hs p (or_intror eq_refl)) as (h & _ & _ & Hw & _). rewrite Forall_forall in Hw. by apply Hw.
  - intros cwd x Hc Hx Ha.
    assert (exists p, (granted_session_permissions s env = Some p \/ granted_turn_permissions s env = Some p) /\
      access_in E cwd (listed granted) x = access_in E cwd (listed p) x) as (p & Hp & Hpa).
    { destruct (merge_open E cwd _ _ granted x Hc Hx Hm Ha) as [(p & -> & ?)|(p & -> & ?)]; exists p; tauto. }
    rewrite Hpa in *.
    destruct (Hs p Hp) as (h & Hu & [Hb _] & _). destruct (Hb cwd x Hc Hx Ha) as (g & ? & <- & ?). by exists g.
  - intros Hn.
    assert (exists p, (granted_session_permissions s env = Some p \/ granted_turn_permissions s env = Some p) /\
      network_enabled (network p) = true) as (p & Hp & Hpn).
    { destruct (merge_network _ _ granted Hm Hn) as [(p & -> & ?)|(p & -> & ?)]; exists p; tauto. }
    destruct (Hs p Hp) as (h & Hu & [_ Hb] & _). destruct (Hb Hpn) as (g & ? & <- & ?). by exists g.
Qed.

(** C22: the permissions of a call are always computed, and when they count as
    preapproved, so that the call is not asked about, they were granted earlier
    in the session or in the turn, for the same environment: every path they
    open, other than by an entry that one of their own patterns denies, was
    open in a request and its answer; every path they let be written, none of
    whose parents their own patterns deny, was writable in both ([allows]); and
    so was the network. *)
Theorem preapproved_was_granted (E : FsEnv) bg (s : Session) (log : list Grant) (env : str) (cwd x : path) sp additional :
  env_wf E -> run E bg s log -> absolute cwd -> absolute x ->
  (forall p, additional = Some p -> Forall entry_wf (listed p)) ->
  exists eff, apply_granted_turn_permissions E bg s env cwd sp additional = Some eff /\
    (permissions_preapproved eff = true ->
     exists p, effective_additional_permissions eff = Some p /\
       (forall r, decides E cwd (listed p) x r -> resolved_access r <> Deny ->
          matcher_denies E (request_matcher E bg p cwd) (resolved_path r) = false ->
          exists g, g ∈ log /\ usable s (grant_holder g) /\ grant_env g = env /\ allows E bg g x Read) /\
       (access_in E cwd (listed p) x = Write ->
          (forall y, y `prefix_of` x -> matcher_denies E (request_matcher E bg p cwd) y = false) ->
          exists g, g ∈ log /\ usable s (grant_holder g) /\ grant_env g = env /\ allows E bg g x Write) /\
       (network_enabled (network p) = true ->
          exists g, g ∈ log /\ usable s (grant_holder g) /\ grant_env g = env /\
            network_enabled (network (grant_requested g)) = true /\
            network_enabled (network (grant_answer g)) = true)).
Proof.
  intros HE Hr Hc Hx Hw. unfold apply_granted_turn_permissions.
  assert (sp = RequireEscalated \/ forall A (a b : A), match sp with RequireEscalated => a | _ => b end = b)
    as [->|Hif] by (destruct sp; [by right|by left|by right]); [by eexists|].
  rewrite Hif. set (granted := merge_permission_profiles (granted_session_permissions s env) _).
  destruct (merge_permission_profiles additional granted) as [p|] eqn:Ep; [|by eexists].
  destruct granted as [q|] eqn:Eq; [|by eexists].
  destruct (preapproved_total E bg p q cwd) as [b Hb]. rewrite Hb. cbn. eexists. split; [done|]. cbn. intros ->.
  exists p. split; [done|]. destruct (granted_usable E bg s log env q HE Hr Eq) as (Hqw & Hqa & Hqn).
  assert (Forall entry_wf (listed p)) as Hpw.
  { rewrite Forall_forall. intros e [He|He]%(merge_elems _ _ _ e Ep); [|rewrite Forall_forall in Hqw; by apply Hqw].
    destruct additional as [a|]; [|by apply elem_of_nil in He]. specialize (Hw a eq_refl).
    rewrite Forall_forall in Hw. by apply Hw. }
  split_and!.
  - intros r Hd Ha Hm. destruct (Hqa cwd x Hc Hx) as (g & ? & ? & ? & Ho & Hg & _); [by eapply preapproved_open|].
    exists g. by split_and!.
  - intros Ha Hm. rewrite <- (preapproved_write E bg p q cwd x HE Hc Hx Hpw Hqw Hb Ha Hm).
    apply (Hqa cwd x Hc Hx). by rewrite (preapproved_write E bg p q cwd x).
  - intros Hn. apply Hqn. by eapply preapproved_network.
Qed.

(** ** Examples *)

Definition sample_selection : TurnEnvironmentSelection := mk_selection (lit "local") (dir ["w"]).
Definition sample_ask : AdditionalPermissionProfile := file_request [(["b"], Read); (["c"], Write)]%string.

(** A turn in which the model asked to read [/b] and to write [/c] and the user agreed. *)
Definition asked : Session :=
  (request_permissions_for_environment (begin_turn session_new) OnRequest false (lit "call") sample_ask
     sample_selection).2.

Definition sample_session : Session :=
  default session_new
    (snd <$> notify_request_permissions_response sample_env no_globs asked (lit "call")
               (mk_response sample_ask TurnScope false)).

Definition sample_log : list Grant := [mk_grant (HeldByTurn 0) (lit "local") (dir ["w"]) sample_ask sample_ask].

Lemma sample_run : run sample_env no_globs sample_session sample_log.
Proof.
  assert (Forall entry_wf (listed sample_ask)) as Hw by (repeat constructor; cbn; dir_absolute).
  eapply (run_notify sample_env no_globs asked [] (lit "call") 0 (mk_pending_request sample_ask sample_selection) _
    (mk_response sample_ask TurnScope false)).
  - apply (run_request sample_env no_globs (begin_turn session_new) [] OnRequest false (lit "call") sample_ask
      sample_selection Waiting asked); [apply run_begin, run_new| |reflexivity].
    split; [exact Hw|cbn; dir_absolute].
  - exact Hw.
  - vm_compute. reflexivity.
  - vm_compute. reflexivity.
Qed.

Lemma recorded_grants_backed_witness :
  exists p, granted_turn_permissions sample_session (lit "local") = Some p /\
    access_in sample_env (dir ["w"]) (listed p) (dir ["b"; "x"]) = Read /\
    access_in sample_env (dir ["w"]) (listed p) (dir ["c"; "x"]) = Write /\
    backed sample_env no_globs sample_log (HeldByTurn 0) (lit "local") p.
Proof.
  destruct (granted_turn_permissions sample_session (lit "local")) as [p|] eqn:Ep.
  - destruct (recorded_grants_backed sample_env no_globs sample_session sample_log (lit "local") p
      sample_env_wf sample_run) as [_ Ht].
    destruct (Ht Ep) as (t & Ha & Hb). assert (t = 0) as -> by (vm_compute in Ha; congruence).
    exists p. split; [reflexivity|]. vm_compute in Ep. injection Ep as <-.
    split; [vm_compute; reflexivity|]. split; [vm_compute; reflexivity|exact Hb].
  - vm_compute in Ep. discriminate Ep.
Defined.

Lemma preapproved_was_granted_witness :
  exists eff p g, apply_granted_turn_permissions sample_env no_globs sample_session (lit "local") (dir ["w"])
      WithAdditionalPermissions (Some sample_ask) = Some eff /\
    permissions_preapproved eff = true /\ effective_additional_permissions eff = Some p /\
    access_in sample_env (dir ["w"]) (listed p) (dir ["c"; "x"]) = Write /\
    g ∈ sample_log /\ allows sample_env no_globs g (dir ["c"; "x"]) Write.
Proof.
  destruct (preapproved_was_granted sample_env no_globs sample_session sample_log (lit "local") (dir ["w"])
    (dir ["c"; "x"]) WithAdditionalPermissions (Some sample_ask)) as (eff & He & Hp).
  - apply sample_env_wf.
  - apply sample_run.
  - dir_absolute.
  - dir_absolute.
  - intros p [= <-]. repeat constructor; cbn; dir_absolute.
  - assert (permissions_preapproved eff = true /\ effective_additional_permissions eff = Some sample_ask) as [H1 H2].
    { vm_compute in He. injection He as <-. split; vm_compute; reflexivity. }
    destruct (Hp H1) as (p & Hpe & _ & Hw & _). assert (p = sample_ask) as -> by congruence.
    assert (access_in sample_env (dir ["w"]) (listed sample_ask) (dir ["c"; "x"]) = Write) as Ha
      by (vm_compute; reflexivity).
    destruct (Hw Ha) as (g & Hg & _ & _ & Hga); [intros y _; by vm_compute|].
    exists eff, sample_ask, g. split; [exact He|]. split; [exact H1|]. split; [exact H2|]. split; [exact Ha|].
    split; [exact Hg|exact Hga].
Defined.

(** A request that was never granted: to write everywhere, with a denied
    pattern that does not compile. *)
Definition fail_open_request : AdditionalPermissionProfile :=
  mk_additional None (Some (mk_fs_permissions
    [mk_entry (Special Root) Write; mk_entry (GlobPattern (lit "/[z-a]")) Deny] None)).

(** Patterns with an inverted range are errors. *)
Definition reject_ranges (pattern : str) : str + (path -> bool) :=
  if bool_decide (pattern = lit "/[z-a]") then inl (lit "invalid range") else inr (fun _ => false).

(** The matcher that fails closed drops the grant from both intersections that
    [permissions_are_preapproved] compares, so that they agree: after any grant,
    here to read [/b] and write [/c], the request to write everywhere counts as preapproved,
    passes the validation although requests are disabled and approvals are off,
    and is judged as a call that asks for nothing. *)
Example preapproval_fails_open :
  match call_permissions sample_env reject_ranges sample_session false false Never (lit "local") (dir ["w"])
          WithAdditionalPermissions (Some fail_open_request) with
  | Some (inr (sp, Some p, judged_as)) =>
    sp = WithAdditionalPermissions /\ judged_as = UseDefault /\
    access_in sample_env (dir ["w"]) (listed p) (dir ["etc"]) = Write
  | _ => False
  end.
Proof. by vm_compute. Qed.
