(* ===== verification/PatchInvocation.v ===== *)
(** * Calls of apply_patch ([apply-patch/src/invocation.rs])

    Which argument vectors call [apply_patch], the patch and the directory they
    name, and the verified action: the changes the patch would make to the files
    as they are.  The matches of the tree-sitter query over a script, and the
    text of a unified diff, are parameters. *)

From S2P Require Export PatchFs.
From S2P Require Import StreamingPatch BashScript ExecPolicy PatchFs.

(** ** Data *)

Inductive ApplyPatchShell := ShellUnix | ShellPowerShell | ShellCmd.

Inductive ExtractHeredocError :=
| CommandDidNotStartWithApplyPatch
| FailedToLoadBashGrammar
| HeredocNotUtf8
| FailedToParsePatchIntoAst
| FailedToFindHeredocBody.

Inductive MaybeApplyPatch :=
| PatchBody (args : ApplyPatchArgs)
| BodyShellParseError (e : ExtractHeredocError)
| BodyPatchParseError (e : ParseError)
| BodyNotApplyPatch.

Inductive ApplyPatchFileChange :=
| ChangeAdd (content : str)
| ChangeDelete (content : str)
| ChangeUpdate (unified_diff : str) (move_path : option path) (new_content : str).

Record ApplyPatchAction := mk_action {
  action_changes : gmap path ApplyPatchFileChange;
  action_patch : str;
  action_cwd : path
}.

Definition action_is_empty (a : ApplyPatchAction) : bool := bool_decide (action_changes a = ∅).

Inductive MaybeApplyPatchVerified :=
| Verified (action : ApplyPatchAction)
| ShellParseError (e : ExtractHeredocError)
| CorrectnessError (e : ApplyPatchError)
| NotApplyPatch.

(** ** Shells *)

Definition classify_shell_name (shell : str) : option str :=
  to_ascii_lowercase <$> file_stem (components shell).

Definition eq_ignore_ascii_case (a b : str) : bool := str_eqb (to_ascii_lowercase a) (to_ascii_lowercase b).

Definition is_one_of (s : str) (l : list string) : bool := existsb (fun w => str_eqb s (lit w)) l.

Definition classify_shell (shell flag : str) : option ApplyPatchShell :=
  name ← classify_shell_name shell;
  if is_one_of name ["bash"; "zsh"; "sh"]%string && is_one_of flag ["-lc"; "-c"]%string then Some ShellUnix
  else if is_one_of name ["pwsh"; "powershell"]%string && eq_ignore_ascii_case flag (lit "-command")
  then Some ShellPowerShell
  else if is_one_of name ["cmd"]%string && eq_ignore_ascii_case flag (lit "/c") then Some ShellCmd
  else None.

Definition can_skip_flag (shell flag : str) : bool :=
  match classify_shell_name shell with
  | Some name => is_one_of name ["pwsh"; "powershell"]%string && eq_ignore_ascii_case flag (lit "-noprofile")
  | None => false
  end.

Definition parse_shell_script (argv : list str) : option (ApplyPatchShell * str) :=
  match argv with
  | [shell; flag; script] => (fun t => (t, script)) <$> classify_shell shell flag
  | [shell; skip_flag; flag; script] =>
    if can_skip_flag shell skip_flag then (fun t => (t, script)) <$> classify_shell shell flag else None
  | _ => None
  end.

Definition APPLY_PATCH_COMMANDS : list string := ["apply_patch"; "applypatch"]%string.

(** ** Scripts *)

(** The captures of a match, with the texts of their nodes; [None] for a node
    whose bytes are not UTF-8. *)
Inductive Capture := Heredoc | CdPath | CdRawString | OtherCapture.
Notation captures := (list (Capture * option str)) (only parsing).

(** The captures of one match: the heredoc and the directory of the [cd]. *)
Fixpoint read_captures (l : captures) (heredoc cd_path : option str)
    : ExtractHeredocError + (option str * option str) :=
  match l with
  | [] => inr (heredoc, cd_path)
  | (name, text) :: l =>
    match name, text with
    | OtherCapture, _ => read_captures l heredoc cd_path
    | _, None => inl HeredocNotUtf8
    | Heredoc, Some text => read_captures l (Some (trim_end_matches NL text)) cd_path
    | CdPath, Some text => read_captures l heredoc (Some text)
    | CdRawString, Some raw =>
      read_captures l heredoc
        (Some (default raw (strip_prefix [39%N] raw ≫= strip_suffix [39%N])))
    end
  end.

Fixpoint first_heredoc (ms : list captures) : ExtractHeredocError + (str * option str) :=
  match ms with
  | [] => inl CommandDidNotStartWithApplyPatch
  | m :: ms =>
    match read_captures m None None with
    | inl e => inl e
    | inr (Some heredoc, cd_path) => inr (heredoc, cd_path)
    | inr (None, _) => first_heredoc ms
    end
  end.

Section invocation.
(** The grammar, when it loads: the matches of [APPLY_PATCH_QUERY] in a script,
    [None] for a script that has no tree. *)
Variable bash : option (str -> option (list (list (Capture * option str)))).

Definition extract_apply_patch_from_bash (src : str) : ExtractHeredocError + (str * option str) :=
  match bash with
  | None => inl FailedToLoadBashGrammar
  | Some query_matches =>
    match query_matches src with
    | None => inl FailedToParsePatchIntoAst
    | Some ms => first_heredoc ms
    end
  end.

Definition extract_apply_patch_from_shell (shell : ApplyPatchShell) (script : str)
    : ExtractHeredocError + (str * option str) :=
  match shell with
  | ShellUnix | ShellPowerShell | ShellCmd => extract_apply_patch_from_bash script
  end.

(** A parse that returns is a value; one that does not is passed on. *)
Definition parsed {A} (body : str) (ok : ApplyPatchArgs -> A) (err : ParseError -> A) : res Empty_set A :=
  match parse_patch body with
  | Ok args => Ok (ok args)
  | Err e => Ok (err e)
  | Panic => Panic
  | NoFuel => NoFuel
  end.

Definition set_workdir (dir : option str) (args : ApplyPatchArgs) : ApplyPatchArgs :=
  mk_args (patch args) (hunks args) dir (environment_id args).

Definition parse_script_form (argv : list str) : res Empty_set MaybeApplyPatch :=
  match parse_shell_script argv with
  | Some (shell, script) =>
    match extract_apply_patch_from_shell shell script with
    | inr (body, dir) => parsed body (fun args => PatchBody (set_workdir dir args)) BodyPatchParseError
    | inl CommandDidNotStartWithApplyPatch => Ok BodyNotApplyPatch
    | inl e => Ok (BodyShellParseError e)
    end
  | None => Ok BodyNotApplyPatch
  end.

Definition maybe_parse_apply_patch (argv : list str) : res Empty_set MaybeApplyPatch :=
  match argv with
  | [cmd; body] =>
    if is_one_of cmd APPLY_PATCH_COMMANDS then parsed body PatchBody BodyPatchParseError
    else parse_script_form argv
  | _ => parse_script_form argv
  end.

(** ** Verification *)

Context {fs : Type} `{ExecutorFileSystem fs}.
Variable home_dir : option path.
Variable unified_diff : str -> str -> str.

Definition verify_hunk (effective_cwd : path) (f : fs) (h : Hunk)
    : res ApplyPatchError (path * ApplyPatchFileChange) :=
  let p := hunk_resolve_path home_dir h effective_cwd in
  match h with
  | AddFile _ contents => Ok (p, ChangeAdd contents)
  | DeleteFile _ =>
    match read_file_text f p with
    | inr content => Ok (p, ChangeDelete content)
    | inl e => Err (PatchIoError (mk_IoError (lit "Failed to read " ++ display p) e))
    end
  | UpdateFile _ move_path chunks =>
    let? contents := derive_new_contents_from_chunks f p chunks in
    let '(original, new_content) := contents in
    Ok (p, ChangeUpdate (unified_diff original new_content)
             ((fun dest => resolve_path_against_base home_dir dest effective_cwd) <$> move_path) new_content)
  end.

Fixpoint verify_hunks (effective_cwd : path) (f : fs) (hs : list Hunk)
    (m : gmap path ApplyPatchFileChange) : res ApplyPatchError (gmap path ApplyPatchFileChange) :=
  match hs with
  | [] => Ok m
  | h :: hs =>
    let? change := verify_hunk effective_cwd f h in
    verify_hunks effective_cwd f hs (<[change.1 := change.2]> m)
  end.

Definition effective_cwd_of (args : ApplyPatchArgs) (cwd : path) : path :=
  match workdir args with
  | Some dir => resolve_path_against_base home_dir dir cwd
  | None => cwd
  end.

Definition verify_apply_patch_args (args : ApplyPatchArgs) (cwd : path) (f : fs)
    : res Empty_set MaybeApplyPatchVerified :=
  let effective_cwd := effective_cwd_of args cwd in
  match verify_hunks effective_cwd f (hunks args) ∅ with
  | Ok m => Ok (Verified (mk_action m (patch args) effective_cwd))
  | Err e => Ok (CorrectnessError e)
  | Panic => Panic
  | NoFuel => NoFuel
  end.

(** [parse_patch(..).is_ok()] *)
Definition is_patch (body : str) : res Empty_set bool := parsed body (fun _ => true) (fun _ => false).

Definition maybe_parse_apply_patch_verified (argv : list str) (cwd : path) (f : fs)
    : res Empty_set MaybeApplyPatchVerified :=
  let? bare := match argv with [body] => is_patch body | _ => Ok false end in
  if bare then Ok (CorrectnessError ImplicitInvocation)
  else
    let? implicit := match parse_shell_script argv with
                     | Some (_, script) => is_patch script
                     | None => Ok false
                     end in
    if implicit then Ok (CorrectnessError ImplicitInvocation)
    else
      let? parse := maybe_parse_apply_patch argv in
      match parse with
      | PatchBody args => verify_apply_patch_args args cwd f
      | BodyShellParseError e => Ok (ShellParseError e)
      | BodyPatchParseError e => Ok (CorrectnessError (PatchParseError e))
      | BodyNotApplyPatch => Ok NotApplyPatch
      end.
End invocation.

(** ** Parsing the recorded patch again *)

Lemma trim_parts s : exists w1 w2, blank w1 /\ blank w2 /\ s = w1 ++ trim s ++ w2.
Proof.
  destruct (trim_end_prefix s) as (w2 & H2 & B2). destruct (trim_start_suffix (trim_end s)) as (w1 & H1 & B1).
  exists w1, w2. split_and!; [done|done|]. unfold trim. rewrite app_assoc, <- H1. done.
Qed.

(** The lines of a patch: the first and the last are the markers, with blanks. *)
Definition framed (pl hl : list str) : Prop :=
  exists a b c d, blank a /\ blank b /\ blank c /\ blank d /\
    pl = (a ++ BEGIN_PATCH_MARKER ++ b) :: hl ++ [c ++ END_PATCH_MARKER ++ d].

Lemma check_strict_framed ls pl hl : check_patch_boundaries_strict ls = Ok (pl, hl) -> pl = ls /\ framed pl hl.
Proof.
  unfold check_patch_boundaries_strict. intros H.
  destruct (check_start_and_end_lines_strict (head ls) (last ls)) as [[]| | |] eqn:Ec; try done. cbn in H.
  destruct (head_last_app ls (check_start_and_end_two ls Ec)) as (x & k & y & ->).
  erewrite slice_mid in H by done. cbn in H. injection H as <- <-. split; [done|].
  cbn in Ec. rewrite app_comm_cons, last_snoc in Ec. unfold check_start_and_end_lines_strict in Ec. cbn in Ec.
  destruct (str_eqb (trim x) BEGIN_PATCH_MARKER) eqn:Ex, (str_eqb (trim y) END_PATCH_MARKER) eqn:Ey; try done.
  apply str_eqb_eq in Ex, Ey. destruct (trim_parts x) as (a & b & ? & ? & Hx), (trim_parts y) as (c & d & ? & ? & Hy).
  rewrite Ex in Hx. rewrite Ey in Hy. exists a, b, c, d. split_and!; try done. by rewrite <- Hx, <- Hy.
Qed.

Lemma check_lenient_framed ls pl hl :
  check_patch_boundaries_lenient ls = Ok (pl, hl) -> (forall l, l ∈ pl -> l ∈ ls) /\ framed pl hl.
Proof.
  unfold check_patch_boundaries_lenient.
  destruct (check_patch_boundaries_strict ls) as [[pl' hl']|e| |] eqn:Es; try done.
  { intros [= -> ->]. apply check_strict_framed in Es as [-> ?]. done. }
  destruct ls as [|a [|b ls]]; try done.
  destruct (head_last_app (a :: b :: ls)) as (x & k & y & E); [simpl; lia|].
  rewrite E, slice_mid with (x := x) (k := k) (y := y) by done. cbn [from_opt].
  destruct (last _); [|done]. case_match; [|done]. cbn. intros Hin.
  apply check_strict_framed in Hin as [-> ?]. split; [|done]. intros l0 Hl0. set_solver.
Qed.

Lemma marker_solid m : m = BEGIN_PATCH_MARKER \/ m = END_PATCH_MARKER -> edges_solid m /\ m <> [].
Proof. intros [-> | ->]; (split; [split; intros c; cbn; by intros [= <-]|done]). Qed.

(** Reading the lines again gives the markers without the outer blanks. *)
Lemma framed_reread pl hl :
  framed pl hl -> Forall line_ok pl ->
  exists pl', lines (trim (join [NL] pl)) = pl' /\ check_patch_boundaries_lenient pl' = Ok (pl', hl).
Proof.
  intros (a & b & c & d & Ha & Hb & Hc & Hd & ->) Hok.
  set (B := BEGIN_PATCH_MARKER) in *. set (Z := END_PATCH_MARKER) in *.
  destruct (marker_solid B (or_introl eq_refl)) as [HB HBn], (marker_solid Z (or_intror eq_refl)) as [HZ HZn].
  apply Forall_cons in Hok as [Hf Hok]. apply Forall_app in Hok as [Hh [Hl _]%Forall_cons].
  assert (join [NL] ((a ++ B ++ b) :: hl ++ [c ++ Z ++ d]) =
    a ++ join [NL] ((B ++ b) :: hl ++ [c ++ Z]) ++ d) as Hj.
  { rewrite !app_comm_cons, !join_lines, !fmap_cons. cbn [concat]. by rewrite <- !app_assoc. }
  assert (trim (join [NL] ((a ++ B ++ b) :: hl ++ [c ++ Z ++ d])) = join [NL] ((B ++ b) :: hl ++ [c ++ Z])) as Ht.
  { rewrite Hj. apply trim_blank; [|done|done|]; rewrite app_comm_cons, join_lines.
    - by destruct c.
    - split.
      + intros x. cbn. by intros [= <-].
      + intros x. rewrite !last_app. destruct (last Z) eqn:El; [|done]. intros [= <-]. by apply HZ. }
  exists ((B ++ b) :: hl ++ [c ++ Z]). rewrite Ht. split.
  - apply lines_join.
    + constructor; [|apply Forall_app; split; [done|constructor; [|done]]].
      * destruct Hf as [Hn Hr]. split; [set_solver|]. destruct b as [|x b] using rev_ind; [done|].
        rewrite !last_app in *. done.
      * destruct Hl as [Hn Hr]. split; [set_solver|]. by rewrite last_app.
    + rewrite app_comm_cons, last_snoc. by destruct c.
  - unfold check_patch_boundaries_lenient, check_patch_boundaries_strict.
    rewrite app_comm_cons, last_snoc, <- app_comm_cons. cbn [head].
    unfold check_start_and_end_lines_strict. cbn [fmap option_fmap option_map].
    assert (trim (B ++ b) = B) as -> by (apply (trim_blank [] B b); [done|constructor|done|done]).
    assert (trim (c ++ Z) = Z) as ->.
    { rewrite <- (app_nil_r Z) at 1. apply (trim_blank c Z []); [done|done|constructor|done]. }
    assert (str_eqb B BEGIN_PATCH_MARKER = true) as -> by (by apply str_eqb_eq).
    assert (str_eqb Z END_PATCH_MARKER = true) as -> by (by apply str_eqb_eq). cbn [andb].
    by erewrite slice_mid by done.
Qed.

Lemma split_parts_without (c x : char) s : x ∉ s -> Forall (fun l => x ∉ l) (split c s).
Proof.
  induction s as [|a s IH]; intros Hx; cbn; [by repeat constructor; apply not_elem_of_nil|].
  apply not_elem_of_cons in Hx as [Hxa Hx]. specialize (IH Hx).
  destruct (a =? c)%N; [constructor; [apply not_elem_of_nil|done]|].
  destruct (split c s) as [|h t]; [constructor; [set_solver|done]|].
  apply Forall_cons in IH as [Hh Ht]. constructor; [set_solver|done].
Qed.

Lemma lines_of_plain ps :
  Forall (fun l => NL ∉ l) ps -> Forall (fun l => CR ∉ l) ps -> Forall line_ok (lines_of ps).
Proof.
  intros Hn Hc. assert (forall l, CR ∉ l -> last l <> Some CR) as Hlast.
  { intros l Hl E. apply last_Some_elem_of in E. done. }
  induction ps as [|p ps IH]; cbn; [constructor|]. apply Forall_cons in Hn as [Hn Hns], Hc as [Hc Hcs].
  destruct ps as [|q ps]; [destruct p; repeat constructor; auto|].
  constructor; [|by apply IH]. rewrite chomp_cr_id by auto. split; auto.
Qed.

Lemma lines_plain s : CR ∉ s -> Forall line_ok (lines s).
Proof. intros H. apply lines_of_plain; [apply split_parts_no_sep|by apply split_parts_without]. Qed.

(** The patch text that is kept parses to the same hunks. *)
Lemma kept_patch_parses text args :
  parse_patch text = Ok args -> CR ∉ text ->
  exists args', parse_patch (patch args) = Ok args' /\ hunks args' = hunks args.
Proof.
  unfold parse_patch, parse_patch_text. cbn [PARSE_IN_STRICT_MODE]. intros Hp Hcr.
  change (if PARSE_IN_STRICT_MODE then Strict else Lenient) with Lenient in *. cbv iota in *.
  destruct (check_patch_boundaries_lenient (lines (trim text))) as [[pl hl]| | |] eqn:Ec; try done.
  cbn [res_bind] in Hp.
  destruct (check_lenient_framed _ _ _ Ec) as [Hsub Hfr].
  assert (Forall line_ok pl) as Hok.
  { assert (CR ∉ trim text) as Ht by (intros H%trim_subset; done). apply lines_plain in Ht.
    rewrite Forall_forall in *. auto. }
  destruct (framed_reread pl hl Hfr Hok) as (pl' & Hl & Hb).
  destruct (parse_environment_id_preamble hl) as [[[env rem] ln]| | |] eqn:Ep; try done. cbn [res_bind] in Hp.
  destruct (hunk_loop (S (length rem)) rem ln []) as [hs| | |] eqn:Eh; try done. cbn in Hp. injection Hp as <-.
  cbn [patch]. rewrite Hl, Hb. cbn [res_bind]. rewrite Ep. cbn [res_bind]. rewrite Eh. cbn. by eexists.
Qed.

(** ** Verified actions *)

Section verified.
Variable bash : option (str -> option (list (list (Capture * option str)))).
Context {fs : Type} `{ExecutorFileSystem fs}.
Variable home_dir : option path.
Variable unified_diff : str -> str -> str.
Notation vhunk := (verify_hunk home_dir unified_diff).
Notation vhunks := (verify_hunks home_dir unified_diff).
Implicit Types (f : fs) (h : Hunk) (hs : list Hunk).

Lemma verify_hunk_path cwd f h p c : vhunk cwd f h = Ok (p, c) -> p = hunk_resolve_path home_dir h cwd.
Proof.
  unfold verify_hunk. destruct h as [s c0|s|s mv cs].
  - by intros [= <- _].
  - case_match; [done|]. by intros [= <- _].
  - destruct (derive_new_contents_from_chunks _ _ _) as [[o n]| | |]; try done. by intros [= <- _].
Qed.

Lemma verify_hunk_returns cwd f h : returns (vhunk cwd f h).
Proof.
  unfold verify_hunk. destruct h as [s c|s|s mv cs]; [done|by case_match|].
  apply returns_bind; [|by intros [o n]]. unfold derive_new_contents_from_chunks. case_match; [done|].
  apply returns_bind; [apply derive_new_contents_returns|done].
Qed.

Lemma verify_hunks_returns cwd f hs m : returns (vhunks cwd f hs m).
Proof.
  revert m. induction hs as [|h hs IH]; intros m; cbn; [done|].
  apply returns_bind; [apply verify_hunk_returns|]. intros c _. apply IH.
Qed.

(** The change of the last hunk for a path. *)
Definition last_change cwd f hs (p : path) (c : ApplyPatchFileChange) : Prop :=
  exists pre h post, hs = pre ++ h :: post /\ vhunk cwd f h = Ok (p, c) /\
    Forall (fun h' => hunk_resolve_path home_dir h' cwd <> p) post.

Lemma verify_hunks_spec cwd f hs : forall m m', vhunks cwd f hs m = Ok m' ->
  forall p c, m' !! p = Some c <->
    last_change cwd f hs p c \/
    m !! p = Some c /\ Forall (fun h => hunk_resolve_path home_dir h cwd <> p) hs.
Proof.
  induction hs as [|h hs IH]; intros m m' Hv p c; cbn in Hv.
  { injection Hv as <-. split; [by right; split|]. intros [(pre & h & post & E & _)|[]]; [by destruct pre|done]. }
  destruct (vhunk cwd f h) as [[q d]| | |] eqn:Eh; try done. cbn in Hv.
  pose proof (verify_hunk_path _ _ _ _ _ Eh) as Hq. rewrite (IH _ _ Hv p c). split.
  - intros [(pre & h' & post & -> & Hr)|[Hm Hf]]; [left; by exists (h :: pre), h', post|].
    apply lookup_insert_Some in Hm as [[<- <-]|[Hne Hm]]; [left; by exists [], h, hs|].
    right. split; [done|]. constructor; [by rewrite <- Hq|done].
  - intros [(pre & h' & post & E & Hr & Hf)|[Hm [Hne Hf]%Forall_cons]].
    + destruct pre as [|h0 pre]; injection E as -> ->; [|left; by exists pre, h', post].
      rewrite Eh in Hr. injection Hr as <- <-. right. by rewrite lookup_insert_eq.
    + right. split; [|done]. rewrite lookup_insert_ne; [done|]. congruence.
Qed.

(** The patch that an argument vector passes, and its directory. *)
Definition passes_patch (argv : list str) (text : str) (dir : option str) : Prop :=
  (exists cmd, argv = [cmd; text] /\ is_one_of cmd APPLY_PATCH_COMMANDS = true /\ dir = None) \/
  exists shell script, parse_shell_script argv = Some (shell, script) /\
    extract_apply_patch_from_shell bash shell script = inr (text, dir).

Lemma parsed_returns {A} body (ok : ApplyPatchArgs -> A) err : exists r, parsed body ok err = Ok r.
Proof.
  unfold parsed. pose proof (parse_patch_returns body) as Hr. destruct (parse_patch body); by eauto || done.
Qed.

Lemma parsed_body body dir r :
  parsed body (fun args => PatchBody (set_workdir dir args)) BodyPatchParseError = Ok r ->
  forall args, r = PatchBody args ->
  exists args0, parse_patch body = Ok args0 /\ hunks args = hunks args0 /\ patch args = patch args0 /\ workdir args = dir.
Proof. unfold parsed. destruct (parse_patch body) as [a| | |]; try done; intros [= <-] args; naive_solver. Qed.

Lemma parse_workdir body args : parse_patch body = Ok args -> workdir args = None.
Proof.
  unfold parse_patch, parse_patch_text. intros Hp.
  apply bind_Ok in Hp as ([pl hl] & _ & Hp). apply bind_Ok in Hp as ([[env rem] ln] & _ & Hp).
  apply bind_Ok in Hp as (hs & _ & Hp). by injection Hp as <-.
Qed.

Lemma maybe_parse_spec argv :
  exists r, maybe_parse_apply_patch bash argv = Ok r /\
    forall args, r = PatchBody args -> exists text args0, passes_patch argv text (workdir args) /\
      parse_patch text = Ok args0 /\ hunks args = hunks args0 /\ patch args = patch args0.
Proof.
  assert (exists r, parse_script_form bash argv = Ok r /\
    forall args, r = PatchBody args -> exists text args0, passes_patch argv text (workdir args) /\
      parse_patch text = Ok args0 /\ hunks args = hunks args0 /\ patch args = patch args0) as Hs.
  { unfold parse_script_form. destruct (parse_shell_script argv) as [[shell script]|] eqn:Es; [|by eexists].
    destruct (extract_apply_patch_from_shell bash shell script) as [e|[body dir]] eqn:Ee; [destruct e; by eexists|].
    destruct (parsed_returns body (fun args => PatchBody (set_workdir dir args)) BodyPatchParseError) as [r Hr].
    exists r. split; [done|]. intros args ->. destruct (parsed_body body dir _ Hr args eq_refl) as (a0 & ? & ? & ? & ?).
    exists body, a0. split_and!; try done. right. exists shell, script. by subst dir. }
  unfold maybe_parse_apply_patch. destruct argv as [|cmd [|body []]]; try done.
  destruct (is_one_of cmd APPLY_PATCH_COMMANDS) eqn:Ec; [|done].
  destruct (parsed_returns body PatchBody BodyPatchParseError) as [r Hr]. exists r. split; [done|].
  intros args ->. unfold parsed in Hr. destruct (parse_patch body) as [a| | |] eqn:Ep; try done. injection Hr as ->.
  exists body, args. split_and!; try done. left. exists cmd. split_and!; try done. by eapply parse_workdir.
Qed.

Lemma is_patch_returns body : exists b, is_patch body = Ok b.
Proof. apply parsed_returns. Qed.

Lemma verified_spec argv cwd f :
  exists r, maybe_parse_apply_patch_verified bash home_dir unified_diff argv cwd f = Ok r /\
    forall a, r = Verified a -> exists text dir args, passes_patch argv text dir /\ parse_patch text = Ok args /\
      action_patch a = patch args /\
      action_cwd a = default cwd ((fun dir => resolve_path_against_base home_dir dir cwd) <$> dir) /\
      vhunks (action_cwd a) f (hunks args) ∅ = Ok (action_changes a).
Proof.
  unfold maybe_parse_apply_patch_verified.
  assert (exists b, match argv with [body] => is_patch body | _ => Ok false end = Ok b) as [b Hb].
  { destruct argv as [|body []]; [by eexists|apply is_patch_returns|by eexists]. }
  rewrite Hb. cbn [res_bind]. destruct b; [by eexists|].
  assert (exists b, match parse_shell_script argv with Some (_, script) => is_patch script | None => Ok false end
    = Ok b) as [b Hs].
  { destruct (parse_shell_script argv) as [[]|]; [apply is_patch_returns|by eexists]. }
  rewrite Hs. cbn [res_bind]. destruct b; [by eexists|].
  destruct (maybe_parse_spec argv) as (r & Hr & Hp). rewrite Hr. cbn [res_bind].
  destruct r as [args| | |]; try by eexists.
  destruct (Hp args eq_refl) as (text & args0 & Ht & Hp0 & Hh & Hpt).
  unfold verify_apply_patch_args. pose proof (verify_hunks_returns (effective_cwd_of home_dir args cwd) f (hunks args) ∅) as Hv.
  destruct (vhunks _ f (hunks args) ∅) as [m|e| |] eqn:Em; [|by eexists|done|done].
  eexists. split; [done|]. intros a [= <-]. exists text, (workdir args), args0. cbn. rewrite <- Hh.
  split_and!; try done. unfold effective_cwd_of. by destruct (workdir args).
Qed.
End verified.

(** Every argument vector is classified, and a verified action describes
    the patch that the call passes, directly or in a script: its directory is
    that of the call or the one the script changes to, and it holds, for each
    path that a hunk names, the change of the last such hunk against the files
    as they are, and nothing else.  The text it keeps for the later run parses
    to the same hunks, when it has no carriage returns. *)
Theorem verified_action_is_patch bash {fs : Type} `{ExecutorFileSystem fs} home_dir unified_diff argv cwd (f : fs) :
  exists r, maybe_parse_apply_patch_verified bash home_dir unified_diff argv cwd f = Ok r /\
    forall a, r = Verified a -> exists text dir args, passes_patch bash argv text dir /\ parse_patch text = Ok args /\
      action_cwd a = default cwd ((fun dir => resolve_path_against_base home_dir dir cwd) <$> dir) /\
      (forall p c, action_changes a !! p = Some c <->
         last_change home_dir unified_diff (action_cwd a) f (hunks args) p c) /\
      (CR ∉ text -> exists args', parse_patch (action_patch a) = Ok args' /\ hunks args' = hunks args).
Proof.
  destruct (verified_spec bash home_dir unified_diff argv cwd f) as (r & Hr & Ha). exists r. split; [done|].
  intros a ->. destruct (Ha a eq_refl) as (text & dir & args & Ht & Hp & Hpt & Hc & Hv).
  exists text, dir, args. split_and!; try done.
  - intros p c. rewrite (verify_hunks_spec _ _ _ _ _ _ _ Hv), lookup_empty. naive_solver.
  - rewrite Hpt. by apply kept_patch_parses.
Qed.
