(* ===== verification/PatchSafety.v ===== *)
(** * Safety of a patch ([core/src/safety.rs], [core/src/apply_patch.rs])

    Whether a verified patch may be applied without asking: its paths against
    the policy of the turn, and what the answer means for the run. *)

From S2P Require Import PatchInvocation.
From S2P Require Export Orchestrator.

(** ** The check *)

Inductive SafetyCheck :=
| AutoApprove (sandbox_type : SandboxType) (user_explicitly_approved : bool)
| AskUser
| Reject (reason : str).

Definition PATCH_REJECTED_OUTSIDE_PROJECT_REASON : str :=
  lit "writing outside of the project; rejected by user approval settings".
Definition PATCH_REJECTED_READ_ONLY_REASON : str :=
  lit "writing is blocked by read-only sandbox; rejected by user approval settings".

(** [resolve_path] of [core/src/util.rs] *)
Definition resolve_path (base p : path) : path := if is_absolute p then p else path_join base p.

Definition normalize (p : path) : path :=
  foldl (fun out c =>
    match c with
    | ParentDir => pop out
    | CurDir => out
    | RootDir => [RootDir]
    | Normal _ => out ++ [c]
    end) [] p.

Section safety.
Variable E : FsEnv.
Variable os : TargetOs.

Definition change_paths (p : path) (c : ApplyPatchFileChange) : list path :=
  match c with
  | ChangeAdd _ | ChangeDelete _ => [p]
  | ChangeUpdate _ move_path _ => p :: option_list move_path
  end.

Definition is_write_patch_constrained_to_writable_paths (action : ApplyPatchAction)
    (policy : FileSystemSandboxPolicy) (cwd : path) : bool :=
  forallb (fun '(p, c) =>
    forallb (fun p => can_write_path_with_cwd E policy (normalize (resolve_path cwd p)) cwd)
      (change_paths p c)) (map_to_list (action_changes action)).

Definition patch_rejection_reason (profile : PermissionProfile) (policy : FileSystemSandboxPolicy)
    (cwd : path) : str :=
  match profile with
  | Managed _ _ =>
    if negb (has_full_disk_write_access policy)
       && match get_writable_roots_with_cwd E policy cwd with [] => true | _ => false end
    then PATCH_REJECTED_READ_ONLY_REASON else PATCH_REJECTED_OUTSIDE_PROJECT_REASON
  | Disabled | External _ => PATCH_REJECTED_OUTSIDE_PROJECT_REASON
  end.

Definition rejects_sandbox_approval (policy : AskForApproval) : bool :=
  match policy with
  | Never => true
  | Granular g => negb (sandbox_approval g)
  | _ => false
  end.

Definition is_on_failure (policy : AskForApproval) : bool :=
  match policy with OnFailure => true | _ => false end.

Definition assess_constrained (action : ApplyPatchAction) (policy : AskForApproval)
    (profile : PermissionProfile) (fs_policy : FileSystemSandboxPolicy) (cwd : path)
    (level : WindowsSandboxLevel) : SafetyCheck :=
  let refuse := if rejects_sandbox_approval policy
                then Reject (patch_rejection_reason profile fs_policy cwd) else AskUser in
  if is_write_patch_constrained_to_writable_paths action fs_policy cwd || is_on_failure policy then
    match profile with
    | Disabled | External _ => AutoApprove NoSandbox false
    | Managed _ _ =>
      match get_platform_sandbox os (match level with WindowsDisabled => false | _ => true end) with
      | Some sandbox_type => AutoApprove sandbox_type false
      | None => refuse
      end
    end
  else refuse.

Definition assess_patch_safety (action : ApplyPatchAction) (policy : AskForApproval)
    (profile : PermissionProfile) (fs_policy : FileSystemSandboxPolicy) (cwd : path)
    (level : WindowsSandboxLevel) : SafetyCheck :=
  if action_is_empty action then Reject (lit "empty patch")
  else
    match policy with
    | UnlessTrusted => AskUser
    | OnFailure | Never | OnRequest | Granular _ =>
      assess_constrained action policy profile fs_policy cwd level
    end.

(** ** What the call does with the answer *)

Inductive InternalApplyPatchInvocation :=
| Output (error : str)
| DelegateToRuntime (action : ApplyPatchAction) (auto_approved : bool) (requirement : ExecApprovalRequirement).

Definition internal_apply_patch (policy : AskForApproval) (profile : PermissionProfile)
    (level : WindowsSandboxLevel) (fs_policy : FileSystemSandboxPolicy) (action : ApplyPatchAction)
    : InternalApplyPatchInvocation :=
  match assess_patch_safety action policy profile fs_policy (action_cwd action) level with
  | AutoApprove _ user_explicitly_approved =>
    DelegateToRuntime action (negb user_explicitly_approved) (Skip false None)
  | AskUser => DelegateToRuntime action false (NeedsApproval None None)
  | Reject reason => Output (lit "patch rejected: " ++ reason)
  end.
End safety.

(** ** Where a patch writes *)

(** What the crate relies on to stay within the files it names: an operation on
    a path, whether it fails or not, leaves the text at every path that is not
    the same file, by a hard or a symbolic link, and a new directory has no
    text. *)
Class FsFrame (fs : Type) `{ExecutorFileSystem fs} (same_file : path -> path -> Prop) : Prop := {
  write_frame : forall (f : fs) p c q,
    ~ same_file p q -> text_at (write_file f p c).1 q = text_at f q;
  create_frame : forall (f : fs) dir b q, text_at (create_directory f dir b).1 q = text_at f q;
  remove_frame : forall (f : fs) p o q,
    ~ same_file p q -> text_at (PatchFs.remove f p o).1 q = text_at f q
}.

Section frame.
Context {fs : Type} `{ExecutorFileSystem fs} (same_file : path -> path -> Prop) `{!FsFrame fs same_file}.
Variable home_dir : option path.
Implicit Types (f : fs) (h : Hunk).

(** The paths a hunk names. *)
Definition touched (cwd : path) h : list path :=
  hunk_resolve_path home_dir h cwd ::
  match h with
  | UpdateFile _ (Some dest) _ => [resolve_path_against_base home_dir dest cwd]
  | _ => []
  end.

Lemma write_retry_frame f p c q :
  ~ same_file p q -> text_at (write_file_with_missing_parent_retry f p c).1 q = text_at f q.
Proof.
  intros Hq. unfold write_file_with_missing_parent_retry.
  pose proof (write_frame f p c q Hq) as Hw. destruct (write_file f p c) as [f1 r]. cbn in Hw.
  repeat (case_match; cbn; try done).
  all: repeat match goal with
       | Hm : create_directory ?g ?d ?b = (?g', _) |- _ =>
         let Hc := fresh in pose proof (create_frame g d b q) as Hc; rewrite Hm in Hc; cbn in Hc; clear Hm
       | Hm : write_file ?g ?d ?b = (?g', _) |- _ =>
         let Hc := fresh in pose proof (write_frame g d b q Hq) as Hc; rewrite Hm in Hc; cbn in Hc; clear Hm
       end; congruence.
Qed.

Lemma apply_hunk_frame cwd f d a h q :
  (forall p, p ∈ touched cwd h -> ~ same_file p q) -> text_at (apply_hunk home_dir cwd f d a h).1.1 q = text_at f q.
Proof.
  unfold touched. intros Hall. unfold apply_hunk.
  set (p := hunk_resolve_path home_dir h cwd) in *.
  assert (~ same_file p q) as Hq by (apply Hall; by left).
  assert (forall g o, text_at (PatchFs.remove g p o).1 q = text_at g q) as Hrm by (intros; by eapply remove_frame).
  destruct h as [s c|s|s [dest|] cs].
  - unfold apply_add_hunk. pose proof (write_retry_frame f p c q Hq) as Hw.
    destruct (read_optional_file_text_for_delta _ _ _), (write_file_with_missing_parent_retry _ _ _) as [f1 []]; done.
  - unfold apply_delete_hunk. destruct (ensure_not_directory _ _); [done|].
    specialize (Hrm f plain_remove). destruct (PatchFs.remove f p plain_remove) as [f1 []]; done.
  - unfold apply_update_hunk. destruct (derive_new_contents_from_chunks _ _ _) as [[o n]| | |]; try done.
    unfold apply_move.
    assert (~ same_file (resolve_path_against_base home_dir dest cwd) q) as Hd by (apply Hall; by right; left).
    pose proof (write_retry_frame f (resolve_path_against_base home_dir dest cwd) n q Hd) as Hw.
    destruct (read_optional_file_text_for_delta _ _ _), (write_file_with_missing_parent_retry _ _ _) as [f1 []]; [done|].
    destruct (ensure_not_directory _ _); [done|]. specialize (Hrm f1 plain_remove).
    destruct (PatchFs.remove f1 p plain_remove) as [f2 []]; cbn in *; congruence.
  - unfold apply_update_hunk. destruct (derive_new_contents_from_chunks _ _ _) as [[o n]| | |]; try done.
    pose proof (write_frame f p n q Hq) as Hw. destruct (write_file f p n) as [f1 []]; done.
Qed.

Lemma apply_hunk_loop_frame cwd hs q : forall f d a,
  (forall h p, h ∈ hs -> p ∈ touched cwd h -> ~ same_file p q) -> text_at (apply_hunk_loop home_dir cwd f d a hs).1.1 q = text_at f q.
Proof.
  induction hs as [|h hs IH]; intros f d a Hq; cbn; [done|].
  pose proof (apply_hunk_frame cwd f d a h q (fun p => Hq h p ltac:(by left))) as Hh.
  destruct (apply_hunk home_dir cwd f d a h) as [[f1 d1] [a1|e| |]]; cbn in *; try done.
  rewrite IH; [done|]. intros h' p Hh'. apply Hq. by right.
Qed.

Lemma apply_patch_frame patch cwd out err f args q :
  parse_patch patch = Ok args -> (forall h p, h ∈ hunks args -> p ∈ touched cwd h -> ~ same_file p q) ->
  text_at (PatchFs.apply_patch home_dir patch cwd out err f).1.1.1 q = text_at f q.
Proof.
  intros Hp Hq. unfold PatchFs.apply_patch. rewrite Hp. unfold apply_hunks.
  assert (text_at (apply_hunks_to_files home_dir (hunks args) cwd f delta_empty).1.1 q = text_at f q) as Hl.
  { unfold apply_hunks_to_files. destruct (hunks args) as [|h hs] eqn:Eh; [done|]. by apply apply_hunk_loop_frame. }
  destruct (apply_hunks_to_files _ _ _ _ _) as [[f1 d1] [a1|e| |]]; cbn in Hl; [| |done|done].
  - by destruct (print_summary a1 out) as [o []].
  - by destruct (writeln err (show_anyhow e)) as [o []].
Qed.
End frame.

(** ** Patches that are not asked about *)

Lemma normalize_absolute_id p : absolute p -> normalize p = p.
Proof.
  intros Hp. pose proof (normalize_idem p Hp) as Hn. unfold normalize_path in Hn.
  change (foldl normalize_step [] p) with (normalize p) in Hn.
  destruct (normalize p); [|done]. destruct Hp as (names & -> & _). done.
Qed.

Lemma resolve_path_absolute_id base p : absolute p -> normalize (resolve_path base p) = p.
Proof.
  intros Hp. unfold resolve_path.
  assert (is_absolute p = true) as -> by (by destruct Hp as (? & -> & _)). by apply normalize_absolute_id.
Qed.

Section confined.
Context {fs : Type} `{ExecutorFileSystem fs}.
Variable home_dir : option path.
Hypothesis Hhome : forall h, home_dir = Some h -> absolute h.
Variable E : FsEnv.

Lemma touched_absolute cwd h q : absolute cwd -> q ∈ touched home_dir cwd h -> absolute q.
Proof.
  intros Hc. unfold touched. destruct h as [s c|s|s [dest|] cs]; cbn;
    rewrite ?elem_of_cons; intros Hq; destruct_or?; subst; try (by apply elem_of_nil in Hq);
    by apply resolve_absolute.
Qed.

Lemma verified_touched ud cwd (f : fs) h p c q :
  verify_hunk home_dir ud cwd f h = Ok (p, c) -> q ∈ touched home_dir cwd h -> q ∈ change_paths p c.
Proof.
  unfold verify_hunk, touched. destruct h as [s c0|s|s mv cs].
  - by intros [= <- <-].
  - case_match; [done|]. by intros [= <- <-].
  - destruct (derive_new_contents_from_chunks _ _ _) as [[o n]| | |]; try done.
    intros [= <- <-]. by destruct mv.
Qed.

(** With one hunk for each path, every path a hunk names passed the check. *)
Lemma constrained_touched ud policy action cwd (f : fs) hs h q :
  absolute (action_cwd action) ->
  is_write_patch_constrained_to_writable_paths E action policy cwd = true ->
  (forall p c, last_change home_dir ud (action_cwd action) f hs p c -> action_changes action !! p = Some c) ->
  (forall h, h ∈ hs -> exists p c, verify_hunk home_dir ud (action_cwd action) f h = Ok (p, c)) ->
  NoDup ((fun h => hunk_resolve_path home_dir h (action_cwd action)) <$> hs) ->
  h ∈ hs -> q ∈ touched home_dir (action_cwd action) h ->
  can_write_path_with_cwd E policy q cwd = true.
Proof.
  intros Hac Hw Hall Hok Hnd Hh Hq. destruct (Hok h Hh) as (p & c & Hv).
  apply list_elem_of_split in Hh as (pre & post & ->).
  assert (action_changes action !! p = Some c) as Hl.
  { apply Hall. exists pre, h, post. split; [done|]. split; [done|].
    rewrite fmap_app, fmap_cons in Hnd. apply NoDup_app in Hnd as (_ & _ & [Hn _]%NoDup_cons).
    rewrite Forall_forall. intros h' Hh' Heq. apply Hn.
    rewrite <- (verify_hunk_path _ _ _ _ _ _ _ Hv), <- Heq. apply list_elem_of_fmap. by exists h'. }
  unfold is_write_patch_constrained_to_writable_paths in Hw. rewrite forallb_forall in Hw.
  specialize (Hw (p, c)). cbn in Hw. rewrite forallb_forall in Hw.
  rewrite <- (resolve_path_absolute_id cwd q) by (by eapply touched_absolute).
  apply Hw.
  - apply list_elem_of_In. by apply elem_of_map_to_list.
  - apply list_elem_of_In. by eapply verified_touched.
Qed.
End confined.

Lemma auto_approved_constrained E os policy profile level fs_policy action requirement :
  internal_apply_patch E os policy profile level fs_policy action = DelegateToRuntime action true requirement ->
  requirement = Skip false None /\ (policy <> OnFailure ->
    is_write_patch_constrained_to_writable_paths E action fs_policy (action_cwd action) = true).
Proof.
  unfold internal_apply_patch, assess_patch_safety, assess_constrained.
  destruct (action_is_empty action); [done|]. intros Hr.
  destruct (is_write_patch_constrained_to_writable_paths E action fs_policy (action_cwd action)) eqn:Ec.
  - split; [|done]. destruct policy as [| | |g|], profile; cbn in Hr; repeat case_match; congruence.
  - destruct policy as [| | |g|]; cbn in Hr; repeat case_match; split; congruence.
Qed.

Lemma verify_hunks_each {fs : Type} `{ExecutorFileSystem fs} home_dir ud cwd (f : fs) hs : forall m m',
  verify_hunks home_dir ud cwd f hs m = Ok m' ->
  forall h, h ∈ hs -> exists p c, verify_hunk home_dir ud cwd f h = Ok (p, c).
Proof.
  induction hs as [|h hs IH]; intros m m' Hv h'; [by intros ?%elem_of_nil|]. cbn in Hv.
  apply bind_Ok in Hv as ([p c] & Hh & Hv). intros [->|Hin]%elem_of_cons; [by exists p, c|by eapply IH].
Qed.


(** ** Examples *)

#[export] Instance mem_frame : FsFrame (gmap path node) eq.
Proof.
  split; intros m p; rewrite ?mem_text; unfold write_file, create_directory, PatchFs.remove; cbn.
  - intros c q Hq. unfold mem_write.
    assert (forall o, text_at (<[p := o]> m) q = text_at m q) as Hi.
    { intros o. by rewrite !mem_text, lookup_insert_ne. }
    repeat case_match; cbn; try done; apply Hi.
  - intros b q. unfold mem_mkdir. case_match; [|done]. cbn.
    assert (forall ps (m : gmap path node), text_at (foldl mem_add_dir m ps) q = text_at m q) as Hf; [|apply Hf].
    clear. induction ps as [|p ps IH]; intros m; cbn; [done|]. rewrite IH. unfold mem_add_dir.
    destruct (m !! p) as [|] eqn:Ep; [done|]. rewrite !mem_text.
    destruct (decide (q = p)) as [->|Hne]; [by rewrite lookup_insert_eq, Ep|by rewrite lookup_insert_ne].
  - intros o q Hq. unfold mem_remove. repeat case_match; cbn; try done. by rewrite !mem_text, lookup_delete_ne.
Qed.

Definition work_policy : FileSystemSandboxPolicy :=
  fs_restricted [mk_entry (Special Root) Read; mk_entry (FsPath (dir ["w"])) Write].
Definition work_profile : PermissionProfile :=
  Managed (ManagedRestricted (entries work_policy) None) NetRestricted.

Definition no_diff (old new : str) : str := [].

Definition patch_of (body : list string) : str :=
  join [NL] (lit "*** Begin Patch" :: (lit <$> body) ++ [lit "*** End Patch"]).

Definition work_files : gmap path node :=
  {[ dir [] := Dir; dir ["w"] := Dir; dir ["etc"] := Dir; dir ["w"; "a"] := File (lit "one" ++ [NL]) ]}.

Definition quiet : writer := mk_writer [] None.

(** A call that updates one file and adds another. *)
Definition work_patch : str :=
  patch_of ["*** Update File: a"; "@@"; "-one"; "+two"; "*** Add File: b"; "+new"]%string.

Definition verified_action (patch : str) : ApplyPatchAction :=
  match maybe_parse_apply_patch_verified None None no_diff [lit "apply_patch"; patch] (dir ["w"]) work_files with
  | Ok (Verified action) => action
  | _ => mk_action ∅ [] []
  end.


(** A patch that names a file twice: the first hunk moves it out of the
    writable directory, the second one adds it again.  Only the second change is
    in the verified action, so the check passes and the patch is applied without
    asking; the move is applied too. *)
Definition hidden_move : str :=
  patch_of ["*** Update File: a"; "*** Move to: /etc/x"; "@@"; "-one"; "+two"; "*** Add File: a"; "+new"]%string.

Example repeated_path_hides_move :
  let action := verified_action hidden_move in
  let after := (PatchFs.apply_patch None (action_patch action) (action_cwd action) quiet quiet work_files).1.1.1 in
  internal_apply_patch sample_env Linux OnRequest work_profile WindowsDisabled work_policy action =
    DelegateToRuntime action true (Skip false None) /\
  action_changes action = {[ dir ["w"; "a"] := ChangeAdd (lit "new" ++ [NL]) ]} /\
  text_at after (dir ["etc"; "x"]) = Some (lit "two" ++ [NL]) /\
  can_write_path_with_cwd sample_env work_policy (dir ["etc"; "x"]) (action_cwd action) = false.
Proof. split_and!; vm_compute; reflexivity. Qed.
