(* ===== verification/Compact.v ===== *)
(** * Compaction of a conversation ([core/src/compact.rs])

    The model is asked for a summary, with the oldest items dropped while the
    prompt does not fit and failed streams retried; then the history becomes the
    newest user messages that fit a budget and the summary.  The streams of the
    model are a list; the session and the clone it prompts with are two states. *)

From S2P Require Export History StreamText.

(** ** Turn items ([core/src/event_mapping.rs]) *)

Definition IMAGE_OPEN_TAG : str := lit "<image>".
Definition IMAGE_CLOSE_TAG : str := lit "</image>".
Definition LOCAL_IMAGE_OPEN_TAG_PREFIX : str := lit "<image name=".
Definition LOCAL_IMAGE_OPEN_TAG_SUFFIX : str := lit ">".

Definition is_image_open_tag_text (text : str) : bool := str_eqb text IMAGE_OPEN_TAG.
Definition is_image_close_tag_text (text : str) : bool := str_eqb text IMAGE_CLOSE_TAG.
Definition is_local_image_close_tag_text (text : str) : bool := is_image_close_tag_text text.
Definition is_local_image_open_tag_text (text : str) : bool :=
  match strip_prefix LOCAL_IMAGE_OPEN_TAG_PREFIX text with
  | Some rest => ends_with LOCAL_IMAGE_OPEN_TAG_SUFFIX rest
  | None => false
  end.

(** The inputs that model content is read back as. *)
Inductive UserInput :=
| TextInput (text : str)
| ImageInput (image_url : str) (detail : option ImageDetail).

(** The items that [parse_turn_item] makes.  A message that came without an
    identifier is given a random one, which is [None] here; the payloads that the
    conversation keeps opaque stay so. *)
Inductive TurnItem :=
| UserMessage (content : list UserInput)
| HookPrompt (fragments : list (str * str))
| AgentMessageItem (id : option str) (content : list str) (phase : option opaque)
| ReasoningItem (id : str) (summary_text raw_content : opaque)
| WebSearchItem (id : str) (action : option opaque)
| ImageGenerationItem (id status : str) (revised_prompt : option str) (result : str).

(** The texts of an assistant message. *)
Definition parse_agent_message (id : option str) (message : list ContentItem) (phase : option opaque)
    : TurnItem :=
  AgentMessageItem id
    (omap (fun c => match c with
                    | InputText text | OutputText text => Some text
                    | InputImage _ _ => None
                    end) message) phase.

Definition is_input_image (c : option ContentItem) : bool :=
  match c with Some (InputImage _ _) => true | _ => false end.

(** The loop of [parse_user_message], with the previous content item. *)
Fixpoint user_inputs (prev : option ContentItem) (message : list ContentItem) : list UserInput :=
  match message with
  | [] => []
  | c :: rest =>
    match c with
    | InputText text =>
      if (is_local_image_open_tag_text text || is_image_open_tag_text text) && is_input_image (head rest)
         || (is_local_image_close_tag_text text || is_image_close_tag_text text) && is_input_image prev
      then user_inputs (Some c) rest
      else TextInput text :: user_inputs (Some c) rest
    | InputImage image_url detail => ImageInput image_url detail :: user_inputs (Some c) rest
    | OutputText _ => user_inputs (Some c) rest
    end
  end.

(** [UserMessageItem::message] *)
Definition message_text (content : list UserInput) : str :=
  concat ((fun c => match c with TextInput text => text | ImageInput _ _ => [] end) <$> content).

Section items.
Variable from_xml_str : str -> option (str * str).

Definition parse_user_message (message : list ContentItem) : option (list UserInput) :=
  if is_contextual_user_message_content from_xml_str message then None
  else Some (user_inputs None message).

Fixpoint hook_fragments (content : list ContentItem) : option (list (str * str)) :=
  match content with
  | [] => Some []
  | InputText text :: content =>
    match parse_hook_prompt_fragment from_xml_str text with
    | Some fragment => cons fragment <$> hook_fragments content
    | None => if is_standard_contextual_user_text text then hook_fragments content else None
    end
  | _ :: _ => None
  end.

Definition parse_visible_hook_prompt_message (content : list ContentItem) : option (list (str * str)) :=
  match hook_fragments content with
  | Some [] | None => None
  | fragments => fragments
  end.

Definition parse_turn_item (item : ResponseItem) : option TurnItem :=
  match item with
  | Message id role content phase =>
    if str_eqb role (lit "user") then
      match parse_visible_hook_prompt_message content with
      | Some fragments => Some (HookPrompt fragments)
      | None => UserMessage <$> parse_user_message content
      end
    else if str_eqb role (lit "assistant") then Some (parse_agent_message id content phase)
    else None
  | Reasoning id summary content _ => Some (ReasoningItem id summary content)
  | WebSearchCall id _ action => Some (WebSearchItem (default [] id) action)
  | ImageGenerationCall id status revised_prompt result =>
    Some (ImageGenerationItem id status revised_prompt result)
  | _ => None
  end.

(** ** The new history *)

Definition SUMMARY_PREFIX : str :=
  lit "Another language model started to solve this problem and produced a summary of its thinking process. You also have access to the state of the tools that were used by that language model. Use this to build on the work that has already been done and avoid duplicating work. Here is the summary produced by the other language model, use the information in this summary to assist with your own analysis:".

Definition COMPACT_USER_MESSAGE_MAX_TOKENS : Z := 20000.

Definition is_summary_message (message : str) : bool := starts_with (SUMMARY_PREFIX ++ [NL]) message.

Definition user_text (item : ResponseItem) : option str :=
  match parse_turn_item item with
  | Some (UserMessage content) => Some (message_text content)
  | _ => None
  end.

Definition collect_user_messages (l : list ResponseItem) : list str :=
  omap (fun item => message ← user_text item;
                    if is_summary_message message then None else Some message) l.

(** The loop from the end: the last user message or summary, and the last user
    message that is not a summary. *)
Fixpoint scan_back (l : list (nat * ResponseItem)) (last_user_or_summary : option nat)
    : option nat * option nat :=
  match l with
  | [] => (last_user_or_summary, None)
  | (i, item) :: l =>
    match user_text item with
    | None => scan_back l last_user_or_summary
    | Some message =>
      let last_user_or_summary := match last_user_or_summary with Some j => Some j | None => Some i end in
      if negb (is_summary_message message) then (last_user_or_summary, Some i)
      else scan_back l last_user_or_summary
    end
  end.

Definition is_compaction (item : ResponseItem) : bool :=
  match item with Compaction _ | ContextCompaction _ => true | _ => false end.

Definition insert_initial_context_before_last_real_user_or_summary
    (compacted_history initial_context : list ResponseItem) : list ResponseItem :=
  let '(last_user_or_summary, last_real_user) :=
    scan_back (reverse (imap pair compacted_history)) None in
  let insertion_index :=
    match last_real_user with
    | Some i => Some i
    | None => match last_user_or_summary with
              | Some i => Some i
              | None => rposition is_compaction compacted_history
              end
    end in
  match insertion_index with
  | Some i => take i compacted_history ++ initial_context ++ drop i compacted_history
  | None => compacted_history ++ initial_context
  end.

(** The messages that fit, from the newest back. *)
Fixpoint select_messages (newest_first : list str) (remaining : Z) : res unit (list str) :=
  match newest_first with
  | [] => Ok []
  | message :: rest =>
    if (remaining =? 0)%Z then Ok []
    else
      let tokens := approx_token_count message in
      if (tokens <=? remaining)%Z then
        let? l := select_messages rest (Z.max 0 (remaining - tokens)%Z) in Ok (message :: l)
      else
        let? truncated := truncate_text message (Tokens remaining) in Ok [truncated]
  end.

Definition user_item (text : str) : ResponseItem := Message None (lit "user") [InputText text] None.

Definition build_compacted_history_with_limit (history : list ResponseItem) (user_messages : list str)
    (summary_text : str) (max_tokens : Z) : res unit (list ResponseItem) :=
  let? selected := if (0 <? max_tokens)%Z then select_messages (reverse user_messages) max_tokens else Ok [] in
  let summary_text := match summary_text with [] => lit "(no summary available)" | _ => summary_text end in
  Ok (history ++ (user_item <$> reverse selected) ++ [user_item summary_text]).

Definition build_compacted_history (initial_context : list ResponseItem) (user_messages : list str)
    (summary_text : str) : res unit (list ResponseItem) :=
  build_compacted_history_with_limit initial_context user_messages summary_text COMPACT_USER_MESSAGE_MAX_TOKENS.

(** ** The summary *)

(** A computation without errors of its own. *)
Definition lift {A} (r : res Empty_set A) : res unit A :=
  match r with Ok a => Ok a | Err e => match e with end | Panic => Panic | NoFuel => NoFuel end.

(** [last_assistant_message_from_item] outside plan mode *)
Definition last_assistant_message_from_item (item : ResponseItem) : res unit (option str) :=
  match item with
  | Message _ role content _ =>
    if str_eqb role (lit "assistant") then
      let combined := concat (omap (fun c => match c with OutputText text => Some text | _ => None end) content) in
      match combined with
      | [] => Ok None
      | _ =>
        let? stripped := lift (strip_citations combined) in
        Ok (match trim stripped.1 with [] => None | _ => Some stripped.1 end)
      end
    else Ok None
  | _ => Ok None
  end.

Fixpoint first_message (l : list ResponseItem) : res unit (option str) :=
  match l with
  | [] => Ok None
  | item :: l =>
    let? message := last_assistant_message_from_item item in
    match message with Some message => Ok (Some message) | None => first_message l end
  end.

Definition get_last_assistant_message_from_turn (responses : list ResponseItem) : res unit (option str) :=
  first_message (reverse responses).

(** ** Asking for the summary *)

(** The errors the loop tells apart; [OtherError] is any of the others. *)
Inductive CodexErr :=
| Interrupted
| TurnAborted
| ContextWindowExceeded
| StreamClosed
| OtherError (message : str).

(** [OtherEvent] is an event that does not touch the history. *)
Inductive ResponseEvent :=
| OutputItemDone (item : ResponseItem)
| Completed (token_usage : option TokenUsage)
| OtherEvent.

Context {TurnContextItem : Type}.
Notation manager := (@ContextManager TurnContextItem).
Variable json_len : ResponseItem -> option Z.
Variable json_file_path : str -> option str.
Variable decode_image : str -> option (Z * Z).
Variable debug_assertions : bool.
Variable compact_var : option str.

(** What the turn context says. *)
Record CompactTurn := mk_compact_turn {
  truncation_policy : TruncationPolicy;
  input_modalities : list InputModality;
  model_context_window : option Z;
  stream_max_retries : nat;
  base_instructions : str;
  initial_context : list ResponseItem;
  turn_context_item : TurnContextItem
}.

Inductive InitialContextInjection := BeforeLastUserMessage | DoNotInject.

Variable turn : CompactTurn.

(** One stream: what it records in the session, and how it ends. *)
Fixpoint drain_to_completed (sess : manager) (stream : list (CodexErr + ResponseEvent))
    : res unit (manager * (CodexErr + unit)) :=
  match stream with
  | [] => Ok (sess, inl StreamClosed)
  | inl e :: _ => Ok (sess, inl e)
  | inr (OutputItemDone item) :: stream =>
    let? sess := record_items sess [item] (truncation_policy turn) in
    drain_to_completed sess stream
  | inr (Completed token_usage) :: _ =>
    Ok (match token_usage with
        | Some usage => update_token_info sess usage (model_context_window turn)
        | None => sess
        end, inr tt)
  | inr OtherEvent :: stream => drain_to_completed sess stream
  end.

Definition set_total_tokens_full (sess : manager) : manager :=
  match model_context_window turn with
  | Some window => set_token_usage_full sess window
  | None => sess
  end.

(** The loop; it needs one stream of the list for each attempt. *)
Fixpoint compact_loop (streams : list (list (CodexErr + ResponseEvent))) (sess history : manager)
    (retries : nat) : res unit (manager * (CodexErr + unit)) :=
  match streams with
  | [] => NoFuel
  | stream :: streams =>
    let? turn_input := for_prompt json_file_path debug_assertions compact_var history (input_modalities turn) in
    let? drained := drain_to_completed sess stream in
    let '(sess, attempt_result) := drained in
    match attempt_result with
    | inr _ => Ok (sess, inr tt)
    | inl Interrupted => Ok (sess, inl Interrupted)
    | inl ContextWindowExceeded =>
      if (1 <? length turn_input)%nat then compact_loop streams sess (remove_first_item history) 0
      else Ok (set_total_tokens_full sess, inl ContextWindowExceeded)
    | inl e =>
      if (retries <? stream_max_retries turn)%nat then compact_loop streams sess history (S retries)
      else Ok (sess, inl e)
    end
  end.

Definition recompute_token_usage (sess : manager) : manager :=
  match estimate_token_count_with_base_instructions json_len decode_image sess (base_instructions turn) with
  | None => sess
  | Some estimated_total_tokens =>
    let info := default (mk_info usage_default usage_default None) (token_info sess) in
    let info := mk_info (total_token_usage info) (mk_usage 0 0 0 0 (Z.max 0 estimated_total_tokens))
                  (match model_context_window turn with
                   | Some window => Some window
                   | None => History.model_context_window info
                   end) in
    set_token_info sess (Some info)
  end.

(** [replace_compacted_history], without the persistence *)
Definition replace_compacted_history (sess : manager) (l : list ResponseItem)
    (reference : option TurnContextItem) : manager :=
  set_reference_context_item (replace sess l) reference.

(** The session after it, and the summary. *)
Definition run_compact_task_inner_impl (input : str) (injection : InitialContextInjection)
    (streams : list (list (CodexErr + ResponseEvent))) (sess : manager)
    : res unit (manager * (CodexErr + str)) :=
  let? history := record_items sess [user_item input] (truncation_policy turn) in
  let? looped := compact_loop streams sess history 0 in
  match looped with
  | (sess, inl e) => Ok (sess, inl e)
  | (sess, inr _) =>
    let history_items := items sess in
    let? summary := get_last_assistant_message_from_turn history_items in
    let summary_suffix := default [] summary in
    let summary_text := SUMMARY_PREFIX ++ [NL] ++ summary_suffix in
    let? new_history := build_compacted_history [] (collect_user_messages history_items) summary_text in
    let new_history :=
      match injection with
      | BeforeLastUserMessage =>
        insert_initial_context_before_last_real_user_or_summary new_history (initial_context turn)
      | DoNotInject => new_history
      end in
    let reference :=
      match injection with BeforeLastUserMessage => Some (turn_context_item turn) | DoNotInject => None end in
    Ok (recompute_token_usage (replace_compacted_history sess new_history reference), inr summary_suffix)
  end.

Inductive CompactionStatus := CompactionCompleted | CompactionInterrupted | CompactionFailed.

Definition compaction_status_from_result {A} (result : CodexErr + A) : CompactionStatus :=
  match result with
  | inr _ => CompactionCompleted
  | inl Interrupted | inl TurnAborted => CompactionInterrupted
  | inl _ => CompactionFailed
  end.

(** With what the hooks before and after it answer; the last component is the
    status that is reported. *)
Definition run_compact_task_inner (pre_compact_stopped post_compact_stopped : bool) (input : str)
    (injection : InitialContextInjection) (streams : list (list (CodexErr + ResponseEvent)))
    (sess : manager) : res unit (manager * (CodexErr + unit) * CompactionStatus) :=
  if pre_compact_stopped then Ok (sess, inl TurnAborted, CompactionInterrupted)
  else
    let? r := run_compact_task_inner_impl input injection streams sess in
    let '(sess, result) := r in
    let status := compaction_status_from_result result in
    match result with
    | inr _ => Ok (sess, if post_compact_stopped then inl TurnAborted else inr tt, status)
    | inl e => Ok (sess, inl e, status)
    end.
End items.

(** ** The messages that are kept *)

Lemma select_messages_returns l n : forall r,
  (0 <= r)%Z -> Forall (fun m => zlen m <= USIZE_MAX)%Z l ->
  exists kept omitted, select_messages l r = Ok kept /\ texts_cut (Tokens n) r l kept omitted.
Proof.
  induction l as [|m l IH]; intros r Hr Hl; cbn [select_messages].
  { exists [], 0%Z. split; [done|]. exists [], []. split_and!; [done|done|by left]. }
  apply Forall_cons in Hl as [Hm Hl]. destruct (Z.eqb_spec r 0) as [->|Hz].
  { exists [], (Z.of_nat (length (m :: l))). split; [done|]. exists [], (m :: l).
    split_and!; [done|done|]. right; left. by split_and!. }
  pose proof (item_cost_nonneg (Tokens n) m) as Hc. cbn [item_cost] in Hc.
  destruct (Z.leb_spec (approx_token_count m) r) as [Hle|Hgt].
  - destruct (IH (Z.max 0 (r - approx_token_count m)%Z)) as (kept & o & E & Hk); [lia|done|].
    rewrite E. exists (m :: kept), o. split; [done|]. apply texts_cut_cons; [done|].
    cbn [item_cost]. by rewrite Z.max_r in Hk by lia.
  - destruct (truncate_text_returns m (Tokens r)) as (t & E & _); [done|done|].
    rewrite E. exists [t], (Z.of_nat (length l)). split; [done|]. exists [], (m :: l).
    split_and!; [done|done|]. right; right. exists m, l, t. cbn [cost_of foldr item_cost with_budget].
    rewrite Z.sub_0_r. split_and!; [done|lia|lia|done..].
Qed.

Lemma select_messages_all l n : forall r,
  (0 < r)%Z -> (cost_of (Tokens n) l < r)%Z -> select_messages l r = Ok l.
Proof.
  induction l as [|m l IH]; intros r Hr Hc; [done|]. cbn [select_messages cost_of foldr] in *.
  fold (cost_of (Tokens n) l) in Hc. cbn [item_cost] in Hc.
  pose proof (item_cost_nonneg (Tokens n) m) as Hm. cbn [item_cost] in Hm.
  assert (0 <= cost_of (Tokens n) l)%Z as Hp.
  { clear. induction l as [|t l IH]; [done|]. cbn [cost_of foldr].
    fold (cost_of (Tokens n) l). pose proof (item_cost_nonneg (Tokens n) t). lia. }
  rewrite (proj2 (Z.eqb_neq _ _)), (proj2 (Z.leb_le _ _)) by lia.
  by rewrite IH by lia.
Qed.

Section compacted.
Context (from_xml_str : str -> option (str * str)).
#[local] Notation utext := (user_text from_xml_str).
#[local] Notation collect := (collect_user_messages from_xml_str).

(** A text that is not an injected context fragment, and one of the user's own. *)
Definition plain (text : str) : Prop :=
  is_contextual_user_message_content from_xml_str [InputText text] = false.
Definition own_text (text : str) : Prop := plain text /\ is_summary_message text = false.

Lemma plain_fragment text :
  plain text ->
  parse_hook_prompt_fragment from_xml_str text = None /\ is_standard_contextual_user_text text = false.
Proof.
  unfold plain. cbn [is_contextual_user_message_content existsb is_contextual_user_fragment].
  destruct (parse_hook_prompt_fragment _ _); [done|].
  by destruct (is_standard_contextual_user_text text).
Qed.

Lemma user_text_plain text : plain text -> utext (user_item text) = Some text.
Proof.
  intros Hp. pose proof (plain_fragment text Hp) as [Hh Hs].
  unfold user_text, user_item, parse_turn_item. cbn [str_eqb].
  replace (str_eqb (lit "user") (lit "user")) with true by (by vm_compute).
  unfold parse_visible_hook_prompt_message. cbn [hook_fragments]. rewrite Hh, Hs.
  unfold parse_user_message. rewrite Hp. cbn [user_inputs head is_input_image].
  rewrite !andb_false_r. cbn. by rewrite app_nil_r.
Qed.

Lemma collect_own l : Forall own_text l -> collect (user_item <$> l) = l.
Proof.
  induction 1 as [|m l [Hp Hs] Hl IH]; [done|]. unfold collect_user_messages in *.
  cbn [fmap list_fmap omap list_omap]. rewrite user_text_plain by done. cbn.
  rewrite Hs. by f_equal.
Qed.

(** The summary is never taken for injected context. *)
Lemma trim_solid_head c s : is_whitespace c = false -> exists s', trim (c :: s) = c :: s'.
Proof.
  intros Hc. unfold trim. destruct (trim_end_prefix (c :: s)) as (w & E & Hw).
  destruct (trim_end (c :: s)) as [|d t]; simpl in E.
  - subst w. apply Forall_cons in Hw as [Hw _]. congruence.
  - injection E as <- _. exists t. by apply trim_start_id.
Qed.

Lemma strip_prefix_other c p s : head p <> Some c -> p <> [] -> strip_prefix p (c :: s) = None.
Proof. destruct p as [|d p]; [done|]. intros Hd _. apply strip_prefix_None_head. by intros ->. Qed.

Lemma marked_other c s start_marker end_marker :
  is_whitespace c = false ->
  head (to_ascii_lowercase start_marker) <> head (to_ascii_lowercase [c]) ->
  matches_marked_text start_marker end_marker (c :: s) = false.
Proof.
  intros Hc Hne. unfold matches_marked_text. destruct start_marker as [|d start]; [done|].
  destruct (_ || _); [done|]. rewrite trim_start_id by done. unfold get_to.
  destruct (byte_split (c :: s) (zlen (d :: start))) as [[a b]|] eqn:E; [|done].
  cbn [fmap option_fmap option_map fst is_some_and].
  assert (exists a', a = c :: a') as [a' ->].
  { pose proof (zlen_utf8_pos d). pose proof (zlen_nonneg start). rewrite zlen_cons in E.
    apply byte_split_sound in E as [E1 E2]. destruct a as [|x a]; [rewrite zlen_nil in E2; lia|].
    simpl in E1. injection E1 as <- _. by eexists. }
  unfold eq_ignore_ascii_case. replace (str_eqb _ _) with false; [done|].
  symmetry. apply str_eqb_ne. intros Eq. apply Hne. by rewrite <- Eq.
Qed.

Lemma summary_standard suffix :
  is_standard_contextual_user_text (SUMMARY_PREFIX ++ [NL] ++ suffix) = false.
Proof.
  assert (exists s, SUMMARY_PREFIX ++ [NL] ++ suffix = 65%N :: s) as [s ->]
    by (eexists; change SUMMARY_PREFIX with (65%N :: tail SUMMARY_PREFIX); reflexivity).
  destruct (trim_solid_head 65%N s) as [s' Ht]; [done|].
  unfold is_standard_contextual_user_text, marked_matches. cbn [type_markers].
  rewrite !marked_other by done.
  unfold additional_matches, internal_matches, matches_legacy_goal_context, legacy_exec_limit_matches,
    legacy_apply_patch_matches, legacy_model_mismatch_matches, starts_with.
  rewrite Ht, !strip_prefix_other by done. done.
Qed.

Lemma summary_plain suffix :
  parse_hook_prompt_fragment from_xml_str (SUMMARY_PREFIX ++ [NL] ++ suffix) = None ->
  plain (SUMMARY_PREFIX ++ [NL] ++ suffix).
Proof.
  intros Hh. unfold plain. cbn [is_contextual_user_message_content existsb is_contextual_user_fragment].
  by rewrite Hh, summary_standard.
Qed.

Lemma is_summary_prefix suffix : is_summary_message (SUMMARY_PREFIX ++ [NL] ++ suffix) = true.
Proof. apply starts_with_true. exists suffix. by rewrite <- app_assoc. Qed.

(** A summary is not collected, whatever it is taken for. *)
Lemma collect_summary suffix : collect [user_item (SUMMARY_PREFIX ++ [NL] ++ suffix)] = [].
Proof.
  unfold collect_user_messages. cbn [omap list_omap].
  destruct (parse_hook_prompt_fragment from_xml_str (SUMMARY_PREFIX ++ [NL] ++ suffix)) eqn:Hh.
  - unfold user_text, user_item, parse_turn_item.
    replace (str_eqb (lit "user") (lit "user")) with true by (by vm_compute).
    unfold parse_visible_hook_prompt_message. cbn [hook_fragments]. by rewrite Hh.
  - rewrite user_text_plain by (by apply summary_plain). cbn [mbind option_bind].
    by rewrite is_summary_prefix.
Qed.

(** ** Where the context goes *)

Definition is_user (item : ResponseItem) : bool :=
  match utext item with Some _ => true | None => false end.
Definition is_real_user (item : ResponseItem) : bool :=
  match utext item with Some message => negb (is_summary_message message) | None => false end.

Lemma scan_back_spec l : forall acc,
  (scan_back from_xml_str (reverse (imap pair l)) acc).2 = rposition is_real_user l /\
  (rposition is_real_user l = None ->
   (scan_back from_xml_str (reverse (imap pair l)) acc).1 =
     match acc with Some j => Some j | None => rposition is_user l end).
Proof.
  induction l as [|x l IH] using rev_ind; intros acc.
  { split; [done|]. by destruct acc. }
  rewrite imap_app, reverse_app, !rposition_snoc. cbn [imap reverse rev_append app scan_back].
  rewrite Nat.add_0_r. unfold is_real_user at 1 3, is_user at 1. cbn [reverse rev_append app scan_back].
  destruct (utext x) as [m|] eqn:E.
  - destruct (is_summary_message m); cbn [negb].
    + destruct (IH (match acc with Some j => Some j | None => Some (length l) end)) as [-> H2].
      split; [done|]. intros Hn. rewrite (H2 Hn). by destruct acc.
    + done.
  - apply IH.
Qed.

(** [after] starts at the last item of the history that satisfies [p]. *)
Definition starts_at_last (p : ResponseItem -> bool) (after : list ResponseItem) : Prop :=
  exists x rest, after = x :: rest /\ p x = true /\ Forall (fun y => p y = false) rest.
Definition none_by (p : ResponseItem -> bool) (l : list ResponseItem) : Prop :=
  Forall (fun y => p y = false) l.

Lemma rposition_cut p l i ctx :
  rposition p l = Some i ->
  exists before after, l = before ++ after /\ take i l ++ ctx ++ drop i l = before ++ ctx ++ after /\
    starts_at_last p after.
Proof.
  intros E. pose proof (rposition_spec p l) as H. rewrite E in H.
  destruct H as (l1 & x & l2 & -> & <- & Hx & Hl). exists l1, (x :: l2).
  rewrite take_app_length, drop_app_length. split_and!; [done|done|]. by exists x, l2.
Qed.

Lemma rposition_none p l : rposition p l = None -> none_by p l.
Proof. intros E. pose proof (rposition_spec p l) as H. by rewrite E in H. Qed.

Lemma placement_spec l ctx :
  exists before after, l = before ++ after /\
    insert_initial_context_before_last_real_user_or_summary from_xml_str l ctx = before ++ ctx ++ after /\
    (starts_at_last is_real_user after \/
     (none_by is_real_user l /\ starts_at_last is_user after) \/
     (none_by is_user l /\ starts_at_last is_compaction after) \/
     (none_by is_user l /\ none_by is_compaction l /\ after = [])).
Proof.
  unfold insert_initial_context_before_last_real_user_or_summary.
  destruct (scan_back_spec l None) as [H1 H2].
  destruct (scan_back from_xml_str _ None) as [lus lru]. cbn [fst snd] in H1, H2. subst lru.
  destruct (rposition is_real_user l) as [i|] eqn:Er.
  { destruct (rposition_cut _ _ _ ctx Er) as (b & a & ? & ? & ?). exists b, a. split_and!; [done|done|auto]. }
  rewrite H2 by done. pose proof (rposition_none _ _ Er) as Hr.
  destruct (rposition is_user l) as [i|] eqn:Eu.
  { destruct (rposition_cut _ _ _ ctx Eu) as (b & a & ? & ? & ?). exists b, a. split_and!; [done|done|auto]. }
  pose proof (rposition_none _ _ Eu) as Hu.
  destruct (rposition is_compaction l) as [i|] eqn:Ec.
  { destruct (rposition_cut _ _ _ ctx Ec) as (b & a & ? & ? & ?). exists b, a. split_and!; [done|done|auto]. }
  pose proof (rposition_none _ _ Ec) as Hc. exists l, []. rewrite !app_nil_r. split_and!; [done..|].
  auto 10.
Qed.

(** Where the context of a new window goes.  It is inserted right before
    the last message of the user; when only summaries are left, right before the
    last of them; with no user message at all, right before the last compaction
    item; and at the end otherwise.  Nothing else moves. *)
Theorem initial_context_placement l ctx :
  exists before after, l = before ++ after /\
    insert_initial_context_before_last_real_user_or_summary from_xml_str l ctx = before ++ ctx ++ after /\
    (starts_at_last is_real_user after \/
     (none_by is_real_user l /\ starts_at_last is_user after) \/
     (none_by is_user l /\ starts_at_last is_compaction after) \/
     (none_by is_user l /\ none_by is_compaction l /\ after = [])).
Proof. apply placement_spec. Qed.
End compacted.

(** ** The loop *)

Lemma lift_strip text : exists stripped, lift (strip_citations text) = Ok stripped.
Proof.
  unfold strip_citations. cbn [push_str citation_parser citation_new citation_inner].
  destruct (@inline_push_returns unit (mk_spec tt CITATION_OPEN CITATION_CLOSE) ltac:(done) ltac:(done)
    (mk_inline [mk_spec tt CITATION_OPEN CITATION_CLOSE] [] None) text) as (p & out & E & _).
  { by apply inline_start_inv. }
  rewrite E. cbn. by eexists.
Qed.

Lemma first_message_returns l : exists message, first_message l = Ok message.
Proof.
  induction l as [|item l [m IH]]; cbn [first_message]; [by eexists|].
  assert (exists o, last_assistant_message_from_item item = Ok o) as [o ->].
  { unfold last_assistant_message_from_item. destruct item; try by eexists.
    destruct (str_eqb _ _); [|by eexists]. destruct (concat _) as [|c s] eqn:E; [by eexists|].
    destruct (lift_strip (c :: s)) as [st ->]. by eexists. }
  cbn [res_bind]. destruct o; eauto.
Qed.

Lemma remove_matching_length p l : length (remove_first_matching p l) <= length l.
Proof. induction l as [|i l IH]; [done|]. simpl. destruct (p i); simpl; lia. Qed.

Lemma remove_corresponding_length l i : length (remove_corresponding_for l i) <= length l.
Proof.
  destruct i as [| | |? []| |? []| | | |[]| | | | | |]; simpl; try done;
    repeat case_match; try done; apply remove_matching_length.
Qed.

Section run.
Context (from_xml_str : str -> option (str * str)).
Context {TurnContextItem : Type}.
Context (json_file_path : str -> option str) (compact_var : option str).
Context (turn : @CompactTurn TurnContextItem).
#[local] Notation manager := (@ContextManager TurnContextItem).
#[local] Notation utext := (user_text from_xml_str).

(** The texts are Rust strings. *)
Definition text_fits (item : ResponseItem) : Prop :=
  forall message, utext item = Some message -> (zlen message <= USIZE_MAX)%Z.

Definition event_fits (event : CodexErr + ResponseEvent) : Prop :=
  match event with
  | inr (OutputItemDone item) => item_fits item /\ text_fits item
  | _ => True
  end.

(** What a stream holds up to its end: the items of its events before the first
    error or completion, and whether it is completed. *)
Fixpoint received (stream : list (CodexErr + ResponseEvent)) : list ResponseItem :=
  match stream with
  | inr (OutputItemDone item) :: rest => item :: received rest
  | inr OtherEvent :: rest => received rest
  | inr (Completed _) :: _ | inl _ :: _ | [] => []
  end.

Fixpoint completes (stream : list (CodexErr + ResponseEvent)) : bool :=
  match stream with
  | inr (Completed _) :: _ => true
  | inr (OutputItemDone _) :: rest | inr OtherEvent :: rest => completes rest
  | inl _ :: _ | [] => false
  end.

(** The session [after] is [before] with the items of [streams] recorded at its
    end, those of the API and tool outputs cut to the policy, and nothing else. *)
Definition recorded_from (streams : list (list (CodexErr + ResponseEvent))) (before after : manager) : Prop :=
  (exists recorded, items after = items before ++ recorded /\
     Forall2 (recorded_as (truncation_policy turn))
       (base.filter (fun i => is_api_message i = true) (mjoin (received <$> streams))) recorded) /\
  history_version after = history_version before /\
  reference_context_item after = reference_context_item before.

(** The streams that were read all broke off. *)
Definition only_recorded (streams : list (list (CodexErr + ResponseEvent))) (before after : manager) : Prop :=
  exists failed unread, streams = failed ++ unread /\ Forall (fun s => completes s = false) failed /\
    recorded_from failed before after.

(** The streams that were read broke off, but for the last, which was completed. *)
Definition fully_recorded (streams : list (list (CodexErr + ResponseEvent))) (before after : manager) : Prop :=
  exists failed stream unread, streams = failed ++ stream :: unread /\
    Forall (fun s => completes s = false) failed /\ completes stream = true /\
    recorded_from (failed ++ [stream]) before after.

Lemma recorded_from_nothing m m' :
  items m' = items m -> history_version m' = history_version m ->
  reference_context_item m' = reference_context_item m -> recorded_from [] m m'.
Proof. intros E ? ?. split; [|done]. exists []. rewrite app_nil_r, E. split; [done|constructor]. Qed.

Lemma recorded_from_app l1 l2 m1 m2 m3 :
  recorded_from l1 m1 m2 -> recorded_from l2 m2 m3 -> recorded_from (l1 ++ l2) m1 m3.
Proof.
  intros [(l & E & Hl) [Hv Hr]] [(l' & E' & Hl') [Hv' Hr']].
  split; [|split; congruence]. exists (l ++ l'). rewrite E', E, app_assoc, fmap_app, join_app, filter_app.
  split; [done|]. by apply Forall2_app.
Qed.

Lemma only_recorded_nothing streams m : only_recorded streams m m.
Proof. exists [], streams. split_and!; [done|constructor|by apply recorded_from_nothing]. Qed.

(** One more stream that breaks off before the others. *)
Lemma after_failed (r : CodexErr + unit) stream streams m1 m2 m3 :
  completes stream = false -> recorded_from [stream] m1 m2 ->
  match r with inl _ => only_recorded streams m2 m3 | inr _ => fully_recorded streams m2 m3 end ->
  match r with inl _ => only_recorded (stream :: streams) m1 m3 | inr _ => fully_recorded (stream :: streams) m1 m3 end.
Proof.
  intros Hc H1. destruct r.
  - intros (failed & unread & -> & Hf & H). exists (stream :: failed), unread.
    split_and!; [done|by constructor|]. exact (recorded_from_app [stream] failed _ _ _ H1 H).
  - intros (failed & st & unread & -> & Hf & Hst & H). exists (stream :: failed), st, unread.
    split_and!; [done|by constructor|done|]. exact (recorded_from_app [stream] (failed ++ [st]) _ _ _ H1 H).
Qed.

Lemma recorded_text policy i i' : recorded_as policy i i' -> text_fits i -> text_fits i'.
Proof.
  destruct i; simpl; try (by intros ->); intros (p & -> & _) _ m Hm; discriminate.
Qed.

Hypothesis policy_ok : (0 <= policy_budget (truncation_policy turn))%Z.

Lemma record_one (m : manager) item :
  item_fits item ->
  exists m', record_items m [item] (truncation_policy turn) = Ok m' /\
    recorded_from [[inr (OutputItemDone item)]] m m'.
Proof.
  intros Hf. cbn [record_items]. unfold recorded_from.
  change (mjoin (received <$> [[inr (OutputItemDone item)]])) with [item]. rewrite filter_cons, filter_nil.
  destruct (is_api_message item); cbn [negb].
  - destruct (process_item_spec item _ policy_ok Hf) as (i' & -> & Hi). cbn [res_bind].
    eexists. split; [done|]. split; [|done]. exists [i']. rewrite decide_True by done. by repeat constructor.
  - eexists. split; [done|]. split; [|done]. exists []. rewrite decide_False by done. rewrite app_nil_r. by split.
Qed.

Lemma drain_returns stream : forall sess : manager,
  Forall event_fits stream ->
  exists sess' r, drain_to_completed turn sess stream = Ok (sess', r) /\ recorded_from [stream] sess sess' /\
    completes stream = match r with inl _ => false | inr _ => true end.
Proof.
  induction stream as [|event stream IH]; intros sess Hs; cbn [drain_to_completed].
  { eexists _, _. split; [done|]. split; [by apply recorded_from_nothing|done]. }
  apply Forall_cons in Hs as [He Hs]. destruct event as [e|[item|usage|]].
  - eexists _, _. split; [done|]. split; [by apply recorded_from_nothing|done].
  - destruct He as [Hf _]. destruct (record_one sess item Hf) as (m & -> & Hm). cbn [res_bind].
    destruct (IH m Hs) as (sess' & r & E & Hr & Hc). exists sess', r. split; [done|]. split; [|done].
    pose proof (recorded_from_app _ _ _ _ _ Hm Hr) as H. exact H.
  - eexists _, _. split; [done|]. split; [by apply recorded_from_nothing; destruct usage|done].
  - by apply IH.
Qed.

#[local] Notation max := (stream_max_retries turn).
#[local] Notation prompt := (for_prompt json_file_path false compact_var).
#[local] Notation loop := (compact_loop json_file_path false compact_var turn).

Lemma prompt_returns (m : manager) mods :
  exists out, prompt m mods = Ok out /\ (items m = [] -> out = []).
Proof.
  unfold for_prompt. rewrite normalize_release. cbn [res_bind]. eexists. split; [done|].
  intros ->. destruct (superseded_diagnostic_compaction_enabled compact_var); by vm_compute.
Qed.

Lemma remove_first_shorter (m : manager) :
  items m <> [] -> length (items (remove_first_item m)) < length (items m).
Proof.
  unfold remove_first_item. destruct (items m) as [|i l]; [done|]. intros _. simpl.
  pose proof (remove_corresponding_length l i). lia.
Qed.

(** The streams that are enough: each retry uses one up, and each item that is
    dropped from the prompt makes all the retries available again. *)
Definition streams_needed (history : manager) (retries : nat) : nat :=
  S max * length (items history) + (S max - retries).

Lemma loop_returns streams : forall (sess history : manager) retries,
  Forall (Forall event_fits) streams -> retries <= max ->
  streams_needed history retries <= length streams ->
  exists sess' r, loop streams sess history retries = Ok (sess', r) /\
    match r with inl _ => only_recorded streams sess sess' | inr _ => fully_recorded streams sess sess' end.
Proof.
  unfold streams_needed.
  induction streams as [|stream streams IH]; intros sess history retries Hs Hr Hn; [simpl in Hn; lia|].
  apply Forall_cons in Hs as [Hst Hs]. cbn [compact_loop length] in *.
  destruct (prompt_returns history (input_modalities turn)) as (inp & -> & Hinp). cbn [res_bind].
  destruct (drain_returns stream sess Hst) as (s1 & r1 & -> & H1 & Hc). cbn [res_bind].
  destruct r1 as [e|].
  2: { eexists _, _. split; [done|]. exists [], stream, streams. split_and!; [done|constructor|done|done]. }
  assert (forall history' retries', retries' <= max ->
    S max * length (items history') + (S max - retries') <= length streams ->
    exists sess' r, loop streams s1 history' retries' = Ok (sess', r) /\
      match r with inl _ => only_recorded (stream :: streams) sess sess'
                 | inr _ => fully_recorded (stream :: streams) sess sess' end) as Hgo.
  { intros h' r' Hle Hle'. destruct (IH s1 h' r' Hs Hle Hle') as (s2 & r2 & E & H2).
    exists s2, r2. split; [done|]. by eapply after_failed. }
  assert (only_recorded (stream :: streams) sess s1) as Hstop.
  { apply (after_failed (inl Interrupted) _ _ _ s1 _ Hc H1), only_recorded_nothing. }
  destruct e; [by eauto|..].
  2: { destruct (Nat.ltb_spec 1 (length inp)) as [Hlen|_].
    - apply Hgo; [lia|]. assert (items history <> []) as Hne.
      { intros E. rewrite (Hinp E) in Hlen. simpl in Hlen. lia. }
      apply remove_first_shorter in Hne. nia.
    - eexists _, _. split; [done|]. unfold set_total_tokens_full. by destruct (model_context_window turn). }
  all: destruct (Nat.ltb_spec retries max); [|by eauto]; apply Hgo; lia.
Qed.

Lemma received_fits stream : Forall event_fits stream -> Forall text_fits (received stream).
Proof. induction 1 as [|[e|[item|u|]] stream He _ IH]; cbn; try done; try constructor; [|done]. apply He. Qed.

(** The texts of the session still fit after recording. *)
Lemma recorded_fits streams m m' :
  Forall (Forall event_fits) streams -> recorded_from streams m m' ->
  Forall text_fits (items m) -> Forall text_fits (items m').
Proof.
  intros Hs [(l & -> & Hl) _] Hm. apply Forall_app. split; [done|].
  assert (Forall text_fits (base.filter (fun i => is_api_message i = true) (mjoin (received <$> streams)))) as Hall.
  { apply Forall_forall. intros i [_ Hi]%list_elem_of_filter. revert i Hi. apply Forall_forall.
    clear Hl. induction Hs; cbn; [constructor|]. apply Forall_app. split; [by apply received_fits|done]. }
  revert Hall. clear -Hl. induction Hl; intros Hall; [constructor|]. apply Forall_cons in Hall as [? ?].
  constructor; [by eapply recorded_text|auto].
Qed.
End run.

(** ** A compaction as a whole *)

Section whole.
Context (from_xml_str : str -> option (str * str)).
Context {TurnContextItem : Type}.
Context (json_len : ResponseItem -> option Z) (json_file_path : str -> option str).
Context (decode_image : str -> option (Z * Z)) (compact_var : option str).
Context (turn : @CompactTurn TurnContextItem).
#[local] Notation manager := (@ContextManager TurnContextItem).
#[local] Notation collect := (collect_user_messages from_xml_str).
#[local] Notation insert_context := (insert_initial_context_before_last_real_user_or_summary from_xml_str).
#[local] Notation estimate := (estimate_token_count_with_base_instructions json_len decode_image).

(** The session [after] is the compaction of [before], once the items that the
    streams sent up to the first completed one were [recorded]: the newest
    messages of the user within the budget and the summary, with the context of
    the turn where it is asked for. *)
Definition compacted_from (streams : list (list (CodexErr + ResponseEvent)))
    (injection : InitialContextInjection) (before after : manager) : Prop :=
  exists recorded kept omitted summary,
    fully_recorded turn streams before recorded /\
    texts_cut (Tokens COMPACT_USER_MESSAGE_MAX_TOKENS) COMPACT_USER_MESSAGE_MAX_TOKENS
      (reverse (collect (items recorded))) kept omitted /\
    get_last_assistant_message_from_turn (items recorded) = Ok summary /\
    items after =
      (let l := (user_item <$> reverse kept) ++ [user_item (SUMMARY_PREFIX ++ [NL] ++ default [] summary)] in
       match injection with
       | BeforeLastUserMessage => insert_context l (initial_context turn)
       | DoNotInject => l
       end) /\
    history_version after = u64_sat_succ (history_version before) /\
    reference_context_item after =
      match injection with BeforeLastUserMessage => Some (turn_context_item turn) | DoNotInject => None end /\
    exists estimated info, estimate after (base_instructions turn) = Some estimated /\
      token_info after = Some info /\ total_tokens (last_token_usage info) = Z.max 0 estimated.

Lemma collect_fits l :
  Forall (text_fits from_xml_str) l -> Forall (fun m => zlen m <= USIZE_MAX)%Z (collect l).
Proof.
  intros Hl. apply Forall_forall. intros m. unfold collect_user_messages.
  rewrite list_elem_of_omap. intros (item & Hi & E).
  rewrite Forall_forall in Hl. specialize (Hl item Hi).
  destruct (user_text from_xml_str item) as [m'|] eqn:Em; [|done]. cbn in E.
  destruct (is_summary_message m'); [done|]. injection E as <-. by apply Hl.
Qed.

Lemma recompute_spec (m : manager) :
  items (recompute_token_usage json_len decode_image turn m) = items m /\
  history_version (recompute_token_usage json_len decode_image turn m) = history_version m /\
  reference_context_item (recompute_token_usage json_len decode_image turn m) = reference_context_item m /\
  exists estimated info, estimate m (base_instructions turn) = Some estimated /\
    token_info (recompute_token_usage json_len decode_image turn m) = Some info /\
    total_tokens (last_token_usage info) = Z.max 0 estimated.
Proof. split_and!; [done..|]. by eexists _, _. Qed.

Hypothesis policy_ok : (0 <= policy_budget (truncation_policy turn))%Z.

Lemma impl_returns input injection streams (sess : manager) :
  Forall (text_fits from_xml_str) (items sess) ->
  Forall (Forall (event_fits from_xml_str)) streams ->
  S (stream_max_retries turn) * (length (items sess) + 2) <= length streams ->
  exists sess' r,
    run_compact_task_inner_impl from_xml_str json_len json_file_path decode_image false compact_var
      turn input injection streams sess = Ok (sess', r) /\
    match r with
    | inl _ => only_recorded turn streams sess sess'
    | inr _ => compacted_from streams injection sess sess'
    end.
Proof.
  intros Hf Hs Hn. unfold run_compact_task_inner_impl. cbn [record_items].
  replace (negb (is_api_message (user_item input))) with false by (by vm_compute). unfold user_item at 1. cbn [process_item res_bind].
  edestruct (loop_returns from_xml_str json_file_path compact_var turn policy_ok streams sess)
    as (s1 & r1 & E & H1); [done|apply Nat.le_0_l| |rewrite E].
  { unfold streams_needed. cbn [set_items items]. rewrite length_app. simpl length. nia. }
  cbn [res_bind]. destruct r1 as [e|u]; [by eexists _, _|].
  destruct (first_message_returns (reverse (items s1))) as [summary Esum].
  unfold get_last_assistant_message_from_turn at 1. rewrite Esum. cbn [res_bind].
  unfold build_compacted_history, build_compacted_history_with_limit.
  destruct (select_messages_returns (reverse (collect (items s1))) COMPACT_USER_MESSAGE_MAX_TOKENS
    COMPACT_USER_MESSAGE_MAX_TOKENS) as (kept & omitted & Ek & Hk); [done| |].
  { rewrite Forall_reverse. apply collect_fits. destruct H1 as (failed & st & unread & -> & _ & _ & H1).
    rewrite (app_assoc failed [st] unread : failed ++ st :: unread = _) in Hs. apply Forall_app in Hs as [Hs _].
    by eapply recorded_fits. }
  change (0 <? COMPACT_USER_MESSAGE_MAX_TOKENS)%Z with true. cbv iota. rewrite Ek. cbn [res_bind].
  eexists _, _. split; [done|]. cbv iota. exists s1, kept, omitted, summary.
  match goal with |- context [recompute_token_usage _ _ _ ?m] =>
    destruct (recompute_spec m) as (-> & -> & -> & Hest) end.
  split_and!; try done.
  destruct H1 as (? & ? & ? & _ & _ & _ & _ & Hv & _). cbn [history_version replace_compacted_history replace
    set_reference_context_item]. by rewrite Hv.
Qed.

(** C31: in a release build a compaction always settles, and never half way.
    With [max_retries + 1] streams for every item of the prompt it returns,
    whatever the streams hold.  What it records in the session is the items that
    the streams it read sent before they ended, and nothing else: neither the
    compaction prompt nor the trimmed copy of the history.  When it is reported as
    completed, all these streams broke off but the last, which was completed, and
    the history is the newest messages of the user that fit 20000 tokens, at most
    the oldest of them cut, in order and then the summary, with the initial context
    of the turn inserted before the last of these messages if that is asked for;
    otherwise an error comes back, no stream was completed, and the session has
    only these items more.  A hook after the compaction can stop the turn, but not
    undo the compaction. *)
Theorem compaction_settles pre post input injection streams (sess : manager) :
  Forall (text_fits from_xml_str) (items sess) ->
  Forall (Forall (event_fits from_xml_str)) streams ->
  S (stream_max_retries turn) * (length (items sess) + 2) <= length streams ->
  exists sess' r status,
    run_compact_task_inner from_xml_str json_len json_file_path decode_image false compact_var
      turn pre post input injection streams sess = Ok (sess', r, status) /\
    match status with
    | CompactionCompleted =>
      compacted_from streams injection sess sess' /\ r = if post then inl TurnAborted else inr tt
    | _ => only_recorded turn streams sess sess' /\ exists e, r = inl e
    end.
Proof.
  intros Hf Hs Hn. unfold run_compact_task_inner. destruct pre.
  { eexists _, _, _. split; [done|]. split; [apply only_recorded_nothing|by eexists]. }
  destruct (impl_returns input injection streams sess Hf Hs Hn) as (sess' & r & -> & Hr).
  cbn [res_bind]. destruct r as [e|s].
  - eexists _, _, _. split; [done|]. by destruct e; (split; [done|by eexists]).
  - eexists _, _, _. split; [done|]. done.
Qed.

Lemma cost_of_perm policy l l' : l ≡ₚ l' -> cost_of policy l = cost_of policy l'.
Proof. induction 1; cbn [cost_of foldr] in *; unfold cost_of in *; lia. Qed.

(** Messages of the user survive compactions.  Texts of the user's own that
    fit the budget are all in the compacted history, and collecting the messages
    of that history, with or without the context of the turn, gives them back in
    order, so that the next compaction starts from the same messages; the summary
    is not taken for one of them, and stays the last item. *)
Theorem user_messages_survive msgs suffix ctx :
  Forall (own_text from_xml_str) msgs ->
  (cost_of (Tokens COMPACT_USER_MESSAGE_MAX_TOKENS) msgs < COMPACT_USER_MESSAGE_MAX_TOKENS)%Z ->
  collect ctx = [] ->
  let summary := SUMMARY_PREFIX ++ [NL] ++ suffix in
  exists h, build_compacted_history [] msgs summary = Ok h /\
    collect h = msgs /\ collect (insert_context h ctx) = msgs /\
    last h = Some (user_item summary) /\
    (parse_hook_prompt_fragment from_xml_str summary = None ->
     last (insert_context h ctx) = Some (user_item summary)).
Proof.
  intros Hm Hc Hctx summary. unfold build_compacted_history, build_compacted_history_with_limit.
  change (0 <? COMPACT_USER_MESSAGE_MAX_TOKENS)%Z with true. cbv iota.
  rewrite (select_messages_all _ COMPACT_USER_MESSAGE_MAX_TOKENS)
    by (done || by rewrite (cost_of_perm _ _ _ (reverse_Permutation msgs))).
  cbn [res_bind]. rewrite reverse_involutive. eexists. split; [done|].
  change (match summary with [] => lit "(no summary available)" | _ => summary end) with summary.
  cbn [app]. set (h := (user_item <$> msgs) ++ [user_item summary]).
  assert (collect h = msgs) as Hh.
  { unfold h, collect_user_messages. rewrite omap_app. fold (collect (user_item <$> msgs)).
    fold (collect [user_item summary]). unfold summary. rewrite collect_own, collect_summary by done.
    by rewrite app_nil_r. }
  assert (last h = Some (user_item summary)) as Hlast by apply last_snoc.
  destruct (placement_spec from_xml_str h ctx) as (b & a & Eh & -> & Hcase).
  split_and!; [done| |done|].
  - unfold collect_user_messages. rewrite !omap_app. fold (collect ctx). rewrite Hctx.
    cbn [app]. rewrite <- omap_app, <- Eh. exact Hh.
  - intros Hx. rewrite Eh in Hlast. destruct a as [|x a].
    + exfalso. destruct Hcase as [(?&?&?&_)|[[_ (?&?&?&_)]|[[_ (?&?&?&_)]|[Hn _]]]]; try done.
      unfold none_by, h in Hn. rewrite Forall_app, Forall_singleton in Hn. destruct Hn as [_ Hn].
      unfold is_user in Hn. by rewrite user_text_plain in Hn by (by apply summary_plain).
    + rewrite !last_app in *. simpl in *. destruct a as [|y a]; [done|].
      by rewrite !last_cons in *; destruct (last a).
Qed.
End whole.

(** ** A run *)

Definition no_xml (_ : str) : option (str * str) := None.
Definition fixed_length (_ : ResponseItem) : option Z := Some 40%Z.
Definition no_path (_ : str) : option str := None.
Definition no_image (_ : str) : option (Z * Z) := None.

Definition demo_turn : @CompactTurn unit :=
  mk_compact_turn (Bytes 100) [] (Some 1000%Z) 1 (lit "be brief") [user "<environment_context>e</environment_context>"] tt.

Definition demo_session : @ContextManager unit :=
  mk_context [user "first"; user "second"] 3 None (Some tt).

Definition reply (s : string) : ResponseItem := Message None (lit "assistant") [OutputText (lit s)] None.

(** The prompt does not fit, then a stream breaks off, then a summary comes. *)
Definition demo_streams : list (list (CodexErr + ResponseEvent)) :=
  [[inl ContextWindowExceeded]; [inr (OutputItemDone (reply "half"))];
   [inr (OutputItemDone (reply "done: x")); inr OtherEvent; inr (Completed None)]]
  ++ replicate 5 [].

#[local] Notation demo_run post :=
  (run_compact_task_inner no_xml fixed_length no_path no_image false None demo_turn false post
     (lit "summarise") BeforeLastUserMessage demo_streams demo_session).

Definition demo_history : list ResponseItem :=
  [user "first"; user "<environment_context>e</environment_context>"; user "second";
   user_item (SUMMARY_PREFIX ++ [NL] ++ lit "done: x")].

Example demo_run_result :
  (exists m, demo_run false = Ok (m, inr tt, CompactionCompleted) /\ items m = demo_history /\
     history_version m = 4%Z) /\
  (exists m, demo_run true = Ok (m, inl TurnAborted, CompactionCompleted) /\ items m = demo_history).
Proof.
  split; (eexists; split; [vm_compute; reflexivity|vm_compute; done]).
Qed.

Lemma plain_text_fits l :
  forallb (fun i => match user_text no_xml i with Some m => (zlen m <=? USIZE_MAX)%Z | None => true end) l = true ->
  Forall (text_fits no_xml) l.
Proof.
  intros H. apply Forall_forall. intros i Hi m Em. rewrite forallb_forall in H.
  specialize (H i (proj1 (list_elem_of_In _ _) Hi)). rewrite Em in H. by apply Z.leb_le.
Qed.

Lemma compaction_settles_witness :
  exists m r status, demo_run false = Ok (m, r, status) /\
    match status with
    | CompactionCompleted => compacted_from no_xml fixed_length no_image demo_turn demo_streams BeforeLastUserMessage demo_session m
        /\ r = inr tt
    | _ => only_recorded demo_turn demo_streams demo_session m /\ exists e, r = inl e
    end.
Proof.
  assert (0 <= policy_budget (truncation_policy demo_turn))%Z as H1 by (vm_compute; discriminate).
  assert (Forall (text_fits no_xml) (items demo_session)) as H2
    by (apply plain_text_fits; vm_compute; reflexivity).
  assert (Forall (Forall (event_fits no_xml)) demo_streams) as H3.
  { repeat constructor; intros m Em; vm_compute in Em; discriminate. }
  assert (S (stream_max_retries demo_turn) * (length (items demo_session) + 2) <= length demo_streams) as H4
    by (vm_compute; lia).
  exact (compaction_settles no_xml fixed_length no_path no_image None demo_turn H1 false false
    (lit "summarise") BeforeLastUserMessage demo_streams demo_session H2 H3 H4).
Defined.

Lemma user_messages_survive_witness :
  exists h, build_compacted_history [] [lit "first"; lit "second"] (SUMMARY_PREFIX ++ [NL] ++ lit "done") = Ok h /\
    collect_user_messages no_xml h = [lit "first"; lit "second"] /\
    last (insert_initial_context_before_last_real_user_or_summary no_xml h
            [user "<environment_context>e</environment_context>"])
      = Some (user_item (SUMMARY_PREFIX ++ [NL] ++ lit "done")).
Proof.
  destruct (user_messages_survive no_xml [lit "first"; lit "second"] (lit "done")
    [user "<environment_context>e</environment_context>"]) as (h & E & Hc & _ & _ & Hl).
  - repeat constructor; vm_compute; done.
  - vm_compute. done.
  - vm_compute. done.
  - exists h. split_and!; [exact E|exact Hc|apply Hl; done].
Defined.
