(* ===== verification/HostPolicy.v ===== *)
(** * Hosts and domain patterns ([network-proxy/src/policy.rs])

    Addresses as the standard library reads and classifies them, the form hosts
    are compared in, and the patterns of the domain lists.  The [globset] matcher
    and the host parser of [url] are parameters. *)

From Stdlib Require Import ZifyBool ZifyN.
From S2P Require Export AbsPath.

Open Scope Z_scope.

(** ** Addresses ([std::net]) *)

Inductive IpAddr :=
| V4 (a b c d : Z)
| V6 (segments : list Z).

#[export] Instance IpAddr_eq_dec : EqDecision IpAddr.
Proof. solve_decision. Defined.

Definition PERCENT : char := 37%N.
Definition QUESTION : char := 63%N.

(** [char::to_digit] *)
Definition to_digit (radix : Z) (c : char) : option Z :=
  let c := Z.of_N c in
  let d := if (48 <=? c) && (c <=? 57) then c - 48
           else if (97 <=? c) && (c <=? 102) then c - 87
           else if (65 <=? c) && (c <=? 70) then c - 55 else 99 in
  if d <? radix then Some d else None.

Fixpoint read_digits (radix : Z) (max_digits : nat) (s : str) (result : Z) (digit_count : nat)
    : option (Z * nat * str) :=
  match s with
  | c :: s' =>
    match to_digit radix c with
    | Some digit =>
      if (max_digits <? S digit_count)%nat then None
      else read_digits radix max_digits s' (result * radix + digit) (S digit_count)
    | None => Some (result, digit_count, s)
    end
  | [] => Some (result, digit_count, s)
  end.

Definition read_number (radix : Z) (max_digits : nat) (allow_zero_prefix : bool) (max : Z) (s : str)
    : option (Z * str) :=
  '(result, digit_count, rest) ← read_digits radix max_digits s 0 0;
  if (digit_count =? 0)%nat then None
  else if negb allow_zero_prefix && starts_with (lit "0") s && (1 <? digit_count)%nat then None
  else if max <? result then None
  else Some (result, rest).

Definition read_separator {A} (sep : char) (index : nat) (inner : str -> option (A * str)) (s : str)
    : option (A * str) :=
  if (0 <? index)%nat then rest ← strip_prefix [sep] s; inner rest else inner s.

Definition read_octet (index : nat) (s : str) : option (Z * str) :=
  read_separator DOT index (read_number 10 3 false 255) s.

Definition read_ipv4_addr (s : str) : option ((Z * Z * Z * Z) * str) :=
  '(a, s) ← read_octet 0 s;
  '(b, s) ← read_octet 1 s;
  '(c, s) ← read_octet 2 s;
  '(d, s) ← read_octet 3 s;
  Some ((a, b, c, d), s).

(** Groups of an address, and whether the last two came as an IPv4 address;
    [slots] are left to fill. *)
Fixpoint read_groups (slots : nat) (groups : list Z) (s : str) : list Z * bool * str :=
  match slots with
  | O => (groups, false, s)
  | S slots' =>
    let i := length groups in
    let ipv4 := if (1 <=? slots')%nat then read_separator COLON i read_ipv4_addr s else None in
    match ipv4 with
    | Some ((a, b, c, d), rest) => (groups ++ [a * 256 + b; c * 256 + d], true, rest)
    | None =>
      match read_separator COLON i (read_number 16 4 true 65535) s with
      | Some (g, rest) => read_groups slots' (groups ++ [g]) rest
      | None => (groups, false, s)
      end
    end
  end.

Definition read_ipv6_addr (s : str) : option (list Z * str) :=
  let '(head, head_ipv4, s) := read_groups 8 [] s in
  let head_size := length head in
  if (head_size =? 8)%nat then Some (head, s)
  else if head_ipv4 then None
  else
    s ← strip_prefix [COLON; COLON] s;
    let '(tail, _, s) := read_groups (8 - (head_size + 1)) [] s in
    Some (head ++ replicate (8 - head_size - length tail) 0 ++ tail, s).

(** [str::parse::<IpAddr>] *)
Definition parse_ip (s : str) : option IpAddr :=
  match read_ipv4_addr s with
  | Some ((a, b, c, d), []) => Some (V4 a b c d)
  | Some _ => None
  | None =>
    match read_ipv6_addr s with
    | Some (segments, []) => Some (V6 segments)
    | _ => None
    end
  end.

Definition u32_from (a b c d : Z) : Z := ((a * 256 + b) * 256 + c) * 256 + d.

Definition u32_shl (a n : Z) : Z := Z.shiftl a n mod 2 ^ 32.

Definition ipv4_in_cidr (a b c d : Z) (base : Z * Z * Z * Z) (prefix : Z) : bool :=
  let '(ba, bb, bc, bd) := base in
  let ip := u32_from a b c d in
  let base := u32_from ba bb bc bd in
  let mask := if prefix =? 0 then 0 else u32_shl (2 ^ 32 - 1) (32 - prefix) in
  Z.land ip mask =? Z.land base mask.

(** The classifications of [Ipv4Addr]. *)
Definition v4_is_loopback (a b c d : Z) : bool := a =? 127.
Definition v4_is_private (a b c d : Z) : bool :=
  (a =? 10) || ((a =? 172) && (16 <=? b) && (b <=? 31)) || ((a =? 192) && (b =? 168)).
Definition v4_is_link_local (a b c d : Z) : bool := (a =? 169) && (b =? 254).
Definition v4_is_unspecified (a b c d : Z) : bool := (a =? 0) && (b =? 0) && (c =? 0) && (d =? 0).
Definition v4_is_multicast (a b c d : Z) : bool := (224 <=? a) && (a <=? 239).
Definition v4_is_broadcast (a b c d : Z) : bool :=
  (a =? 255) && (b =? 255) && (c =? 255) && (d =? 255).

Definition is_non_public_ipv4 (a b c d : Z) : bool :=
  v4_is_loopback a b c d
  || v4_is_private a b c d
  || v4_is_link_local a b c d
  || v4_is_unspecified a b c d
  || v4_is_multicast a b c d
  || v4_is_broadcast a b c d
  || ipv4_in_cidr a b c d (0, 0, 0, 0) 8
  || ipv4_in_cidr a b c d (100, 64, 0, 0) 10
  || ipv4_in_cidr a b c d (192, 0, 0, 0) 24
  || ipv4_in_cidr a b c d (192, 0, 2, 0) 24
  || ipv4_in_cidr a b c d (198, 18, 0, 0) 15
  || ipv4_in_cidr a b c d (198, 51, 100, 0) 24
  || ipv4_in_cidr a b c d (203, 0, 113, 0) 24
  || ipv4_in_cidr a b c d (240, 0, 0, 0) 4.

(** The classifications of [Ipv6Addr]. *)
Definition v6_is_loopback (segments : list Z) : bool := bool_decide (segments = [0; 0; 0; 0; 0; 0; 0; 1]).
Definition v6_is_unspecified (segments : list Z) : bool := bool_decide (segments = [0; 0; 0; 0; 0; 0; 0; 0]).
Definition v6_is_multicast (segments : list Z) : bool := Z.land (nth 0 segments 0) 65280 =? 65280.
Definition v6_is_unique_local (segments : list Z) : bool := Z.land (nth 0 segments 0) 65024 =? 64512.
Definition v6_is_unicast_link_local (segments : list Z) : bool :=
  Z.land (nth 0 segments 0) 65472 =? 65152.

(** [Ipv6Addr::to_ipv4]: mapped and compatible addresses *)
Definition to_ipv4 (segments : list Z) : option (Z * Z * Z * Z) :=
  match segments with
  | [s0; s1; s2; s3; s4; s5; ab; cd] =>
    if (s0 =? 0) && (s1 =? 0) && (s2 =? 0) && (s3 =? 0) && (s4 =? 0) && ((s5 =? 0) || (s5 =? 65535))
    then Some (ab / 256, ab mod 256, cd / 256, cd mod 256)
    else None
  | _ => None
  end.

Definition is_non_public_ipv6 (segments : list Z) : bool :=
  match to_ipv4 segments with
  | Some (a, b, c, d) => is_non_public_ipv4 a b c d || v6_is_loopback segments
  | None =>
    v6_is_loopback segments
    || v6_is_unspecified segments
    || v6_is_multicast segments
    || v6_is_unique_local segments
    || v6_is_unicast_link_local segments
  end.

Definition is_non_public_ip (ip : IpAddr) : bool :=
  match ip with
  | V4 a b c d => is_non_public_ipv4 a b c d
  | V6 segments => is_non_public_ipv6 segments
  end.

(** [IpAddr::is_loopback] *)
Definition ip_is_loopback (ip : IpAddr) : bool :=
  match ip with
  | V4 a b c d => v4_is_loopback a b c d
  | V6 segments => v6_is_loopback segments
  end.

(** ** Hosts *)

Definition is_ip (s : str) : bool := bool_decide (is_Some (parse_ip s)).

Definition unscoped_ip_literal (host : str) : option str :=
  '(ip, _) ← split_once [PERCENT] host; if is_ip ip then Some ip else None.

Definition scoped_literal (delimiter host : str) : option str :=
  match split_once delimiter host with
  | Some (ip, scope) => if is_ip ip then Some (ip ++ [PERCENT] ++ scope) else None
  | None => None
  end.

Definition normalize_ip_literal (host : str) : option str :=
  if is_ip host then Some host
  else match scoped_literal (lit "%25") host with
       | Some ip => Some ip
       | None => scoped_literal (lit "%") host
       end.

Definition normalize_dns_host_or_ip_literal (host : str) : str :=
  let host := trim_end_matches DOT (to_ascii_lowercase host) in
  default host (normalize_ip_literal host).

Definition normalize_host (host : str) : str :=
  let host := trim host in
  match (if starts_with (lit "[") host then split_once (lit "]") (drop 1 host) else None) with
  | Some (inner, _) => normalize_dns_host_or_ip_literal inner
  | None =>
    if (count_char COLON host =? 1)%nat
    then normalize_dns_host_or_ip_literal (default [] (head (split COLON host)))
    else normalize_dns_host_or_ip_literal host
  end.

(** [Host::parse] *)
Definition host_parse (input : str) : option str :=
  match normalize_host input with [] => None | normalized => Some normalized end.

Definition is_loopback_host (host : str) : bool :=
  let host := default host (unscoped_ip_literal host) in
  if str_eqb host (lit "localhost") then true
  else match parse_ip host with Some ip => ip_is_loopback ip | None => false end.

Example address_examples :
  parse_ip (lit "127.0.0.1") = Some (V4 127 0 0 1) /\ parse_ip (lit "127.0.0.01") = None /\
  parse_ip (lit "256.0.0.1") = None /\ parse_ip (lit "1.2.3") = None /\
  parse_ip (lit "::1") = Some (V6 [0; 0; 0; 0; 0; 0; 0; 1]) /\
  parse_ip (lit "::ffff:10.0.0.1") = Some (V6 [0; 0; 0; 0; 0; 65535; 2560; 1]) /\
  parse_ip (lit "2001:db8::1") = Some (V6 [8193; 3512; 0; 0; 0; 0; 0; 1]) /\
  parse_ip (lit "1:2:3:4:5:6:7:8:9") = None /\ parse_ip (lit "fe80::1%lo0") = None /\
  forallb (fun s => is_non_public_ip (default (V4 8 8 8 8) (parse_ip (lit s))))
    ["127.0.0.1"; "10.0.0.1"; "192.168.0.1"; "100.64.0.1"; "192.0.0.1"; "192.0.2.1"; "198.18.0.1";
     "198.51.100.1"; "203.0.113.1"; "240.0.0.1"; "0.1.2.3"; "::ffff:127.0.0.1"; "::1"; "fe80::1"; "fc00::1"]%string
    = true /\
  is_non_public_ip (V4 8 8 8 8) = false /\
  normalize_host (lit "  ExAmPlE.CoM.:443 ") = lit "example.com" /\
  normalize_host (lit "[::1]:443") = lit "::1" /\
  normalize_host (lit "[fe80::1%25lo0]") = lit "fe80::1%lo0" /\
  normalize_host (lit "2001:db8::1") = lit "2001:db8::1".
Proof. vm_compute. done. Qed.

(** ** Domain patterns *)

Definition WILDCARD2 : str := lit "**.".
Definition WILDCARD1 : str := lit "*.".

Definition normalize_pattern (pattern : str) : str :=
  let pattern := trim pattern in
  if str_eqb pattern (lit "*") then lit "*"
  else match strip_prefix WILDCARD2 pattern with
       | Some domain => WILDCARD2 ++ normalize_host domain
       | None =>
         match strip_prefix WILDCARD1 pattern with
         | Some domain => WILDCARD1 ++ normalize_host domain
         | None => normalize_host pattern
         end
       end.

Inductive DomainPattern :=
| ApexAndSubdomains (domain : str)
| SubdomainsOnly (domain : str)
| Exact (domain : str).

Definition parse_domain (domain : str) (build : str -> DomainPattern) : DomainPattern :=
  match trim domain with [] => Exact [] | domain => build domain end.

(** [DomainPattern::parse] *)
Definition pattern_parse (input : str) : DomainPattern :=
  let input := trim input in
  match input with
  | [] => Exact []
  | _ =>
    match strip_prefix WILDCARD2 input with
    | Some domain => parse_domain domain ApexAndSubdomains
    | None =>
      match strip_prefix WILDCARD1 input with
      | Some domain => parse_domain domain SubdomainsOnly
      | None => Exact input
      end
    end
  end.

(** The globs of a pattern; [?*.] is at least one character and a dot. *)
Definition SUBDOMAINS : str := lit "?*.".

Definition expand_domain_pattern (pattern : str) : list str :=
  match pattern_parse pattern with
  | Exact domain => [domain]
  | SubdomainsOnly domain => [SUBDOMAINS ++ domain]
  | ApexAndSubdomains domain => [domain; SUBDOMAINS ++ domain]
  end.

Definition is_global_wildcard_domain_pattern (pattern : str) : bool :=
  existsb (fun candidate => str_eqb candidate (lit "*")) (expand_domain_pattern (normalize_pattern pattern)).

Definition normalize_domain (domain : str) : str := to_ascii_lowercase (trim_end_matches DOT domain).

Definition domain_eq (a b : str) : bool := str_eqb (normalize_domain a) (normalize_domain b).

Definition is_subdomain_or_equal (child parent : str) : bool :=
  let child := normalize_domain child in
  let parent := normalize_domain parent in
  str_eqb child parent || ends_with ([DOT] ++ parent) child.

Definition is_strict_subdomain (child parent : str) : bool :=
  let child := normalize_domain child in
  let parent := normalize_domain parent in
  negb (str_eqb child parent) && ends_with ([DOT] ++ parent) child.

(** [DomainPattern::allows] *)
Definition allows (pattern candidate : DomainPattern) : bool :=
  match pattern, candidate with
  | Exact domain, Exact candidate => domain_eq candidate domain
  | Exact _, _ => false
  | SubdomainsOnly domain, Exact candidate => is_strict_subdomain candidate domain
  | SubdomainsOnly domain, SubdomainsOnly candidate => is_subdomain_or_equal candidate domain
  | SubdomainsOnly domain, ApexAndSubdomains candidate => is_strict_subdomain candidate domain
  | ApexAndSubdomains domain, Exact candidate
  | ApexAndSubdomains domain, SubdomainsOnly candidate
  | ApexAndSubdomains domain, ApexAndSubdomains candidate => is_subdomain_or_equal candidate domain
  end.

Inductive GlobalWildcard := WildcardAllow | WildcardReject.

#[export] Instance GlobalWildcard_eq_dec : EqDecision GlobalWildcard.
Proof. solve_decision. Defined.

Section patterns.
(** [url::Host::parse], printed. *)
Variable url_host_parse : str -> option str.
(** [GlobBuilder::build] accepts a glob; a glob matches a text, without regard to
    case. *)
Variable glob_valid : str -> bool.
Variable glob_match : str -> str -> bool.

Definition parse_domain_for_constraints (domain : str) : str :=
  let domain := trim_end_matches DOT (trim domain) in
  match domain with
  | [] => []
  | _ =>
    let host := if starts_with (lit "[") domain && ends_with (lit "]") domain
                then drop 1 (take (length domain - 1) domain) else domain in
    if contains [STAR] host || contains [QUESTION] host || contains [PERCENT] host then domain
    else default [] (url_host_parse host)
  end.

(** [DomainPattern::parse_for_constraints] *)
Definition parse_for_constraints (input : str) : DomainPattern :=
  let input := trim input in
  match input with
  | [] => Exact []
  | _ =>
    match strip_prefix WILDCARD2 input with
    | Some domain => ApexAndSubdomains (parse_domain_for_constraints domain)
    | None =>
      match strip_prefix WILDCARD1 input with
      | Some domain => SubdomainsOnly (parse_domain_for_constraints domain)
      | None => Exact (parse_domain_for_constraints input)
      end
    end
  end.

(** The globs of a set, without repetitions; [None] is an error. *)
Fixpoint add_globs (candidates seen : list str) : option (list str) :=
  match candidates with
  | [] => Some seen
  | candidate :: candidates =>
    if bool_decide (candidate ∈ seen) then add_globs candidates seen
    else if glob_valid candidate then add_globs candidates (seen ++ [candidate])
    else None
  end.

Fixpoint compile_patterns (patterns : list str) (global_wildcard : GlobalWildcard) (seen : list str)
    : option (list str) :=
  match patterns with
  | [] => Some seen
  | pattern :: patterns =>
    if bool_decide (global_wildcard = WildcardReject) && is_global_wildcard_domain_pattern pattern
    then None
    else seen ← add_globs (expand_domain_pattern (normalize_pattern pattern)) seen;
         compile_patterns patterns global_wildcard seen
  end.

Definition compile_globset_with_policy (patterns : list str) (global_wildcard : GlobalWildcard)
    : option (list str) := compile_patterns patterns global_wildcard [].

Definition compile_allowlist_globset (patterns : list str) : option (list str) :=
  compile_globset_with_policy patterns WildcardAllow.
Definition compile_denylist_globset (patterns : list str) : option (list str) :=
  compile_globset_with_policy patterns WildcardReject.

(** [GlobSet::is_match] *)
Definition globset_is_match (set : list str) (host : str) : bool := existsb (fun glob => glob_match glob host) set.

Definition globset_matches_host_or_unscoped (set : list str) (host : str) : bool :=
  globset_is_match set host
  || match unscoped_ip_literal host with Some ip => globset_is_match set ip | None => false end.

Definition is_explicit_local_allowlisted (allowed_domains : list str) (host : str) : bool :=
  let unscoped_host := unscoped_ip_literal host in
  existsb (fun pattern =>
    let pattern := trim pattern in
    if str_eqb pattern (lit "*") || starts_with WILDCARD1 pattern || starts_with WILDCARD2 pattern then false
    else if contains [STAR] pattern || contains [QUESTION] pattern then false
    else
      let normalized_pattern := normalize_host pattern in
      str_eqb normalized_pattern host
      || match unscoped_host with Some ip => str_eqb normalized_pattern ip | None => false end)
    allowed_domains.
End patterns.

(** ** The addresses that are not public *)

Lemma high_mask k w : 0 <= k <= w -> 2 ^ w - 2 ^ k = Z.shiftl (Z.ones (w - k)) k.
Proof.
  intros Hk. rewrite Z.shiftl_mul_pow2, Z.ones_equiv by lia.
  replace (2 ^ w) with (2 ^ (w - k) * 2 ^ k); [lia|].
  rewrite <- Z.pow_add_r by lia. f_equal. lia.
Qed.

Lemma land_high x k w :
  0 <= k <= w -> 0 <= x < 2 ^ w -> Z.land x (2 ^ w - 2 ^ k) = x / 2 ^ k * 2 ^ k.
Proof.
  intros Hk Hx. rewrite high_mask, <- Z.shiftr_div_pow2, <- Z.shiftl_mul_pow2 by lia.
  apply Z.bits_inj'. intros n Hn. rewrite Z.land_spec, !Z.shiftl_spec by lia.
  destruct (Z.ltb_spec n k).
  - by rewrite !(Z.testbit_neg_r _ (n - k)), andb_false_r by lia.
  - rewrite Z.shiftr_spec, Z.testbit_ones_nonneg by lia. replace (n - k + k) with n by lia.
    destruct (Z.ltb_spec (n - k) (w - k)); [by rewrite andb_true_r|].
    rewrite andb_false_r. symmetry. rewrite <- (Z.mod_small x (2 ^ w)) by done.
    apply Z.mod_pow2_bits_high. lia.
Qed.

(** A block of addresses is an interval. *)
Lemma high_eqb x base k w :
  0 <= k <= w -> 0 <= x < 2 ^ w -> 0 <= base < 2 ^ w -> base mod 2 ^ k = 0 ->
  (Z.land x (2 ^ w - 2 ^ k) =? Z.land base (2 ^ w - 2 ^ k)) = (base <=? x) && (x <? base + 2 ^ k).
Proof.
  intros Hk Hx Hb Hm. rewrite !land_high by done.
  assert (0 < 2 ^ k) as Hp by (apply Z.pow_pos_nonneg; lia).
  pose proof (Z.mod_pos_bound x (2 ^ k) Hp).
  pose proof (Z.div_mod x (2 ^ k)). pose proof (Z.div_mod base (2 ^ k)).
  apply eq_iff_eq_true. rewrite Z.eqb_eq, andb_true_iff, Z.leb_le, Z.ltb_lt.
  split; [lia|]. intros [? ?].
  assert (x / 2 ^ k = base / 2 ^ k) by nia. nia.
Qed.

Lemma cidr_interval a b c d ba bb bc bd prefix :
  0 < prefix <= 32 -> 0 <= u32_from a b c d < 2 ^ 32 -> 0 <= u32_from ba bb bc bd < 2 ^ 32 ->
  u32_from ba bb bc bd mod 2 ^ (32 - prefix) = 0 ->
  ipv4_in_cidr a b c d (ba, bb, bc, bd) prefix =
    (u32_from ba bb bc bd <=? u32_from a b c d) &&
    (u32_from a b c d <? u32_from ba bb bc bd + 2 ^ (32 - prefix)).
Proof.
  intros Hp Hx Hb Hm. unfold ipv4_in_cidr. rewrite (proj2 (Z.eqb_neq prefix 0)) by lia.
  replace (u32_shl (2 ^ 32 - 1) (32 - prefix)) with (2 ^ 32 - 2 ^ (32 - prefix)).
  - apply high_eqb; try done. lia.
  - unfold u32_shl. rewrite Z.shiftl_mul_pow2 by lia.
    assert (0 < 2 ^ (32 - prefix) <= 2 ^ 32) as [H1 H2].
    { split; [apply Z.pow_pos_nonneg; lia|apply Z.pow_le_mono_r; lia]. }
    replace ((2 ^ 32 - 1) * 2 ^ (32 - prefix))
      with (2 ^ 32 - 2 ^ (32 - prefix) + (2 ^ (32 - prefix) - 1) * 2 ^ 32) by lia.
    rewrite Z.mod_add, Z.mod_small by lia. done.
Qed.

(** The blocks of special addresses, first and last address. *)
Definition special_ipv4 : list (Z * Z) :=
  [(u32_from 0 0 0 0, u32_from 0 255 255 255); (u32_from 10 0 0 0, u32_from 10 255 255 255);
   (u32_from 100 64 0 0, u32_from 100 127 255 255); (u32_from 127 0 0 0, u32_from 127 255 255 255);
   (u32_from 169 254 0 0, u32_from 169 254 255 255); (u32_from 172 16 0 0, u32_from 172 31 255 255);
   (u32_from 192 0 0 0, u32_from 192 0 0 255); (u32_from 192 0 2 0, u32_from 192 0 2 255);
   (u32_from 192 168 0 0, u32_from 192 168 255 255); (u32_from 198 18 0 0, u32_from 198 19 255 255);
   (u32_from 198 51 100 0, u32_from 198 51 100 255); (u32_from 203 0 113 0, u32_from 203 0 113 255);
   (u32_from 224 0 0 0, u32_from 255 255 255 255)].

Definition within (ranges : list (Z * Z)) (n : Z) : bool :=
  existsb (fun '(first, last) => (first <=? n) && (n <=? last)) ranges.

Definition u128_from (segments : list Z) : Z := foldl (fun n s => n * 65536 + s) 0 segments.

(** fc00::/7, fe80::/10 and ff00::/8 *)
Definition special_ipv6 : list (Z * Z) :=
  [(64512 * 2 ^ 112, 65024 * 2 ^ 112 - 1); (65152 * 2 ^ 112, 65216 * 2 ^ 112 - 1);
   (65280 * 2 ^ 112, 65536 * 2 ^ 112 - 1)].

(** The addresses that are not public, as intervals: an IPv6 address that is an
    IPv4 one, compatible or mapped, counts as that. *)
Definition special_address (ip : IpAddr) : bool :=
  match ip with
  | V4 a b c d => within special_ipv4 (u32_from a b c d)
  | V6 segments =>
    let n := u128_from segments in
    if n <? 2 ^ 32 then within special_ipv4 n
    else if (65535 * 2 ^ 32 <=? n) && (n <? 65536 * 2 ^ 32) then within special_ipv4 (n - 65535 * 2 ^ 32)
    else within special_ipv6 n
  end.

Definition octet (z : Z) : Prop := 0 <= z < 256.
Definition ip_ok (ip : IpAddr) : Prop :=
  match ip with
  | V4 a b c d => octet a /\ octet b /\ octet c /\ octet d
  | V6 segments => length segments = 8%nat /\ Forall (fun s => 0 <= s < 65536) segments
  end.

Lemma within_true ranges n : within ranges n = true <-> exists first last, (first, last) ∈ ranges /\ first <= n <= last.
Proof.
  unfold within. rewrite existsb_exists. split.
  - intros ([f l] & Hin & H). exists f, l. rewrite list_elem_of_In. split; [done|]. lia.
  - intros (f & l & Hin & H). exists (f, l). rewrite <- list_elem_of_In. split; [done|]. lia.
Qed.

#[local] Ltac to_props :=
  unfold v4_is_loopback, v4_is_private, v4_is_link_local, v4_is_unspecified, v4_is_multicast,
    v4_is_broadcast, u32_from in *; lia.

(** The block that starts at an address of the list holds [n]. *)
#[local] Ltac in_block f l :=
  apply within_true; exists f, l; split; [apply (bool_decide_unpack _); by vm_compute|to_props].

(** One of the alternatives is the reason. *)
#[local] Ltac because b := assert (b = true) as -> by to_props; by rewrite ?orb_true_r.

Lemma non_public_ipv4_spec a b c d :
  octet a -> octet b -> octet c -> octet d ->
  is_non_public_ipv4 a b c d = within special_ipv4 (u32_from a b c d).
Proof.
  intros Ha Hb Hc Hd. unfold octet in *. unfold is_non_public_ipv4.
  assert (0 <= u32_from a b c d < 2 ^ 32) by (unfold u32_from; lia).
  rewrite !cidr_interval by (try done; unfold u32_from; lia).
  apply eq_iff_eq_true. split.
  - rewrite !orb_true_iff. intros H'.
    repeat match goal with H : _ \/ _ |- _ => destruct H as [H|H] end.
    + in_block (u32_from 127 0 0 0) (u32_from 127 255 255 255).
    + unfold v4_is_private in H'. rewrite !orb_true_iff in H'. destruct H' as [[H'|H']|H'].
      * in_block (u32_from 10 0 0 0) (u32_from 10 255 255 255).
      * in_block (u32_from 172 16 0 0) (u32_from 172 31 255 255).
      * in_block (u32_from 192 168 0 0) (u32_from 192 168 255 255).
    + in_block (u32_from 169 254 0 0) (u32_from 169 254 255 255).
    + in_block (u32_from 0 0 0 0) (u32_from 0 255 255 255).
    + in_block (u32_from 224 0 0 0) (u32_from 255 255 255 255).
    + in_block (u32_from 224 0 0 0) (u32_from 255 255 255 255).
    + in_block (u32_from 0 0 0 0) (u32_from 0 255 255 255).
    + in_block (u32_from 100 64 0 0) (u32_from 100 127 255 255).
    + in_block (u32_from 192 0 0 0) (u32_from 192 0 0 255).
    + in_block (u32_from 192 0 2 0) (u32_from 192 0 2 255).
    + in_block (u32_from 198 18 0 0) (u32_from 198 19 255 255).
    + in_block (u32_from 198 51 100 0) (u32_from 198 51 100 255).
    + in_block (u32_from 203 0 113 0) (u32_from 203 0 113 255).
    + in_block (u32_from 224 0 0 0) (u32_from 255 255 255 255).
  - intros (f & l & Hin & Hn)%within_true.
    repeat (apply elem_of_cons in Hin as [[= -> ->]|Hin]); [..|by apply elem_of_nil in Hin].
    + because ((u32_from 0 0 0 0 <=? u32_from a b c d) && (u32_from a b c d <? u32_from 0 0 0 0 + 2 ^ (32 - 8))).
    + because (v4_is_private a b c d).
    + because ((u32_from 100 64 0 0 <=? u32_from a b c d) && (u32_from a b c d <? u32_from 100 64 0 0 + 2 ^ (32 - 10))).
    + because (v4_is_loopback a b c d).
    + because (v4_is_link_local a b c d).
    + because (v4_is_private a b c d).
    + because ((u32_from 192 0 0 0 <=? u32_from a b c d) && (u32_from a b c d <? u32_from 192 0 0 0 + 2 ^ (32 - 24))).
    + because ((u32_from 192 0 2 0 <=? u32_from a b c d) && (u32_from a b c d <? u32_from 192 0 2 0 + 2 ^ (32 - 24))).
    + because (v4_is_private a b c d).
    + because ((u32_from 198 18 0 0 <=? u32_from a b c d) && (u32_from a b c d <? u32_from 198 18 0 0 + 2 ^ (32 - 15))).
    + because ((u32_from 198 51 100 0 <=? u32_from a b c d) && (u32_from a b c d <? u32_from 198 51 100 0 + 2 ^ (32 - 24))).
    + because ((u32_from 203 0 113 0 <=? u32_from a b c d) && (u32_from a b c d <? u32_from 203 0 113 0 + 2 ^ (32 - 24))).
    + destruct (Z.ltb_spec a 240).
      * because (v4_is_multicast a b c d).
      * because ((u32_from 240 0 0 0 <=? u32_from a b c d) && (u32_from a b c d <? u32_from 240 0 0 0 + 2 ^ (32 - 4))).
Qed.

Lemma v6_first_block s0 base k :
  0 <= s0 < 65536 -> 0 <= k <= 16 -> 0 <= base < 65536 -> base mod 2 ^ k = 0 ->
  (Z.land s0 (65536 - 2 ^ k) =? base) = (base <=? s0) && (s0 <? base + 2 ^ k).
Proof.
  intros Hs Hk Hb Hm. change 65536 with (2 ^ 16) in *.
  rewrite <- (high_eqb s0 base k 16) by done. f_equal. rewrite land_high by done.
  assert (0 < 2 ^ k) by (apply Z.pow_pos_nonneg; lia). pose proof (Z.div_mod base (2 ^ k)). lia.
Qed.

Lemma non_public_ipv6_spec segments :
  ip_ok (V6 segments) -> is_non_public_ipv6 segments = special_address (V6 segments).
Proof.
  intros [Hl Hs]. destruct segments as [|s0 [|s1 [|s2 [|s3 [|s4 [|s5 [|s6 [|s7 [|? ?]]]]]]]]]; try done.
  repeat (apply Forall_cons in Hs as [? Hs]). clear Hl Hs.
  unfold is_non_public_ipv6, special_address. cbn [u128_from foldl to_ipv4].
  set (n := ((((((((0 * 65536 + s0) * 65536 + s1) * 65536 + s2) * 65536 + s3) * 65536 + s4) * 65536 + s5)
    * 65536 + s6) * 65536 + s7)).
  assert (v6_is_loopback [s0; s1; s2; s3; s4; s5; s6; s7] = true -> n = 1) as Hlo.
  { unfold v6_is_loopback. intros [= -> -> -> -> -> -> -> ->]%bool_decide_eq_true. done. }
  destruct (_ && _) eqn:Ee.
  - assert (n = s6 * 65536 + s7 \/ n = 65535 * 2 ^ 32 + s6 * 65536 + s7) as Hn by (unfold n; lia).
    assert (is_non_public_ipv4 (s6 / 256) (s6 mod 256) (s7 / 256) (s7 mod 256) =
            within special_ipv4 (s6 * 65536 + s7)) as Hv.
    { rewrite non_public_ipv4_spec by (unfold octet; Z.div_mod_to_equations; lia).
      f_equal. unfold u32_from. Z.div_mod_to_equations; lia. }
    rewrite Hv. destruct Hn as [Hn|Hn].
    + rewrite (proj2 (Z.ltb_lt _ _)) by lia. rewrite Hn.
      destruct (v6_is_loopback _); [|by rewrite orb_false_r].
      assert (s6 * 65536 + s7 = 1) as -> by (specialize (Hlo eq_refl); lia). done.
    + rewrite (proj2 (Z.ltb_ge n (2 ^ 32))), (proj2 (Z.leb_le _ n)), (proj2 (Z.ltb_lt n _)) by lia.
      replace (n - 65535 * 2 ^ 32) with (s6 * 65536 + s7) by lia. cbn [andb].
      destruct (v6_is_loopback _); [|by rewrite orb_false_r]. specialize (Hlo eq_refl). lia.
  - assert (2 ^ 32 <= n /\ (n < 65535 * 2 ^ 32 \/ 65536 * 2 ^ 32 <= n)) as [H32 Hm] by (unfold n; lia).
    rewrite (proj2 (Z.ltb_ge _ _)) by done.
    assert ((65535 * 2 ^ 32 <=? n) && (n <? 65536 * 2 ^ 32) = false) as -> by lia.
    assert (v6_is_loopback [s0; s1; s2; s3; s4; s5; s6; s7] = false) as ->
      by (destruct (v6_is_loopback _); [specialize (Hlo eq_refl); lia|done]).
    assert (v6_is_unspecified [s0; s1; s2; s3; s4; s5; s6; s7] = false) as ->
      by (apply bool_decide_eq_false; intros [= -> -> -> -> -> -> -> ->]; done).
    unfold v6_is_multicast, v6_is_unique_local, v6_is_unicast_link_local. cbn [nth orb].
    change (Z.land s0 65280) with (Z.land s0 (65536 - 2 ^ 8)).
    change (Z.land s0 65024) with (Z.land s0 (65536 - 2 ^ 9)).
    change (Z.land s0 65472) with (Z.land s0 (65536 - 2 ^ 6)).
    rewrite (v6_first_block s0 65280 8), (v6_first_block s0 64512 9), (v6_first_block s0 65152 6) by done.
    assert (s0 * 2 ^ 112 <= n < (s0 + 1) * 2 ^ 112) as Hn0 by (unfold n; lia). clearbody n.
    unfold within, special_ipv6. cbn [existsb]. lia.
Qed.

Lemma non_public_spec ip : ip_ok ip -> is_non_public_ip ip = special_address ip.
Proof.
  destruct ip as [a b c d|segments].
  - intros (? & ? & ? & ?). by apply non_public_ipv4_spec.
  - apply non_public_ipv6_spec.
Qed.

(** Which addresses count as not public.  For every IPv4 and IPv6 address the
    classification, with its masks and the helpers of the standard library, is
    membership in a list of intervals, where an IPv6 address that stands for an
    IPv4 one is judged as that. *)
Theorem non_public_ranges ip : ip_ok ip -> is_non_public_ip ip = special_address ip.
Proof. apply non_public_spec. Qed.

(** Addresses of the documentation prefix, of the discard prefix and of the old
    site-local prefix, and IPv4 addresses behind the NAT64 prefix, are not in the list. *)
Lemma some_unroutable_count_as_public :
  forallb (fun s => negb (is_non_public_ip (default (V4 0 0 0 0) (parse_ip (lit s)))))
    ["2001:db8::1"; "100::1"; "fec0::1"; "64:ff9b::127.0.0.1"]%string = true.
Proof. vm_compute. done. Qed.

Lemma non_public_ranges_witness :
  ip_ok (V6 [0; 0; 0; 0; 0; 65535; 2560; 1]) /\
  is_non_public_ip (V6 [0; 0; 0; 0; 0; 65535; 2560; 1]) = true.
Proof.
  assert (ip_ok (V6 [0; 0; 0; 0; 0; 65535; 2560; 1])) as H by (split; [done|repeat constructor; lia]).
  split; [exact H|]. rewrite (non_public_ranges _ H). vm_compute. reflexivity.
Defined.

(** ** Addresses that are read are well formed *)

Lemma read_digits_nonneg radix n s : forall r k r' k' rest,
  0 < radix -> 0 <= r -> read_digits radix n s r k = Some (r', k', rest) -> 0 <= r'.
Proof.
  induction s as [|c s IH]; intros r k r' k' rest Hr H0; cbn [read_digits].
  { by intros [= <- <- <-]. }
  destruct (to_digit radix c) as [d|] eqn:Ed; [|by intros [= <- <- <-]].
  destruct (_ <? _)%nat; [done|]. apply IH; [done|].
  assert (0 <= d); [|nia]. revert Ed. unfold to_digit.
  repeat case_match; intros [= <-]; lia.
Qed.

Lemma read_number_range radix n z max s g rest :
  0 < radix -> read_number radix n z max s = Some (g, rest) -> 0 <= g <= max.
Proof.
  intros Hr. unfold read_number. destruct (read_digits radix n s 0 0) as [[[r k] rest']|] eqn:E; [|done].
  cbn. repeat case_match; try done; intros [= <- <-]; apply read_digits_nonneg in E; lia.
Qed.

Lemma read_separator_inner {A} c i (inner : str -> option (A * str)) s x :
  read_separator c i inner s = Some x -> exists s', inner s' = Some x.
Proof.
  unfold read_separator. destruct (_ <? _)%nat; [|eauto].
  destruct (strip_prefix _ s); [|done]. eauto.
Qed.

Lemma read_ipv4_ok s a b c d rest :
  read_ipv4_addr s = Some ((a, b, c, d), rest) -> octet a /\ octet b /\ octet c /\ octet d.
Proof.
  assert (forall i s x rest, read_octet i s = Some (x, rest) -> octet x) as Ho.
  { intros i s' x r. unfold read_octet. intros [s'' E]%read_separator_inner.
    apply read_number_range in E; unfold octet; lia. }
  unfold read_ipv4_addr. intros E.
  destruct (read_octet 0 s) as [[a' s1]|] eqn:E1; [|done]. cbn [mbind option_bind] in E.
  destruct (read_octet 1 s1) as [[b' s2]|] eqn:E2; [|done]. cbn [mbind option_bind] in E.
  destruct (read_octet 2 s2) as [[c' s3]|] eqn:E3; [|done]. cbn [mbind option_bind] in E.
  destruct (read_octet 3 s3) as [[d' s4]|] eqn:E4; [|done]. cbn [mbind option_bind] in E.
  injection E as <- <- <- <- <-. split_and!; by eapply Ho.
Qed.

Lemma read_groups_ok slots : forall groups s groups' v4 rest,
  Forall (fun g => 0 <= g < 65536) groups ->
  read_groups slots groups s = (groups', v4, rest) ->
  Forall (fun g => 0 <= g < 65536) groups' /\ (length groups' <= length groups + slots)%nat.
Proof.
  induction slots as [|slots IH]; intros groups s groups' v4 rest Hg; cbn [read_groups].
  { intros [= <- <- <-]. split; [done|lia]. }
  destruct (if (1 <=? slots)%nat then _ else None) as [[[[[a b] c] d] s']|] eqn:E4.
  - intros [= <- <- <-]. destruct (Nat.leb_spec 1 slots); [|done].
    apply read_separator_inner in E4 as [s'' E4]. apply read_ipv4_ok in E4 as (? & ? & ? & ?).
    unfold octet in *. rewrite length_app, Forall_app. simpl. split; [|lia].
    split; [done|]. repeat constructor; lia.
  - destruct (read_separator COLON _ (read_number 16 4 true 65535) s) as [[g s']|] eqn:E6.
    + intros E. apply IH in E as [H1 H2].
      * split; [done|]. rewrite length_app in H2. simpl in H2. lia.
      * apply Forall_app. split; [done|]. apply read_separator_inner in E6 as [s'' E6].
        apply read_number_range in E6; [|done]. repeat constructor; lia.
    + intros [= <- <- <-]. split; [done|lia].
Qed.

Lemma read_ipv6_ok s segments rest :
  read_ipv6_addr s = Some (segments, rest) -> ip_ok (V6 segments).
Proof.
  unfold read_ipv6_addr. destruct (read_groups 8 [] s) as [[head h4] s1] eqn:E1.
  apply read_groups_ok in E1 as [H1 L1]; [|done]. simpl in L1.
  destruct (Nat.eqb_spec (length head) 8); [by intros [= <- <-]|].
  destruct h4; [done|]. destruct (strip_prefix _ s1) as [s2|]; [|done]. cbn [mbind option_bind].
  destruct (read_groups _ [] s2) as [[tail t4] s3] eqn:E2. apply read_groups_ok in E2 as [H2 L2]; [|done].
  intros [= <- <-]. cbn [length] in L2. split.
  - rewrite !length_app, length_replicate. lia.
  - rewrite !Forall_app. split_and!; [done| |done]. apply Forall_replicate. lia.
Qed.

Lemma parse_ip_ok s ip : parse_ip s = Some ip -> ip_ok ip.
Proof.
  unfold parse_ip. destruct (read_ipv4_addr s) as [[[[[a b] c] d] [|? ?]]|] eqn:E; [|done|].
  - intros [= <-]. by apply read_ipv4_ok in E.
  - destruct (read_ipv6_addr s) as [[segments [|? ?]]|] eqn:E6; [|done..].
    intros [= <-]. by apply read_ipv6_ok in E6.
Qed.

(** ** Names of domains *)

Definition is_letter (c : char) : bool := (((65 <=? c) && (c <=? 90)) || ((97 <=? c) && (c <=? 122)))%N.
Definition name_char (c : char) : bool := is_letter c || is_ascii_digit c || (c =? MINUS)%N || (c =? DOT)%N.

(** An ASCII name, without a dot at its ends, whose last label starts with a
    letter and none of whose labels is encoded. *)
Definition dns_name (d : str) : bool :=
  forallb name_char d
  && match head d with Some c => negb (c =? DOT)%N | None => false end
  && match last d with Some c => negb (c =? DOT)%N | None => false end
  && match last (split DOT d) with Some (c :: _) => is_letter c | _ => false end
  && forallb (fun label => negb (starts_with (lit "xn--") (to_ascii_lowercase label))) (split DOT d).

Definition lower_char (c : char) : char := if ((65 <=? c) && (c <=? 90))%N then (c + 32)%N else c.

Lemma lower_name_char c : name_char c = true -> name_char (lower_char c) = true.
Proof.
  unfold name_char, lower_char, is_letter, is_ascii_digit, MINUS, DOT. destruct ((65 <=? c) && (c <=? 90))%N eqn:E; lia.
Qed.

Lemma lower_char_dot c : lower_char c = DOT -> c = DOT.
Proof. unfold lower_char, DOT. destruct (_ && _)%N eqn:E; lia. Qed.

Lemma lower_lower s : to_ascii_lowercase (to_ascii_lowercase s) = to_ascii_lowercase s.
Proof.
  unfold to_ascii_lowercase. rewrite <- list_fmap_compose. apply list_fmap_ext. intros _ c _.
  unfold compose. destruct ((65 <=? c) && (c <=? 90))%N eqn:E; [|by rewrite E].
  assert (((65 <=? c + 32) && (c + 32 <=? 90))%N = false) as -> by lia. done.
Qed.

Lemma lower_app a b : to_ascii_lowercase (a ++ b) = to_ascii_lowercase a ++ to_ascii_lowercase b.
Proof. apply fmap_app. Qed.

(** What matters of a name: its characters and its ends. *)
Record solid_name (d : str) : Prop := {
  solid_chars : forall c, c ∈ d -> name_char c = true;
  solid_head : exists c, head d = Some c /\ c <> DOT;
  solid_last : exists c, last d = Some c /\ c <> DOT
}.

Lemma dns_solid d : dns_name d = true -> solid_name d.
Proof.
  unfold dns_name. rewrite !andb_true_iff. intros [[[[Hc Hh] Hl] _] _]. split.
  - intros c Hin. rewrite forallb_forall in Hc. apply Hc. by apply list_elem_of_In.
  - destruct (head d) as [c|]; [|done]. exists c. split; [done|]. by destruct (N.eqb_spec c DOT).
  - destruct (last d) as [c|]; [|done]. exists c. split; [done|]. by destruct (N.eqb_spec c DOT).
Qed.

Lemma lower_solid d : solid_name d -> solid_name (to_ascii_lowercase d).
Proof.
  intros [Hc (h & Hh & Hh') (l & Hl & Hl')]. split.
  - intros c (x & -> & Hx)%list_elem_of_fmap. by apply lower_name_char, Hc.
  - exists (lower_char h). unfold to_ascii_lowercase. destruct d as [|x d]; simplify_eq/=. split; [done|].
    by intros ?%lower_char_dot.
  - exists (lower_char l). unfold to_ascii_lowercase. rewrite fmap_last, Hl. split; [done|].
    by intros ?%lower_char_dot.
Qed.

Lemma solid_not_in x d : solid_name d -> name_char x = false -> x ∉ d.
Proof. intros Hd Hx Hin. by rewrite (solid_chars d Hd x Hin) in Hx. Qed.

Lemma name_char_not_space c : name_char c = true -> is_whitespace c = false.
Proof.
  intros H. destruct (is_whitespace c) eqn:E; [|done]. exfalso. revert H.
  unfold is_whitespace in E. unfold name_char, is_letter, is_ascii_digit, MINUS, DOT. lia.
Qed.

Lemma solid_ends c d : solid_name d -> is_whitespace c = false -> edges_solid d /\ forall p, edges_solid (c :: p ++ d).
Proof.
  intros Hd Hc. pose proof (solid_last d Hd) as (l & Hl & _).
  assert (forall x, last d = Some x -> is_whitespace x = false) as Hlast.
  { intros x Hx. apply name_char_not_space, (solid_chars d Hd). by apply last_Some_elem_of in Hx. }
  split; [split; [|done]|intros p; split].
  - intros x Hx. apply name_char_not_space, (solid_chars d Hd). by apply head_Some_elem_of in Hx.
  - by intros ? [= <-].
  - intros x. rewrite app_comm_cons, last_app, Hl. intros [= <-]. by apply Hlast.
Qed.

Lemma split_once_absent c p s : c ∉ s -> split_once (c :: p) s = None.
Proof.
  intros Hc. destruct (split_once (c :: p) s) as [[a b]|] eqn:E; [|done].
  apply split_once_parts in E. subst s. set_solver.
Qed.

Lemma contains_single_absent c s : c ∉ s -> contains [c] s = false.
Proof.
  intros Hc. unfold contains. destruct (find [c] s) as [i|] eqn:E; [|done]. exfalso. apply Hc. clear Hc.
  revert i E. induction s as [|x s IH]; intros i; cbn [find]; unfold starts_with; simpl.
  - done.
  - destruct (N.eqb_spec c x) as [->|]; [set_solver|]. destruct (find [c] s); [|done]. set_solver.
Qed.

Lemma trim_end_matches_solid d : solid_name d -> trim_end_matches DOT d = d.
Proof.
  intros Hd. destruct (solid_last d Hd) as (l & Hl & Hne). apply last_Some in Hl as [d' ->].
  unfold trim_end_matches. rewrite reverse_app. simpl.
  destruct (N.eqb_spec l DOT); [done|]. by rewrite reverse_cons, reverse_involutive.
Qed.

Lemma count_absent c s : c ∉ s -> count_char c s = 0%nat.
Proof.
  unfold count_char. induction s as [|x s IH]; [done|]. intros Hc.
  rewrite filter_cons_False by set_solver. apply IH. set_solver.
Qed.

Lemma normalize_host_solid d : solid_name d -> normalize_host d = to_ascii_lowercase d.
Proof.
  intros Hd. unfold normalize_host. rewrite trim_solid by (by apply (solid_ends DOT d)).
  assert (starts_with (lit "[") d = false) as ->.
  { change (lit "[") with [91%N]. unfold starts_with. destruct d as [|c d']; [done|].
    rewrite strip_prefix_None_head; [done|]. intros <-.
    apply (solid_not_in 91%N _ Hd); [done|set_solver]. }
  rewrite (count_absent COLON d) by (by apply solid_not_in).
  cbn [Nat.eqb]. unfold normalize_dns_host_or_ip_literal.
  rewrite trim_end_matches_solid by (by apply lower_solid). unfold normalize_ip_literal, scoped_literal.
  assert (PERCENT ∉ to_ascii_lowercase d) as Hp by (by apply solid_not_in; [apply lower_solid|]).
  change (lit "%25") with (PERCENT :: lit "25"). change (lit "%") with [PERCENT].
  rewrite !split_once_absent by done. by destruct (is_ip _).
Qed.

(** ** Patterns over names *)

Inductive Wild := OnlyName | OnlySubdomains | NameAndSubdomains.

Definition wild_prefix (w : Wild) : str :=
  match w with OnlyName => [] | OnlySubdomains => WILDCARD1 | NameAndSubdomains => WILDCARD2 end.
Definition wild_pattern (w : Wild) (d : str) : DomainPattern :=
  match w with
  | OnlyName => Exact d
  | OnlySubdomains => SubdomainsOnly d
  | NameAndSubdomains => ApexAndSubdomains d
  end.
Definition wild_globs (w : Wild) (d : str) : list str :=
  match w with
  | OnlyName => [d]
  | OnlySubdomains => [SUBDOMAINS ++ d]
  | NameAndSubdomains => [d; SUBDOMAINS ++ d]
  end.

Lemma wild_trim w d : solid_name d -> trim (wild_prefix w ++ d) = wild_prefix w ++ d.
Proof.
  intros Hd. apply trim_solid. destruct w.
  - by apply (solid_ends DOT d).
  - exact (proj2 (solid_ends STAR d Hd eq_refl) [DOT]).
  - exact (proj2 (solid_ends STAR d Hd eq_refl) [STAR; DOT]).
Qed.

Lemma strip_wild_solid w d :
  solid_name d -> w <> OnlyName -> strip_prefix (wild_prefix w) d = None.
Proof.
  intros Hd Hw. destruct d as [|c d']; [by destruct w|].
  assert (c <> STAR) as Hc.
  { intros ->. apply (solid_not_in STAR _ Hd); [done|set_solver]. }
  destruct w; [done|..]; by apply strip_prefix_None_head.
Qed.

(** The cases of a pattern, as all its readers tell them apart. *)
Lemma wild_cases {A} w d (f2 f1 : str -> A) (f0 : A) :
  solid_name d ->
  match strip_prefix WILDCARD2 (wild_prefix w ++ d) with
  | Some x => f2 x
  | None => match strip_prefix WILDCARD1 (wild_prefix w ++ d) with Some x => f1 x | None => f0 end
  end = match w with NameAndSubdomains => f2 d | OnlySubdomains => f1 d | OnlyName => f0 end.
Proof.
  intros Hd. destruct w; cbn [wild_prefix].
  - change ([] ++ d) with d.
    pose proof (strip_wild_solid NameAndSubdomains d Hd ltac:(done)) as H2.
    pose proof (strip_wild_solid OnlySubdomains d Hd ltac:(done)) as H1.
    cbn [wild_prefix] in H1, H2. by rewrite H2, H1.
  - assert (strip_prefix WILDCARD2 (WILDCARD1 ++ d) = None) as -> by (by apply diverge_strip_prefix).
    by rewrite strip_prefix_app.
  - by rewrite strip_prefix_app.
Qed.

Lemma normalize_pattern_wild w d :
  solid_name d -> normalize_pattern (wild_prefix w ++ d) = wild_prefix w ++ to_ascii_lowercase d.
Proof.
  intros Hd. unfold normalize_pattern. rewrite wild_trim by done.
  assert (str_eqb (wild_prefix w ++ d) (lit "*") = false) as ->.
  { apply str_eqb_ne. destruct w; cbn [wild_prefix]; [|done..]. intros E. change ([] ++ d) with d in E.
    subst d. apply (solid_not_in STAR _ Hd); [done|]. apply list_elem_of_here. }
  rewrite wild_cases by done. pose proof (normalize_host_solid d Hd) as En.
  destruct w; cbn [wild_prefix]; [exact En|by rewrite En..].
Qed.

Lemma parse_domain_solid d build : solid_name d -> parse_domain d build = build d.
Proof.
  intros Hd. unfold parse_domain. rewrite (wild_trim OnlyName d Hd : trim d = d).
  destruct (solid_head d Hd) as (c & Hc & _). by destruct d.
Qed.

Lemma expand_wild w d : solid_name d -> expand_domain_pattern (wild_prefix w ++ d) = wild_globs w d.
Proof.
  intros Hd. unfold expand_domain_pattern, pattern_parse. rewrite wild_trim, wild_cases by done.
  destruct (solid_head d Hd) as (c & Hc & _).
  destruct (wild_prefix w ++ d) as [|x l] eqn:E.
  { apply app_nil in E as [_ ->]. done. }
  destruct w; rewrite ?parse_domain_solid by done; try done.
  cbn [wild_prefix] in E. by simplify_eq/=.
Qed.

(** ** What a constraint on the allowed domains means *)

(** [globset] on the globs of names: a literal matches itself, [?*.] needs a
    label before the dot, and case does not matter. *)
Class GlobLaws (glob_match : str -> str -> bool) : Prop := {
  glob_name d h : solid_name d ->
    glob_match d h = true <-> to_ascii_lowercase h = to_ascii_lowercase d;
  glob_subdomains d h : solid_name d ->
    glob_match (SUBDOMAINS ++ d) h = true <->
    exists x, x <> [] /\ to_ascii_lowercase h = x ++ [DOT] ++ to_ascii_lowercase d
}.

(** [url] puts ASCII names into lower case. *)
Class UrlHostLaws (url_host_parse : str -> option str) : Prop := {
  url_dns_name d : dns_name d = true -> url_host_parse d = Some (to_ascii_lowercase d)
}.

Definition below (child parent : str) : Prop := exists x, x <> [] /\ child = x ++ [DOT] ++ parent.

(** The hosts that a pattern stands for. *)
Definition names (w : Wild) (d h : str) : Prop :=
  match w with
  | OnlyName => h = d
  | OnlySubdomains => below h d
  | NameAndSubdomains => h = d \/ below h d
  end.

Lemma below_trans a b c : below a b -> below b c -> below a c.
Proof.
  intros (x & Hx & ->) (y & Hy & ->). exists (x ++ [DOT] ++ y). split; [by destruct x|].
  by rewrite <- !app_assoc.
Qed.

Lemma below_longer a b : below a b -> (length b + 2 <= length a)%nat.
Proof. intros (x & Hx & ->). rewrite !length_app. destruct x; [done|simpl; lia]. Qed.

(** One label more. *)
Lemma below_label l c m : head c <> Some DOT -> below (l :: DOT :: c) m -> c = m \/ below c m.
Proof.
  intros Hc (x & Hx & E). destruct x as [|a [|b x]]; [done|..]; simplify_eq/=; [by left|].
  right. exists x. split; [|done]. by intros ->.
Qed.

Lemma below_label_intro l c : below (l :: DOT :: c) c.
Proof. by exists [l]. Qed.

Lemma normalize_domain_solid d : solid_name d -> normalize_domain (to_ascii_lowercase d) = to_ascii_lowercase d.
Proof.
  intros Hd. unfold normalize_domain. by rewrite trim_end_matches_solid, lower_lower by (by apply lower_solid).
Qed.

Lemma head_solid d : solid_name d -> head d <> Some DOT.
Proof. intros Hd. destruct (solid_head d Hd) as (c & -> & Hc). congruence. Qed.

Lemma ends_with_below c m : solid_name c -> ends_with ([DOT] ++ m) c = true <-> below c m.
Proof.
  intros Hc. unfold ends_with. destruct (strip_suffix ([DOT] ++ m) c) as [x|] eqn:E.
  - apply strip_suffix_Some in E. subst c. split; [|done]. intros _. exists x. split; [|done].
    intros ->. by apply head_solid in Hc.
  - split; [done|]. intros (x & _ & Ex). assert (strip_suffix ([DOT] ++ m) c = Some x) by (by apply strip_suffix_Some).
    congruence.
Qed.

Lemma allows_wild wm m wc c :
  solid_name m -> solid_name c ->
  let M := to_ascii_lowercase m in let C := to_ascii_lowercase c in
  allows (wild_pattern wm M) (wild_pattern wc C) = true <->
  match wm, wc with
  | OnlyName, OnlyName => C = M
  | OnlyName, _ => False
  | OnlySubdomains, OnlySubdomains | NameAndSubdomains, _ => C = M \/ below C M
  | OnlySubdomains, _ => below C M
  end.
Proof.
  intros Hm Hc M C.
  assert (is_subdomain_or_equal C M = true <-> C = M \/ below C M) as H1.
  { unfold is_subdomain_or_equal, C, M. rewrite !normalize_domain_solid by done.
    rewrite orb_true_iff, str_eqb_eq, ends_with_below by (by apply lower_solid). done. }
  assert (is_strict_subdomain C M = true <-> below C M) as H2.
  { unfold is_strict_subdomain. unfold C, M at 1 2. rewrite !normalize_domain_solid by done. fold C M.
    rewrite andb_true_iff, negb_true_iff, ends_with_below by (by apply lower_solid).
    split; [by intros [_ H]|]. intros H. split; [|done]. apply str_eqb_ne. intros E.
    apply below_longer in H. rewrite E in H. lia. }
  destruct wm, wc; cbn [wild_pattern allows]; try done.
  unfold domain_eq, C, M. rewrite !normalize_domain_solid by done. apply str_eqb_eq.
Qed.

(** The table is inclusion of the hosts. *)
Lemma table_inclusion wm m wc c :
  head c <> Some DOT -> to_ascii_lowercase c = c ->
  match wm, wc with
  | OnlyName, OnlyName => c = m
  | OnlyName, _ => False
  | OnlySubdomains, OnlySubdomains | NameAndSubdomains, _ => c = m \/ below c m
  | OnlySubdomains, _ => below c m
  end <-> (forall h, to_ascii_lowercase h = h -> names wc c h -> names wm m h).
Proof.
  intros Hc Hl. split.
  - intros H h _. destruct wm, wc; cbn [names]; try done; intuition (subst; eauto using below_trans).
  - intros H. pose proof (H c Hl) as Hself.
    assert (forall l, to_ascii_lowercase [l] = [l] -> to_ascii_lowercase (l :: DOT :: c) = l :: DOT :: c) as Hll.
    { intros l El. change (l :: DOT :: c) with ([l] ++ [DOT] ++ c). by rewrite !lower_app, El, Hl. }
    pose proof (H _ (Hll 120%N eq_refl)) as Hx. pose proof (H _ (Hll 121%N eq_refl)) as Hy. clear H Hll.
    pose proof (below_label_intro 120%N c) as Bx. pose proof (below_label_intro 121%N c) as By.
    destruct wm, wc; cbn [names] in *; try (by intuition eauto using below_label).
    + assert (120%N :: DOT :: c = 121%N :: DOT :: c); [|done]. rewrite Hx, Hy by done. done.
    + assert (120%N :: DOT :: c = 121%N :: DOT :: c); [|done]. rewrite Hx, Hy by auto. done.
    + destruct (Hx Bx) as [<-|?]; [|by eapply below_label]. exfalso.
      destruct (Hy By) as [?|Hb]; [done|]. apply below_longer in Hb. simpl in Hb. lia.
Qed.

Section constraint.
Context (url_host_parse : str -> option str) (glob_match : str -> str -> bool).
Context `{!UrlHostLaws url_host_parse, !GlobLaws glob_match}.

Lemma parse_for_constraints_wild w d :
  dns_name d = true ->
  parse_for_constraints url_host_parse (wild_prefix w ++ d) = wild_pattern w (to_ascii_lowercase d).
Proof.
  intros Hd. pose proof (dns_solid d Hd) as Hs.
  assert (parse_domain_for_constraints url_host_parse d = to_ascii_lowercase d) as Ep.
  { unfold parse_domain_for_constraints. rewrite (wild_trim OnlyName d Hs : trim d = d).
    rewrite trim_end_matches_solid by done. destruct (solid_head d Hs) as (c & Hc & _).
    destruct d as [|x d']; [done|]. simplify_eq/=.
    assert (starts_with (lit "[") (c :: d') = false) as ->.
    { change (lit "[") with [91%N]. unfold starts_with. rewrite strip_prefix_None_head; [done|].
      intros <-. apply (solid_not_in 91%N _ Hs); [done|set_solver]. }
    cbn [andb]. rewrite !contains_single_absent by (by apply solid_not_in). cbn [orb].
    by rewrite url_dns_name. }
  unfold parse_for_constraints. rewrite wild_trim, wild_cases by done.
  destruct (solid_head d Hs) as (c & Hc & _).
  destruct (wild_prefix w ++ d) as [|x l] eqn:E; [by apply app_nil in E as [_ ->]|].
  destruct w; rewrite ?Ep; try done. cbn [wild_prefix] in E. change ([] ++ d) with d in E. by rewrite <- E, Ep.
Qed.

(** The hosts that the globs of a pattern match. *)
Definition pattern_matches (pattern host : str) : bool :=
  globset_is_match glob_match (expand_domain_pattern (normalize_pattern pattern)) host.

Lemma pattern_matches_wild w d h :
  solid_name d ->
  pattern_matches (wild_prefix w ++ d) h = true <-> names w (to_ascii_lowercase d) (to_ascii_lowercase h).
Proof.
  intros Hd. pose proof (lower_solid d Hd) as Hl. unfold pattern_matches.
  rewrite normalize_pattern_wild, expand_wild by done.
  destruct w; cbn [wild_globs globset_is_match existsb names]; rewrite ?orb_false_r, ?orb_true_iff,
    ?glob_name, ?glob_subdomains, ?lower_lower by done; done.
Qed.

(** The check of a domain against a managed one is exact.  For patterns over
    domain names, an entry is allowed under a managed entry exactly when every
    host that the entry lets through is let through by the managed one. *)
Lemma allows_exact wm m wc c :
  dns_name m = true -> dns_name c = true ->
  allows (parse_for_constraints url_host_parse (wild_prefix wm ++ m))
    (parse_for_constraints url_host_parse (wild_prefix wc ++ c)) = true <->
  (forall h, pattern_matches (wild_prefix wc ++ c) h = true -> pattern_matches (wild_prefix wm ++ m) h = true).
Proof.
  intros Hm Hc. pose proof (dns_solid m Hm). pose proof (dns_solid c Hc) as Hsc.
  rewrite !parse_for_constraints_wild, allows_wild by done.
  rewrite table_inclusion by (apply lower_lower || (by apply head_solid, lower_solid)). split.
  - intros Hi h. rewrite !pattern_matches_wild by done. apply Hi. apply lower_lower.
  - intros Hi h Hh Hn. specialize (Hi h). rewrite !pattern_matches_wild, Hh in Hi by done. by apply Hi.
Qed.

(** Entries that are not names can escape: the check keeps a pattern with a
    wildcard as it is, while the matcher strips what follows a colon, so that an
    entry below a managed domain opens another host. *)
Lemma port_escapes_constraint :
  allows (parse_for_constraints url_host_parse (lit "*.example.com"))
    (parse_for_constraints url_host_parse (lit "evil.com:*.example.com")) = true /\
  pattern_matches (lit "evil.com:*.example.com") (lit "evil.com") = true /\
  pattern_matches (lit "*.example.com") (lit "evil.com") = false.
Proof.
  pose proof (parse_for_constraints_wild OnlySubdomains (lit "example.com") ltac:(by vm_compute)) as E.
  change (lit "*.example.com") with (wild_prefix OnlySubdomains ++ lit "example.com").
  rewrite E. split_and!.
  - by vm_compute.
  - unfold pattern_matches. change (expand_domain_pattern _) with [lit "evil.com"].
    cbn [globset_is_match existsb]. rewrite orb_false_r. apply glob_name; [|done].
    apply dns_solid. by vm_compute.
  - apply not_true_is_false. rewrite pattern_matches_wild by (apply dns_solid; by vm_compute).
    intros Hb%below_longer. revert Hb. vm_compute. lia.
Qed.

(** An entry that is not a host is read as the empty domain, so that a managed
    entry with a port, which is none, allows every other entry with a port. *)
Lemma unreadable_managed_entry_allows_all managed entry :
  parse_for_constraints url_host_parse managed = Exact [] ->
  parse_for_constraints url_host_parse entry = Exact [] ->
  allows (parse_for_constraints url_host_parse managed) (parse_for_constraints url_host_parse entry) = true.
Proof. intros -> ->. by vm_compute. Qed.
End constraint.

(** A matcher and a parser of hosts that satisfy the laws. *)
Definition demo_glob (glob host : str) : bool :=
  match strip_prefix SUBDOMAINS glob with
  | Some d =>
    match strip_suffix (DOT :: to_ascii_lowercase d) (to_ascii_lowercase host) with
    | Some (_ :: _) => true
    | _ => false
    end
  | None => str_eqb (to_ascii_lowercase host) (to_ascii_lowercase glob)
  end.

Definition demo_url_host (host : str) : option str :=
  if dns_name host then Some (to_ascii_lowercase host) else None.

#[export] Instance demo_glob_laws : GlobLaws demo_glob.
Proof.
  split; intros d h Hd; unfold demo_glob.
  - assert (strip_prefix SUBDOMAINS d = None) as ->; [|apply str_eqb_eq].
    destruct d as [|c d']; [done|]. change SUBDOMAINS with (QUESTION :: WILDCARD1).
    apply strip_prefix_None_head. intros <-. apply (solid_not_in QUESTION _ Hd); [done|set_solver].
  - rewrite strip_prefix_app. split.
    + destruct (strip_suffix _ _) as [[|x l]|] eqn:E; [done| |done]. intros _.
      apply strip_suffix_Some in E. by exists (x :: l).
    + intros (x & Hx & E). change (DOT :: to_ascii_lowercase d) with ([DOT] ++ to_ascii_lowercase d).
      rewrite (proj2 (strip_suffix_Some _ _ x) E). by destruct x.
Qed.

#[export] Instance demo_url_laws : UrlHostLaws demo_url_host.
Proof. split. intros d Hd. unfold demo_url_host. by rewrite Hd. Qed.

Lemma allows_exact_witness :
  allows (parse_for_constraints demo_url_host (lit "**.example.com"))
    (parse_for_constraints demo_url_host (lit "*.api.Example.com")) = true.
Proof.
  apply (allows_exact demo_url_host demo_glob NameAndSubdomains (lit "example.com") OnlySubdomains
    (lit "api.Example.com")); [vm_compute; reflexivity..|].
  intros h. rewrite !pattern_matches_wild by (apply _ || (apply dns_solid; vm_compute; reflexivity)).
  intros (x & Hx & ->). right. exists (x ++ lit ".api").
  split; [by destruct x|]. rewrite <- app_assoc. reflexivity.
Defined.

(** ** Patterns do not tell upper from lower case *)

Lemma lower_char_eq c x : is_letter c = false -> lower_char x = c <-> x = c.
Proof. unfold lower_char, is_letter. intros Hc. destruct ((65 <=? x) && (x <=? 90))%N eqn:E; lia. Qed.

Lemma lower_cons c s : to_ascii_lowercase (c :: s) = lower_char c :: to_ascii_lowercase s.
Proof. done. Qed.

Lemma lower_space c : is_whitespace (lower_char c) = is_whitespace c.
Proof. unfold lower_char, is_whitespace. destruct ((65 <=? c) && (c <=? 90))%N eqn:E; lia. Qed.

Lemma trim_start_lower s : trim_start (to_ascii_lowercase s) = to_ascii_lowercase (trim_start s).
Proof.
  induction s as [|c s IH]; [done|]. rewrite lower_cons. cbn [trim_start]. rewrite lower_space.
  by destruct (is_whitespace c).
Qed.

Lemma reverse_lower s : reverse (to_ascii_lowercase s) = to_ascii_lowercase (reverse s).
Proof. unfold to_ascii_lowercase. by rewrite fmap_reverse. Qed.

Lemma trim_lower s : trim (to_ascii_lowercase s) = to_ascii_lowercase (trim s).
Proof. unfold trim, trim_end. by rewrite reverse_lower, trim_start_lower, reverse_lower, trim_start_lower. Qed.

Lemma strip_prefix_lower p s :
  forallb (fun c => negb (is_letter c)) p = true ->
  strip_prefix p (to_ascii_lowercase s) = to_ascii_lowercase <$> strip_prefix p s.
Proof.
  revert s. induction p as [|c p IH]; intros s; [done|]. cbn [forallb]. rewrite andb_true_iff, negb_true_iff.
  intros [Hc Hp]. destruct s as [|x s]; [done|]. rewrite lower_cons. cbn [strip_prefix].
  destruct (N.eqb_spec c x) as [<-|Hne].
  - assert (lower_char c = c) as -> by (by apply lower_char_eq). rewrite N.eqb_refl. by apply IH.
  - destruct (N.eqb_spec c (lower_char x)) as [E|_]; [|done].
    symmetry in E. apply (proj1 (lower_char_eq c x Hc)) in E. congruence.
Qed.

Lemma split_once_lower p s :
  forallb (fun c => negb (is_letter c)) p = true ->
  split_once p (to_ascii_lowercase s) = prod_map to_ascii_lowercase to_ascii_lowercase <$> split_once p s.
Proof.
  intros Hp. induction s as [|x s IH].
  - change (to_ascii_lowercase []) with (@nil char). cbn [split_once].
    destruct (strip_prefix p []) as [r|] eqn:E; [|done]. apply strip_prefix_Some in E.
    symmetry in E. by apply app_nil in E as [_ ->].
  - rewrite lower_cons. cbn [split_once]. rewrite <- lower_cons, strip_prefix_lower, IH by done.
    destruct (strip_prefix p (x :: s)); [done|]. by destruct (split_once p s) as [[]|].
Qed.

Lemma starts_with_lower p s :
  forallb (fun c => negb (is_letter c)) p = true -> starts_with p (to_ascii_lowercase s) = starts_with p s.
Proof. intros Hp. unfold starts_with. rewrite strip_prefix_lower by done. by destruct (strip_prefix p s). Qed.

Lemma count_lower c s : is_letter c = false -> count_char c (to_ascii_lowercase s) = count_char c s.
Proof.
  intros Hc. unfold count_char. induction s as [|x s IH]; [done|]. rewrite lower_cons, !filter_cons.
  destruct (decide (x = c)) as [->|Hne].
  - rewrite decide_True by (by apply lower_char_eq). simpl. by rewrite IH.
  - rewrite decide_False by (by rewrite lower_char_eq). done.
Qed.

Lemma split_head_lower c s :
  is_letter c = false ->
  default [] (head (split c (to_ascii_lowercase s))) = to_ascii_lowercase (default [] (head (split c s))).
Proof.
  intros Hc. induction s as [|x s IH]; [done|]. rewrite lower_cons. cbn [split].
  destruct (N.eqb_spec x c) as [->|Hne].
  - assert (lower_char c = c) as -> by (by apply lower_char_eq). by rewrite N.eqb_refl.
  - destruct (N.eqb_spec (lower_char x) c) as [E|_]; [by apply (proj1 (lower_char_eq c x Hc)) in E|].
    destruct (split c (to_ascii_lowercase s)), (split c s); cbn [head default from_option id] in *;
      rewrite ?lower_cons; by f_equal.
Qed.

Lemma dns_or_ip_lower s :
  normalize_dns_host_or_ip_literal (to_ascii_lowercase s) = normalize_dns_host_or_ip_literal s.
Proof. unfold normalize_dns_host_or_ip_literal. by rewrite lower_lower. Qed.

Lemma normalize_host_lower s : normalize_host (to_ascii_lowercase s) = normalize_host s.
Proof.
  unfold normalize_host. rewrite trim_lower, starts_with_lower by done.
  rewrite count_lower, split_head_lower, !dns_or_ip_lower by done.
  destruct (starts_with (lit "[") (trim s)); [|done].
  assert (drop 1 (to_ascii_lowercase (trim s)) = to_ascii_lowercase (drop 1 (trim s))) as ->
    by (by destruct (trim s)).
  rewrite split_once_lower by done.
  destruct (split_once (lit "]") (drop 1 (trim s))) as [[a b]|]; [|done]. apply dns_or_ip_lower.
Qed.

Lemma normalize_pattern_lower p : normalize_pattern (to_ascii_lowercase p) = normalize_pattern p.
Proof.
  unfold normalize_pattern. rewrite trim_lower, !strip_prefix_lower by done.
  assert (str_eqb (to_ascii_lowercase (trim p)) (lit "*") = str_eqb (trim p) (lit "*")) as ->.
  { change (lit "*") with [STAR]. apply eq_iff_eq_true. rewrite !str_eqb_eq.
    destruct (trim p) as [|c [|d l]]; [done| |done]. rewrite lower_cons.
    split; [|by intros [= ->]]. intros [= E]. by apply (proj1 (lower_char_eq STAR c eq_refl)) in E as ->. }
  destruct (str_eqb _ _); [done|].
  destruct (strip_prefix WILDCARD2 (trim p)); cbn [fmap option_fmap option_map]; [by rewrite normalize_host_lower|].
  destruct (strip_prefix WILDCARD1 (trim p)); cbn [fmap option_fmap option_map]; by rewrite normalize_host_lower.
Qed.

(** ** The globs of a compiled set *)

Section compiled.
Context (glob_valid : str -> bool) (glob_match : str -> str -> bool).

Lemma add_globs_spec cs : forall seen set,
  add_globs glob_valid cs seen = Some set -> forall g, g ∈ set <-> g ∈ seen \/ g ∈ cs.
Proof.
  induction cs as [|c cs IH]; intros seen set; cbn [add_globs].
  { intros [= <-]. set_solver. }
  case_bool_decide as Hc.
  - intros E g. rewrite (IH _ _ E). set_solver.
  - destruct (glob_valid c); [|done]. intros E g. rewrite (IH _ _ E). set_solver.
Qed.

Lemma compile_patterns_spec ps w : forall seen set,
  compile_patterns glob_valid ps w seen = Some set ->
  forall g, g ∈ set <-> g ∈ seen \/ exists p, p ∈ ps /\ g ∈ expand_domain_pattern (normalize_pattern p).
Proof.
  induction ps as [|p ps IH]; intros seen set; cbn [compile_patterns].
  { intros [= <-]. set_solver. }
  destruct (_ && _); [done|].
  destruct (add_globs glob_valid _ seen) as [seen'|] eqn:Ea; [|done]. cbn [mbind option_bind].
  intros E g. rewrite (IH _ _ E), (add_globs_spec _ _ _ Ea). set_solver.
Qed.

(** A compiled set matches what one of its patterns matches. *)
Lemma compile_match ps w set h :
  compile_globset_with_policy glob_valid ps w = Some set ->
  globset_is_match glob_match set h = true <-> exists p, p ∈ ps /\ pattern_matches glob_match p h = true.
Proof.
  intros E. unfold pattern_matches, globset_is_match. rewrite existsb_exists. split.
  - intros (g & Hg%list_elem_of_In & Hm).
    apply (compile_patterns_spec _ _ _ _ E) in Hg as [Hg|(p & Hp & Hg)]; [by apply elem_of_nil in Hg|].
    exists p. split; [done|]. apply existsb_exists. exists g. by rewrite <- list_elem_of_In.
  - intros (p & Hp & (g & Hg%list_elem_of_In & Hm)%existsb_exists). exists g.
    split; [|done]. apply list_elem_of_In, (compile_patterns_spec _ _ _ _ E). right. eauto.
Qed.
End compiled.

(** ** Trimming twice *)

Lemma trim_start_solid s c : head (trim_start s) = Some c -> is_whitespace c = false.
Proof.
  induction s as [|x s IH]; [done|]. cbn [trim_start]. destruct (is_whitespace x) eqn:E; [apply IH|].
  by intros [= <-].
Qed.

Lemma trim_edges s : edges_solid (trim s).
Proof.
  split; [intros c; apply trim_start_solid|]. intros c. unfold trim.
  destruct (trim_start_suffix (trim_end s)) as (w & Ew & _).
  assert (last (trim_start (trim_end s)) = Some c -> last (trim_end s) = Some c) as Hl.
  { intros E. rewrite Ew. by rewrite last_app, E. }
  intros E%Hl. unfold trim_end in E. rewrite last_reverse in E. by apply trim_start_solid in E.
Qed.

Lemma trim_idem s : trim (trim s) = trim s.
Proof. apply trim_solid, trim_edges. Qed.

(** ** Entries that are a name *)

Lemma trim_end_matches_star s : exists s', trim_end_matches DOT (STAR :: s) = STAR :: s'.
Proof.
  unfold trim_end_matches. rewrite reverse_cons.
  assert (forall l, exists l', trim_start_matches DOT (l ++ [STAR]) = l' ++ [STAR]) as H.
  { induction l as [|c l [l' IH]]; [by exists []|]. cbn [app trim_start_matches].
    destruct (c =? DOT)%N; [by exists l'|]. by exists (c :: l). }
  destruct (H (reverse s)) as [l' ->]. exists (reverse l'). by rewrite reverse_app.
Qed.

Lemma dns_or_ip_star s : exists s', normalize_dns_host_or_ip_literal (STAR :: s) = STAR :: s'.
Proof.
  unfold normalize_dns_host_or_ip_literal. rewrite lower_cons.
  change (lower_char STAR) with STAR. destruct (trim_end_matches_star (to_ascii_lowercase s)) as [s' ->].
  assert (forall d y, scoped_literal d (STAR :: s') = Some y -> exists y', y = STAR :: y') as Hs.
  { unfold scoped_literal. intros d y. destruct (split_once d (STAR :: s')) as [[ip scope]|] eqn:E; [|done].
    destruct (is_ip ip) eqn:Ei; [|done]. intros [= <-]. apply split_once_parts in E.
    destruct ip as [|c ip]; [by vm_compute in Ei|]. by simplify_eq/=. }
  unfold normalize_ip_literal. destruct (is_ip _); [by eexists|].
  destruct (scoped_literal (lit "%25") _) as [y|] eqn:E1; [by apply Hs in E1|].
  destruct (scoped_literal (lit "%") _) as [y|] eqn:E2; [by apply Hs in E2|]. by eexists.
Qed.

Lemma normalize_host_star e s : trim e = STAR :: s -> exists s', normalize_host e = STAR :: s'.
Proof.
  intros E. unfold normalize_host. rewrite E.
  replace (starts_with (lit "[") (STAR :: s)) with false by done.
  destruct (_ =? _)%nat; [|apply dns_or_ip_star].
  cbn [split]. replace (STAR =? COLON)%N with false by done.
  destruct (split COLON s); apply dns_or_ip_star.
Qed.

Lemma normalize_pattern_name e :
  solid_name (normalize_host e) -> normalize_pattern e = normalize_host e.
Proof.
  intros Hs. unfold normalize_pattern.
  assert (forall s, trim e <> STAR :: s) as Hn.
  { intros s [s' E]%normalize_host_star. rewrite E in Hs.
    apply (solid_not_in STAR _ Hs); [done|]. apply list_elem_of_here. }
  destruct (str_eqb _ _) eqn:E; [apply str_eqb_eq in E; by apply Hn in E|].
  destruct (strip_prefix WILDCARD2 (trim e)) eqn:E2; [apply strip_prefix_Some in E2; by apply Hn in E2|].
  destruct (strip_prefix WILDCARD1 (trim e)) eqn:E1; [apply strip_prefix_Some in E1; by apply Hn in E1|].
  unfold normalize_host at 1. by rewrite trim_idem.
Qed.
