(* ===== verification/NetworkProxy.v ===== *)
(** * The policy of the network proxy ([network-proxy/src/config.rs],
      [state.rs], [runtime.rs], [network_policy.rs])

    The settings and the managed constraints on them, the state that requests are
    judged by, the changes to it, which other tasks may interleave with, and the
    verdict on a host.  What the names resolve to, the matcher of globs, the
    parser of hosts and the interception of TLS are parameters. *)

From S2P Require Export HostPolicy.

(** ** Settings ([config.rs]) *)

Inductive NetworkMode := Limited | Full.
#[export] Instance NetworkMode_eq_dec : EqDecision NetworkMode.
Proof. solve_decision. Defined.

Definition allows_method (mode : NetworkMode) (method : str) : bool :=
  match mode with
  | Full => true
  | Limited => str_eqb method (lit "GET") || str_eqb method (lit "HEAD") || str_eqb method (lit "OPTIONS")
  end.

Inductive NetworkDomainPermission := DomainNone | DomainAllow | DomainDeny.
#[export] Instance NetworkDomainPermission_eq_dec : EqDecision NetworkDomainPermission.
Proof. solve_decision. Defined.

(** The derived order. *)
Definition permission_rank (p : NetworkDomainPermission) : nat :=
  match p with DomainNone => 0 | DomainAllow => 1 | DomainDeny => 2 end.

Record DomainEntry := mk_domain { pattern : str; permission : NetworkDomainPermission }.
#[export] Instance DomainEntry_eq_dec : EqDecision DomainEntry.
Proof. solve_decision. Defined.

Definition effective_step (acc : list str * gmap str NetworkDomainPermission) (entry : DomainEntry)
    : list str * gmap str NetworkDomainPermission :=
  let '(order, effective) := acc in
  match effective !! pattern entry with
  | None => (order ++ [pattern entry], <[pattern entry := permission entry]> effective)
  | Some p =>
    (order, if (permission_rank p <? permission_rank (permission entry))%nat
            then <[pattern entry := permission entry]> effective else effective)
  end.

Definition effective_entries (entries : list DomainEntry) : list DomainEntry :=
  let '(order, effective) := foldl effective_step ([], ∅) entries in
  omap (fun p => mk_domain p <$> effective !! p) order.

Inductive NetworkUnixSocketPermission := SocketAllow | SocketDeny.
#[export] Instance NetworkUnixSocketPermission_eq_dec : EqDecision NetworkUnixSocketPermission.
Proof. solve_decision. Defined.

(** ** The entry that counts *)

Lemma permission_rank_inj p q : permission_rank p = permission_rank q -> p = q.
Proof. by destruct p, q. Qed.

Lemma effective_fold entries :
  let '(order, effective) := foldl effective_step ([], ∅) entries in
  (forall p, p ∈ order <-> is_Some (effective !! p)) /\
  (forall p, effective !! p = None -> forall e, e ∈ entries -> pattern e <> p) /\
  (forall p q, effective !! p = Some q -> mk_domain p q ∈ entries /\
     forall e, e ∈ entries -> pattern e = p -> (permission_rank (permission e) <= permission_rank q)%nat).
Proof.
  induction entries as [|e entries IH] using rev_ind; simpl.
  { split_and!; [intros p; rewrite lookup_empty; split; [by intros ?%elem_of_nil|intros Hx; by destruct Hx]|set_solver|done]. }
  rewrite foldl_app. destruct (foldl effective_step ([], ∅) entries) as [order effective] eqn:Ef.
  cbn [foldl]. destruct IH as (Ho & Hn & Hs). unfold effective_step.
  destruct (effective !! pattern e) as [q|] eqn:Eq.
  - destruct (Nat.ltb_spec (permission_rank q) (permission_rank (permission e))) as [Hlt|Hge].
    + split_and!.
      * intros p. rewrite Ho, lookup_insert_is_Some. split; [|intros [<-|[_ Hp] ]; [by rewrite Eq|done]].
        intros Hp. destruct (decide (pattern e = p)); [by left|by right].
      * intros p [Hp Hne]%lookup_insert_None x [Hx|Hx]%elem_of_app; [by eapply Hn|]. set_solver.
      * intros p r [[<- <-]|[Hne Hp]]%lookup_insert_Some.
        -- split; [destruct e; set_solver|]. destruct (Hs _ _ Eq) as [_ Hmax].
           intros x [Hx|Hx]%elem_of_app Hxp; [specialize (Hmax x Hx Hxp); lia|].
           apply list_elem_of_singleton in Hx as ->. done.
        -- destruct (Hs _ _ Hp) as [H1 H2]. split; [set_solver|]. intros x [Hx|Hx]%elem_of_app Hxp; [by apply H2|].
           apply list_elem_of_singleton in Hx as ->. done.
    + split_and!; [done| |].
      * intros p Hp x [Hx|Hx]%elem_of_app; [by eapply Hn|].
        apply list_elem_of_singleton in Hx as ->. intros <-. congruence.
      * intros p r Hp. destruct (Hs _ _ Hp) as [H1 H2]. split; [set_solver|].
        intros x [Hx|Hx]%elem_of_app Hxp; [by apply H2|].
        apply list_elem_of_singleton in Hx as ->. subst p. rewrite Eq in Hp. by injection Hp as <-.
  - split_and!.
    + intros p. rewrite elem_of_app, Ho, lookup_insert_is_Some, list_elem_of_singleton.
      destruct (decide (pattern e = p)) as [<-|Hne]; [by split; auto|]. split; [intros [Hp| ->]; auto; done|].
      intros [Hp|[_ Hp] ]; auto.
    + intros p [Hp Hne]%lookup_insert_None x [Hx|Hx]%elem_of_app; [by eapply Hn|]. set_solver.
    + intros p r [[<- <-]|[Hne Hp]]%lookup_insert_Some.
      * split; [destruct e; set_solver|]. intros x [Hx|Hx]%elem_of_app Hxp; [by apply (Hn _ Eq) in Hx|].
        apply list_elem_of_singleton in Hx as ->. done.
      * destruct (Hs _ _ Hp) as [H1 H2]. split; [set_solver|]. intros x [Hx|Hx]%elem_of_app Hxp; [by apply H2|].
        apply list_elem_of_singleton in Hx as ->. done.
Qed.

(** Of the entries for one pattern the strictest one counts. *)
Lemma effective_entries_spec entries e :
  e ∈ effective_entries entries <->
  e ∈ entries /\ forall e', e' ∈ entries -> pattern e' = pattern e ->
    (permission_rank (permission e') <= permission_rank (permission e))%nat.
Proof.
  unfold effective_entries. pose proof (effective_fold entries) as H.
  destruct (foldl effective_step ([], ∅) entries) as [order effective]. destruct H as (Ho & Hn & Hs).
  rewrite list_elem_of_omap. split.
  - intros (p & _ & E). destruct (effective !! p) as [q|] eqn:Eq; [|done]. simplify_eq/=. by apply Hs.
  - intros [He Hmax]. exists (pattern e).
    destruct (effective !! pattern e) as [q|] eqn:Eq; [|by destruct (Hn _ Eq e He)].
    split; [apply Ho; by rewrite Eq|]. cbn. f_equal. destruct (Hs _ _ Eq) as [H1 H2].
    assert (q = permission e) as ->; [|by destruct e]. apply permission_rank_inj.
    specialize (Hmax _ H1 eq_refl). specialize (H2 e He eq_refl). cbn [permission] in *. lia.
Qed.

Section proxy.
(** The hooks of the interception. *)
Context {MitmHook : Type} `{!EqDecision MitmHook}.

Record NetworkProxySettings := mk_settings {
  enabled : bool;
  proxy_url : str;
  enable_socks5 : bool;
  socks_url : str;
  enable_socks5_udp : bool;
  allow_upstream_proxy : bool;
  dangerously_allow_non_loopback_proxy : bool;
  dangerously_allow_all_unix_sockets : bool;
  mode : NetworkMode;
  domains : option (list DomainEntry);
  unix_sockets : option (list (str * NetworkUnixSocketPermission));
  allow_local_binding : bool;
  mitm : bool;
  mitm_hooks : list MitmHook
}.
#[export] Instance settings_eq_dec : EqDecision NetworkProxySettings.
Proof. solve_decision. Defined.

Definition domain_entries (s : NetworkProxySettings) (p : NetworkDomainPermission) : option (list str) :=
  match domains s with
  | Some entries =>
    match pattern <$> base.filter (fun e => permission e = p) (effective_entries entries) with
    | [] => None
    | l => Some l
    end
  | None => None
  end.

Definition allowed_domains (s : NetworkProxySettings) : option (list str) := domain_entries s DomainAllow.
Definition denied_domains (s : NetworkProxySettings) : option (list str) := domain_entries s DomainDeny.

Definition allow_unix_sockets (s : NetworkProxySettings) : list str :=
  match unix_sockets s with
  | Some entries => fst <$> base.filter (fun '(_, p) => p = SocketAllow) entries
  | None => []
  end.

Definition set_domains (s : NetworkProxySettings) (d : option (list DomainEntry)) : NetworkProxySettings :=
  mk_settings (enabled s) (proxy_url s) (enable_socks5 s) (socks_url s) (enable_socks5_udp s)
    (allow_upstream_proxy s) (dangerously_allow_non_loopback_proxy s)
    (dangerously_allow_all_unix_sockets s) (mode s) d (unix_sockets s) (allow_local_binding s)
    (mitm s) (mitm_hooks s).

Definition set_mode (s : NetworkProxySettings) (m : NetworkMode) : NetworkProxySettings :=
  mk_settings (enabled s) (proxy_url s) (enable_socks5 s) (socks_url s) (enable_socks5_udp s)
    (allow_upstream_proxy s) (dangerously_allow_non_loopback_proxy s)
    (dangerously_allow_all_unix_sockets s) m (domains s) (unix_sockets s) (allow_local_binding s)
    (mitm s) (mitm_hooks s).

Definition upsert_domain_permission (s : NetworkProxySettings) (host : str)
    (p : NetworkDomainPermission) (normalize : str -> str) : NetworkProxySettings :=
  let entries := default [] (domains s) in
  let normalized_host := normalize host in
  let entries := base.filter (fun e => normalize (pattern e) <> normalized_host) entries in
  set_domains s (Some (entries ++ [mk_domain host p])).

Definition set_domain_entries (s : NetworkProxySettings) (l : list str) (p : NetworkDomainPermission)
    : NetworkProxySettings :=
  let entries := base.filter (fun e => permission e <> p) (default [] (domains s)) in
  let entries :=
    foldl (fun entries x =>
      if existsb (fun e => bool_decide (pattern e = x /\ permission e = p)) entries then entries
      else entries ++ [mk_domain x p]) entries l in
  set_domains s (match entries with [] => None | _ => Some entries end).

Definition set_allowed_domains (s : NetworkProxySettings) (l : list str) : NetworkProxySettings :=
  set_domain_entries s l DomainAllow.
Definition set_denied_domains (s : NetworkProxySettings) (l : list str) : NetworkProxySettings :=
  set_domain_entries s l DomainDeny.

(** Where the proxy listens: an address and a port. *)
Definition clamp_non_loopback (addr : IpAddr * Z) (allow_non_loopback : bool) : IpAddr * Z :=
  if ip_is_loopback addr.1 then addr
  else if allow_non_loopback then addr
  else (V4 127 0 0 1, addr.2).

Definition clamp_bind_addrs (http_addr socks_addr : IpAddr * Z) (cfg : NetworkProxySettings)
    : (IpAddr * Z) * (IpAddr * Z) :=
  let http_addr := clamp_non_loopback http_addr (dangerously_allow_non_loopback_proxy cfg) in
  let socks_addr := clamp_non_loopback socks_addr (dangerously_allow_non_loopback_proxy cfg) in
  if bool_decide (allow_unix_sockets cfg = []) && negb (dangerously_allow_all_unix_sockets cfg)
  then (http_addr, socks_addr)
  else ((V4 127 0 0 1, http_addr.2), (V4 127 0 0 1, socks_addr.2)).

(** ** Managed constraints ([state.rs]) *)

Record NetworkProxyConstraints := mk_constraints {
  c_enabled : option bool;
  c_mode : option NetworkMode;
  c_allow_upstream_proxy : option bool;
  c_allow_non_loopback_proxy : option bool;
  c_allow_all_unix_sockets : option bool;
  c_allowed_domains : option (list str);
  c_allowlist_expansion_enabled : option bool;
  c_denied_domains : option (list str);
  c_denylist_expansion_enabled : option bool;
  c_allow_unix_sockets : option (list str);
  c_allow_local_binding : option bool
}.
#[export] Instance constraints_eq_dec : EqDecision NetworkProxyConstraints.
Proof. solve_decision. Defined.

Definition network_mode_rank (m : NetworkMode) : nat := match m with Limited => 0 | Full => 1 end.

Variable url_host_parse : str -> option str.
Variable glob_valid : str -> bool.
Variable glob_match : str -> str -> bool.
(** [validate_mitm_hook_config] on the flag and the hooks. *)
Variable mitm_hooks_valid : bool -> list MitmHook -> bool.

(** The name of the field that is rejected. *)
Notation constraint_error := str (only parsing).

Definition require (field_name : string) (b : bool) : res constraint_error unit :=
  if b then Ok tt else Err (lit field_name).

Definition validate_non_global_wildcard_domain_patterns (field_name : string) (patterns : list str)
    : res constraint_error unit :=
  require field_name (negb (existsb is_global_wildcard_domain_pattern patterns)).

Definition lower_set (l : list str) : gset str := list_to_set (to_ascii_lowercase <$> l).

(** A flag that managed configuration may only turn off. *)
Definition at_most (max : option bool) (candidate : bool) : bool :=
  match max with Some false => negb candidate | _ => true end.

Definition validate_allowed_domains (expansion : option bool) (managed candidate : list str)
    (denied_domain_overrides : gset str) : bool :=
  match expansion with
  | Some true =>
    forallb (fun e => bool_decide (e ∈ lower_set candidate) || bool_decide (e ∈ denied_domain_overrides))
      (elements (lower_set managed))
  | Some false => bool_decide (lower_set candidate = lower_set managed ∖ denied_domain_overrides)
  | None =>
    let managed_patterns := parse_for_constraints url_host_parse <$> managed in
    forallb (fun entry => existsb (fun m => allows m (parse_for_constraints url_host_parse entry)) managed_patterns)
      candidate
  end.

Definition validate_denied_domains (expansion : option bool) (managed candidate : list str) : bool :=
  match expansion with
  | Some false => bool_decide (lower_set candidate = lower_set managed)
  | _ => forallb (fun e => bool_decide (e ∈ lower_set candidate)) (elements (lower_set managed))
  end.

Definition validate_policy_against_constraints (config : NetworkProxySettings)
    (constraints : NetworkProxyConstraints) : res constraint_error unit :=
  let config_allowed_domains := default [] (allowed_domains config) in
  let config_denied_domains := default [] (denied_domains config) in
  let denied_domain_overrides := lower_set config_denied_domains in
  let? _ := require "network.mitm_hooks" (mitm_hooks_valid (mitm config) (mitm_hooks config)) in
  let? _ := validate_non_global_wildcard_domain_patterns "network.denied_domains" config_denied_domains in
  let? _ := require "network.enabled" (at_most (c_enabled constraints) (enabled config)) in
  let? _ := require "network.mode"
              (match c_mode constraints with
               | Some max_mode => (network_mode_rank (mode config) <=? network_mode_rank max_mode)%nat
               | None => true
               end) in
  let? _ := require "network.allow_upstream_proxy"
              (at_most (c_allow_upstream_proxy constraints) (allow_upstream_proxy config)) in
  let? _ := require "network.dangerously_allow_non_loopback_proxy"
              (at_most (c_allow_non_loopback_proxy constraints) (dangerously_allow_non_loopback_proxy config)) in
  let allow_all_unix_sockets :=
    default (match c_allow_unix_sockets constraints with None => true | Some _ => false end)
      (c_allow_all_unix_sockets constraints) in
  let? _ := require "network.dangerously_allow_all_unix_sockets"
              (negb (dangerously_allow_all_unix_sockets config && negb allow_all_unix_sockets)) in
  let? _ := require "network.allow_local_binding"
              (at_most (c_allow_local_binding constraints) (allow_local_binding config)) in
  let? _ :=
    match c_allowed_domains constraints with
    | Some managed =>
      let? _ := validate_non_global_wildcard_domain_patterns "network.allowed_domains" managed in
      require "network.allowed_domains"
        (validate_allowed_domains (c_allowlist_expansion_enabled constraints) managed
           config_allowed_domains denied_domain_overrides)
    | None => Ok tt
    end in
  let? _ :=
    match c_denied_domains constraints with
    | Some managed =>
      let? _ := validate_non_global_wildcard_domain_patterns "network.denied_domains" managed in
      require "network.denied_domains"
        (validate_denied_domains (c_denylist_expansion_enabled constraints) managed config_denied_domains)
    | None => Ok tt
    end in
  match c_allow_unix_sockets constraints with
  | Some managed =>
    require "network.allow_unix_sockets"
      (forallb (fun entry => bool_decide (to_ascii_lowercase entry ∈ lower_set managed)) (allow_unix_sockets config))
  | None => Ok tt
  end.

(** ** State ([runtime.rs]) *)

Record BlockedRequest := mk_blocked {
  b_host : str;
  b_reason : str;
  b_client : option str;
  b_method : option str;
  b_mode : option NetworkMode;
  b_protocol : str;
  b_decision : option str;
  b_source : option str;
  b_port : option Z;
  b_timestamp : Z
}.

Context {Mitm : Type}.
(** What [compile_mitm_hooks] and [MitmState::new] make of the settings. *)
Variable build_mitm : NetworkProxySettings -> option Mitm.

Record ConfigState := mk_state {
  config : NetworkProxySettings;
  allow_set : list str;
  deny_set : list str;
  mitm_state : Mitm;
  constraints : NetworkProxyConstraints;
  blocked : list BlockedRequest;
  blocked_total : Z
}.

(** On Unix, where [UnixStyleAbsolute] is not reached. *)
Definition validated_unix_socket_path (socket_path : str) : option (list component) :=
  if is_absolute (components socket_path) then from_absolute_path None None socket_path else None.

Definition validate_unix_socket_allowlist_paths (cfg : NetworkProxySettings) : bool :=
  forallb (fun socket_path => bool_decide (is_Some (validated_unix_socket_path socket_path)))
    (allow_unix_sockets cfg).

Definition build_config_state (cfg : NetworkProxySettings) (c : NetworkProxyConstraints)
    : option ConfigState :=
  if validate_unix_socket_allowlist_paths cfg then
    let allowed := default [] (allowed_domains cfg) in
    let denied := default [] (denied_domains cfg) in
    if existsb is_global_wildcard_domain_pattern denied then None
    else
      deny ← compile_denylist_globset glob_valid denied;
      allow ← compile_allowlist_globset glob_valid allowed;
      m ← build_mitm cfg;
      Some (mk_state cfg allow deny m c [] 0)
  else None.

Inductive HostBlockReason := ReasonDenied | ReasonNotAllowed | ReasonNotAllowedLocal.
Inductive HostBlockDecision := HostAllowed | HostBlocked (reason : HostBlockReason).

Definition reason_str (r : HostBlockReason) : str :=
  match r with
  | ReasonDenied => lit "denied"
  | ReasonNotAllowed => lit "not_allowed"
  | ReasonNotAllowedLocal => lit "not_allowed_local"
  end.

(** [lookup_host] within its time limit; [None] is a failure or a timeout. *)
Variable lookup : str -> Z -> option (list IpAddr).

Definition host_resolves_to_non_public_ip (host : str) (port : Z) : bool :=
  match parse_ip host with
  | Some ip => is_non_public_ip ip
  | None =>
    match lookup host port with
    | Some addrs => existsb is_non_public_ip addrs
    | None => true
    end
  end.

(** Whether a host is written as a local address or [localhost]. *)
Definition is_local_literal (host : str) : bool :=
  let host_no_scope := default host (unscoped_ip_literal host) in
  if is_loopback_host host then true
  else match parse_ip host_no_scope with Some ip => is_non_public_ip ip | None => false end.

Definition host_blocked (s : ConfigState) (host : str) (port : Z) : HostBlockDecision :=
  match host_parse host with
  | None => HostBlocked ReasonNotAllowed
  | Some host =>
    let allowed := allowed_domains (config s) in
    if globset_matches_host_or_unscoped glob_match (deny_set s) host then HostBlocked ReasonDenied
    else
      let is_allowlisted := globset_matches_host_or_unscoped glob_match (allow_set s) host in
      let local_block :=
        if negb (allow_local_binding (config s)) then
          if is_local_literal host
          then negb (is_explicit_local_allowlisted (default [] allowed) host)
          else host_resolves_to_non_public_ip host port
        else false in
      if local_block then HostBlocked ReasonNotAllowedLocal
      else match allowed with
           | Some _ => if is_allowlisted then HostAllowed else HostBlocked ReasonNotAllowed
           | None => HostBlocked ReasonNotAllowed
           end
  end.

(** [connect_policy.rs]: the address that is connected to in the end. *)
Definition connect_allowed (s : ConfigState) (addr : IpAddr) : bool :=
  negb (negb (allow_local_binding (config s)) && is_non_public_ip addr).

Variable unix_socket_permissions_supported : bool.
(** [std::fs::canonicalize] *)
Variable canonicalize : list component -> option (list component).

Definition is_unix_socket_allowed (s : ConfigState) (path : str) : bool :=
  if negb unix_socket_permissions_supported then false
  else if negb (is_absolute (components path)) then false
  else if dangerously_allow_all_unix_sockets (config s) then true
  else
    match from_absolute_path None None path with
    | None => false
    | Some requested_abs =>
      let requested_canonical := canonicalize requested_abs in
      existsb (fun allowed =>
        match validated_unix_socket_path allowed with
        | None => false
        | Some allowed_path =>
          bool_decide (allowed_path = requested_abs)
          || match requested_canonical, canonicalize allowed_path with
             | Some r, Some a => bool_decide (a = r)
             | _, _ => false
             end
        end) (allow_unix_sockets (config s))
    end.

Definition MAX_BLOCKED_EVENTS : nat := 200.

Definition set_blocked (s : ConfigState) (l : list BlockedRequest) (total : Z) : ConfigState :=
  mk_state (config s) (allow_set s) (deny_set s) (mitm_state s) (constraints s) l total.

Definition record_blocked (s : ConfigState) (entry : BlockedRequest) : ConfigState :=
  let l := blocked s ++ [entry] in
  set_blocked s (drop (length l - MAX_BLOCKED_EVENTS) l) (Z.min (2 ^ 64 - 1) (blocked_total s + 1)).

Definition drain_blocked (s : ConfigState) : ConfigState * list BlockedRequest :=
  (set_blocked s [] (blocked_total s), blocked s).

Definition force_reload (s new_state : ConfigState) : ConfigState :=
  set_blocked new_state (blocked s) (blocked_total new_state).

Definition replace_config_state (s new_state : ConfigState) : ConfigState :=
  set_blocked new_state (blocked s) (blocked_total s).

(** ** Changes that read first and write later *)

Inductive DomainListKind := ListAllow | ListDeny.

Definition list_permission (k : DomainListKind) : NetworkDomainPermission :=
  match k with ListAllow => DomainAllow | ListDeny => DomainDeny end.
Definition list_entries (k : DomainListKind) (s : NetworkProxySettings) : list str :=
  match k with
  | ListAllow => default [] (allowed_domains s)
  | ListDeny => default [] (denied_domains s)
  end.
Definition opposite_entries (k : DomainListKind) (s : NetworkProxySettings) : list str :=
  match k with
  | ListAllow => default [] (denied_domains s)
  | ListDeny => default [] (allowed_domains s)
  end.

(** What a task holds between its read and its write. *)
Inductive Pending :=
| PendingReload (new_state : ConfigState)
| PendingMode (m : NetworkMode) (seen : NetworkProxyConstraints)
| PendingUpdate (previous_cfg : NetworkProxySettings) (seen : NetworkProxyConstraints) (new_state : ConfigState).

(** [reload_if_needed] with a new state of the reloader *)
Definition reload_read (s new_state : ConfigState) : Pending :=
  PendingReload (set_blocked new_state (blocked s) (blocked_total s)).

Definition set_network_mode_read (s : ConfigState) (m : NetworkMode) : res constraint_error Pending :=
  let? _ := validate_policy_against_constraints (set_mode (config s) m) (constraints s) in
  Ok (PendingMode m (constraints s)).

(** [None]: there is nothing to change. *)
Definition update_domain_list_read (s : ConfigState) (host : str) (target : DomainListKind)
    : res constraint_error (option Pending) :=
  match host_parse host with
  | None => Err (lit "invalid network host")
  | Some normalized_host =>
    let previous_cfg := config s in
    let is_host entry := str_eqb (normalize_host entry) normalized_host in
    if existsb is_host (list_entries target previous_cfg)
       && negb (existsb is_host (opposite_entries target previous_cfg))
    then Ok None
    else
      let candidate :=
        upsert_domain_permission previous_cfg normalized_host (list_permission target) normalize_host in
      let? _ := validate_policy_against_constraints candidate (constraints s) in
      match build_config_state candidate (constraints s) with
      | None => Err (lit "failed to compile updated network list")
      | Some new_state =>
        Ok (Some (PendingUpdate previous_cfg (constraints s)
              (set_blocked new_state (blocked s) (blocked_total s))))
      end
  end.

(** The write; [None] is another round of the loop. *)
Definition write (s : ConfigState) (p : Pending) : option ConfigState :=
  match p with
  | PendingReload new_state => Some new_state
  | PendingMode m seen =>
    if bool_decide (constraints s <> seen) then None
    else Some (mk_state (set_mode (config s) m) (allow_set s) (deny_set s) (mitm_state s) (constraints s)
                 (blocked s) (blocked_total s))
  | PendingUpdate previous_cfg seen new_state =>
    if bool_decide (constraints s <> seen) || bool_decide (config s <> previous_cfg) then None
    else Some new_state
  end.

(** Without interference. *)
Definition set_network_mode (s : ConfigState) (m : NetworkMode) : res constraint_error ConfigState :=
  let? p := set_network_mode_read s m in from_opt (write s p).
Definition update_domain_list (s : ConfigState) (host : str) (target : DomainListKind)
    : res constraint_error ConfigState :=
  let? p := update_domain_list_read s host target in
  match p with Some p => from_opt (write s p) | None => Ok s end.
Definition add_allowed_domain (s : ConfigState) (host : str) : res constraint_error ConfigState :=
  update_domain_list s host ListAllow.
Definition add_denied_domain (s : ConfigState) (host : str) : res constraint_error ConfigState :=
  update_domain_list s host ListDeny.

(** ** The verdict on a request ([network_policy.rs]) *)

Inductive NetworkPolicyDecision := PolicyDeny | PolicyAsk.
Inductive NetworkDecisionSource := BaselinePolicy | ModeGuard | ProxyState | Decider.

Inductive NetworkDecision :=
| NetworkAllow
| NetworkDeny (reason : str) (source : NetworkDecisionSource) (decision : NetworkPolicyDecision).

Definition deny_with_source (reason : str) (source : NetworkDecisionSource) : NetworkDecision :=
  NetworkDeny (match reason with [] => lit "policy_denied" | _ => reason end) source PolicyDeny.

Definition map_decider_decision (decision : NetworkDecision) : NetworkDecision :=
  match decision with
  | NetworkAllow => NetworkAllow
  | NetworkDeny reason _ decision => NetworkDeny reason Decider decision
  end.

(** The decision, and whether it overrides the policy. *)
Definition evaluate_host_policy (s : ConfigState) (decider : option NetworkDecision)
    (host : str) (port : Z) : NetworkDecision * bool :=
  match host_blocked s host port with
  | HostAllowed => (NetworkAllow, false)
  | HostBlocked ReasonNotAllowed =>
    match decider with
    | Some answer =>
      let decision := map_decider_decision answer in
      (decision, match decision with NetworkAllow => true | _ => false end)
    | None => (deny_with_source (reason_str ReasonNotAllowed) BaselinePolicy, false)
    end
  | HostBlocked reason => (deny_with_source (reason_str reason) BaselinePolicy, false)
  end.

Set Default Proof Using "Type".

(** ** What the constraints demand *)

Record within_limits (cfg : NetworkProxySettings) (c : NetworkProxyConstraints) : Prop := {
  wl_hooks : mitm_hooks_valid (mitm cfg) (mitm_hooks cfg) = true;
  wl_denied_scoped : existsb is_global_wildcard_domain_pattern (default [] (denied_domains cfg)) = false;
  wl_enabled : at_most (c_enabled c) (enabled cfg) = true;
  wl_mode : forall max_mode, c_mode c = Some max_mode ->
    (network_mode_rank (mode cfg) <= network_mode_rank max_mode)%nat;
  wl_upstream : at_most (c_allow_upstream_proxy c) (allow_upstream_proxy cfg) = true;
  wl_loopback : at_most (c_allow_non_loopback_proxy c) (dangerously_allow_non_loopback_proxy cfg) = true;
  wl_all_sockets : dangerously_allow_all_unix_sockets cfg = true ->
    default (match c_allow_unix_sockets c with None => true | Some _ => false end)
      (c_allow_all_unix_sockets c) = true;
  wl_local : at_most (c_allow_local_binding c) (allow_local_binding cfg) = true;
  wl_allowed : forall managed, c_allowed_domains c = Some managed ->
    existsb is_global_wildcard_domain_pattern managed = false /\
    validate_allowed_domains (c_allowlist_expansion_enabled c) managed
      (default [] (allowed_domains cfg)) (lower_set (default [] (denied_domains cfg))) = true;
  wl_denied : forall managed, c_denied_domains c = Some managed ->
    existsb is_global_wildcard_domain_pattern managed = false /\
    validate_denied_domains (c_denylist_expansion_enabled c) managed (default [] (denied_domains cfg)) = true;
  wl_sockets : forall managed, c_allow_unix_sockets c = Some managed ->
    forallb (fun entry => bool_decide (to_ascii_lowercase entry ∈ lower_set managed)) (allow_unix_sockets cfg) = true
}.

Lemma require_bind f b (k : res str unit) :
  res_bind (require f b) (fun _ => k) = Ok tt <-> b = true /\ k = Ok tt.
Proof. unfold require. destruct b; simpl; split; [by auto|by intros [_ H]|done|by intros [H _]]. Qed.

Lemma require_ok f b : require f b = Ok tt <-> b = true.
Proof. unfold require. by destruct b. Qed.

Lemma managed_bind (o : option (list str)) (f : list str -> res str unit) (k : res str unit) :
  res_bind (match o with Some m => f m | None => Ok tt end) (fun _ => k) = Ok tt <->
  (forall m, o = Some m -> f m = Ok tt) /\ k = Ok tt.
Proof.
  split.
  - intros H. apply bind_Ok in H as ([] & H & ->). split; [|done]. by intros m ->.
  - intros [H ->]. destruct o as [m|]; [|done]. by rewrite (H m eq_refl).
Qed.

Lemma validate_iff cfg c : validate_policy_against_constraints cfg c = Ok tt <-> within_limits cfg c.
Proof.
  unfold validate_policy_against_constraints, validate_non_global_wildcard_domain_patterns. cbv zeta.
  rewrite !require_bind, !managed_bind. split.
  - intros (H1 & H2 & H3 & H4 & H5 & H6 & H7 & H8 & H9 & H10 & H11). split; try done.
    + by apply negb_true_iff.
    + intros m Em. rewrite Em in H4. by apply Nat.leb_le.
    + intros Ha. rewrite Ha in H7. cbn [andb] in H7. by rewrite negb_involutive in H7.
    + intros m Em. specialize (H9 m Em). rewrite require_bind, require_ok, negb_true_iff in H9. done.
    + intros m Em. specialize (H10 m Em). rewrite require_bind, require_ok, negb_true_iff in H10. done.
    + intros m Em. rewrite Em in H11. by apply require_ok in H11.
  - intros [H1 H2 H3 H4 H5 H6 H7 H8 H9 H10 H11]. split_and!; try done.
    + by apply negb_true_iff.
    + destruct (c_mode c) as [m|]; [|done]. by apply Nat.leb_le, H4.
    + destruct (dangerously_allow_all_unix_sockets cfg); [|done]. rewrite H7 by done. done.
    + intros m Em. rewrite require_bind, require_ok, negb_true_iff. by apply H9.
    + intros m Em. rewrite require_bind, require_ok, negb_true_iff. by apply H10.
    + destruct (c_allow_unix_sockets c) as [m|]; [|done]. apply require_ok. by apply H11.
Qed.

(** ** Tasks that interleave *)

(** The reloader builds its states and checks them. *)
Definition loaded (s : ConfigState) : Prop :=
  exists cfg c, build_config_state cfg c = Some s /\ validate_policy_against_constraints cfg c = Ok tt.

(** The state of the proxy, with what its tasks have read and not written. *)
Inductive step : ConfigState * list Pending -> ConfigState * list Pending -> Prop :=
| step_reload_read s ps new_state :
    loaded new_state -> step (s, ps) (s, reload_read s new_state :: ps)
| step_mode_read s ps m p :
    set_network_mode_read s m = Ok p -> step (s, ps) (s, p :: ps)
| step_update_read s ps host target p :
    update_domain_list_read s host target = Ok (Some p) -> step (s, ps) (s, p :: ps)
| step_write s ps1 p ps2 s' :
    write s p = Some s' -> step (s, ps1 ++ p :: ps2) (s', ps1 ++ ps2)
| step_retry s ps1 p ps2 :
    write s p = None -> step (s, ps1 ++ p :: ps2) (s, ps1 ++ ps2)
| step_replace s ps new_state :
    loaded new_state -> step (s, ps) (replace_config_state s new_state, ps)
| step_force_reload s ps new_state :
    loaded new_state -> step (s, ps) (force_reload s new_state, ps)
| step_record s ps entry : step (s, ps) (record_blocked s entry, ps)
| step_drain s ps : step (s, ps) ((drain_blocked s).1, ps).

Definition reachable (s : ConfigState) (ps : list Pending) : Prop :=
  exists s0, loaded s0 /\ rtc step (s0, []) (s, ps).

(** The compiled sets are those of the settings, which keep to the constraints. *)
Definition consistent (s : ConfigState) : Prop :=
  compile_denylist_globset glob_valid (default [] (denied_domains (config s))) = Some (deny_set s) /\
  compile_allowlist_globset glob_valid (default [] (allowed_domains (config s))) = Some (allow_set s) /\
  within_limits (config s) (constraints s).

Definition proxy_ok (s : ConfigState) : Prop :=
  consistent s /\ (length (blocked s) <= MAX_BLOCKED_EVENTS)%nat.

Definition pending_ok (p : Pending) : Prop :=
  match p with
  | PendingReload new_state => proxy_ok new_state
  | PendingMode m seen =>
    forall max_mode, c_mode seen = Some max_mode -> (network_mode_rank m <= network_mode_rank max_mode)%nat
  | PendingUpdate _ seen new_state => proxy_ok new_state /\ constraints new_state = seen
  end.

Lemma build_consistent cfg c s :
  build_config_state cfg c = Some s -> within_limits cfg c ->
  consistent s /\ config s = cfg /\ constraints s = c /\ blocked s = [].
Proof.
  unfold build_config_state. destruct (validate_unix_socket_allowlist_paths cfg); [|done].
  destruct (existsb _ _); [done|].
  destruct (compile_denylist_globset _ _) as [deny|] eqn:Ed; [|done].
  destruct (compile_allowlist_globset _ _) as [allow|] eqn:Ea; [|done].
  cbn [mbind option_bind]. destruct (build_mitm cfg) as [mi|]; [|done]. cbn [mbind option_bind].
  intros [= <-] Hw. by split_and!.
Qed.

Lemma loaded_ok s : loaded s -> consistent s /\ blocked s = [].
Proof. intros (cfg & c & E & Hv%validate_iff). by destruct (build_consistent _ _ _ E Hv) as (? & _ & _ & ?). Qed.

Lemma set_blocked_ok s l total :
  consistent s -> (length l <= MAX_BLOCKED_EVENTS)%nat -> proxy_ok (set_blocked s l total).
Proof. by split. Qed.

Lemma within_set_mode cfg c m :
  within_limits cfg c ->
  (forall max_mode, c_mode c = Some max_mode -> (network_mode_rank m <= network_mode_rank max_mode)%nat) ->
  within_limits (set_mode cfg m) c.
Proof. intros [] Hm. by split. Qed.

Lemma write_ok s p s' : proxy_ok s -> pending_ok p -> write s p = Some s' -> proxy_ok s'.
Proof.
  intros [(Hd & Ha & Hw) Hl] Hp. destruct p as [n|m seen|prev seen n]; cbn [write pending_ok] in *.
  - by intros [= <-].
  - case_bool_decide as Hc; [done|]. subst seen. intros [= <-].
    split; [|done]. split_and!; [done|done|]. by apply within_set_mode.
  - destruct (_ || _); [done|]. intros [= <-]. by destruct Hp.
Qed.

Lemma update_read_ok s host target p :
  proxy_ok s -> update_domain_list_read s host target = Ok (Some p) -> pending_ok p.
Proof.
  intros [_ Hl]. unfold update_domain_list_read. destruct (host_parse host) as [h|]; [|done].
  destruct (_ && _); [done|]. intros ([] & Hv%validate_iff & E)%bind_Ok.
  destruct (build_config_state _ _) as [n|] eqn:Eb; [|done]. injection E as <-.
  destruct (build_consistent _ _ _ Eb Hv) as (Hc & _ & Hcc & _). split; [|done].
  by apply set_blocked_ok.
Qed.

Lemma step_ok s ps s' ps' :
  step (s, ps) (s', ps') -> proxy_ok s -> Forall pending_ok ps -> proxy_ok s' /\ Forall pending_ok ps'.
Proof.
  clear lookup. intros Hstep Hs Hps. pose proof Hs as [Hc Hl]. inversion Hstep; subst; clear Hstep.
  - split; [done|]. constructor; [|done]. apply set_blocked_ok; [by apply loaded_ok|done].
  - split; [done|]. constructor; [|done].
    match goal with H : set_network_mode_read _ _ = Ok _ |- _ =>
      apply bind_Ok in H as ([] & Hv%validate_iff & [= <-]) end.
    cbn [pending_ok]. apply (wl_mode _ _ Hv).
  - split; [done|]. constructor; [|done]. by eapply update_read_ok.
  - apply Forall_app in Hps as [H1 H2]. apply Forall_cons in H2 as [Hp H2].
    split; [by eapply write_ok|by apply Forall_app].
  - apply Forall_app in Hps as [H1 H2]. apply Forall_cons in H2 as [Hp H2].
    split; [done|by apply Forall_app].
  - split; [|done]. apply set_blocked_ok; [by apply loaded_ok|done].
  - split; [|done]. apply set_blocked_ok; [by apply loaded_ok|done].
  - split; [|done]. apply set_blocked_ok; [done|]. rewrite length_drop. lia.
  - split; [|done]. apply set_blocked_ok; [done|simpl; lia].
Qed.

Lemma reachable_ok s ps : reachable s ps -> proxy_ok s /\ Forall pending_ok ps.
Proof.
  intros (s0 & [Hc Eb]%loaded_ok & Hr).
  assert (forall x y, rtc step x y -> proxy_ok x.1 /\ Forall pending_ok x.2 -> proxy_ok y.1 /\ Forall pending_ok y.2)
    as Hall.
  { induction 1 as [x|[s1 l1] [s2 l2] y Hxz _ IH]; [done|]. intros [H1 H2]. apply IH. by eapply step_ok. }
  apply (Hall _ _ Hr). split; [|done]. split; [done|]. cbn [fst]. rewrite Eb. simpl. lia.
Qed.

(** C32: managed constraints hold whatever the tasks of the proxy do.  Reloads,
    changes of the mode and of the domain lists read the state first and write it
    later, with anything in between; every state that is reached keeps to the
    constraints it carries, its compiled sets are those of its settings, and the
    log of blocked requests stays bounded. *)
Theorem managed_limits_hold s ps :
  reachable s ps ->
  within_limits (config s) (constraints s) /\ consistent s /\ (length (blocked s) <= MAX_BLOCKED_EVENTS)%nat.
Proof. intros [[Hc Hl] _]%reachable_ok. by destruct Hc as (? & ? & ?). Qed.

(** ** What is denied stays denied *)

Lemma denied_entry s d managed :
  within_limits (config s) (constraints s) ->
  c_denied_domains (constraints s) = Some managed -> d ∈ managed ->
  exists e, e ∈ default [] (denied_domains (config s)) /\ to_ascii_lowercase e = to_ascii_lowercase d.
Proof.
  intros Hw Hm Hd. destruct (wl_denied _ _ Hw _ Hm) as [_ Hv].
  assert (to_ascii_lowercase d ∈ lower_set managed) as Hd'.
  { apply elem_of_list_to_set, list_elem_of_fmap. eauto. }
  assert (to_ascii_lowercase d ∈ lower_set (default [] (denied_domains (config s)))) as Hin.
  { unfold validate_denied_domains in Hv.
    destruct (c_denylist_expansion_enabled _) as [[]|]; [|by apply bool_decide_eq_true in Hv as ->|];
      rewrite forallb_forall in Hv; eapply bool_decide_eq_true, Hv, list_elem_of_In, elem_of_elements, Hd'. }
  apply elem_of_list_to_set, list_elem_of_fmap in Hin as (e & E & He). by exists e.
Qed.

Lemma denied_blocks s host h port e :
  consistent s -> host_parse host = Some h -> e ∈ default [] (denied_domains (config s)) ->
  pattern_matches glob_match e h = true -> host_blocked s host port = HostBlocked ReasonDenied.
Proof.
  intros (Hd & _ & _) Hh He Hm. unfold host_blocked. rewrite Hh.
  unfold globset_matches_host_or_unscoped.
  rewrite (proj2 (compile_match glob_valid glob_match _ _ _ h Hd)) by eauto. done.
Qed.

(** C34: a managed denial is final.  In every state that is reached, a request for
    a host that a managed denied pattern matches is denied by the policy itself,
    before anybody is asked, whatever the other lists say. *)
Theorem managed_denials_final s ps managed d host h port decider :
  reachable s ps -> c_denied_domains (constraints s) = Some managed -> d ∈ managed ->
  host_parse host = Some h -> pattern_matches glob_match d h = true ->
  evaluate_host_policy s decider host port = (NetworkDeny (lit "denied") BaselinePolicy PolicyDeny, false).
Proof.
  intros [[Hc _] _]%reachable_ok Hm Hd Hh Hp.
  destruct (denied_entry s d managed) as (e & He & Ee); [apply Hc|done..|].
  assert (pattern_matches glob_match e h = true) as Hpe.
  { unfold pattern_matches in *. by rewrite <- normalize_pattern_lower, Ee, normalize_pattern_lower. }
  unfold evaluate_host_policy. by rewrite (denied_blocks s host h port e).
Qed.

(** ** What is let through *)

(** A host or the address in it without its scope. *)
Definition matches_one (patterns : list str) (h : str) : Prop :=
  exists p x, p ∈ patterns /\ (x = h \/ unscoped_ip_literal h = Some x) /\ pattern_matches glob_match p x = true.

Lemma globset_matches_iff ps w set h :
  compile_globset_with_policy glob_valid ps w = Some set ->
  globset_matches_host_or_unscoped glob_match set h = true <-> matches_one ps h.
Proof.
  intros E. unfold globset_matches_host_or_unscoped, matches_one. rewrite orb_true_iff.
  rewrite (compile_match _ _ _ _ _ _ E). split.
  - intros [(p & Hp & Hm)|H]; [by exists p, h; auto|].
    destruct (unscoped_ip_literal h) as [x|]; [|done].
    apply (compile_match _ _ _ _ _ _ E) in H as (p & Hp & Hm). exists p, x; auto.
  - intros (p & x & Hp & [->|Hx] & Hm); [left; eauto|right].
    rewrite Hx. apply (compile_match _ _ _ _ _ _ E). eauto.
Qed.

(** The host is an address that is not special, or a name all of whose
    addresses are not. *)
Definition public_target (h : str) (port : Z) : Prop :=
  match parse_ip h with
  | Some ip => special_address ip = false
  | None => exists addrs, lookup h port = Some addrs /\
              Forall (fun ip => ip_ok ip -> special_address ip = false) addrs
  end.

Lemma resolves_public h port : host_resolves_to_non_public_ip h port = false -> public_target h port.
Proof.
  unfold host_resolves_to_non_public_ip, public_target. destruct (parse_ip h) as [ip|] eqn:E.
  - intros Hf. by rewrite <- non_public_spec by (by eapply parse_ip_ok).
  - destruct (lookup h port) as [addrs|]; [|done]. intros Hf. exists addrs. split; [done|].
    apply Forall_forall. intros ip Hin Hok. rewrite <- non_public_spec by done.
    apply not_true_is_false. intros Ht. rewrite <- not_true_iff_false, existsb_exists in Hf.
    apply Hf. exists ip. by rewrite <- list_elem_of_In.
Qed.

(** What it takes for a request to go through.  No denied pattern matches the
    host; an allowed pattern does, or the decider has let it through; and unless
    local binding is on, the host is a local address that is listed as such, or
    a public one, with every address it resolves to. *)
Theorem allowed_request_justified s ps decider host h port :
  reachable s ps -> host_parse host = Some h ->
  (evaluate_host_policy s decider host port).1 = NetworkAllow ->
  ~ matches_one (default [] (denied_domains (config s))) h /\
  (matches_one (default [] (allowed_domains (config s))) h \/ decider = Some NetworkAllow) /\
  (allow_local_binding (config s) = true \/
   (is_local_literal h = true /\
    is_explicit_local_allowlisted (default [] (allowed_domains (config s))) h = true) \/
   (is_local_literal h = false /\ public_target h port)).
Proof.
  intros [[(Hd & Ha & _) _] _]%reachable_ok Hh. unfold evaluate_host_policy, host_blocked. rewrite Hh.
  rewrite <- (globset_matches_iff _ _ _ _ Hd), <- (globset_matches_iff _ _ _ _ Ha).
  destruct (globset_matches_host_or_unscoped glob_match (deny_set s) h); [done|].
  destruct (if negb (allow_local_binding (config s)) then _ else false) eqn:El; [done|].
  intros Hok. split_and!; [done| |].
  - destruct (allowed_domains (config s)); [|right].
    + destruct (globset_matches_host_or_unscoped glob_match (allow_set s) h); [by left|right].
      destruct decider as [[]|]; done.
    + destruct decider as [[]|]; done.
  - destruct (allow_local_binding (config s)); [by left|right]. cbn [negb] in El.
    destruct (is_local_literal h); [left|right].
    + split; [done|]. by apply negb_false_iff in El.
    + split; [done|]. by apply resolves_public.
Qed.

(** ** What a managed allowlist means *)

(** A domain name, on its own or with one of the wildcards. *)
Definition name_pattern (p : str) : Prop := exists w d, p = wild_prefix w ++ d /\ dns_name d = true.

Lemma allowed_matches s host h port :
  consistent s -> host_parse host = Some h -> host_blocked s host port = HostAllowed ->
  matches_one (default [] (allowed_domains (config s))) h.
Proof.
  intros (_ & Ha & _) Hh. unfold host_blocked. rewrite Hh.
  rewrite <- (globset_matches_iff _ _ _ _ Ha). destruct (globset_matches_host_or_unscoped _ (deny_set s) h); [done|].
  destruct (if negb _ then _ else false); [done|]. destruct (allowed_domains (config s)); [|done].
  by destruct (globset_matches_host_or_unscoped _ (allow_set s) h).
Qed.

Lemma lower_set_elem (l : list str) x : x ∈ lower_set l -> exists q, q ∈ l /\ to_ascii_lowercase q = x.
Proof. unfold lower_set. intros (q & -> & Hq)%elem_of_list_to_set%list_elem_of_fmap. by exists q. Qed.

Lemma pattern_matches_lower p q x :
  to_ascii_lowercase p = to_ascii_lowercase q -> pattern_matches glob_match p x = pattern_matches glob_match q x.
Proof. intros E. unfold pattern_matches. by rewrite <- (normalize_pattern_lower p), E, normalize_pattern_lower. Qed.

(** Every entry that passes the check against a managed list that users may not
    extend is covered by an entry of the list. *)
Lemma valid_entry_covered `{!UrlHostLaws url_host_parse, !GlobLaws glob_match} expansion managed candidate overrides p x :
  validate_allowed_domains expansion managed candidate overrides = true -> expansion <> Some true ->
  (expansion = None -> Forall name_pattern managed /\ Forall name_pattern candidate) ->
  p ∈ candidate -> pattern_matches glob_match p x = true ->
  exists q, q ∈ managed /\ pattern_matches glob_match q x = true.
Proof.
  intros Hv He Hn Hp Hm. destruct expansion as [[|]|]; [done|..]; cbn [validate_allowed_domains] in Hv.
  - apply bool_decide_eq_true in Hv.
    assert (to_ascii_lowercase p ∈ lower_set candidate) as Hl
      by (unfold lower_set; apply elem_of_list_to_set, list_elem_of_fmap; by exists p).
    rewrite Hv in Hl. apply elem_of_difference in Hl as [(q & Hq & Eq)%lower_set_elem _].
    exists q. split; [done|]. by rewrite (pattern_matches_lower q p).
  - destruct (Hn eq_refl) as [Hnm Hnc]. rewrite forallb_forall in Hv.
    specialize (Hv p (proj1 (list_elem_of_In _ _) Hp)).
    apply existsb_exists in Hv as (m & (q & -> & Hq)%list_elem_of_In%list_elem_of_fmap & Hall).
    exists q. split; [done|]. rewrite !Forall_forall in *.
    destruct (Hnm q Hq) as (wm & dm & -> & Hdm). destruct (Hnc p Hp) as (wc & dc & -> & Hdc).
    by apply (proj1 (allows_exact url_host_parse glob_match wm dm wc dc Hdm Hdc) Hall).
Qed.

(** C33: the managed allowlist bounds what the policy lets through.  When managed
    configuration lists the allowed domains and does not let users extend the list
    ([allowlist_expansion_enabled] is not [Some true]), then in every state that
    is reached a host that the policy allows is one that a managed entry matches.
    When the setting is absent, so that entries of the user need only be covered,
    all entries must be domain names, with or without a wildcard. *)
Theorem allowed_within_managed `{!UrlHostLaws url_host_parse, !GlobLaws glob_match} s ps managed host h port :
  reachable s ps -> c_allowed_domains (constraints s) = Some managed ->
  c_allowlist_expansion_enabled (constraints s) <> Some true ->
  (c_allowlist_expansion_enabled (constraints s) = None ->
   Forall name_pattern managed /\ Forall name_pattern (default [] (allowed_domains (config s)))) ->
  host_parse host = Some h -> host_blocked s host port = HostAllowed -> matches_one managed h.
Proof.
  intros [[Hc _] _]%reachable_ok Hm He Hn Hh Hb.
  destruct (allowed_matches _ _ _ _ Hc Hh Hb) as (p & x & Hp & Hx & Hpm).
  destruct Hc as (_ & _ & Hw). destruct (wl_allowed _ _ Hw _ Hm) as [_ Hv].
  destruct (valid_entry_covered _ _ _ _ p x Hv He Hn Hp Hpm) as (q & Hq & Hqm). by exists q, x.
Qed.

(** ** Denied entries *)

Lemma domain_entries_elem s p x :
  x ∈ default [] (domain_entries s p) <-> exists l, domains s = Some l /\ mk_domain x p ∈ effective_entries l.
Proof.
  unfold domain_entries. destruct (domains s) as [l|].
  - assert (x ∈ (pattern <$> base.filter (fun e => permission e = p) (effective_entries l)) <->
            mk_domain x p ∈ effective_entries l) as H.
    { rewrite list_elem_of_fmap. split.
      - intros (e & -> & [<- He]%list_elem_of_filter). by destruct e.
      - intros He. exists (mk_domain x p). split; [done|]. by apply list_elem_of_filter. }
    destruct (_ <$> _) as [|y l'] eqn:E; cbn [default from_option id]; rewrite H;
      (split; [by exists l|by intros (? & [= <-] & He)]).
  - cbn. split; [by intros ?%elem_of_nil|by intros (? & ? & _)].
Qed.

Lemma upsert_denied s h n : h ∈ default [] (denied_domains (upsert_domain_permission s h DomainDeny n)).
Proof.
  apply domain_entries_elem. eexists. split; [done|]. apply effective_entries_spec.
  split; [apply elem_of_app; right; apply list_elem_of_here|].
  intros e' _ _. cbn [permission]. destruct (permission e'); cbn; auto.
Qed.

(** ** Denying a domain *)

Lemma pattern_matches_name `{!GlobLaws glob_match} e h :
  normalize_host e = h -> solid_name h -> to_ascii_lowercase h = h -> pattern_matches glob_match e h = true.
Proof.
  intros He Hs Hl. unfold pattern_matches. rewrite normalize_pattern_name by (by rewrite He). rewrite He.
  pose proof (expand_wild OnlyName h Hs) as E. cbn [wild_prefix wild_globs] in E. change ([] ++ h) with h in E.
  rewrite E. cbn [globset_is_match existsb]. rewrite orb_false_r. by apply glob_name.
Qed.

Lemma host_parse_normalized host h : host_parse host = Some h -> h = normalize_host host.
Proof. unfold host_parse. by destruct (normalize_host host); intros [= <-]. Qed.

(** Denying a domain takes effect.  Once [add_denied_domain] has succeeded for
    a domain name, requests for it are denied, also when it was on the list of
    allowed domains before. *)
Theorem denied_domain_blocked `{!GlobLaws glob_match} s ps host h port s' :
  reachable s ps -> host_parse host = Some h -> solid_name h -> to_ascii_lowercase h = h ->
  add_denied_domain s host = Ok s' -> host_blocked s' host port = HostBlocked ReasonDenied.
Proof.
  intros [[Hc _] _]%reachable_ok Hh Hs Hl. unfold add_denied_domain, update_domain_list.
  intros (p & Hread & Hw)%bind_Ok. unfold update_domain_list_read in Hread. rewrite Hh in Hread.
  destruct (_ && _) eqn:Ein.
  - injection Hread as <-. injection Hw as <-. apply andb_true_iff in Ein as [Hin _].
    apply existsb_exists in Hin as (e & He%list_elem_of_In & Een%str_eqb_eq).
    apply (denied_blocks s host h port e); [done..|]. by apply pattern_matches_name.
  - apply bind_Ok in Hread as ([] & Hv%validate_iff & Hb).
    destruct (build_config_state _ _) as [n|] eqn:Eb; [|done]. injection Hb as <-.
    destruct (build_consistent _ _ _ Eb Hv) as (Hcn & Hcfg & _ & _).
    cbn [write] in Hw. rewrite !bool_decide_eq_false_2 in Hw by auto. injection Hw as <-.
    apply (denied_blocks _ host h port h); [done|done| |].
    + cbn [set_blocked config]. rewrite Hcfg. apply upsert_denied.
    + apply pattern_matches_name; [|done..]. by rewrite normalize_host_solid.
Qed.

(** ** The log of blocked requests *)

(** A request that is recorded while a change of the lists is under way is lost:
    the write checks that the settings and the constraints are as they were, and
    puts back the log as it was read. *)
Lemma recorded_request_lost s host target p entry :
  update_domain_list_read s host target = Ok (Some p) ->
  exists s', write (record_blocked s entry) p = Some s' /\ blocked s' = blocked s /\
    blocked_total s' = blocked_total s.
Proof.
  unfold update_domain_list_read. destruct (host_parse host) as [h|]; [|done].
  destruct (_ && _); [done|]. intros ([] & _ & E)%bind_Ok.
  destruct (build_config_state _ _) as [n|]; [|done]. injection E as <-.
  cbn [write record_blocked set_blocked constraints config]. rewrite !bool_decide_eq_false_2 by auto.
  by eexists.
Qed.

(** A forced reload starts the count of blocked requests anew and keeps their log. *)
Lemma forced_reload_forgets_total s new_state :
  loaded new_state ->
  blocked (force_reload s new_state) = blocked s /\ blocked_total (force_reload s new_state) = 0.
Proof.
  intros (cfg & c & E & _). split; [done|]. cbn [force_reload set_blocked blocked_total].
  unfold build_config_state in E. destruct (validate_unix_socket_allowlist_paths cfg); [|done].
  destruct (existsb _ _); [done|]. destruct (compile_denylist_globset _ _); [|done].
  destruct (compile_allowlist_globset _ _); [|done]. cbn [mbind option_bind] in E.
  destruct (build_mitm cfg); [|done]. by injection E as <-.
Qed.

(** ** Where the proxy listens *)

(** A proxy that opens sockets of the machine is never reachable from outside, and
    one that does not is only with the dangerous setting. *)
Lemma bind_addrs_local http socks cfg :
  let '(h, s) := clamp_bind_addrs http socks cfg in
  (ip_is_loopback h.1 = true /\ ip_is_loopback s.1 = true) \/
  (dangerously_allow_non_loopback_proxy cfg = true /\ allow_unix_sockets cfg = [] /\
   dangerously_allow_all_unix_sockets cfg = false).
Proof.
  unfold clamp_bind_addrs, clamp_non_loopback. destruct (_ && negb _) eqn:E; [|by left].
  apply andb_true_iff in E as [E1%bool_decide_eq_true E2%negb_true_iff].
  destruct (dangerously_allow_non_loopback_proxy cfg); [by right|left].
  split; [destruct (ip_is_loopback http.1) eqn:El|destruct (ip_is_loopback socks.1) eqn:El]; done.
Qed.
End proxy.

(** ** A run *)

Definition any_glob (_ : str) : bool := true.
Definition hooks_ok (_ : bool) (_ : list unit) : bool := true.
Definition no_mitm (_ : @NetworkProxySettings unit) : option unit := Some tt.
Definition demo_lookup (_ : str) (_ : Z) : option (list IpAddr) := Some [V4 93 184 216 34].

Definition demo_settings : @NetworkProxySettings unit :=
  mk_settings true (lit "http://127.0.0.1:3128") true (lit "http://127.0.0.1:8081") true true false false Limited
    (Some [mk_domain (lit "*.example.com") DomainAllow; mk_domain (lit "Ads.Example.com") DomainDeny;
           mk_domain (lit "api.example.com") DomainAllow])
    None false false [].

Definition demo_constraints : NetworkProxyConstraints :=
  mk_constraints (Some true) (Some Limited) None None None (Some [lit "**.example.com"]) None
    (Some [lit "ads.example.com"]) None None (Some false).

Definition demo_state : ConfigState :=
  mk_state demo_settings [lit "?*.example.com"; lit "api.example.com"] [lit "ads.example.com"] tt
    demo_constraints [] 0.

Definition demo_entry : BlockedRequest :=
  mk_blocked (lit "a.example") (lit "not_allowed") None None None (lit "http") None None None 0.

#[local] Notation demo_reachable := (reachable demo_url_host any_glob hooks_ok no_mitm).
#[local] Notation demo_deny s host := (add_denied_domain demo_url_host any_glob hooks_ok no_mitm s host).
#[local] Notation demo_evaluate := (evaluate_host_policy demo_glob demo_lookup).

Lemma demo_loaded : loaded demo_url_host any_glob hooks_ok no_mitm demo_state.
Proof. exists demo_settings, demo_constraints. split; by vm_compute. Qed.

Lemma demo_start : demo_reachable demo_state [].
Proof. exists demo_state. split; [apply demo_loaded|done]. Qed.

(** A task reads the mode, another records a request, and the first one writes. *)
Definition demo_written : ConfigState := record_blocked demo_state demo_entry.

Lemma demo_steps : demo_reachable demo_written [].
Proof.
  exists demo_state. split; [apply demo_loaded|].
  eapply rtc_l; [eapply (step_mode_read _ _ _ _ demo_state [] Limited); by vm_compute|].
  eapply rtc_l; [apply step_record|].
  eapply rtc_l; [|apply rtc_refl].
  apply (step_write _ _ _ _ _ [] (PendingMode Limited demo_constraints) []). by vm_compute.
Qed.

Example demo_verdicts :
  (demo_evaluate demo_state None (lit "www.EXAMPLE.com:443") 443).1 = NetworkAllow /\
  (demo_evaluate demo_state (Some NetworkAllow) (lit "ads.example.com") 443).1
    = NetworkDeny (lit "denied") BaselinePolicy PolicyDeny /\
  (demo_evaluate demo_state (Some NetworkAllow) (lit "[::1]") 443).1
    = NetworkDeny (lit "not_allowed_local") BaselinePolicy PolicyDeny /\
  (demo_evaluate demo_state (Some NetworkAllow) (lit "rust-lang.org") 443) = (NetworkAllow, true) /\
  (demo_evaluate demo_state None (lit "rust-lang.org") 443).1
    = NetworkDeny (lit "not_allowed") BaselinePolicy PolicyDeny.
Proof. vm_compute. done. Qed.

Lemma managed_limits_hold_witness :
  demo_reachable demo_written [] /\
  within_limits demo_url_host hooks_ok (config demo_written) (constraints demo_written).
Proof.
  pose proof demo_steps as H. split; [exact H|].
  exact (proj1 (managed_limits_hold demo_url_host any_glob hooks_ok no_mitm demo_written [] H)).
Defined.

Lemma managed_denials_final_witness :
  demo_evaluate demo_written (Some NetworkAllow) (lit "ADS.example.com") 443
    = (NetworkDeny (lit "denied") BaselinePolicy PolicyDeny, false).
Proof.
  apply (managed_denials_final demo_url_host any_glob demo_glob hooks_ok no_mitm demo_lookup demo_written []
    [lit "ads.example.com"] (lit "ads.example.com") (lit "ADS.example.com") (lit "ads.example.com") 443
    (Some NetworkAllow)); [exact demo_steps|vm_compute; reflexivity|apply list_elem_of_here|vm_compute; reflexivity..].
Defined.

Lemma allowed_request_justified_witness :
  ~ matches_one demo_glob (default [] (denied_domains (config demo_state))) (lit "www.example.com") /\
  (allow_local_binding (config demo_state) = true \/
   (is_local_literal (lit "www.example.com") = true /\
    is_explicit_local_allowlisted (default [] (allowed_domains (config demo_state))) (lit "www.example.com") = true) \/
   (is_local_literal (lit "www.example.com") = false /\ public_target demo_lookup (lit "www.example.com") 443)).
Proof.
  destruct (allowed_request_justified demo_url_host any_glob demo_glob hooks_ok no_mitm demo_lookup demo_state []
    None (lit "www.example.com") (lit "www.example.com") 443) as (H1 & _ & H3);
    [exact demo_start|vm_compute; reflexivity..|].
  split; [exact H1|exact H3].
Defined.

Lemma allowed_within_managed_witness :
  matches_one demo_glob [lit "**.example.com"] (lit "www.example.com").
Proof.
  assert (forall w d, dns_name d = true -> name_pattern (wild_prefix w ++ d)) as Hn by (intros w d H; by exists w, d).
  apply (allowed_within_managed demo_url_host any_glob demo_glob hooks_ok no_mitm demo_lookup demo_state []
    [lit "**.example.com"] (lit "www.example.com") (lit "www.example.com") 443);
    [exact demo_start|vm_compute; reflexivity|vm_compute; discriminate| |vm_compute; reflexivity..].
  intros _. split.
  - repeat constructor. apply (Hn NameAndSubdomains (lit "example.com")). vm_compute. reflexivity.
  - change (default [] _) with [lit "*.example.com"; lit "api.example.com"]. repeat constructor.
    + apply (Hn OnlySubdomains (lit "example.com")). vm_compute. reflexivity.
    + apply (Hn OnlyName (lit "api.example.com")). vm_compute. reflexivity.
Defined.

Lemma denied_domain_blocked_witness :
  exists s', demo_deny demo_state (lit "API.example.com") = Ok s' /\
    host_blocked demo_glob demo_lookup s' (lit "API.example.com") 443 = HostBlocked ReasonDenied.
Proof.
  eexists. split; [vm_compute; reflexivity|].
  eapply (denied_domain_blocked demo_url_host any_glob demo_glob hooks_ok no_mitm demo_lookup demo_state []
    (lit "API.example.com") (lit "api.example.com") 443).
  - exact demo_start.
  - vm_compute. reflexivity.
  - apply dns_solid. vm_compute. reflexivity.
  - vm_compute. reflexivity.
  - vm_compute. reflexivity.
Defined.
