(* ===== verification/TextArea.v ===== *)
(** * The edit buffer of the composer

    [tui/src/bottom_pane/textarea.rs]: the text the user is typing, the cursor, the
    atomic elements (placeholders such as an attached image or a large paste) that
    edits must move or delete whole, and the single-entry kill buffer.

    Positions are byte offsets into UTF-8 text.  The buffer keeps them on character
    boundaries and outside the elements; an offset that is not makes [String]'s
    operations panic, which the model keeps as the outcome [Panic].  Lengths are
    those of a string in memory, so that sums of offsets stay below [usize::MAX] and
    natural numbers stand for them.  Grapheme and word segmentation and display
    widths come from the [unicode-segmentation] and [unicode-width] crates and are a
    class of operations with their documented laws. *)

From S2P Require Import Prelude RustStr AbsPath.
From Stdlib Require Import ZifyBool.

(** ** Strings by byte offset *)

Definition is_char_boundary (s : str) (n : nat) : bool :=
  match byte_split s (Z.of_nat n) with Some _ => true | None => false end.

(** [&s[..n]] and [&s[n..]] *)
Definition str_to (s : str) (n : nat) : option str := fst <$> byte_split s (Z.of_nat n).
Definition str_from (s : str) (n : nat) : option str := snd <$> byte_split s (Z.of_nat n).

(** [s.get(a..b)], and a panic for [&s[a..b]] *)
Definition str_slice (s : str) (a b : nat) : option str :=
  if a <=? b then p ← str_to s b; str_from p a else None.

(** [String::insert_str] *)
Definition str_insert (s : str) (n : nat) (t : str) : option str :=
  p ← str_to s n; r ← str_from s n; Some (p ++ t ++ r).

(** [String::replace_range] *)
Definition str_replace_range (s : str) (a b : nat) (t : str) : option str :=
  if a <=? b then p ← str_to s a; r ← str_from s b; Some (p ++ t ++ r)
  else None.

Fixpoint char_indices_from (off : nat) (s : str) : list (nat * char) :=
  match s with
  | [] => []
  | c :: s' => (off, c) :: char_indices_from (off + len_utf8 c) s'
  end.
Definition char_indices : str -> list (nat * char) := char_indices_from 0.

(** [s.char_indices().find(..)] and [s.char_indices().rev().find(..)] *)
Definition find_char (p : char -> bool) (s : str) : option (nat * char) :=
  List.find (fun ic => p ic.2) (char_indices s).
Definition rfind_char (p : char -> bool) (s : str) : option (nat * char) :=
  List.find (fun ic => p ic.2) (rev (char_indices s)).

Definition is_newline (c : char) : bool := (c =? NL)%N.
Definition not_whitespace (c : char) : bool := negb (is_whitespace c).

(** ** Data *)

Record Range := mk_range { r_start : nat; r_end : nat }.

Record TextElement := mk_element {
  element_id : Z;
  element_range : Range;
  element_name : option str
}.

Definition e_start (e : TextElement) : nat := r_start (element_range e).
Definition e_end (e : TextElement) : nat := r_end (element_range e).
Definition with_range (e : TextElement) (r : Range) : TextElement :=
  mk_element (element_id e) r (element_name e).

Record UserTextElement := mk_user_element {
  byte_range : Range;
  placeholder : option str
}.

Record TextElementSnapshot := mk_snapshot {
  snapshot_id : Z;
  snapshot_range : Range;
  snapshot_text : str
}.

Record WrapCache := mk_wrap_cache { wrap_width : Z; wrap_lines : list Range }.

Inductive KillBufferKind := Characterwise | Linewise.

Inductive VimMode := Normal | Insert.
Inductive VimOperator := Delete | Yank | Change.
Inductive VimTextObjectScope := Inner | Around.
Inductive VimPending :=
| NoPending
| PendingOperator (op : VimOperator)
| PendingTextObject (operator : VimOperator) (scope : VimTextObjectScope).

Record TextArea := mk_text_area {
  text : str;
  cursor_pos : nat;
  wrap_cache : option WrapCache;
  preferred_col : option nat;
  elements : list TextElement;
  next_element_id : Z;
  kill_buffer : str;
  kill_buffer_kind : KillBufferKind;
  vim_enabled : bool;
  vim_mode : VimMode;
  vim_pending : VimPending
}.

Definition new_text_area : TextArea :=
  mk_text_area [] 0 None None [] 1 [] Characterwise false Insert NoPending.

Definition set_text (ta : TextArea) (s : str) : TextArea :=
  mk_text_area s (cursor_pos ta) (wrap_cache ta) (preferred_col ta) (elements ta) (next_element_id ta)
    (kill_buffer ta) (kill_buffer_kind ta) (vim_enabled ta) (vim_mode ta) (vim_pending ta).
Definition set_cursor_pos (ta : TextArea) (p : nat) : TextArea :=
  mk_text_area (text ta) p (wrap_cache ta) (preferred_col ta) (elements ta) (next_element_id ta)
    (kill_buffer ta) (kill_buffer_kind ta) (vim_enabled ta) (vim_mode ta) (vim_pending ta).
Definition set_wrap_cache (ta : TextArea) (c : option WrapCache) : TextArea :=
  mk_text_area (text ta) (cursor_pos ta) c (preferred_col ta) (elements ta) (next_element_id ta)
    (kill_buffer ta) (kill_buffer_kind ta) (vim_enabled ta) (vim_mode ta) (vim_pending ta).
Definition set_preferred_col (ta : TextArea) (c : option nat) : TextArea :=
  mk_text_area (text ta) (cursor_pos ta) (wrap_cache ta) c (elements ta) (next_element_id ta)
    (kill_buffer ta) (kill_buffer_kind ta) (vim_enabled ta) (vim_mode ta) (vim_pending ta).
Definition set_elements (ta : TextArea) (es : list TextElement) : TextArea :=
  mk_text_area (text ta) (cursor_pos ta) (wrap_cache ta) (preferred_col ta) es (next_element_id ta)
    (kill_buffer ta) (kill_buffer_kind ta) (vim_enabled ta) (vim_mode ta) (vim_pending ta).
Definition set_next_id (ta : TextArea) (n : Z) : TextArea :=
  mk_text_area (text ta) (cursor_pos ta) (wrap_cache ta) (preferred_col ta) (elements ta) n
    (kill_buffer ta) (kill_buffer_kind ta) (vim_enabled ta) (vim_mode ta) (vim_pending ta).
Definition store_kill_buffer (ta : TextArea) (s : str) (kind : KillBufferKind) : TextArea :=
  mk_text_area (text ta) (cursor_pos ta) (wrap_cache ta) (preferred_col ta) (elements ta)
    (next_element_id ta) s kind (vim_enabled ta) (vim_mode ta) (vim_pending ta).
Definition set_vim (ta : TextArea) (enabled : bool) (m : VimMode) (p : VimPending) : TextArea :=
  mk_text_area (text ta) (cursor_pos ta) (wrap_cache ta) (preferred_col ta) (elements ta)
    (next_element_id ta) (kill_buffer ta) (kill_buffer_kind ta) enabled m p.

(** Methods that can panic. *)
Notation M := (res Empty_set).

(** ** Clamping positions *)

(** [while prev > 0 && !is_char_boundary(prev) { prev -= 1 }] *)
Fixpoint prev_char_boundary (s : str) (prev : nat) : nat :=
  match prev with
  | O => O
  | S p => if is_char_boundary s prev then prev else prev_char_boundary s p
  end.

(** [while next < len && !is_char_boundary(next) { next += 1 }], with
    [left = len - next] *)
Fixpoint next_char_boundary (s : str) (next left : nat) : nat :=
  match left with
  | O => next
  | S l => if is_char_boundary s next then next else next_char_boundary s (S next) l
  end.

Definition clamp_pos_to_char_boundary (ta : TextArea) (pos : nat) : nat :=
  let s := text ta in
  let pos := Nat.min pos (str_len s) in
  if is_char_boundary s pos then pos
  else
    let prev := prev_char_boundary s pos in
    let next := next_char_boundary s pos (str_len s - pos) in
    if pos - prev <=? next - pos then prev else next.

(** [self.elements.iter().position(..)] followed by [&self.elements[idx]] *)
Definition find_element (ta : TextArea) (p : TextElement -> bool) : option TextElement :=
  List.find p (elements ta).

Definition find_element_containing (ta : TextArea) (pos : nat) : option TextElement :=
  find_element ta (fun e => (e_start e <? pos) && (pos <? e_end e)).

Definition clamp_pos_to_nearest_boundary (ta : TextArea) (pos : nat) : nat :=
  let pos := clamp_pos_to_char_boundary ta pos in
  match find_element_containing ta pos with
  | Some e =>
    let dist_start := pos - e_start e in
    let dist_end := e_end e - pos in
    if dist_start <=? dist_end then clamp_pos_to_char_boundary ta (e_start e)
    else clamp_pos_to_char_boundary ta (e_end e)
  | None => pos
  end.

Definition clamp_pos_for_insertion (ta : TextArea) (pos : nat) : nat :=
  let pos := clamp_pos_to_char_boundary ta pos in
  match find_element_containing ta pos with
  | Some e =>
    let dist_start := pos - e_start e in
    let dist_end := e_end e - pos in
    if dist_start <=? dist_end then clamp_pos_to_char_boundary ta (e_start e)
    else clamp_pos_to_char_boundary ta (e_end e)
  | None => pos
  end.

(** ** Widening a range to whole elements *)

Definition intersects (e : TextElement) (r : Range) : bool :=
  (e_start e <? r_end r) && (r_start r <? e_end e).

Definition expand_step (st : Range * bool) (e : TextElement) : Range * bool :=
  let '(range, changed) := st in
  if intersects e range then
    let new_start := Nat.min (r_start range) (e_start e) in
    let new_end := Nat.max (r_end range) (e_end e) in
    if negb (new_start =? r_start range) || negb (new_end =? r_end range)
    then (mk_range new_start new_end, true)
    else (range, changed)
  else (range, changed).

Fixpoint expand_loop (fuel : nat) (es : list TextElement) (range : Range) : M Range :=
  match fuel with
  | O => NoFuel
  | S fuel =>
    let '(range, changed) := fold_left expand_step es (range, false) in
    if changed then expand_loop fuel es range else Ok range
  end.

Definition expand_range_to_element_boundaries (ta : TextArea) (range : Range) : M Range :=
  expand_loop (S (length (elements ta))) (elements ta) range.

(** ** Moving the elements with an edit *)

Definition shift_element (at_ removed inserted : nat) (e : TextElement) : TextElement :=
  let end_ := at_ + removed in
  if e_end e <=? at_ then e
  else if end_ <=? e_start e then
    with_range e (mk_range (e_start e + inserted - removed) (e_end e + inserted - removed))
  else
    with_range e (mk_range (Nat.min at_ (e_start e)) (at_ + Nat.max inserted (e_end e - end_))).

Definition retain {A} (p : A -> bool) (l : list A) : list A := List.filter p l.

Definition shift_elements (ta : TextArea) (at_ removed inserted : nat) : TextArea :=
  let end_ := at_ + removed in
  set_elements ta
    (shift_element at_ removed inserted <$>
       retain (fun e => negb ((at_ <=? e_start e) && (e_end e <=? end_))) (elements ta)).

Definition update_elements_after_replace (ta : TextArea) (start end_ inserted_len : nat) : TextArea :=
  shift_elements ta start (end_ - start) inserted_len.

(** [sort_by_key(|e| e.range.start)], which is stable *)
Fixpoint insert_by_range_start (e : TextElement) (l : list TextElement) : list TextElement :=
  match l with
  | [] => [e]
  | x :: l' => if e_start e <=? e_start x then e :: l else x :: insert_by_range_start e l'
  end.
Definition sort_elements (l : list TextElement) : list TextElement := foldr insert_by_range_start [] l.

(** ** Whole-buffer replacement, insertion and replacement *)

Definition U64_MAX : Z := 2 ^ 64 - 1.

(** [next_element_id()], the method *)
Definition take_element_id (ta : TextArea) : TextArea * Z :=
  (set_next_id ta (Z.min U64_MAX (next_element_id ta + 1)), next_element_id ta).

Definition set_text_element (ta : TextArea) (elem : UserTextElement) : TextArea :=
  let start := Nat.min (r_start (byte_range elem)) (str_len (text ta)) in
  let end_ := Nat.min (r_end (byte_range elem)) (str_len (text ta)) in
  let start := clamp_pos_to_char_boundary ta start in
  let end_ := clamp_pos_to_char_boundary ta end_ in
  if end_ <=? start then ta
  else
    let '(ta, id) := take_element_id ta in
    set_elements ta (elements ta ++ [mk_element id (mk_range start end_) None]).

Definition set_text_inner (ta : TextArea) (s : str) (elems : option (list UserTextElement)) : TextArea :=
  let ta := set_text ta s in
  let ta := set_cursor_pos ta (Nat.min (cursor_pos ta) (str_len s)) in
  let ta := set_elements ta [] in
  let ta :=
    match elems with
    | Some elems =>
      let ta := fold_left set_text_element elems ta in
      set_elements ta (sort_elements (elements ta))
    | None => ta
    end in
  let ta := set_cursor_pos ta (clamp_pos_to_nearest_boundary ta (cursor_pos ta)) in
  set_preferred_col (set_wrap_cache ta None) None.

Definition set_text_clearing_elements (ta : TextArea) (s : str) : TextArea := set_text_inner ta s None.

Definition set_text_with_elements (ta : TextArea) (s : str) (elems : list UserTextElement) : TextArea :=
  set_text_inner ta s (Some elems).

Definition insert_str_at (ta : TextArea) (pos : nat) (s : str) : M TextArea :=
  let pos := clamp_pos_for_insertion ta pos in
  let? new_text := from_opt (str_insert (text ta) pos s) in
  let ta := set_wrap_cache (set_text ta new_text) None in
  let ta := if pos <=? cursor_pos ta then set_cursor_pos ta (cursor_pos ta + str_len s) else ta in
  let ta := shift_elements ta pos 0 (str_len s) in
  Ok (set_preferred_col ta None).

Definition insert_str (ta : TextArea) (s : str) : M TextArea := insert_str_at ta (cursor_pos ta) s.

Definition replace_range_raw (ta : TextArea) (range : Range) (s : str) : M TextArea :=
  if r_end range <? r_start range then Panic
  else
    let start := Nat.min (r_start range) (str_len (text ta)) in
    let end_ := Nat.min (r_end range) (str_len (text ta)) in
    let removed_len := end_ - start in
    let inserted_len := str_len s in
    if (removed_len =? 0) && (inserted_len =? 0) then Ok ta
    else
      let? new_text := from_opt (str_replace_range (text ta) (r_start range) (r_end range) s) in
      let ta := set_preferred_col (set_wrap_cache (set_text ta new_text) None) None in
      let ta := update_elements_after_replace ta start end_ inserted_len in
      let cursor :=
        if cursor_pos ta <? start then cursor_pos ta
        else if cursor_pos ta <=? end_ then start + inserted_len
        else cursor_pos ta + inserted_len - removed_len in
      let ta := set_cursor_pos ta (Nat.min cursor (str_len (text ta))) in
      Ok (set_cursor_pos ta (clamp_pos_to_nearest_boundary ta (cursor_pos ta))).

Definition replace_range (ta : TextArea) (range : Range) (s : str) : M TextArea :=
  let? range := expand_range_to_element_boundaries ta range in
  replace_range_raw ta range s.

Definition set_cursor (ta : TextArea) (pos : nat) : TextArea :=
  let ta := set_cursor_pos ta (Nat.min pos (str_len (text ta))) in
  let ta := set_cursor_pos ta (clamp_pos_to_nearest_boundary ta (cursor_pos ta)) in
  set_preferred_col ta None.

Definition is_empty (ta : TextArea) : bool := match text ta with [] => true | _ => false end.

(** ** Lines *)

Definition beginning_of_line (ta : TextArea) (pos : nat) : M nat :=
  let? prefix := from_opt (str_to (text ta) pos) in
  Ok (match rfind_char is_newline prefix with Some (i, _) => i + 1 | None => 0 end).

Definition beginning_of_current_line (ta : TextArea) : M nat := beginning_of_line ta (cursor_pos ta).

Definition end_of_line (ta : TextArea) (pos : nat) : M nat :=
  let? suffix := from_opt (str_from (text ta) pos) in
  Ok (match find_char is_newline suffix with Some (i, _) => i + pos | None => str_len (text ta) end).

Definition end_of_current_line (ta : TextArea) : M nat := end_of_line ta (cursor_pos ta).

Definition first_non_blank_of_current_line (ta : TextArea) : M nat :=
  let? bol := beginning_of_current_line ta in
  let? eol := end_of_current_line ta in
  let? line := from_opt (str_slice (text ta) bol eol) in
  Ok (match find_char not_whitespace line with Some (offset, _) => bol + offset | None => eol end).

Definition current_line_range_with_newline (ta : TextArea) : M Range :=
  let? bol := beginning_of_current_line ta in
  let? eol := end_of_current_line ta in
  Ok (mk_range bol (if eol <? str_len (text ta) then eol + 1 else eol)).

(** ** The kill buffer *)

Definition kill_range_with_kind (ta : TextArea) (range : Range) (kind : KillBufferKind) : M TextArea :=
  let? range := expand_range_to_element_boundaries ta range in
  if r_end range <=? r_start range then Ok ta
  else
    let? removed := from_opt (str_slice (text ta) (r_start range) (r_end range)) in
    match removed with
    | [] => Ok ta
    | _ => replace_range_raw (store_kill_buffer ta removed kind) range []
    end.

Definition kill_range (ta : TextArea) (range : Range) : M TextArea :=
  kill_range_with_kind ta range Characterwise.
Definition kill_line_range (ta : TextArea) (range : Range) : M TextArea :=
  kill_range_with_kind ta range Linewise.

Definition yank_range_with_kind (ta : TextArea) (range : Range) (kind : KillBufferKind) : M TextArea :=
  let? range := expand_range_to_element_boundaries ta range in
  if r_end range <=? r_start range then Ok ta
  else
    let? removed := from_opt (str_slice (text ta) (r_start range) (r_end range)) in
    match removed with
    | [] => Ok ta
    | _ => Ok (store_kill_buffer ta removed kind)
    end.

Definition yank_range (ta : TextArea) (range : Range) : M TextArea :=
  yank_range_with_kind ta range Characterwise.
Definition yank_line_range (ta : TextArea) (range : Range) : M TextArea :=
  yank_range_with_kind ta range Linewise.

Definition yank (ta : TextArea) : M TextArea :=
  match kill_buffer ta with
  | [] => Ok ta
  | s => insert_str ta s
  end.

Definition kill_to_end_of_line (ta : TextArea) : M TextArea :=
  let? eol := end_of_current_line ta in
  let range :=
    if cursor_pos ta =? eol then
      if eol <? str_len (text ta) then Some (mk_range (cursor_pos ta) (eol + 1)) else None
    else Some (mk_range (cursor_pos ta) eol) in
  match range with Some range => kill_range ta range | None => Ok ta end.

Definition vim_kill_to_end_of_line (ta : TextArea) : M TextArea :=
  let? eol := end_of_current_line ta in
  if cursor_pos ta <? eol then kill_range ta (mk_range (cursor_pos ta) eol) else Ok ta.

Definition kill_to_beginning_of_line (ta : TextArea) : M TextArea :=
  let? bol := beginning_of_current_line ta in
  let range :=
    if cursor_pos ta =? bol then
      if 0 <? bol then Some (mk_range (bol - 1) bol) else None
    else Some (mk_range bol (cursor_pos ta)) in
  match range with Some range => kill_range ta range | None => Ok ta end.

Definition yank_current_line (ta : TextArea) : M TextArea :=
  let? range := current_line_range_with_newline ta in
  yank_line_range ta range.

Definition kill_current_line (ta : TextArea) : M TextArea :=
  let? range := current_line_range_with_newline ta in
  kill_line_range ta range.

Definition paste_line_after_current_line (ta : TextArea) : M TextArea :=
  let? eol := end_of_current_line ta in
  let more := eol <? str_len (text ta) in
  let insert_at := if more then eol + 1 else eol in
  let cursor := if more then insert_at else insert_at + 1 in
  let s :=
    if more then
      if ends_with [NL] (kill_buffer ta) then kill_buffer ta else kill_buffer ta ++ [NL]
    else NL :: trim_end_matches NL (kill_buffer ta) in
  let? ta := insert_str_at ta insert_at s in
  Ok (set_cursor ta (Nat.min cursor (str_len (text ta)))).

(** ** Segmentation

    The operations of the [unicode-segmentation] and [unicode-width] crates that the
    buffer calls.  [prev_boundary] and [next_boundary] are those of a
    [GraphemeCursor] over the whole text ([None] is an incomplete chunk, [Some None]
    the end of the text). *)
Class Segmentation := {
  prev_boundary : str -> nat -> option (option nat);
  next_boundary : str -> nat -> option (option nat);
  split_word_bounds : str -> list str;
  graphemes : str -> list str;
  width : str -> nat
}.

(** Their documented behaviour: boundaries of graphemes are boundaries of characters
    strictly before or after the position, an end of the text is reported only there,
    and the segments of a text, none of them empty, are the text. *)
Class SegmentationLaws `{Segmentation} : Prop := {
  prev_boundary_law s p : is_char_boundary s p = true -> 0 < p ->
    exists b, prev_boundary s p = Some (Some b) /\ is_char_boundary s b = true /\ b < p;
  next_boundary_law s p : is_char_boundary s p = true -> p < str_len s ->
    exists b, next_boundary s p = Some (Some b) /\ is_char_boundary s b = true /\ p < b;
  word_bounds_law s : concat (split_word_bounds s) = s;
  word_bounds_nonempty s : Forall (fun g => g <> []) (split_word_bounds s);
  graphemes_law s : concat (graphemes s) = s
}.

Definition WORD_SEPARATORS : str :=
  lit "`~!@#$%^&*()-=+[{]}\|;:'" ++ [DQUOTE] ++ lit ",.<>/?".

Definition is_word_separator (ch : char) : bool := bool_decide (ch ∈ WORD_SEPARATORS).

Section segmentation.
Context `{Segmentation}.

(** The inner loop of [split_word_pieces]; [off] is [segment_start + piece_start] and
    [piece] the slice from [piece_start] to the current character. *)
Fixpoint split_segment (off : nat) (piece : str) (in_separator : bool) (chars : str) : list (nat * str) :=
  match chars with
  | [] => [(off, piece)]
  | ch :: chars =>
    if Bool.eqb (is_word_separator ch) in_separator then split_segment off (piece ++ [ch]) in_separator chars
    else (off, piece) :: split_segment (off + str_len piece) [ch] (is_word_separator ch) chars
  end.

Fixpoint split_segments (segment_start : nat) (segments : list str) : list (nat * str) :=
  match segments with
  | [] => []
  | segment :: segments =>
    (match segment with
     | [] => []
     | first_char :: chars => split_segment segment_start [first_char] (is_word_separator first_char) chars
     end) ++ split_segments (segment_start + str_len segment) segments
  end.

Definition split_word_pieces (run : str) : list (nat * str) := split_segments 0 (split_word_bounds run).

(** ** Atomic steps *)

Definition prev_atomic_boundary (ta : TextArea) (pos : nat) : nat :=
  if pos =? 0 then 0
  else match find_element ta (fun e => (e_start e <? pos) && (pos <=? e_end e)) with
       | Some e => e_start e
       | None =>
         match prev_boundary (text ta) pos with
         | Some (Some b) =>
           match find_element_containing ta b with Some e => e_start e | None => b end
         | Some None => 0
         | None => pos - 1
         end
       end.

Definition next_atomic_boundary (ta : TextArea) (pos : nat) : nat :=
  if str_len (text ta) <=? pos then str_len (text ta)
  else match find_element ta (fun e => (e_start e <=? pos) && (pos <? e_end e)) with
       | Some e => e_end e
       | None =>
         match next_boundary (text ta) pos with
         | Some (Some b) =>
           match find_element_containing ta b with Some e => e_end e | None => b end
         | Some None => str_len (text ta)
         | None => pos + 1
         end
       end.

Definition move_cursor_left (ta : TextArea) : TextArea :=
  set_preferred_col (set_cursor_pos ta (prev_atomic_boundary ta (cursor_pos ta))) None.

Definition move_cursor_right (ta : TextArea) : TextArea :=
  set_preferred_col (set_cursor_pos ta (next_atomic_boundary ta (cursor_pos ta))) None.

(** [for _ in 0..n { target = prev(target); if target == 0 { break } }] *)
Fixpoint step_back (ta : TextArea) (n target : nat) : nat :=
  match n with
  | O => target
  | S n =>
    let target := prev_atomic_boundary ta target in
    if target =? 0 then target else step_back ta n target
  end.

Fixpoint step_forward (ta : TextArea) (n target : nat) : nat :=
  match n with
  | O => target
  | S n =>
    let target := next_atomic_boundary ta target in
    if str_len (text ta) <=? target then target else step_forward ta n target
  end.

Definition delete_backward (ta : TextArea) (n : nat) : M TextArea :=
  if (n =? 0) || (cursor_pos ta =? 0) then Ok ta
  else replace_range ta (mk_range (step_back ta n (cursor_pos ta)) (cursor_pos ta)) [].

Definition delete_forward (ta : TextArea) (n : nat) : M TextArea :=
  if (n =? 0) || (str_len (text ta) <=? cursor_pos ta) then Ok ta
  else replace_range ta (mk_range (cursor_pos ta) (step_forward ta n (cursor_pos ta))) [].

Definition delete_forward_kill (ta : TextArea) (n : nat) : M TextArea :=
  if (n =? 0) || (str_len (text ta) <=? cursor_pos ta) then Ok ta
  else kill_range ta (mk_range (cursor_pos ta) (step_forward ta n (cursor_pos ta))).

Definition paste_after_cursor (ta : TextArea) : M TextArea :=
  match kill_buffer ta with
  | [] => Ok ta
  | s =>
    match kill_buffer_kind ta with
    | Linewise => paste_line_after_current_line ta
    | Characterwise => insert_str (set_cursor ta (next_atomic_boundary ta (cursor_pos ta))) s
    end
  end.

(** ** Words *)

Definition adjust_pos_out_of_elements (ta : TextArea) (pos : nat) (prefer_start : bool) : nat :=
  match find_element_containing ta pos with
  | Some e => if prefer_start then e_start e else e_end e
  | None => pos
  end.

(** The loops that swallow the neighbouring pieces made of separators. *)
Fixpoint extend_start (run_start start : nat) (pieces : list (nat * str)) : nat :=
  match pieces with
  | [] => start
  | (idx, piece) :: pieces =>
    if forallb is_word_separator piece then extend_start run_start (run_start + idx) pieces else start
  end.

Fixpoint extend_end (base end_ : nat) (pieces : list (nat * str)) : nat :=
  match pieces with
  | [] => end_
  | (idx, piece) :: pieces =>
    if forallb is_word_separator piece then extend_end base (base + idx + str_len piece) pieces else end_
  end.

Definition beginning_of_previous_word (ta : TextArea) : M nat :=
  let? prefix := from_opt (str_to (text ta) (cursor_pos ta)) in
  match rfind_char not_whitespace prefix with
  | None => Ok 0
  | Some (first_non_ws_idx, ch) =>
    let? head := from_opt (str_to prefix first_non_ws_idx) in
    let run_start :=
      match rfind_char is_whitespace head with Some (idx, ch) => idx + len_utf8 ch | None => 0 end in
    let run_end := first_non_ws_idx + len_utf8 ch in
    let? run := from_opt (str_slice prefix run_start run_end) in
    match rev (split_word_pieces run) with
    | [] => Ok run_start
    | (piece_start, piece) :: pieces =>
      let start := run_start + piece_start in
      let start := if forallb is_word_separator piece then extend_start run_start start pieces else start in
      Ok (adjust_pos_out_of_elements ta start true)
    end
  end.

Definition end_of_next_word_from (ta : TextArea) (cursor_pos : nat) : M nat :=
  let? suffix := from_opt (str_from (text ta) cursor_pos) in
  match find_char not_whitespace suffix with
  | None => Ok (str_len (text ta))
  | Some (first_non_ws, _) =>
    let? run := from_opt (str_from suffix first_non_ws) in
    let run_len := match find_char is_whitespace run with Some (i, _) => i | None => str_len run end in
    let? run := from_opt (str_to run run_len) in
    match split_word_pieces run with
    | [] => Ok (cursor_pos + first_non_ws)
    | (start, piece) :: pieces =>
      let word_start := cursor_pos + first_non_ws + start in
      let end_ := word_start + str_len piece in
      let end_ :=
        if forallb is_word_separator piece then extend_end (cursor_pos + first_non_ws) end_ pieces else end_ in
      Ok (adjust_pos_out_of_elements ta end_ false)
    end
  end.

Definition end_of_next_word (ta : TextArea) : M nat := end_of_next_word_from ta (cursor_pos ta).

Definition beginning_of_next_word (ta : TextArea) : M nat :=
  let? suffix := from_opt (str_from (text ta) (cursor_pos ta)) in
  match find_char not_whitespace suffix with
  | None => Ok (str_len (text ta))
  | Some (first_non_ws, _) =>
    let word_start := cursor_pos ta + first_non_ws in
    if negb (word_start =? cursor_pos ta) then Ok (adjust_pos_out_of_elements ta word_start true)
    else
      let? end_ := end_of_next_word ta in
      if str_len (text ta) <=? end_ then Ok (str_len (text ta))
      else
        let? rest := from_opt (str_from (text ta) end_) in
        match find_char not_whitespace rest with
        | None => Ok (str_len (text ta))
        | Some (next_non_ws, _) => Ok (adjust_pos_out_of_elements ta (end_ + next_non_ws) true)
        end
  end.

Definition delete_backward_word (ta : TextArea) : M TextArea :=
  let? start := beginning_of_previous_word ta in
  kill_range ta (mk_range start (cursor_pos ta)).

Definition delete_forward_word (ta : TextArea) : M TextArea :=
  let? end_ := end_of_next_word ta in
  if cursor_pos ta <? end_ then kill_range ta (mk_range (cursor_pos ta) end_) else Ok ta.

(** ** Vertical and line movement *)

(** [partition_point(|r| r.start <= pos)] of lines ordered by their start *)
Fixpoint partition_point (pos : nat) (lines : list Range) : nat :=
  match lines with
  | [] => 0
  | r :: lines => if r_start r <=? pos then S (partition_point pos lines) else 0
  end.

Definition wrapped_line_index_by_start (lines : list Range) (pos : nat) : option nat :=
  match partition_point pos lines with O => None | S idx => Some idx end.

(** The loop over [grapheme_indices]: the offset of the first grapheme that goes
    beyond the column. *)
Fixpoint column_offset (i width_so_far target_col : nat) (gs : list str) : option nat :=
  match gs with
  | [] => None
  | g :: gs =>
    let width_so_far := width_so_far + width g in
    if target_col <? width_so_far then Some i
    else column_offset (i + str_len g) width_so_far target_col gs
  end.

Definition move_to_display_col_on_line (ta : TextArea) (line_start line_end target_col : nat) : M TextArea :=
  let? line := from_opt (str_slice (text ta) line_start line_end) in
  let pos :=
    match column_offset 0 0 target_col (graphemes line) with
    | Some i => line_start + i
    | None => line_end
    end in
  let ta := set_cursor_pos ta pos in
  Ok (set_cursor_pos ta (clamp_pos_to_nearest_boundary ta (cursor_pos ta))).

Definition current_display_col (ta : TextArea) : M nat :=
  let? bol := beginning_of_current_line ta in
  let? prefix := from_opt (str_slice (text ta) bol (cursor_pos ta)) in
  Ok (width prefix).

(** The column and the neighbouring line that the wrapping cache gives, when there is
    one and the cursor is on a line of it. *)
Definition wrapped_target (ta : TextArea) (neighbour : nat -> option nat)
  : M (option (nat * option (nat * nat))) :=
  match wrap_cache ta with
  | None => Ok None
  | Some cache =>
    let lines := wrap_lines cache in
    match wrapped_line_index_by_start lines (cursor_pos ta) with
    | None => Ok None
    | Some idx =>
      let? cur_range := from_opt (lines !! idx) in
      let? target_col :=
        match preferred_col ta with
        | Some c => Ok c
        | None =>
          let? prefix := from_opt (str_slice (text ta) (r_start cur_range) (cursor_pos ta)) in
          Ok (width prefix)
        end in
      match neighbour idx with
      | Some j =>
        let? line := from_opt (lines !! j) in
        Ok (Some (target_col, Some (r_start line, r_end line - 1)))
      | None => Ok (Some (target_col, None))
      end
    end
  end.

(** [if self.preferred_col.is_none() { self.preferred_col = Some(target_col) }] *)
Definition remember_col (ta : TextArea) (target_col : nat) : TextArea :=
  match preferred_col ta with
  | Some _ => ta
  | None => set_preferred_col ta (Some target_col)
  end.

Definition preferred_or_current_col (ta : TextArea) : M nat :=
  match preferred_col ta with
  | Some c => Ok c
  | None => current_display_col ta
  end.

Definition move_cursor_up (ta : TextArea) : M TextArea :=
  let? wrapped := wrapped_target ta (fun idx => if 0 <? idx then Some (idx - 1) else None) in
  match wrapped with
  | Some (target_col, Some (line_start, line_end)) =>
    move_to_display_col_on_line (remember_col ta target_col) line_start line_end target_col
  | Some (_, None) => Ok (set_preferred_col (set_cursor_pos ta 0) None)
  | None =>
    let? prefix := from_opt (str_to (text ta) (cursor_pos ta)) in
    match rfind_char is_newline prefix with
    | Some (prev_nl, _) =>
      let? target_col := preferred_or_current_col ta in
      let ta := remember_col ta target_col in
      let? before := from_opt (str_to (text ta) prev_nl) in
      let prev_line_start := match rfind_char is_newline before with Some (i, _) => i + 1 | None => 0 end in
      move_to_display_col_on_line ta prev_line_start prev_nl target_col
    | None => Ok (set_preferred_col (set_cursor_pos ta 0) None)
    end
  end.

Definition move_cursor_down (ta : TextArea) : M TextArea :=
  let count := match wrap_cache ta with Some cache => length (wrap_lines cache) | None => 0 end in
  let? wrapped := wrapped_target ta (fun idx => if idx + 1 <? count then Some (idx + 1) else None) in
  match wrapped with
  | Some (target_col, Some (line_start, line_end)) =>
    move_to_display_col_on_line (remember_col ta target_col) line_start line_end target_col
  | Some (_, None) => Ok (set_preferred_col (set_cursor_pos ta (str_len (text ta))) None)
  | None =>
    let? target_col := preferred_or_current_col ta in
    let ta := remember_col ta target_col in
    let? suffix := from_opt (str_from (text ta) (cursor_pos ta)) in
    match find_char is_newline suffix with
    | Some (i, _) =>
      let next_line_start := i + cursor_pos ta + 1 in
      let? next_line_end := end_of_line ta next_line_start in
      move_to_display_col_on_line ta next_line_start next_line_end target_col
    | None => Ok (set_preferred_col (set_cursor_pos ta (str_len (text ta))) None)
    end
  end.
End segmentation.

Definition move_cursor_to_beginning_of_line (ta : TextArea) (move_up_at_bol : bool) : M TextArea :=
  let? bol := beginning_of_current_line ta in
  let? target :=
    if move_up_at_bol && (cursor_pos ta =? bol) then beginning_of_line ta (cursor_pos ta - 1) else Ok bol in
  Ok (set_preferred_col (set_cursor ta target) None).

Definition move_cursor_to_end_of_line (ta : TextArea) (move_down_at_eol : bool) : M TextArea :=
  let? eol := end_of_current_line ta in
  let? target :=
    if move_down_at_eol && (cursor_pos ta =? eol)
    then end_of_line ta (Nat.min (cursor_pos ta + 1) (str_len (text ta))) else Ok eol in
  Ok (set_cursor ta target).

(** ** Elements *)

Definition range_text (ta : TextArea) (r : Range) : option str := str_slice (text ta) (r_start r) (r_end r).

Definition element_payloads (ta : TextArea) : list str :=
  omap (fun e => range_text ta (element_range e)) (elements ta).

Definition text_elements (ta : TextArea) : list UserTextElement :=
  (fun e => mk_user_element (element_range e) (range_text ta (element_range e))) <$> elements ta.

Definition text_element_snapshots (ta : TextArea) : list TextElementSnapshot :=
  omap (fun e => mk_snapshot (element_id e) (element_range e) <$> range_text ta (element_range e)) (elements ta).

#[global] Instance Range_eq_dec : EqDecision Range.
Proof. solve_decision. Defined.

Definition element_id_for_exact_range (ta : TextArea) (range : Range) : option Z :=
  element_id <$> find_element ta (fun e => bool_decide (element_range e = range)).

Definition add_element_with_id (ta : TextArea) (range : Range) (name : option str) : TextArea * Z :=
  let '(ta, id) := take_element_id ta in
  (set_elements ta (sort_elements (elements ta ++ [mk_element id range name])), id).

Definition add_element (ta : TextArea) (range : Range) : TextArea * Z := add_element_with_id ta range None.

Definition insert_element (ta : TextArea) (s : str) : M (TextArea * Z) :=
  let start := clamp_pos_for_insertion ta (cursor_pos ta) in
  let? ta := insert_str_at ta start s in
  let end_ := start + str_len s in
  let '(ta, id) := add_element ta (mk_range start end_) in
  Ok (set_cursor ta end_, id).

Definition insert_named_element (ta : TextArea) (s : str) (id : str) : M TextArea :=
  let start := clamp_pos_for_insertion ta (cursor_pos ta) in
  let? ta := insert_str_at ta start s in
  let end_ := start + str_len s in
  let '(ta, _) := add_element_with_id ta (mk_range start end_) (Some id) in
  Ok (set_cursor ta end_).

Definition has_name (id : str) (e : TextElement) : bool := bool_decide (element_name e = Some id).

Definition replace_element_by_id (ta : TextArea) (id s : str) : M (TextArea * bool) :=
  match find_element ta (has_name id) with
  | Some e =>
    let? ta := replace_range_raw ta (element_range e) s in
    Ok (set_elements ta (retain (fun e => negb (has_name id e)) (elements ta)), true)
  | None => Ok (ta, false)
  end.

Definition update_named_element_by_id (ta : TextArea) (id s : str) : M (TextArea * bool) :=
  match find_element ta (has_name id) with
  | Some e =>
    let? ta := replace_range_raw ta (element_range e) s in
    let new_end := e_start e + str_len s in
    Ok ((add_element_with_id ta (mk_range (e_start e) new_end) (Some id)).1, true)
  | None => Ok (ta, false)
  end.

Definition named_element_range (ta : TextArea) (id : str) : option Range :=
  element_range <$> find_element ta (has_name id).

Definition add_element_range (ta : TextArea) (range : Range) : TextArea * option Z :=
  let start := clamp_pos_to_char_boundary ta (Nat.min (r_start range) (str_len (text ta))) in
  let end_ := clamp_pos_to_char_boundary ta (Nat.min (r_end range) (str_len (text ta))) in
  if end_ <=? start then (ta, None)
  else if existsb (fun e => (e_start e =? start) && (e_end e =? end_)) (elements ta) then (ta, None)
  else if existsb (fun e => (start <? e_end e) && (e_start e <? end_)) (elements ta) then (ta, None)
  else let '(ta, id) := add_element ta (mk_range start end_) in (ta, Some id).

Definition remove_element_range (ta : TextArea) (range : Range) : TextArea * bool :=
  let start := clamp_pos_to_char_boundary ta (Nat.min (r_start range) (str_len (text ta))) in
  let end_ := clamp_pos_to_char_boundary ta (Nat.min (r_end range) (str_len (text ta))) in
  if end_ <=? start then (ta, false)
  else
    let kept := retain (fun e => negb (e_start e =? start) || negb (e_end e =? end_)) (elements ta) in
    (set_elements ta kept, negb (length (elements ta) =? length kept)).

(** The element other than the renamed one, moved by the change of length. *)
Definition shift_after_rename (start end_ inserted_len : nat) (e : TextElement) : TextElement :=
  let removed_len := end_ - start in
  if e_end e <=? start then e
  else if end_ <=? e_start e then
    with_range e (mk_range (e_start e + inserted_len - removed_len) (e_end e + inserted_len - removed_len))
  else
    with_range e (mk_range (Nat.min start (e_start e))
                           (Nat.max (start + inserted_len) (e_end e + inserted_len - removed_len))).

(** [position] *)
Fixpoint position {A} (p : A -> bool) (l : list A) : option nat :=
  match l with
  | [] => None
  | x :: l => if p x then Some 0 else S <$> position p l
  end.

Definition replace_element_payload (ta : TextArea) (old new : str) : M (TextArea * bool) :=
  match position (fun e => bool_decide (range_text ta (element_range e) = Some old)) (elements ta) with
  | None => Ok (ta, false)
  | Some idx =>
    let? e := from_opt (elements ta !! idx) in
    let start := e_start e in
    let end_ := e_end e in
    if (end_ <? start) || (str_len (text ta) <? end_) then Ok (ta, false)
    else
      let removed_len := end_ - start in
      let inserted_len := str_len new in
      let? new_text := from_opt (str_replace_range (text ta) start end_ new) in
      let ta := set_preferred_col (set_wrap_cache (set_text ta new_text) None) None in
      let es := <[idx := with_range e (mk_range start (start + inserted_len))]> (elements ta) in
      let es :=
        if inserted_len =? removed_len then es
        else imap (fun j e => if j =? idx then e else shift_after_rename start end_ inserted_len e) es in
      let ta := set_elements ta es in
      let cursor :=
        if cursor_pos ta <? start then cursor_pos ta
        else if cursor_pos ta <=? end_ then start + inserted_len
        else cursor_pos ta + inserted_len - removed_len in
      let ta := set_cursor_pos ta cursor in
      let ta := set_cursor_pos ta (clamp_pos_to_nearest_boundary ta (cursor_pos ta)) in
      Ok (set_elements ta (sort_elements (elements ta)), true)
  end.

(** ** Byte offsets *)

Notation boundary s n := (is_char_boundary s n = true).

Lemma str_len_app a b : str_len (a ++ b) = str_len a + str_len b.
Proof. pose proof (zlen_app a b). unfold zlen in *. lia. Qed.

Lemma str_len_cons c s : str_len (c :: s) = len_utf8 c + str_len s.
Proof. done. Qed.

Lemma str_len_single c : str_len [c] = len_utf8 c.
Proof. rewrite str_len_cons. apply Nat.add_0_r. Qed.

Lemma len_utf8_pos c : 1 <= len_utf8 c.
Proof. pose proof (zlen_utf8_pos c). unfold zlen_utf8 in *. lia. Qed.

Lemma str_len_nil_inv s : str_len s = 0 -> s = [].
Proof. destruct s as [|c s]; [done|]. rewrite str_len_cons. pose proof (len_utf8_pos c). lia. Qed.

Lemma byte_split_at a b : byte_split (a ++ b) (Z.of_nat (str_len a)) = Some (a, b).
Proof. apply byte_split_app. Qed.

Lemma byte_split_inv s n a b : byte_split s (Z.of_nat n) = Some (a, b) -> s = a ++ b /\ n = str_len a.
Proof. intros [-> E]%byte_split_sound. unfold zlen in E. split; [done|lia]. Qed.

Lemma boundary_app a b : boundary (a ++ b) (str_len a).
Proof. unfold is_char_boundary. by rewrite byte_split_at. Qed.

Lemma boundary_iff s n : boundary s n <-> exists a b, s = a ++ b /\ n = str_len a.
Proof.
  split; [|intros (a & b & -> & ->); apply boundary_app].
  unfold is_char_boundary. destruct (byte_split s (Z.of_nat n)) as [[a b]|] eqn:E; [|done].
  intros _. apply byte_split_inv in E as [-> ->]. eauto.
Qed.

Lemma boundary_0 s : boundary s 0.
Proof. apply (boundary_app [] s). Qed.

Lemma boundary_len s : boundary s (str_len s).
Proof. pose proof (boundary_app s []) as E. by rewrite app_nil_r in E. Qed.

Lemma boundary_le s n : boundary s n -> n <= str_len s.
Proof. intros (a & b & -> & ->)%boundary_iff. rewrite str_len_app. lia. Qed.

(** Two boundaries cut the text into three pieces. *)
Lemma boundary_split3 s m n : boundary s m -> boundary s n -> m <= n ->
  exists a d b, s = a ++ d ++ b /\ m = str_len a /\ n = str_len a + str_len d.
Proof.
  intros (a & r & -> & ->)%boundary_iff (a' & b & E & ->)%boundary_iff Hle.
  apply app_eq_inv in E as [(d & -> & ->)|(d & -> & ->)].
  - rewrite str_len_app in Hle. assert (d = []) as -> by (apply str_len_nil_inv; lia).
    exists a', [], r. rewrite app_nil_r. simpl. repeat split; lia.
  - exists a, d, b. by rewrite str_len_app.
Qed.

Lemma str_to_app a b : str_to (a ++ b) (str_len a) = Some a.
Proof. unfold str_to. by rewrite byte_split_at. Qed.

Lemma str_from_app a b : str_from (a ++ b) (str_len a) = Some b.
Proof. unfold str_from. by rewrite byte_split_at. Qed.

Lemma str_to_at s a b n : s = a ++ b -> n = str_len a -> str_to s n = Some a.
Proof. intros -> ->. apply str_to_app. Qed.

Lemma str_from_at s a b n : s = a ++ b -> n = str_len a -> str_from s n = Some b.
Proof. intros -> ->. apply str_from_app. Qed.

Lemma str_slice_mid a d b : str_slice (a ++ d ++ b) (str_len a) (str_len a + str_len d) = Some d.
Proof.
  unfold str_slice. rewrite (proj2 (Nat.leb_le _ _)) by lia.
  rewrite app_assoc, <- str_len_app, str_to_app. apply str_from_app.
Qed.

Lemma str_insert_at a b t : str_insert (a ++ b) (str_len a) t = Some (a ++ t ++ b).
Proof. unfold str_insert. by rewrite str_to_app, str_from_app. Qed.

Lemma str_replace_mid a d b t :
  str_replace_range (a ++ d ++ b) (str_len a) (str_len a + str_len d) t = Some (a ++ t ++ b).
Proof.
  unfold str_replace_range. rewrite (proj2 (Nat.leb_le _ _)) by lia.
  rewrite str_to_app. cbn [mbind option_bind]. by rewrite app_assoc, <- str_len_app, str_from_app.
Qed.

(** Boundaries and slices away from an edit. *)
Lemma boundary_before a b c n : n <= str_len a -> boundary (a ++ b) n -> boundary (a ++ c) n.
Proof.
  intros Hn Hb. destruct (boundary_split3 (a ++ b) n (str_len a)) as (x & d & y & E & -> & E2);
    [done|apply boundary_app|done|].
  rewrite app_assoc in E. rewrite <- str_len_app in E2.
  assert (a = x ++ d) as ->.
  { apply (f_equal (fun s => str_to s (str_len a))) in E. rewrite str_to_app, E2, str_to_app in E. by injection E. }
  rewrite <- app_assoc. apply boundary_app.
Qed.

Lemma boundary_after a b n : boundary (a ++ b) (str_len a + n) <-> boundary b n.
Proof.
  split.
  - intros Hb. destruct (boundary_split3 (a ++ b) (str_len a) (str_len a + n)) as (x & d & y & E & E1 & E2);
      [apply boundary_app|done|lia|].
    assert (b = d ++ y) as ->.
    { apply (f_equal (fun s => str_from s (str_len a))) in E. rewrite str_from_app, E1, str_from_app in E. by injection E. }
    assert (n = str_len d) as -> by lia. apply boundary_app.
  - intros (x & y & -> & ->)%boundary_iff. rewrite app_assoc, <- str_len_app. apply boundary_app.
Qed.

Lemma str_slice_bounds s m n : boundary s m -> boundary s n -> m <= n -> exists d, str_slice s m n = Some d.
Proof.
  intros Hm Hn Hle. destruct (boundary_split3 s m n) as (a & d & b & -> & -> & ->); [done..|].
  exists d. apply str_slice_mid.
Qed.

Lemma str_slice_before a b c m n :
  m <= n <= str_len a -> boundary (a ++ b) m -> boundary (a ++ b) n ->
  str_slice (a ++ c) m n = str_slice (a ++ b) m n.
Proof.
  intros [Hmn Hn] Hm Hnb.
  assert (boundary a m) as Ha by (rewrite <- (app_nil_r a); by eapply boundary_before; [lia|]).
  assert (boundary a n) as Hb by (rewrite <- (app_nil_r a); by eapply boundary_before; [lia|]).
  destruct (boundary_split3 a m n) as (x & d & y & -> & -> & ->); [done..|].
  rewrite <- !app_assoc. by rewrite !str_slice_mid.
Qed.

Lemma str_slice_after a b m n :
  m <= n -> boundary b m -> boundary b n ->
  str_slice (a ++ b) (str_len a + m) (str_len a + n) = str_slice b m n.
Proof.
  intros Hmn Hm Hn. destruct (boundary_split3 b m n) as (x & d & y & -> & -> & ->); [done..|].
  rewrite str_slice_mid. rewrite app_assoc, Nat.add_assoc, <- !(str_len_app a x). apply str_slice_mid.
Qed.

(** ** Positions *)

Definition inside (p : nat) (e : TextElement) : Prop := e_start e < p < e_end e.
Definition outside (es : list TextElement) (p : nat) : Prop := Forall (fun e => ~ inside p e) es.

Definition in_text (s : str) (e : TextElement) : Prop :=
  e_start e <= e_end e /\ boundary s (e_start e) /\ boundary s (e_end e).
Definition apart (a b : TextElement) : Prop := e_end a <= e_start b \/ e_end b <= e_start a.
Definition by_start (a b : TextElement) : Prop := e_start a <= e_start b.

(** The elements are ranges of whole characters, in the order of the text, that do
    not overlap. *)
Record elements_ok (s : str) (es : list TextElement) : Prop := {
  ok_in_text : Forall (in_text s) es;
  ok_apart : StronglySorted apart es;
  ok_sorted : StronglySorted by_start es
}.

Lemma prev_char_boundary_ok s n : boundary s (prev_char_boundary s n).
Proof. induction n as [|n IH]; [apply boundary_0|]. cbn [prev_char_boundary]. by case_match. Qed.

Lemma next_char_boundary_ok s k : forall n, n + k = str_len s -> boundary s (next_char_boundary s n k).
Proof.
  induction k as [|k IH]; intros n E; cbn [next_char_boundary].
  - rewrite Nat.add_0_r in E. subst. apply boundary_len.
  - case_match; [done|]. apply IH. lia.
Qed.

Lemma clamp_char_ok ta pos : boundary (text ta) (clamp_pos_to_char_boundary ta pos).
Proof.
  unfold clamp_pos_to_char_boundary. repeat case_match; try done.
  - apply prev_char_boundary_ok.
  - apply next_char_boundary_ok. lia.
Qed.

Lemma clamp_char_id ta pos : boundary (text ta) pos -> clamp_pos_to_char_boundary ta pos = pos.
Proof.
  intros H. unfold clamp_pos_to_char_boundary. pose proof (boundary_le _ _ H).
  rewrite Nat.min_l by lia. by rewrite H.
Qed.

Lemma prev_char_boundary_max s n : prev_char_boundary s n <= n /\
  forall m, boundary s m -> m <= n -> m <= prev_char_boundary s n.
Proof.
  induction n as [|n [IH1 IH2]]; cbn [prev_char_boundary]; [split; auto; lia|]. destruct (is_char_boundary s (S n)) eqn:E.
  - split; [lia|auto].
  - split; [lia|]. intros m Hm Hle. apply IH2; [done|]. assert (m <> S n); [|lia]. intros ->. congruence.
Qed.

Lemma next_char_boundary_min s k : forall n, n <= next_char_boundary s n k /\
  forall m, boundary s m -> n <= m -> next_char_boundary s n k <= m.
Proof.
  induction k as [|k IH]; intros n; cbn [next_char_boundary]; [auto|]. destruct (is_char_boundary s n) eqn:E; [auto|].
  destruct (IH (S n)) as [H1 H2]. split; [lia|]. intros m Hm Hle. apply H2; [done|].
  assert (m <> n); [|lia]. intros ->. congruence.
Qed.

Lemma clamp_char_mono ta p q : p <= q -> clamp_pos_to_char_boundary ta p <= clamp_pos_to_char_boundary ta q.
Proof.
  intros Hpq. unfold clamp_pos_to_char_boundary. cbv zeta. set (s := text ta).
  assert (Nat.min p (str_len s) <= Nat.min q (str_len s)) as Hle by lia.
  assert (Nat.min q (str_len s) <= str_len s) as Hlen by lia.
  generalize dependent (Nat.min p (str_len s)). generalize dependent (Nat.min q (str_len s)). clear p q Hpq.
  intros q Hlen p Hle. destruct (prev_char_boundary_max s p) as [Hp1 Hp2], (prev_char_boundary_max s q) as [Hq1 Hq2].
  destruct (next_char_boundary_min s (str_len s - p) p) as [Np1 Np2], (next_char_boundary_min s (str_len s - q) q) as [Nq1 Nq2].
  pose proof (prev_char_boundary_ok s p) as Bp. pose proof (prev_char_boundary_ok s q) as Bq.
  pose proof (next_char_boundary_ok s (str_len s - p) p ltac:(lia)) as Cp.
  pose proof (next_char_boundary_ok s (str_len s - q) q ltac:(lia)) as Cq.
  pose proof (Hq2 _ Bp). pose proof (Np2 _ Cq). pose proof (Hq2 _ Cp). pose proof (Np2 _ Bq).
  pose proof (Hp2 _ Bq). pose proof (Nq2 _ Cp).
  destruct (is_char_boundary s p) eqn:Ep, (is_char_boundary s q) eqn:Eq; try (by lia).
  - pose proof (Hq2 p Ep). case_match; lia.
  - pose proof (Np2 q Eq). case_match; lia.
  - destruct (p - _ <=? _) eqn:E1, (q - _ <=? _) eqn:E2; lia.
Qed.

Lemma find_element_Some ta p e : find_element ta p = Some e -> e ∈ elements ta /\ p e = true.
Proof. intros E. apply List.find_some in E as [Hin Hp]. by rewrite list_elem_of_In. Qed.

Lemma find_element_None ta p : find_element ta p = None -> Forall (fun e => p e = false) (elements ta).
Proof. intros E. apply Forall_forall. intros e Hin. eapply List.find_none; [done|by apply list_elem_of_In]. Qed.

Lemma containing_Some ta p e :
  find_element_containing ta p = Some e -> e ∈ elements ta /\ inside p e.
Proof. intros [? [? ?]%andb_true_iff]%find_element_Some. split; [done|]. unfold inside. lia. Qed.

Lemma containing_None ta p : find_element_containing ta p = None <-> outside (elements ta) p.
Proof.
  unfold outside. split.
  - intros E%find_element_None. eapply Forall_impl; [done|]. intros e H. unfold inside. cbn beta in H. lia.
  - intros H. unfold find_element_containing. destruct (find_element _ _) eqn:E; [|done].
    apply containing_Some in E as [Hin Hp]. rewrite Forall_forall in H. by destruct (H _ Hin).
Qed.

#[global] Instance apart_symm : Symmetric apart.
Proof. unfold apart. intros a b H. lia. Qed.

Lemma apart_pair es a b : StronglySorted apart es -> a ∈ es -> b ∈ es -> a = b \/ apart a b.
Proof.
  intros Hs Ha Hb. induction Hs as [|x l Hs IH Hx]; [by apply not_elem_of_nil in Ha|].
  rewrite Forall_forall in Hx. apply elem_of_cons in Ha as [->|Ha], Hb as [->|Hb]; auto.
  - right. symmetry. auto.
Qed.

(** Ranges of whole characters that do not overlap, in any order. *)
Definition spread (s : str) (es : list TextElement) : Prop :=
  Forall (in_text s) es /\ StronglySorted apart es.

Lemma ok_spread s es : elements_ok s es -> spread s es.
Proof. by intros []. Qed.

(** The ends of an element are outside all of them. *)
Lemma ends_outside s es e : spread s es -> e ∈ es -> outside es (e_start e) /\ outside es (e_end e).
Proof.
  intros [Hin Hap] He. unfold outside. rewrite !Forall_forall.
  rewrite Forall_forall in Hin. destruct (Hin _ He) as [Hle _].
  split; intros e' He'; unfold inside; pose proof (Hin _ He') as [Hle' _];
    destruct (apart_pair _ _ _ Hap He He') as [->|Ha]; unfold apart in *; lia.
Qed.

Definition position_ok (ta : TextArea) (p : nat) : Prop :=
  boundary (text ta) p /\ outside (elements ta) p.

Lemma spread_ends_ok ta e : spread (text ta) (elements ta) -> e ∈ elements ta ->
  position_ok ta (e_start e) /\ position_ok ta (e_end e).
Proof.
  intros Hok He. destruct (ends_outside _ _ _ Hok He). destruct Hok as [Hin _].
  rewrite Forall_forall in Hin. destruct (Hin _ He) as (_ & ? & ?). by repeat split.
Qed.

Lemma element_ends_ok ta e : elements_ok (text ta) (elements ta) -> e ∈ elements ta ->
  position_ok ta (e_start e) /\ position_ok ta (e_end e).
Proof. intros Hok. by apply spread_ends_ok, ok_spread. Qed.

Lemma clamp_nearest_spread ta pos :
  spread (text ta) (elements ta) -> position_ok ta (clamp_pos_to_nearest_boundary ta pos).
Proof.
  intros Hok. unfold clamp_pos_to_nearest_boundary.
  destruct (find_element_containing ta _) as [e|] eqn:E.
  - apply containing_Some in E as [He _]. destruct (spread_ends_ok ta e Hok He) as [[H1 H1'] [H2 H2']].
    case_match; rewrite clamp_char_id by done; by split.
  - apply containing_None in E. split; [apply clamp_char_ok|done].
Qed.

Lemma clamp_nearest_ok ta pos :
  elements_ok (text ta) (elements ta) -> position_ok ta (clamp_pos_to_nearest_boundary ta pos).
Proof. intros Hok. by apply clamp_nearest_spread, ok_spread. Qed.

Lemma clamp_nearest_id ta pos : position_ok ta pos -> clamp_pos_to_nearest_boundary ta pos = pos.
Proof.
  intros [Hb Ho]. unfold clamp_pos_to_nearest_boundary. rewrite clamp_char_id by done.
  apply containing_None in Ho. by rewrite Ho.
Qed.

Lemma clamp_insertion_nearest ta pos : clamp_pos_for_insertion ta pos = clamp_pos_to_nearest_boundary ta pos.
Proof. done. Qed.

(** ** Widening *)

Definition within (r r' : Range) : Prop := r_start r' <= r_start r /\ r_end r <= r_end r'.

(** No element is cut by the range. *)
Definition uncut (es : list TextElement) (r : Range) : Prop :=
  Forall (fun e => intersects e r = true -> within (element_range e) r) es.

#[global] Instance within_preorder : PreOrder within.
Proof. split; [intros r; unfold within; lia|]. intros a b c. unfold within. lia. Qed.

#[global] Instance within_dec r r' : Decision (within r r').
Proof. unfold within. apply _. Defined.

Lemma expand_step_cases r b e :
  expand_step (r, b) e = (r, b) /\ (intersects e r = true -> within (element_range e) r) \/
  exists r', expand_step (r, b) e = (r', true) /\ within r r' /\ within (element_range e) r' /\
    ~ within (element_range e) r /\
    (forall r2, within r r2 -> (intersects e r2 = true -> within (element_range e) r2) -> within r' r2) /\
    (r_start r' = r_start r \/ r_start r' = e_start e) /\ (r_end r' = r_end r \/ r_end r' = e_end e).
Proof.
  unfold expand_step. destruct (intersects e r) eqn:Hi; [|by left].
  assert (forall r2, within r r2 -> intersects e r2 = true) as Hmono.
  { intros r2. unfold within, intersects in *. lia. }
  destruct (_ || _) eqn:Hc.
  - right. eexists; split; [done|]. unfold within, e_start, e_end in *. cbn.
    do 3 (split; [lia|]). split; [|lia]. intros r2 Hr2 Hw. specialize (Hw (Hmono r2 Hr2)). lia.
  - left. split; [done|]. intros _. unfold within, e_start, e_end in *. lia.
Qed.

Definition absorbed (r : Range) (e : TextElement) : bool := bool_decide (within (element_range e) r).

(** How many elements are not inside the range yet. *)
Definition pending (es : list TextElement) (r : Range) : nat :=
  length (List.filter (fun e => negb (absorbed r e)) es).

Lemma pending_mono es r r' : within r r' -> pending es r' <= pending es r.
Proof.
  intros Hw. unfold pending, absorbed in *. induction es as [|e es IH]; [done|]. cbn [List.filter].
  destruct (bool_decide_reflect (within (element_range e) r)) as [H1|H1];
    destruct (bool_decide_reflect (within (element_range e) r')) as [H2|H2]; cbn; try lia.
  destruct H2. by etrans.
Qed.

Lemma pending_drop es r r' e :
  e ∈ es -> within r r' -> ~ within (element_range e) r -> within (element_range e) r' ->
  pending es r' < pending es r.
Proof.
  intros He Hw H1 H2. apply list_elem_of_split in He as (l & k & ->).
  unfold pending. rewrite !List.filter_app, !length_app. cbn.
  pose proof (pending_mono l r r' Hw) as Hl. pose proof (pending_mono k r r' Hw) as Hk.
  unfold pending, absorbed in *. rewrite bool_decide_true, (bool_decide_false (within _ r)) by done. cbn. lia.
Qed.

(** One pass over the elements. *)
Lemma expand_pass_spec es2 es r b r' b' :
  (forall e, e ∈ es -> e ∈ es2) ->
  fold_left expand_step es (r, b) = (r', b') ->
  within r r' /\
  (forall r2, within r r2 -> uncut es2 r2 -> within r' r2) /\
  (b' = false -> b = false /\ r' = r /\ uncut es r) /\
  (b = false -> b' = true -> pending es2 r' < pending es2 r) /\
  (forall P : nat -> Prop, Forall (fun e => P (e_start e) /\ P (e_end e)) es2 ->
     P (r_start r) -> P (r_end r) -> P (r_start r') /\ P (r_end r')).
Proof.
  revert r b. induction es as [|e es IH]; intros r b Hsub E; cbn [fold_left] in E.
  - injection E as -> ->. split_and!; try done; [|congruence]. intros ->. split_and!; [done..|constructor].
  - assert (e ∈ es2) as He by (apply Hsub; left).
    assert (forall e, e ∈ es -> e ∈ es2) as Hsub' by (intros; apply Hsub; by right).
    destruct (expand_step_cases r b e) as [[E1 Hi]|(r1 & E1 & Hw & Hin & Hnin & Hleast & Hs & Hend)];
      rewrite E1 in E; destruct (IH _ _ Hsub' E) as (IH1 & IH2 & IH3 & IH4 & IH5).
    + split_and!; try done. intros Hb. destruct (IH3 Hb) as (? & ? & ?). split_and!; [done..|]. by constructor.
    + assert (b' = true) as -> by (destruct b'; [done|]; by destruct (IH3 eq_refl)).
      split_and!; [by etrans| |done| |].
      * intros r2 Hr2 Hu. apply IH2; [|done]. apply Hleast; [done|].
        unfold uncut in Hu. rewrite Forall_forall in Hu. auto.
      * intros _ _. eapply pending_drop; [done|by etrans|done|by etrans].
      * intros P HP Ps Pe. rewrite Forall_forall in HP. destruct (HP e He).
        apply IH5; [by apply Forall_forall|destruct Hs as [->| ->]|destruct Hend as [->| ->]]; done.
Qed.

(** The loop ends, with the least range around the given one that cuts no element. *)
Lemma expand_loop_spec es fuel r : pending es r < fuel ->
  exists r', expand_loop fuel es r = Ok r' /\ within r r' /\ uncut es r' /\
    (forall r2, within r r2 -> uncut es r2 -> within r' r2) /\
    (forall P : nat -> Prop, Forall (fun e => P (e_start e) /\ P (e_end e)) es ->
       P (r_start r) -> P (r_end r) -> P (r_start r') /\ P (r_end r')).
Proof.
  revert r. induction fuel as [|fuel IH]; intros r Hf; [lia|]. cbn [expand_loop].
  destruct (fold_left expand_step es (r, false)) as [r' b'] eqn:E.
  destruct (expand_pass_spec es es r false r' b' ltac:(done) E) as (H1 & H2 & H3 & H4 & H5).
  destruct b'.
  - specialize (H4 eq_refl eq_refl). destruct (IH r' ltac:(lia)) as (r2 & -> & W & U & L & P).
    exists r2. split_and!; [done|by etrans|done|auto|]. intros Q HQ Qs Qe. destruct (H5 Q HQ Qs Qe). auto.
  - destruct (H3 eq_refl) as (_ & -> & Hu). exists r. split_and!; auto; try done.
Qed.

Lemma pending_length es r : pending es r < S (length es).
Proof. unfold pending. pose proof (List.filter_length_le (fun e => negb (absorbed r e)) es). lia. Qed.

Lemma expand_spec ta r :
  exists r', expand_range_to_element_boundaries ta r = Ok r' /\ within r r' /\ uncut (elements ta) r' /\
    (forall r2, within r r2 -> uncut (elements ta) r2 -> within r' r2) /\
    (forall P : nat -> Prop, Forall (fun e => P (e_start e) /\ P (e_end e)) (elements ta) ->
       P (r_start r) -> P (r_end r) -> P (r_start r') /\ P (r_end r')).
Proof. apply expand_loop_spec, pending_length. Qed.

(** ** Edits *)

Lemma Sorted_map {A} (R : relation A) (f : A -> A) l :
  StronglySorted R l -> (forall x y, x ∈ l -> y ∈ l -> R x y -> R (f x) (f y)) -> StronglySorted R (f <$> l).
Proof.
  intros Hs. induction Hs as [|x l Hs IH Hx]; intros Hf; cbn; [constructor|].
  constructor; [apply IH; intros; apply Hf; auto; by right|].
  apply Forall_fmap, Forall_forall. intros y Hy. cbn. rewrite Forall_forall in Hx. apply Hf; auto; [left|by right].
Qed.

Lemma elem_of_filter_bool {A} (p : A -> bool) l x : x ∈ List.filter p l <-> x ∈ l /\ p x = true.
Proof. by rewrite list_elem_of_In, List.filter_In, <- list_elem_of_In. Qed.

Lemma Sorted_filter {A} (R : relation A) (p : A -> bool) l :
  StronglySorted R l -> StronglySorted R (List.filter p l).
Proof.
  intros Hs. induction Hs as [|x l Hs IH Hx]; cbn; [constructor|]. case_match; [|done].
  constructor; [done|]. rewrite Forall_forall in Hx |- *. intros y [Hy _]%elem_of_filter_bool. auto.
Qed.

Lemma Sorted_map_filter {A} (R : relation A) (p : A -> bool) (f : A -> A) l :
  StronglySorted R l ->
  (forall x y, x ∈ l -> y ∈ l -> p x = true -> p y = true -> R x y -> R (f x) (f y)) ->
  StronglySorted R (f <$> List.filter p l).
Proof.
  intros Hs Hf. apply Sorted_map; [by apply Sorted_filter|].
  intros x y [? ?]%elem_of_filter_bool [? ?]%elem_of_filter_bool. auto.
Qed.

(** Where a position goes when [removed] bytes at [at_] become [inserted] ones. *)
Definition moved_pos (at_ removed inserted c : nat) : nat :=
  if c <? at_ then c
  else if c <=? at_ + removed then at_ + inserted
  else c + inserted - removed.

(** The buffer after such an edit. *)
Definition edited (ta : TextArea) (at_ removed : nat) (t new_text : str) : TextArea :=
  mk_text_area new_text (moved_pos at_ removed (str_len t) (cursor_pos ta)) None None
    (elements (shift_elements ta at_ removed (str_len t))) (next_element_id ta)
    (kill_buffer ta) (kill_buffer_kind ta) (vim_enabled ta) (vim_mode ta) (vim_pending ta).

(** What an element shows: its id, its name and its text. *)
Definition payload (s : str) (e : TextElement) : Z * option str * option str :=
  (element_id e, element_name e, str_slice s (e_start e) (e_end e)).

Definition survives (at_ removed : nat) (e : TextElement) : bool :=
  negb ((at_ <=? e_start e) && (e_end e <=? at_ + removed)).

Section edit.
Context (a d b t : str) (es : list TextElement).
Local Notation at_ := (str_len a).
Local Notation removed := (str_len d).
Local Notation inserted := (str_len t).
Local Notation old := (a ++ d ++ b).
Local Notation new := (a ++ t ++ b).
Context (Hok : elements_ok old es) (Hcut : uncut es (mk_range at_ (at_ + removed))).

Lemma kept_before e : in_text old e -> e_end e <= at_ -> in_text new e /\ payload new e = payload old e.
Proof using Type.
  intros (Hle & Hbs & Hbe) Hend. split.
  - split_and!; [done|eapply boundary_before; [lia|done]..].
  - unfold payload. by rewrite (str_slice_before a (d ++ b)) by done.
Qed.

Lemma kept_after e : in_text old e -> at_ + removed <= e_start e ->
  let e' := with_range e (mk_range (e_start e + inserted - removed) (e_end e + inserted - removed)) in
  in_text new e' /\ payload new e' = payload old e.
Proof using Type.
  unfold in_text, payload. intros (Hle & Hbs & Hbe) Hst.
  cbn. rewrite app_assoc in Hbs, Hbe. rewrite !(app_assoc a). rewrite <- str_len_app in Hst.
  assert (e_start e + inserted - removed = str_len (a ++ t) + (e_start e - str_len (a ++ d))) as Es
    by (rewrite str_len_app in *; rewrite str_len_app; lia).
  assert (e_end e + inserted - removed = str_len (a ++ t) + (e_end e - str_len (a ++ d))) as Ee
    by (rewrite str_len_app in *; rewrite str_len_app; lia).
  unfold e_start, e_end in *. cbn. rewrite Es, Ee, !boundary_after.
  replace (r_start (element_range e)) with (str_len (a ++ d) + (r_start (element_range e) - str_len (a ++ d)))
    in Hbs |- * by lia.
  replace (r_end (element_range e)) with (str_len (a ++ d) + (r_end (element_range e) - str_len (a ++ d)))
    in Hbe |- * by lia.
  rewrite !boundary_after in Hbs, Hbe.
  rewrite !(Nat.add_comm (str_len (a ++ d))), !Nat.add_sub, !(Nat.add_comm _ (str_len (a ++ d))).
  split_and!; try done; try lia. by rewrite !str_slice_after by (done || lia).
Qed.

Lemma survivor_cases e : e ∈ es -> survives at_ removed e = true ->
  e_end e <= at_ /\ shift_element at_ removed inserted e = e \/
  at_ + removed <= e_start e /\ at_ < e_end e /\
  shift_element at_ removed inserted e =
    with_range e (mk_range (e_start e + inserted - removed) (e_end e + inserted - removed)).
Proof using Hcut.
  intros He Hs. unfold uncut in Hcut. rewrite Forall_forall in Hcut. specialize (Hcut e He).
  unfold survives, shift_element, intersects, within, e_start, e_end in *. cbn in *.
  repeat case_match; (left + right); split_and!; (done || lia).
Qed.

Lemma survivor_ok e : e ∈ es -> survives at_ removed e = true ->
  in_text new (shift_element at_ removed inserted e) /\
  payload new (shift_element at_ removed inserted e) = payload old e.
Proof using Hok Hcut.
  intros He Hs. pose proof (ok_in_text _ _ Hok) as Hin. rewrite Forall_forall in Hin.
  destruct (survivor_cases e He Hs) as [[Hend ->]|(Hst & _ & ->)]; [by apply kept_before; [apply Hin|]|].
  by apply kept_after; [apply Hin|].
Qed.

Local Notation shifted := (shift_element at_ removed inserted <$> List.filter (survives at_ removed) es).

Lemma shifted_ok : elements_ok new shifted.
Proof using Hok Hcut.
  split.
  - apply Forall_fmap, Forall_forall. intros e [He Hs]%elem_of_filter_bool. by apply survivor_ok.
  - apply Sorted_map_filter; [apply Hok|]. intros x y Hx Hy Hsx Hsy.
    destruct (survivor_cases x Hx Hsx) as [[? ->]|(? & ? & ->)], (survivor_cases y Hy Hsy) as [[? ->]|(? & ? & ->)];
      unfold apart, e_start, e_end in *; cbn; lia.
  - apply Sorted_map_filter; [apply Hok|]. intros x y Hx Hy Hsx Hsy.
    pose proof (ok_in_text _ _ Hok) as Hin. rewrite Forall_forall in Hin. destruct (Hin y Hy) as [Hle _].
    destruct (survivor_cases x Hx Hsx) as [[? ->]|(? & ? & ->)], (survivor_cases y Hy Hsy) as [[? ->]|(? & ? & ->)];
      unfold survives, by_start, e_start, e_end in *; cbn; lia.
Qed.

Lemma shifted_payloads : payload new <$> shifted = payload old <$> List.filter (survives at_ removed) es.
Proof using Hok Hcut.
  rewrite <- list_fmap_compose. apply list_fmap_ext. intros i e He%list_elem_of_lookup_2.
  apply elem_of_filter_bool in He as [He Hs]. by apply survivor_ok.
Qed.

Lemma moved_pos_boundary c : boundary old c -> boundary new (moved_pos at_ removed inserted c).
Proof using Type.
  intros Hb. unfold moved_pos. destruct (c <? at_) eqn:E1; [eapply boundary_before; [lia|done]|].
  destruct (c <=? at_ + removed) eqn:E2.
  - rewrite app_assoc, <- str_len_app. apply boundary_app.
  - rewrite app_assoc in Hb |- *. rewrite <- str_len_app in E2.
    replace c with (str_len (a ++ d) + (c - str_len (a ++ d))) in Hb by lia.
    replace (c + inserted - removed) with (str_len (a ++ t) + (c - str_len (a ++ d)))
      by (rewrite !str_len_app in *; lia).
    by rewrite boundary_after in Hb |- *.
Qed.

Lemma moved_pos_outside c : outside es c \/ at_ <= c <= at_ + removed ->
  outside shifted (moved_pos at_ removed inserted c).
Proof using Hcut.
  intros Ho. unfold moved_pos, outside in *. rewrite Forall_forall in Ho.
  apply Forall_fmap, Forall_forall. intros e [He Hs]%elem_of_filter_bool. cbn.
  assert (~ inside c e \/ at_ <= c <= at_ + removed) as Hc by (destruct Ho; auto).
  destruct (survivor_cases e He Hs) as [[? ->]|(? & ? & ->)];
    unfold inside, e_start, e_end in *; cbn; repeat case_match; lia.
Qed.
End edit.

(** ** The invariant *)

(** Lines of the wrapping cache are ranges of whole characters, one past their end. *)
Definition line_in_text (s : str) (r : Range) : Prop :=
  r_start r <= r_end r - 1 /\ boundary s (r_start r) /\ boundary s (r_end r - 1).

Definition cache_ok (s : str) (c : option WrapCache) : Prop :=
  match c with Some cache => Forall (line_in_text s) (wrap_lines cache) | None => True end.

(** [strict] adds that the cursor is not inside an element. *)
Record well_formed (strict : bool) (ta : TextArea) : Prop := {
  wf_elements : elements_ok (text ta) (elements ta);
  wf_cursor : boundary (text ta) (cursor_pos ta);
  wf_outside : strict = true -> outside (elements ta) (cursor_pos ta);
  wf_cache : cache_ok (text ta) (wrap_cache ta)
}.
Arguments wf_elements {strict ta} _.
Arguments wf_cursor {strict ta} _.
Arguments wf_outside {strict ta} _ _.
Arguments wf_cache {strict ta} _.

Lemma new_well_formed : well_formed true new_text_area.
Proof. repeat split; try constructor; try done. Qed.

(** The cursor moved out of the elements, as every replacement ends. *)
Definition settled (ta : TextArea) : TextArea :=
  set_cursor_pos ta (clamp_pos_to_nearest_boundary ta (cursor_pos ta)).

Create HintDb textarea discriminated.

Section invariant.
Context (strict : bool).
Local Notation wf := (well_formed strict).

Lemma edited_well_formed ta a d b t :
  text ta = a ++ d ++ b -> wf ta -> uncut (elements ta) (mk_range (str_len a) (str_len a + str_len d)) ->
  wf (edited ta (str_len a) (str_len d) t (a ++ t ++ b)).
Proof.
  intros E [Hok Hb Ho _] Hcut. rewrite E in *. split; [| | |done]; cbn.
  - by apply shifted_ok.
  - by apply moved_pos_boundary.
  - intros Hs. by eapply moved_pos_outside; [done|auto].
Qed.

Lemma settle_well_formed ta : wf ta -> wf (settled ta).
Proof.
  intros [Hok _ _ ?]. destruct (clamp_nearest_ok ta (cursor_pos ta) Hok). by split.
Qed.

Lemma settle_id ta : position_ok ta (cursor_pos ta) -> settled ta = ta.
Proof. intros H. unfold settled. rewrite clamp_nearest_id by done. by destruct ta. Qed.

(** A replacement that changes something is an edit. *)
Lemma replace_raw_edits ta a d b t :
  text ta = a ++ d ++ b -> wf ta -> uncut (elements ta) (mk_range (str_len a) (str_len a + str_len d)) ->
  replace_range_raw ta (mk_range (str_len a) (str_len a + str_len d)) t =
    Ok (if (str_len d =? 0) && (str_len t =? 0) then ta
        else settled (edited ta (str_len a) (str_len d) t (a ++ t ++ b))).
Proof.
  intros E Hwf Hcut. pose proof (edited_well_formed ta a d b t E Hwf Hcut) as [_ Hcur _ _].
  unfold replace_range_raw. cbn [r_start r_end].
  assert (str_len (text ta) = str_len a + str_len d + str_len b) as El by (rewrite E, !str_len_app; lia).
  rewrite (proj2 (Nat.ltb_ge _ _)) by lia. rewrite !Nat.min_l by lia.
  replace (str_len a + str_len d - str_len a) with (str_len d) by lia.
  destruct (_ && _) eqn:Ez; [done|].
  rewrite E, str_replace_mid. cbn [from_opt res_bind]. f_equal.
  unfold update_elements_after_replace. replace (str_len a + str_len d - str_len a) with (str_len d) by lia.
  unfold settled, edited. cbn.
  match goal with |- context [Nat.min ?c ?n] => assert (Nat.min c n = c) as -> end; [|done].
  apply Nat.min_l. apply boundary_le in Hcur. exact Hcur.
Qed.

Lemma insert_at_edits ta a b t pos :
  text ta = a ++ b -> str_len a = clamp_pos_for_insertion ta pos ->
  insert_str_at ta pos t = Ok (edited ta (str_len a) 0 t (a ++ t ++ b)).
Proof.
  intros E Ep. unfold insert_str_at. rewrite <- Ep, E, str_insert_at. cbn [from_opt res_bind]. f_equal.
  assert (moved_pos (str_len a) 0 (str_len t) (cursor_pos ta) =
    if str_len a <=? cursor_pos ta then cursor_pos ta + str_len t else cursor_pos ta) as Em
    by (unfold moved_pos; repeat case_match; lia).
  unfold edited. rewrite Em. cbn [cursor_pos set_wrap_cache set_text]. by destruct (_ <=? _).
Qed.

Lemma uncut_empty es p : outside es p -> uncut es (mk_range p p).
Proof.
  intros Ho. eapply Forall_impl; [exact Ho|]. intros e He Hi. exfalso. apply He.
  unfold inside, intersects in *. cbn [r_start r_end] in *. lia.
Qed.

Lemma insert_spec ta pos t : wf ta ->
  exists a b, text ta = a ++ b /\ str_len a = clamp_pos_for_insertion ta pos /\
    outside (elements ta) (str_len a) /\
    insert_str_at ta pos t = Ok (edited ta (str_len a) 0 t (a ++ t ++ b)).
Proof.
  intros Hwf. destruct (clamp_nearest_ok ta pos (wf_elements Hwf)) as [Hb Ho].
  rewrite <- clamp_insertion_nearest in Hb, Ho.
  apply boundary_iff in Hb as (a & b & E & Ea). exists a, b. rewrite <- Ea. split_and!; auto.
  rewrite Ea. by apply insert_at_edits.
Qed.

Lemma insert_well_formed ta pos t : wf ta ->
  exists ta', insert_str_at ta pos t = Ok ta' /\ wf ta'.
Proof.
  intros Hwf. destruct (insert_spec ta pos t Hwf) as (a & b & E & _ & Ho & ->). eexists; split; [done|].
  apply (edited_well_formed ta a [] b); [done..|]. cbn. rewrite Nat.add_0_r. by apply uncut_empty.
Qed.

(** A range of whole characters of the text. *)
Definition range_ok (s : str) (r : Range) : Prop :=
  r_start r <= r_end r /\ boundary s (r_start r) /\ boundary s (r_end r).

(** Replacing a range replaces the least range around it that cuts no element. *)
Lemma expand_splits ta r : wf ta -> range_ok (text ta) r ->
  exists a d b, text ta = a ++ d ++ b /\
    let r' := mk_range (str_len a) (str_len a + str_len d) in
    expand_range_to_element_boundaries ta r = Ok r' /\ within r r' /\ uncut (elements ta) r' /\
    (forall r2, within r r2 -> uncut (elements ta) r2 -> within r' r2).
Proof.
  intros Hwf (Hle & Hs & He). destruct (expand_spec ta r) as ([s e] & E & Hw & Hu & Hl & HP).
  destruct (HP (fun n => boundary (text ta) n)) as [Hs' He']; [|done..|].
  { eapply Forall_impl; [apply (ok_in_text _ _ (wf_elements Hwf))|]. by intros x (_ & ? & ?). }
  cbn in Hs', He'. destruct (boundary_split3 (text ta) s e) as (a & d & b & Et & -> & ->); [done..| |].
  { unfold within in Hw. cbn in Hw. lia. }
  exists a, d, b. split_and!; auto.
Qed.

Lemma replace_raw_well_formed ta r t : wf ta -> range_ok (text ta) r -> uncut (elements ta) r ->
  exists ta', replace_range_raw ta r t = Ok ta' /\ wf ta'.
Proof.
  intros Hwf (Hle & Hs & He) Hu. destruct r as [s e]. cbn in *.
  destruct (boundary_split3 (text ta) s e) as (a & d & b & Et & -> & ->); [done..|].
  rewrite (replace_raw_edits ta a d b) by done. eexists; split; [done|].
  case_match; [done|]. by apply settle_well_formed, edited_well_formed.
Qed.

Lemma replace_well_formed ta r t : wf ta -> range_ok (text ta) r ->
  exists ta', replace_range ta r t = Ok ta' /\ wf ta'.
Proof.
  intros Hwf Hr. destruct (expand_splits ta r Hwf Hr) as (a & d & b & Et & E & _ & Hu & _).
  unfold replace_range. rewrite E. cbn [res_bind]. apply replace_raw_well_formed; [done| |done].
  rewrite Et. split_and!; cbn; [lia|apply boundary_app|]. rewrite app_assoc, <- str_len_app. apply boundary_app.
Qed.

Lemma well_formed_clamped ta pos : wf ta -> wf (settled (set_cursor_pos ta pos)).
Proof.
  intros [Hok _ _ Hca]. destruct (clamp_nearest_ok (set_cursor_pos ta pos) pos Hok). by split.
Qed.

Lemma set_cursor_well_formed ta pos : wf ta -> wf (set_cursor ta pos).
Proof. intros Hwf. destruct (well_formed_clamped ta (Nat.min pos (str_len (text ta))) Hwf). by split. Qed.

Lemma well_formed_at ta p : wf ta -> position_ok ta p -> wf (set_cursor_pos ta p).
Proof. intros [? ? ? ?] [? ?]. by split. Qed.

Lemma well_formed_col ta c : wf ta -> wf (set_preferred_col ta c).
Proof. intros [? ? ? ?]. by split. Qed.

Lemma well_formed_kill ta s k : wf ta -> wf (store_kill_buffer ta s k).
Proof. intros [? ? ? ?]. by split. Qed.

Lemma well_formed_vim ta x m p : wf ta -> wf (set_vim ta x m p).
Proof. intros [? ? ? ?]. by split. Qed.

(** ** Searching characters *)

Lemma char_indices_app off a b :
  char_indices_from off (a ++ b) = char_indices_from off a ++ char_indices_from (off + str_len a) b.
Proof.
  revert off. induction a as [|c a IH]; intros off; cbn [app char_indices_from].
  - by rewrite Nat.add_0_r.
  - rewrite IH, str_len_cons. by rewrite Nat.add_assoc.
Qed.

Lemma char_indices_lookup s off i c :
  (i, c) ∈ char_indices_from off s -> exists a b, s = a ++ c :: b /\ i = off + str_len a.
Proof.
  revert off. induction s as [|x s IH]; intros off; cbn [char_indices_from]; [by intros ?%not_elem_of_nil|].
  intros [[= -> ->]|H]%elem_of_cons; [by exists [], s; rewrite Nat.add_0_r|].
  destruct (IH _ H) as (a & b & -> & ->). exists (x :: a), b. rewrite str_len_cons. split; [done|lia].
Qed.

Lemma char_indices_snd off s : (char_indices_from off s).*2 = s.
Proof. revert off. induction s as [|c s IH]; intros off; cbn; [done|]. f_equal. apply IH. Qed.

Definition none_of (p : char -> bool) (s : str) : Prop := Forall (fun c => p c = false) s.

Lemma find_char_None p s : find_char p s = None -> none_of p s.
Proof.
  intros E. unfold none_of. rewrite <- (char_indices_snd 0 s). apply Forall_fmap, Forall_forall.
  intros ic Hic. eapply (List.find_none _ _ E). by apply list_elem_of_In.
Qed.

Lemma rfind_char_None p s : rfind_char p s = None -> none_of p s.
Proof.
  intros E. unfold none_of. rewrite <- (char_indices_snd 0 s). apply Forall_fmap, Forall_forall.
  intros ic Hic. eapply (List.find_none _ _ E). rewrite <- List.in_rev. by apply list_elem_of_In.
Qed.

Lemma find_char_Some p s i c : find_char p s = Some (i, c) ->
  exists a b, s = a ++ c :: b /\ i = str_len a /\ p c = true /\ none_of p a.
Proof.
  unfold find_char, char_indices.
  assert (forall off, List.find (fun ic : nat * char => p ic.2) (char_indices_from off s) = Some (i, c) ->
    exists a b, s = a ++ c :: b /\ i = off + str_len a /\ p c = true /\ none_of p a) as H; [|by apply H].
  induction s as [|x s IH]; intros off; cbn [char_indices_from List.find snd]; [done|].
  destruct (p x) eqn:Ex.
  - intros [= -> ->]. exists [], s. rewrite Nat.add_0_r. repeat split; [done|constructor].
  - intros (a & b & -> & -> & Hc & Ha)%IH. exists (x :: a), b. rewrite str_len_cons.
    repeat split; [lia|done|by constructor].
Qed.

Lemma rfind_char_Some p s i c : rfind_char p s = Some (i, c) ->
  exists a b, s = a ++ c :: b /\ i = str_len a /\ p c = true /\ none_of p b.
Proof.
  unfold rfind_char. induction s as [|x s IH] using rev_ind; [done|].
  unfold char_indices in *. rewrite char_indices_app, List.rev_app_distr.
  cbn [char_indices_from List.rev app List.find snd].
  destruct (p x) eqn:Ex.
  - intros [= <- ->]. exists s, []. repeat split; [done|constructor].
  - intros (a & b & -> & -> & Hc & Hb)%IH. exists a, (b ++ [x]). rewrite <- app_assoc.
    repeat split; [done|]. apply Forall_app. split; [done|]. by constructor.
Qed.

(** ** Lines *)

(** The bounds of the line around a position: no line break between them, and one (or
    an end of the text) on each side. *)
Lemma beginning_of_line_spec ta a b : text ta = a ++ b ->
  exists x l, a = x ++ l /\ beginning_of_line ta (str_len a) = Ok (str_len x) /\
    none_of is_newline l /\ (x = [] \/ exists y, x = y ++ [NL]).
Proof.
  intros E. unfold beginning_of_line. rewrite E, str_to_app. cbn [from_opt res_bind].
  destruct (rfind_char is_newline a) as [[i c]|] eqn:Ef.
  - apply rfind_char_Some in Ef as (y & l & -> & -> & Hc & Hl). apply N.eqb_eq in Hc as ->.
    exists (y ++ [NL]), l. rewrite <- app_assoc, str_len_app. split_and!; eauto.
  - apply rfind_char_None in Ef. exists [], a. auto.
Qed.

Lemma end_of_line_spec ta a b : text ta = a ++ b ->
  exists l y, b = l ++ y /\ end_of_line ta (str_len a) = Ok (str_len a + str_len l) /\
    none_of is_newline l /\ (y = [] \/ exists z, y = NL :: z).
Proof.
  intros E. unfold end_of_line. rewrite E, str_from_app. cbn [from_opt res_bind].
  destruct (find_char is_newline b) as [[i c]|] eqn:Ef.
  - apply find_char_Some in Ef as (l & z & -> & -> & Hc & Hl). apply N.eqb_eq in Hc as ->.
    exists l, (NL :: z). rewrite Nat.add_comm. split_and!; eauto.
  - apply find_char_None in Ef. exists b, []. rewrite app_nil_r, str_len_app. auto.
Qed.

(** The line of the cursor. *)
Lemma current_line ta : wf ta ->
  exists x l r y, text ta = x ++ l ++ r ++ y /\ cursor_pos ta = str_len x + str_len l /\
    beginning_of_current_line ta = Ok (str_len x) /\
    end_of_current_line ta = Ok (str_len x + str_len l + str_len r) /\
    none_of is_newline (l ++ r) /\
    (x = [] \/ exists z, x = z ++ [NL]) /\ (y = [] \/ exists z, y = NL :: z).
Proof.
  intros [_ (a & b & E & Ec)%boundary_iff _ _].
  destruct (beginning_of_line_spec ta a b E) as (x & l & -> & Eb & Hl & Hx).
  destruct (end_of_line_spec ta (x ++ l) b E) as (r & y & -> & Ee & Hr & Hy).
  exists x, l, r, y. unfold beginning_of_current_line, end_of_current_line. rewrite Ec.
  rewrite str_len_app in *. rewrite E, <- app_assoc. split_and!; auto. by apply Forall_app.
Qed.

(** ** Killing *)

Lemma kill_spec ta r kind : wf ta -> range_ok (text ta) r ->
  exists a d b, text ta = a ++ d ++ b /\
    within r (mk_range (str_len a) (str_len a + str_len d)) /\
    uncut (elements ta) (mk_range (str_len a) (str_len a + str_len d)) /\
    (forall r2, within r r2 -> uncut (elements ta) r2 -> within (mk_range (str_len a) (str_len a + str_len d)) r2) /\
    kill_range_with_kind ta r kind =
      Ok (if bool_decide (d = []) then ta
          else settled (edited (store_kill_buffer ta d kind) (str_len a) (str_len d) [] (a ++ b))).
Proof.
  intros Hwf Hr. destruct (expand_splits ta r Hwf Hr) as (a & d & b & Et & E & Hw & Hu & Hl).
  exists a, d, b. split_and!; [done..|]. unfold kill_range_with_kind. rewrite E. cbn [res_bind r_start r_end].
  case_bool_decide as Hd.
  - subst. simpl. rewrite Nat.add_0_r, Nat.leb_refl. done.
  - rewrite (proj2 (Nat.leb_gt _ _)).
    2: { destruct d as [|c d]; [done|]. rewrite str_len_cons. pose proof (len_utf8_pos c). lia. }
    rewrite Et at 1. rewrite str_slice_mid. cbn [from_opt res_bind].
    assert (replace_range_raw (store_kill_buffer ta d kind) (mk_range (str_len a) (str_len a + str_len d)) [] =
      Ok (settled (edited (store_kill_buffer ta d kind) (str_len a) (str_len d) [] (a ++ b)))) as Er.
    { rewrite (replace_raw_edits _ a d b []) by (done || by apply well_formed_kill).
      destruct (str_len d =? 0) eqn:Ez; [|done]. apply Nat.eqb_eq, str_len_nil_inv in Ez. done. }
    by destruct d.
Qed.

Lemma kill_well_formed ta r kind : wf ta -> range_ok (text ta) r ->
  exists ta', kill_range_with_kind ta r kind = Ok ta' /\ wf ta'.
Proof.
  intros Hwf Hr. destruct (kill_spec ta r kind Hwf Hr) as (a & d & b & Et & _ & Hu & _ & ->).
  eexists; split; [done|]. case_bool_decide; [done|].
  apply settle_well_formed, (edited_well_formed _ a d b []); [done|by apply well_formed_kill|done].
Qed.

Lemma yank_range_well_formed ta r kind : wf ta -> range_ok (text ta) r ->
  exists ta', yank_range_with_kind ta r kind = Ok ta' /\ wf ta'.
Proof.
  intros Hwf Hr. destruct (expand_splits ta r Hwf Hr) as (a & d & b & Et & E & Hw & Hu & _).
  unfold yank_range_with_kind. rewrite E. cbn [res_bind r_start r_end]. destruct (_ <=? _); [by eauto|].
  rewrite Et, str_slice_mid. cbn [from_opt res_bind].
  case_match; eauto using well_formed_kill.
Qed.

(** A yank puts the kill buffer where the cursor is. *)
Lemma yank_at ta a b :
  text ta = a ++ b -> position_ok ta (str_len a) -> cursor_pos ta = str_len a ->
  exists ta2, yank ta = Ok ta2 /\ text ta2 = a ++ kill_buffer ta ++ b.
Proof.
  intros Et Hpos Ec. unfold yank. destruct (kill_buffer ta) as [|c d]; [by exists ta|].
  unfold insert_str. rewrite Ec, (insert_at_edits ta a b (c :: d)); [by eexists|done|].
  by rewrite clamp_insertion_nearest, clamp_nearest_id.
Qed.

(** What [kill_range_with_kind] did: nothing for an empty range, and otherwise it
    took the text [d] of the least range around it that cuts no element into the
    kill buffer.  A yank puts it back
    once the cursor is where [d] was, and the cursor is there when it was in the
    range. *)
Definition killed (ta : TextArea) (r : Range) (kind : KillBufferKind) (ta1 : TextArea) : Prop :=
  (ta1 = ta /\ r_start r = r_end r) \/
  exists a d b, text ta = a ++ d ++ b /\
    (let r' := mk_range (str_len a) (str_len a + str_len d) in
     within r r' /\ uncut (elements ta) r' /\
     forall r2, within r r2 -> uncut (elements ta) r2 -> within r' r2) /\
    text ta1 = a ++ b /\ kill_buffer ta1 = d /\ d <> [] /\ kill_buffer_kind ta1 = kind /\
    (exists ta2, yank (set_cursor ta1 (str_len a)) = Ok ta2 /\ text ta2 = text ta) /\
    (r_start r <= cursor_pos ta <= r_end r -> exists ta2, yank ta1 = Ok ta2 /\ text ta2 = text ta).

Lemma kill_yank ta r kind : wf ta -> range_ok (text ta) r ->
  exists ta1, kill_range_with_kind ta r kind = Ok ta1 /\ killed ta r kind ta1.
Proof.
  intros Hwf Hr. destruct (kill_spec ta r kind Hwf Hr) as (a & d & b & Et & Hw0 & Hu & Hl & E).
  rewrite E. eexists; split; [done|]. pose proof Hw0 as Hw. unfold within in Hw. cbn [r_start r_end] in Hw.
  case_bool_decide as Hd; [left|right].
  { subst d. cbn in Hw. destruct Hr. split; [done|lia]. }
  exists a, d, b. set (ta1 := edited _ _ _ _ _).
  assert (position_ok ta1 (str_len a)) as Hpos.
  { split; [by apply boundary_app|]. pose proof (moved_pos_outside a d [] (elements ta) Hu (str_len a)
      (or_intror (conj (Nat.le_refl _) (Nat.le_add_r _ _)))) as Ho.
    assert (moved_pos (str_len a) (str_len d) (str_len []) (str_len a) = str_len a) as Em
      by (unfold moved_pos; change (str_len []) with 0; repeat case_match; lia).
    rewrite Em in Ho. exact Ho. }
  assert (str_len (a ++ b) = str_len a + str_len b) as El by apply str_len_app.
  split_and!; try done.
  - unfold set_cursor. change (text (settled ta1)) with (a ++ b). rewrite Nat.min_l by lia.
    rewrite clamp_nearest_id by exact Hpos. destruct (yank_at (set_preferred_col (set_cursor_pos (set_cursor_pos
      (settled ta1) (str_len a)) (str_len a)) None) a b) as (ta2 & E2 & Et2); [done..|].
    exists ta2. split; [exact E2|]. by rewrite Et2, Et.
  - intros Hc. assert (cursor_pos ta1 = str_len a) as Ecur.
    { cbn. unfold moved_pos. repeat case_match; simpl; lia. }
    rewrite settle_id by (by rewrite Ecur). destruct (yank_at ta1 a b) as (ta2 & E2 & Et2); [done..|].
    exists ta2. split; [exact E2|]. by rewrite Et2, Et.
Qed.

(** ** Words and atomic steps *)

Lemma adjust_ok ta p prefer_start : wf ta -> boundary (text ta) p ->
  position_ok ta (adjust_pos_out_of_elements ta p prefer_start) /\
  (prefer_start = true -> adjust_pos_out_of_elements ta p prefer_start <= p) /\
  (prefer_start = false -> p <= adjust_pos_out_of_elements ta p prefer_start).
Proof.
  intros Hwf Hp. unfold adjust_pos_out_of_elements. destruct (find_element_containing ta p) as [e|] eqn:E.
  - apply containing_Some in E as [He Hin]. destruct (element_ends_ok ta e (wf_elements Hwf) He).
    unfold inside in Hin. destruct prefer_start; split_and!; done || lia.
  - apply containing_None in E. by repeat split.
Qed.

Lemma split_segment_pieces off piece sep chars i p :
  (i, p) ∈ split_segment off piece sep chars ->
  exists u v, piece ++ chars = u ++ p ++ v /\ i = off + str_len u.
Proof.
  revert off piece sep. induction chars as [|ch chars IH]; intros off piece sep; cbn [split_segment].
  - intros [= -> ->]%list_elem_of_singleton. exists [], []. by rewrite Nat.add_0_r.
  - case_match.
    + intros (u & v & E & ->)%IH. exists u, v. by rewrite <- E, <- app_assoc.
    + intros [[= -> ->]|Hin]%elem_of_cons; [exists [], (ch :: chars); by rewrite Nat.add_0_r|].
      apply IH in Hin as (u & v & E & ->). exists (piece ++ u), v.
      rewrite <- app_assoc, <- E, str_len_app. split; [done|lia].
Qed.

Lemma split_segments_pieces segs off i p :
  (i, p) ∈ split_segments off segs ->
  exists u v, concat segs = u ++ p ++ v /\ i = off + str_len u.
Proof.
  revert off. induction segs as [|g segs IH]; intros off; cbn [split_segments]; [by intros ?%not_elem_of_nil|].
  intros [Hin|Hin]%elem_of_app.
  - destruct g as [|c g]; [by apply not_elem_of_nil in Hin|].
    apply split_segment_pieces in Hin as (u & v & E & ->). exists u, (v ++ concat segs).
    split; [|done]. cbn [concat]. change (c :: g) with ([c] ++ g). by rewrite E, <- !app_assoc.
  - apply IH in Hin as (u & v & E & ->). exists (g ++ u), v. cbn [concat].
    rewrite E, <- !app_assoc, str_len_app. split; [done|lia].
Qed.

Lemma split_segment_cons off piece sep chars : split_segment off piece sep chars <> [].
Proof. revert off piece sep. induction chars; intros; cbn [split_segment]; [done|]. by case_match. Qed.

Section laws.
Context `{Laws : SegmentationLaws}.

Lemma word_pieces_in run i p : (i, p) ∈ split_word_pieces run -> exists u v, run = u ++ p ++ v /\ i = str_len u.
Proof. intros (u & v & E & ->)%split_segments_pieces. rewrite word_bounds_law in E. eauto. Qed.

Lemma word_pieces_nonempty run : run <> [] -> split_word_pieces run <> [].
Proof.
  intros Hr. pose proof (word_bounds_law run) as E. pose proof (word_bounds_nonempty run) as Hn.
  unfold split_word_pieces. destruct (split_word_bounds run) as [|g gs]; [by subst|]. inv Hn.
  cbn. destruct g as [|c g]; [done|].
  intros [Es _]%app_nil. by apply split_segment_cons in Es.
Qed.

Lemma extend_start_in run_start start pieces :
  extend_start run_start start pieces = start \/
  exists i p, (i, p) ∈ pieces /\ extend_start run_start start pieces = run_start + i.
Proof.
  revert start. induction pieces as [|[i p] pieces IH]; intros start; cbn [extend_start]; [by left|].
  case_match; [|by left]. right. destruct (IH (run_start + i)) as [->|(j & q & Hin & ->)].
  - exists i, p. split; [left|done].
  - exists j, q. split; [by right|done].
Qed.

Lemma extend_end_in base end_ pieces :
  extend_end base end_ pieces = end_ \/
  exists i p, (i, p) ∈ pieces /\ extend_end base end_ pieces = base + i + str_len p.
Proof.
  revert end_. induction pieces as [|[i p] pieces IH]; intros end_; cbn [extend_end]; [by left|].
  case_match; [|by left]. right. destruct (IH (base + i + str_len p)) as [->|(j & q & Hin & ->)].
  - exists i, p. split; [left|done].
  - exists j, q. split; [by right|done].
Qed.

(** The run of other characters that ends a text. *)
Lemma whitespace_run x : exists y z, x = y ++ z /\
  match rfind_char is_whitespace x with Some (idx, ch) => idx + len_utf8 ch | None => 0 end = str_len y.
Proof.
  destruct (rfind_char is_whitespace x) as [[j c]|] eqn:Ew; [|by exists [], x].
  apply rfind_char_Some in Ew as (y & z & -> & -> & _). exists (y ++ [c]), z.
  rewrite <- app_assoc, str_len_app. by rewrite str_len_single.
Qed.

Lemma beginning_of_previous_word_ok ta : wf ta ->
  exists p, beginning_of_previous_word ta = Ok p /\ position_ok ta p /\ p <= cursor_pos ta.
Proof using Laws.
  intros Hwf. pose proof (wf_cursor Hwf) as (a & b & E & Ec)%boundary_iff.
  assert (forall x y, a = x ++ y -> boundary (text ta) (str_len x) /\ str_len x <= cursor_pos ta) as Hpre.
  { intros x y ->. rewrite E, Ec, <- app_assoc, str_len_app. split; [apply boundary_app|lia]. }
  unfold beginning_of_previous_word. rewrite E, Ec, str_to_app. cbn [from_opt res_bind].
  destruct (rfind_char not_whitespace a) as [[i ch]|] eqn:Ef.
  2: { exists 0. split_and!; [done|split; [apply boundary_0|]|lia]. apply Forall_forall. unfold inside. lia. }
  apply rfind_char_Some in Ef as (x & w & Ea & -> & _). rewrite Ea, str_to_app. cbn [from_opt res_bind].
  destruct (whitespace_run x) as (y & z & -> & ->).
  assert (str_slice ((y ++ z) ++ ch :: w) (str_len y) (str_len (y ++ z) + len_utf8 ch) = Some (z ++ [ch])) as ->.
  { replace ((y ++ z) ++ ch :: w) with (y ++ (z ++ [ch]) ++ w) by (by rewrite <- !app_assoc).
    replace (str_len (y ++ z) + len_utf8 ch) with (str_len y + str_len (z ++ [ch]))
      by (rewrite !str_len_app, str_len_single; lia). apply str_slice_mid. }
  cbn [from_opt res_bind].
  assert (forall k p, (k, p) ∈ split_word_pieces (z ++ [ch]) ->
    boundary (text ta) (str_len y + k) /\ str_len y + k <= cursor_pos ta) as Hk.
  { intros k p (u & v & Eu & ->)%word_pieces_in. rewrite <- str_len_app. apply (Hpre _ (p ++ v ++ w)).
    rewrite Ea, <- !app_assoc. f_equal. rewrite (app_assoc p), (app_assoc u), <- Eu, <- app_assoc. done. }
  destruct (rev (split_word_pieces (z ++ [ch]))) as [|[ps p] pieces] eqn:Er.
  { exfalso. apply (word_pieces_nonempty (z ++ [ch])); [by destruct z|].
    rewrite <- (rev_involutive (split_word_pieces _)), Er. done. }
  assert (forall q, q ∈ (ps, p) :: pieces -> q ∈ split_word_pieces (z ++ [ch])) as Hin.
  { intros q. rewrite <- Er, !list_elem_of_In, <- List.in_rev. done. }
  match goal with |- context [adjust_pos_out_of_elements ta ?q true] =>
    assert (boundary (text ta) q /\ q <= cursor_pos ta) as [Hb Hle] end.
  { case_match; [|eapply Hk, Hin; left].
    destruct (extend_start_in (str_len y) (str_len y + ps) pieces) as [->|(j & q & Hq & ->)].
    - eapply Hk, Hin; left.
    - eapply Hk, Hin; by right. }
  eexists; split; [done|]. destruct (adjust_ok ta _ true Hwf Hb) as (Hok & Hadj & _).
  split; [done|]. rewrite <- Ea, <- Ec. etrans; [by apply Hadj|done].
Qed.

Lemma end_position_ok ta : wf ta -> position_ok ta (str_len (text ta)).
Proof.
  intros Hwf. split; [apply boundary_len|]. eapply Forall_impl; [apply (ok_in_text _ _ (wf_elements Hwf))|].
  intros e (_ & _ & Hle%boundary_le). unfold inside. lia.
Qed.

Lemma start_position_ok ta : position_ok ta 0.
Proof. split; [apply boundary_0|]. apply Forall_forall. unfold inside. lia. Qed.

(** The run of other characters that starts a text. *)
Lemma leading_run ch r : not_whitespace ch = true -> exists x y, ch :: r = x ++ y /\ x <> [] /\
  match find_char is_whitespace (ch :: r) with Some (i, _) => i | None => str_len (ch :: r) end = str_len x.
Proof.
  intros Hch. destruct (find_char is_whitespace (ch :: r)) as [[j c]|] eqn:Ew.
  - apply find_char_Some in Ew as (u & v & Eu & -> & Hc & _). exists u, (c :: v). split_and!; [done| |done].
    intros ->. injection Eu as -> ->. unfold not_whitespace in Hch. by rewrite Hc in Hch.
  - exists (ch :: r), []. by rewrite app_nil_r.
Qed.

Lemma end_of_next_word_ok ta pos : wf ta -> boundary (text ta) pos ->
  exists p, end_of_next_word_from ta pos = Ok p /\ position_ok ta p /\ pos <= p.
Proof using Laws.
  intros Hwf (a & b & E & ->)%boundary_iff. unfold end_of_next_word_from.
  rewrite E, str_from_app. cbn [from_opt res_bind].
  destruct (find_char not_whitespace b) as [[i ch]|] eqn:Ef.
  2: { eexists. split_and!; [done|rewrite <- E; by apply end_position_ok|]. rewrite str_len_app. lia. }
  apply find_char_Some in Ef as (w & r & Eb & -> & Hch & _). rewrite Eb, str_from_app. cbn [from_opt res_bind].
  destruct (leading_run ch r Hch) as (x & y & Erun & Hx & ->).
  rewrite Erun, str_to_app. cbn [from_opt res_bind].
  assert (forall k p, (k, p) ∈ split_word_pieces x ->
    boundary (text ta) (str_len a + str_len w + k + str_len p)) as Hk.
  { intros k p (u & v & -> & ->)%word_pieces_in. rewrite <- !str_len_app, E, Eb, Erun.
    replace (a ++ w ++ (u ++ p ++ v) ++ y) with ((((a ++ w) ++ u) ++ p) ++ v ++ y) by (by rewrite <- !app_assoc).
    apply boundary_app. }
  destruct (split_word_pieces x) as [|[ps p] pieces] eqn:Er; [by apply word_pieces_nonempty in Er|].
  match goal with |- context [adjust_pos_out_of_elements ta ?q false] =>
    assert (boundary (text ta) q /\ str_len a <= q) as [Hb Hle] end.
  { case_match; [|split; [eapply Hk; left|lia]].
    destruct (extend_end_in (str_len a + str_len w) (str_len a + str_len w + ps + str_len p) pieces)
      as [->|(j & q & Hq & ->)]; (split; [|lia]).
    - eapply Hk; left.
    - eapply Hk; by right. }
  eexists; split; [done|]. destruct (adjust_ok ta _ false Hwf Hb) as (Hok & _ & Hadj).
  split; [done|]. etrans; [exact Hle|by apply Hadj].
Qed.

Lemma beginning_of_next_word_ok ta : wf ta ->
  exists p, beginning_of_next_word ta = Ok p /\ position_ok ta p.
Proof using Laws.
  intros Hwf. pose proof (wf_cursor Hwf) as Hcur.
  assert (forall n, boundary (text ta) n -> forall rest, str_from (text ta) n = Some rest ->
    forall i c, find_char not_whitespace rest = Some (i, c) -> boundary (text ta) (n + i)) as Hstep.
  { intros n (a & b & E & ->)%boundary_iff rest Hr i c (u & v & Eu & -> & _)%find_char_Some.
    rewrite E in Hr |- *. rewrite str_from_app in Hr. injection Hr as ->. rewrite Eu, app_assoc, <- str_len_app.
    apply boundary_app. }
  assert (forall n, boundary (text ta) n -> exists rest, str_from (text ta) n = Some rest) as Hfrom.
  { intros n (a & b & -> & ->)%boundary_iff. eexists. apply str_from_app. }
  unfold beginning_of_next_word. destruct (Hfrom _ Hcur) as [rest Er]. rewrite Er. cbn [from_opt res_bind].
  destruct (find_char not_whitespace rest) as [[i c]|] eqn:Ef; [|eauto using end_position_ok].
  case_match.
  { eexists; split; [done|]. apply adjust_ok; eauto. }
  destruct (end_of_next_word_ok ta _ Hwf Hcur) as (p & Ep & [Hp _] & _).
  unfold end_of_next_word. rewrite Ep. cbn [res_bind]. case_match; [eauto using end_position_ok|].
  destruct (Hfrom _ Hp) as [rest' Er']. rewrite Er'. cbn [from_opt res_bind].
  destruct (find_char not_whitespace rest') as [[j c']|] eqn:Ef'; [|eauto using end_position_ok].
  eexists; split; [done|]. apply adjust_ok; eauto.
Qed.

Lemma prev_atomic_ok ta pos : wf ta -> boundary (text ta) pos ->
  position_ok ta (prev_atomic_boundary ta pos) /\ (0 < pos -> prev_atomic_boundary ta pos < pos).
Proof using Laws.
  intros Hwf Hp. unfold prev_atomic_boundary. destruct (Nat.eqb_spec pos 0) as [->|Hnz].
  { split; [apply start_position_ok|lia]. }
  destruct (find_element ta _) as [e|] eqn:E.
  - apply find_element_Some in E as [He Hc]. split; [by apply element_ends_ok; [apply Hwf|]|lia].
  - destruct (prev_boundary_law (text ta) pos Hp ltac:(lia)) as (b & -> & Hb & Hlt).
    destruct (find_element_containing ta b) as [e|] eqn:Eb.
    + apply containing_Some in Eb as [He Hin]. split; [by apply element_ends_ok; [apply Hwf|]|].
      unfold inside in Hin. lia.
    + apply containing_None in Eb. by repeat split.
Qed.

Lemma next_atomic_ok ta pos : wf ta -> boundary (text ta) pos ->
  position_ok ta (next_atomic_boundary ta pos) /\ (pos < str_len (text ta) -> pos < next_atomic_boundary ta pos).
Proof using Laws.
  intros Hwf Hp. unfold next_atomic_boundary. destruct (_ <=? _) eqn:Hl.
  { split; [by apply end_position_ok|lia]. }
  destruct (find_element ta _) as [e|] eqn:E.
  - apply find_element_Some in E as [He Hc]. split; [by apply element_ends_ok; [apply Hwf|]|lia].
  - destruct (next_boundary_law (text ta) pos Hp ltac:(lia)) as (b & -> & Hb & Hlt).
    destruct (find_element_containing ta b) as [e|] eqn:Eb.
    + apply containing_Some in Eb as [He Hin]. split; [by apply element_ends_ok; [apply Hwf|]|].
      unfold inside in Hin. lia.
    + apply containing_None in Eb. by repeat split.
Qed.

Lemma step_back_ok ta n : forall p, wf ta -> boundary (text ta) p ->
  boundary (text ta) (step_back ta n p) /\ step_back ta n p <= p.
Proof using Laws.
  induction n as [|n IH]; intros p Hwf Hp; [done|]. cbn [step_back].
  destruct (prev_atomic_ok ta p Hwf Hp) as [[Hb _] Hlt].
  assert (prev_atomic_boundary ta p <= p).
  { destruct (decide (0 < p)) as [H0|H0]; [specialize (Hlt H0); lia|].
    unfold prev_atomic_boundary. rewrite (proj2 (Nat.eqb_eq p 0)) by lia. lia. }
  case_match; [done|]. destruct (IH _ Hwf Hb). split; [done|lia].
Qed.

Lemma step_forward_ok ta n : forall p, wf ta -> boundary (text ta) p ->
  boundary (text ta) (step_forward ta n p) /\ p <= step_forward ta n p.
Proof using Laws.
  induction n as [|n IH]; intros p Hwf Hp; [done|]. cbn [step_forward].
  destruct (next_atomic_ok ta p Hwf Hp) as [[Hb _] Hlt].
  assert (p <= next_atomic_boundary ta p).
  { destruct (decide (p < str_len (text ta))) as [H0|H0]; [specialize (Hlt H0); lia|].
    apply boundary_le in Hp. unfold next_atomic_boundary. rewrite (proj2 (Nat.leb_le _ _)) by lia. lia. }
  case_match; [done|]. destruct (IH _ Hwf Hb). split; [done|lia].
Qed.
End laws.

(** [keeps m]: the method returns, and what it returns is well formed. *)
Definition keeps (m : M TextArea) : Prop := exists ta, m = Ok ta /\ wf ta.

#[local] Hint Resolve set_cursor_well_formed well_formed_at well_formed_col well_formed_kill well_formed_vim
  replace_well_formed kill_well_formed yank_range_well_formed insert_well_formed end_position_ok
  start_position_ok : textarea.

Lemma keeps_Ok ta : wf ta -> keeps (Ok ta).
Proof. intros. by exists ta. Qed.

Lemma keeps_insert ta pos s : wf ta -> keeps (insert_str_at ta pos s).
Proof. apply insert_well_formed. Qed.

Lemma keeps_kill ta r k : wf ta -> range_ok (text ta) r -> keeps (kill_range_with_kind ta r k).
Proof. apply kill_well_formed. Qed.

Lemma keeps_yank_range ta r k : wf ta -> range_ok (text ta) r -> keeps (yank_range_with_kind ta r k).
Proof. apply yank_range_well_formed. Qed.

Lemma keeps_replace ta r s : wf ta -> range_ok (text ta) r -> keeps (replace_range ta r s).
Proof. apply replace_well_formed. Qed.

Lemma keeps_bind m (k : TextArea -> M TextArea) :
  keeps m -> (forall ta, wf ta -> keeps (k ta)) -> keeps (res_bind m k).
Proof. intros (ta & -> & H) Hk. by apply Hk. Qed.

#[local] Hint Resolve keeps_Ok keeps_insert keeps_kill keeps_yank_range keeps_replace : textarea.

(** The line of the cursor and its ends are ranges of the text. *)
Record line_bounds (ta : TextArea) (bol eol : nat) : Prop := {
  lb_bol : boundary (text ta) bol;
  lb_eol : boundary (text ta) eol;
  lb_le : bol <= cursor_pos ta <= eol;
  lb_next : eol < str_len (text ta) -> boundary (text ta) (eol + 1);
  lb_prev : 0 < bol -> boundary (text ta) (bol - 1);
  lb_begin : beginning_of_current_line ta = Ok bol;
  lb_end : end_of_current_line ta = Ok eol
}.

Lemma line_bounds_exist ta : wf ta -> exists bol eol, line_bounds ta bol eol.
Proof.
  intros (x & l & r & y & E & Ec & Eb & Ee & _ & Hx & Hy)%current_line.
  exists (str_len x), (str_len x + str_len l + str_len r). split; try done.
  - rewrite E. apply boundary_app.
  - rewrite E. rewrite <- !str_len_app, app_assoc, app_assoc. apply boundary_app.
  - rewrite Ec. lia.
  - rewrite E. intros Hlt. destruct Hy as [->|[z ->]]; [rewrite !str_len_app in Hlt; change (str_len []) with 0 in Hlt; lia|].
    replace (x ++ l ++ r ++ NL :: z) with ((((x ++ l) ++ r) ++ [NL]) ++ z) by (by rewrite <- !app_assoc).
    replace (str_len x + str_len l + str_len r + 1) with (str_len (((x ++ l) ++ r) ++ [NL]))
      by (by rewrite !str_len_app, str_len_single). apply boundary_app.
  - intros Hlt. destruct Hx as [->|[z ->]]; [change (str_len []) with 0 in Hlt; lia|].
    rewrite E, str_len_app, str_len_single, <- app_assoc. simpl. rewrite Nat.add_sub. apply boundary_app.
Qed.

Lemma range_ok_intro s m n : boundary s m -> boundary s n -> m <= n -> range_ok s (mk_range m n).
Proof. by repeat split. Qed.
#[local] Hint Resolve range_ok_intro : textarea.


Lemma wf_cursor_boundary ta : wf ta -> boundary (text ta) (cursor_pos ta).
Proof. intros Hwf. apply Hwf. Qed.
#[local] Hint Resolve wf_cursor_boundary : textarea.

(** What the kill commands cut: nothing, or a range around the cursor. *)
Definition kills (ta : TextArea) (m : M TextArea) : Prop :=
  m = Ok ta \/
  exists r kind, range_ok (text ta) r /\ r_start r <= cursor_pos ta <= r_end r /\
    m = kill_range_with_kind ta r kind.

Lemma kills_keeps ta m : wf ta -> kills ta m -> keeps m.
Proof. intros Hwf [->|(r & k & Hr & _ & ->)]; [by apply keeps_Ok|by apply keeps_kill]. Qed.

Lemma kills_range ta m n kind : boundary (text ta) m -> boundary (text ta) n ->
  m <= cursor_pos ta <= n -> kills ta (kill_range_with_kind ta (mk_range m n) kind).
Proof. right. exists (mk_range m n), kind. split_and!; [apply range_ok_intro|..]; done || (cbn; lia). Qed.

Ltac on_line Hwf :=
  let bol := fresh "bol" in let eol := fresh "eol" in
  let Hbol := fresh "Hbol" in let Heol := fresh "Heol" in let Hle := fresh "Hle" in
  let Hnext := fresh "Hnext" in let Hprev := fresh "Hprev" in
  let Eb := fresh "Eb" in let Ee := fresh "Ee" in
  destruct (line_bounds_exist _ Hwf) as (bol & eol & [Hbol Heol Hle Hnext Hprev Eb Ee]);
  rewrite ?Eb, ?Ee; cbn [res_bind].

Lemma kill_to_end_kills ta : wf ta -> kills ta (kill_to_end_of_line ta).
Proof.
  intros Hwf. unfold kill_to_end_of_line. on_line Hwf.
  destruct (cursor_pos ta =? eol) eqn:E1; [destruct (eol <? str_len (text ta)) eqn:E2; [|by left]|];
    apply kills_range; auto with textarea lia.
Qed.

Lemma vim_kill_to_end_kills ta : wf ta -> kills ta (vim_kill_to_end_of_line ta).
Proof.
  intros Hwf. unfold vim_kill_to_end_of_line. on_line Hwf.
  case_match; [apply kills_range; auto with textarea lia|by left].
Qed.

Lemma kill_to_beginning_kills ta : wf ta -> kills ta (kill_to_beginning_of_line ta).
Proof.
  intros Hwf. unfold kill_to_beginning_of_line. on_line Hwf.
  destruct (cursor_pos ta =? bol) eqn:E1; [destruct (0 <? bol) eqn:E2; [|by left]|];
    apply kills_range; auto with textarea lia.
Qed.

Lemma current_line_range ta : wf ta ->
  exists r, current_line_range_with_newline ta = Ok r /\ range_ok (text ta) r /\
    r_start r <= cursor_pos ta <= r_end r.
Proof.
  intros Hwf. unfold current_line_range_with_newline. on_line Hwf. eexists; split; [done|].
  destruct (eol <? str_len (text ta)) eqn:E; (split; [|cbn [r_start r_end]; lia]);
    apply range_ok_intro; (done || (apply Hnext; lia) || lia).
Qed.

Lemma kill_current_line_kills ta : wf ta -> kills ta (kill_current_line ta).
Proof.
  intros Hwf. unfold kill_current_line. destruct (current_line_range ta Hwf) as (r & -> & ? & ?).
  right. by exists r, Linewise.
Qed.

Lemma yank_current_line_keeps ta : wf ta -> keeps (yank_current_line ta).
Proof.
  intros Hwf. unfold yank_current_line. destruct (current_line_range ta Hwf) as (r & -> & ? & _).
  by apply keeps_yank_range.
Qed.

Lemma yank_keeps ta : wf ta -> keeps (yank ta).
Proof. intros Hwf. unfold yank. case_match; [by apply keeps_Ok|by apply keeps_insert]. Qed.

Lemma paste_line_keeps ta : wf ta -> keeps (paste_line_after_current_line ta).
Proof.
  intros Hwf. unfold paste_line_after_current_line. on_line Hwf.
  apply keeps_bind; [by apply keeps_insert|]. auto with textarea.
Qed.

Lemma beginning_of_line_total ta p : boundary (text ta) p -> exists q, beginning_of_line ta p = Ok q.
Proof. intros (a & b & E & ->)%boundary_iff. destruct (beginning_of_line_spec ta a b E) as (x & l & _ & -> & _). eauto. Qed.

Lemma end_of_line_total ta p : boundary (text ta) p ->
  exists q, end_of_line ta p = Ok q /\ boundary (text ta) q /\ p <= q.
Proof.
  intros (a & b & E & ->)%boundary_iff. destruct (end_of_line_spec ta a b E) as (l & y & -> & -> & _).
  eexists. split_and!; [done| |lia]. rewrite E, app_assoc, <- str_len_app. apply boundary_app.
Qed.

Lemma to_beginning_of_line_keeps ta up : wf ta -> keeps (move_cursor_to_beginning_of_line ta up).
Proof.
  intros Hwf. unfold move_cursor_to_beginning_of_line. on_line Hwf.
  destruct (up && (cursor_pos ta =? bol)) eqn:E; cbn [res_bind]; [|auto with textarea].
  destruct (beginning_of_line_total ta (cursor_pos ta - 1)) as [q ->]; [|cbn [res_bind]; auto with textarea].
  destruct (decide (0 < bol)).
  - replace (cursor_pos ta) with bol by lia. auto.
  - replace (cursor_pos ta - 1) with 0 by lia. apply boundary_0.
Qed.

Lemma to_end_of_line_keeps ta down : wf ta -> keeps (move_cursor_to_end_of_line ta down).
Proof.
  intros Hwf. unfold move_cursor_to_end_of_line. on_line Hwf.
  destruct (down && (cursor_pos ta =? eol)) eqn:E; cbn [res_bind]; [|auto with textarea].
  destruct (end_of_line_total ta (Nat.min (cursor_pos ta + 1) (str_len (text ta)))) as [q [-> _]];
    [|cbn [res_bind]; auto with textarea].
  destruct (decide (eol < str_len (text ta))).
  - rewrite Nat.min_l by lia. replace (cursor_pos ta) with eol by lia. auto.
  - rewrite Nat.min_r by lia. apply boundary_len.
Qed.

(** ** Vertical movement *)

Lemma partition_point_line pos lines idx : partition_point pos lines = S idx ->
  exists r, lines !! idx = Some r /\ r_start r <= pos.
Proof.
  revert idx. induction lines as [|r lines IH]; intros idx; cbn [partition_point]; [done|].
  destruct (r_start r <=? pos) eqn:E; [|done]. intros [= Hp].
  destruct (partition_point pos lines) as [|n]; subst; [|by apply IH].
  exists r. split; [done|lia].
Qed.

Section moves.
Context `{Laws : SegmentationLaws}.

Lemma move_to_col_keeps ta m n col : wf ta -> range_ok (text ta) (mk_range m n) ->
  keeps (move_to_display_col_on_line ta m n col).
Proof.
  intros Hwf (Hle & Hm & Hn). unfold move_to_display_col_on_line.
  destruct (str_slice_bounds (text ta) m n) as [d ->]; [done..|]. cbn [from_opt res_bind].
  apply keeps_Ok. by apply well_formed_clamped.
Qed.

Lemma remember_col_keeps ta c : wf ta -> wf (remember_col ta c).
Proof. intros. unfold remember_col. case_match; auto with textarea. Qed.

Lemma remember_col_same ta c :
  text (remember_col ta c) = text ta /\ cursor_pos (remember_col ta c) = cursor_pos ta.
Proof. unfold remember_col. by case_match. Qed.

Lemma wrapped_target_ok ta f : wf ta ->
  (forall cache idx j, wrap_cache ta = Some cache -> idx < length (wrap_lines cache) -> f idx = Some j ->
     j < length (wrap_lines cache)) ->
  exists o, wrapped_target ta f = Ok o /\
    forall col m n, o = Some (col, Some (m, n)) -> range_ok (text ta) (mk_range m n).
Proof.
  intros Hwf Hf. unfold wrapped_target. destruct (wrap_cache ta) as [cache|] eqn:Ec; [|by eexists].
  pose proof (wf_cache Hwf) as Hl. rewrite Ec in Hl. cbn in Hl. rewrite Forall_lookup in Hl.
  unfold wrapped_line_index_by_start. destruct (partition_point _ _) as [|idx] eqn:Ep; [by eexists|].
  destruct (partition_point_line _ _ _ Ep) as (r & Er & Hr). rewrite Er. cbn [from_opt res_bind].
  assert (exists c, match preferred_col ta with
    | Some c => Ok c
    | None => let? prefix := from_opt (str_slice (text ta) (r_start r) (cursor_pos ta)) in Ok (width prefix)
    end = Ok (E := Empty_set) c) as [c ->].
  { case_match; [by eexists|]. destruct (Hl _ _ Er) as (_ & Hs & _).
    destruct (str_slice_bounds (text ta) (r_start r) (cursor_pos ta)) as [d ->]; auto with textarea.
    by eexists. }
  cbn [res_bind]. destruct (f idx) as [j|] eqn:Ej; [|by eexists].
  destruct (lookup_lt_is_Some_2 (wrap_lines cache) j) as [line El].
  { eapply Hf; [done| |done]. by eapply lookup_lt_Some. }
  rewrite El. cbn [from_opt res_bind]. eexists; split; [done|]. intros col m n [= <- <- <-].
  destruct (Hl _ _ El) as (? & ? & ?). by repeat split.
Qed.

Lemma preferred_or_current_ok ta : wf ta -> exists c, preferred_or_current_col ta = Ok c.
Proof.
  intros Hwf. unfold preferred_or_current_col, current_display_col. case_match; [by eexists|].
  on_line Hwf. destruct (str_slice_bounds (text ta) bol (cursor_pos ta)) as [d ->]; auto with textarea; [lia|].
  by eexists.
Qed.

Lemma move_up_keeps ta : wf ta -> keeps (move_cursor_up ta).
Proof.
  intros Hwf. unfold move_cursor_up.
  destruct (wrapped_target_ok ta (fun idx => if 0 <? idx then Some (idx - 1) else None) Hwf) as (o & -> & Ho).
  { intros cache idx j _ Hlt. case_match; intros [=]. lia. }
  cbn [res_bind]. destruct o as [[col [[m n]|]]|]; [|auto with textarea|].
  - apply move_to_col_keeps; [by apply remember_col_keeps|].
    rewrite (proj1 (remember_col_same _ _)). eapply Ho. done.
  - pose proof (wf_cursor_boundary _ Hwf) as (a & b & E & Ec)%boundary_iff.
    rewrite E, Ec, str_to_app. cbn [from_opt res_bind].
    destruct (rfind_char is_newline a) as [[i c]|] eqn:Ef; [|auto with textarea].
    apply rfind_char_Some in Ef as (x & y & -> & -> & _).
    destruct (preferred_or_current_ok ta Hwf) as [col ->]. cbn [res_bind].
    rewrite (proj1 (remember_col_same _ _)). rewrite E, <- app_assoc, str_to_app. cbn [from_opt res_bind].
    apply move_to_col_keeps; [by apply remember_col_keeps|].
    rewrite (proj1 (remember_col_same _ _)), E, <- app_assoc.
    destruct (rfind_char is_newline x) as [[j c']|] eqn:Ex.
    + apply rfind_char_Some in Ex as (u & v & -> & -> & Hc & _). apply N.eqb_eq in Hc as ->.
      apply range_ok_intro; [|apply boundary_app|rewrite str_len_app, str_len_cons; change (len_utf8 NL) with 1; lia].
      replace ((u ++ NL :: v) ++ (c :: y) ++ b) with ((u ++ [NL]) ++ v ++ (c :: y) ++ b) by (by rewrite <- !app_assoc).
      change 1 with (str_len [NL]). rewrite <- str_len_app. apply boundary_app.
    + apply range_ok_intro; [apply boundary_0|apply boundary_app|lia].
Qed.

Lemma move_down_keeps ta : wf ta -> keeps (move_cursor_down ta).
Proof.
  intros Hwf. unfold move_cursor_down.
  destruct (wrapped_target_ok ta (fun idx =>
    if idx + 1 <? match wrap_cache ta with Some cache => length (wrap_lines cache) | None => 0 end
    then Some (idx + 1) else None) Hwf) as (o & -> & Ho).
  { intros cache idx j Ec Hlt. rewrite Ec. case_match; intros [=]. lia. }
  cbn [res_bind]. destruct o as [[col [[m n]|]]|]; [|auto with textarea|].
  - apply move_to_col_keeps; [by apply remember_col_keeps|].
    rewrite (proj1 (remember_col_same _ _)). eapply Ho. done.
  - destruct (preferred_or_current_ok ta Hwf) as [col ->]. cbn [res_bind].
    pose proof (remember_col_keeps ta col Hwf) as Hwf'. set (ta' := remember_col ta col) in *.
    pose proof (wf_cursor_boundary _ Hwf') as (a & b & E & Ec)%boundary_iff.
    rewrite E, Ec, str_from_app. cbn [from_opt res_bind].
    destruct (find_char is_newline b) as [[i c]|] eqn:Ef; [|rewrite <- E; auto with textarea].
    apply find_char_Some in Ef as (x & y & -> & -> & Hc & _). apply N.eqb_eq in Hc as ->.
    assert (boundary (text ta') (str_len x + str_len a + 1)) as Hb.
    { rewrite E. replace (a ++ x ++ NL :: y) with (((a ++ x) ++ [NL]) ++ y) by (by rewrite <- !app_assoc).
      replace (str_len x + str_len a + 1) with (str_len ((a ++ x) ++ [NL]))
        by (rewrite !str_len_app, str_len_single; change (len_utf8 NL) with 1; lia). apply boundary_app. }
    destruct (end_of_line_total ta' _ Hb) as (q & -> & Hq & Hle). cbn [res_bind].
    apply move_to_col_keeps; [done|]. by apply range_ok_intro.
Qed.

Lemma move_left_keeps ta : wf ta -> wf (move_cursor_left ta).
Proof using Laws.
  intros Hwf. unfold move_cursor_left. apply well_formed_col, well_formed_at; [done|].
  apply prev_atomic_ok; auto with textarea.
Qed.

Lemma move_right_keeps ta : wf ta -> wf (move_cursor_right ta).
Proof using Laws.
  intros Hwf. unfold move_cursor_right. apply well_formed_col, well_formed_at; [done|].
  apply next_atomic_ok; auto with textarea.
Qed.

Lemma delete_backward_keeps ta n : wf ta -> keeps (delete_backward ta n).
Proof using Laws.
  intros Hwf. unfold delete_backward. case_match; [by apply keeps_Ok|].
  destruct (step_back_ok ta n (cursor_pos ta) Hwf (wf_cursor Hwf)).
  apply keeps_replace; auto with textarea.
Qed.

Lemma delete_forward_keeps ta n : wf ta -> keeps (delete_forward ta n).
Proof using Laws.
  intros Hwf. unfold delete_forward. case_match; [by apply keeps_Ok|].
  destruct (step_forward_ok ta n (cursor_pos ta) Hwf (wf_cursor Hwf)).
  apply keeps_replace; auto with textarea.
Qed.

Lemma delete_forward_kill_kills ta n : wf ta -> kills ta (delete_forward_kill ta n).
Proof using Laws.
  intros Hwf. unfold delete_forward_kill. case_match; [by left|].
  destruct (step_forward_ok ta n (cursor_pos ta) Hwf (wf_cursor Hwf)).
  apply kills_range; auto with textarea.
Qed.

Lemma delete_backward_word_kills ta : wf ta -> kills ta (delete_backward_word ta).
Proof using Laws.
  intros Hwf. unfold delete_backward_word.
  destruct (beginning_of_previous_word_ok ta Hwf) as (p & -> & [Hp _] & Hle). cbn [res_bind].
  apply kills_range; auto with textarea.
Qed.

Lemma delete_forward_word_kills ta : wf ta -> kills ta (delete_forward_word ta).
Proof using Laws.
  intros Hwf. unfold delete_forward_word, end_of_next_word.
  destruct (end_of_next_word_ok ta (cursor_pos ta) Hwf (wf_cursor Hwf)) as (p & -> & [Hp _] & Hle). cbn [res_bind].
  case_match; [|by left]. apply kills_range; auto with textarea.
Qed.

Lemma paste_after_keeps ta : wf ta -> keeps (paste_after_cursor ta).
Proof using Laws.
  intros Hwf. unfold paste_after_cursor. case_match; [by apply keeps_Ok|].
  case_match; [apply keeps_insert; auto with textarea|by apply paste_line_keeps].
Qed.
End moves.

(** ** Elements *)

Lemma insert_by_range_start_perm e l : insert_by_range_start e l ≡ₚ e :: l.
Proof.
  induction l as [|x l IH]; cbn [insert_by_range_start]; [done|]. case_match; [done|].
  rewrite IH. apply Permutation_swap.
Qed.

Lemma sort_elements_perm l : sort_elements l ≡ₚ l.
Proof. induction l as [|x l IH]; cbn; [done|]. by rewrite insert_by_range_start_perm, IH. Qed.

Lemma insert_by_range_start_sorted e l : StronglySorted by_start l -> StronglySorted by_start (insert_by_range_start e l).
Proof.
  intros Hs. induction Hs as [|x l Hs IH Hx]; cbn [insert_by_range_start]; [repeat constructor|].
  destruct (e_start e <=? e_start x) eqn:E.
  - constructor; [by constructor|]. constructor; [unfold by_start; lia|].
    eapply Forall_impl; [done|]. unfold by_start. cbn. lia.
  - constructor; [done|]. rewrite insert_by_range_start_perm. constructor; [unfold by_start; lia|done].
Qed.

Lemma sort_elements_sorted l : StronglySorted by_start (sort_elements l).
Proof. induction l as [|x l IH]; cbn; [constructor|]. by apply insert_by_range_start_sorted. Qed.

Lemma apart_perm l k : l ≡ₚ k -> StronglySorted apart l -> StronglySorted apart k.
Proof.
  intros Hp. induction Hp as [|x l k Hp IH|x y l|l k m H1 IH1 H2 IH2]; intros Hs; auto.
  - inv Hs. constructor; [auto|]. by rewrite <- Hp.
  - inversion Hs as [|? ? Hs1 H1]; subst. inversion Hs1 as [|? ? Hs2 H2]; subst.
    inversion H1 as [|? ? Hyx Hyl]; subst.
    constructor; [by constructor|]. constructor; [by symmetry|done].
Qed.

Lemma spread_perm s l k : l ≡ₚ k -> spread s l -> spread s k.
Proof. intros Hp [H1 H2]. split; [by rewrite <- Hp|by eapply apart_perm]. Qed.

Lemma outside_perm l k p : l ≡ₚ k -> outside l p -> outside k p.
Proof. unfold outside. by intros ->. Qed.

Lemma sorted_ok s l : spread s l -> elements_ok s (sort_elements l).
Proof.
  intros Hs. destruct (spread_perm s l (sort_elements l)) as [? ?]; [by rewrite sort_elements_perm|done|].
  split; [done..|apply sort_elements_sorted].
Qed.

Lemma spread_snoc s l e : spread s l -> in_text s e -> Forall (apart e) l -> spread s (l ++ [e]).
Proof.
  intros [H1 H2] He Ha. apply (spread_perm s (e :: l)); [by rewrite (Permutation_app_comm l)|].
  split; by constructor.
Qed.

Lemma retained_ok s es p : elements_ok s es -> elements_ok s (retain p es).
Proof.
  intros [H1 H2 H3]. unfold retain. split.
  - apply Forall_forall. intros e He. apply elem_of_filter_bool in He.
    rewrite Forall_forall in H1. by apply H1, (proj1 He).
  - by apply Sorted_filter.
  - by apply Sorted_filter.
Qed.

Lemma retained_outside es p pos : outside es pos -> outside (retain p es) pos.
Proof.
  unfold outside, retain. rewrite !Forall_forall. intros H e He.
  apply elem_of_filter_bool in He. by apply H, (proj1 He).
Qed.

Lemma retain_well_formed ta p : wf ta -> wf (set_elements ta (retain p (elements ta))).
Proof. intros [H1 H2 H3 H4]. split; cbn; auto using retained_ok, retained_outside. Qed.

Lemma remove_element_range_keeps ta r : wf ta -> wf (remove_element_range ta r).1.
Proof. intros Hwf. unfold remove_element_range. case_match; cbn; [done|]. by apply retain_well_formed. Qed.

(** Adding an element over text that no other element covers. *)
Lemma add_element_well_formed ta r name : wf ta -> range_ok (text ta) r ->
  Forall (apart (mk_element (next_element_id ta) r name)) (elements ta) ->
  (strict = true -> ~ inside (cursor_pos ta) (mk_element (next_element_id ta) r name)) ->
  wf (add_element_with_id ta r name).1.
Proof.
  intros [H1 H2 H3 H4] Hr Ha Hc. unfold add_element_with_id, take_element_id. split; cbn; [|done| |done].
  - apply sorted_ok, spread_snoc; [by apply ok_spread|done|done].
  - intros Hs. eapply outside_perm; [symmetry; apply sort_elements_perm|].
    apply Forall_app. split; [by apply H3|]. constructor; [by apply Hc|constructor].
Qed.

Lemma shifted_apart a d b t es e : elements_ok (a ++ d ++ b) es ->
  uncut es (mk_range (str_len a) (str_len a + str_len d)) ->
  element_range e = mk_range (str_len a) (str_len a + str_len t) ->
  Forall (apart e) (shift_element (str_len a) (str_len d) (str_len t) <$>
    List.filter (survives (str_len a) (str_len d)) es).
Proof.
  intros Hok Hcut Er. apply Forall_fmap, Forall_forall. intros x [Hx Hs]%elem_of_filter_bool. cbn.
  destruct (survivor_cases a d t es Hcut x Hx Hs) as [[? ->]|(? & ? & ->)];
    unfold apart, e_start, e_end in *; rewrite Er; cbn; lia.
Qed.

(** Inserting text and making it an element. *)
Lemma insert_then_add ta s name : wf ta ->
  let start := clamp_pos_for_insertion ta (cursor_pos ta) in
  exists ta1, insert_str_at ta start s = Ok ta1 /\
    wf (add_element_with_id ta1 (mk_range start (start + str_len s)) name).1.
Proof.
  intros Hwf. cbv zeta. set (start := clamp_pos_for_insertion ta (cursor_pos ta)).
  destruct (clamp_nearest_ok ta (cursor_pos ta) (wf_elements Hwf)) as [Hb Ho].
  rewrite <- clamp_insertion_nearest in Hb, Ho. fold start in Hb, Ho.
  pose proof Hb as (a & b & E & Ea)%boundary_iff.
  assert (clamp_pos_for_insertion ta start = start) as Est
    by (rewrite clamp_insertion_nearest; by apply clamp_nearest_id).
  rewrite (insert_at_edits ta a b) by (done || congruence). eexists; split; [done|].
  assert (uncut (elements ta) (mk_range (str_len a) (str_len a + str_len []))) as Hcut
    by (change (str_len []) with 0; rewrite Nat.add_0_r, <- Ea; by apply uncut_empty).
  pose proof (edited_well_formed ta a [] b s E Hwf Hcut) as Hwf'. change (str_len []) with 0 in Hwf', Hcut.
  apply add_element_well_formed; [done| | |].
  - rewrite Ea. cbn. apply range_ok_intro; [apply boundary_app| |lia].
    rewrite app_assoc, <- str_len_app. apply boundary_app.
  - rewrite Ea. pose proof (wf_elements Hwf) as Hok. rewrite E in Hok.
    apply (shifted_apart a [] b s (elements ta)); done.
  - intros Hs. assert (start = cursor_pos ta) as Hsc.
    { unfold start. rewrite clamp_insertion_nearest, clamp_nearest_id; [done|].
      split; [apply Hwf|by apply (wf_outside Hwf)]. }
    unfold inside, e_start, e_end. cbn. unfold moved_pos. repeat case_match; lia.
Qed.

Lemma insert_element_keeps ta s : wf ta ->
  exists ta' id, insert_element ta s = Ok (ta', id) /\ wf ta'.
Proof.
  intros Hwf. destruct (insert_then_add ta s None Hwf) as (ta1 & E & Hw).
  unfold insert_element. rewrite E. cbn [res_bind]. unfold add_element.
  destruct (add_element_with_id _ _ _) as [ta2 id]. eauto 6 with textarea.
Qed.

Lemma insert_named_element_keeps ta s id : wf ta -> keeps (insert_named_element ta s id).
Proof.
  intros Hwf. destruct (insert_then_add ta s (Some id) Hwf) as (ta1 & E & Hw).
  unfold insert_named_element. rewrite E. cbn [res_bind].
  destruct (add_element_with_id _ _ _) as [ta2 n]. eauto 6 with textarea.
Qed.

Lemma existsb_false_Forall {A} (p : A -> bool) l : existsb p l = false -> Forall (fun x => p x = false) l.
Proof. induction l as [|x l IH]; cbn; [done|]. intros [? ?]%orb_false_iff. constructor; auto. Qed.

(** An element added over typed text may find the cursor inside it. *)
Lemma add_element_range_keeps ta r : strict = false -> wf ta -> wf (add_element_range ta r).1.
Proof.
  intros Hs Hwf. unfold add_element_range.
  destruct (_ <=? _) eqn:E1; [done|]. destruct (existsb _ _) eqn:E2; [done|]. clear E2.
  destruct (existsb _ _) eqn:E2; [done|]. unfold add_element.
  match goal with |- context [add_element_with_id ta ?x None] =>
    pose proof (add_element_well_formed ta x None Hwf) as H end.
  destruct (add_element_with_id _ _ _) as [ta2 n]. apply H.
  - apply range_ok_intro; [apply clamp_char_ok..|lia].
  - eapply Forall_impl; [by apply existsb_false_Forall|]. intros e He. unfold apart, e_start, e_end in *.
    cbn [element_range r_start r_end] in *. lia.
  - by rewrite Hs.
Qed.

Lemma element_uncut s es e : spread s es -> e ∈ es -> uncut es (element_range e).
Proof.
  intros [Hin Hap] He. apply Forall_forall. intros x Hx Hi.
  destruct (apart_pair es x e Hap Hx He) as [->|Ha]; [reflexivity|].
  unfold apart, intersects, e_start, e_end in *. lia.
Qed.

(** The text of an element, with what is before and after it. *)
Lemma element_split ta e : wf ta -> e ∈ elements ta ->
  exists a d b, text ta = a ++ d ++ b /\ element_range e = mk_range (str_len a) (str_len a + str_len d) /\
    uncut (elements ta) (mk_range (str_len a) (str_len a + str_len d)).
Proof.
  intros Hwf He. pose proof (element_uncut _ _ e (ok_spread _ _ (wf_elements Hwf)) He) as Hu.
  pose proof (ok_in_text _ _ (wf_elements Hwf)) as Hin. rewrite Forall_forall in Hin.
  destruct (Hin e He) as (Hle & Hs & Hen). unfold e_start, e_end in *.
  destruct (boundary_split3 (text ta) (r_start (element_range e)) (r_end (element_range e)))
    as (a & d & b & E & E1 & E2); [done..|].
  exists a, d, b. rewrite <- E1. rewrite <- E1 in E2. rewrite <- E2. by destruct (element_range e).
Qed.

Lemma replace_element_by_id_keeps ta id s : wf ta ->
  exists ta' found, replace_element_by_id ta id s = Ok (ta', found) /\ wf ta'.
Proof.
  intros Hwf. unfold replace_element_by_id. destruct (find_element ta (has_name id)) as [e|] eqn:E; [|by eauto].
  apply find_element_Some in E as [He _]. destruct (element_split ta e Hwf He) as (a & d & b & Et & -> & Hu).
  rewrite (replace_raw_edits ta a d b) by done. cbn [res_bind]. do 2 eexists; split; [done|].
  apply retain_well_formed. case_match; [done|]. by apply settle_well_formed, edited_well_formed.
Qed.

Lemma edited_then_add ta a d b t ta1 name : text ta = a ++ d ++ b -> wf ta ->
  uncut (elements ta) (mk_range (str_len a) (str_len a + str_len d)) ->
  let ta2 := edited ta (str_len a) (str_len d) t (a ++ t ++ b) in
  wf ta1 -> text ta1 = text ta2 -> elements ta1 = elements ta2 ->
  (strict = true -> cursor_pos ta1 = cursor_pos ta2) ->
  wf (add_element_with_id ta1 (mk_range (str_len a) (str_len a + str_len t)) name).1.
Proof.
  intros E Hwf Hcut ta2 Hwf1 Et Ee Ec. pose proof (wf_elements Hwf) as Hok. rewrite E in Hok.
  apply add_element_well_formed; [done| | |].
  - rewrite Et. cbn. apply range_ok_intro; [apply boundary_app| |lia].
    rewrite app_assoc, <- str_len_app. apply boundary_app.
  - rewrite Ee. by apply (shifted_apart a d b t (elements ta)).
  - intros Hs. rewrite (Ec Hs). unfold inside, e_start, e_end. cbn. unfold moved_pos. repeat case_match; lia.
Qed.

Lemma update_named_element_keeps ta id s : wf ta ->
  exists ta' found, update_named_element_by_id ta id s = Ok (ta', found) /\ wf ta'.
Proof.
  intros Hwf. unfold update_named_element_by_id.
  destruct (find_element ta (has_name id)) as [e|] eqn:E; [|by eauto].
  apply find_element_Some in E as [He _]. destruct (element_split ta e Hwf He) as (a & d & b & Et & Er & Hu).
  unfold e_start. rewrite Er. cbn [r_start r_end].
  rewrite (replace_raw_edits ta a d b) by done. cbn [res_bind]. do 2 eexists; split; [done|].
  pose proof (edited_well_formed ta a d b s Et Hwf Hu) as Hwf'.
  destruct (_ && _) eqn:Ez.
  - assert (str_len d = 0 /\ str_len s = 0) as [Ed Es] by lia. rewrite Es, Nat.add_0_r.
    rewrite Ed, Nat.add_0_r in *. destruct (element_ends_ok ta e (wf_elements Hwf) He) as [[Hb Ho] _].
    unfold e_start in Hb, Ho. rewrite Er in Hb, Ho. cbn [r_start] in Hb, Ho.
    apply add_element_well_formed; [done|by apply range_ok_intro| |].
    + eapply Forall_impl; [exact Ho|]. intros x Hx. unfold apart, inside, e_start, e_end in *. cbn. lia.
    + intros _. unfold inside, e_start, e_end. cbn. lia.
  - eapply (edited_then_add ta a d b s); try done; [by apply settle_well_formed|].
    intros Hs. rewrite settle_id; [done|]. split; [apply Hwf'|by apply (wf_outside Hwf')].
Qed.

(** ** Whole-buffer replacement *)

(** The range as [set_text_inner] takes it. *)
Definition clamp_range (ta : TextArea) (r : Range) : Range :=
  mk_range (clamp_pos_to_char_boundary ta (Nat.min (r_start r) (str_len (text ta))))
    (clamp_pos_to_char_boundary ta (Nat.min (r_end r) (str_len (text ta)))).

Lemma set_text_fold elems ta : exists new_elements n,
  fold_left set_text_element elems ta = set_next_id (set_elements ta (elements ta ++ new_elements)) n /\
  Forall (in_text (text ta)) new_elements /\
  element_range <$> new_elements =
    List.filter (fun r => r_start r <? r_end r) (clamp_range ta ∘ byte_range <$> elems) /\
  (Forall (fun u => range_ok (text ta) (byte_range u)) elems ->
   element_range <$> new_elements = List.filter (fun r => r_start r <? r_end r) (byte_range <$> elems)).
Proof.
  revert ta. induction elems as [|u elems IH]; intros ta; cbn [fold_left].
  { exists [], (next_element_id ta). rewrite app_nil_r. split_and!; [by destruct ta|constructor|done|done]. }
  set (m := clamp_pos_to_char_boundary ta (Nat.min (r_start (byte_range u)) (str_len (text ta)))).
  set (n := clamp_pos_to_char_boundary ta (Nat.min (r_end (byte_range u)) (str_len (text ta)))).
  assert (range_ok (text ta) (byte_range u) -> m = r_start (byte_range u) /\ n = r_end (byte_range u)) as Hmn.
  { intros (_ & Hs & He). unfold m, n. pose proof (boundary_le _ _ Hs). pose proof (boundary_le _ _ He).
    rewrite !Nat.min_l by lia. by rewrite !clamp_char_id. }
  change (set_text_element ta u) with
    (if n <=? m then ta
     else set_elements (take_element_id ta).1
            (elements ta ++ [mk_element (next_element_id ta) (mk_range m n) None])).
  destruct (n <=? m) eqn:Elt.
  - destruct (IH ta) as (es & k & -> & Hin & Hc & Hr). exists es, k. split_and!; [done..| |].
    { rewrite Hc. cbn [fmap list_fmap List.filter compose clamp_range r_start r_end]. fold m n.
      by rewrite (proj2 (Nat.ltb_ge _ _)) by lia. }
    intros [Hu Hus]%Forall_cons. rewrite (Hr Hus). cbn [fmap list_fmap List.filter].
    destruct (Hmn Hu) as [<- <-]. by rewrite (proj2 (Nat.ltb_ge _ _)) by lia.
  - set (ta1 := set_elements _ _).
    destruct (IH ta1) as (es & k & -> & Hin & Hc & Hr).
    exists (mk_element (next_element_id ta) (mk_range m n) None :: es), k. split_and!.
    + unfold ta1. cbn. by rewrite <- app_assoc.
    + constructor; [|done]. split_and!; [cbn; lia|apply clamp_char_ok..].
    + rewrite fmap_cons, Hc. cbn [fmap list_fmap List.filter compose clamp_range r_start r_end element_range]. fold m n.
      by rewrite (proj2 (Nat.ltb_lt _ _)) by lia.
    + intros [Hu Hus]%Forall_cons. rewrite fmap_cons, (Hr Hus). cbn [fmap list_fmap List.filter].
      destruct (Hmn Hu) as [<- <-]. rewrite (proj2 (Nat.ltb_lt _ _)) by lia.
      destruct (Hmn Hu) as [-> ->]. by destruct (byte_range u).
Qed.

(** Ranges that do not overlap. *)
Definition ranges_apart (r r' : Range) : Prop := r_end r <= r_start r' \/ r_end r' <= r_start r.

Definition user_elements_ok (elems : list UserTextElement) : Prop :=
  StronglySorted ranges_apart (byte_range <$> elems).

Lemma Sorted_fmap_inv {A B} (R : relation B) (f : A -> B) l :
  StronglySorted R (f <$> l) -> StronglySorted (fun x y => R (f x) (f y)) l.
Proof.
  induction l as [|x l IH]; intros Hs; [constructor|]. inversion Hs as [|? ? H1 H2]; subst.
  constructor; [auto|]. exact (proj1 (Forall_fmap _ _ _) H2).
Qed.

Lemma set_text_spread s ta elems : text ta = s -> elements ta = [] -> user_elements_ok elems ->
  spread s (elements (fold_left set_text_element elems ta)).
Proof.
  intros <- Ee Hap. destruct (set_text_fold elems ta) as (es & n & -> & Hin & Hc & _).
  cbn. rewrite Ee. cbn. split; [done|]. change apart with (fun x y => ranges_apart (element_range x) (element_range y)).
  apply (Sorted_fmap_inv ranges_apart). rewrite Hc. apply Sorted_filter. unfold user_elements_ok in Hap.
  clear -Hap. induction elems as [|u elems IH]; [constructor|]. inversion Hap as [|? ? H1 H2]; subst.
  rewrite fmap_cons. constructor; [auto|]. rewrite Forall_fmap in H2 |- *. eapply Forall_impl; [exact H2|].
  intros v Hv. unfold ranges_apart in *. cbn [compose clamp_range r_start r_end] in *.
  destruct Hv as [Hv|Hv]; [left|right]; apply clamp_char_mono; lia.
Qed.

Lemma settled_well_formed ta : elements_ok (text ta) (elements ta) -> cache_ok (text ta) (wrap_cache ta) ->
  wf (settled ta).
Proof. intros Hok Hc. destruct (clamp_nearest_ok ta (cursor_pos ta) Hok). by split. Qed.

(** Replacing the whole text gives a well-formed buffer whatever the old one was. *)
Lemma set_text_inner_keeps ta s elems :
  (forall es, elems = Some es -> user_elements_ok es) -> wf (set_text_inner ta s elems).
Proof.
  intros Hes. unfold set_text_inner. apply well_formed_col.
  set (ta0 := set_elements (set_cursor_pos (set_text ta s) _) []).
  assert (forall ta1, text ta1 = s -> elements_ok s (elements ta1) ->
    wf (set_wrap_cache (set_cursor_pos ta1 (clamp_pos_to_nearest_boundary ta1 (cursor_pos ta1))) None)) as Hgo.
  { intros ta1 Et Hok. destruct (settled_well_formed (set_wrap_cache ta1 None)) as [H1 H2 H3 H4]; [by rewrite <- Et in Hok|done|].
    by split. }
  destruct elems as [es|]; apply Hgo; cbn; try (repeat constructor; done).
  - destruct (set_text_fold es ta0) as (new_elements & n & -> & _). done.
  - apply sorted_ok. by apply set_text_spread; [| |apply Hes].
Qed.

(** ** Renaming an element *)

Lemma position_lookup {A} (p : A -> bool) l i : position p l = Some i -> exists x, l !! i = Some x /\ p x = true.
Proof.
  revert i. induction l as [|x l IH]; intros i; cbn [position]; [done|].
  destruct (p x) eqn:E; [intros [= <-]; by exists x|].
  destruct (position p l) as [j|]; [|done]. intros [= <-]. by apply IH.
Qed.

Lemma imap_others {A} (f : A -> A) l x k i : i = length l ->
  imap (fun j y => if j =? i then y else f y) (l ++ x :: k) = (f <$> l) ++ x :: (f <$> k).
Proof.
  intros ->. revert x k. induction l as [|y l IH]; intros x k; cbn.
  - f_equal. induction k as [|z k IHk] using rev_ind; [done|]. rewrite imap_app, fmap_app, IHk. done.
  - f_equal. apply IH.
Qed.

Lemma shift_same start end_ e : e_end e <= start \/ end_ <= e_start e -> start <= end_ ->
  shift_after_rename start end_ (end_ - start) e = e.
Proof.
  intros H Hle. unfold shift_after_rename. destruct (_ <=? _) eqn:E1; [done|].
  rewrite (proj2 (Nat.leb_le _ _)) by lia. rewrite !Nat.add_sub. destruct e as [i [m n] o]. done.
Qed.

Lemma renamed_spread a d b t e l k : let es := l ++ e :: k in
  spread (a ++ d ++ b) es -> element_range e = mk_range (str_len a) (str_len a + str_len d) ->
  let sh := shift_after_rename (str_len a) (str_len a + str_len d) (str_len t) in
  spread (a ++ t ++ b)
    ((sh <$> l) ++ with_range e (mk_range (str_len a) (str_len a + str_len t)) :: (sh <$> k)).
Proof.
  intros es Hsp Er sh. set (e' := with_range _ _).
  assert (es ≡ₚ e :: l ++ k) as Hp by (unfold es; by rewrite <- Permutation_middle).
  apply (spread_perm _ _ _ Hp) in Hsp as [Hin Hap].
  apply (spread_perm _ (e' :: (sh <$> (l ++ k)))).
  { rewrite fmap_app. by rewrite <- Permutation_middle. }
  apply Forall_cons in Hin as [_ Hin]. inversion Hap as [|? ? Hap' Hae]; subst.
  assert (forall x, x ∈ l ++ k ->
    (e_end x <= str_len a /\ sh x = x \/
     str_len a + str_len d <= e_start x /\ sh x = with_range x
       (mk_range (e_start x + str_len t - str_len d) (e_end x + str_len t - str_len d))) /\
    in_text (a ++ t ++ b) (sh x)) as Hcases.
  { intros x Hx. rewrite Forall_forall in Hin, Hae. specialize (Hin x Hx). specialize (Hae x Hx).
    unfold apart, e_start, e_end in Hae. rewrite Er in Hae. cbn [r_start r_end] in Hae. fold (e_start x) (e_end x) in Hae.
    unfold sh, shift_after_rename. replace (str_len a + str_len d - str_len a) with (str_len d) by lia.
    destruct (e_end x <=? str_len a) eqn:E1; [split; [left; split; [lia|done]|by eapply kept_before; [done|lia]]|].
    rewrite (proj2 (Nat.leb_le _ _)) by lia. split; [right; split; [lia|done]|]. by eapply kept_after; [done|lia]. }
  split; constructor.
  - unfold e'. split_and!; cbn; [lia|apply boundary_app|]. rewrite app_assoc, <- str_len_app. apply boundary_app.
  - apply Forall_fmap, Forall_forall. intros x Hx. by apply Hcases.
  - apply Sorted_map; [done|]. intros x y Hx Hy.
    destruct (Hcases x Hx) as [[[? ->]|[? ->]] _], (Hcases y Hy) as [[[? ->]|[? ->]] _];
      unfold apart, e_start, e_end in *; cbn; lia.
  - apply Forall_fmap, Forall_forall. intros x Hx. destruct (Hcases x Hx) as [[[? E]|[? E]] _]; cbn; rewrite E;
      unfold apart, e', e_start, e_end in *; cbn; lia.
Qed.

Lemma fmap_same {A} (f : A -> A) l : Forall (fun x => f x = x) l -> f <$> l = l.
Proof. induction 1; cbn; congruence. Qed.

(** The elements after a rename, whether or not the length changes. *)
Lemma renamed_elements l e k m n ins : m <= n -> Forall (fun x => e_end x <= m \/ n <= e_start x) (l ++ k) ->
  let es := <[length l := with_range e (mk_range m (m + ins))]> (l ++ e :: k) in
  (if ins =? n - m then es
   else imap (fun j x => if j =? length l then x else shift_after_rename m n ins x) es) =
  (shift_after_rename m n ins <$> l) ++ with_range e (mk_range m (m + ins)) :: (shift_after_rename m n ins <$> k).
Proof.
  intros Hle Hap es. unfold es. rewrite insert_app_r_alt, Nat.sub_diag by done. cbn [insert list_insert].
  destruct (Nat.eqb_spec ins (n - m)) as [->|]; [|by apply imap_others].
  apply Forall_app in Hap as [H1 H2].
  rewrite !fmap_same; [done|eapply Forall_impl; [done|]; intros x Hx; by apply shift_same..].
Qed.

Lemma replace_element_payload_keeps ta old_name new_name : wf ta ->
  exists ta' found, replace_element_payload ta old_name new_name = Ok (ta', found) /\ wf ta'.
Proof.
  intros Hwf. unfold replace_element_payload. destruct (position _ _) as [idx|] eqn:Ep; [|by eauto].
  apply position_lookup in Ep as (e & El & _). rewrite El. cbn [from_opt res_bind].
  pose proof (list_elem_of_lookup_2 _ _ _ El) as He.
  destruct (element_split ta e Hwf He) as (a & d & b & Et & Er & Hu).
  unfold e_start, e_end. rewrite Er. cbn [r_start r_end].
  rewrite (proj2 (Nat.ltb_ge (str_len a + str_len d) _)) by lia.
  rewrite (proj2 (Nat.ltb_ge _ (str_len a + str_len d))) by (rewrite Et, !str_len_app; lia).
  cbn [orb]. rewrite Et, str_replace_mid. cbn [from_opt res_bind]. do 2 eexists; split; [done|].
  pose proof (list_elem_of_split_length _ _ _ El) as (l & k & El' & ->).
  destruct Hwf as [Hok _ _ Hca]. apply ok_spread in Hok. rewrite Et in Hok.
  cbn [elements set_preferred_col set_wrap_cache set_text]. rewrite El' in *.
  pose proof (renamed_spread a d b new_name e l k Hok Er) as Hsp. cbv zeta in Hsp.
  rewrite renamed_elements; [|lia|].
  2: { destruct Hok as [_ Hap]. apply (apart_perm _ (e :: l ++ k)) in Hap; [|by rewrite <- Permutation_middle].
    inversion Hap as [|? ? _ Ha]; subst. eapply Forall_impl; [exact Ha|]. intros x Hx.
    unfold apart, e_start, e_end in *. rewrite Er in Hx. cbn [r_start r_end] in Hx. lia. }
  match goal with |- wf (set_elements (set_cursor_pos ?t _) _) => set (ta1 := t) in * end.
  destruct (clamp_nearest_spread ta1 (cursor_pos ta1) Hsp) as [Hb Ho]. split; cbn; [|done| |done].
  - by apply sorted_ok.
  - intros _. eapply outside_perm; [symmetry; apply sort_elements_perm|exact Ho].
Qed.
End invariant.

Arguments keeps_Ok {strict ta} _.
#[export] Hint Resolve set_cursor_well_formed well_formed_at well_formed_col well_formed_kill well_formed_vim
  end_position_ok start_position_ok range_ok_intro wf_cursor_boundary
  keeps_Ok keeps_insert keeps_kill keeps_yank_range keeps_replace keeps_bind
  yank_keeps paste_line_keeps yank_current_line_keeps to_beginning_of_line_keeps to_end_of_line_keeps
  move_left_keeps move_right_keeps move_up_keeps move_down_keeps
  delete_backward_keeps delete_forward_keeps paste_after_keeps
  kills_keeps kill_to_end_kills vim_kill_to_end_kills kill_to_beginning_kills kill_current_line_kills
  delete_forward_kill_kills delete_backward_word_kills delete_forward_word_kills : textarea.

(** ** Whole elements *)

Lemma survives_absorbed a n e : survives a n e = negb (absorbed (mk_range a (a + n)) e).
Proof.
  unfold survives, absorbed. case_bool_decide as H; unfold within in H; cbn [r_start r_end] in H;
    fold (e_start e) (e_end e) in H; lia.
Qed.

(** C36: replacing a range of a well-formed buffer never cuts an element.  What is
    replaced is the least range around the given one that cuts none; the text before
    and after it stays, the elements inside it go, and every other element keeps its
    id, its name and its text, wherever the edit moved it. *)
Theorem replacement_takes_whole_elements strict ta r t :
  well_formed strict ta -> range_ok (text ta) r -> r_start r < r_end r \/ t <> [] ->
  exists a d b ta', text ta = a ++ d ++ b /\ replace_range ta r t = Ok ta' /\ text ta' = a ++ t ++ b /\
    let r' := mk_range (str_len a) (str_len a + str_len d) in
    within r r' /\ uncut (elements ta) r' /\
    (forall r2, within r r2 -> uncut (elements ta) r2 -> within r' r2) /\
    payload (text ta') <$> elements ta' =
      payload (text ta) <$> List.filter (fun e => negb (absorbed r' e)) (elements ta).
Proof.
  intros Hwf Hr Hne. destruct (expand_splits strict ta r Hwf Hr) as (a & d & b & Et & E & Hw & Hu & Hl).
  unfold replace_range. rewrite E. cbn [res_bind]. rewrite (replace_raw_edits strict ta a d b) by done.
  assert ((str_len d =? 0) && (str_len t =? 0) = false) as ->.
  { destruct Hne as [Hne|Hne]; [unfold within in Hw; cbn [r_start r_end] in Hw; lia|].
    destruct t as [|c t]; [done|]. rewrite str_len_cons. pose proof (len_utf8_pos c). lia. }
  exists a, d, b. eexists. split_and!; [done..|]. cbn [settled text elements edited set_cursor_pos].
  rewrite Et. pose proof (wf_elements Hwf) as Hok. rewrite Et in Hok.
  unfold shift_elements. cbn [elements set_elements]. etrans; [by apply (shifted_payloads a d b t (elements ta))|].
  f_equal. apply List.filter_ext. intros e. apply survives_absorbed.
Qed.

(** ** Kill and yank *)

Section kill.
Context `{Laws : SegmentationLaws}.

Inductive KillCommand :=
| KillToEnd | KillToBeginning | KillVimToEnd | KillWholeLine
| KillForward (n : nat) | KillWordBackward | KillWordForward.

Definition run_kill (c : KillCommand) (ta : TextArea) : M TextArea :=
  match c with
  | KillToEnd => kill_to_end_of_line ta
  | KillToBeginning => kill_to_beginning_of_line ta
  | KillVimToEnd => vim_kill_to_end_of_line ta
  | KillWholeLine => kill_current_line ta
  | KillForward n => delete_forward_kill ta n
  | KillWordBackward => delete_backward_word ta
  | KillWordForward => delete_forward_word ta
  end.

Lemma run_kill_kills strict c ta : well_formed strict ta -> kills ta (run_kill c ta).
Proof using Laws. intros Hwf. destruct c; cbn [run_kill]; eauto with textarea. Qed.

End kill.

(** ** Drafts *)

Definition nonempty_range (r : Range) : bool := r_start r <? r_end r.

Lemma sort_elements_id l : StronglySorted by_start l -> sort_elements l = l.
Proof.
  induction 1 as [|x l Hs IH Hx]; [done|]. change (sort_elements (x :: l)) with (insert_by_range_start x (sort_elements l)).
  rewrite IH. destruct Hx as [|y l Hxy _]; [done|]. cbn [insert_by_range_start]. unfold by_start in Hxy. by rewrite (proj2 (Nat.leb_le _ _)) by done.
Qed.

Lemma text_elements_ranges ta :
  text_elements ta = (fun r => mk_user_element r (range_text ta r)) <$> (element_range <$> elements ta).
Proof. unfold text_elements. by rewrite <- list_fmap_compose. Qed.

Lemma Sorted_fmap {A B} (R : relation B) (f : A -> B) l :
  StronglySorted (fun x y => R (f x) (f y)) l -> StronglySorted R (f <$> l).
Proof. induction 1 as [|x l Hs IH Hx]; cbn; constructor; [done|]. by apply Forall_fmap. Qed.

Lemma filter_fmap_bool {A B} (p : B -> bool) (f : A -> B) l :
  List.filter p (f <$> l) = f <$> List.filter (fun x => p (f x)) l.
Proof.
  induction l as [|x l IH]; [done|]. rewrite fmap_cons. cbn [List.filter].
  destruct (p (f x)); [by rewrite fmap_cons, IH|done].
Qed.

(** A draft saved as its text and its elements is restored by
    [set_text_with_elements], into any buffer: the same text, and the same elements in
    the same places with the same placeholders, except those that cover no text. *)
Theorem draft_restored strict ta other : well_formed strict ta ->
  let restored := set_text_with_elements other (text ta) (text_elements ta) in
  text restored = text ta /\
  text_elements restored = List.filter (fun u => nonempty_range (byte_range u)) (text_elements ta).
Proof.
  intros Hwf restored.
  set (ta0 := set_elements (set_cursor_pos (set_text other (text ta))
    (Nat.min (cursor_pos (set_text other (text ta))) (str_len (text ta)))) []).
  destruct (set_text_fold (text_elements ta) ta0) as (es & n & Ef & Hin & _ & Hr).
  assert (text restored = text ta /\ elements restored = sort_elements es) as [Et Ee].
  { unfold restored, set_text_with_elements, set_text_inner. cbv zeta. fold ta0. by rewrite Ef. }
  split; [done|]. rewrite !text_elements_ranges, Ee.
  assert (byte_range <$> text_elements ta = element_range <$> elements ta) as Eb
    by (rewrite text_elements_ranges, <- list_fmap_compose; apply list_fmap_id).
  assert (element_range <$> es = List.filter nonempty_range (element_range <$> elements ta)) as Er.
  { rewrite <- Eb. apply Hr. rewrite text_elements_ranges, !Forall_fmap.
    eapply Forall_impl; [apply (ok_in_text _ _ (wf_elements Hwf))|]. by intros e (? & ? & ?). }
  rewrite (sort_elements_id es).
  2: { apply (Sorted_fmap_inv (fun r r' => r_start r <= r_start r')). rewrite Er. apply Sorted_filter, Sorted_fmap.
    apply (ok_sorted _ _ (wf_elements Hwf)). }
  rewrite Er. unfold range_text. rewrite Et. by rewrite !filter_fmap_bool.
Qed.

(** ** Examples *)

(** Segmentation into characters, a run of text as one word, which satisfies the laws. *)
Definition char_segmentation : Segmentation := {|
  prev_boundary s p := Some (if p =? 0 then None else Some (prev_char_boundary s (p - 1)));
  next_boundary s p := Some (if str_len s <=? p then None else Some (next_char_boundary s (p + 1) (str_len s - (p + 1))));
  split_word_bounds s := match s with [] => [] | _ => [s] end;
  graphemes s := (fun c => [c]) <$> s;
  width s := length s
|}.

Lemma prev_char_boundary_le s n : prev_char_boundary s n <= n.
Proof. induction n as [|n IH]; cbn [prev_char_boundary]; [done|]. case_match; lia. Qed.

Lemma next_char_boundary_ge s k : forall n, n <= next_char_boundary s n k.
Proof. induction k as [|k IH]; intros n; cbn [next_char_boundary]; [done|]. case_match; [done|]. specialize (IH (S n)). lia. Qed.

Lemma concat_chars (s : str) : concat ((fun c => [c]) <$> s) = s.
Proof. induction s as [|c s IH]; cbn; [done|]. f_equal. apply IH. Qed.

Lemma char_segmentation_laws : @SegmentationLaws char_segmentation.
Proof.
  split; cbn.
  - intros s p Hp Hlt. rewrite (proj2 (Nat.eqb_neq p 0)) by lia. eexists; split_and!; [done|apply prev_char_boundary_ok|].
    pose proof (prev_char_boundary_le s (p - 1)). lia.
  - intros s p Hp Hlt. rewrite (proj2 (Nat.leb_gt _ _)) by done. eexists; split_and!; [done|apply next_char_boundary_ok; lia|].
    pose proof (next_char_boundary_ge s (str_len s - (p + 1)) (p + 1)). lia.
  - intros [|c s]; cbn; [done|]. by rewrite app_nil_r.
  - intros [|c s]; repeat constructor. done.
  - apply concat_chars.
Qed.

#[local] Existing Instance char_segmentation.
#[local] Existing Instance char_segmentation_laws.

(** A draft with a placeholder, the cursor at its end. *)
Definition example_draft : TextArea :=
  set_cursor (set_text_with_elements new_text_area (lit "say [img] now") [mk_user_element (mk_range 4 9) None]) 13.

Lemma example_draft_well_formed : well_formed true example_draft.
Proof.
  apply set_cursor_well_formed, set_text_inner_keeps. intros es [= <-]. repeat constructor.
Qed.

Lemma replacement_takes_whole_elements_witness :
  exists a d b ta', text example_draft = a ++ d ++ b /\ replace_range example_draft (mk_range 2 6) (lit "x") = Ok ta' /\
    text ta' = a ++ lit "x" ++ b.
Proof.
  destruct (replacement_takes_whole_elements true example_draft (mk_range 2 6) (lit "x"))
    as (a & d & b & ta' & H1 & H2 & H3 & _).
  - exact example_draft_well_formed.
  - repeat split; vm_compute; try done; lia.
  - left. cbn. lia.
  - by exists a, d, b, ta'.
Defined.


(** Deleting backwards over the placeholder takes it whole; a word kill takes the word. *)
Example delete_takes_placeholder :
  (let? ta := delete_backward (set_cursor example_draft 9) 1 in Ok (text ta, length (elements ta))) =
  Ok (lit "say  now", 0).
Proof. reflexivity. Qed.

(** Elements handed to [set_text_with_elements] are not checked for overlap.  An
    insertion then lands inside one of them, whose end is moved to
    [at + max(inserted, rest)] instead of [at + inserted + rest]; here that is inside a
    character, and deleting the first letter panics. *)
Lemma overlapping_elements_panic :
  let ta := set_text_with_elements new_text_area (lit "abcdef" ++ [233%N])
              [mk_user_element (mk_range 0 4) None; mk_user_element (mk_range 2 8) None] in
  (let? ta' := insert_str_at ta 3 (lit "x") in Ok (text ta')) = Ok (lit "abcdxef" ++ [233%N]) /\
  (let? ta' := insert_str_at ta 3 (lit "x") in replace_range ta' (mk_range 0 1) []) = Panic.
Proof. split; vm_compute; reflexivity. Qed.
