(* ===== verification/TextAreaVim.v ===== *)
(** * Keys of the edit buffer

    [tui/src/bottom_pane/textarea.rs] and [textarea/vim.rs]: what a key press does to
    the buffer of [TextArea], through the editor's keymap or, with modal editing, as a
    Vim command with its pending operator and text objects, and how key bindings match
    events ([tui/src/key_hint.rs]).

    The keymaps are arguments: no editing method changes them.  [is_altgr] is the one
    of the platform that is not Windows. *)

From S2P Require Import Prelude RustStr TextArea.
From Stdlib Require Import ZifyBool ZifyN.

(** ** Key events *)

(** The codes of [crossterm] that the bindings of the buffer use, the others by number. *)
Inductive KeyCode :=
| Char (c : char)
| Esc | Enter | Backspace | DeleteKey | Tab
| LeftKey | RightKey | UpKey | DownKey | HomeKey | EndKey
| OtherKey (n : N).

#[global] Instance KeyCode_eq_dec : EqDecision KeyCode.
Proof. solve_decision. Defined.

(** A set of modifiers as the bits of [KeyModifiers]. *)
Definition KeyModifiers := N.
Definition NO_MODIFIERS : KeyModifiers := 0%N.
Definition SHIFT : KeyModifiers := 1%N.
Definition CONTROL : KeyModifiers := 2%N.
Definition ALT : KeyModifiers := 4%N.

Inductive KeyEventKind := Press | Repeat | Release.

#[global] Instance KeyEventKind_eq_dec : EqDecision KeyEventKind.
Proof. solve_decision. Defined.

Record KeyEvent := mk_key { code : KeyCode; modifiers : KeyModifiers; kind : KeyEventKind }.

Record KeyBinding := mk_binding { binding_key : KeyCode; binding_modifiers : KeyModifiers }.

Definition c0_control_char_to_ctrl_char (ch : char) : option char :=
  (if ch =? 0 then Some 32
   else if (1 <=? ch) && (ch <=? 26) then Some (ch - 1 + 97)
   else if (28 <=? ch) && (ch <=? 31) then Some (ch - 28 + 52)
   else None)%N.

Definition is_ascii_uppercase (ch : char) : bool := ((65 <=? ch) && (ch <=? 90))%N.

Definition normalize_key_parts (key : KeyCode) (mods : KeyModifiers) : KeyCode * KeyModifiers :=
  match key with
  | Char ch =>
    match (if (mods =? 0)%N then c0_control_char_to_ctrl_char ch else None) with
    | Some ctrl_char => (Char ctrl_char, N.lor CONTROL mods)
    | None =>
      if is_ascii_uppercase ch then (Char (ch + 32)%N, N.lor mods SHIFT) else (key, mods)
    end
  | _ => (key, mods)
  end.

Definition is_press_or_repeat (event : KeyEvent) : bool :=
  match kind event with Press | Repeat => true | Release => false end.

Definition is_press (b : KeyBinding) (event : KeyEvent) : bool :=
  bool_decide (normalize_key_parts (binding_key b) (binding_modifiers b) =
               normalize_key_parts (code event) (modifiers event))
  && is_press_or_repeat event.

Definition is_pressed (bindings : list KeyBinding) (event : KeyEvent) : bool :=
  existsb (fun b => is_press b event) bindings.

Definition is_altgr (mods : KeyModifiers) : bool := false.

Definition is_ascii_control (c : char) : bool := ((c <? 32) || (c =? 127))%N.

(** ** Keymaps *)

Record EditorKeymap := mk_editor_keymap {
  ed_insert_newline : list KeyBinding;
  ed_move_left : list KeyBinding;
  ed_move_right : list KeyBinding;
  ed_move_up : list KeyBinding;
  ed_move_down : list KeyBinding;
  ed_move_word_left : list KeyBinding;
  ed_move_word_right : list KeyBinding;
  ed_move_line_start : list KeyBinding;
  ed_move_line_end : list KeyBinding;
  ed_delete_backward : list KeyBinding;
  ed_delete_forward : list KeyBinding;
  ed_delete_backward_word : list KeyBinding;
  ed_delete_forward_word : list KeyBinding;
  ed_kill_line_start : list KeyBinding;
  ed_kill_whole_line : list KeyBinding;
  ed_kill_line_end : list KeyBinding;
  ed_yank : list KeyBinding
}.

Record VimNormalKeymap := mk_vim_normal_keymap {
  vn_enter_insert : list KeyBinding;
  vn_append_after_cursor : list KeyBinding;
  vn_append_line_end : list KeyBinding;
  vn_insert_line_start : list KeyBinding;
  vn_open_line_below : list KeyBinding;
  vn_open_line_above : list KeyBinding;
  vn_move_left : list KeyBinding;
  vn_move_right : list KeyBinding;
  vn_move_up : list KeyBinding;
  vn_move_down : list KeyBinding;
  vn_move_word_forward : list KeyBinding;
  vn_move_word_backward : list KeyBinding;
  vn_move_word_end : list KeyBinding;
  vn_move_line_start : list KeyBinding;
  vn_move_line_end : list KeyBinding;
  vn_delete_char : list KeyBinding;
  vn_substitute_char : list KeyBinding;
  vn_delete_to_line_end : list KeyBinding;
  vn_change_to_line_end : list KeyBinding;
  vn_yank_line : list KeyBinding;
  vn_paste_after : list KeyBinding;
  vn_start_delete_operator : list KeyBinding;
  vn_start_yank_operator : list KeyBinding;
  vn_start_change_operator : list KeyBinding;
  vn_cancel_operator : list KeyBinding
}.

Record VimOperatorKeymap := mk_vim_operator_keymap {
  vo_delete_line : list KeyBinding;
  vo_yank_line : list KeyBinding;
  vo_motion_left : list KeyBinding;
  vo_motion_right : list KeyBinding;
  vo_motion_up : list KeyBinding;
  vo_motion_down : list KeyBinding;
  vo_motion_word_forward : list KeyBinding;
  vo_motion_word_backward : list KeyBinding;
  vo_motion_word_end : list KeyBinding;
  vo_motion_line_start : list KeyBinding;
  vo_motion_line_end : list KeyBinding;
  vo_select_inner_text_object : list KeyBinding;
  vo_select_around_text_object : list KeyBinding;
  vo_cancel : list KeyBinding
}.

Record VimTextObjectKeymap := mk_vim_text_object_keymap {
  vt_word : list KeyBinding;
  vt_big_word : list KeyBinding;
  vt_parentheses : list KeyBinding;
  vt_brackets : list KeyBinding;
  vt_braces : list KeyBinding;
  vt_double_quote : list KeyBinding;
  vt_single_quote : list KeyBinding;
  vt_backtick : list KeyBinding;
  vt_cancel : list KeyBinding
}.

Record RuntimeKeymap := mk_runtime_keymap {
  editor_keymap : EditorKeymap;
  vim_normal_keymap : VimNormalKeymap;
  vim_operator_keymap : VimOperatorKeymap;
  vim_text_object_keymap : VimTextObjectKeymap
}.

(** ** Modes *)

Definition set_mode (ta : TextArea) (m : VimMode) : TextArea := set_vim ta (vim_enabled ta) m (vim_pending ta).
Definition set_pending (ta : TextArea) (p : VimPending) : TextArea := set_vim ta (vim_enabled ta) (vim_mode ta) p.

Definition set_vim_enabled (ta : TextArea) (enabled : bool) : TextArea :=
  set_vim ta enabled (if enabled then Normal else Insert) NoPending.

Definition enter_vim_insert_mode (ta : TextArea) : TextArea :=
  if vim_enabled ta then set_vim ta true Insert NoPending else ta.

Definition enter_vim_normal_mode (ta : TextArea) : TextArea :=
  if vim_enabled ta then set_preferred_col (set_vim ta true Normal NoPending) None else ta.

Definition is_insert (m : VimMode) : bool := match m with Insert => true | Normal => false end.

Definition is_vim_normal_mode (ta : TextArea) : bool := vim_enabled ta && negb (is_insert (vim_mode ta)).

Definition is_vim_operator_pending (ta : TextArea) : bool :=
  match vim_pending ta with NoPending => false | _ => true end.

Definition allows_paste_burst (ta : TextArea) : bool := negb (vim_enabled ta) || is_insert (vim_mode ta).

Definition uses_vim_insert_cursor (ta : TextArea) : bool := vim_enabled ta && is_insert (vim_mode ta).

Definition should_handle_vim_insert_escape (ta : TextArea) (event : KeyEvent) : bool :=
  vim_enabled ta && is_insert (vim_mode ta) && bool_decide (code event = Esc)
  && (modifiers event =? NO_MODIFIERS)%N && is_press_or_repeat event.

Definition vim_mode_label (ta : TextArea) : option str :=
  if vim_enabled ta then
    Some (match vim_mode ta with Normal => lit "Normal" | Insert => lit "Insert" end)
  else None.

(** ** Text objects *)

Inductive VimMotion :=
| MLeft | MRight | MUp | MDown | MWordForward | MWordBackward | MWordEnd | MLineStart | MLineEnd.

Inductive VimTextObject :=
| Word | BigWord | Parentheses | Brackets | Braces | DoubleQuote | SingleQuote | Backtick.

Definition cursor_overlaps_range (ta : TextArea) (r : Range) : bool :=
  (r_start r <=? cursor_pos ta) && (cursor_pos ta <? r_end r).

Definition cursor_is_at_range_end (ta : TextArea) (r : Range) : bool :=
  (r_start r <? r_end r) && (cursor_pos ta =? r_end r).

(** The loop of [non_ws_runs], with the run that is open. *)
Fixpoint runs_from (start : option nat) (len : nat) (chars : list (nat * char)) : list Range :=
  match chars with
  | [] => match start with Some run_start => [mk_range run_start len] | None => [] end
  | (idx, ch) :: chars =>
    if is_whitespace ch then
      match start with
      | Some run_start => mk_range run_start idx :: runs_from None len chars
      | None => runs_from None len chars
      end
    else runs_from (match start with Some s => Some s | None => Some idx end) len chars
  end.

Definition non_ws_runs (ta : TextArea) : list Range :=
  runs_from None (str_len (text ta)) (char_indices (text ta)).

(** The last offset of the leading run of characters of a kind. *)
Fixpoint whitespace_end (start end_ : nat) (chars : list (nat * char)) : nat :=
  match chars with
  | [] => end_
  | (offset, ch) :: chars =>
    if is_whitespace ch then whitespace_end start (start + offset + len_utf8 ch) chars else end_
  end.

Definition following_whitespace_end (ta : TextArea) (start : nat) : M nat :=
  let? suffix := from_opt (str_from (text ta) start) in
  Ok (whitespace_end start start (char_indices suffix)).

Fixpoint whitespace_start (start : nat) (chars : list (nat * char)) : nat :=
  match chars with
  | [] => start
  | (idx, ch) :: chars => if is_whitespace ch then whitespace_start idx chars else start
  end.

Definition preceding_whitespace_start (ta : TextArea) (end_ : nat) : M nat :=
  let? prefix := from_opt (str_to (text ta) end_) in
  Ok (whitespace_start end_ (rev (char_indices prefix))).

Definition expand_word_around (ta : TextArea) (inner : Range) : M Range :=
  let? following := following_whitespace_end ta (r_end inner) in
  if r_end inner <? following then Ok (mk_range (r_start inner) following)
  else
    let? start := preceding_whitespace_start ta (r_start inner) in
    Ok (mk_range start (r_end inner)).

Definition is_inside_element (ta : TextArea) (pos : nat) : bool :=
  existsb (fun e => (e_start e <=? pos) && (pos <? e_end e)) (elements ta).

Definition BACKSLASH : char := 92%N.

Fixpoint backslashes (chars : str) : nat :=
  match chars with
  | ch :: chars => if (ch =? BACKSLASH)%N then S (backslashes chars) else 0
  | [] => 0
  end.

Definition is_escaped (ta : TextArea) (pos : nat) : M bool :=
  let? prefix := from_opt (str_to (text ta) pos) in
  Ok (Nat.odd (backslashes (rev prefix))).

Definition range_len (r : Range) : nat := r_end r - r_start r.

(** [if candidate.start <= candidate.end && best.is_none_or(|c| candidate.len() < c.len())] *)
Definition better (best : option Range) (candidate : Range) : option Range :=
  if (r_start candidate <=? r_end candidate) &&
     match best with None => true | Some current => range_len candidate <? range_len current end
  then Some candidate else best.

Fixpoint paired_loop (ta : TextArea) (scope : VimTextObjectScope) (open close : char)
    (stack : list nat) (best : option Range) (chars : list (nat * char)) : option Range :=
  match chars with
  | [] => best
  | (idx, ch) :: chars =>
    if is_inside_element ta idx then paired_loop ta scope open close stack best chars
    else if (ch =? open)%N then paired_loop ta scope open close (idx :: stack) best chars
    else if (ch =? close)%N then
      match stack with
      | [] => paired_loop ta scope open close stack best chars
      | open_idx :: stack =>
        let close_end := idx + len_utf8 ch in
        let best :=
          if (open_idx <=? cursor_pos ta) && (cursor_pos ta <=? idx) then
            better best (match scope with
                         | Inner => mk_range (open_idx + len_utf8 open) idx
                         | Around => mk_range open_idx close_end
                         end)
          else best in
        paired_loop ta scope open close stack best chars
      end
    else paired_loop ta scope open close stack best chars
  end.

Definition paired_text_object_range (ta : TextArea) (scope : VimTextObjectScope) (open close : char)
  : option Range :=
  paired_loop ta scope open close [] None (char_indices (text ta)).

Definition idx_range (open_idx close_idx : nat) (quote : char) : Range :=
  mk_range open_idx (close_idx + len_utf8 quote).

Fixpoint quoted_loop (ta : TextArea) (scope : VimTextObjectScope) (quote : char) (line_start : nat)
    (open : option nat) (best : option Range) (chars : list (nat * char)) : M (option Range) :=
  match chars with
  | [] => Ok best
  | (offset, ch) :: chars =>
    let idx := line_start + offset in
    let? skip :=
      if is_inside_element ta idx || negb (ch =? quote)%N then Ok true else is_escaped ta idx in
    if skip : bool then quoted_loop ta scope quote line_start open best chars
    else
      match open with
      | Some open_idx =>
        let best :=
          if (open_idx <=? cursor_pos ta) && (cursor_pos ta <=? idx) then
            better best (match scope with
                         | Inner => mk_range (open_idx + len_utf8 quote) idx
                         | Around => idx_range open_idx idx quote
                         end)
          else best in
        quoted_loop ta scope quote line_start None best chars
      | None => quoted_loop ta scope quote line_start (Some idx) best chars
      end
  end.

Definition quoted_text_object_range (ta : TextArea) (scope : VimTextObjectScope) (quote : char)
  : M (option Range) :=
  let? bol := beginning_of_current_line ta in
  let? eol := end_of_current_line ta in
  let? line := from_opt (str_slice (text ta) bol eol) in
  quoted_loop ta scope quote bol None None (char_indices line).

Section segmentation.
Context `{Segmentation}.

Definition big_word_range_at_cursor (ta : TextArea) : option Range :=
  List.find (fun r => cursor_overlaps_range ta r || cursor_is_at_range_end ta r) (non_ws_runs ta).

(** The loop over the pieces of a run: the piece under the cursor, or the last one. *)
Fixpoint piece_at_cursor (ta : TextArea) (run_start : nat) (last_piece : option Range)
    (pieces : list (nat * str)) : Range + option Range :=
  match pieces with
  | [] => inr last_piece
  | (piece_start, piece) :: pieces =>
    let r := mk_range (run_start + piece_start) (run_start + piece_start + str_len piece) in
    if cursor_overlaps_range ta r then inl r else piece_at_cursor ta run_start (Some r) pieces
  end.

(** The loop over the runs returns at the first one that touches the cursor. *)
Definition small_word_range_at_cursor (ta : TextArea) : M (option Range) :=
  match big_word_range_at_cursor ta with
  | None => Ok None
  | Some run =>
    let? s := from_opt (str_slice (text ta) (r_start run) (r_end run)) in
    match piece_at_cursor ta (r_start run) None (split_word_pieces s) with
    | inl piece => Ok (Some piece)
    | inr last_piece =>
      if cursor_is_at_range_end ta run then
        Ok (match last_piece with Some piece => Some piece | None => Some run end)
      else Ok (Some run)
    end
  end.

Definition word_text_object_range (ta : TextArea) (scope : VimTextObjectScope) (big_word : bool)
  : M (option Range) :=
  let? inner := if big_word then Ok (big_word_range_at_cursor ta) else small_word_range_at_cursor ta in
  match inner with
  | None => Ok None
  | Some inner =>
    match scope with
    | Inner => Ok (Some inner)
    | Around => let? r := expand_word_around ta inner in Ok (Some r)
    end
  end.

Definition text_object_range (ta : TextArea) (object : VimTextObject) (scope : VimTextObjectScope)
  : M (option Range) :=
  match object with
  | Word => word_text_object_range ta scope false
  | BigWord => word_text_object_range ta scope true
  | Parentheses => Ok (paired_text_object_range ta scope 40%N 41%N)
  | Brackets => Ok (paired_text_object_range ta scope 91%N 93%N)
  | Braces => Ok (paired_text_object_range ta scope 123%N 125%N)
  | DoubleQuote => quoted_text_object_range ta scope DQUOTE
  | SingleQuote => quoted_text_object_range ta scope 39%N
  | Backtick => quoted_text_object_range ta scope 96%N
  end.

(** ** Motions *)

Definition vim_normal_end_cursor (ta : TextArea) : nat :=
  match text ta with [] => 0 | _ => prev_atomic_boundary ta (str_len (text ta)) end.

Definition vim_word_end_exclusive (ta : TextArea) : M nat :=
  let? end_ := end_of_next_word ta in
  let target := if cursor_pos ta <? end_ then prev_atomic_boundary ta end_ else end_ in
  if (target =? cursor_pos ta) && (end_ <? str_len (text ta)) then end_of_next_word_from ta end_
  else Ok end_.

Definition vim_word_end_cursor (ta : TextArea) : M nat :=
  let? end_ := vim_word_end_exclusive ta in
  Ok (if cursor_pos ta <? end_ then prev_atomic_boundary ta end_ else end_).

Definition vim_line_end_cursor (ta : TextArea) : M nat :=
  let? bol := beginning_of_current_line ta in
  let? eol := end_of_current_line ta in
  Ok (if bol <? eol then Nat.max (prev_atomic_boundary ta eol) bol else eol).

(** [self.set_cursor(self.target()?)], for a target that slices the text *)
Definition set_cursor_to (ta : TextArea) (target : M nat) : M TextArea :=
  let? p := target in Ok (set_cursor ta p).

Definition move_by (ta : TextArea) (motion : VimMotion) : M TextArea :=
  match motion with
  | MLeft => Ok (move_cursor_left ta)
  | MRight => Ok (move_cursor_right ta)
  | MUp => move_cursor_up ta
  | MDown => move_cursor_down ta
  | MWordForward => set_cursor_to ta (beginning_of_next_word ta)
  | MWordBackward => set_cursor_to ta (beginning_of_previous_word ta)
  | MWordEnd => set_cursor_to ta (vim_word_end_exclusive ta)
  | MLineStart => set_cursor_to ta (beginning_of_current_line ta)
  | MLineEnd => set_cursor_to ta (end_of_current_line ta)
  end.

(** The cursor and the column are put back after the motion. *)
Definition target_for_motion (ta : TextArea) (motion : VimMotion) : M (TextArea * nat) :=
  let? moved := move_by ta motion in
  Ok (set_preferred_col (set_cursor_pos moved (cursor_pos ta)) (preferred_col ta), cursor_pos moved).

Definition linewise_range_for_vertical_motion (ta : TextArea) (motion : VimMotion) : M (option Range) :=
  let? current := current_line_range_with_newline ta in
  let? range :=
    match motion with
    | MUp =>
      let? start := if r_start current =? 0 then Ok (r_start current)
                    else beginning_of_line ta (r_start current - 1) in
      Ok (Some (mk_range start (r_end current)))
    | MDown =>
      let? end_ :=
        if str_len (text ta) <=? r_end current then Ok (r_end current)
        else
          let? next_eol := end_of_line ta (r_end current) in
          Ok (if next_eol <? str_len (text ta) then next_eol + 1 else next_eol) in
      Ok (Some (mk_range (r_start current) end_))
    | _ => Ok None
    end in
  Ok (match range with
      | Some range => if r_start range <? r_end range then Some range else None
      | None => None
      end).

Definition range_for_motion (ta : TextArea) (motion : VimMotion) : M (TextArea * option Range) :=
  match motion with
  | MUp | MDown => let? r := linewise_range_for_vertical_motion ta motion in Ok (ta, r)
  | _ =>
    let start := cursor_pos ta in
    let? moved := target_for_motion ta motion in
    let '(ta, target) := moved in
    Ok (ta, if start =? target then None
            else Some (if target <? start then mk_range target start else mk_range start target))
  end.

Definition apply_vim_operator (ta : TextArea) (op : VimOperator) (motion : VimMotion) : M TextArea :=
  let? found := range_for_motion ta motion in
  match found with
  | (ta, None) => Ok ta
  | (ta, Some range) =>
    match op with
    | Delete => kill_range ta range
    | Yank => yank_range ta range
    | Change => Ok ta
    end
  end.

Definition apply_vim_operator_to_range (ta : TextArea) (op : VimOperator) (range : Range) : M TextArea :=
  match op with
  | Delete => kill_range ta range
  | Yank => yank_range ta range
  | Change => let? ta := kill_range ta range in Ok (set_mode ta Insert)
  end.

(** ** Handlers *)

Context (keymaps : RuntimeKeymap).

Definition input_with_keymap (ta : TextArea) (event : KeyEvent) (keymap : EditorKeymap) : M TextArea :=
  let pressed bindings := is_pressed bindings event in
  if pressed (ed_insert_newline keymap) then insert_str ta [NL]
  else if pressed (ed_delete_backward_word keymap) then delete_backward_word ta
  else if match code event with Char _ => is_altgr (modifiers event) | _ => false end then
    match code event with Char c => insert_str ta [c] | _ => Ok ta end
  else if pressed (ed_delete_backward keymap) then delete_backward ta 1
  else if pressed (ed_delete_forward_word keymap) then delete_forward_word ta
  else if pressed (ed_delete_forward keymap) then delete_forward ta 1
  else if pressed (ed_kill_line_start keymap) then kill_to_beginning_of_line ta
  else if pressed (ed_kill_whole_line keymap) then kill_current_line ta
  else if pressed (ed_kill_line_end keymap) then kill_to_end_of_line ta
  else if pressed (ed_yank keymap) then yank ta
  else if pressed (ed_move_word_left keymap) then set_cursor_to ta (beginning_of_previous_word ta)
  else if pressed (ed_move_word_right keymap) then set_cursor_to ta (end_of_next_word ta)
  else if pressed (ed_move_left keymap) then Ok (move_cursor_left ta)
  else if pressed (ed_move_right keymap) then Ok (move_cursor_right ta)
  else if pressed (ed_move_up keymap) then move_cursor_up ta
  else if pressed (ed_move_down keymap) then move_cursor_down ta
  else if pressed (ed_move_line_start keymap) then
    move_cursor_to_beginning_of_line ta
      (bool_decide (code event = Char 97%N) && (modifiers event =? CONTROL)%N)
  else if pressed (ed_move_line_end keymap) then
    move_cursor_to_end_of_line ta
      (bool_decide (code event = Char 101%N) && (modifiers event =? CONTROL)%N)
  else
    match code event with
    | Char c =>
      if ((modifiers event =? NO_MODIFIERS) || (modifiers event =? SHIFT))%N then
        if is_ascii_control c then Ok ta else insert_str ta [c]
      else Ok ta
    | _ => Ok ta
    end.

Definition handle_vim_insert (ta : TextArea) (event : KeyEvent) : M TextArea :=
  match code event with
  | Esc =>
    let? bol := beginning_of_current_line ta in
    let ta :=
      if bol <? cursor_pos ta
      then set_cursor_pos ta (Nat.max (prev_atomic_boundary ta (cursor_pos ta)) bol) else ta in
    Ok (enter_vim_normal_mode ta)
  | _ => input_with_keymap ta event (editor_keymap keymaps)
  end.

Definition vim_text_object_scope_for_event (event : KeyEvent) : option VimTextObjectScope :=
  let km := vim_operator_keymap keymaps in
  if is_pressed (vo_select_inner_text_object km) event then Some Inner
  else if is_pressed (vo_select_around_text_object km) event then Some Around
  else None.

Definition vim_text_object_for_event (event : KeyEvent) : option VimTextObject :=
  let km := vim_text_object_keymap keymaps in
  if is_pressed (vt_word km) event then Some Word
  else if is_pressed (vt_big_word km) event then Some BigWord
  else if is_pressed (vt_parentheses km) event then Some Parentheses
  else if is_pressed (vt_brackets km) event then Some Brackets
  else if is_pressed (vt_braces km) event then Some Braces
  else if is_pressed (vt_double_quote km) event then Some DoubleQuote
  else if is_pressed (vt_single_quote km) event then Some SingleQuote
  else if is_pressed (vt_backtick km) event then Some Backtick
  else None.

Definition vim_motion_for_event (event : KeyEvent) : option VimMotion :=
  let km := vim_operator_keymap keymaps in
  if is_pressed (vo_motion_left km) event then Some MLeft
  else if is_pressed (vo_motion_right km) event then Some MRight
  else if is_pressed (vo_motion_down km) event then Some MDown
  else if is_pressed (vo_motion_up km) event then Some MUp
  else if is_pressed (vo_motion_word_forward km) event then Some MWordForward
  else if is_pressed (vo_motion_word_backward km) event then Some MWordBackward
  else if is_pressed (vo_motion_word_end km) event then Some MWordEnd
  else if is_pressed (vo_motion_line_start km) event then Some MLineStart
  else if is_pressed (vo_motion_line_end km) event then Some MLineEnd
  else None.

Definition is_op (a b : VimOperator) : bool :=
  match a, b with Delete, Delete | Yank, Yank | Change, Change => true | _, _ => false end.

Definition handle_vim_operator (ta : TextArea) (op : VimOperator) (event : KeyEvent) : M (TextArea * bool) :=
  let km := vim_operator_keymap keymaps in
  if is_op op Delete && is_pressed (vo_delete_line km) event then
    let? ta := kill_current_line ta in Ok (ta, true)
  else if is_op op Yank && is_pressed (vo_yank_line km) event then
    let? ta := yank_current_line ta in Ok (ta, true)
  else if is_pressed (vo_cancel km) event then Ok (ta, true)
  else
    match vim_text_object_scope_for_event event with
    | Some scope => Ok (set_pending ta (PendingTextObject op scope), true)
    | None =>
      if is_op op Change then Ok (ta, false)
      else
        match vim_motion_for_event event with
        | Some motion => let? ta := apply_vim_operator ta op motion in Ok (ta, true)
        | None => Ok (ta, false)
        end
    end.

Definition handle_vim_text_object (ta : TextArea) (op : VimOperator) (scope : VimTextObjectScope)
    (event : KeyEvent) : M (TextArea * bool) :=
  if is_pressed (vt_cancel (vim_text_object_keymap keymaps)) event then Ok (ta, true)
  else
    match vim_text_object_for_event event with
    | None => Ok (ta, false)
    | Some object =>
      let? found := text_object_range ta object scope in
      match found with
      | Some range => let? ta := apply_vim_operator_to_range ta op range in Ok (ta, true)
      | None => Ok (ta, true)
      end
    end.

Definition open_line_below (ta : TextArea) : M TextArea :=
  let? eol := end_of_current_line ta in
  let old_len := str_len (text ta) in
  let insert_at := if eol <? old_len then eol + 1 else eol in
  let? ta := insert_str_at ta insert_at [NL] in
  let cursor := if eol <? old_len then insert_at else insert_at + 1 in
  Ok (set_mode (set_cursor ta cursor) Insert).

Definition open_line_above (ta : TextArea) : M TextArea :=
  let? bol := beginning_of_current_line ta in
  let? ta := insert_str_at ta bol [NL] in
  Ok (set_mode (set_cursor ta bol) Insert).

(** [self.op(); self.vim_mode = VimMode::Insert] *)
Definition then_insert (m : M TextArea) : M TextArea := let? ta := m in Ok (set_mode ta Insert).

Definition substitute_char (ta : TextArea) : M TextArea :=
  let? eol := end_of_current_line ta in
  then_insert (if cursor_pos ta <? eol then delete_forward_kill ta 1 else Ok ta).

(** A key of normal mode with no operator pending. *)
Definition handle_vim_command (ta : TextArea) (event : KeyEvent) : M TextArea :=
  let km := vim_normal_keymap keymaps in
  let pressed bindings := is_pressed bindings event in
  if pressed (vn_enter_insert km) then Ok (set_mode ta Insert)
  else if pressed (vn_append_after_cursor km) then
    then_insert (Ok (set_cursor ta (next_atomic_boundary ta (cursor_pos ta))))
  else if pressed (vn_append_line_end km) then then_insert (set_cursor_to ta (end_of_current_line ta))
  else if pressed (vn_insert_line_start km) then then_insert (set_cursor_to ta (first_non_blank_of_current_line ta))
  else if pressed (vn_open_line_below km) then open_line_below ta
  else if pressed (vn_open_line_above km) then open_line_above ta
  else if pressed (vn_move_left km) then Ok (move_cursor_left ta)
  else if pressed (vn_move_right km) then Ok (move_cursor_right ta)
  else if pressed (vn_move_down km) then move_cursor_down ta
  else if pressed (vn_move_up km) then move_cursor_up ta
  else if pressed (vn_move_word_forward km) then set_cursor_to ta (beginning_of_next_word ta)
  else if pressed (vn_move_word_backward km) then set_cursor_to ta (beginning_of_previous_word ta)
  else if pressed (vn_move_word_end km) then set_cursor_to ta (vim_word_end_cursor ta)
  else if pressed (vn_move_line_start km) then set_cursor_to ta (beginning_of_current_line ta)
  else if pressed (vn_move_line_end km) then set_cursor_to ta (vim_line_end_cursor ta)
  else if pressed (vn_delete_char km) then delete_forward_kill ta 1
  else if pressed (vn_substitute_char km) then substitute_char ta
  else if pressed (vn_delete_to_line_end km) then vim_kill_to_end_of_line ta
  else if pressed (vn_change_to_line_end km) then then_insert (vim_kill_to_end_of_line ta)
  else if pressed (vn_yank_line km) then yank_current_line ta
  else if pressed (vn_paste_after km) then paste_after_cursor ta
  else if pressed (vn_start_delete_operator km) then Ok (set_pending ta (PendingOperator Delete))
  else if pressed (vn_start_yank_operator km) then Ok (set_pending ta (PendingOperator Yank))
  else if pressed (vn_start_change_operator km) then Ok (set_pending ta (PendingOperator Change))
  else if pressed (vn_cancel_operator km) then Ok (set_pending ta NoPending)
  else Ok ta.

Definition handle_vim_normal (ta : TextArea) (event : KeyEvent) : M TextArea :=
  let pending := vim_pending ta in
  let ta := set_pending ta NoPending in
  match pending with
  | NoPending => handle_vim_command ta event
  | PendingOperator op => let? r := handle_vim_operator ta op event in Ok r.1
  | PendingTextObject operator scope => let? r := handle_vim_text_object ta operator scope event in Ok r.1
  end.

Definition handle_vim_input (ta : TextArea) (event : KeyEvent) : M TextArea :=
  match vim_mode ta with
  | Insert => handle_vim_insert ta event
  | Normal => handle_vim_normal ta event
  end.

Definition input (ta : TextArea) (event : KeyEvent) : M TextArea :=
  if is_press_or_repeat event then
    if vim_enabled ta then handle_vim_input ta event
    else input_with_keymap ta event (editor_keymap keymaps)
  else Ok ta.
End segmentation.

(** ** Text objects are ranges of the text *)

Definition opt_ok (s : str) (o : option Range) : Prop := forall r, o = Some r -> range_ok s r.

Lemma opt_ok_None s : opt_ok s None.
Proof. done. Qed.

Lemma opt_ok_Some s r : range_ok s r -> opt_ok s (Some r).
Proof. by intros ? ? [= <-]. Qed.

(** The offsets of the characters of a part of the text are boundaries. *)
Lemma indices_boundary a d b i c : (i, c) ∈ char_indices_from (str_len a) d ->
  boundary (a ++ d ++ b) i /\ boundary (a ++ d ++ b) (i + len_utf8 c) /\ str_len a <= i.
Proof.
  intros (x & y & -> & ->)%char_indices_lookup. split_and!; [| |lia].
  - rewrite <- str_len_app. replace (a ++ (x ++ c :: y) ++ b) with ((a ++ x) ++ (c :: y) ++ b)
      by (by rewrite <- !app_assoc). apply boundary_app.
  - rewrite <- str_len_app, <- (str_len_single c), <- str_len_app.
    replace (a ++ (x ++ c :: y) ++ b) with (((a ++ x) ++ [c]) ++ y ++ b) by (by rewrite <- !app_assoc).
    apply boundary_app.
Qed.

Lemma indices_step off c (s : str) : char_indices_from off (c :: s) = (off, c) :: char_indices_from (off + len_utf8 c) s.
Proof. done. Qed.

Lemma runs_from_ok p s start : (forall m, start = Some m -> boundary (p ++ s) m /\ m <= str_len p) ->
  Forall (range_ok (p ++ s)) (runs_from start (str_len (p ++ s)) (char_indices_from (str_len p) s)).
Proof.
  revert p start. induction s as [|c s IH]; intros p start Hs.
  { cbn. destruct start as [m|]; [|constructor]. destruct (Hs m eq_refl). constructor; [|constructor].
    rewrite app_nil_r in *. apply range_ok_intro; [done|apply boundary_len|done]. }
  rewrite indices_step. cbn [runs_from]. specialize (IH (p ++ [c])).
  rewrite <- app_assoc, str_len_app, str_len_single in IH. cbn [app] in IH.
  pose proof (boundary_app p (c :: s)) as Hp.
  destruct (is_whitespace c); [destruct start as [m|]|].
  - destruct (Hs m eq_refl). constructor; [by apply range_ok_intro|]. by apply IH.
  - by apply IH.
  - apply IH. intros m. destruct start as [m'|]; intros [= <-]; [destruct (Hs _ eq_refl)|]; (split; [done|lia]).
Qed.

Lemma non_ws_runs_ok ta : Forall (range_ok (text ta)) (non_ws_runs ta).
Proof. apply (runs_from_ok [] (text ta) None). done. Qed.

Lemma big_word_ok ta : opt_ok (text ta) (big_word_range_at_cursor ta).
Proof.
  intros r Hr. apply List.find_some in Hr as [Hr _]. pose proof (non_ws_runs_ok ta) as H.
  rewrite Forall_forall in H. by apply H, list_elem_of_In.
Qed.

Lemma whitespace_end_in start end_ chars :
  whitespace_end start end_ chars = end_ \/
  exists i c, (i, c) ∈ chars /\ whitespace_end start end_ chars = start + i + len_utf8 c.
Proof.
  revert end_. induction chars as [|[i c] chars IH]; intros end_; cbn [whitespace_end]; [by left|].
  case_match; [|by left]. right. destruct (IH (start + i + len_utf8 c)) as [->|(j & d & Hj & ->)].
  - exists i, c. split; [left|done].
  - exists j, d. split; [by right|done].
Qed.

Lemma whitespace_start_in start chars :
  whitespace_start start chars = start \/ exists i c, (i, c) ∈ chars /\ whitespace_start start chars = i.
Proof.
  revert start. induction chars as [|[i c] chars IH]; intros start; cbn [whitespace_start]; [by left|].
  case_match; [|by left]. right. destruct (IH i) as [->|(j & d & Hj & ->)].
  - exists i, c. split; [left|done].
  - exists j, d. split; [by right|done].
Qed.

Lemma expand_word_around_ok ta r : range_ok (text ta) r ->
  exists r', expand_word_around ta r = Ok r' /\ range_ok (text ta) r'.
Proof.
  intros (Hle & Hs & He). unfold expand_word_around, following_whitespace_end, preceding_whitespace_start.
  pose proof He as (a & b & E & Ea)%boundary_iff. pose proof Hs as (x & y & E' & Ex)%boundary_iff.
  rewrite (str_from_at _ a b) by done. cbn [from_opt res_bind].
  case_match eqn:Hf.
  - eexists; split; [done|]. apply range_ok_intro; [done| |lia].
    destruct (whitespace_end_in (r_end r) (r_end r) (char_indices b)) as [->|(i & c & Hi & ->)]; [done|].
    apply (indices_boundary [] b []) in Hi as (_ & Hb & _). rewrite app_nil_r in Hb. cbn [app] in Hb.
    rewrite E, Ea, <- Nat.add_assoc. by apply boundary_after.
  - rewrite (str_to_at _ x y) by done. cbn [from_opt res_bind]. eexists; split; [done|].
    destruct (whitespace_start_in (r_start r) (rev (char_indices x))) as [->|(i & c & Hi & Ei)].
    { by apply range_ok_intro. }
    rewrite list_elem_of_In, <- List.in_rev, <- list_elem_of_In in Hi.
    pose proof Hi as (u & v & -> & ->)%char_indices_lookup. rewrite Ei.
    apply (indices_boundary [] _ y) in Hi as (Hb & _ & _). cbn [app] in Hb. rewrite <- E' in Hb.
    apply range_ok_intro; [done..|]. rewrite Ex, str_len_app in Hle. simpl. lia.
Qed.

Lemma better_ok s best c : opt_ok s best -> boundary s (r_start c) -> boundary s (r_end c) ->
  opt_ok s (better best c).
Proof.
  intros Hb Hs He r. unfold better. destruct (_ && _) eqn:E; [|apply Hb].
  apply andb_true_iff in E as [Hle _]. intros [= <-]. split_and!; [lia|done..].
Qed.

Lemma paired_loop_ok ta scope open close p s stack best : text ta = p ++ s ->
  Forall (fun m => boundary (text ta) m /\ boundary (text ta) (m + len_utf8 open)) stack ->
  opt_ok (text ta) best ->
  opt_ok (text ta) (paired_loop ta scope open close stack best (char_indices_from (str_len p) s)).
Proof.
  revert p stack best. induction s as [|c s IH]; intros p stack best E Hst Hb; [done|].
  rewrite indices_step. cbn [paired_loop].
  specialize (IH (p ++ [c])). rewrite <- app_assoc, str_len_app, str_len_single in IH.
  destruct (indices_boundary p [c] s (str_len p) c) as (Hi & Hc & _); [left|].
  change ([c] ++ s) with (c :: s) in Hi, Hc. rewrite <- E in Hi, Hc.
  destruct (is_inside_element _ _); [by apply IH|].
  destruct (c =? open)%N eqn:Eo; [apply N.eqb_eq in Eo as ->; apply IH; auto|].
  destruct (c =? close)%N; [|by apply IH].
  destruct stack as [|m stack]; [by apply IH|]. apply Forall_cons in Hst as [[Hm Hm'] Hst].
  apply IH; [done..|]. case_match; [|done]. apply better_ok; [done|destruct scope; done..].
Qed.

Lemma quoted_loop_ok ta scope quote a d b open best : forall p s, d = p ++ s -> text ta = a ++ d ++ b ->
  (forall m, open = Some m -> boundary (text ta) m /\ boundary (text ta) (m + len_utf8 quote)) ->
  opt_ok (text ta) best ->
  exists o, quoted_loop ta scope quote (str_len a) open best (char_indices_from (str_len p) s) = Ok o /\
    opt_ok (text ta) o.
Proof.
  intros p s. revert p open best. induction s as [|c s IH]; intros p open best Ed E Ho Hb; [by exists best|].
  rewrite indices_step. cbn [quoted_loop].
  specialize (IH (p ++ [c])). rewrite <- app_assoc, str_len_app, str_len_single in IH. cbn [app] in IH.
  destruct (indices_boundary (a ++ p) [c] (s ++ b) (str_len (a ++ p)) c) as (Hi & Hc & _); [left|].
  replace ((a ++ p) ++ [c] ++ s ++ b) with (text ta) in Hi, Hc by (rewrite E, Ed, <- !app_assoc; done).
  rewrite str_len_app in Hi, Hc.
  destruct (is_inside_element _ _ || _) eqn:Eskip; cbn [res_bind]; [by apply IH|].
  unfold is_escaped. pose proof Hi as (x & y & Ex & Ep)%boundary_iff.
  rewrite (str_to_at _ x y) by done. cbn [from_opt res_bind].
  assert (c = quote) as -> by lia.
  destruct (Nat.odd _); [by apply IH|]. destruct open as [m|].
  - destruct (Ho m eq_refl). apply IH; [done..|]. case_match; [|done].
    apply better_ok; [done|destruct scope; done..].
  - apply IH; [done..| |done]. by intros ? [= <-].
Qed.

Section laws.
Context `{Laws : SegmentationLaws} (strict : bool) (keymaps : RuntimeKeymap).
Local Notation wf := (well_formed strict).
Local Notation keeps := (keeps strict).

Lemma pieces_at_cursor_ok ta a d b last_piece pieces : text ta = a ++ d ++ b ->
  (forall i p, (i, p) ∈ pieces -> exists u v, d = u ++ p ++ v /\ i = str_len u) ->
  opt_ok (text ta) last_piece ->
  match piece_at_cursor ta (str_len a) last_piece pieces with
  | inl r => range_ok (text ta) r
  | inr o => opt_ok (text ta) o
  end.
Proof.
  intros E. revert last_piece. induction pieces as [|[i p] pieces IH]; intros last_piece Hp Hl; cbn [piece_at_cursor]; [done|].
  assert (range_ok (text ta) (mk_range (str_len a + i) (str_len a + i + str_len p))) as Hr.
  { destruct (Hp i p) as (u & v & -> & ->); [left|]. rewrite <- !str_len_app, E.
    replace (a ++ (u ++ p ++ v) ++ b) with ((a ++ u) ++ p ++ v ++ b) by (by rewrite <- !app_assoc).
    apply range_ok_intro; [apply boundary_app|rewrite app_assoc; apply boundary_app|rewrite !str_len_app; lia]. }
  destruct (cursor_overlaps_range ta _); [done|]. apply IH; [intros; apply Hp; by right|by apply opt_ok_Some].
Qed.

Lemma small_word_ok ta : wf ta ->
  exists o, small_word_range_at_cursor ta = Ok o /\ opt_ok (text ta) o.
Proof using Laws.
  intros Hwf. unfold small_word_range_at_cursor.
  destruct (big_word_range_at_cursor ta) as [run|] eqn:Er; [|by eexists].
  apply big_word_ok in Er as Hrun. pose proof Hrun as (Hle & Hs & He).
  destruct (boundary_split3 (text ta) (r_start run) (r_end run)) as (a & d & b & E & Ea & Eb); [done..|].
  assert (str_slice (text ta) (r_start run) (r_end run) = Some d) as ->
    by (rewrite E, Ea, Eb; apply str_slice_mid).
  cbn [from_opt res_bind]. rewrite Ea.
  pose proof (pieces_at_cursor_ok ta a d b None (split_word_pieces d) E (word_pieces_in d) (opt_ok_None _)) as Hp.
  destruct (piece_at_cursor _ _ _ _) as [r|o]; [eexists; split; [done|by apply opt_ok_Some]|].
  destruct (cursor_is_at_range_end ta run); [destruct o as [piece|]|]; eexists; (split; [done|]);
    [done|by apply opt_ok_Some..].
Qed.

Lemma text_object_ok ta object scope : wf ta ->
  exists o, text_object_range ta object scope = Ok o /\ opt_ok (text ta) o.
Proof using Laws.
  intros Hwf.
  assert (forall big, exists o, word_text_object_range ta scope big = Ok o /\ opt_ok (text ta) o) as Hw.
  { intros big. unfold word_text_object_range.
    assert (exists o, (if big then Ok (big_word_range_at_cursor ta) else small_word_range_at_cursor ta) = Ok o /\
      opt_ok (text ta) o) as (o & -> & Ho).
    { destruct big; [eexists; split; [done|apply big_word_ok]|by apply small_word_ok]. }
    cbn [res_bind]. destruct o as [r|]; [|by eexists]. destruct scope; [by eexists|].
    destruct (expand_word_around_ok ta r (Ho r eq_refl)) as (r' & -> & Hr').
    eexists; split; [done|by apply opt_ok_Some]. }
  assert (forall o c, exists r, Ok (E := Empty_set) (paired_text_object_range ta scope o c) = Ok r /\ opt_ok (text ta) r) as Hp.
  { intros o c. eexists; split; [done|]. by apply (paired_loop_ok ta scope o c [] (text ta)). }
  assert (forall q, exists o, quoted_text_object_range ta scope q = Ok o /\ opt_ok (text ta) o) as Hq.
  { intros q. unfold quoted_text_object_range.
    destruct (line_bounds_exist strict ta Hwf) as (bol & eol & [Hb He Hle _ _ -> ->]). cbn [res_bind].
    destruct (boundary_split3 (text ta) bol eol) as (a & d & b & E & -> & ->); [done..|lia|].
    rewrite E, str_slice_mid, <- E. cbn [from_opt res_bind].
    by apply (quoted_loop_ok ta scope q a d b None None [] d). }
  destruct object; cbn [text_object_range]; auto.
Qed.

Lemma set_cursor_to_keeps ta target : wf ta -> (exists p, target = Ok p) -> keeps (set_cursor_to ta target).
Proof. intros Hwf [p ->]. unfold set_cursor_to. cbn [res_bind]. auto with textarea. Qed.

Lemma vim_word_end_exclusive_ok ta : wf ta ->
  exists p, vim_word_end_exclusive ta = Ok p /\ boundary (text ta) p.
Proof using Laws.
  intros Hwf. unfold vim_word_end_exclusive, end_of_next_word.
  destruct (end_of_next_word_ok strict ta (cursor_pos ta) Hwf (wf_cursor Hwf)) as (p & -> & [Hp _] & _).
  cbn [res_bind]. destruct (_ && _); [|by eauto].
  destruct (end_of_next_word_ok strict ta p Hwf Hp) as (q & -> & [Hq _] & _). eauto.
Qed.

Lemma horizontal_motion_spec ta motion : wf ta -> motion <> MUp -> motion <> MDown ->
  exists p, boundary (text ta) p /\ move_by ta motion = Ok (set_preferred_col (set_cursor_pos ta p) None).
Proof using Laws.
  intros Hwf Hup Hdown.
  assert (forall p, boundary (text ta) (cursor_pos (set_cursor ta p))) as Hset.
  { intros p. pose proof (wf_cursor (set_cursor_well_formed strict ta p Hwf)) as Hb. exact Hb. }
  assert (forall target, (exists p, target = Ok p) -> exists p, boundary (text ta) p /\
    set_cursor_to ta target = Ok (set_preferred_col (set_cursor_pos ta p) None)) as Hto.
  { intros target [p ->]. eexists; split; [apply (Hset p)|done]. }
  destruct (line_bounds_exist strict ta Hwf) as (bol & eol & [_ _ _ _ _ Eb Ee]).
  destruct motion; try done; cbn [move_by]; try apply Hto.
  - eexists; split; [|done]. by apply (prev_atomic_ok strict ta _ Hwf (wf_cursor Hwf)).
  - eexists; split; [|done]. by apply (next_atomic_ok strict ta _ Hwf (wf_cursor Hwf)).
  - destruct (beginning_of_next_word_ok strict ta Hwf) as (p & ? & _). eauto.
  - destruct (beginning_of_previous_word_ok strict ta Hwf) as (p & ? & _). eauto.
  - destruct (vim_word_end_exclusive_ok ta Hwf) as (p & ? & _). eauto.
  - eauto.
  - eauto.
Qed.

Lemma linewise_range_ok ta motion : wf ta ->
  exists o, linewise_range_for_vertical_motion ta motion = Ok o /\ opt_ok (text ta) o.
Proof.
  intros Hwf. unfold linewise_range_for_vertical_motion, current_line_range_with_newline.
  destruct (line_bounds_exist strict ta Hwf) as (bol & eol & [Hbol Heol Hle Hnext Hprev -> ->]).
  cbn [res_bind r_start r_end].
  set (end_ := if eol <? str_len (text ta) then eol + 1 else eol).
  assert (boundary (text ta) end_ /\ eol <= end_) as [Hend Hle'].
  { unfold end_. case_match; (split; [|lia]); [apply Hnext; lia|done]. }
  assert (forall r, range_ok (text ta) r -> exists o,
    Ok (E := Empty_set) (if r_start r <? r_end r then Some r else None) = Ok o /\ opt_ok (text ta) o) as Hfin.
  { intros r Hr. eexists; split; [done|]. case_match; [by apply opt_ok_Some|done]. }
  destruct motion; cbn [res_bind]; try (by eexists).
  - destruct (bol =? 0) eqn:E0; cbn [res_bind]; [apply Hfin, range_ok_intro; done || lia|].
    pose proof (Hprev ltac:(lia)) as (a & b & E & Ea)%boundary_iff.
    destruct (beginning_of_line_spec ta a b E) as (x & l & El & Ex & _). rewrite Ea, Ex. cbn [res_bind].
    apply Hfin, range_ok_intro; [rewrite E, El, <- app_assoc; apply boundary_app|done|].
    rewrite El, str_len_app in Ea. lia.
  - destruct (str_len (text ta) <=? end_) eqn:E0; cbn [res_bind]; [apply Hfin, range_ok_intro; done || lia|].
    pose proof Hend as (a & b & E & Ea)%boundary_iff.
    destruct (end_of_line_spec ta a b E) as (l & y & El & Ex & _ & Hy). rewrite Ea, Ex. cbn [res_bind].
    assert (boundary (text ta) (str_len a + str_len l)) as Hb
      by (rewrite E, El, app_assoc, <- str_len_app; apply boundary_app).
    apply Hfin, range_ok_intro; [done| |case_match; lia]. case_match; [|done].
    destruct Hy as [->|[z ->]].
    { exfalso. rewrite E, El, app_nil_r, str_len_app in *. lia. }
    rewrite E, El. replace (a ++ l ++ NL :: z) with (((a ++ l) ++ [NL]) ++ z) by (by rewrite <- !app_assoc).
    change 1 with (str_len [NL]). rewrite <- !str_len_app. apply boundary_app.
Qed.

Lemma range_for_motion_ok ta motion : wf ta ->
  exists o, range_for_motion ta motion = Ok (ta, o) /\ opt_ok (text ta) o.
Proof using Laws.
  intros Hwf. destruct (linewise_range_ok ta motion Hwf) as (o & El & Ho).
  assert (motion <> MUp -> motion <> MDown -> exists o,
    (let? moved := target_for_motion ta motion in
     let '(ta', target) := moved in
     Ok (ta', if cursor_pos ta =? target then None
              else Some (if target <? cursor_pos ta then mk_range target (cursor_pos ta)
                         else mk_range (cursor_pos ta) target))) = Ok (E := Empty_set) (ta, o) /\
    opt_ok (text ta) o) as Hh.
  { intros Hu Hd. destruct (horizontal_motion_spec ta motion Hwf Hu Hd) as (p & Hp & Em).
    unfold target_for_motion. rewrite Em. cbn [res_bind]. eexists; split; [by destruct ta|].
    cbn [cursor_pos set_preferred_col set_cursor_pos].
    pose proof (wf_cursor Hwf). repeat case_match; try done; apply opt_ok_Some, range_ok_intro; done || lia. }
  destruct motion; try (by apply Hh); cbn [range_for_motion]; rewrite El; cbn [res_bind]; eauto.
Qed.

Lemma apply_operator_keeps ta op motion : wf ta -> keeps (apply_vim_operator ta op motion).
Proof using Laws.
  intros Hwf. unfold apply_vim_operator. destruct (range_for_motion_ok ta motion Hwf) as (o & -> & Ho).
  cbn [res_bind]. destruct o as [r|]; [|auto with textarea]. specialize (Ho r eq_refl).
  destruct op; [by apply keeps_kill|by apply keeps_yank_range|auto with textarea].
Qed.

Lemma apply_operator_to_range_keeps ta op r : wf ta -> range_ok (text ta) r ->
  keeps (apply_vim_operator_to_range ta op r).
Proof.
  intros Hwf Hr. destruct op; cbn [apply_vim_operator_to_range];
    [by apply keeps_kill|by apply keeps_yank_range|].
  apply keeps_bind; [by apply keeps_kill|]. unfold set_mode. auto with textarea.
Qed.

(** ** Every key keeps the buffer well formed *)

Ltac keep_branches ta event :=
  repeat lazymatch goal with
  | |- TextArea.keeps _ (if is_pressed _ _ then _ else _) => case_match
  | |- TextArea.keeps _ (set_cursor_to _ _) => by apply set_cursor_to_keeps
  | |- TextArea.keeps _ (insert_str_at _ _ _) => by apply keeps_insert
  | |- TextArea.keeps _ (Ok (move_cursor_left _)) => by apply keeps_Ok, move_left_keeps
  | |- TextArea.keeps _ (Ok (move_cursor_right _)) => by apply keeps_Ok, move_right_keeps
  | |- TextArea.keeps _ (Ok ta) => by apply keeps_Ok
  | |- TextArea.keeps _ (match code event with _ => _ end) => destruct (code event)
  | |- TextArea.keeps _ (if _ then _ else _) => case_match
  | |- _ => solve [eauto with textarea]
  end.

Lemma input_with_keymap_keeps ta event keymap : wf ta -> keeps (input_with_keymap ta event keymap).
Proof using Laws.
  intros Hwf.
  assert (exists p, beginning_of_previous_word ta = Ok p) as Hprev
    by (destruct (beginning_of_previous_word_ok strict ta Hwf) as (p & ? & _); eauto).
  assert (exists p, end_of_next_word ta = Ok p) as Hnext
    by (destruct (end_of_next_word_ok strict ta _ Hwf (wf_cursor Hwf)) as (p & ? & _); eauto).
  unfold input_with_keymap, insert_str.
  keep_branches ta event.

Qed.

Lemma then_insert_keeps m : keeps m -> keeps (then_insert m).
Proof. intros Hm. apply keeps_bind; [done|]. intros. apply keeps_Ok. by apply well_formed_vim. Qed.

Lemma set_mode_keeps ta m : wf ta -> wf (set_mode ta m).
Proof. apply well_formed_vim. Qed.

Lemma set_pending_keeps ta p : wf ta -> wf (set_pending ta p).
Proof. apply well_formed_vim. Qed.

Lemma open_line_below_keeps ta : wf ta -> keeps (open_line_below ta).
Proof.
  intros Hwf. unfold open_line_below.
  destruct (line_bounds_exist strict ta Hwf) as (bol & eol & [_ _ _ _ _ _ ->]). cbn [res_bind].
  apply keeps_bind; [by apply keeps_insert|]. intros. apply keeps_Ok, set_mode_keeps. auto with textarea.
Qed.

Lemma open_line_above_keeps ta : wf ta -> keeps (open_line_above ta).
Proof.
  intros Hwf. unfold open_line_above.
  destruct (line_bounds_exist strict ta Hwf) as (bol & eol & [_ _ _ _ _ -> _]). cbn [res_bind].
  apply keeps_bind; [by apply keeps_insert|]. intros. apply keeps_Ok, set_mode_keeps. auto with textarea.
Qed.

Lemma substitute_char_keeps ta : wf ta -> keeps (substitute_char ta).
Proof using Laws.
  intros Hwf. unfold substitute_char.
  destruct (line_bounds_exist strict ta Hwf) as (bol & eol & [_ _ _ _ _ _ ->]). cbn [res_bind].
  apply then_insert_keeps. case_match; [|by apply keeps_Ok].
  eapply kills_keeps; [done|]. by eapply delete_forward_kill_kills.
Qed.

Lemma first_non_blank_total ta : wf ta -> exists p, first_non_blank_of_current_line ta = Ok p.
Proof.
  intros Hwf. unfold first_non_blank_of_current_line.
  destruct (line_bounds_exist strict ta Hwf) as (bol & eol & [Hb He Hle _ _ -> ->]). cbn [res_bind].
  destruct (str_slice_bounds (text ta) bol eol) as [d ->]; [done..|lia|]. by eexists.
Qed.

Lemma handle_vim_command_keeps ta event : wf ta -> keeps (handle_vim_command keymaps ta event).
Proof using Laws.
  intros Hwf.
  assert (exists p, beginning_of_previous_word ta = Ok p) as Hprev
    by (destruct (beginning_of_previous_word_ok strict ta Hwf) as (p & ? & _); eauto).
  assert (exists p, beginning_of_next_word ta = Ok p) as Hnext
    by (destruct (beginning_of_next_word_ok strict ta Hwf) as (p & ? & _); eauto).
  assert (exists p, vim_word_end_cursor ta = Ok p) as Hend.
  { unfold vim_word_end_cursor. destruct (vim_word_end_exclusive_ok ta Hwf) as (p & -> & _). by eexists. }
  pose proof (first_non_blank_total ta Hwf) as Hblank.
  destruct (line_bounds_exist strict ta Hwf) as (bol & eol & [_ _ _ _ _ Eb Ee]).
  assert (exists p, vim_line_end_cursor ta = Ok p) as Hline.
  { unfold vim_line_end_cursor. rewrite Eb, Ee. by eexists. }
  pose proof (ex_intro (fun p => beginning_of_current_line ta = Ok p) bol Eb) as Hbol.
  pose proof (ex_intro (fun p => end_of_current_line ta = Ok p) eol Ee) as Heol.
  unfold handle_vim_command.
  repeat lazymatch goal with
  | |- keeps (then_insert _) => apply then_insert_keeps
  | |- keeps (open_line_below _) => by apply open_line_below_keeps
  | |- keeps (open_line_above _) => by apply open_line_above_keeps
  | |- keeps (substitute_char _) => by apply substitute_char_keeps
  | |- keeps (Ok (set_mode _ _)) => by apply keeps_Ok, set_mode_keeps
  | |- keeps (Ok (set_pending _ _)) => by apply keeps_Ok, set_pending_keeps
  | |- _ => progress keep_branches ta event
  end.
Qed.

Lemma handle_vim_operator_keeps ta op event : wf ta ->
  exists ta' b, handle_vim_operator keymaps ta op event = Ok (ta', b) /\ wf ta'.
Proof using Laws.
  intros Hwf. unfold handle_vim_operator.
  destruct (_ && _).
  { destruct (kills_keeps strict ta _ Hwf (kill_current_line_kills strict ta Hwf)) as (ta' & -> & ?).
    cbn [res_bind]. eauto. }
  destruct (_ && _).
  { destruct (yank_current_line_keeps strict ta Hwf) as (ta' & -> & ?). cbn [res_bind]. eauto. }
  destruct (is_pressed _ _); [by eauto|].
  destruct (vim_text_object_scope_for_event _ _); [do 2 eexists; split; [done|by apply set_pending_keeps]|].
  destruct (is_op op Change); [by eauto|]. destruct (vim_motion_for_event _ _) as [motion|]; [|by eauto].
  destruct (apply_operator_keeps ta op motion Hwf) as (ta' & -> & ?). cbn [res_bind]. eauto.
Qed.

Lemma handle_vim_text_object_keeps ta op scope event : wf ta ->
  exists ta' b, handle_vim_text_object keymaps ta op scope event = Ok (ta', b) /\ wf ta'.
Proof using Laws.
  intros Hwf. unfold handle_vim_text_object. destruct (is_pressed _ _); [by eauto|].
  destruct (vim_text_object_for_event _ _) as [object|]; [|by eauto].
  destruct (text_object_ok ta object scope Hwf) as (o & -> & Ho). cbn [res_bind].
  destruct o as [r|]; [|by eauto].
  destruct (apply_operator_to_range_keeps ta op r Hwf (Ho r eq_refl)) as (ta' & -> & ?). cbn [res_bind]. eauto.
Qed.

Lemma handle_vim_normal_keeps ta event : wf ta -> keeps (handle_vim_normal keymaps ta event).
Proof using Laws.
  intros Hwf. unfold handle_vim_normal. pose proof (set_pending_keeps ta NoPending Hwf) as Hwf'.
  destruct (vim_pending ta) as [|op|op scope].
  - by apply handle_vim_command_keeps.
  - destruct (handle_vim_operator_keeps _ op event Hwf') as (ta' & b & -> & ?). by apply keeps_Ok.
  - destruct (handle_vim_text_object_keeps _ op scope event Hwf') as (ta' & b & -> & ?). by apply keeps_Ok.
Qed.

(** No element has a line break in it. *)
Definition single_line (ta : TextArea) : Prop :=
  Forall (fun e => forall s, range_text ta (element_range e) = Some s -> NL ∉ s) (elements ta).

(** Then no line starts inside an element. *)
Lemma line_start_outside ta x r : wf ta -> single_line ta -> text ta = x ++ r ->
  (x = [] \/ exists z, x = z ++ [NL]) -> outside (elements ta) (str_len x).
Proof.
  intros Hwf Hsl Ex Hx. unfold outside, single_line in *. rewrite Forall_forall in Hsl |- *.
  intros e He Hin. destruct (element_split strict ta e Hwf He) as (a & d & b & E & Er & _).
  specialize (Hsl e He). unfold range_text, inside, e_start, e_end in *. rewrite Er in *. cbn [r_start r_end] in *.
  specialize (Hsl d). rewrite E in Hsl. specialize (Hsl (str_slice_mid a d b)).
  destruct Hx as [->|[z ->]]; [change (str_len []) with 0 in Hin; lia|].
  rewrite Ex in E. apply app_eq_inv in E as [(k & Ek & Ek')|(k & -> & _)].
  2: { rewrite str_len_app in Hin. lia. }
  assert (str_len z + 1 = str_len a + str_len k) as El
    by (change 1 with (str_len [NL]); rewrite <- !str_len_app; by rewrite Ek).
  rewrite str_len_app, str_len_single in Hin. change (len_utf8 NL) with 1 in Hin.
  destruct k as [|c k _] using rev_ind; [change (str_len []) with 0 in El; lia|].
  rewrite app_assoc in Ek. apply app_inj_tail in Ek as [_ <-].
  apply app_eq_inv in Ek' as [(k' & -> & _)|(k' & Ek & _)]; [set_solver|].
  rewrite Ek, str_len_app in El. lia.
Qed.

Lemma enter_normal_keeps ta : wf ta -> wf (enter_vim_normal_mode ta).
Proof. intros. unfold enter_vim_normal_mode. case_match; [by apply well_formed_col, well_formed_vim|done]. Qed.

Lemma enter_insert_keeps ta : wf ta -> wf (enter_vim_insert_mode ta).
Proof. intros. unfold enter_vim_insert_mode. case_match; [by apply well_formed_vim|done]. Qed.

Lemma handle_vim_insert_keeps ta event : wf ta -> (strict = true -> code event = Esc -> single_line ta) ->
  keeps (handle_vim_insert keymaps ta event).
Proof using Laws.
  intros Hwf Hsl. unfold handle_vim_insert. destruct (code event) eqn:Ec; try by apply input_with_keymap_keeps.
  destruct (current_line strict ta Hwf) as (x & l & r & y & Et & _ & -> & _ & _ & Hx & _). cbn [res_bind].
  assert (boundary (text ta) (str_len x)) as Hb by (rewrite Et; apply boundary_app).
  apply keeps_Ok, enter_normal_keeps.
  destruct (_ <? _); [|done].
  destruct (prev_atomic_ok strict ta _ Hwf (wf_cursor Hwf)) as [[Hp Ho] _].
  pose proof Hwf as [H1 H2 H3 H4]. split; cbn [text elements cursor_pos wrap_cache set_cursor_pos]; [done| | |done].
  - destruct (Nat.max_spec (prev_atomic_boundary ta (cursor_pos ta)) (str_len x)) as [[_ ->]|[_ ->]]; done.
  - intros Hs. destruct (Nat.max_spec (prev_atomic_boundary ta (cursor_pos ta)) (str_len x)) as [[_ ->]|[_ ->]]; [|done].
    by eapply line_start_outside; [exact Hwf|auto|done|].
Qed.

(** Escape is the one key that can leave the cursor inside an element. *)
Definition key_allowed (ta : TextArea) (event : KeyEvent) : Prop :=
  strict = true -> vim_enabled ta = true -> vim_mode ta = Insert -> code event = Esc -> single_line ta.

Lemma input_keeps ta event : wf ta -> key_allowed ta event -> keeps (input keymaps ta event).
Proof using Laws.
  intros Hwf Hk. unfold input. case_match; [|by apply keeps_Ok].
  destruct (vim_enabled ta) eqn:Ev; [|by apply input_with_keymap_keeps].
  unfold handle_vim_input. destruct (vim_mode ta) eqn:Em; [by apply handle_vim_normal_keeps|].
  apply handle_vim_insert_keeps; [done|]. intros. by apply Hk.
Qed.
End laws.

(** ** Sessions

    The public methods of the buffer, as the composer calls them, and key presses. *)

Inductive Command :=
| Key (event : KeyEvent)
| SetTextClearingElements (s : str)
| SetTextWithElements (s : str) (elems : list UserTextElement)
| InsertStr (s : str)
| InsertStrAt (pos : nat) (s : str)
| ReplaceRange (r : Range) (s : str)
| SetCursor (pos : nat)
| DeleteBackward (n : nat)
| DeleteForward (n : nat)
| InsertElement (s : str)
| InsertNamedElement (s id : str)
| ReplaceElementById (id s : str)
| UpdateNamedElementById (id s : str)
| ReplaceElementPayload (old_name new_name : str)
| AddElementRange (r : Range)
| RemoveElementRange (r : Range)
| SetVimEnabled (enabled : bool)
| EnterVimInsertMode
| EnterVimNormalMode
| Wrapped (cache : WrapCache).

Section sessions.
Context `{Segmentation} (keymaps : RuntimeKeymap).

Definition execute (c : Command) (ta : TextArea) : M TextArea :=
  match c with
  | Key event => input keymaps ta event
  | SetTextClearingElements s => Ok (set_text_clearing_elements ta s)
  | SetTextWithElements s elems => Ok (set_text_with_elements ta s elems)
  | InsertStr s => insert_str ta s
  | InsertStrAt pos s => insert_str_at ta pos s
  | ReplaceRange r s => replace_range ta r s
  | SetCursor pos => Ok (set_cursor ta pos)
  | DeleteBackward n => delete_backward ta n
  | DeleteForward n => delete_forward ta n
  | InsertElement s => let? r := insert_element ta s in Ok r.1
  | InsertNamedElement s id => insert_named_element ta s id
  | ReplaceElementById id s => let? r := replace_element_by_id ta id s in Ok r.1
  | UpdateNamedElementById id s => let? r := update_named_element_by_id ta id s in Ok r.1
  | ReplaceElementPayload old_name new_name => let? r := replace_element_payload ta old_name new_name in Ok r.1
  | AddElementRange r => Ok (add_element_range ta r).1
  | RemoveElementRange r => Ok (remove_element_range ta r).1
  | SetVimEnabled enabled => Ok (set_vim_enabled ta enabled)
  | EnterVimInsertMode => Ok (enter_vim_insert_mode ta)
  | EnterVimNormalMode => Ok (enter_vim_normal_mode ta)
  | Wrapped cache => Ok (set_wrap_cache ta (Some cache))
  end.

(** What a caller has to respect: a range to replace is a range of characters of the
    text ([String::replace_range] panics otherwise), elements given with a text do not
    overlap (the code does not check it, see [overlapping_elements_panic]), and wrapped
    lines are ranges of the text.  To keep the cursor out of the elements ([strict]),
    text must not become an element by [add_element_range], and the elements have no
    line break when Escape leaves insert mode. *)
Definition allowed (strict : bool) (ta : TextArea) (c : Command) : Prop :=
  match c with
  | Key event => key_allowed strict ta event
  | SetTextWithElements _ elems => user_elements_ok elems
  | ReplaceRange r _ => range_ok (text ta) r
  | AddElementRange _ => strict = false
  | Wrapped cache => cache_ok (text ta) (Some cache)
  | _ => True
  end.

Inductive reachable (strict : bool) : TextArea -> Prop :=
| reachable_new : reachable strict new_text_area
| reachable_step ta c ta' :
    reachable strict ta -> allowed strict ta c -> execute c ta = Ok ta' -> reachable strict ta'.

Lemma execute_keeps `{!SegmentationLaws} strict ta c :
  well_formed strict ta -> allowed strict ta c -> keeps strict (execute c ta).
Proof.
  intros Hwf Ha. destruct c; cbn [execute allowed] in *; unfold insert_str.
  - by apply input_keeps.
  - by apply keeps_Ok, set_text_inner_keeps.
  - apply keeps_Ok, set_text_inner_keeps. by intros es [= <-].
  - by apply keeps_insert.
  - by apply keeps_insert.
  - by apply keeps_replace.
  - auto with textarea.
  - auto with textarea.
  - auto with textarea.
  - destruct (insert_element_keeps strict ta s Hwf) as (ta' & n & -> & ?). by apply keeps_Ok.
  - by apply insert_named_element_keeps.
  - destruct (replace_element_by_id_keeps strict ta id s Hwf) as (ta' & n & -> & ?). by apply keeps_Ok.
  - destruct (update_named_element_keeps strict ta id s Hwf) as (ta' & n & -> & ?). by apply keeps_Ok.
  - destruct (replace_element_payload_keeps strict ta old_name new_name Hwf) as (ta' & n & -> & ?). by apply keeps_Ok.
  - by apply keeps_Ok, add_element_range_keeps.
  - by apply keeps_Ok, remove_element_range_keeps.
  - by apply keeps_Ok, well_formed_vim.
  - by apply keeps_Ok, enter_insert_keeps.
  - by apply keeps_Ok, enter_normal_keeps.
  - apply keeps_Ok. destruct Hwf. by split.
Qed.

Lemma reachable_well_formed `{!SegmentationLaws} strict ta : reachable strict ta -> well_formed strict ta.
Proof.
  induction 1 as [|ta c ta' Hr IH Ha E].
  - destruct new_well_formed as [H1 H2 H3 H4]. split; auto.
  - destruct (execute_keeps strict ta c IH Ha) as (ta2 & E2 & ?).
    rewrite E in E2. by injection E2 as <-.
Qed.

(** C35: the edit buffer never panics and never loses its shape as long as its
    callers respect [allowed].  From an empty buffer, after any sequence of key presses
    and calls in which ranges to replace are on character boundaries, the elements
    given with a text do not overlap and wrapped lines are ranges of the text, the
    cursor and the ends of every element are on character boundaries, the elements are
    in the order of the text and do not overlap, and the next such call returns.  If
    moreover no text is turned into an element in place, and no element has a line
    break when Escape leaves insert mode, the cursor is never inside an element. *)
Theorem buffer_stays_well_formed `{!SegmentationLaws} strict ta c :
  reachable strict ta -> allowed strict ta c ->
  well_formed strict ta /\ exists ta', execute c ta = Ok ta' /\ well_formed strict ta'.
Proof.
  intros Hr Ha. pose proof (reachable_well_formed strict ta Hr) as Hwf.
  split; [done|]. by apply execute_keeps.
Qed.
End sessions.

(** ** Examples *)

#[local] Existing Instance char_segmentation.
#[local] Existing Instance char_segmentation_laws.

Definition plain (c : char) : list KeyBinding := [mk_binding (Char c) NO_MODIFIERS].

(** Bindings for [i], [d], [p], [G] as a line down and [Escape]. *)
Definition example_keymaps : RuntimeKeymap := {|
  editor_keymap := mk_editor_keymap [] [] [] [] [] [] [] [] [] [] [] [] [] [] [] [] [];
  vim_normal_keymap :=
    mk_vim_normal_keymap (plain 105) [] [] [] [] [] (plain 104) (plain 108) (plain 107) (plain 106) [] [] [] [] []
      [] [] [] [] [] (plain 112) (plain 100) (plain 121) (plain 99) [mk_binding Esc NO_MODIFIERS];
  vim_operator_keymap :=
    mk_vim_operator_keymap (plain 100) (plain 121) (plain 104) (plain 108) (plain 107) (plain 106) [] [] [] [] []
      (plain 105) (plain 97) [mk_binding Esc NO_MODIFIERS];
  vim_text_object_keymap := mk_vim_text_object_keymap (plain 119) [] (plain 40) [] [] [] [] [] []
|}%N.

Definition press (k : KeyCode) : Command := Key (mk_key k NO_MODIFIERS Press).
Definition keys (s : string) : list Command := press ∘ Char <$> lit s.

Fixpoint execute_all (cs : list Command) (ta : TextArea) : M TextArea :=
  match cs with
  | [] => Ok ta
  | c :: cs => let? ta := execute example_keymaps c ta in execute_all cs ta
  end.

(** Calls that can be seen to be allowed where they are made. *)
Definition seen_allowed (c : Command) (ta : TextArea) : bool :=
  match c with
  | Key event => bool_decide (code event <> Esc) || negb (is_insert (vim_mode ta)) ||
      forallb (fun e => match range_text ta (element_range e) with Some s => bool_decide (NL ∉ s) | None => true end)
        (elements ta)
  | SetTextWithElements _ [e; e'] => r_end (byte_range e) <=? r_start (byte_range e')
  | ReplaceRange r _ => (r_start r <=? r_end r) && is_char_boundary (text ta) (r_start r) &&
      is_char_boundary (text ta) (r_end r)
  | SetTextWithElements _ _ | AddElementRange _ | Wrapped _ => false
  | _ => true
  end.

Lemma seen_allowed_sound c ta : seen_allowed c ta = true -> allowed true ta c.
Proof.
  destruct c; cbn [seen_allowed allowed]; try done.
  - intros [[H|H]%orb_true_iff|H]%orb_true_iff _ _ Hm Hc; [by apply bool_decide_eq_true in H|by rewrite Hm in H|].
    apply Forall_forall. intros e He s Es. rewrite forallb_forall in H.
    specialize (H e (proj1 (list_elem_of_In _ _) He)). rewrite Es in H. by apply bool_decide_eq_true in H.
  - destruct elems as [|e [|e' [|]]]; try done. intros H%Nat.leb_le.
    unfold user_elements_ok. cbn. constructor; [repeat constructor|]. constructor; [by left|constructor].
  - intros [[H1%Nat.leb_le H2]%andb_true_iff H3]%andb_true_iff. by repeat split.
Qed.

Fixpoint run_allowed (cs : list Command) (ta : TextArea) : option TextArea :=
  match cs with
  | [] => Some ta
  | c :: cs =>
    if seen_allowed c ta then match execute example_keymaps c ta with Ok ta => run_allowed cs ta | _ => None end
    else None
  end.

Lemma run_allowed_reachable cs : forall ta ta',
  reachable example_keymaps true ta -> run_allowed cs ta = Some ta' -> reachable example_keymaps true ta'.
Proof.
  induction cs as [|c cs IH]; intros ta ta' Hr E; cbn [run_allowed] in E; [by injection E as <-|].
  destruct (seen_allowed c ta) eqn:Ea; [|done]. destruct (execute example_keymaps c ta) as [ta1| | |] eqn:Ex; try done.
  apply (IH ta1); [|done]. eapply reachable_step; [done|by apply seen_allowed_sound|done].
Qed.

(** A text with a wide character and two elements, one of them given by a range that
    splits that character, edited by calls and by keys in both Vim modes. *)
Definition example_session : list Command :=
  [SetTextWithElements (lit "fix [img] u" ++ [233%N] ++ lit " [log]")
     [mk_user_element (mk_range 4 9) None; mk_user_element (mk_range 12 19) None];
   SetCursor 6; InsertNamedElement (lit "@file") (lit "id"); SetVimEnabled true]
  ++ keys "ix" ++ [press Esc] ++ keys "hciw" ++ [press (Char 233%N); ReplaceRange (mk_range 0 3) (lit "see");
   DeleteBackward 1; press Esc] ++ keys "hp".

Definition example_buffer : TextArea := default new_text_area (run_allowed example_session new_text_area).

Example example_buffer_text :
  text example_buffer = lit "see@file x[img] u" ++ [233%N] ++ lit " [log]" /\
  element_range <$> elements example_buffer = [mk_range 10 15; mk_range 17 25] /\ cursor_pos example_buffer = 8.
Proof. vm_compute. done. Qed.

Lemma buffer_stays_well_formed_witness :
  well_formed true example_buffer /\
  exists ta', execute example_keymaps (press (Char 105%N)) example_buffer = Ok ta' /\ well_formed true ta'.
Proof.
  assert (run_allowed example_session new_text_area = Some example_buffer) as E by (vm_compute; reflexivity).
  apply (buffer_stays_well_formed example_keymaps true example_buffer (press (Char 105%N))).
  - exact (run_allowed_reachable example_session new_text_area example_buffer (reachable_new _ _) E).
  - apply seen_allowed_sound. vm_compute. reflexivity.
Defined.

(** [ci(] with the cursor on the parenthesis kills behind the cursor and leaves it
    there: a yank right after it does not put the text back where it was. *)
Example change_inner_parentheses_yank :
  (let? ta := execute_all ([InsertStr (lit "(ab)"); SetCursor 0; SetVimEnabled true] ++ keys "ci(") new_text_area in
   let? ta := yank ta in Ok (text ta)) = Ok (lit "ab()").
Proof. vm_compute. reflexivity. Qed.

(** [ciw] in the middle of a word empties it and enters insert mode. *)
Example change_inner_word :
  (let? ta := execute_all ([InsertStr (lit "one two"); SetCursor 5; SetVimEnabled true] ++ keys "ciw") new_text_area in
   Ok (text ta, cursor_pos ta, is_insert (vim_mode ta))) = Ok (lit "one ", 4, true).
Proof. vm_compute. reflexivity. Qed.

(** [dd] and [dj] both take whole lines, but what [dj] takes is stored as characters:
    [p] after [dd] opens a line below, after [dj] it splits the line of the cursor. *)
Lemma vertical_cut_pastes_inside_line :
  let lines := [InsertStr (lit "ab" ++ [NL] ++ lit "cd" ++ [NL] ++ lit "ef"); SetCursor 0; SetVimEnabled true] in
  (let? ta := execute_all (lines ++ keys "ddp") new_text_area in Ok (text ta)) =
    Ok (lit "cd" ++ [NL] ++ lit "ab" ++ [NL] ++ lit "ef") /\
  (let? ta := execute_all (lines ++ keys "djp") new_text_area in Ok (text ta)) =
    Ok (lit "e" ++ lit "ab" ++ [NL] ++ lit "cd" ++ [NL] ++ lit "f").
Proof. split; vm_compute; reflexivity. Qed.

(** Escape after an element with a line break puts the cursor inside it. *)
Lemma escape_lands_inside_element :
  (let? ta := execute_all [InsertElement (lit "ab" ++ [NL] ++ lit "cd"); SetVimEnabled true;
                           press (Char 105%N); press Esc] new_text_area in
   Ok (cursor_pos ta, element_range <$> elements ta)) = Ok (3, [mk_range 0 5]).
Proof. vm_compute. reflexivity. Qed.
