(* ===== verification/RolloutReplay.v ===== *)
(** * Reconstruction of a thread from its rollout
      ([core/src/session/rollout_reconstruction.rs])

    A rollout is the log of a thread: response items, contexts of turns, events,
    compactions and rollback markers.  On resume, fork and rollback it is scanned
    from the newest item back, segment by segment, for a checkpoint of the history
    and for the settings and the context of the last turns that survive; then the
    items after the checkpoint are replayed forward.  The replay of the whole log
    is the reference the reconstruction is compared with, and a stack of turns is
    the abstract account of what survives the rollbacks. *)

From S2P Require Export Compact.
From Stdlib Require Import ZifyBool.
#[local] Open Scope Z_scope.

(** ** The log ([protocol/src/protocol.rs]) *)

(** The fields of the context that replay reads; the others are [tc_rest]. *)
Record TurnContextItem := mk_turn_context {
  tc_turn_id : option str;
  tc_model : str;
  tc_realtime_active : option bool;
  tc_rest : opaque
}.

Record CompactedItem := mk_compacted {
  compacted_message : str;
  replacement_history : option (list ResponseItem)
}.

(** The events that replay reads; the others are [OtherEventMsg]. *)
Inductive EventMsg :=
| ThreadRolledBack (num_turns : Z)
| TurnStarted (turn_id : str)
| TurnComplete (turn_id : str)
| TurnAbortedEvent (turn_id : option str)
| UserMessageEvent (payload : opaque)
| TokenCount (info : option TokenUsageInfo)
| OtherEventMsg (payload : opaque).

Inductive RolloutItem :=
| SessionMetaItem (meta : opaque)
| ResponseItemLine (item : ResponseItem)
| Compacted (compacted : CompactedItem)
| TurnContext (ctx : TurnContextItem)
| EventLine (msg : EventMsg).

Record PreviousTurnSettings := mk_settings {
  model : str;
  realtime_active : option bool
}.

Record RolloutReconstruction := mk_reconstruction {
  history : list ResponseItem;
  rr_previous_turn_settings : option PreviousTurnSettings;
  rr_reference_context_item : option TurnContextItem
}.

Inductive TurnReferenceContextItem :=
| NeverSet
| Cleared
| Latest (item : TurnContextItem).

Record ActiveReplaySegment := mk_segment {
  seg_turn_id : option str;
  counts_as_user_turn : bool;
  seg_settings : option PreviousTurnSettings;
  seg_reference : TurnReferenceContextItem;
  seg_base : option (list ResponseItem)
}.

Definition segment_default : ActiveReplaySegment := mk_segment None false None NeverSet None.

(** The mutable variables of the scan. *)
Record ReplayScan := mk_scan {
  base_replacement_history : option (list ResponseItem);
  previous_turn_settings : option PreviousTurnSettings;
  scan_reference : TurnReferenceContextItem;
  pending_rollback_turns : Z;
  rollout_suffix : list RolloutItem;
  active_segment : option ActiveReplaySegment
}.

#[local] Notation manager := (@ContextManager TurnContextItem).

Definition is_never_set (r : TurnReferenceContextItem) : bool :=
  match r with NeverSet => true | _ => false end.
Definition is_cleared (r : TurnReferenceContextItem) : bool :=
  match r with Cleared => true | _ => false end.

Definition turn_ids_are_compatible (active_turn_id item_turn_id : option str) : bool :=
  match active_turn_id, item_turn_id with
  | Some turn_id, Some item_turn_id => str_eqb item_turn_id turn_id
  | _, _ => true
  end.

(** ** The segment being read *)

Definition set_turn_id (seg : ActiveReplaySegment) (id : option str) : ActiveReplaySegment :=
  mk_segment id (counts_as_user_turn seg) (seg_settings seg) (seg_reference seg) (seg_base seg).
Definition set_counts (seg : ActiveReplaySegment) (b : bool) : ActiveReplaySegment :=
  mk_segment (seg_turn_id seg) b (seg_settings seg) (seg_reference seg) (seg_base seg).
Definition set_settings (seg : ActiveReplaySegment) (s : option PreviousTurnSettings)
    : ActiveReplaySegment :=
  mk_segment (seg_turn_id seg) (counts_as_user_turn seg) s (seg_reference seg) (seg_base seg).
Definition set_reference (seg : ActiveReplaySegment) (r : TurnReferenceContextItem)
    : ActiveReplaySegment :=
  mk_segment (seg_turn_id seg) (counts_as_user_turn seg) (seg_settings seg) r (seg_base seg).
Definition set_base (seg : ActiveReplaySegment) (h : list ResponseItem) : ActiveReplaySegment :=
  mk_segment (seg_turn_id seg) (counts_as_user_turn seg) (seg_settings seg) (seg_reference seg) (Some h).

Definition with_active (st : ReplayScan) (seg : option ActiveReplaySegment) : ReplayScan :=
  mk_scan (base_replacement_history st) (previous_turn_settings st) (scan_reference st)
    (pending_rollback_turns st) (rollout_suffix st) seg.
Definition with_pending (st : ReplayScan) (n : Z) : ReplayScan :=
  mk_scan (base_replacement_history st) (previous_turn_settings st) (scan_reference st)
    n (rollout_suffix st) (active_segment st).
Definition with_suffix (st : ReplayScan) (l : list RolloutItem) : ReplayScan :=
  mk_scan (base_replacement_history st) (previous_turn_settings st) (scan_reference st)
    (pending_rollback_turns st) l (active_segment st).

(** The active segment is consumed: it is taken by the caller. *)
Definition finalize_active_segment (seg : ActiveReplaySegment) (st : ReplayScan) : ReplayScan :=
  if 0 <? pending_rollback_turns st then
    if counts_as_user_turn seg then with_pending st (pending_rollback_turns st - 1) else st
  else
    mk_scan
      (match base_replacement_history st with Some h => Some h | None => seg_base seg end)
      (match previous_turn_settings st with
       | None => if counts_as_user_turn seg then seg_settings seg else None
       | settings => settings
       end)
      (if is_never_set (scan_reference st) && (counts_as_user_turn seg || is_cleared (seg_reference seg))
       then seg_reference seg else scan_reference st)
      (pending_rollback_turns st) (rollout_suffix st) (active_segment st).

Section replay.
Variable from_xml_str : str -> option (str * str).
Variable is_inter_agent_json : str -> bool.
#[local] Notation boundary := (is_user_turn_boundary from_xml_str is_inter_agent_json).

(** ** The scan, newest item first *)

Definition get_segment (st : ReplayScan) : ActiveReplaySegment :=
  default segment_default (active_segment st).

(** [newer] is [rollout_items[index + 1..]]. *)
Definition scan_compacted (compacted : CompactedItem) (newer : list RolloutItem) (st : ReplayScan)
    : ReplayScan :=
  let seg := get_segment st in
  let seg := if is_never_set (seg_reference seg) then set_reference seg Cleared else seg in
  match seg_base seg, replacement_history compacted with
  | None, Some h => with_suffix (with_active st (Some (set_base seg h))) newer
  | _, _ => with_active st (Some seg)
  end.

Definition scan_turn_context (ctx : TurnContextItem) (st : ReplayScan) : ReplayScan :=
  let seg := get_segment st in
  let seg := match seg_turn_id seg with None => set_turn_id seg (tc_turn_id ctx) | Some _ => seg end in
  with_active st (Some (
    if turn_ids_are_compatible (seg_turn_id seg) (tc_turn_id ctx) then
      let seg := set_settings seg (Some (mk_settings (tc_model ctx) (tc_realtime_active ctx))) in
      if is_never_set (seg_reference seg) then set_reference seg (Latest ctx) else seg
    else seg)).

Definition scan_event (msg : EventMsg) (st : ReplayScan) : ReplayScan :=
  match msg with
  | ThreadRolledBack num_turns =>
    with_pending st (usat_add (pending_rollback_turns st) num_turns)
  | TurnComplete turn_id =>
    let seg := get_segment st in
    with_active st (Some (match seg_turn_id seg with
                          | None => set_turn_id seg (Some turn_id)
                          | Some _ => seg
                          end))
  | TurnAbortedEvent turn_id =>
    match active_segment st with
    | Some seg =>
      match seg_turn_id seg, turn_id with
      | None, Some turn_id => with_active st (Some (set_turn_id seg (Some turn_id)))
      | _, _ => st
      end
    | None =>
      match turn_id with
      | Some turn_id => with_active st (Some (set_turn_id segment_default (Some turn_id)))
      | None => st
      end
    end
  | UserMessageEvent _ => with_active st (Some (set_counts (get_segment st) true))
  | TurnStarted turn_id =>
    match active_segment st with
    | Some seg =>
      if turn_ids_are_compatible (seg_turn_id seg) (Some turn_id)
      then finalize_active_segment seg (with_active st None)
      else st
    | None => st
    end
  | TokenCount _ | OtherEventMsg _ => st
  end.

Definition scan_item (item : RolloutItem) (newer : list RolloutItem) (st : ReplayScan) : ReplayScan :=
  match item with
  | Compacted compacted => scan_compacted compacted newer st
  | TurnContext ctx => scan_turn_context ctx st
  | EventLine msg => scan_event msg st
  | ResponseItemLine response_item =>
    let seg := get_segment st in
    with_active st (Some (set_counts seg (counts_as_user_turn seg || boundary response_item)))
  | SessionMetaItem _ => st
  end.

Definition scan_done (st : ReplayScan) : bool :=
  match base_replacement_history st, previous_turn_settings st with
  | Some _, Some _ => negb (is_never_set (scan_reference st))
  | _, _ => false
  end.

Fixpoint scan_reverse (newest_first newer : list RolloutItem) (st : ReplayScan) : ReplayScan :=
  match newest_first with
  | [] => st
  | item :: older =>
    let st := scan_item item newer st in
    if scan_done st then st else scan_reverse older (item :: newer) st
  end.

Definition finish_scan (st : ReplayScan) : ReplayScan :=
  match active_segment st with
  | Some seg => finalize_active_segment seg (with_active st None)
  | None => st
  end.

Definition scan_rollout (rollout_items : list RolloutItem) : ReplayScan :=
  finish_scan (scan_reverse (reverse rollout_items) []
                 (mk_scan None None NeverSet 0 rollout_items None)).

(** ** The replay, oldest item first *)

Definition replay_item (policy : TruncationPolicy) (item : RolloutItem) (st : manager * bool)
    : res unit (manager * bool) :=
  let '(m, saw_legacy_compaction) := st in
  match item with
  | ResponseItemLine response_item =>
    let? m := record_items m [response_item] policy in Ok (m, saw_legacy_compaction)
  | Compacted compacted =>
    match replacement_history compacted with
    | Some h => Ok (replace m h, saw_legacy_compaction)
    | None =>
      let user_messages := collect_user_messages from_xml_str (items m) in
      let? rebuilt := build_compacted_history [] user_messages (compacted_message compacted) in
      Ok (replace m rebuilt, true)
    end
  | EventLine (ThreadRolledBack num_turns) =>
    let? m := drop_last_n_user_turns from_xml_str is_inter_agent_json m num_turns in
    Ok (m, saw_legacy_compaction)
  | EventLine _ | TurnContext _ | SessionMetaItem _ => Ok st
  end.

Fixpoint materialize (policy : TruncationPolicy) (l : list RolloutItem) (st : manager * bool)
    : res unit (manager * bool) :=
  match l with
  | [] => Ok st
  | item :: l => let? st := replay_item policy item st in materialize policy l st
  end.

Definition reference_value (r : TurnReferenceContextItem) : option TurnContextItem :=
  match r with NeverSet | Cleared => None | Latest item => Some item end.

Definition reconstruct_history_from_rollout (policy : TruncationPolicy)
    (rollout_items : list RolloutItem) : res unit RolloutReconstruction :=
  let scan := scan_rollout rollout_items in
  let m := match base_replacement_history scan with
           | Some h => replace context_new h
           | None => context_new
           end in
  let? replayed := materialize policy (rollout_suffix scan) (m, false) in
  let '(m, saw_legacy_compaction) := replayed in
  Ok (mk_reconstruction (items m) (previous_turn_settings scan)
        (if saw_legacy_compaction : bool then None else reference_value (scan_reference scan))).
End replay.

(** ** What replay depends on

    Replay reads nothing of the manager but its items, and returns when the
    texts are Rust strings. *)

Definition res_map {E A B} (f : A -> B) (r : res E A) : res E B := let? a := r in Ok (f a).

Lemma res_map_bind {E A B C} (f : B -> C) (r : res E A) (k : A -> res E B) :
  res_map f (res_bind r k) = res_bind r (fun a => res_map f (k a)).
Proof. by destruct r. Qed.

Lemma res_map_Ok {E A B} (f : A -> B) (r : res E A) b :
  res_map f r = Ok b -> exists a, r = Ok a /\ f a = b.
Proof. destruct r as [a| | |]; intros H; try discriminate. injection H as <-. by exists a. Qed.

Section determined.
Context (from_xml_str : str -> option (str * str)) (is_inter_agent_json : str -> bool).
Context (policy : TruncationPolicy).
#[local] Notation drop_turns := (drop_last_n_user_turns from_xml_str is_inter_agent_json).
#[local] Notation replay := (replay_item from_xml_str is_inter_agent_json policy).
#[local] Notation replay_all := (materialize from_xml_str is_inter_agent_json policy).

Lemma trim_cut snapshot first c : forall m1 m2 : manager,
  res_map snd (trim_pre_turn_context_updates from_xml_str m1 snapshot first c) =
  res_map snd (trim_pre_turn_context_updates from_xml_str m2 snapshot first c).
Proof.
  induction c as [|c IH]; intros m1 m2; [done|]. cbn [trim_pre_turn_context_updates].
  repeat case_match; done || apply IH.
Qed.

Lemma drop_turns_items (m1 m2 : manager) n :
  items m1 = items m2 -> res_map items (drop_turns m1 n) = res_map items (drop_turns m2 n).
Proof.
  intros E. unfold drop_last_n_user_turns. cbv zeta. rewrite <- E.
  destruct (n =? 0); [by simpl; rewrite E|]. destruct (head _) as [f|]; [|done].
  rewrite !res_map_bind. destruct (if _ <=? n then _ else _) as [c| | |]; [|done..]. cbn [res_bind].
  pose proof (trim_cut (items m1) f c m1 m2) as Ht.
  destruct (trim_pre_turn_context_updates _ m1 _ _ _) as [[]| | |],
    (trim_pre_turn_context_updates _ m2 _ _ _) as [[]| | |]; simplify_eq/=; try done.
  by destruct (from_opt _).
Qed.

Definition shown (st : manager * bool) : list ResponseItem := items st.1.

Lemma replay_shown item st1 st2 :
  shown st1 = shown st2 -> res_map shown (replay item st1) = res_map shown (replay item st2).
Proof.
  destruct st1 as [m1 b1], st2 as [m2 b2]. unfold shown. cbn [fst]. intros E.
  destruct item as [|i|c| |[n| | | | | |]]; cbn [replay_item]; try (by simpl; rewrite E).
  - cbn [record_items]. destruct (negb _); [by simpl; rewrite E|].
    destruct (process_item i policy); [|done..]. simpl. by rewrite E.
  - destruct (replacement_history c); [done|]. rewrite E. by destruct (build_compacted_history _ _ _).
  - pose proof (drop_turns_items m1 m2 n E).
    destruct (drop_turns m1 n), (drop_turns m2 n); simplify_eq/=; done || congruence.
Qed.

Lemma materialize_shown l : forall st1 st2,
  shown st1 = shown st2 -> res_map shown (replay_all l st1) = res_map shown (replay_all l st2).
Proof.
  induction l as [|item l IH]; intros st1 st2 E; [by simpl; rewrite E|]. cbn [materialize].
  pose proof (replay_shown item st1 st2 E) as Hi. rewrite !res_map_bind.
  destruct (replay item st1) as [s1| | |], (replay item st2) as [s2| | |]; simplify_eq/=; try done.
  by apply IH.
Qed.

Lemma materialize_app l1 l2 st :
  replay_all (l1 ++ l2) st = let? st := replay_all l1 st in replay_all l2 st.
Proof.
  revert st. induction l1 as [|item l1 IH]; intros st; [done|]. cbn [app materialize].
  destruct (replay item st); [|done..]. apply IH.
Qed.

(** ** Replay returns *)

(** The texts of the items are Rust strings. *)
Definition response_fits (i : ResponseItem) : Prop := item_fits i /\ text_fits from_xml_str i.

Definition line_fits (item : RolloutItem) : Prop :=
  match item with
  | ResponseItemLine i => response_fits i
  | Compacted c => Forall response_fits (default [] (replacement_history c)) /\
      zlen (compacted_message c) <= USIZE_MAX
  | EventLine (ThreadRolledBack n) => 0 <= n
  | _ => True
  end.

Hypothesis policy_ok : 0 <= policy_budget policy.

Lemma record_fits (m : manager) i :
  Forall (text_fits from_xml_str) (items m) -> response_fits i ->
  exists m', record_items m [i] policy = Ok m' /\ Forall (text_fits from_xml_str) (items m').
Proof.
  intros Hm [Hi Ht]. cbn [record_items]. destruct (is_api_message i); cbn [negb]; [|by eexists].
  destruct (process_item_spec i policy policy_ok Hi) as (i' & -> & Hr).
  eexists. split; [done|]. cbn [items set_items]. apply Forall_app. split; [done|].
  repeat constructor. by eapply recorded_text.
Qed.

Lemma drop_fits (m : manager) n :
  0 <= n -> Forall (text_fits from_xml_str) (items m) ->
  exists m', drop_turns m n = Ok m' /\ Forall (text_fits from_xml_str) (items m').
Proof.
  intros Hn Hm. destruct (decide (n = 0)) as [->|Hnz]; [by eexists|].
  destruct (decide (turns from_xml_str is_inter_agent_json (items m) = 0%nat)) as [Ht|Ht].
  - unfold drop_last_n_user_turns, turns in *. rewrite (proj2 (Z.eqb_neq _ _)) by done.
    destruct (user_message_positions _ _ (items m)); [|done]. by eexists.
  - destruct (drop_last_n_drops _ _ m n ltac:(lia) Ht) as (m' & kept & ctx & dropped & -> & <- & Hr & _).
    eexists. split; [done|]. rewrite (rb_split _ _ _ _ _ _ _ Hr) in Hm.
    by apply Forall_app in Hm as [? _].
Qed.

(** *** Rebuilding after a legacy compaction *)

Lemma pretty_go_short k : forall x s, (x < 2 ^ N.of_nat k)%N ->
  (String.length (pretty_N_go x s) <= String.length s + k)%nat.
Proof.
  induction k as [|k IH]; intros x s Hx.
  { replace x with 0%N by (simpl in Hx; lia). rewrite pretty_N_go_0. lia. }
  destruct (decide (x = 0%N)) as [->|Hz]; [rewrite pretty_N_go_0; lia|].
  rewrite pretty_N_go_step by lia. etransitivity; [apply IH|simpl; lia].
  rewrite Nat2N.inj_succ, N.pow_succ_r' in Hx. apply N.Div0.div_lt_upper_bound. lia.
Qed.

Lemma zlen_length s : zlen s <= 4 * Z.of_nat (length s).
Proof.
  induction s as [|c s IH]; [done|]. rewrite zlen_cons. pose proof (zlen_utf8_pos c).
  cbn [length]. lia.
Qed.

Lemma zlen_ge_length (s : str) : Z.of_nat (length s) <= zlen s.
Proof.
  induction s as [|c s IH]; [done|]. rewrite zlen_cons. pose proof (zlen_utf8_pos c).
  cbn [length]. lia.
Qed.

Lemma decz_short z : z <= USIZE_MAX -> zlen (decz z) <= 256.
Proof.
  intros Hz. unfold decz. etransitivity; [apply zlen_length|].
  assert (String.length (pretty (Z.to_N z)) <= 64)%nat as Hl.
  { unfold pretty, pretty_N. case_decide; [simpl; lia|].
    apply (pretty_go_short 64). change (2 ^ N.of_nat 64)%N with (Z.to_N (2 ^ 64)).
    unfold USIZE_MAX in Hz. lia. }
  assert (length (lit (pretty (Z.to_N z))) = String.length (pretty (Z.to_N z))) as ->; [|lia].
  unfold lit. rewrite length_map. generalize (pretty (Z.to_N z)). clear.
  intros s. induction s as [|a s IH]; [done|]. simpl. by rewrite IH.
Qed.

Lemma user_item_fits t : zlen t <= USIZE_MAX -> text_fits from_xml_str (user_item t).
Proof.
  intros Ht m. unfold user_text, user_item, parse_turn_item.
  change (str_eqb (lit "user") (lit "user")) with true. cbn iota.
  destruct (parse_visible_hook_prompt_message _ _); [done|].
  unfold parse_user_message. destruct (is_contextual_user_message_content _ _); [done|].
  cbn [fmap option_fmap option_map]. intros [= <-]. cbn [user_inputs head is_input_image].
  rewrite !andb_false_r. cbn. by rewrite app_nil_r.
Qed.

Lemma marker_short b z : z <= USIZE_MAX -> zlen (format_truncation_marker b z) <= 400.
Proof.
  intros Hz. apply decz_short in Hz. unfold format_truncation_marker.
  assert (zlen [ELLIPSIS] = 3 /\ zlen (lit " tokens truncated") = 17 /\ zlen (lit " chars truncated") = 16)
    as (? & ? & ?) by (by vm_compute).
  destruct b; rewrite !zlen_app; lia.
Qed.

Lemma truncated_short s max b r :
  0 <= max -> zlen s <= USIZE_MAX -> truncated_as s max b r -> zlen r <= Z.max (zlen s) (max + 400).
Proof.
  intros Hmax Hs [H1 H2]. destruct (decide (s = [])) as [->|Hne]; [rewrite H2; auto; lia|].
  destruct (decide (max <> 0 /\ zlen s <= max)) as [Hd|Hd]; [rewrite H2; auto; lia|].
  destruct H1 as (before & mid & after & Hb & _ & ->); [lia|done|].
  rewrite !zlen_app. pose proof (bs_before _ _ _ _ _ _ Hb). pose proof (bs_after _ _ _ _ _ _ Hb).
  match goal with |- context [format_truncation_marker b ?z] => pose proof (marker_short b z) as Hm end.
  assert (Z.of_nat (length mid) <= zlen s) as Hl.
  { rewrite (bs_parts _ _ _ _ _ _ Hb), !zlen_app. pose proof (zlen_nonneg before).
    pose proof (zlen_nonneg after). pose proof (zlen_ge_length mid). lia. }
  assert (forall z, z <= USIZE_MAX -> approx_tokens_from_byte_count z <= USIZE_MAX) as Ha.
  { intros z Hz. unfold approx_tokens_from_byte_count, usat_add, usat_sub, APPROX_BYTES_PER_TOKEN, USIZE_MAX in *.
    apply Z.div_le_upper_bound; lia. }
  destruct b; [specialize (Ha (zlen s - max) ltac:(lia))|]; specialize (Hm ltac:(lia)); lia.
Qed.

Lemma selected_fits l : forall r kept,
  0 <= r <= COMPACT_USER_MESSAGE_MAX_TOKENS -> Forall (fun m => zlen m <= USIZE_MAX) l ->
  select_messages l r = Ok kept -> Forall (fun m => zlen m <= USIZE_MAX) kept.
Proof.
  induction l as [|m l IH]; intros r kept Hr Hl; cbn [select_messages]; [by intros [= <-]|].
  apply Forall_cons in Hl as [Hm Hl]. destruct (r =? 0); [by intros [= <-]|].
  destruct (Z.leb_spec (approx_token_count m) r) as [Hle|Hgt].
  - intros (kept' & E & [= <-])%bind_Ok. constructor; [done|].
    eapply (IH _ _ _ Hl E). Unshelve. pose proof (item_cost_nonneg (Tokens 0) m). cbn [item_cost] in *. lia.
  - intros (t & E & [= <-])%bind_Ok. repeat constructor.
    destruct (truncate_text_returns m (Tokens r)) as (t' & E' & Ht); [cbn; lia|done|].
    rewrite E in E'. injection E' as <-. apply truncated_short in Ht; [|cbn|done];
      unfold byte_budget, approx_bytes_for_tokens, usat_mul, APPROX_BYTES_PER_TOKEN,
        COMPACT_USER_MESSAGE_MAX_TOKENS, USIZE_MAX in *; lia.
Qed.

Lemma rebuilt_fits (m : manager) message :
  Forall (text_fits from_xml_str) (items m) -> zlen message <= USIZE_MAX ->
  exists rebuilt, build_compacted_history [] (collect_user_messages from_xml_str (items m)) message
      = Ok rebuilt /\ Forall (text_fits from_xml_str) rebuilt.
Proof.
  intros Hm%collect_fits Hs. unfold build_compacted_history, build_compacted_history_with_limit.
  rewrite (proj2 (Z.ltb_lt 0 COMPACT_USER_MESSAGE_MAX_TOKENS)) by done.
  apply Forall_reverse in Hm.
  destruct (select_messages_returns _ 0 COMPACT_USER_MESSAGE_MAX_TOKENS ltac:(done) Hm)
    as (kept & o & E & _). rewrite E. cbn [res_bind]. eexists. split; [done|]. cbn [app].
  apply selected_fits in E; [|done|done]. apply Forall_app. split.
  - apply Forall_fmap, Forall_reverse. eapply Forall_impl; [done|]. intros t. apply user_item_fits.
  - repeat constructor. apply user_item_fits. by destruct message.
Qed.

Lemma replay_returns item (st : manager * bool) :
  Forall (text_fits from_xml_str) (shown st) -> line_fits item ->
  exists st', replay item st = Ok st' /\ Forall (text_fits from_xml_str) (shown st').
Proof.
  destruct st as [m b]. unfold shown. cbn [fst]. intros Hm Hi.
  destruct item as [|i|c| |[n| | | | | |]]; cbn [replay_item line_fits] in *; try (by eexists).
  - destruct (record_fits m i Hm Hi) as (m' & -> & ?). by eexists.
  - destruct Hi as [Hh Hc]. destruct (replacement_history c) as [h|]; cbn [default] in Hh.
    + eexists. split; [done|]. eapply Forall_impl; [done|]. by intros ? [].
    + destruct (rebuilt_fits m _ Hm Hc) as (r & -> & ?). by eexists.
  - destruct (drop_fits m n Hi Hm) as (m' & -> & ?). by eexists.
Qed.

Lemma materialize_returns l : forall st : manager * bool,
  Forall (text_fits from_xml_str) (shown st) -> Forall line_fits l ->
  exists st', replay_all l st = Ok st' /\ Forall (text_fits from_xml_str) (shown st').
Proof.
  induction l as [|item l IH]; intros st Hst Hl; [by eexists|]. apply Forall_cons in Hl as [Hi Hl].
  destruct (replay_returns item st Hst Hi) as (st' & E & Hst'). cbn [materialize]. rewrite E.
  by apply IH.
Qed.
End determined.

(** ** Replay from the checkpoint *)

Definition is_checkpoint (item : RolloutItem) : bool :=
  match item with
  | Compacted c => if replacement_history c then true else false
  | _ => false
  end.

Definition is_rollback (item : RolloutItem) : bool :=
  match item with EventLine (ThreadRolledBack _) => true | _ => false end.

(** The checkpoint [h] is in the part of the log already read; the suffix starts
    right after it or reaches further back. *)
Definition located (h : list ResponseItem) (suffix newer : list RolloutItem) : Prop :=
  exists c tail, replacement_history c = Some h /\ (Compacted c :: tail) `suffix_of` newer /\
    (suffix = tail \/ (Compacted c :: tail) `suffix_of` suffix).

Lemma located_cons h s newer item : located h s newer -> located h s (item :: newer).
Proof. intros (c & tail & ? & Hs & ?). exists c, tail. split_and!; try done. by apply suffix_cons_r. Qed.

Lemma located_newer h s newer item : located h s newer -> located h newer (item :: newer).
Proof.
  intros (c & tail & ? & Hs & ?). exists c, tail. split_and!; [done|by apply suffix_cons_r|by right].
Qed.

Lemma located_fits from_xml_str rollout read suffix h :
  Forall (line_fits from_xml_str) rollout -> read `suffix_of` rollout -> located h suffix read ->
  Forall (text_fits from_xml_str) h.
Proof.
  intros Hfit Hread (c & tail & Hc & Htail & _).
  assert ((Compacted c :: tail) `suffix_of` rollout) as [pre Epre] by (by etransitivity).
  rewrite Epre in Hfit. apply Forall_app in Hfit as [_ [[Hh _] _]%Forall_cons].
  rewrite Hc in Hh. eapply Forall_impl; [exact Hh|]. by intros ? [].
Qed.

Section checkpoint.
Context (from_xml_str : str -> option (str * str)) (is_inter_agent_json : str -> bool).
Context (rollout : list RolloutItem).
#[local] Notation step := (scan_item from_xml_str is_inter_agent_json).

Definition active_base (st : ReplayScan) : option (list ResponseItem) := seg_base (get_segment st).

Record scan_ok (newer : list RolloutItem) (st : ReplayScan) : Prop := {
  ok_suffix : rollout_suffix st `suffix_of` rollout;
  ok_base : forall h, base_replacement_history st = Some h -> located h (rollout_suffix st) newer;
  ok_active : forall h, active_base st = Some h -> located h (rollout_suffix st) newer;
  ok_seen : forallb (negb ∘ is_checkpoint) newer = true -> rollout_suffix st = rollout;
  ok_kept : forallb (negb ∘ is_rollback) rollout = true ->
    pending_rollback_turns st = 0 /\
    (rollout_suffix st = rollout \/ is_Some (base_replacement_history st) \/ is_Some (active_base st))
}.

Lemma scan_ok_cons newer st item : scan_ok newer st -> scan_ok (item :: newer) st.
Proof.
  intros [Hs Hb Ha Hn Hk]. split; try done.
  - intros h Hh. by apply located_cons, Hb.
  - intros h Hh. by apply located_cons, Ha.
  - cbn [forallb]. intros [_ H]%andb_true_iff. by apply Hn.
Qed.

(** Reading an item that neither is a checkpoint nor ends the segment. *)
Lemma scan_ok_active newer st seg :
  scan_ok newer st -> seg_base seg = active_base st -> scan_ok newer (with_active st (Some seg)).
Proof. intros [Hs Hb Ha Hn Hk] E. split; unfold active_base in *; cbn in *; rewrite ?E; done. Qed.

Lemma scan_ok_finalize newer st seg :
  scan_ok newer st -> active_segment st = Some seg ->
  scan_ok newer (finalize_active_segment seg (with_active st None)).
Proof.
  intros [Hs Hb Ha Hn Hk] E. unfold active_base, get_segment in *. rewrite E in *. cbn [default] in *.
  unfold finalize_active_segment. cbn [pending_rollback_turns with_active].
  destruct (Z.ltb_spec 0 (pending_rollback_turns st)) as [Hp|Hp].
  - destruct (counts_as_user_turn seg); (split; cbn; [done|done|done|done|]);
      intros Hr; destruct (Hk Hr) as [H0 _]; lia.
  - split; cbn; [done| |done|done|].
    + intros h. destruct (base_replacement_history st) as [h'|]; [apply Hb|apply Ha].
    + intros Hr. destruct (Hk Hr) as [-> Hc]. split; [done|].
      destruct (base_replacement_history st); [by right; left|].
      destruct Hc as [Hc|[[? Hc]|Hc]]; [by left|done|by right; left].
Qed.

Lemma scan_ok_compacted newer st c :
  (Compacted c :: newer) `suffix_of` rollout -> scan_ok newer st ->
  scan_ok (Compacted c :: newer) (scan_compacted c newer st).
Proof.
  intros Hsuf Hok. unfold scan_compacted. cbv zeta.
  set (seg := if is_never_set _ then _ else _).
  assert (seg_base seg = active_base st) as Eb by (unfold seg, active_base; by case_match).
  destruct (seg_base seg) as [h|] eqn:Es.
  { apply scan_ok_cons, scan_ok_active; [done|congruence]. }
  destruct (replacement_history c) as [h|] eqn:Eh;
    [|apply scan_ok_cons, scan_ok_active; [done|congruence]].
  destruct Hok as [Hs Hb Ha Hn Hk]. split; cbn.
  - by apply suffix_cons_l in Hsuf.
  - intros h' Hh'. by eapply located_newer, Hb.
  - intros h' [= <-]. exists c, newer. split_and!; try done. by left.
  - unfold is_checkpoint. by rewrite Eh.
  - intros Hr. destruct (Hk Hr) as [? _]. split; [done|]. right; right. by eexists.
Qed.

Lemma scan_ok_item newer st item :
  (item :: newer) `suffix_of` rollout -> scan_ok newer st ->
  scan_ok (item :: newer) (step item newer st).
Proof.
  intros Hsuf Hok. destruct item as [|i|c|ctx|msg]; cbn [scan_item].
  - by apply scan_ok_cons.
  - by apply scan_ok_cons, scan_ok_active.
  - by apply scan_ok_compacted.
  - apply scan_ok_cons, scan_ok_active; [done|]. unfold active_base. by repeat case_match.
  - destruct msg as [n|id|id|id| | |]; cbn [scan_event]; apply scan_ok_cons; try done.
    + destruct Hok as [Hs Hb Ha Hn Hk]. split; cbn; try done. intros Hr. exfalso.
      destruct Hsuf as [k ->]. rewrite forallb_app in Hr. cbn in Hr. by rewrite andb_false_r in Hr.
    + destruct (active_segment st) eqn:E; [|done]. case_match; [|done]. by apply scan_ok_finalize.
    + apply scan_ok_active; [done|]. unfold active_base. by case_match.
    + destruct (active_segment st) as [seg|] eqn:E.
      * case_match; [done|]. case_match; [|done]. apply scan_ok_active; [done|].
        unfold active_base, get_segment. by rewrite E.
      * case_match; [|done]. apply scan_ok_active; [done|]. unfold active_base, get_segment. by rewrite E.
    + by apply scan_ok_active.
Qed.

(** The scan of all of the log, or of its newest part when it stops early. *)
Lemma scan_reverse_ok older : forall newer st,
  rollout = reverse older ++ newer -> scan_ok newer st ->
  exists read, read `suffix_of` rollout /\
    scan_ok read (scan_reverse from_xml_str is_inter_agent_json older newer st) /\
    (read = rollout \/ scan_done (scan_reverse from_xml_str is_inter_agent_json older newer st) = true).
Proof.
  induction older as [|item older IH]; intros newer st E Hok.
  { exists newer. split_and!; [by exists []|done|by left]. }
  rewrite reverse_cons, <- app_assoc in E. cbn [scan_reverse app] in *.
  assert ((item :: newer) `suffix_of` rollout) as Hsuf by (by eexists).
  pose proof (scan_ok_item newer st item Hsuf Hok) as Hok'.
  destruct (scan_done _) eqn:Ed; [|by apply IH]. exists (item :: newer). split_and!; auto.
Qed.

Lemma scan_rollout_ok :
  exists read, read `suffix_of` rollout /\ scan_ok read (scan_rollout from_xml_str is_inter_agent_json rollout) /\
    active_segment (scan_rollout from_xml_str is_inter_agent_json rollout) = None /\
    (read = rollout \/ is_Some (base_replacement_history (scan_rollout from_xml_str is_inter_agent_json rollout))).
Proof.
  unfold scan_rollout. set (st := scan_reverse _ _ _ _ _).
  destruct (scan_reverse_ok (reverse rollout) [] (mk_scan None None NeverSet 0 rollout None))
    as (read & Hread & Hok & Hend); [by rewrite reverse_involutive, app_nil_r|split; cbn; auto; done|].
  fold st in Hok, Hend. exists read. split; [done|].
  assert (read = rollout \/ is_Some (base_replacement_history st)) as Hend'.
  { destruct Hend as [?|Hd]; [by left|right]. unfold scan_done in Hd.
    destruct (base_replacement_history st); [by eexists|done]. }
  unfold finish_scan. destruct (active_segment st) as [seg|] eqn:E; [|done].
  split_and!; [by apply scan_ok_finalize| |].
  - unfold finalize_active_segment. by repeat case_match.
  - destruct Hend' as [?|[h Hh]]; [by left|right]. unfold finalize_active_segment. cbn.
    destruct (0 <? _); [destruct (counts_as_user_turn seg)|]; cbn; rewrite Hh; by exists h.
Qed.
End checkpoint.

Section equivalence.
Context (from_xml_str : str -> option (str * str)) (is_inter_agent_json : str -> bool).
Context (policy : TruncationPolicy).
#[local] Notation replay_all := (materialize from_xml_str is_inter_agent_json policy).
#[local] Notation scan := (scan_rollout from_xml_str is_inter_agent_json).
Hypothesis policy_ok : 0 <= policy_budget policy.

(** What precedes a checkpoint does not matter. *)
Lemma replay_past_checkpoint pre c tail h (st st' : manager * bool) :
  Forall (line_fits from_xml_str) pre -> Forall (text_fits from_xml_str) (shown st) ->
  replacement_history c = Some h -> shown st' = h ->
  res_map shown (replay_all (pre ++ Compacted c :: tail) st) = res_map shown (replay_all tail st').
Proof.
  intros Hpre Hst Hc <-. rewrite materialize_app.
  destruct (materialize_returns from_xml_str is_inter_agent_json policy policy_ok pre st Hst Hpre)
    as ([m b] & -> & _). cbn [res_bind materialize replay_item]. rewrite Hc. cbn [res_bind].
  by apply materialize_shown.
Qed.

Lemma replay_from_located rollout read h (st : manager * bool) suffix :
  Forall (line_fits from_xml_str) rollout -> Forall (text_fits from_xml_str) h -> shown st = h ->
  suffix `suffix_of` rollout -> read `suffix_of` rollout -> located h suffix read ->
  res_map shown (replay_all suffix st) = res_map shown (replay_all rollout (context_new, false)).
Proof.
  intros Hfit Hh Est [k Ek] Hread (c & tail & Hc & Htail & Hsuf).
  assert ((Compacted c :: tail) `suffix_of` rollout) as [pre Epre] by (by etransitivity).
  rewrite Epre in Hfit. apply Forall_app in Hfit as [Hpre Hfit].
  rewrite Epre, (replay_past_checkpoint pre c tail h _ st) by done.
  destruct Hsuf as [->|[mid ->]]; [done|].
  apply (replay_past_checkpoint mid c tail h st st); [|by rewrite Est|done|done].
  rewrite Epre, app_assoc in Ek. apply app_inv_tail in Ek. rewrite Ek in Hpre.
  by apply Forall_app in Hpre as [_ ?].
Qed.

(** The history that is reconstructed, and that of replaying the whole log. *)
Lemma reconstruct_is_replay rollout :
  Forall (line_fits from_xml_str) rollout ->
  forallb (negb ∘ is_rollback) rollout = true \/ forallb (negb ∘ is_checkpoint) rollout = true \/
    base_replacement_history (scan rollout) <> None ->
  exists r m legacy,
    reconstruct_history_from_rollout from_xml_str is_inter_agent_json policy rollout = Ok r /\
    replay_all rollout (context_new, false) = Ok (m, legacy) /\ history r = items m.
Proof.
  intros Hfit Hcond.
  destruct (scan_rollout_ok from_xml_str is_inter_agent_json rollout)
    as (read & Hread & [Hs Hb _ Hn Hk] & Hact & Hend).
  destruct (materialize_returns from_xml_str is_inter_agent_json policy policy_ok rollout
    (context_new, false) (Forall_nil_2 _) Hfit) as ([m b] & Em & _).
  unfold reconstruct_history_from_rollout. cbv zeta.
  set (st := (match base_replacement_history (scan rollout) with Some _ => _ | None => _ end, false)).
  assert (res_map shown (replay_all (rollout_suffix (scan rollout)) st) = Ok (items m)) as Hr.
  { transitivity (res_map shown (replay_all rollout (context_new, false))); [|by rewrite Em].
    destruct (base_replacement_history (scan rollout)) as [h|] eqn:Eb.
    - apply (replay_from_located rollout read h st); [done| |done|done|done|by apply Hb].
      by eapply located_fits; [| |apply Hb].
    - assert (rollout_suffix (scan rollout) = rollout) as ->; [|done].
      destruct Hend as [->|[? ?]]; [|done].
      destruct Hcond as [Hc|[Hc|Hc]]; [|by apply Hn|done].
      destruct (Hk Hc) as [_ [?|[[? ?]|[h Hh]]]]; [done|done|].
      unfold active_base, get_segment in Hh. by rewrite Hact in Hh. }
  apply res_map_Ok in Hr as ([m' b'] & -> & E). cbn [res_bind].
  eexists _, m, b. split_and!; [done|done|exact E].
Qed.

(** C38: replay from a checkpoint is replay of the whole log.  When the texts of
    the rollout are Rust strings, [reconstruct_history_from_rollout] returns,
    and the history it returns is the one that replaying every item of the log
    from an empty history gives, if the rollout has no rollback marker, or no
    checkpoint, or a checkpoint that survives the rollbacks: the items older
    than the checkpoint, and the point where the scan stops, do not matter. *)
Theorem replay_from_checkpoint rollout :
  Forall (line_fits from_xml_str) rollout ->
  forallb (negb ∘ is_rollback) rollout = true \/ forallb (negb ∘ is_checkpoint) rollout = true \/
    base_replacement_history (scan rollout) <> None ->
  exists r m legacy,
    reconstruct_history_from_rollout from_xml_str is_inter_agent_json policy rollout = Ok r /\
    replay_all rollout (context_new, false) = Ok (m, legacy) /\ history r = items m.
Proof. apply reconstruct_is_replay. Qed.
End equivalence.

(** ** The stack of turns

    The abstract account: a rollout is a sequence of turns, rollbacks and notes (the
    header of the session, other events).  A turn
    pushes its summary on a stack; a rollback pops summaries until as many turns
    of the user are gone as it says.  What survives is read off the stack. *)

Inductive RolloutEntry :=
| TurnEntry (turn_id : str) (body : list RolloutItem)
| RollbackEntry (num_turns : Z)
| NoteEntry (item : RolloutItem).

Definition is_note (item : RolloutItem) : bool :=
  match item with
  | SessionMetaItem _ | EventLine (TokenCount _) | EventLine (OtherEventMsg _) => true
  | _ => false
  end.

Definition entry_items (e : RolloutEntry) : list RolloutItem :=
  match e with
  | TurnEntry turn_id body => EventLine (TurnStarted turn_id) :: body
  | RollbackEntry num_turns => [EventLine (ThreadRolledBack num_turns)]
  | NoteEntry item => [item]
  end.

Definition entries_items (l : list RolloutEntry) : list RolloutItem := l ≫= entry_items.

(** The items that one turn writes. *)
Definition in_turn (turn_id : str) (item : RolloutItem) : Prop :=
  match item with
  | EventLine (TurnStarted _) | EventLine (ThreadRolledBack _) => False
  | EventLine (TurnComplete id) => id = turn_id
  | EventLine (TurnAbortedEvent id) => id = None \/ id = Some turn_id
  | TurnContext ctx => tc_turn_id ctx = None \/ tc_turn_id ctx = Some turn_id
  | _ => True
  end.

Definition entry_ok (e : RolloutEntry) : Prop :=
  match e with
  | TurnEntry turn_id body => Forall (in_turn turn_id) body
  | RollbackEntry num_turns => 0 <= num_turns
  | NoteEntry item => is_note item = true
  end.

Record TurnSummary := mk_summary {
  by_user : bool;
  settings : option PreviousTurnSettings;
  context : TurnReferenceContextItem;
  checkpoint : option (list ResponseItem)
}.

Definition settings_in (item : RolloutItem) : option PreviousTurnSettings :=
  match item with
  | TurnContext ctx => Some (mk_settings (tc_model ctx) (tc_realtime_active ctx))
  | _ => None
  end.

Definition context_in (item : RolloutItem) : option TurnReferenceContextItem :=
  match item with
  | TurnContext ctx => Some (Latest ctx)
  | Compacted _ => Some Cleared
  | _ => None
  end.

Definition checkpoint_in (item : RolloutItem) : option (list ResponseItem) :=
  match item with Compacted c => replacement_history c | _ => None end.

(** [drop_turns n] pops until [n] turns of the user are gone. *)
Fixpoint drop_turns (n : nat) (stack : list TurnSummary) : list TurnSummary :=
  match n, stack with
  | S k, t :: stack => drop_turns (if by_user t then k else n) stack
  | _, _ => stack
  end.

Lemma drop_turns_nil n : drop_turns n [] = [].
Proof. by destruct n. Qed.

Lemma drop_turns_0 stack : drop_turns 0 stack = stack.
Proof. by destruct stack. Qed.

Lemma drop_turns_add p n stack : drop_turns p (drop_turns n stack) = drop_turns (n + p) stack.
Proof.
  revert n. induction stack as [|t stack IH]; intros [|n]; [by destruct p..|done|].
  cbn [drop_turns Nat.add]. rewrite IH. by destruct (by_user t).
Qed.

Lemma drop_turns_all n m stack :
  (length stack <= n)%nat -> (length stack <= m)%nat -> drop_turns n stack = drop_turns m stack.
Proof.
  revert n m. induction stack as [|t stack IH]; intros [|n] [|m] Hn Hm; cbn [length] in *; try done; try lia.
  cbn [drop_turns]. destruct (by_user t); apply IH; lia.
Qed.

Definition first_some {A} (f : TurnSummary -> option A) (stack : list TurnSummary) : option A :=
  head (omap f stack).

Definition settings_of (t : TurnSummary) : option PreviousTurnSettings :=
  if by_user t then settings t else None.

(** A turn of the user says what the context is; a compaction always clears it. *)
Definition context_of (t : TurnSummary) : option TurnReferenceContextItem :=
  match context t with
  | NeverSet => None
  | Cleared => Some Cleared
  | Latest ctx => if by_user t then Some (Latest ctx) else None
  end.

Section stack.
Context (from_xml_str : str -> option (str * str)) (is_inter_agent_json : str -> bool).
#[local] Notation boundary := (is_user_turn_boundary from_xml_str is_inter_agent_json).
#[local] Notation scan_back := (scan_reverse from_xml_str is_inter_agent_json).
#[local] Notation step := (scan_item from_xml_str is_inter_agent_json).

Definition is_user_line (item : RolloutItem) : bool :=
  match item with
  | EventLine (UserMessageEvent _) => true
  | ResponseItemLine i => boundary i
  | _ => false
  end.

(** The settings a turn starts with, the context it ends with, its last checkpoint. *)
Definition summary (body : list RolloutItem) : TurnSummary :=
  mk_summary (existsb is_user_line body) (head (omap settings_in body))
    (default NeverSet (last (omap context_in body))) (last (omap checkpoint_in body)).

Definition push_entry (stack : list TurnSummary) (e : RolloutEntry) : list TurnSummary :=
  match e with
  | TurnEntry _ body => summary body :: stack
  | RollbackEntry num_turns => drop_turns (Z.to_nat num_turns) stack
  | NoteEntry _ => stack
  end.

(** The turns that survive, the newest first. *)
Definition surviving (l : list RolloutEntry) : list TurnSummary := foldl push_entry [] l.

Lemma last_omap_cons {A B} (f : A -> option B) x l :
  last (omap f (x :: l)) = match last (omap f l) with Some y => Some y | None => f x end.
Proof.
  change (x :: l) with ([x] ++ l). rewrite omap_app, last_app. cbn.
  destruct (last (omap f l)); [done|]. by destruct (f x).
Qed.

Lemma head_omap_cons {A B} (f : A -> option B) x l :
  head (omap f (x :: l)) = match f x with Some y => Some y | None => head (omap f l) end.
Proof. cbn. by destruct (f x). Qed.

Lemma push_entry_length stack e : (length (push_entry stack e) <= S (length stack))%nat.
Proof.
  destruct e as [|n|]; cbn; [lia| |lia]. generalize (Z.to_nat n). clear.
  induction stack as [|t stack IH]; intros [|k]; cbn [drop_turns length]; try lia.
  destruct (by_user t); etransitivity; [apply IH|lia|apply IH|lia].
Qed.

Lemma surviving_length l : (length (surviving l) <= length l)%nat.
Proof.
  induction l as [|e l IH] using rev_ind; [done|]. unfold surviving. rewrite foldl_app, length_app.
  cbn [foldl length]. pose proof (push_entry_length (surviving l) e). unfold surviving in *. lia.
Qed.

(** *** Reading one turn *)

(** The segment holds the summary of the part [body] of the turn. *)
Definition segment_reads (turn_id : str) (body : list RolloutItem) (o : option ActiveReplaySegment)
    : Prop :=
  let seg := default segment_default o in
  (seg_turn_id seg = None \/ seg_turn_id seg = Some turn_id) /\
  summary body = mk_summary (counts_as_user_turn seg) (seg_settings seg) (seg_reference seg) (seg_base seg).

(** Reading an item of a turn changes nothing but the segment and the suffix. *)
Definition same_result (st st' : ReplayScan) : Prop :=
  base_replacement_history st' = base_replacement_history st /\
  previous_turn_settings st' = previous_turn_settings st /\
  scan_reference st' = scan_reference st /\ pending_rollback_turns st' = pending_rollback_turns st.

Lemma context_last body :
  context (summary body) = default NeverSet (last (omap context_in body)) /\
  (is_never_set (context (summary body)) = true -> last (omap context_in body) = None).
Proof.
  unfold summary. cbn [context]. split; [done|].
  destruct (last (omap context_in body)) as [r|] eqn:E; [|done].
  apply last_Some_elem_of, list_elem_of_omap in E as (item & _ & E).
  by destruct item; simplify_eq/=.
Qed.

(** How an older item adds to the summary of what follows it. *)
Lemma summary_cons x body t :
  summary body = t ->
  summary (x :: body) =
  mk_summary (is_user_line x || by_user t)
    (match settings_in x with Some s => Some s | None => settings t end)
    (if is_never_set (context t) then default NeverSet (context_in x) else context t)
    (match checkpoint t with Some h => Some h | None => checkpoint_in x end).
Proof.
  intros <-. pose proof (context_last body) as [Hc Hn]. rewrite Hc in *. unfold summary.
  rewrite head_omap_cons, !last_omap_cons. cbn [existsb by_user settings checkpoint]. f_equal.
  destruct (last (omap context_in body)) as [[]|]; try done; by specialize (Hn eq_refl).
Qed.

Lemma segment_reads_step turn_id x body newer st :
  in_turn turn_id x -> segment_reads turn_id body (active_segment st) ->
  segment_reads turn_id (x :: body) (active_segment (step x newer st)) /\ same_result st (step x newer st).
Proof.
  unfold segment_reads, same_result. cbv zeta. fold (get_segment st). intros Hx [Hid Hsum].
  rewrite (summary_cons x body _ Hsum). cbn [by_user settings context checkpoint].
  destruct (get_segment st) as [id counts sets ref base] eqn:Eseg. cbn in Hid.
  destruct x as [|i|c|ctx|[n|id'|id'|id'| | |]]; cbn [in_turn] in Hx; try done;
    cbn [scan_item scan_event is_user_line settings_in context_in checkpoint_in orb default].
  1: fold (get_segment st); rewrite Eseg; split; [split; [done|]|done]; by destruct ref, base.
  - rewrite Eseg. cbn. split; [split; [done|]|done]. rewrite orb_comm. by destruct ref, base.
  - unfold scan_compacted. cbv zeta. rewrite Eseg. cbn.
    destruct ref, base, (replacement_history c); cbn; by split_and!.
  - unfold scan_turn_context. cbv zeta. rewrite Eseg. cbn.
    destruct Hid as [-> | ->], Hx as [-> | ->]; cbn; rewrite ?str_eqb_refl;
      destruct ref, base; cbn; split_and!; auto.
  - rewrite Eseg. cbn. subst id'. destruct Hid as [-> | ->]; cbn;
      destruct ref, base; cbn; split_and!; auto.
  - unfold get_segment in Eseg. destruct (active_segment st) as [seg|] eqn:Ea.
    + cbn in Eseg. subst seg. destruct Hid as [-> | ->], Hx as [-> | ->]; cbn; rewrite ?Ea; cbn;
        destruct ref, base; cbn; split_and!; auto.
    + cbn in Eseg. injection Eseg as <- <- <- <- <-.
      destruct Hx as [-> | ->]; cbn; rewrite ?Ea; cbn; split_and!; auto.
  - rewrite Eseg. cbn. destruct ref, base; cbn; by split_and!.
  - fold (get_segment st); rewrite Eseg; split; [split; [done|]|done]; by destruct ref, base.
  - fold (get_segment st); rewrite Eseg; split; [split; [done|]|done]; by destruct ref, base.
Qed.

Lemma scan_body turn_id newest_first rest : forall read newer st,
  Forall (in_turn turn_id) newest_first -> segment_reads turn_id read (active_segment st) ->
  scan_done st = false ->
  exists newer' st', scan_back (newest_first ++ rest) newer st = scan_back rest newer' st' /\
    segment_reads turn_id (reverse newest_first ++ read) (active_segment st') /\ same_result st st'.
Proof.
  induction newest_first as [|x older IH]; intros read newer st Hin Hseg Hd.
  { exists newer, st. split_and!; done. }
  apply Forall_cons in Hin as [Hx Hin]. cbn [app scan_reverse].
  destruct (segment_reads_step turn_id x read newer st Hx Hseg) as [Hseg' Hsame].
  assert (scan_done (step x newer st) = false) as Hd'.
  { destruct Hsame as (E1 & E2 & E3 & _). unfold scan_done in *. by rewrite E1, E2, E3. }
  rewrite Hd'. destruct (IH (x :: read) (x :: newer) _ Hin Hseg' Hd') as (newer' & st' & -> & Hr & Hs).
  exists newer', st'. split_and!; [done| |].
  - by rewrite reverse_cons, <- app_assoc.
  - unfold same_result in *. destruct_and!. split_and!; congruence.
Qed.

(** *** Reading the turns *)

Definition result_of (st : ReplayScan)
    : option (list ResponseItem) * option PreviousTurnSettings * TurnReferenceContextItem :=
  (base_replacement_history st, previous_turn_settings st, scan_reference st).

(** What the scan finds when [stack] is what is left below. *)
Definition answers (st : ReplayScan) (stack : list TurnSummary)
    : option (list ResponseItem) * option PreviousTurnSettings * TurnReferenceContextItem :=
  (match base_replacement_history st with Some h => Some h | None => first_some checkpoint stack end,
   match previous_turn_settings st with Some s => Some s | None => first_some settings_of stack end,
   if is_never_set (scan_reference st) then default NeverSet (first_some context_of stack)
   else scan_reference st).

Lemma answers_done st stack : scan_done st = true -> answers st stack = result_of st.
Proof.
  unfold scan_done, answers, result_of.
  destruct (base_replacement_history st), (previous_turn_settings st), (scan_reference st); done.
Qed.

Lemma answers_nil st : answers st [] = result_of st.
Proof.
  unfold answers, result_of, first_some. cbn.
  by destruct (base_replacement_history st), (previous_turn_settings st), (scan_reference st).
Qed.

Lemma first_some_cons {A} (f : TurnSummary -> option A) t stack :
  first_some f (t :: stack) = match f t with Some a => Some a | None => first_some f stack end.
Proof. unfold first_some. apply head_omap_cons. Qed.

Lemma finalize_answers seg st stack :
  0 <= pending_rollback_turns st ->
  let t := mk_summary (counts_as_user_turn seg) (seg_settings seg) (seg_reference seg) (seg_base seg) in
  let st' := finalize_active_segment seg st in
  answers st (drop_turns (Z.to_nat (pending_rollback_turns st)) (t :: stack)) =
  answers st' (drop_turns (Z.to_nat (pending_rollback_turns st')) stack) /\
  0 <= pending_rollback_turns st' <= pending_rollback_turns st.
Proof.
  intros Hp. cbv zeta. destruct st as [b s r p suf act], seg as [id u ss sr sb]. cbn in *.
  unfold finalize_active_segment. cbn.
  destruct (Z.ltb_spec 0 p) as [Hlt|Hle].
  - destruct (Z.to_nat p) as [|k] eqn:Ek; [lia|]. cbn [drop_turns by_user].
    destruct u; cbn; [|rewrite Ek; split; [done|lia]].
    replace (Z.to_nat (p - 1)) with k by lia. split; [done|lia].
  - replace p with 0 by lia. change (Z.to_nat 0) with 0%nat. cbn [pending_rollback_turns].
    rewrite !drop_turns_0. split; [|lia]. unfold answers. rewrite !first_some_cons.
    generalize (first_some checkpoint stack), (first_some settings_of stack), (first_some context_of stack).
    intros. unfold settings_of, context_of.
    destruct b, s, r, u, sr, sb; try done; by destruct ss.
Qed.

Lemma finish_turn turn_id body newer st stack :
  segment_reads turn_id body (active_segment st) -> 0 <= pending_rollback_turns st ->
  let st' := step (EventLine (TurnStarted turn_id)) newer st in
  answers st (drop_turns (Z.to_nat (pending_rollback_turns st)) (summary body :: stack)) =
  answers st' (drop_turns (Z.to_nat (pending_rollback_turns st')) stack) /\
  0 <= pending_rollback_turns st' <= pending_rollback_turns st /\ active_segment st' = None.
Proof.
  intros [Hid Hsum] Hp. cbv zeta in *. rewrite Hsum. cbn [scan_item scan_event].
  destruct (active_segment st) as [seg|] eqn:Ea.
  - change (default segment_default (Some seg)) with seg in *. assert (turn_ids_are_compatible (seg_turn_id seg) (Some turn_id) = true) as ->.
    { destruct Hid as [-> | ->]; [done|apply str_eqb_refl]. }
    destruct (finalize_answers seg (with_active st None) stack Hp) as [E Hle]. cbv zeta in *.
    split_and!; [exact E|apply Hle..|]. unfold finalize_active_segment. by repeat case_match.
  - split_and!; [|lia..|done]. destruct (Z.to_nat (pending_rollback_turns st)) eqn:Ep; cbn [drop_turns by_user]; [|done].
    by rewrite drop_turns_0.
Qed.

Lemma surviving_snoc l e : surviving (l ++ [e]) = push_entry (surviving l) e.
Proof. unfold surviving. by rewrite foldl_app. Qed.

Lemma entries_items_snoc l e : entries_items (l ++ [e]) = entries_items l ++ entry_items e.
Proof. unfold entries_items. rewrite bind_app. cbn. by rewrite app_nil_r. Qed.

(** A saturated count still drops every turn there is. *)
Lemma drop_turns_saturated p n stack :
  0 <= p -> 0 <= n -> Z.of_nat (length stack) <= USIZE_MAX ->
  drop_turns (Z.to_nat (usat_add p n)) stack = drop_turns (Z.to_nat p) (drop_turns (Z.to_nat n) stack).
Proof.
  intros Hp Hn Hl. rewrite drop_turns_add. unfold usat_add.
  destruct (Z.leb_spec (p + n) USIZE_MAX).
  - f_equal. lia.
  - apply drop_turns_all; lia.
Qed.

Lemma scan_entries l : forall newer st,
  Forall entry_ok l -> Z.of_nat (length l) <= USIZE_MAX -> 0 <= pending_rollback_turns st ->
  active_segment st = None -> scan_done st = false ->
  let r := scan_back (reverse (entries_items l)) newer st in
  result_of r = answers st (drop_turns (Z.to_nat (pending_rollback_turns st)) (surviving l)) /\
  active_segment r = None.
Proof.
  induction l as [|e l IH] using rev_ind; intros newer st Hok Hlen Hp Ha Hd; cbv zeta.
  { unfold surviving. cbn [foldl]. by rewrite drop_turns_nil, answers_nil. }
  apply Forall_app in Hok as [Hok He]. apply Forall_cons_1 in He as [He _].
  rewrite length_app in Hlen. cbn [length] in Hlen. pose proof (surviving_length l) as Hsl.
  rewrite entries_items_snoc, reverse_app, surviving_snoc.
  destruct e as [id body|n|note]; cbn [entry_items entry_ok push_entry] in *.
  - rewrite reverse_cons, <- app_assoc.
    destruct (scan_body id (reverse body) ([EventLine (TurnStarted id)] ++ reverse (entries_items l)) [] newer st)
      as (newer' & st' & -> & Hseg & Hsame); [by apply Forall_reverse|rewrite Ha; split; [by left|done]|done|].
    rewrite reverse_involutive, app_nil_r in Hseg. destruct Hsame as (E1 & E2 & E3 & E4).
    assert (answers st = answers st') as -> by (unfold answers; by rewrite E1, E2, E3).
    rewrite <- E4 in *. cbn [app scan_reverse].
    destruct (finish_turn id body newer' st' (surviving l) Hseg Hp) as (-> & Hp' & Ha').
    destruct (scan_done (step _ newer' st')) eqn:Ed; [by rewrite answers_done|].
    by apply IH; [|lia|lia|..].
  - cbn [reverse app scan_reverse]. change (reverse [EventLine (ThreadRolledBack n)]) with [EventLine (ThreadRolledBack n)].
    cbn [app scan_reverse scan_item scan_event].
    change (scan_done (with_pending st _)) with (scan_done st). rewrite Hd.
    rewrite <- drop_turns_saturated by lia.
    destruct (IH (EventLine (ThreadRolledBack n) :: newer)
      (with_pending st (usat_add (pending_rollback_turns st) n))) as [-> ->]; try done; [lia|].
    cbn. unfold usat_add, USIZE_MAX. lia.
  - change (reverse [note]) with [note]. cbn [app scan_reverse].
    assert (step note newer st = st) as -> by (destruct note as [| | | |[]]; done). rewrite Hd.
    by apply IH; [|lia|..].
Qed.
End stack.

Definition is_legacy (item : RolloutItem) : bool :=
  match item with
  | Compacted c => if replacement_history c then false else true
  | _ => false
  end.

Section refinement.
Context (from_xml_str : str -> option (str * str)) (is_inter_agent_json : str -> bool).
Context (policy : TruncationPolicy).

(** The reconstruction returns, whatever the rollout. *)
Lemma reconstruct_returns rollout :
  0 <= policy_budget policy -> Forall (line_fits from_xml_str) rollout ->
  let scan := scan_rollout from_xml_str is_inter_agent_json rollout in
  exists m0 m legacy,
    materialize from_xml_str is_inter_agent_json policy (rollout_suffix scan) (m0, false) = Ok (m, legacy) /\
    rollout_suffix scan `suffix_of` rollout /\
    reconstruct_history_from_rollout from_xml_str is_inter_agent_json policy rollout =
      Ok (mk_reconstruction (items m) (previous_turn_settings scan)
            (if legacy then None else reference_value (scan_reference scan))).
Proof.
  intros Hp Hfit. cbv zeta.
  destruct (scan_rollout_ok from_xml_str is_inter_agent_json rollout)
    as (read & Hread & [Hs Hb _ _ _] & _).
  unfold reconstruct_history_from_rollout. cbv zeta.
  set (m0 := match base_replacement_history _ with Some _ => _ | None => _ end).
  destruct (materialize_returns from_xml_str is_inter_agent_json policy Hp
    (rollout_suffix (scan_rollout from_xml_str is_inter_agent_json rollout)) (m0, false)) as ([m b] & Em & _).
  { unfold m0. destruct (base_replacement_history _) as [h|] eqn:E; [|by constructor].
    eapply located_fits; [exact Hfit|exact Hread|by apply Hb]. }
  { destruct Hs as [pre Hs]. rewrite Hs in Hfit. by apply Forall_app in Hfit as [_ ?]. }
  exists m0, m, b. rewrite Em. done.
Qed.

(** Without a checkpoint all lines are replayed. *)
Lemma whole_suffix rollout :
  forallb (negb ∘ is_checkpoint) rollout = true ->
  rollout_suffix (scan_rollout from_xml_str is_inter_agent_json rollout) = rollout.
Proof.
  intros Hc. destruct (scan_rollout_ok from_xml_str is_inter_agent_json rollout)
    as (read & Hread & [_ _ _ Hn _] & _).
  apply Hn. destruct Hread as [pre ->]. rewrite forallb_app in Hc. by apply andb_true_iff in Hc as [_ ?].
Qed.

#[local] Notation survivors := (surviving from_xml_str is_inter_agent_json).

Lemma legacy_flag l : forall (m m' : manager) b b',
  materialize from_xml_str is_inter_agent_json policy l (m, b) = Ok (m', b') ->
  b' = b || existsb is_legacy l.
Proof.
  induction l as [|item l IH]; intros m m' b b' E; cbn [materialize existsb] in *.
  { injection E as <- <-. by rewrite orb_false_r. }
  apply bind_Ok in E as ([m1 b1] & E1 & E2). apply IH in E2 as ->.
  assert (b1 = b || is_legacy item) as ->; [|by rewrite orb_assoc].
  destruct item as [|i|c| |[n| | | | | |]]; cbn [replay_item is_legacy] in *; rewrite ?orb_false_r;
    try (by injection E1 as <- <-); try (by apply bind_Ok in E1 as (? & _ & [= <- <-])).
  destruct (replacement_history c); [by injection E1 as <- <-; rewrite orb_false_r|].
  apply bind_Ok in E1 as (? & _ & [= <- <-]). by rewrite orb_true_r.
Qed.

End refinement.

(** ** Runs *)

Definition no_agent (_ : str) : bool := false.

Definition turn_context_of (id model_name : string) : TurnContextItem :=
  mk_turn_context (Some (lit id)) (lit model_name) None [].

Definition a_turn (id model_name asks answer : string) : RolloutEntry :=
  TurnEntry (lit id)
    [TurnContext (turn_context_of id model_name); EventLine (UserMessageEvent []);
     ResponseItemLine (user asks); ResponseItemLine (reply answer); EventLine (TurnComplete (lit id))].

(** A turn in which the history is compacted before the reply. *)
Definition a_compacted_turn (id model_name asks answer : string) (h : list ResponseItem) : RolloutEntry :=
  TurnEntry (lit id)
    [EventLine (UserMessageEvent []); ResponseItemLine (user asks);
     Compacted (mk_compacted [] (Some h)); TurnContext (turn_context_of id model_name);
     ResponseItemLine (reply answer); EventLine (TurnComplete (lit id))].

(** The second turn compacts; the third is rolled back. *)
Definition demo_rollout : list RolloutEntry :=
  [NoteEntry (SessionMetaItem []); a_turn "1" "m1" "one" "first";
   a_compacted_turn "2" "m2" "two" "second" [user "one"; user "two"; user "summary"];
   a_turn "3" "m3" "three" "third"; RollbackEntry 1].

Definition line_fits_dec (item : RolloutItem) : bool :=
  let fits i := match user_text no_xml i with Some m => zlen m <=? USIZE_MAX | None => true end in
  match item with
  | ResponseItemLine (Message _ _ _ _ as i) => fits i
  | ResponseItemLine _ => false
  | Compacted c => forallb (fun i => match i with Message _ _ _ _ => fits i | _ => false end)
                     (default [] (replacement_history c)) && (zlen (compacted_message c) <=? USIZE_MAX)
  | EventLine (ThreadRolledBack n) => 0 <=? n
  | _ => true
  end.

Lemma line_fits_decided l : forallb line_fits_dec l = true -> Forall (line_fits no_xml) l.
Proof.
  assert (forall i, match i with
    | Message _ _ _ _ => match user_text no_xml i with Some m => zlen m <=? USIZE_MAX | None => true end
    | _ => false end = true -> response_fits no_xml i) as Hi.
  { intros i H. destruct i; try done. split; [done|]. intros m Em. rewrite Em in H. by apply Z.leb_le. }
  intros H. apply Forall_forall. intros x Hx. rewrite forallb_forall in H.
  specialize (H x (proj1 (list_elem_of_In _ _) Hx)).
  destruct x as [|i|c| |[n| | | | | |]]; cbn [line_fits line_fits_dec] in *; try done.
  - apply Hi. by destruct i.
  - apply andb_true_iff in H as [H1 H2]. split; [|by apply Z.leb_le].
    apply Forall_forall. intros i Hii. apply Hi. rewrite forallb_forall in H1.
    specialize (H1 i (proj1 (list_elem_of_In _ _) Hii)). by destruct i.
  - by apply Z.leb_le.
Qed.

Lemma replay_from_checkpoint_witness :
  exists r m legacy,
    reconstruct_history_from_rollout no_xml no_agent (Bytes 100) (entries_items demo_rollout) = Ok r /\
    materialize no_xml no_agent (Bytes 100) (entries_items demo_rollout) (context_new, false) = Ok (m, legacy) /\
    history r = items m.
Proof.
  assert (0 <= policy_budget (Bytes 100)) as H1 by (vm_compute; discriminate).
  assert (Forall (line_fits no_xml) (entries_items demo_rollout)) as H2
    by (apply line_fits_decided; vm_compute; reflexivity).
  assert (base_replacement_history (scan_rollout no_xml no_agent (entries_items demo_rollout)) <> None) as H3
    by (vm_compute; discriminate).
  exact (replay_from_checkpoint no_xml no_agent (Bytes 100) H1 (entries_items demo_rollout) H2
    (or_intror (or_intror H3))).
Defined.

(** A last turn that compacts in the legacy way. *)
Definition a_legacy_turn : RolloutEntry :=
  TurnEntry (lit "4") [TurnContext (turn_context_of "4" "m4"); EventLine (UserMessageEvent []);
    ResponseItemLine (user "four"); Compacted (mk_compacted (lit "summary") None); EventLine (TurnComplete (lit "4"))].


Example demo_rollout_history :
  exists r, reconstruct_history_from_rollout no_xml no_agent (Bytes 100) (entries_items demo_rollout) = Ok r /\
    history r = [user "one"; user "two"; user "summary"; reply "second"].
Proof. eexists. split; vm_compute; reflexivity. Qed.

(** When the turn that compacted is the one rolled back, no checkpoint survives,
    but the suffix still starts after its checkpoint: everything before is lost and
    the reply that was rolled back is all that remains, where the replay of the
    whole log has neither. *)
Example rolled_back_checkpoint_loses_history :
  let rollout := entries_items
    [a_turn "1" "m1" "one" "first";
     a_compacted_turn "2" "m2" "two" "second" [user "one"; user "two"; user "summary"];
     RollbackEntry 1] in
  (exists r, reconstruct_history_from_rollout no_xml no_agent (Bytes 100) rollout = Ok r /\
     history r = [reply "second"]) /\
  (exists m, materialize no_xml no_agent (Bytes 100) rollout (context_new, false) = Ok (m, false) /\
     items m = [user "one"; user "two"]).
Proof. split; eexists; (split; [vm_compute; reflexivity|vm_compute; reflexivity]). Qed.
