(* ===== verification/RolloutSession.v ===== *)
(** * Sessions resumed, forked and rolled back ([core/src/session/mod.rs],
      [core/src/session/handlers.rs], [core/src/thread_rollout_truncation.rs])

    The part of a session that comes from its log: the history, the settings of
    the previous turn and the window of automatic compaction.  Starting a session
    from a log and rolling a thread back both run the reconstruction; a fork first
    cuts the log at a turn.  What a handler sends, writes to the log and flushes is
    a list of effects in order; the results of the thread store are arguments. *)

From S2P Require Import RolloutReplay.
From Stdlib Require Import ZifyBool.
#[local] Open Scope Z_scope.

#[local] Notation manager := (@ContextManager TurnContextItem).

(** ** The window of automatic compaction ([core/src/state/auto_compact_window.rs]) *)

Inductive AutoCompactWindowPrefill :=
| ServerObserved (tokens : Z)
| Estimated (tokens : Z).

Record AutoCompactWindow := mk_window {
  ordinal : Z;
  prefill_input_tokens : option AutoCompactWindowPrefill
}.

Definition window_new : AutoCompactWindow := mk_window 1 None.

Definition clear_prefill (w : AutoCompactWindow) : AutoCompactWindow := mk_window (ordinal w) None.

Definition start_next (w : AutoCompactWindow) : AutoCompactWindow :=
  clear_prefill (mk_window (u64_sat_succ (ordinal w)) (prefill_input_tokens w)).

Definition ensure_server_observed_prefill_from_usage (w : AutoCompactWindow) (usage : TokenUsage)
    : AutoCompactWindow :=
  match prefill_input_tokens w with
  | Some (ServerObserved _) => w
  | _ => mk_window (ordinal w) (Some (ServerObserved (Z.max 0 (input_tokens usage))))
  end.

Definition set_estimated_prefill (w : AutoCompactWindow) (tokens : Z) : AutoCompactWindow :=
  match prefill_input_tokens w with
  | Some (ServerObserved _) => w
  | _ => mk_window (ordinal w) (Some (Estimated (Z.max 0 tokens)))
  end.

Definition snapshot (w : AutoCompactWindow) : Z * option Z :=
  (ordinal w,
   match prefill_input_tokens w with
   | Some (ServerObserved tokens) | Some (Estimated tokens) => Some tokens
   | None => None
   end).

(** ** The state of the session *)

Record SessionState := mk_session {
  session_history : manager;
  session_settings : option PreviousTurnSettings;
  auto_compact_window : AutoCompactWindow;
  next_turn_is_first : bool
}.

Definition session_state_new : SessionState := mk_session context_new None window_new true.

Definition set_history (s : SessionState) (m : manager) : SessionState :=
  mk_session m (session_settings s) (auto_compact_window s) (next_turn_is_first s).
Definition set_window (s : SessionState) (w : AutoCompactWindow) : SessionState :=
  mk_session (session_history s) (session_settings s) w (next_turn_is_first s).

Definition set_previous_turn_settings (s : SessionState) (p : option PreviousTurnSettings) : SessionState :=
  mk_session (session_history s) p (auto_compact_window s) (next_turn_is_first s).

Definition set_next_turn_is_first (s : SessionState) (value : bool) : SessionState :=
  mk_session (session_history s) (session_settings s) (auto_compact_window s) value.

Definition take_next_turn_is_first (s : SessionState) : bool * SessionState :=
  (next_turn_is_first s, set_next_turn_is_first s false).

Definition replace_history (s : SessionState) (l : list ResponseItem) (reference : option TurnContextItem)
    : SessionState :=
  let s := set_history s (set_reference_context_item (replace (session_history s) l) reference) in
  set_window s (clear_prefill (auto_compact_window s)).

(** ** What the handlers do outside the state *)

Inductive Sent :=
| SentError (message : str)
| SentWarning (message : str)
| SentTokenCount (info : option TokenUsageInfo)
| SentThreadRolledBack (num_turns : Z).

Inductive Effect :=
| SendEvent (e : Sent)
| AppendItems (l : list RolloutItem)
| MaterializeRollout
| FlushRollout.

(** The results of the thread store: a flush, the load, and a flush after. *)
Record LiveThread := mk_live_thread {
  flush_error : option str;
  load_history : str + list RolloutItem;
  flush_after_error : option str
}.

Inductive InitialHistory :=
| NewHistory
| ClearedHistory
| Resumed (l : list RolloutItem)
| Forked (l : list RolloutItem).

Definition scan_rollout_items (h : InitialHistory) (predicate : RolloutItem -> bool) : bool :=
  match h with
  | NewHistory | ClearedHistory => false
  | Resumed l | Forked l => existsb predicate l
  end.

Fixpoint last_token_info (newest_first : list RolloutItem) : option TokenUsageInfo :=
  match newest_first with
  | [] => None
  | EventLine (TokenCount (Some info)) :: _ => Some info
  | _ :: older => last_token_info older
  end.

Definition last_token_info_from_rollout (rollout_items : list RolloutItem) : option TokenUsageInfo :=
  last_token_info (reverse rollout_items).

Section session.
Variable from_xml_str : str -> option (str * str).
(** The [trigger_turn] field of the text as an inter-agent communication. *)
Variable inter_agent_trigger : str -> option bool.
Variable json_len : ResponseItem -> option Z.
Variable decode_image : str -> option (Z * Z).
(** The turn context, the slug of its model, and the scope of its token limit. *)
Variable turn : @CompactTurn TurnContextItem.
Variable slug : str.
Variable body_after_prefix : bool.

Definition is_inter_agent_json (text : str) : bool :=
  match inter_agent_trigger text with Some _ => true | None => false end.

#[local] Notation boundary := (is_user_turn_boundary from_xml_str is_inter_agent_json).
#[local] Notation reconstruct := (reconstruct_history_from_rollout from_xml_str is_inter_agent_json).
#[local] Notation estimate := (estimate_token_count_with_base_instructions json_len decode_image).

Definition rollout_item_is_user_turn_boundary (item : RolloutItem) : bool :=
  match item with ResponseItemLine item => boundary item | _ => false end.

Definition initial_history_has_prior_user_turns (h : InitialHistory) : bool :=
  scan_rollout_items h rollout_item_is_user_turn_boundary.

Definition set_auto_compact_window_estimated_prefill_for_scope (s : SessionState) (tokens : Z)
    : SessionState :=
  if negb body_after_prefix then s
  else set_window s (set_estimated_prefill (auto_compact_window s) tokens).

Definition apply_rollout_reconstruction (s : SessionState) (rollout_items : list RolloutItem)
    : res unit (SessionState * option PreviousTurnSettings) :=
  let? r := reconstruct (truncation_policy turn) rollout_items in
  let s := replace_history s (history r) (rr_reference_context_item r) in
  let prefix_tokens :=
    if body_after_prefix then estimate (session_history s) (base_instructions turn) else None in
  let s := match prefix_tokens with
           | Some tokens => set_auto_compact_window_estimated_prefill_for_scope s tokens
           | None => s
           end in
  Ok (set_previous_turn_settings s (rr_previous_turn_settings r), rr_previous_turn_settings r).

(** [recompute_token_usage]: the usage of the history and the window, then the event. *)
Definition recompute_session_usage (s : SessionState) : SessionState * list Effect :=
  match estimate (session_history s) (base_instructions turn) with
  | None => (s, [])
  | Some estimated_total_tokens =>
    let s := set_history s (recompute_token_usage json_len decode_image turn (session_history s)) in
    let s := set_auto_compact_window_estimated_prefill_for_scope s estimated_total_tokens in
    (s, [SendEvent (SentTokenCount (token_info (session_history s)))])
  end.

Definition seed_token_info (s : SessionState) (rollout_items : list RolloutItem) : SessionState :=
  match last_token_info_from_rollout rollout_items with
  | Some info => set_history s (set_token_info (session_history s) (Some info))
  | None => s
  end.

Definition model_warning (prev : str) : str :=
  lit "This session was recorded with model `" ++ prev ++ lit "` but is resuming with `" ++ slug
  ++ lit "`. Consider switching back to `" ++ prev ++ lit "` as it may affect Codex performance.".

Definition record_initial_history (is_subagent : bool) (s : SessionState) (h : InitialHistory)
    : res unit (SessionState * list Effect) :=
  let s := set_next_turn_is_first s (negb (initial_history_has_prior_user_turns h)) in
  let flush := if negb is_subagent then [FlushRollout] else [] in
  match h with
  | NewHistory | ClearedHistory => Ok (set_previous_turn_settings s None, [])
  | Resumed rollout_items =>
    let? applied := apply_rollout_reconstruction s rollout_items in
    let '(s, previous) := applied in
    let warning :=
      match previous with
      | Some settings => if negb (str_eqb (model settings) slug)
                         then [SendEvent (SentWarning (model_warning (model settings)))] else []
      | None => []
      end in
    Ok (seed_token_info s rollout_items, warning ++ flush)
  | Forked rollout_items =>
    let? applied := apply_rollout_reconstruction s rollout_items in
    let s := seed_token_info applied.1 rollout_items in
    let persist := match rollout_items with [] => [] | _ => [AppendItems rollout_items] end in
    Ok (s, persist ++ [MaterializeRollout] ++ flush)
  end.

Definition thread_rollback (s : SessionState) (has_active_turn : bool) (live_thread : option LiveThread)
    (num_turns : Z) : res unit (SessionState * list Effect) :=
  let fail done message := Ok (s, done ++ [SendEvent (SentError message)]) in
  if num_turns =? 0 then fail [] (lit "num_turns must be >= 1")
  else if has_active_turn then fail [] (lit "Cannot rollback while a turn is in progress.")
  else
    match live_thread with
    | None => fail [] (lit "thread rollback requires persisted thread history")
    | Some live_thread =>
      match flush_error live_thread with
      | Some err => fail [FlushRollout] (lit "failed to flush thread persistence for rollback replay: " ++ err)
      | None =>
        match load_history live_thread with
        | inl err => fail [FlushRollout] (lit "failed to load thread history for rollback replay: " ++ err)
        | inr stored =>
          let rollback_msg := EventLine (ThreadRolledBack num_turns) in
          let replay_items := stored ++ [rollback_msg] in
          let? applied := apply_rollout_reconstruction s replay_items in
          let '(s, usage) := recompute_session_usage applied.1 in
          let warning :=
            match flush_after_error live_thread with
            | Some err => [SendEvent (SentWarning (lit "Rolled the thread back, but failed to save the rollback marker. Codex will continue retrying. Error: " ++ err))]
            | None => []
            end in
          Ok (s, [FlushRollout] ++ usage ++ [AppendItems [rollback_msg]; FlushRollout] ++ warning
                 ++ [SendEvent (SentThreadRolledBack num_turns)])
        end
      end
    end.

(** ** Cutting a log at a turn ([core/src/thread_rollout_truncation.rs]) *)

Definition is_real_user_message_boundary (item : ResponseItem) : bool :=
  match parse_turn_item from_xml_str item with Some (UserMessage _) => true | _ => false end.

Definition trigger_of_content (content : list ContentItem) : option bool :=
  match content with
  | [InputText text] | [OutputText text] => inter_agent_trigger text
  | _ => None
  end.

Definition is_trigger_turn_boundary (item : ResponseItem) : bool :=
  match item with
  | Message _ role content _ => str_eqb role (lit "assistant") && default false (trigger_of_content content)
  | _ => false
  end.

Definition user_position_step (user_positions : list nat) (entry : nat * RolloutItem) : list nat :=
  let '(idx, item) := entry in
  match item with
  | ResponseItemLine (Message _ _ _ _ as item) =>
    if is_real_user_message_boundary item then user_positions ++ [idx] else user_positions
  | EventLine (ThreadRolledBack num_turns) =>
    take (length user_positions - Z.to_nat num_turns) user_positions
  | _ => user_positions
  end.

Definition user_message_positions_in_rollout (l : list RolloutItem) : list nat :=
  foldl user_position_step [] (imap pair l).

(** [checked_sub], the indexing that follows it, and the first position otherwise. *)
Definition position_from_end (positions : list nat) (n : Z) : res unit (option nat) :=
  if n <=? Z.of_nat (length positions) then
    let? p := from_opt (positions !! (length positions - Z.to_nat n)%nat) in Ok (Some p)
  else Ok (head positions).

Definition fork_position_step (st : list nat * list nat) (entry : nat * RolloutItem)
    : res unit (list nat * list nat) :=
  let '(rollback_turn_positions, fork_turn_positions) := st in
  let '(idx, item) := entry in
  match item with
  | ResponseItemLine item =>
    Ok (if boundary item then rollback_turn_positions ++ [idx] else rollback_turn_positions,
        if is_real_user_message_boundary item || is_trigger_turn_boundary item
        then fork_turn_positions ++ [idx] else fork_turn_positions)
  | EventLine (ThreadRolledBack num_turns) =>
    if num_turns =? 0 then Ok st
    else
      let? start := position_from_end rollback_turn_positions num_turns in
      match start with
      | None => Ok st
      | Some rollback_start_idx =>
        Ok (take (length rollback_turn_positions - Z.to_nat num_turns) rollback_turn_positions,
            base.filter (fun position => (position < rollback_start_idx)%nat) fork_turn_positions)
      end
  | _ => Ok st
  end.

Fixpoint fork_positions (l : list (nat * RolloutItem)) (st : list nat * list nat)
    : res unit (list nat * list nat) :=
  match l with
  | [] => Ok st
  | entry :: l => let? st := fork_position_step st entry in fork_positions l st
  end.

Definition fork_turn_positions_in_rollout (l : list RolloutItem) : res unit (list nat) :=
  let? st := fork_positions (imap pair l) ([], []) in Ok st.2.

Definition truncate_rollout_before_nth_user_message_from_start (l : list RolloutItem) (n_from_start : Z)
    : res unit (list RolloutItem) :=
  if n_from_start =? USIZE_MAX then Ok l
  else
    let user_positions := user_message_positions_in_rollout l in
    if Z.of_nat (length user_positions) <=? n_from_start then Ok l
    else
      let? cut_idx := from_opt (user_positions !! Z.to_nat n_from_start) in
      from_opt (slice l 0 cut_idx).

Definition truncate_rollout_to_last_n_fork_turns (l : list RolloutItem) (n_from_end : Z)
    : res unit (list RolloutItem) :=
  if n_from_end =? 0 then Ok []
  else
    let? fork_turn_positions := fork_turn_positions_in_rollout l in
    let? keep := position_from_end fork_turn_positions n_from_end in
    match keep with
    | None => Ok []
    | Some keep_idx => from_opt (slice l keep_idx (length l))
    end.
End session.

(** ** Rolling back and resuming *)

(** What a run writes to the log. *)
Definition appended (l : list Effect) : list RolloutItem :=
  l ≫= fun e => match e with AppendItems items => items | _ => [] end.

Section rolled_back.
Context (from_xml_str : str -> option (str * str)) (inter_agent_trigger : str -> option bool).
Context (json_len : ResponseItem -> option Z) (decode_image : str -> option (Z * Z)).
Context (turn : @CompactTurn TurnContextItem) (slug : str) (body_after_prefix : bool).
#[local] Notation apply_log := (apply_rollout_reconstruction from_xml_str inter_agent_trigger json_len
  decode_image turn body_after_prefix).
#[local] Notation rollback := (thread_rollback from_xml_str inter_agent_trigger json_len decode_image
  turn body_after_prefix).
#[local] Notation initial := (record_initial_history from_xml_str inter_agent_trigger json_len decode_image
  turn slug body_after_prefix).
Hypothesis policy_ok : 0 <= policy_budget (truncation_policy turn).

(** What the next turn starts from. *)
Definition thread_view (s : SessionState)
    : list ResponseItem * option TurnContextItem * option PreviousTurnSettings :=
  (items (session_history s), reference_context_item (session_history s), session_settings s).

Lemma prefill_view b s tokens :
  thread_view (set_auto_compact_window_estimated_prefill_for_scope b s tokens) = thread_view s.
Proof. by destruct b. Qed.

Lemma apply_view s rollout :
  Forall (line_fits from_xml_str) rollout ->
  exists r s', reconstruct_history_from_rollout from_xml_str (is_inter_agent_json inter_agent_trigger)
      (truncation_policy turn) rollout = Ok r /\
    apply_log s rollout = Ok (s', rr_previous_turn_settings r) /\
    thread_view s' = (history r, rr_reference_context_item r, rr_previous_turn_settings r).
Proof.
  intros Hfit. destruct (reconstruct_returns from_xml_str (is_inter_agent_json inter_agent_trigger)
    (truncation_policy turn) rollout policy_ok Hfit) as (_ & m & b & _ & _ & E).
  eexists _, _. split; [exact E|]. unfold apply_rollout_reconstruction. rewrite E. cbn [res_bind].
  split; [done|]. by destruct body_after_prefix.
Qed.

Lemma recompute_view s :
  thread_view (recompute_session_usage json_len decode_image turn body_after_prefix s).1 = thread_view s /\
  appended (recompute_session_usage json_len decode_image turn body_after_prefix s).2 = [].
Proof.
  unfold recompute_session_usage. cbn [estimate_token_count_with_base_instructions fst snd].
  rewrite prefill_view. done.
Qed.

Lemma seed_view s rollout : thread_view (seed_token_info s rollout) = thread_view s.
Proof. unfold seed_token_info. by case_match. Qed.

(** A rollback that cannot be done.  Without a number of turns, during a turn,
    without a log, or when the log cannot be flushed or read, the session is left
    as it was, nothing is written to the log, and one error is sent. *)
Theorem rollback_refused s active live n :
  n = 0 \/ active = true \/ live = None \/
    (exists l, live = Some l /\ (flush_error l <> None \/ exists err, load_history l = inl err)) ->
  exists before message,
    rollback s active live n = Ok (s, before ++ [SendEvent (SentError message)]) /\ (before = [] \/ before = [FlushRollout]).
Proof.
  intros H. unfold thread_rollback. cbv zeta.
  destruct (n =? 0) eqn:En; [eexists [], _; auto|].
  destruct active; [eexists [], _; auto|]. destruct live as [l|]; [|eexists [], _; auto].
  destruct (flush_error l) as [err|] eqn:Ef; [eexists [FlushRollout], _; auto|].
  destruct (load_history l) as [err|stored] eqn:El; [eexists [FlushRollout], _; auto|].
  exfalso. destruct H as [?|[?|[?|(l' & [= <-] & [?|[err ?]])]]]; [lia|congruence..].
Qed.

(** A rollback lasts.  Rolling a thread back by [n > 0] turns, while no turn
    runs and its log can be read, returns; it appends to the log exactly the
    marker of the rollback; and a session that resumes from the log so extended,
    whatever state it starts in, has the same history, the same reference context
    and the same settings of the previous turn as the session that was rolled
    back. *)
Theorem rollback_survives_resume s live stored n is_subagent fresh :
  0 < n -> Forall (line_fits from_xml_str) stored ->
  flush_error live = None -> load_history live = inr stored ->
  exists s' effects s'' effects',
    rollback s false (Some live) n = Ok (s', effects) /\
    appended effects = [EventLine (ThreadRolledBack n)] /\
    initial is_subagent fresh (Resumed (stored ++ appended effects)) = Ok (s'', effects') /\
    thread_view s'' = thread_view s' /\
    Forall (fun e => match e with AppendItems _ | MaterializeRollout => False | _ => True end) effects'.
Proof.
  intros Hn Hfit Hf Hl.
  assert (Forall (line_fits from_xml_str) (stored ++ [EventLine (ThreadRolledBack n)])) as Hfit'.
  { apply Forall_app. split; [done|]. constructor; [cbn; lia|done]. }
  destruct (apply_view s _ Hfit') as (r & s1 & Er & E1 & V1).
  destruct (recompute_view s1) as [V1' A1].
  unfold thread_rollback. cbv zeta. rewrite (proj2 (Z.eqb_neq _ _)), Hf, Hl, E1 by lia.
  cbn [res_bind fst]. destruct (recompute_session_usage _ _ _ _ s1) as [s1' usage]. cbn [fst snd] in *.
  set (effects := _ ++ _).
  assert (appended effects = [EventLine (ThreadRolledBack n)]) as Ha.
  { unfold effects, appended in *. rewrite !bind_app. cbn. rewrite A1. by destruct (flush_after_error live). }
  set (fresh' := set_next_turn_is_first fresh (negb (initial_history_has_prior_user_turns from_xml_str
    inter_agent_trigger (Resumed (stored ++ appended effects))))).
  destruct (apply_view fresh' _ Hfit') as (r' & s2 & Er' & E2 & V2). rewrite Er in Er'. injection Er' as <-.
  exists s1', effects, (seed_token_info s2 (stored ++ appended effects)). eexists.
  split_and!; [done|done| | |].
  - unfold record_initial_history. fold fresh'. rewrite Ha, E2. done.
  - rewrite seed_view. congruence.
  - destruct is_subagent, (rr_previous_turn_settings r) as [p|]; cbn;
      try destruct (negb (str_eqb _ _));
      by repeat constructor.
Qed.
End rolled_back.

(** ** Cutting the log *)

Lemma position_from_end_spec ps n :
  0 < n -> position_from_end ps n = Ok (ps !! (length ps - Z.to_nat n)%nat).
Proof.
  intros Hn. unfold position_from_end. destruct (Z.leb_spec n (Z.of_nat (length ps))) as [Hle|Hgt].
  - destruct (lookup_lt_is_Some_2 ps (length ps - Z.to_nat n)) as [p ->]; [lia|done].
  - replace (length ps - Z.to_nat n)%nat with 0%nat by lia. by destruct ps.
Qed.

Section cut.
Context (from_xml_str : str -> option (str * str)) (inter_agent_trigger : str -> option bool).
#[local] Notation positions := (user_message_positions_in_rollout from_xml_str).
#[local] Notation fork_step := (fork_position_step from_xml_str inter_agent_trigger).
#[local] Notation forks := (fork_positions from_xml_str inter_agent_trigger).

Lemma positions_in_rollout_snoc l x :
  positions (l ++ [x]) = user_position_step from_xml_str (positions l) (length l, x).
Proof.
  unfold user_message_positions_in_rollout. rewrite imap_app, foldl_app. cbn. by rewrite Nat.add_0_r.
Qed.

(** The positions are a stack: below a position nothing changes once it is pushed. *)
Lemma positions_stack l : forall n p,
  positions l !! n = Some p -> (p < length l)%nat /\ positions (take p l) = take n (positions l).
Proof.
  induction l as [|x l IH] using rev_ind; intros n p; [done|].
  rewrite positions_in_rollout_snoc, length_app. cbn [length]. intros H.
  assert (positions l !! n = Some p ->
    take n (user_position_step from_xml_str (positions l) (length l, x)) = take n (positions l) ->
    (p < length l + 1)%nat /\ positions (take p (l ++ [x])) =
      take n (user_position_step from_xml_str (positions l) (length l, x))) as Hold.
  { intros Hp ->. destruct (IH n p Hp) as [Hlt E]. split; [lia|]. by rewrite take_app_le by lia. }
  assert ((n < length (positions l))%nat -> positions l !! n = Some p ->
    take n (positions l ++ [length l]) = take n (positions l)) as Htake.
  { intros Hn _. by rewrite take_app_le by lia. }
  unfold user_position_step in *. destruct x as [|i| | |msg]; try (by apply Hold).
  - destruct i; try (by apply Hold). case_match; [|by apply Hold].
    apply lookup_app_Some in H as [H|[Hge H]].
    + apply Hold; [done|]. apply Htake; [|done]. by eapply lookup_lt_Some.
    + destruct (n - length (positions l))%nat eqn:En; [|done]. injection H as <-.
      assert (n = length (positions l)) as -> by lia. rewrite !take_app_length. split; [lia|done].
  - destruct msg; try (by apply Hold). apply lookup_take_Some in H as [H Hlt].
    apply Hold; [done|]. rewrite take_take. by rewrite Nat.min_l by lia.
Qed.

(** *** The messages that survive *)

Context (policy : TruncationPolicy).
#[local] Notation agent_json := (is_inter_agent_json inter_agent_trigger).
#[local] Notation boundary := (is_user_turn_boundary from_xml_str agent_json).
#[local] Notation real := (is_real_user_message_boundary from_xml_str).
#[local] Notation replay_all := (materialize from_xml_str agent_json policy).
#[local] Notation turns := (turns from_xml_str agent_json).

(** The messages of the user in a history. *)
Definition user_messages (l : list ResponseItem) : list ResponseItem := List.filter real l.

(** A line of a log without compactions, in which only messages of the user start
    turns. *)
Definition plain_line (x : RolloutItem) : bool :=
  match x with
  | Compacted _ => false
  | ResponseItemLine i => Bool.eqb (boundary i) (real i)
  | _ => true
  end.

Lemma user_messages_app l1 l2 : user_messages (l1 ++ l2) = user_messages l1 ++ user_messages l2.
Proof. apply List.filter_app. Qed.

Lemma turns_messages l : Forall (fun i => boundary i = real i) l -> turns l = length (user_messages l).
Proof.
  induction l as [|x l IH] using rev_ind; intros Hl; [done|].
  apply Forall_app in Hl as [Hl [Hx _]%Forall_cons]. rewrite turns_snoc, IH, Hx, user_messages_app, length_app by done.
  f_equal. unfold user_messages. cbn [List.filter]. by destruct (real x).
Qed.

Lemma messages_of_turnless l : Forall (fun i => boundary i = real i) l -> turns l = 0%nat -> user_messages l = [].
Proof. intros Hl Ht. rewrite turns_messages in Ht by done. by apply nil_length_inv. Qed.

(** A rollback keeps the first messages. *)
Lemma rollback_messages (m m' : manager) n :
  0 <= n -> Forall (fun i => boundary i = real i) (items m) ->
  drop_last_n_user_turns from_xml_str agent_json m n = Ok m' ->
  user_messages (items m') = take (length (user_messages (items m)) - Z.to_nat n) (user_messages (items m)) /\
  Forall (fun i => boundary i = real i) (items m').
Proof.
  intros Hn Hm E. destruct (decide (n = 0)) as [->|Hnz].
  { injection E as <-. rewrite Nat.sub_0_r, firstn_all. done. }
  destruct (decide (turns (items m) = 0%nat)) as [Ht|Ht].
  - pose proof (messages_of_turnless _ Hm Ht) as Hno. rewrite Hno. unfold drop_last_n_user_turns, History.turns in *.
    rewrite (proj2 (Z.eqb_neq _ _)) in E by done. destruct (user_message_positions _ _ (items m)); [|done].
    injection E as <-. cbn [items replace]. split; [|done]. by rewrite Hno.
  - destruct (drop_last_n_drops _ _ m n ltac:(lia) Ht) as (m2 & kept & ctx & dropped & E2 & <- & Hr & _).
    rewrite E in E2. injection E2 as <-. destruct Hr as [Hs _ Hk Hd _ _ _].
    rewrite Hs in Hm. pose proof Hm as [Hm1 [Hm2 Hm3]%Forall_app]%Forall_app. split; [|done].
    rewrite (turns_messages _ Hm1) in Hk. rewrite <- Hs in Hm. rewrite (turns_messages _ Hm) in Hk.
    rewrite Hs at 2. rewrite user_messages_app, take_app_le by lia. rewrite <- Hk. by rewrite firstn_all.
Qed.

(** Recording a line keeps its message. *)
Lemma record_messages (m m' : manager) i :
  0 <= policy_budget policy -> item_fits i -> boundary i = real i ->
  Forall (fun i => boundary i = real i) (items m) -> record_items m [i] policy = Ok m' ->
  user_messages (items m') = user_messages (items m) ++ (if real i then [i] else []) /\
  Forall (fun i => boundary i = real i) (items m').
Proof.
  intros Hp Hf Hi Hm E. cbn [record_items] in E. destruct (is_api_message i) eqn:Ea; cbn [negb] in E.
  - destruct (process_item_spec i policy Hp Hf) as (i' & Ei & Hr). rewrite Ei in E. cbn [res_bind] in E.
    injection E as <-. cbn [items set_items]. rewrite user_messages_app.
    assert (real i' = real i /\ boundary i' = boundary i /\ (real i = true -> i' = i)) as (H1 & H2 & H3).
    { destruct i; cbn [recorded_as] in Hr; try (by subst i'); by destruct Hr as (p & -> & _). }
    split; [|apply Forall_app; split; [done|repeat constructor; congruence]].
    f_equal. unfold user_messages. cbn [List.filter]. rewrite H1. destruct (real i); [by rewrite H3|done].
  - injection E as <-. split; [|done]. assert (real i = false) as ->; [|by rewrite app_nil_r].
    destruct i as [id role content ph| | | | | | | | | | | | | | |]; try done. cbn [is_api_message] in Ea.
    apply negb_false_iff, str_eqb_eq in Ea as ->. vm_compute. done.
Qed.

(** The positions are those of the messages that a replay leaves. *)
Lemma positions_replayed l : forall m b,
  0 <= policy_budget policy -> Forall (line_fits from_xml_str) l -> forallb plain_line l = true ->
  replay_all l (context_new, false) = Ok (m, b) ->
  Forall2 (fun p i => l !! p = Some (ResponseItemLine i)) (positions l) (user_messages (items m)) /\
  Forall (fun i => boundary i = real i) (items m).
Proof.
  induction l as [|x l IH] using rev_ind; intros m b Hp Hf Hpl E.
  { injection E as <- <-. split; constructor. }
  apply Forall_app in Hf as [Hf [Hx _]%Forall_cons].
  rewrite forallb_app in Hpl. apply andb_true_iff in Hpl as [Hpl [Hpx _]%andb_true_iff].
  rewrite materialize_app in E. apply bind_Ok in E as ([m1 b1] & E1 & E). cbn [materialize] in E.
  apply bind_Ok in E as ([m2 b2] & E2 & [= -> ->]).
  destruct (IH m1 b1 Hp Hf Hpl E1) as [H2 Hb]. rewrite positions_in_rollout_snoc.
  assert (Forall2 (fun p i => (l ++ [x]) !! p = Some (ResponseItemLine i)) (positions l) (user_messages (items m1))) as H2'.
  { eapply Forall2_impl; [exact H2|]. intros p i Hl. by apply lookup_app_l_Some. }
  destruct x as [|i|c| |[n| | | | | |]]; cbn [replay_item plain_line line_fits] in *; try (by injection E2 as <- <-); [| |].
  - apply bind_Ok in E2 as (m2 & E2 & [= <- <-]). apply Bool.eqb_prop in Hpx.
    destruct (record_messages m1 m2 i Hp (proj1 Hx) Hpx Hb E2) as [-> Hb2]. split; [|done].
    assert (user_position_step from_xml_str (positions l) (length l, ResponseItemLine i) =
      positions l ++ (if real i then [length l] else [])) as ->.
    { destruct i; cbn [user_position_step]; try (by rewrite app_nil_r). by destruct (real _); rewrite ?app_nil_r. }
    apply Forall2_app; [done|]. destruct (real i); repeat constructor. by apply list_lookup_middle.
  - done.
  - apply bind_Ok in E2 as (m2 & E2 & [= <- <-]).
    destruct (rollback_messages m1 m2 n Hx Hb E2) as [-> Hb2]. split; [|done]. cbn [user_position_step].
    rewrite (Forall2_length _ _ _ H2). by apply Forall2_take.
Qed.

Lemma positions_determine (l : list RolloutItem) ps is1 is2 :
  Forall2 (fun p i => l !! p = Some (ResponseItemLine i)) ps is1 ->
  Forall2 (fun p i => l !! p = Some (ResponseItemLine i)) ps is2 -> is1 = is2.
Proof.
  intros H. revert is2. induction H as [|p i ps is1 Hp _ IH]; intros is2 H2; inversion H2; subst; [done|].
  f_equal; [congruence|auto].
Qed.

(** A log without compactions is reconstructed by replaying it. *)
Lemma plain_reconstructed l :
  0 <= policy_budget policy -> Forall (line_fits from_xml_str) l -> forallb plain_line l = true ->
  exists r, reconstruct_history_from_rollout from_xml_str agent_json policy l = Ok r /\
    Forall2 (fun p i => l !! p = Some (ResponseItemLine i)) (positions l) (user_messages (history r)).
Proof.
  intros Hp Hf Hpl. destruct (reconstruct_is_replay from_xml_str agent_json policy Hp l Hf) as (r & m & b & E & Em & Eh).
  { right; left. rewrite forallb_forall in Hpl |- *. intros x Hx. specialize (Hpl x Hx). by destruct x. }
  exists r. split; [done|]. rewrite Eh. by eapply positions_replayed.
Qed.

(** C40: forking before a message.  Take a log whose texts are Rust strings, without
    compactions, in which only messages of the user start turns.  For every [n]
    [truncate_rollout_before_nth_user_message_from_start] returns a part of the log
    from its start, and the history that is reconstructed from it has exactly the
    first [n] of the messages of the user that the history of the whole log has,
    that is, of those that survive the rollbacks.  When there is a message number [n]
    (from 0) the cut is right before the line of that message, and otherwise nothing
    is cut. *)
Theorem fork_before_message l n :
  0 <= policy_budget policy -> Forall (line_fits from_xml_str) l -> forallb plain_line l = true ->
  0 <= n < USIZE_MAX ->
  exists r out r',
    reconstruct_history_from_rollout from_xml_str agent_json policy l = Ok r /\
    truncate_rollout_before_nth_user_message_from_start from_xml_str l n = Ok out /\
    reconstruct_history_from_rollout from_xml_str agent_json policy out = Ok r' /\
    out `prefix_of` l /\ user_messages (history r') = take (Z.to_nat n) (user_messages (history r)) /\
    match user_messages (history r) !! Z.to_nat n with
    | Some message => l !! length out = Some (ResponseItemLine message)
    | None => out = l
    end.
Proof.
  intros Hp Hf Hpl Hn. destruct (plain_reconstructed l Hp Hf Hpl) as (r & Er & H2).
  unfold truncate_rollout_before_nth_user_message_from_start. cbv zeta. rewrite (proj2 (Z.eqb_neq _ _)) by lia.
  pose proof (Forall2_length _ _ _ H2) as Hlen. destruct (Z.leb_spec (Z.of_nat (length (positions l))) n) as [Hge|Hlt].
  { exists r, l, r. rewrite firstn_all2, (proj2 (lookup_ge_None _ _)) by lia. by split_and!. }
  destruct (lookup_lt_is_Some_2 (positions l) (Z.to_nat n)) as [p Ep]; [lia|].
  destruct (positions_stack l _ _ Ep) as [Hlt' Et].
  destruct (Forall2_lookup_l _ _ _ _ _ H2 Ep) as (message & Em & Hm). rewrite Ep. cbn [from_opt res_bind].
  unfold slice. rewrite decide_True by lia. rewrite Nat.sub_0_r, drop_0.
  rewrite <- (take_drop p l) in Hf, Hpl. apply Forall_app in Hf as [Hf _].
  rewrite forallb_app in Hpl. apply andb_true_iff in Hpl as [Hpl _].
  destruct (plain_reconstructed (take p l) Hp Hf Hpl) as (r' & Er' & H2').
  exists r, (take p l), r'. split_and!; [done..|apply prefix_take| |rewrite Em; by rewrite length_take_le by lia].
  rewrite Et in H2'. apply (positions_determine l (take (Z.to_nat n) (positions l))); [|by apply Forall2_take].
  eapply Forall2_impl; [exact H2'|]. intros q i Hq. by apply lookup_take_Some in Hq as [? _].
Qed.

(** *** The last turns *)

Definition starts_fork_turn (item : RolloutItem) : bool :=
  match item with
  | ResponseItemLine item =>
    is_real_user_message_boundary from_xml_str item || is_trigger_turn_boundary inter_agent_trigger item
  | _ => false
  end.

Definition rollbacks_fit (l : list RolloutItem) : Prop :=
  Forall (fun x => match x with EventLine (ThreadRolledBack n) => 0 <= n | _ => True end) l.

(** Every position is that of an item that starts a turn, in order. *)
Definition fork_positions_ok (l : list RolloutItem) (ps : list nat) : Prop :=
  StronglySorted lt ps /\ Forall (fun p => exists x, l !! p = Some x /\ starts_fork_turn x = true) ps.

Lemma forks_app a b st : forks (a ++ b) st = let? st := forks a st in forks b st.
Proof.
  revert st. induction a as [|x a IH]; intros st; [done|]. cbn [app fork_positions].
  destruct (fork_step st x); [|done..]. apply IH.
Qed.

Lemma fork_positions_ok_snoc l x ps : fork_positions_ok l ps -> fork_positions_ok (l ++ [x]) ps.
Proof.
  intros [Hs Hf]. split; [done|]. eapply Forall_impl; [done|]. intros p (y & Hy & ?).
  exists y. split; [|done]. by apply lookup_app_l_Some.
Qed.

Lemma fork_positions_ok_push l x ps :
  fork_positions_ok l ps -> starts_fork_turn x = true -> fork_positions_ok (l ++ [x]) (ps ++ [length l]).
Proof.
  intros Hok Hx. pose proof (fork_positions_ok_snoc l x ps Hok) as [Hs Hf]. split.
  - apply StronglySorted_app_2; [|done|by repeat constructor]. intros p q Hp ->%list_elem_of_singleton.
    destruct Hok as [_ Hf']. rewrite Forall_forall in Hf'. destruct (Hf' p Hp) as (y & Hy & _).
    by eapply lookup_lt_Some.
  - apply Forall_app. split; [done|]. constructor; [|done]. exists x. split; [|done].
    by rewrite lookup_app_r, Nat.sub_diag by lia.
Qed.

Lemma fork_positions_ok_filter l P `{!forall p, Decision (P p)} ps :
  fork_positions_ok l ps -> fork_positions_ok l (base.filter P ps).
Proof.
  assert (forall Q qs, Forall Q qs -> Forall Q (base.filter P qs)) as Hfilter.
  { intros Q qs. rewrite !Forall_forall. intros HQ p [_ Hp]%list_elem_of_filter. by apply HQ. }
  intros [Hs Hf]. split; [|by apply Hfilter].
  induction Hs as [|p ps Hs IH Hp]; [constructor|]. rewrite filter_cons.
  apply Forall_cons in Hf as [_ Hf]. case_decide; [|by apply IH].
  constructor; [by apply IH|by apply Hfilter].
Qed.

Lemma forks_ok l : rollbacks_fit l ->
  exists st, forks (imap pair l) ([], []) = Ok st /\ fork_positions_ok l st.2.
Proof.
  induction l as [|x l IH] using rev_ind; intros Hl.
  { eexists. split; [done|]. split; constructor. }
  apply Forall_app in Hl as [Hl Hx]. apply Forall_cons_1 in Hx as [Hx _].
  destruct (IH Hl) as ([rs fs] & E & Hok). cbn [snd] in Hok.
  rewrite imap_app, forks_app, E. cbn [res_bind imap fork_positions]. unfold compose. rewrite Nat.add_0_r.
  destruct x as [|i| | |msg]; cbn [fork_position_step];
    try (eexists; split; [done|by apply fork_positions_ok_snoc]).
  - eexists. split; [done|]. cbn [snd]. case_match; [by apply fork_positions_ok_push|by apply fork_positions_ok_snoc].
  - destruct msg as [n| | | | | |]; try (eexists; split; [done|by apply fork_positions_ok_snoc]).
    destruct (Z.eqb_spec n 0); [eexists; split; [done|by apply fork_positions_ok_snoc]|].
    rewrite position_from_end_spec by lia. cbn [res_bind].
    destruct (rs !! _); (eexists; split; [done|]); cbn [snd];
      [by apply fork_positions_ok_filter, fork_positions_ok_snoc|by apply fork_positions_ok_snoc].
Qed.

(** Keeping the last turns.  [truncate_rollout_to_last_n_fork_turns] never
    panics; it returns the log from the [n]-th last position where a turn starts
    (the first one when there are fewer), where the positions that survive the
    rollbacks are in order and each holds a message of the user or a message of
    an agent that triggers a turn; it returns nothing when no turn is asked for or
    none is left. *)
Theorem fork_last_turns l n :
  rollbacks_fit l -> 0 <= n ->
  exists ps out, fork_turn_positions_in_rollout from_xml_str inter_agent_trigger l = Ok ps /\
    fork_positions_ok l ps /\
    truncate_rollout_to_last_n_fork_turns from_xml_str inter_agent_trigger l n = Ok out /\
    out = (if n =? 0 then []
           else match ps !! (length ps - Z.to_nat n)%nat with Some p => drop p l | None => [] end) /\
    (forall x rest, out = x :: rest -> starts_fork_turn x = true).
Proof.
  intros Hl Hn. destruct (forks_ok l Hl) as ([rs ps] & E & Hok). cbn [snd] in Hok.
  unfold truncate_rollout_to_last_n_fork_turns, fork_turn_positions_in_rollout. rewrite E.
  cbn [res_bind snd]. exists ps. destruct (Z.eqb_spec n 0) as [->|Hz].
  { exists []. by split_and!. }
  rewrite position_from_end_spec by lia. cbn [res_bind].
  destruct (ps !! _) as [p|] eqn:Ep; [|exists []; by split_and!].
  destruct Hok as [Hs Hf]. rewrite Forall_forall in Hf.
  destruct (Hf p) as (x & Hx & Hb); [by eapply list_elem_of_lookup_2|].
  pose proof (lookup_lt_Some _ _ _ Hx). rewrite slice_full by lia. exists (drop p l).
  split_and!; try done; [split; [done|by apply Forall_forall]|].
  intros y rest Ey. rewrite (drop_S _ _ _ Hx) in Ey. by injection Ey as -> _.
Qed.
End cut.

(** ** Runs *)

Definition demo_trigger (text : str) : option bool := if str_eqb text (lit "{agent}") then Some true else None.

Definition replay_turn : @CompactTurn TurnContextItem :=
  mk_compact_turn (Bytes 100) [] (Some 1000) 1 (lit "be brief") [] (turn_context_of "0" "m").

Definition two_turns : list RolloutItem :=
  entries_items [a_turn "1" "m1" "one" "first"; a_turn "2" "m2" "two" "second"].

Definition demo_store : LiveThread := mk_live_thread None (inr two_turns) (Some (lit "disk full")).

Lemma rollback_survives_resume_witness :
  exists s' effects s'' effects',
    thread_rollback no_xml demo_trigger fixed_length no_image replay_turn true session_state_new false
      (Some demo_store) 1 = Ok (s', effects) /\
    appended effects = [EventLine (ThreadRolledBack 1)] /\
    record_initial_history no_xml demo_trigger fixed_length no_image replay_turn (lit "m") true false session_state_new
      (Resumed (two_turns ++ appended effects)) = Ok (s'', effects') /\
    thread_view s'' = thread_view s'.
Proof.
  assert (0 <= policy_budget (truncation_policy replay_turn)) as H1 by (vm_compute; discriminate).
  assert (0 < 1) as H2 by lia.
  assert (Forall (line_fits no_xml) two_turns) as H3 by (apply line_fits_decided; vm_compute; reflexivity).
  destruct (rollback_survives_resume no_xml demo_trigger fixed_length no_image replay_turn (lit "m") true H1
    session_state_new demo_store two_turns 1 false session_state_new H2 H3 eq_refl eq_refl)
    as (s' & effects & s'' & effects' & E1 & E2 & E3 & E4 & _).
  exists s', effects, s'', effects'. split_and!; assumption.
Defined.

(** The rolled back session, the warning of the failed flush and the warning on
    resuming with another model. *)
Example demo_rollback :
  exists s effects s' effects',
    thread_rollback no_xml demo_trigger fixed_length no_image replay_turn false session_state_new false
      (Some demo_store) 1 = Ok (s, effects) /\
    items (session_history s) = [user "one"; reply "first"] /\
    session_settings s = Some (mk_settings (lit "m1") None) /\
    length (base.filter (fun e => match e with SendEvent (SentWarning _) => true | _ => false end = true) effects) = 1%nat /\
    record_initial_history no_xml demo_trigger fixed_length no_image replay_turn (lit "m") false false session_state_new
      (Resumed (two_turns ++ appended effects)) = Ok (s', effects') /\
    effects' = [SendEvent (SentWarning (model_warning (lit "m") (lit "m1"))); FlushRollout] /\
    next_turn_is_first s' = false.
Proof.
  eexists _, _, _, _. do 6 (split; [vm_compute; reflexivity|]). vm_compute; reflexivity.
Qed.

(** Three messages, of which the second was rolled back. *)
Definition demo_fork : list RolloutItem :=
  entries_items [a_turn "1" "m" "one" "first"; a_turn "2" "m" "two" "second"; RollbackEntry 1;
                 a_turn "3" "m" "three" "third"].

Lemma fork_before_message_witness :
  exists r out r',
    reconstruct_history_from_rollout no_xml (is_inter_agent_json demo_trigger) (Bytes 100) demo_fork = Ok r /\
    truncate_rollout_before_nth_user_message_from_start no_xml demo_fork 1 = Ok out /\
    reconstruct_history_from_rollout no_xml (is_inter_agent_json demo_trigger) (Bytes 100) out = Ok r' /\
    user_messages no_xml (history r) = [user "one"; user "three"] /\
    user_messages no_xml (history r') = [user "one"] /\ demo_fork !! length out = Some (ResponseItemLine (user "three")).
Proof.
  assert (0 <= policy_budget (Bytes 100)) as H1 by (vm_compute; discriminate).
  assert (Forall (line_fits no_xml) demo_fork) as H2 by (apply line_fits_decided; vm_compute; reflexivity).
  assert (forallb (plain_line no_xml demo_trigger) demo_fork = true) as H3 by (vm_compute; reflexivity).
  assert (0 <= 1 < USIZE_MAX) as H4 by (split; vm_compute; [discriminate|reflexivity]).
  destruct (fork_before_message no_xml demo_trigger (Bytes 100) demo_fork 1 H1 H2 H3 H4) as (r & out & r' & E1 & E2 & E3 & _ & E4 & E5).
  assert (user_messages no_xml (history r) = [user "one"; user "three"]) as Hr.
  { vm_compute in E1. injection E1 as <-. vm_compute. reflexivity. }
  rewrite Hr in E4, E5. exists r, out, r'. split_and!; assumption.
Defined.

Lemma fork_last_turns_witness :
  exists out, truncate_rollout_to_last_n_fork_turns no_xml demo_trigger demo_fork 1 = Ok out /\
    out = drop 16 demo_fork.
Proof.
  assert (rollbacks_fit demo_fork) as H1 by (repeat constructor; vm_compute; discriminate).
  destruct (fork_last_turns no_xml demo_trigger demo_fork 1 H1 ltac:(lia)) as (ps & out & Ep & _ & E & Eo & _).
  exists out. split; [exact E|]. rewrite Eo.
  replace ps with [3%nat; 16%nat] by (vm_compute in Ep; by injection Ep). reflexivity.
Defined.

(** A rollback counts the messages of other agents too, but the positions of the
    messages of the user are cut by that number: a message that is still in the
    history is no longer found in the log. *)
Example agent_rollback_hides_user_message :
  let rollout := [ResponseItemLine (user "one"); ResponseItemLine (reply "first");
                  ResponseItemLine (reply "{agent}"); ResponseItemLine (reply "second");
                  EventLine (ThreadRolledBack 1)] in
  (exists r, reconstruct_history_from_rollout no_xml (is_inter_agent_json demo_trigger) (Bytes 100) rollout = Ok r /\
     history r = [user "one"; reply "first"]) /\
  user_message_positions_in_rollout no_xml rollout = [] /\
  fork_turn_positions_in_rollout no_xml demo_trigger rollout = Ok [0%nat].
Proof. split; [eexists; split|split]; vm_compute; reflexivity. Qed.
